(* ===== verification/_CoqProject ===== *)
-Q . S2P
Prelude.v
Sql.v
ProofRequest.v
Where.v
Metrics.v
Encoding.v
Prog.v
Types.v
Script.v
Mutation.v
Builders.v
Select.v
Schema.v
Client.v
Hooks.v
Handles.v
Bulk.v
Spans.v
Db.v
Range.v
Partition.v
Steps.v
Json.v
Paths.v
Prove.v
Driver.v
Evolve.v
Pipeline.v
Stages.v
Correctness.v
Aggregation.v
Submission.v
Lifecycle.v
Machine.v
Concurrent.v
Pool.v
Fuel.v
RangeProofs.v
Wire.v
Ent.v
Race.v
Blocks.v
Debts.v
Coverage.v
Overlap.v
Restored.v
Flags.v
Service.v
ServiceProofs.v
Utils.v
UtilsProofs.v
Bindings.v
Oracle.v
Factory.v
BindingsProofs.v
Contracts.v
