(* ===== verification/Prelude.v ===== *)
(** * A verification development for the op-succinct proposer

    The proposer (Go, src/proposer/op/proposer) keeps a table of proof requests
    in SQLite and, in a loop, cuts the new L2 blocks into span proofs, has them
    proved by a server, joins completed span proofs into an aggregation proof,
    and proposes the result to a contract on L1.  A request moves through
    UNREQ, WITNESSGEN, PROVING, COMPLETE or FAILED; a failed one is replaced by
    a request over its range or by two over its halves.

    ** The program and its model

    - db/ent (generated): Sql.v is the table and what sqlgraph and SQLite do
      with a spec (class [SqlGraph] with the laws [SqlLaws]: what the generated
      code relies on; [ListSql] is an instance, with a list of rows and a script
      of failures).  ProofRequest.v is the entity: proofrequest/*.go,
      proofrequest.go, ent.go; Where.v the predicates and orders that the
      proposer has no use for (class [TextLib]: how the library looks for a
      part of a text).  Mutation.v is mutation.go.  Builders.v is the
      create, update, delete and query builders, client.go and tx.go; Select.v
      selections, group-by and aggregations; Client.v what the generated client
      offers beside (nillable setters, the variants that panic, ids, old
      values).  Hooks.v is hook/hook.go, the running of hooks and interceptors
      (ent.go), the options of a client and the hooks of a transaction;
      Handles.v clients, transactions and contexts as values; Bulk.v creation
      in bulk.  Schema.v is schema/proofrequest.go, which the rest is generated
      from, and the migration.
    - db/db.go: Db.v, one definition per method of [ProofDB]; a read client, a
      write client with one connection, and the transaction of
      [AddFulfilledProof].
    - range.go: Range.v.  prove.go: Prove.v.  driver.go: Driver.v.
      rpc_types.go and service.go's [ProposerConfig]: Types.v.
      metrics/: Metrics.v.
    - flags/flags.go: Flags.v.  config.go, service.go and
      l2_output_submitter.go, and cmd/main.go: Service.v; the service is passed along as a value
      with what it has started, so that a construction that fails can be
      stopped as far as it got.
    - utils/utils.go and op/cmd/main.go, the tool that lists the span batches of
      L2 blocks on L1: Utils.v.  It is a process of its own, with its own
      parameter, the class [BatchLib] (op-node's batch decoder, the clients),
      and the files as a state that is passed along.
    - op/bindings (generated): Bindings.v is what the generated code is written
      in: Go values and ABI types, the calls of a [bind.BoundContract] as the
      commands of a [bprog], the code each method, iterator and subscription is
      an instance of.  Oracle.v is opsuccinctl2outputoracle.go and Factory.v
      disputegamefactory.go, with their ABIs.  The node, [UnpackLog] and the
      parsing of the JSON of an ABI are the class [BindLib].
    - strings and path/filepath as the program uses them: Paths.v.
    - encoding/json, hex, base64 and strconv as the program uses them: Json.v
      and Encoding.v.
    - Prog.v: the language of the model.  A function is a [prog]: a tree of
      commands (database, outside, process) ending in a value, an error, a
      panic or the end of the fuel.  [World] is the state they act on: the
      database and its clients, the open transaction, the metrics, the driver's
      fields, the goroutines started, the trace of what was sent.  [run]
      executes a program; [returns p w P E] says that [p], started in [w], ends,
      neither panics nor blocks, and satisfies [P] or, with an error, [E].
      The rollup node, L1, the contracts, the transaction manager, the server,
      the clock and the scheduler are the parameter [External]: any state
      machine that answers the commands.  Theorems hold for all of them unless
      they say otherwise; Script.v is the instance the witnesses run on, with
      the answers written in a script.

    A [uint64] is a [Z] with its wrap-around written out ([add64], [u64]); a
    32-byte hash or output root is a number or a list of bytes.

    ** The theorems

    - The partition.  Steps.v is the specification: the table as a state
      machine ([table_step], a rule per thing the proposer does to it), and its
      invariant [table_inv s e]: rows in range with distinct ids, and the live
      span proofs, in order, cover the blocks [s, e) without gap or overlap
      (Partition.v, Spans.v).  Evolve.v, Pipeline.v and Stages.v show that every
      stage of the loop refines the machine, on every branch and with every
      failure; Correctness.v states the results (C1-C3, C5, C6): each stage keeps
      the partition, the branches of a poll, the timeout, the outcomes of the
      request goroutine, and that over any number of iterations no request is
      lost, moves back or changes its proof.
    - Concurrent.v and Pool.v (C7, C8, C35, C36): the loop and any number of
      request goroutines, interleaved command by command over the one write
      connection.  [exec_local] is what a command does for a goroutine that
      holds the connection or does not, [pool_step] a move of the scheduler.
      Concurrent.v has the machine of the table under interleaving,
      [row_step], and [tame], what a goroutine keeps to command by command;
      Pool.v proves it of every function that runs in a goroutine.  So under
      every schedule the table changes only by steps of that machine (C35): no
      request is lost or changes its type, its blocks or a proof it has (C7),
      and rows stay well typed (C36).  A goroutine that cannot move waits for
      the one that has the connection, which always moves and gives it back
      after at most four commands of its own (C8).
    - Fuel.v: a loop with more fuel does the same as one with less, until that
      one is cut off, alone and in every schedule.
    - Blocks.v and Debts.v: what the three theorems on schedules that follow share.
      Blocks.v says which commands neither drop a block from the live span
      proofs nor add one.  Debts.v is a logic for goroutines with a ledger of
      blocks: a class [Ledger] says what a command may be relied on for and what
      is guaranteed to the others, [careful T D p Q] that the program [p],
      started with the blocks [D], keeps the guarantee at every command, and
      [launched_tracked] and [steps_tracked] that then every schedule does.
      Coverage.v (C9): a goroutine's blocks are those it owes, between the
      update that fails a request and the insertion of its replacements; a
      goroutine that ends owes nothing, as long as the database serves
      insertions and queries ([served_step]), so no block drops out.
      Overlap.v (C10): a goroutine's blocks are its own to ask for, the loop's
      those beyond the table; live span proofs stay disjoint in every schedule
      in which no update writes the status of a request that has failed already
      ([orderly_step]), whatever fails.  The race of Race.v is what happens in
      the others.
      Restored.v (C4): the loop leaves no gap before the spans it asks for, even
      when it sees a table that others have torn; with C9 and C10, when the
      goroutines have ended the live span proofs partition the blocks again, in
      every schedule that is orderly and served and in which no request ends
      beyond the span proofs ([sound_step]).
    - Aggregation.v (C11-C13, C15): the longest chain, when an aggregation
      proof is queued, that its subproofs are there when it is requested,
      atomicity of storing a proof, and the order of the queue.
    - Hooks.v (C14): hooks run as written, and none is the builder's own
      operation; Bulk.v: a bulk creation sends one batch or nothing.
    - Submission.v (C16-C18): what is proposed and checkpointed, with exactly
      which transactions, the caps on requests, and the wait for the L1 head.
    - Lifecycle.v (C19-C23): validation of the configuration, start after a
      crash, stop, and what a failed start or a restart leads to.
    - Schema.v (C24): the generated columns, validators, tables and checks are
      those of the schema.
    - RangeProofs.v (C25, C26, [SplitRangeBasic_tiles]): the loops that cut ranges end and tile them, and
      the search for an L1 head finds the first.
    - Wire.v (C27): the requests read back from their JSON are the requests.
    - Ent.v (C28, C29): the laws of mutations, and that what is saved is read
      back.
    - Race.v (C30): the loop and a request goroutine interleaved, one
      command at a time: a request that times out can be queued twice.
    - ServiceProofs.v (C31-C33): a construction that fails stops everything it
      started, but for the clients of the database, and it is said which of them
      stay open; a stop stops everything the construction started; and the flags
      reach the fields they are for.
    - UtilsProofs.v (C34): the ranges are those of the batches of each channel,
      clipped, in whatever order Go visits the channels; also the L1 window that
      is searched, the minimal hex form of block numbers, the round trip of
      timestamps, and how the reading of a channel ends.
    - Machine.v (C37): a poll leaves nothing in work once the server has
      decided.
    - Contracts.v (C38, C39): each method and event of the generated bindings is
      the one of its contract's ABI, with its types, and none is left out; the
      calldata the driver packs by hand is what the bindings would send.
      BindingsProofs.v (C40): a reader of events misses none.
    - Where.v and Client.v: comparisons divide a table, narrower predicates on
      texts imply wider ones, [Exist] says whether a row matches, and an old
      value is read once.
    - Select.v: a group-by has a row for each combination of values, with the
      aggregates of exactly its rows; an unknown column is refused by a group-by
      and not by a selection.  Handles.v: what contexts, the client of a
      transaction, [BeginTx] and scans under interceptors do.

    ** Bounds and fuel

    - [split_loop], [cut]: the fuel is the number of blocks of the range; each
      span has at least one, so it is enough (C25); with a span size of
      zero no fuel is ([SplitRangeBasic_zero_diverges]).
    - [search_l1_head]: the number of L1 blocks from the origin to the tip
      (C26).
    - [wait_l1_head], [loop_ticks]: the number of ticks of a Go ticker, which
      the caller gives.  The loop of [loopL2OO] has no end of its own, so no fuel
      is enough for it: theorems are for every number of ticks, and so, by
      Fuel.v, for every finite part of a run.  Where a theorem speaks of
      goroutines that have ended (C4, C8, C9), a loop that is cut off counts as
      ended: it is cut off between two rounds or while it waits for the L1 head,
      with nothing half done.  [waitForL1Head_terminates] says how many ticks
      are enough for that wait.
    - [read_batches]: the number of reads until the reader of a channel ends;
      one that fails without end is read without end ([read_batches_stuck]).
    - JSON: the length of the input.

    ** What is not modelled

    Schedules are those of the loop and the request goroutines: a start or a
    stop is a function that runs alone.  Of ent: the test helper, an empty init function and a type name (enttest,
    runtime.go, predicate); averages, and aggregates of texts, are sent but
    nothing is proved about their values.  The metrics' registration with
    Prometheus; logging and contexts' deadlines; the text of most error messages
    of libraries (an error is kept as its format and arguments); how a JSON
    number that is not an integer is rendered in the rollup configuration.  The
    Rust server, the programs it proves and the Solidity contracts are outside:
    the proposer sees them through [External]. *)

From Stdlib Require Import ZArith Lia.
From stdpp Require Export base list strings sorting gmap.

Global Open Scope Z_scope.
Set Default Goal Selector "!".

(** ** Go's fixed-width integers

    A [uint64] is a [Z] in [0, 2^64); the operations wrap, written out. *)

Definition two64 : Z := 18446744073709551616.
Definition two63 : Z := 9223372036854775808.

Definition u64 (z : Z) : Z := z mod two64.
Definition add64 (a b : Z) : Z := u64 (a + b).
Definition sub64 (a b : Z) : Z := u64 (a - b).
Definition mul64 (a b : Z) : Z := u64 (a * b).
(** Integer conversion to the signed 64-bit type ([int], [int64]). *)
Definition i64 (z : Z) : Z := (z + two63) mod two64 - two63.

Definition is_u64 (z : Z) : Prop := 0 <= z < two64.
(** Values a signed 64-bit SQL integer can hold that are also a [uint64]. *)
Definition is_i63 (z : Z) : Prop := 0 <= z < two63.

Global Instance is_u64_dec z : Decision (is_u64 z).
Proof. unfold is_u64. apply _. Defined.
Global Instance is_i63_dec z : Decision (is_i63 z).
Proof. unfold is_i63. apply _. Defined.

Create HintDb gomod.
Create Rewrite HintDb gomod.

Lemma u64_small z : is_u64 z → u64 z = z.
Proof. intros []. by apply Z.mod_small. Qed.

Lemma u64_range z : is_u64 (u64 z).
Proof. apply Z.mod_pos_bound. done. Qed.

Lemma is_i63_u64 z : is_i63 z → is_u64 z.
Proof. unfold is_i63, is_u64, two63, two64. lia. Qed.

Lemma u64_i63 z : is_i63 z → u64 z = z.
Proof. intros H. apply u64_small, is_i63_u64, H. Qed.

Lemma i64_small z : -two63 <= z < two63 → i64 z = z.
Proof.
  intros H. unfold i64, two63, two64 in *. rewrite Z.mod_small; lia.
Qed.

Lemma add64_small a b : 0 <= a + b < two64 → add64 a b = a + b.
Proof. intros. by apply u64_small. Qed.

Lemma sub64_small a b : 0 <= a - b < two64 → sub64 a b = a - b.
Proof. intros. by apply u64_small. Qed.

#[export] Hint Resolve u64_range is_i63_u64 : gomod.
#[export] Hint Rewrite u64_i63 u64_small using (solve [auto with gomod]) : gomod.

(** ** Go errors

    An error value keeps the format string and its operands unrendered.
    [Wrapf] is [fmt.Errorf] with a [%w] verb; [Errorf] is [errors.New] or
    [fmt.Errorf] without one (what a [%v] prints is not part of the chain). *)

Inductive fmtarg :=
| AStr (s : string)
| AInt (z : Z).

(** What the SQL graph library reports. *)
Inductive sqlerr :=
| SgNotFound
| SgConstraint (msg : string)
| SgTxDone
| SgOther (code : Z).

Inductive error :=
| Errorf (fmt : string) (args : list fmtarg)
| Wrapf (fmt : string) (args : list fmtarg) (inner : error)
| EJoin (e : error)
| EJoin2 (e1 e2 : error)
| NotFoundError (label : string)
| NotSingularError (label : string)
| NotLoadedError (edge : string)
| ValidationError (name : string) (inner : error)
| ConstraintError (msg : string) (wrap : error)
| ESql (e : sqlerr)
| ENet (timeout : bool) (code : Z)
| EExt (code : Z)
| ErrTxStarted
| ErrTxDone
| ErrProposerNotRunning
| ErrAlreadyStopped.

Global Instance fmtarg_eq_dec : EqDecision fmtarg.
Proof. solve_decision. Defined.
Global Instance sqlerr_eq_dec : EqDecision sqlerr.
Proof. solve_decision. Defined.
Global Instance error_eq_dec : EqDecision error.
Proof. solve_decision. Defined.

(** [errors.As] / [errors.Is]: the chain an error unwraps to, searched for the
    first member that satisfies [p]. *)
Fixpoint errors_as (p : error → bool) (e : error) : bool :=
  p e ||
  match e with
  | Wrapf _ _ e' | EJoin e' | ValidationError _ e' | ConstraintError _ e' => errors_as p e'
  | EJoin2 e1 e2 => errors_as p e1 || errors_as p e2
  | _ => false
  end.

(** ** Lists *)

Section sorted_keys.
Context {A : Type} (key : A → Z).

Definition le_key (x y : A) : Prop := key x <= key y.
Global Instance le_key_dec x y : Decision (le_key x y).
Proof. unfold le_key. apply _. Defined.
Global Instance le_key_total : Total le_key.
Proof. intros x y. unfold le_key. lia. Qed.
Global Instance le_key_trans : Transitive le_key.
Proof. intros x y z. unfold le_key. lia. Qed.

Lemma sorted_head_min x l :
  StronglySorted le_key (x :: l) → ∀ y, y ∈ x :: l → key x <= key y.
Proof.
  intros Hs y Hy. apply StronglySorted_inv in Hs as [_ Hall].
  apply elem_of_cons in Hy as [->|Hy]; [lia|].
  by eapply Forall_forall in Hall.
Qed.
End sorted_keys.

(** [shuffle p l]: [l] in the order the index list [p] says, when [p] is a
    permutation of the indices, and [l] itself otherwise.  An order that Go or
    the database leaves open is an index list the environment chooses. *)
Definition shuffle {A} (p : list nat) (l : list A) : list A :=
  if decide (merge_sort (≤)%nat p = seq 0 (length l))
  then omap (λ i, l !! i) p
  else l.

Lemma omap_seq_lookup {A} (l pre : list A) :
  omap (λ i, (pre ++ l) !! i) (seq (length pre) (length l)) = l.
Proof.
  revert pre. induction l as [|x l IH]; intros pre; [done|].
  simpl. rewrite list_lookup_middle by done. f_equal.
  specialize (IH (pre ++ [x])). rewrite length_app in IH. simpl in IH.
  rewrite Nat.add_1_r in IH. rewrite <- app_assoc in IH. exact IH.
Qed.

Lemma shuffle_Permutation {A} p (l : list A) : shuffle p l ≡ₚ l.
Proof.
  unfold shuffle. case_decide as Hp; [|done].
  transitivity (omap (λ i, l !! i) (seq 0 (length l))).
  - rewrite <- Hp, merge_sort_Permutation. done.
  - apply reflexive_eq, (omap_seq_lookup l []).
Qed.

(** ** Tactics *)

(** Split every boolean test, option and sum the goal still matches on. *)
Ltac split_match :=
  repeat match goal with
  | |- context [match ?x with _ => _ end] => destruct x eqn:?
  | H : context [match ?x with _ => _ end] |- _ => destruct x eqn:?
  end.

Ltac simp := simplify_eq/=; try done.
