(* ===== verification/Sql.v ===== *)
(** * The SQL layer the generated code calls

    [entgo.io/ent/dialect/sql], [sqlgraph], [database/sql] and SQLite are not
    part of this repository.  This file holds what crosses that boundary: the
    values and specs the repository's code builds, the table those specs are
    about (its columns as [migrate/schema.go] declares them), the documented
    meaning of a spec on a table, and the type class [SqlGraph] of the
    library's operations, whose laws [SqlLaws] say that an operation that
    succeeds did what its spec says and one that fails changed nothing.  Order
    of rows that the spec leaves open is left open by the laws.  [ListSql] is a
    concrete instance, with a schedule of faults, on which the witnesses of the
    later files are evaluated. *)

From Stdlib Require Import ZArith Lia.
From Stdlib Require Import Strings.Byte.
From S2P Require Import Prelude.

Set Warnings "-register-all".

Abbreviation bytes := (list Byte.byte).

Global Instance byte_eq_dec : EqDecision Byte.byte := Byte.byte_eq_dec.

(** ** Values *)

(** A value the Go code hands to a builder ([ent.Value], dynamically typed).
    A [[]byte] is [None] when it is the nil slice. *)
Inductive GoValue :=
| VType (s : string)
| VStatus (s : string)
| VInt (z : Z)
| VInt64 (z : Z)
| VUint64 (z : Z)
| VString (s : string)
| VBytes (b : option bytes).

Inductive sqlval :=
| SInt (z : Z)
| SText (s : string)
| SBlob (b : bytes).

Global Instance GoValue_eq_dec : EqDecision GoValue.
Proof. solve_decision. Defined.
Global Instance sqlval_eq_dec : EqDecision sqlval.
Proof. solve_decision. Defined.

(** The SQL value of a Go value; NULL is [None]. *)
Definition sql_of (v : GoValue) : option sqlval :=
  match v with
  | VType s | VStatus s | VString s => Some (SText s)
  | VInt z | VInt64 z | VUint64 z => Some (SInt z)
  | VBytes b => SBlob <$> b
  end.

(** [database/sql] refuses a [uint64] with its high bit set. *)
Definition convertible (v : GoValue) : bool :=
  match v with VUint64 z => z <? two63 | _ => true end.

(** ** The table [proof_requests] *)

Record Row := mkRow {
  row_id : Z;
  row_type : string;
  row_start_block : Z;
  row_end_block : Z;
  row_status : string;
  row_request_added_time : Z;
  row_prover_request_id : option string;
  row_proof_request_time : option Z;
  row_last_updated_time : Z;
  row_l1_block_number : option Z;
  row_l1_block_hash : option string;
  row_proof : option bytes;
}.

Global Instance Row_eq_dec : EqDecision Row.
Proof. solve_decision. Defined.

(** The content of a column; NULL and an unknown column are [None]. *)
Definition col (c : string) (r : Row) : option sqlval :=
  match c with
  | "id" => Some (SInt (row_id r))
  | "type" => Some (SText (row_type r))
  | "start_block" => Some (SInt (row_start_block r))
  | "end_block" => Some (SInt (row_end_block r))
  | "status" => Some (SText (row_status r))
  | "request_added_time" => Some (SInt (row_request_added_time r))
  | "prover_request_id" => SText <$> row_prover_request_id r
  | "proof_request_time" => SInt <$> row_proof_request_time r
  | "last_updated_time" => Some (SInt (row_last_updated_time r))
  | "l1_block_number" => SInt <$> row_l1_block_number r
  | "l1_block_hash" => SText <$> row_l1_block_hash r
  | "proof" => SBlob <$> row_proof r
  | _ => None
  end%string.

Definition as_int (v : option sqlval) : option Z :=
  match v with Some (SInt z) => Some z | _ => None end.
Definition as_text (v : option sqlval) : option string :=
  match v with Some (SText s) => Some s | _ => None end.
Definition as_int_null (v : option sqlval) : option (option Z) :=
  match v with None => Some None | Some (SInt z) => Some (Some z) | _ => None end.
Definition as_text_null (v : option sqlval) : option (option string) :=
  match v with None => Some None | Some (SText s) => Some (Some s) | _ => None end.
Definition as_blob_null (v : option sqlval) : option (option bytes) :=
  match v with None => Some None | Some (SBlob b) => Some (Some b) | _ => None end.

(** Write a column.  [None]: an unknown column, NULL in a NOT NULL column, or
    a value of another type (the table is STRICT). *)
Definition set_col (c : string) (v : option sqlval) (r : Row) : option Row :=
  let 'mkRow i t s e st ra pid pt lu ln lh pf := r in
  match c with
  | "type" => (λ x, mkRow i x s e st ra pid pt lu ln lh pf) <$> as_text v
  | "start_block" => (λ x, mkRow i t x e st ra pid pt lu ln lh pf) <$> as_int v
  | "end_block" => (λ x, mkRow i t s x st ra pid pt lu ln lh pf) <$> as_int v
  | "status" => (λ x, mkRow i t s e x ra pid pt lu ln lh pf) <$> as_text v
  | "request_added_time" => (λ x, mkRow i t s e st x pid pt lu ln lh pf) <$> as_int v
  | "prover_request_id" => (λ x, mkRow i t s e st ra x pt lu ln lh pf) <$> as_text_null v
  | "proof_request_time" => (λ x, mkRow i t s e st ra pid x lu ln lh pf) <$> as_int_null v
  | "last_updated_time" => (λ x, mkRow i t s e st ra pid pt x ln lh pf) <$> as_int v
  | "l1_block_number" => (λ x, mkRow i t s e st ra pid pt lu x lh pf) <$> as_int_null v
  | "l1_block_hash" => (λ x, mkRow i t s e st ra pid pt lu ln x pf) <$> as_text_null v
  | "proof" => (λ x, mkRow i t s e st ra pid pt lu ln lh x) <$> as_blob_null v
  | _ => None
  end%string.

(** ** Predicates *)

Inductive predicate :=
| FieldEQ (c : string) (v : GoValue)
| FieldNEQ (c : string) (v : GoValue)
| FieldGT (c : string) (v : GoValue)
| FieldGTE (c : string) (v : GoValue)
| FieldLT (c : string) (v : GoValue)
| FieldLTE (c : string) (v : GoValue)
| FieldIn (c : string) (vs : list GoValue)
| FieldNotIn (c : string) (vs : list GoValue)
| FieldIsNull (c : string)
| FieldNotNull (c : string)
| FieldText (c : string) (f : string → bool)   (* a match that the library defines *)
| AndPredicates (ps : list predicate)
| OrPredicates (ps : list predicate)
| NotPredicates (p : predicate).

(** Byte-wise (memcmp) order of blobs. *)
Fixpoint bytes_compare (a b : bytes) : comparison :=
  match a, b with
  | [], [] => Eq
  | [], _ => Lt
  | _, [] => Gt
  | x :: a', y :: b' =>
      match N.compare (Byte.to_N x) (Byte.to_N y) with
      | Eq => bytes_compare a' b'
      | c => c
      end
  end.

Definition sqlval_compare (a b : sqlval) : comparison :=
  match a, b with
  | SInt x, SInt y => Z.compare x y
  | SText x, SText y => String.compare x y
  | SBlob x, SBlob y => bytes_compare x y
  | SInt _, _ => Lt
  | _, SInt _ => Gt
  | SText _, _ => Lt
  | SBlob _, _ => Gt
  end.

(** A comparison with NULL is unknown. *)
Definition cmp3 (f : comparison → bool) (a b : option sqlval) : option bool :=
  match a, b with
  | Some x, Some y => Some (f (sqlval_compare x y))
  | _, _ => None
  end.

Definition and3 (a b : option bool) : option bool :=
  match a, b with
  | Some false, _ | _, Some false => Some false
  | Some true, Some true => Some true
  | _, _ => None
  end.
Definition or3 (a b : option bool) : option bool :=
  match a, b with
  | Some true, _ | _, Some true => Some true
  | Some false, Some false => Some false
  | _, _ => None
  end.

Definition cmp_eq (c : comparison) : bool := match c with Eq => true | _ => false end.
Definition cmp_lt (c : comparison) : bool := match c with Lt => true | _ => false end.
Definition cmp_gt (c : comparison) : bool := match c with Gt => true | _ => false end.

Fixpoint eval (p : predicate) (r : Row) : option bool :=
  match p with
  | FieldEQ c v => cmp3 cmp_eq (col c r) (sql_of v)
  | FieldNEQ c v => cmp3 (λ x, negb (cmp_eq x)) (col c r) (sql_of v)
  | FieldGT c v => cmp3 cmp_gt (col c r) (sql_of v)
  | FieldGTE c v => cmp3 (λ x, negb (cmp_lt x)) (col c r) (sql_of v)
  | FieldLT c v => cmp3 cmp_lt (col c r) (sql_of v)
  | FieldLTE c v => cmp3 (λ x, negb (cmp_gt x)) (col c r) (sql_of v)
  | FieldIn c vs => foldr (λ v, or3 (cmp3 cmp_eq (col c r) (sql_of v))) (Some false) vs
  | FieldNotIn c vs =>
      negb <$> foldr (λ v, or3 (cmp3 cmp_eq (col c r) (sql_of v))) (Some false) vs
  | FieldIsNull c => Some (bool_decide (col c r = None))
  | FieldNotNull c => Some (bool_decide (col c r ≠ None))
  | FieldText c f => f <$> as_text (col c r)
  | AndPredicates ps => foldr (λ p acc, and3 (eval p r) acc) (Some true) ps
  | OrPredicates ps => foldr (λ p acc, or3 (eval p r) acc) (Some false) ps
  | NotPredicates p => negb <$> eval p r
  end.

(** A [WHERE] clause keeps the rows on which every predicate is true. *)
Definition sat (ps : list predicate) (r : Row) : bool :=
  forallb (λ p, match eval p r with Some true => true | _ => false end) ps.

(** ** Specs *)

Record CreateSpec := mkCreateSpec {
  cs_table : string;
  cs_fields : list (string * GoValue);
}.

Record UpdateSpec := mkUpdateSpec {
  us_table : string;
  us_columns : list string;
  us_node_id : option Z;
  us_predicate : list predicate;
  us_set : list (string * GoValue);
  us_add : list (string * GoValue);
  us_clear : list string;
}.

Record DeleteSpec := mkDeleteSpec {
  ds_table : string;
  ds_predicate : list predicate;
}.

(** One term of an [ORDER BY]; [ot_err] is the error the option added to the
    selector instead of a valid column. *)
Record OrderTerm := mkOrderTerm {
  ot_column : string;
  ot_desc : bool;
  ot_err : option error;
}.

Record QuerySpec := mkQuerySpec {
  qs_table : string;
  qs_columns : list string;
  qs_unique : bool;
  qs_predicate : list predicate;
  qs_limit : Z;    (* 0: no limit, the Go zero value *)
  qs_offset : Z;
  qs_order : list OrderTerm;
}.

(** A [sql.Selector]: the [SELECT] that a selection or a group-by builds.  An
    expression of its list is a column, an aggregate, one under a name, or the
    empty string. *)
Inductive SelExpr :=
| EColumn (c : string)
| ECount
| EMax (c : string)
| EMin (c : string)
| ESum (c : string)
| EAvg (c : string)
| EAs (e : SelExpr) (name : string)
| EEmpty.

Record Selector := mkSelect {
  sel_table : string;
  sel_columns : list SelExpr;
  sel_distinct : bool;
  sel_where : list predicate;
  sel_order : list OrderTerm;
  sel_group : list string;
  sel_limit : option Z;
  sel_offset : option Z;
  sel_errs : list error;
}.

(** ** What a spec means on a table *)

Fixpoint assoc {A} (c : string) (l : list (string * A)) : option A :=
  match l with
  | [] => None
  | (c', a) :: l' => if decide (c = c') then Some a else assoc c l'
  end.

(** The row an [INSERT] adds; [None] when a NOT NULL column has no value, a
    value has the wrong type or cannot be sent. *)
Definition build_row (id : Z) (fs : list (string * GoValue)) : option Row :=
  let get c := assoc c fs ≫= sql_of in
  if forallb (λ p, convertible (snd p)) fs then
    t ← as_text (get "type"%string);
    s ← as_int (get "start_block"%string);
    e ← as_int (get "end_block"%string);
    st ← as_text (get "status"%string);
    ra ← as_int (get "request_added_time"%string);
    pid ← as_text_null (get "prover_request_id"%string);
    pt ← as_int_null (get "proof_request_time"%string);
    lu ← as_int (get "last_updated_time"%string);
    ln ← as_int_null (get "l1_block_number"%string);
    lh ← as_text_null (get "l1_block_hash"%string);
    pf ← as_blob_null (get "proof"%string);
    Some (mkRow id t s e st ra pid pt lu ln lh pf)
  else None.

(** [SET c = v], [SET c = COALESCE(c, 0) + v], [SET c = NULL]. *)
Definition apply_set (r : Row) (p : string * GoValue) : option Row :=
  if convertible (snd p) then set_col (fst p) (sql_of (snd p)) r else None.
Definition apply_add (r : Row) (p : string * GoValue) : option Row :=
  d ← as_int (sql_of (snd p));
  cur ← as_int_null (col (fst p) r);
  let z := default 0 cur + d in
  if decide (- two63 <= z < two63) then set_col (fst p) (Some (SInt z)) r else None.
Definition apply_clear (r : Row) (c : string) : option Row := set_col c None r.

Definition foldM {A B} (f : B → A → option B) (b : B) (l : list A) : option B :=
  foldl (λ acc a, acc ≫= λ x, f x a) (Some b) l.

Definition apply_update (u : UpdateSpec) (r : Row) : option Row :=
  r1 ← foldM apply_set r (us_set u);
  r2 ← foldM apply_add r1 (us_add u);
  foldM apply_clear r2 (us_clear u).

(** The rows an update touches: those the predicates select and, for the
    update of one node, the one with its id. *)
Definition touched (u : UpdateSpec) (r : Row) : bool :=
  match us_node_id u with
  | Some i => bool_decide (row_id r = i) && sat (us_predicate u) r
  | None => sat (us_predicate u) r
  end.

Definition update_row (u : UpdateSpec) (r : Row) : option Row :=
  if touched u r then apply_update u r else Some r.

Definition update_rows (u : UpdateSpec) (l : list Row) : option (list Row) :=
  mapM (update_row u) l.

Fixpoint order_compare (ts : list OrderTerm) (r1 r2 : Row) : comparison :=
  match ts with
  | [] => Eq
  | t :: ts' =>
      let c := match col (ot_column t) r1, col (ot_column t) r2 with
               | None, None => Eq
               | None, Some _ => Lt
               | Some _, None => Gt
               | Some a, Some b => sqlval_compare a b
               end in
      match (if ot_desc t then CompOpp c else c) with
      | Eq => order_compare ts' r1 r2
      | c' => c'
      end
  end.

Definition order_le (ts : list OrderTerm) (r1 r2 : Row) : Prop :=
  order_compare ts r1 r2 ≠ Gt.

Global Instance order_le_dec ts r1 r2 : Decision (order_le ts r1 r2).
Proof. unfold order_le. apply _. Defined.

Definition page (q : QuerySpec) {A} (l : list A) : list A :=
  let l := drop (Z.to_nat (qs_offset q)) l in
  if qs_limit q <=? 0 then l else take (Z.to_nat (qs_limit q)) l.

(** [LIMIT] and [OFFSET] of a selector, which are there or not; a negative
    limit is none. *)
Definition sel_page (s : Selector) {A} (l : list A) : list A :=
  let l := drop (Z.to_nat (default 0 (sel_offset s))) l in
  match sel_limit s with
  | Some n => if n <? 0 then l else take (Z.to_nat n) l
  | None => l
  end.

(** [l] is a result of the query [q] on a table with content [tbl]. *)
Definition query_rows (q : QuerySpec) (tbl l : list Row) : Prop :=
  ∃ full, full ≡ₚ filter (λ r, sat (qs_predicate q) r) tbl ∧
          Sorted (order_le (qs_order q)) full ∧ l = page q full.

Definition matching (ps : list predicate) (tbl : list Row) : list Row :=
  filter (λ r, sat ps r) tbl.

Fixpoint aggregates (e : SelExpr) : bool :=
  match e with
  | ECount | EMax _ | EMin _ | ESum _ | EAvg _ => true
  | EAs e _ => aggregates e
  | EColumn _ | EEmpty => false
  end.

(** The better of two values by [f], NULL being none. *)
Definition best (f : comparison → bool) (a b : option sqlval) : option sqlval :=
  match a, b with
  | Some x, Some y => if f (sqlval_compare y x) then Some y else Some x
  | Some x, None | None, Some x => Some x
  | None, None => None
  end.

Definition sum_ints (l : list (option Z)) : option sqlval :=
  match omap id l with [] => None | zs => Some (SInt (foldr Z.add 0 zs)) end.

(** The value of an expression over a group of rows; a bare column is that of
    the first. *)
Fixpoint expr_value (g : list Row) (e : SelExpr) : option sqlval :=
  match e with
  | EColumn c => head g ≫= col c
  | ECount => Some (SInt (Z.of_nat (length g)))
  | EMax c => foldr (best cmp_gt) None (col c <$> g)
  | EMin c => foldr (best cmp_lt) None (col c <$> g)
  | ESum c => sum_ints ((λ r, as_int (col c r)) <$> g)
  | EAs e _ => expr_value g e
  | EAvg _ | EEmpty => None
  end.

Definition group_key (s : Selector) (r : Row) : list (option sqlval) := (λ c, col c r) <$> sel_group s.

(** The rows that give one row of the result each: every row, all of them, or
    those with the same key. *)
Definition grouping (s : Selector) (tbl : list Row) (gs : list (list Row)) : Prop :=
  match sel_group s with
  | [] =>
      if existsb aggregates (sel_columns s) then ∃ g, gs = [g] ∧ g ≡ₚ matching (sel_where s) tbl
      else ∃ full, gs = (λ r, [r]) <$> full ∧ full ≡ₚ matching (sel_where s) tbl ∧
                   Sorted (order_le (sel_order s)) full
  | _ =>
      concat gs ≡ₚ matching (sel_where s) tbl ∧ NoDup ((fmap (group_key s) ∘ head) <$> gs) ∧
      ∀ g, g ∈ gs → ∃ k, g ≠ [] ∧ ∀ r, r ∈ g → group_key s r = k
  end.

(** What the laws say about: integers summed, no average, no empty
    expression, and of a group only its key beside aggregates. *)
Fixpoint plain_expr (e : SelExpr) : bool :=
  match e with
  | EColumn _ | ECount | EMax _ | EMin _ => true
  | ESum c => bool_decide (c ∈ ["id"; "start_block"; "end_block"; "request_added_time"; "proof_request_time";
                                "last_updated_time"; "l1_block_number"]%string)
  | EAs e _ => plain_expr e
  | EAvg _ | EEmpty => false
  end.
Fixpoint key_expr (keys : list string) (e : SelExpr) : bool :=
  match e with
  | EColumn c => bool_decide (c ∈ keys)
  | EAs e _ => key_expr keys e
  | _ => true
  end.

Definition plain_select (s : Selector) : bool :=
  negb (sel_distinct s) && forallb plain_expr (sel_columns s) &&
  match sel_group s with
  | [] => negb (existsb aggregates (sel_columns s)) || forallb (key_expr []) (sel_columns s)
  | keys => bool_decide (sel_order s = []) && forallb (key_expr keys) (sel_columns s)
  end.

Definition select_rows (s : Selector) (tbl : list Row) (cells : list (list (option sqlval))) : Prop :=
  ∃ gs, grouping s tbl gs ∧ cells = sel_page s ((λ g, expr_value g <$> sel_columns s) <$> gs).

(** ** The library's operations

    A [store] is a database connected to; [sg_rows] is its content, which the
    code never sees directly.  [sg_update_node] returns the selected columns of
    the updated row, [sg_query] those of each row of the result.  [sg_begin]
    opens a write transaction and returns its working copy, [sg_commit w s]
    commits the working copy [w] to the database [s]. *)

(** [sql.TxOptions] *)
Record TxOptions := mkTxOptions { tx_Isolation : Z; tx_ReadOnly : bool }.

Class SqlGraph := {
  store : Type;
  sg_rows : store → list Row;
  sg_create : CreateSpec → store → (sqlerr + Z) * store;
  sg_update_nodes : UpdateSpec → store → (sqlerr + Z) * store;
  sg_update_node : UpdateSpec → store → (sqlerr + list (option sqlval)) * store;
  sg_query : QuerySpec → store → (sqlerr + list (list (option sqlval))) * store;
  sg_select : Selector → store → (sqlerr + list (list (option sqlval))) * store;
  sg_count : QuerySpec → store → (sqlerr + Z) * store;
  sg_delete : DeleteSpec → store → (sqlerr + Z) * store;
  sg_begin : option TxOptions → store → (sqlerr + store) * store;
  sg_commit : store → store → (sqlerr + unit) * store;
  (* the database as a file: removing it, opening a connection pool, creating
     the table if it is missing, closing a pool *)
  sg_remove : store → store;
  sg_open : store → option sqlerr * store;
  sg_migrate : store → option sqlerr * store;
  sg_close : store → option sqlerr * store;
}.

Definition select_cols (cs : list string) (r : Row) : list (option sqlval) :=
  (λ c, col c r) <$> cs.

Class SqlLaws `{!SqlGraph} : Prop := {
  sg_create_ok c s id s' :
    sg_create c s = (inr id, s') →
    0 < id < two63 ∧ (∀ r, r ∈ sg_rows s → row_id r ≠ id) ∧
    ∃ r, build_row id (cs_fields c) = Some r ∧ sg_rows s' = sg_rows s ++ [r];
  sg_create_err c s e s' :
    sg_create c s = (inl e, s') → sg_rows s' = sg_rows s;
  sg_update_nodes_ok u s n s' :
    sg_update_nodes u s = (inr n, s') →
    update_rows u (sg_rows s) = Some (sg_rows s') ∧
    n = Z.of_nat (length (filter (λ r, touched u r) (sg_rows s)));
  sg_update_nodes_err u s e s' :
    sg_update_nodes u s = (inl e, s') → sg_rows s' = sg_rows s;
  sg_update_node_ok u s cells s' :
    sg_update_node u s = (inr cells, s') →
    update_rows u (sg_rows s) = Some (sg_rows s') ∧
    ∃ r r', r ∈ sg_rows s ∧ touched u r ∧ update_row u r = Some r' ∧
            cells = select_cols (us_columns u) r';
  sg_update_node_err u s e s' :
    sg_update_node u s = (inl e, s') → sg_rows s' = sg_rows s;
  sg_query_ok q s cells s' :
    sg_query q s = (inr cells, s') → qs_unique q = false →
    sg_rows s' = sg_rows s ∧
    ∃ l, query_rows q (sg_rows s) l ∧ cells = select_cols (qs_columns q) <$> l;
  sg_query_err q s e s' :
    sg_query q s = (inl e, s') → sg_rows s' = sg_rows s;
  sg_select_ok q s cells s' :
    sg_select q s = (inr cells, s') → plain_select q = true →
    sg_rows s' = sg_rows s ∧ select_rows q (sg_rows s) cells;
  sg_select_keeps q s r s' :
    sg_select q s = (r, s') → sg_rows s' = sg_rows s;
  sg_count_ok q s n s' :
    sg_count q s = (inr n, s') → qs_limit q = 0 → qs_offset q = 0 →
    sg_rows s' = sg_rows s ∧
    n = Z.of_nat (length (matching (qs_predicate q) (sg_rows s)));
  sg_count_err q s e s' :
    sg_count q s = (inl e, s') → sg_rows s' = sg_rows s;
  sg_delete_ok d s n s' :
    sg_delete d s = (inr n, s') →
    sg_rows s' = filter (λ r, negb (sat (ds_predicate d) r)) (sg_rows s) ∧
    n = Z.of_nat (length (matching (ds_predicate d) (sg_rows s)));
  sg_delete_err d s e s' :
    sg_delete d s = (inl e, s') → sg_rows s' = sg_rows s;
  sg_begin_ok o s t s' :
    sg_begin o s = (inr t, s') → sg_rows t = sg_rows s ∧ sg_rows s' = sg_rows s;
  sg_begin_err o s e s' :
    sg_begin o s = (inl e, s') → sg_rows s' = sg_rows s;
  sg_commit_ok t s s' :
    sg_commit t s = (inr tt, s') → sg_rows s' = sg_rows t;
  sg_commit_err t s e s' :
    sg_commit t s = (inl e, s') → sg_rows s' = sg_rows s;
  (* a removal can fail, and its error is not looked at *)
  sg_remove_rows s : sg_rows (sg_remove s) = [] ∨ sg_rows (sg_remove s) = sg_rows s;
  sg_open_rows s r s' : sg_open s = (r, s') → sg_rows s' = sg_rows s;
  sg_migrate_rows s r s' : sg_migrate s = (r, s') → sg_rows s' = sg_rows s;
  sg_close_rows s r s' : sg_close s = (r, s') → sg_rows s' = sg_rows s;
}.

(** ** Orders on an integer column *)

Definition int_col (c : string) (f : Row → Z) : Prop :=
  ∀ r, col c r = Some (SInt (f r)).

Lemma order_le_asc c f r1 r2 :
  int_col c f → order_le [mkOrderTerm c false None] r1 r2 ↔ f r1 <= f r2.
Proof.
  intros H. unfold order_le. simpl. rewrite !H. simpl.
  pose proof (Z.compare_spec (f r1) (f r2)) as Hc. destruct Hc; simpl; split; intros; try done; lia.
Qed.

Lemma order_le_desc c f r1 r2 :
  int_col c f → order_le [mkOrderTerm c true None] r1 r2 ↔ f r2 <= f r1.
Proof.
  intros H. unfold order_le. simpl. rewrite !H. simpl.
  pose proof (Z.compare_spec (f r1) (f r2)) as Hc. destruct Hc; simpl; split; intros; try done; lia.
Qed.

Lemma sorted_asc c f (l : list Row) :
  int_col c f → Sorted (order_le [mkOrderTerm c false None]) l → StronglySorted (le_key f) l.
Proof.
  intros Hc Hs. apply Sorted_StronglySorted; [apply _|].
  induction Hs as [|x l Hs IH Hd]; constructor; [done|].
  destruct Hd as [|y l Hxy]; constructor. by apply (order_le_asc c f) in Hxy.
Qed.

Lemma sorted_desc c f (l : list Row) :
  int_col c f → Sorted (order_le [mkOrderTerm c true None]) l →
  StronglySorted (le_key (λ r, - f r)) l.
Proof.
  intros Hc Hs. apply Sorted_StronglySorted; [apply _|].
  induction Hs as [|x l Hs IH Hd]; constructor; [done|].
  destruct Hd as [|y l Hxy]; constructor.
  apply (order_le_desc c f) in Hxy; [|done]. unfold le_key. lia.
Qed.

Lemma int_col_start : int_col "start_block" row_start_block.
Proof. done. Qed.
Lemma int_col_end : int_col "end_block" row_end_block.
Proof. done. Qed.
#[export] Hint Resolve int_col_start int_col_end : gomod.

(** An update that is a total function on the rows it touches. *)
Lemma update_rows_total u (f : Row → Row) tbl :
  (∀ r, r ∈ tbl → touched u r → apply_update u r = Some (f r)) →
  update_rows u tbl = Some ((λ r, if touched u r then f r else r) <$> tbl).
Proof.
  intros H. apply mapM_Some, Forall2_fmap_r, Forall_Forall2_diag, Forall_forall.
  intros r Hr. unfold update_row, compose. destruct (touched u r) eqn:Ht; [|done].
  apply H; [done|]. by rewrite Ht.
Qed.

(** ** A concrete store

    Rows in insertion order, ids one above the largest, and a schedule of
    faults: an operation fails when the next entry of the schedule is [true]. *)
Record ListStore := mkListStore {
  ls_rows : list Row;
  ls_faults : list bool;
}.

Definition ls_next_id (tbl : list Row) : Z :=
  1 + foldr Z.max 0 (row_id <$> tbl).

Definition ls_guard {A} (s : ListStore) (f : ListStore → (sqlerr + A) * ListStore)
    : (sqlerr + A) * ListStore :=
  match ls_faults s with
  | true :: fs => (inl (SgOther 5), mkListStore (ls_rows s) fs)
  | false :: fs => f (mkListStore (ls_rows s) fs)
  | [] => f s
  end.

Definition ls_with (s : ListStore) (tbl : list Row) : ListStore :=
  mkListStore tbl (ls_faults s).

Definition ls_create (c : CreateSpec) (s : ListStore) : (sqlerr + Z) * ListStore :=
  ls_guard s (λ s,
    let id := ls_next_id (ls_rows s) in
    match build_row id (cs_fields c) with
    | Some r => if decide (0 < id < two63) then (inr id, ls_with s (ls_rows s ++ [r]))
                else (inl (SgOther 13), s)
    | None => (inl (SgConstraint "NOT NULL constraint failed"), s)
    end).

Definition ls_update_nodes (u : UpdateSpec) (s : ListStore) : (sqlerr + Z) * ListStore :=
  ls_guard s (λ s,
    match update_rows u (ls_rows s) with
    | Some tbl => (inr (Z.of_nat (length (filter (λ r, touched u r) (ls_rows s)))), ls_with s tbl)
    | None => (inl (SgConstraint "constraint failed"), s)
    end).

Definition ls_update_node (u : UpdateSpec) (s : ListStore)
    : (sqlerr + list (option sqlval)) * ListStore :=
  ls_guard s (λ s,
    match filter (λ r, touched u r) (ls_rows s) with
    | [] => (inl SgNotFound, s)
    | r :: _ =>
        match update_rows u (ls_rows s), update_row u r with
        | Some tbl, Some r' => (inr (select_cols (us_columns u) r'), ls_with s tbl)
        | _, _ => (inl (SgConstraint "constraint failed"), s)
        end
    end).

Definition ls_query (q : QuerySpec) (s : ListStore)
    : (sqlerr + list (list (option sqlval))) * ListStore :=
  ls_guard s (λ s,
    let full := merge_sort (order_le (qs_order q)) (matching (qs_predicate q) (ls_rows s)) in
    (inr (select_cols (qs_columns q) <$> page q full), s)).

(** The groups, a row into the first that has its key. *)
Fixpoint add_to_group {K} `{EqDecision K} (key : Row → K) (r : Row) (gs : list (list Row)) : list (list Row) :=
  match gs with
  | [] => [[r]]
  | g :: gs' =>
      if bool_decide (key <$> head g = Some (key r)) then (r :: g) :: gs' else g :: add_to_group key r gs'
  end.
Definition group_rows {K} `{EqDecision K} (key : Row → K) (l : list Row) : list (list Row) :=
  foldr (add_to_group key) [] l.

Definition ls_groups (q : Selector) (tbl : list Row) : list (list Row) :=
  let full := merge_sort (order_le (sel_order q)) (matching (sel_where q) tbl) in
  match sel_group q with
  | [] => if existsb aggregates (sel_columns q) then [full] else (λ r, [r]) <$> full
  | _ => group_rows (group_key q) full
  end.

Fixpoint blank (e : SelExpr) : bool :=
  match e with EEmpty => true | EAs e _ => blank e | _ => false end.
Definition fits (v : option sqlval) : bool :=
  match v with Some (SInt z) => (- two63 <=? z) && (z <? two63) | _ => true end.

(** An empty expression is a syntax error, a sum may overflow. *)
Definition ls_select (q : Selector) (s : ListStore) : (sqlerr + list (list (option sqlval))) * ListStore :=
  ls_guard s (λ s,
    if existsb blank (sel_columns q) then (inl (SgOther 1), s)
    else
      let cells := sel_page q ((λ g, expr_value g <$> sel_columns q) <$> ls_groups q (ls_rows s)) in
      if forallb (forallb fits) cells then (inr cells, s) else (inl (SgOther 1), s)).

Definition ls_count (q : QuerySpec) (s : ListStore) : (sqlerr + Z) * ListStore :=
  ls_guard s (λ s, (inr (Z.of_nat (length (matching (qs_predicate q) (ls_rows s)))), s)).

Definition ls_delete (d : DeleteSpec) (s : ListStore) : (sqlerr + Z) * ListStore :=
  ls_guard s (λ s,
    (inr (Z.of_nat (length (matching (ds_predicate d) (ls_rows s)))),
     ls_with s (filter (λ r, negb (sat (ds_predicate d) r)) (ls_rows s)))).

Definition ls_begin (o : option TxOptions) (s : ListStore) : (sqlerr + ListStore) * ListStore :=
  ls_guard s (λ s, (inr (mkListStore (ls_rows s) []), s)).

Definition ls_commit (t s : ListStore) : (sqlerr + unit) * ListStore :=
  ls_guard s (λ s, (inr tt, ls_with s (ls_rows t))).

Definition ls_unit (s : ListStore) : option sqlerr * ListStore :=
  match ls_guard s (λ s, (inr tt, s)) with
  | (inl e, s') => (Some e, s')
  | (inr _, s') => (None, s')
  end.

#[export] Instance ListSql : SqlGraph := {|
  store := ListStore;
  sg_rows := ls_rows;
  sg_create := ls_create;
  sg_update_nodes := ls_update_nodes;
  sg_update_node := ls_update_node;
  sg_query := ls_query;
  sg_select := ls_select;
  sg_count := ls_count;
  sg_delete := ls_delete;
  sg_begin := ls_begin;
  sg_commit := ls_commit;
  sg_remove s := ls_with s [];
  sg_open := ls_unit;
  sg_migrate := ls_unit;
  sg_close := ls_unit;
|}.

Lemma bytes_compare_antisym a b : bytes_compare a b = CompOpp (bytes_compare b a).
Proof.
  revert b. induction a as [|x a IH]; intros [|y b]; simpl; try done.
  rewrite N.compare_antisym, IH.
  destruct (Byte.to_N y ?= Byte.to_N x)%N; done.
Qed.

Lemma sqlval_compare_antisym a b : sqlval_compare a b = CompOpp (sqlval_compare b a).
Proof.
  destruct a, b; simpl; try done.
  - apply Z.compare_antisym.
  - apply String.compare_antisym.
  - apply bytes_compare_antisym.
Qed.

Lemma order_compare_antisym ts r1 r2 :
  order_compare ts r1 r2 = CompOpp (order_compare ts r2 r1).
Proof.
  induction ts as [|t ts IH]; [done|]. simpl.
  destruct (col (ot_column t) r1) as [a|], (col (ot_column t) r2) as [b|]; simpl.
  - rewrite (sqlval_compare_antisym a b).
    destruct (sqlval_compare b a), (ot_desc t); simpl; done.
  - by destruct (ot_desc t).
  - by destruct (ot_desc t).
  - by destruct (ot_desc t).
Qed.

Global Instance order_le_total ts : Total (order_le ts).
Proof.
  intros r1 r2. unfold order_le. rewrite (order_compare_antisym ts r1 r2).
  destruct (order_compare ts r2 r1); simpl; (by left) || (by right).
Qed.

Lemma ls_next_id_fresh tbl r : r ∈ tbl → row_id r < ls_next_id tbl.
Proof.
  unfold ls_next_id. induction tbl as [|x tbl IH]; intros Hr; [by apply elem_of_nil in Hr|].
  csimpl. apply elem_of_cons in Hr as [->|Hr]; [lia|]. apply IH in Hr. lia.
Qed.

Lemma ls_guard_inv {A} s f (o : sqlerr + A) s' :
  ls_guard s f = (o, s') →
  (∃ e, o = inl e ∧ ls_rows s' = ls_rows s) ∨
  (∃ s0, ls_rows s0 = ls_rows s ∧ f s0 = (o, s')).
Proof.
  unfold ls_guard. intros H. destruct (ls_faults s) as [|[] fs]; simplify_eq.
  - right. by exists s.
  - left. eauto.
  - right. by eexists (mkListStore _ _).
Qed.

Section groups.
Context {K} `{EqDecision K} (key : Row → K).

(** What grouping keeps: the rows, and one key to a group. *)
Definition grouped (gs : list (list Row)) : Prop :=
  NoDup ((fmap key ∘ head) <$> gs) ∧ ∀ g, g ∈ gs → ∃ k, g ≠ [] ∧ ∀ r, r ∈ g → key r = k.

Lemma add_to_group_perm r gs : concat (add_to_group key r gs) ≡ₚ r :: concat gs.
Proof.
  induction gs as [|g gs IH]; [done|]. cbn [add_to_group concat]. case_bool_decide; cbn [concat]; [done|].
  rewrite IH. by rewrite Permutation_middle.
Qed.

Lemma add_to_group_heads r gs k :
  k ∈ (fmap key ∘ head) <$> add_to_group key r gs → k = Some (key r) ∨ k ∈ (fmap key ∘ head) <$> gs.
Proof.
  induction gs as [|g gs IH]; [set_solver|]. cbn [add_to_group]. case_bool_decide; csimpl; set_solver.
Qed.

Lemma add_to_group_grouped r gs : grouped gs → grouped (add_to_group key r gs).
Proof.
  induction gs as [|g gs IH]; intros [Hn Hg].
  { split; [by apply NoDup_singleton|]. intros g ->%list_elem_of_singleton. exists (key r).
    split; [done|]. by intros r' ->%list_elem_of_singleton. }
  csimpl in Hn. apply NoDup_cons in Hn as [Hh Hn].
  assert (grouped gs) as Hgs by (split; [done|]; intros; apply Hg; by right).
  cbn [add_to_group]. case_bool_decide as Hk.
  - split; csimpl.
    + apply NoDup_cons. split; [|done]. by rewrite <- Hk.
    + intros g' [->|Hg']%elem_of_cons; [|by apply Hgs]. exists (key r). split; [done|].
      intros r' [->|Hr']%elem_of_cons; [done|]. destruct (Hg g) as (k & Hne & Hall); [by left|].
      rewrite (Hall r') by done. destruct g as [|r0 g]; [done|]. injection Hk as <-. symmetry. apply Hall. by left.
  - destruct (IH Hgs) as [Hn' Hg']. split; csimpl.
    + apply NoDup_cons. split; [|done]. by intros [?|?]%add_to_group_heads.
    + intros g' [->|?]%elem_of_cons; [apply Hg; by left|by apply Hg'].
Qed.

Lemma group_rows_grouped l : concat (group_rows key l) ≡ₚ l ∧ grouped (group_rows key l).
Proof.
  induction l as [|r l [IHp IHg]]; [split; [done|]; split; [by apply NoDup_nil|]; by intros g ?%elem_of_nil|].
  cbn [group_rows foldr]. split; [|by apply add_to_group_grouped].
  rewrite add_to_group_perm. by constructor.
Qed.

End groups.

Lemma ls_groups_grouping q tbl : grouping q tbl (ls_groups q tbl).
Proof.
  unfold grouping, ls_groups. pose proof (merge_sort_Permutation (order_le (sel_order q)) (matching (sel_where q) tbl)) as Hp.
  destruct (sel_group q) as [|k ks] eqn:E.
  - destruct (existsb _ _).
    + by eexists.
    + eexists. split; [done|]. split; [done|]. apply Sorted_merge_sort, _.
  - destruct (group_rows_grouped (group_key q) (merge_sort (order_le (sel_order q)) (matching (sel_where q) tbl)))
      as [Hc Hg]. split; [by rewrite Hc|done].
Qed.

Lemma ls_unit_rows s r s' : ls_unit s = (r, s') → ls_rows s' = ls_rows s.
Proof.
  unfold ls_unit. destruct (ls_guard _ _) as [[e|u] s1] eqn:E; intros [= <- <-];
    apply ls_guard_inv in E as [(e'&_&->)|(s0&Hs0&E)]; by simplify_eq.
Qed.

#[export] Instance ListSql_laws : SqlLaws.
Proof.
  split; simpl.
  - intros c s id s' H. apply ls_guard_inv in H as [(e&?&_)|(s0&Hs0&H)]; [done|].
    cbv beta zeta in H. destruct (build_row _ _) as [r|] eqn:Hb; [|done].
    case_decide as Hid; [|done]. injection H as <- <-.
    rewrite <- Hs0. split; [done|]. split; [|eauto].
    intros r' Hr'%ls_next_id_fresh. lia.
  - intros c s e s' H. apply ls_guard_inv in H as [(e'&_&->)|(s0&Hs0&H)]; [done|].
    cbv beta zeta in H. destruct (build_row _ _); [case_decide|]; by simplify_eq.
  - intros u s n s' H. apply ls_guard_inv in H as [(e&?&_)|(s0&Hs0&H)]; [done|].
    destruct (update_rows _ _) eqn:Hu; simplify_eq/=. by rewrite <- Hs0.
  - intros u s e s' H. apply ls_guard_inv in H as [(e'&_&->)|(s0&Hs0&H)]; [done|].
    destruct (update_rows _ _); by simplify_eq/=.
  - intros u s cells s' H. apply ls_guard_inv in H as [(e&?&_)|(s0&Hs0&H)]; [done|].
    rewrite <- Hs0. destruct (filter _ (ls_rows s0)) as [|r l] eqn:Hf; [done|].
    destruct (update_rows _ _) eqn:Hu, (update_row u r) as [r'|] eqn:Hr; simplify_eq/=.
    split; [done|]. exists r, r'.
    assert (r ∈ filter (λ r, touched u r) (ls_rows s0)) as Hin by (rewrite Hf; set_solver).
    apply list_elem_of_filter in Hin as [? ?]. done.
  - intros u s e s' H. apply ls_guard_inv in H as [(e'&_&->)|(s0&Hs0&H)]; [done|].
    destruct (filter _ _) as [|r l]; [by simplify_eq|].
    destruct (update_rows _ _); [destruct (update_row _ r)|]; by simplify_eq.
  - intros q s cells s' H _. apply ls_guard_inv in H as [(e&?&_)|(s0&Hs0&H)]; [done|].
    cbv beta zeta in H. injection H as <- <-. rewrite <- Hs0. split; [done|].
    set (full := merge_sort _ _). exists (page q full). split; [|done].
    exists full. split; [apply merge_sort_Permutation|].
    split; [|done]. apply Sorted_merge_sort, _.
  - intros q s e s' H. apply ls_guard_inv in H as [(e'&_&->)|(s0&Hs0&H)]; by simplify_eq/=.
  - intros q s cells s' H _. apply ls_guard_inv in H as [(e&?&_)|(s0&Hs0&H)]; [done|].
    cbv beta zeta in H. destruct (existsb blank _); [done|]. destruct (forallb _ _); [|done].
    injection H as <- <-. rewrite <- Hs0. split; [done|]. eexists. split; [apply ls_groups_grouping|done].
  - intros q s r s' H. apply ls_guard_inv in H as [(e'&_&->)|(s0&Hs0&H)]; [done|].
    cbv beta zeta in H. destruct (existsb blank _); [|destruct (forallb _ _)]; by simplify_eq/=.
  - intros q s n s' H _ _. apply ls_guard_inv in H as [(e&?&_)|(s0&Hs0&H)]; [done|].
    simplify_eq/=. by rewrite <- Hs0.
  - intros q s e s' H. apply ls_guard_inv in H as [(e'&_&->)|(s0&Hs0&H)]; by simplify_eq/=.
  - intros d s n s' H. apply ls_guard_inv in H as [(e&?&_)|(s0&Hs0&H)]; [done|].
    simplify_eq/=. by rewrite <- Hs0.
  - intros d s e s' H. apply ls_guard_inv in H as [(e'&_&->)|(s0&Hs0&H)]; by simplify_eq/=.
  - intros o s t s' H. apply ls_guard_inv in H as [(e&?&_)|(s0&Hs0&H)]; [done|].
    simplify_eq/=. by rewrite <- Hs0.
  - intros o s e s' H. apply ls_guard_inv in H as [(e'&_&->)|(s0&Hs0&H)]; by simplify_eq/=.
  - intros t s s' H. apply ls_guard_inv in H as [(e&?&_)|(s0&Hs0&H)]; by simplify_eq/=.
  - intros t s e s' H. apply ls_guard_inv in H as [(e'&_&->)|(s0&Hs0&H)]; by simplify_eq/=.
  - intros s. by left.
  - apply ls_unit_rows.
  - apply ls_unit_rows.
  - apply ls_unit_rows.
Qed.
