(* ===== verification/ProofRequest.v ===== *)
(** * The entity [ProofRequest]

    [db/ent/proofrequest/proofrequest.go] and [where.go] (constants, columns,
    validators, predicates), [db/ent/proofrequest.go] (the entity, and how the
    values scanned from a row are assigned to it), the parts of
    [db/ent/ent.go] the entity's queries use (error classes, [Asc], [Desc]) and
    the table declaration of [migrate/schema.go]. *)

From S2P Require Import Prelude Sql.

Local Open Scope string_scope.

Create Rewrite HintDb sat.

(** ** Package proofrequest *)

Definition Label := "proof_request".
Definition FieldID := "id".
Definition FieldType := "type".
Definition FieldStartBlock := "start_block".
Definition FieldEndBlock := "end_block".
Definition FieldStatus := "status".
Definition FieldRequestAddedTime := "request_added_time".
Definition FieldProverRequestID := "prover_request_id".
Definition FieldProofRequestTime := "proof_request_time".
Definition FieldLastUpdatedTime := "last_updated_time".
Definition FieldL1BlockNumber := "l1_block_number".
Definition FieldL1BlockHash := "l1_block_hash".
Definition FieldProof := "proof".
Definition Table := "proof_requests".

Definition Columns : list string :=
  [FieldID; FieldType; FieldStartBlock; FieldEndBlock; FieldStatus;
   FieldRequestAddedTime; FieldProverRequestID; FieldProofRequestTime;
   FieldLastUpdatedTime; FieldL1BlockNumber; FieldL1BlockHash; FieldProof].

Definition ValidColumn (column : string) : bool :=
  existsb (λ c, bool_decide (column = c)) Columns.

Definition TypeSPAN := "SPAN".
Definition TypeAGG := "AGG".

Definition StatusUNREQ := "UNREQ".
Definition StatusWITNESSGEN := "WITNESSGEN".
Definition StatusPROVING := "PROVING".
Definition StatusFAILED := "FAILED".
Definition StatusCOMPLETE := "COMPLETE".

Definition TypeValidator (t : string) : option error :=
  if bool_decide (t = TypeSPAN) || bool_decide (t = TypeAGG) then None
  else Some (Errorf "proofrequest: invalid enum value for type field: %q" [AStr t]).

Definition StatusValidator (s : string) : option error :=
  if bool_decide (s = StatusUNREQ) || bool_decide (s = StatusWITNESSGEN)
     || bool_decide (s = StatusPROVING) || bool_decide (s = StatusFAILED)
     || bool_decide (s = StatusCOMPLETE)
  then None
  else Some (Errorf "proofrequest: invalid enum value for status field: %q" [AStr s]).

(** The table as [migrate/schema.go] declares it: name, type, nullability. *)
Inductive FieldKind := TypeInt | TypeEnum (values : list string) | TypeUint64 | TypeString | TypeBytes.

Definition ProofRequestsColumns : list (string * FieldKind * bool) :=
  [("id", TypeInt, false);
   ("type", TypeEnum ["SPAN"; "AGG"], false);
   ("start_block", TypeUint64, false);
   ("end_block", TypeUint64, false);
   ("status", TypeEnum ["UNREQ"; "WITNESSGEN"; "PROVING"; "FAILED"; "COMPLETE"], false);
   ("request_added_time", TypeUint64, false);
   ("prover_request_id", TypeString, true);
   ("proof_request_time", TypeUint64, true);
   ("last_updated_time", TypeUint64, false);
   ("l1_block_number", TypeUint64, true);
   ("l1_block_hash", TypeString, true);
   ("proof", TypeBytes, true)].

(** *** Predicates ([where.go]) *)

Definition ID (id : Z) : predicate := FieldEQ FieldID (VInt id).
Definition IDEQ (id : Z) : predicate := FieldEQ FieldID (VInt id).
Definition IDNEQ (id : Z) : predicate := FieldNEQ FieldID (VInt id).
Definition IDIn (ids : list Z) : predicate := FieldIn FieldID (VInt <$> ids).
Definition TypeEQ (v : string) : predicate := FieldEQ FieldType (VType v).
Definition TypeNEQ (v : string) : predicate := FieldNEQ FieldType (VType v).
Definition TypeIn (vs : list string) : predicate := FieldIn FieldType (VType <$> vs).
Definition StartBlockEQ (v : Z) : predicate := FieldEQ FieldStartBlock (VUint64 v).
Definition StartBlockNEQ (v : Z) : predicate := FieldNEQ FieldStartBlock (VUint64 v).
Definition StartBlockGT (v : Z) : predicate := FieldGT FieldStartBlock (VUint64 v).
Definition StartBlockGTE (v : Z) : predicate := FieldGTE FieldStartBlock (VUint64 v).
Definition StartBlockLT (v : Z) : predicate := FieldLT FieldStartBlock (VUint64 v).
Definition StartBlockLTE (v : Z) : predicate := FieldLTE FieldStartBlock (VUint64 v).
Definition EndBlockEQ (v : Z) : predicate := FieldEQ FieldEndBlock (VUint64 v).
Definition EndBlockNEQ (v : Z) : predicate := FieldNEQ FieldEndBlock (VUint64 v).
Definition EndBlockGT (v : Z) : predicate := FieldGT FieldEndBlock (VUint64 v).
Definition EndBlockGTE (v : Z) : predicate := FieldGTE FieldEndBlock (VUint64 v).
Definition EndBlockLT (v : Z) : predicate := FieldLT FieldEndBlock (VUint64 v).
Definition EndBlockLTE (v : Z) : predicate := FieldLTE FieldEndBlock (VUint64 v).
Definition StatusEQ (v : string) : predicate := FieldEQ FieldStatus (VStatus v).
Definition StatusNEQ (v : string) : predicate := FieldNEQ FieldStatus (VStatus v).
Definition StatusIn (vs : list string) : predicate := FieldIn FieldStatus (VStatus <$> vs).
Definition StatusNotIn (vs : list string) : predicate := FieldNotIn FieldStatus (VStatus <$> vs).
Definition L1BlockNumberEQ (v : Z) : predicate := FieldEQ FieldL1BlockNumber (VUint64 v).
Definition L1BlockNumberIsNil : predicate := FieldIsNull FieldL1BlockNumber.
Definition L1BlockHashEQ (v : string) : predicate := FieldEQ FieldL1BlockHash (VString v).
Definition L1BlockHashIsNil : predicate := FieldIsNull FieldL1BlockHash.
Definition L1BlockHashNotNil : predicate := FieldNotNull FieldL1BlockHash.
Definition ProverRequestIDEQ (v : string) : predicate := FieldEQ FieldProverRequestID (VString v).
Definition ProofIsNil : predicate := FieldIsNull FieldProof.
Definition ProofNotNil : predicate := FieldNotNull FieldProof.
Definition And (ps : list predicate) : predicate := AndPredicates ps.
Definition Or (ps : list predicate) : predicate := OrPredicates ps.
Definition Not (p : predicate) : predicate := NotPredicates p.

(** ** Error classes and orderings ([ent.go]) *)

Definition IsNotFound (e : error) : bool :=
  errors_as (λ e, match e with NotFoundError _ => true | _ => false end) e.
Definition IsNotSingular (e : error) : bool :=
  errors_as (λ e, match e with NotSingularError _ => true | _ => false end) e.
Definition IsValidationError (e : error) : bool :=
  errors_as (λ e, match e with ValidationError _ _ => true | _ => false end) e.
Definition IsNotLoaded (e : error) : bool :=
  errors_as (λ e, match e with NotLoadedError _ => true | _ => false end) e.
Definition IsConstraintError (e : error) : bool :=
  errors_as (λ e, match e with ConstraintError _ _ => true | _ => false end) e.
Definition MaskNotFound (e : error) : option error :=
  if IsNotFound e then None else Some e.

Definition checkColumn (table column : string) : option error :=
  if bool_decide (table = Table) && ValidColumn column then None
  else Some (Errorf "unknown column %q for table %q" [AStr column; AStr table]).

Definition order_term (desc : bool) (f : string) : OrderTerm :=
  mkOrderTerm f desc
    ((λ e, ValidationError f (Wrapf "ent: %w" [] e)) <$> checkColumn Table f).

Definition Asc (fields : list string) : list OrderTerm := order_term false <$> fields.
Definition Desc (fields : list string) : list OrderTerm := order_term true <$> fields.

(** ** The entity ([proofrequest.go]) *)

(** The destinations [scanValues] allocates, filled in by a scan: a nullable
    integer, a nullable string, a byte slice, or a value of unknown type. *)
Inductive cell :=
| CNullInt64 (v : option Z)
| CNullString (v : option string)
| CBytes (v : option bytes)
| CUnknown (v : option sqlval).

Record ProofRequest := mkProofRequest {
  pr_ID : Z;
  pr_Type : string;
  pr_StartBlock : Z;
  pr_EndBlock : Z;
  pr_Status : string;
  pr_RequestAddedTime : Z;
  pr_ProverRequestID : string;
  pr_ProofRequestTime : Z;
  pr_LastUpdatedTime : Z;
  pr_L1BlockNumber : Z;
  pr_L1BlockHash : string;
  pr_Proof : option bytes;
  pr_selectValues : list (string * cell);
}.

Global Instance cell_eq_dec : EqDecision cell.
Proof. solve_decision. Defined.
Global Instance ProofRequest_eq_dec : EqDecision ProofRequest.
Proof. solve_decision. Defined.

(** [&ProofRequest{config: ...}]: every field its zero value. *)
Definition zeroProofRequest : ProofRequest :=
  mkProofRequest 0 "" 0 0 "" 0 "" 0 0 0 "" None [].

Definition scanValue (column : string) : cell :=
  match column with
  | "proof" => CBytes None
  | "id" | "start_block" | "end_block" | "request_added_time" | "proof_request_time"
  | "last_updated_time" | "l1_block_number" => CNullInt64 None
  | "type" | "status" | "prover_request_id" | "l1_block_hash" => CNullString None
  | _ => CUnknown None
  end.

Definition scanValues (columns : list string) : list cell := scanValue <$> columns.

(** [rows.Scan] of a driver value into a destination ([database/sql]). *)
Definition sql_scan (dest : cell) (v : option sqlval) : error + cell :=
  match dest, v with
  | CNullInt64 _, None => inr (CNullInt64 None)
  | CNullInt64 _, Some (SInt z) => inr (CNullInt64 (Some z))
  | CNullString _, None => inr (CNullString None)
  | CNullString _, Some (SText s) => inr (CNullString (Some s))
  | CBytes _, None => inr (CBytes None)
  | CBytes _, Some (SBlob b) => inr (CBytes (Some b))
  | CUnknown _, v => inr (CUnknown v)
  | _, _ => inl (Errorf "sql: Scan error on column" [])
  end.

Definition set_ID x pr := let 'mkProofRequest _ t s e st ra pid pt lu ln lh pf sv := pr in
  mkProofRequest x t s e st ra pid pt lu ln lh pf sv.
Definition set_Type x pr := let 'mkProofRequest i _ s e st ra pid pt lu ln lh pf sv := pr in
  mkProofRequest i x s e st ra pid pt lu ln lh pf sv.
Definition set_StartBlock x pr := let 'mkProofRequest i t _ e st ra pid pt lu ln lh pf sv := pr in
  mkProofRequest i t x e st ra pid pt lu ln lh pf sv.
Definition set_EndBlock x pr := let 'mkProofRequest i t s _ st ra pid pt lu ln lh pf sv := pr in
  mkProofRequest i t s x st ra pid pt lu ln lh pf sv.
Definition set_Status x pr := let 'mkProofRequest i t s e _ ra pid pt lu ln lh pf sv := pr in
  mkProofRequest i t s e x ra pid pt lu ln lh pf sv.
Definition set_RequestAddedTime x pr := let 'mkProofRequest i t s e st _ pid pt lu ln lh pf sv := pr in
  mkProofRequest i t s e st x pid pt lu ln lh pf sv.
Definition set_ProverRequestID x pr := let 'mkProofRequest i t s e st ra _ pt lu ln lh pf sv := pr in
  mkProofRequest i t s e st ra x pt lu ln lh pf sv.
Definition set_ProofRequestTime x pr := let 'mkProofRequest i t s e st ra pid _ lu ln lh pf sv := pr in
  mkProofRequest i t s e st ra pid x lu ln lh pf sv.
Definition set_LastUpdatedTime x pr := let 'mkProofRequest i t s e st ra pid pt _ ln lh pf sv := pr in
  mkProofRequest i t s e st ra pid pt x ln lh pf sv.
Definition set_L1BlockNumber x pr := let 'mkProofRequest i t s e st ra pid pt lu _ lh pf sv := pr in
  mkProofRequest i t s e st ra pid pt lu x lh pf sv.
Definition set_L1BlockHash x pr := let 'mkProofRequest i t s e st ra pid pt lu ln _ pf sv := pr in
  mkProofRequest i t s e st ra pid pt lu ln x pf sv.
Definition set_Proof x pr := let 'mkProofRequest i t s e st ra pid pt lu ln lh _ sv := pr in
  mkProofRequest i t s e st ra pid pt lu ln lh x sv.
Definition add_selectValue c v pr := let 'mkProofRequest i t s e st ra pid pt lu ln lh pf sv := pr in
  mkProofRequest i t s e st ra pid pt lu ln lh pf (sv ++ [(c, v)]).

Definition unexpected (field : string) : error :=
  Errorf "unexpected type %T for field" [AStr field].

(** One iteration of [assignValues]: a NULL leaves the field as it is. *)
Definition assignValue (column : string) (v : cell) (pr : ProofRequest) : error + ProofRequest :=
  let int (f : Z → ProofRequest → ProofRequest) :=
    match v with
    | CNullInt64 (Some z) => inr (f (u64 z) pr)
    | CNullInt64 None => inr pr
    | _ => inl (unexpected column)
    end in
  let str (f : string → ProofRequest → ProofRequest) :=
    match v with
    | CNullString (Some s) => inr (f s pr)
    | CNullString None => inr pr
    | _ => inl (unexpected column)
    end in
  match column with
  | "id" => match v with
            | CNullInt64 z => inr (set_ID (default 0%Z z) pr)
            | _ => inl (unexpected column)
            end
  | "type" => str set_Type
  | "start_block" => int set_StartBlock
  | "end_block" => int set_EndBlock
  | "status" => str set_Status
  | "request_added_time" => int set_RequestAddedTime
  | "prover_request_id" => str set_ProverRequestID
  | "proof_request_time" => int set_ProofRequestTime
  | "last_updated_time" => int set_LastUpdatedTime
  | "l1_block_number" => int set_L1BlockNumber
  | "l1_block_hash" => str set_L1BlockHash
  | "proof" => match v with
               | CBytes b => inr (set_Proof b pr)
               | _ => inl (unexpected column)
               end
  | _ => inr (add_selectValue column v pr)
  end.

Fixpoint assign_loop (columns : list string) (values : list cell) (pr : ProofRequest)
    : error + ProofRequest :=
  match columns, values with
  | c :: cs, v :: vs =>
      match assignValue c v pr with
      | inl e => inl e
      | inr pr' => assign_loop cs vs pr'
      end
  | _, _ => inr pr
  end.

Definition assignValues (columns : list string) (values : list cell) (pr : ProofRequest)
    : error + ProofRequest :=
  if (length values <? length columns)%nat
  then inl (Errorf "mismatch number of scan values: %d != %d"
                   [AInt (Z.of_nat (length values)); AInt (Z.of_nat (length columns))])
  else assign_loop columns values pr.

(** [String]: the rendering of an entity, field by field, as the pieces the
    builder writes (numbers and bytes unrendered). *)
Inductive piece := PStr (s : string) | PInt (z : Z) | PBytes (b : option bytes).

Definition ProofRequest_String (pr : ProofRequest) : list piece :=
  [PStr "ProofRequest("; PStr "id="; PInt (pr_ID pr); PStr ", ";
   PStr "type="; PStr (pr_Type pr); PStr ", ";
   PStr "start_block="; PInt (pr_StartBlock pr); PStr ", ";
   PStr "end_block="; PInt (pr_EndBlock pr); PStr ", ";
   PStr "status="; PStr (pr_Status pr); PStr ", ";
   PStr "request_added_time="; PInt (pr_RequestAddedTime pr); PStr ", ";
   PStr "prover_request_id="; PStr (pr_ProverRequestID pr); PStr ", ";
   PStr "proof_request_time="; PInt (pr_ProofRequestTime pr); PStr ", ";
   PStr "last_updated_time="; PInt (pr_LastUpdatedTime pr); PStr ", ";
   PStr "l1_block_number="; PInt (pr_L1BlockNumber pr); PStr ", ";
   PStr "l1_block_hash="; PStr (pr_L1BlockHash pr); PStr ", ";
   PStr "proof="; PBytes (pr_Proof pr); PStr ")"].

(** ** From a row to an entity *)

Fixpoint scan_all (dests : list cell) (vals : list (option sqlval)) : error + list cell :=
  match dests, vals with
  | d :: ds, v :: vs =>
      match sql_scan d v with
      | inl e => inl e
      | inr c => match scan_all ds vs with inl e => inl e | inr cs => inr (c :: cs) end
      end
  | _, _ => inr []
  end.

(** What the [Assign] and [ScanValues] callbacks of a query do with one row. *)
Definition scan_node (columns : list string) (vals : list (option sqlval)) : error + ProofRequest :=
  match scan_all (scanValues columns) vals with
  | inl e => inl e
  | inr cells => assignValues columns cells zeroProofRequest
  end.

Fixpoint scan_nodes (columns : list string) (rows : list (list (option sqlval)))
    : error + list ProofRequest :=
  match rows with
  | [] => inr []
  | vals :: rest =>
      match scan_node columns vals with
      | inl e => inl e
      | inr node => match scan_nodes columns rest with
                    | inl e => inl e
                    | inr nodes => inr (node :: nodes)
                    end
      end
  end.

(** The entity a full row is read as. *)
Definition entity (r : Row) : ProofRequest :=
  mkProofRequest (row_id r) (row_type r) (u64 (row_start_block r)) (u64 (row_end_block r))
    (row_status r) (u64 (row_request_added_time r)) (default "" (row_prover_request_id r))
    (default 0%Z (u64 <$> row_proof_request_time r)) (u64 (row_last_updated_time r))
    (default 0%Z (u64 <$> row_l1_block_number r)) (default "" (row_l1_block_hash r))
    (row_proof r) [].

Lemma scan_node_full r : scan_node Columns (select_cols Columns r) = inr (entity r).
Proof.
  destruct r as [i t s e st ra [pid|] [pt|] lu [ln|] [lh|] [pf|]]; reflexivity.
Qed.

Lemma scan_nodes_full l :
  scan_nodes Columns (select_cols Columns <$> l) = inr (entity <$> l).
Proof.
  induction l as [|r l IH]; [done|]. rewrite fmap_cons. cbn [scan_nodes].
  by rewrite scan_node_full, IH.
Qed.

(** [Select(FieldEndBlock)] reads only the id and the end block. *)
Definition end_block_entity (r : Row) : ProofRequest :=
  set_EndBlock (u64 (row_end_block r)) (set_ID (row_id r) zeroProofRequest).

Lemma scan_nodes_end_block l :
  scan_nodes [FieldID; FieldEndBlock] (select_cols [FieldID; FieldEndBlock] <$> l)
  = inr (end_block_entity <$> l).
Proof. induction l as [|r l IH]; [done|]. rewrite fmap_cons. cbn [scan_nodes]. by rewrite IH. Qed.

(** ** Rows in range *)

(** The id and the block range of a row are [uint64]s that SQLite can hold. *)
Definition row_ok (r : Row) : Prop :=
  0 < row_id r < two63 ∧ is_i63 (row_start_block r) ∧ is_i63 (row_end_block r).

(** The content of a table: rows in range, with distinct ids. *)
Definition table_ok (tbl : list Row) : Prop :=
  Forall row_ok tbl ∧ NoDup (row_id <$> tbl).

(** ** What the predicates mean on a row *)

Lemma string_compare_refl s : String.compare s s = Eq.
Proof.
  pose proof (String.compare_antisym s s) as H.
  destruct (String.compare s s); done.
Qed.

Lemma eval_EQ_text c f s (r : Row) :
  col c r = Some (SText (f r)) →
  eval (FieldEQ c (VType s)) r = Some (bool_decide (f r = s)) ∧
  eval (FieldEQ c (VStatus s)) r = Some (bool_decide (f r = s)).
Proof.
  intros H. simpl. rewrite H. simpl.
  assert (cmp_eq (String.compare (f r) s) = bool_decide (f r = s)) as ->; [|done].
  case_bool_decide as Hd.
  - subst. by rewrite string_compare_refl.
  - destruct (String.compare (f r) s) eqn:E; try done.
    by apply String.compare_eq_iff in E.
Qed.

Definition sat1 (p : predicate) (r : Row) : bool :=
  match eval p r with Some true => true | _ => false end.

Lemma sat_nil r : sat [] r = true.
Proof. done. Qed.
Lemma sat_cons p ps r : sat (p :: ps) r = sat1 p r && sat ps r.
Proof. done. Qed.

Lemma matching_nil tbl : matching [] tbl = tbl.
Proof. induction tbl as [|r tbl IH]; [done|]. unfold matching in *. by rewrite filter_cons, IH. Qed.

Lemma sat_TypeEQ t r : sat1 (TypeEQ t) r = bool_decide (row_type r = t).
Proof.
  unfold sat1, TypeEQ, FieldType. destruct (eval_EQ_text "type" row_type t r eq_refl) as [-> _].
  by case_bool_decide.
Qed.
Lemma sat_StatusEQ t r : sat1 (StatusEQ t) r = bool_decide (row_status r = t).
Proof.
  unfold sat1, StatusEQ, FieldStatus. destruct (eval_EQ_text "status" row_status t r eq_refl) as [_ ->].
  by case_bool_decide.
Qed.
Lemma sat_StatusNEQ t r : sat1 (StatusNEQ t) r = bool_decide (row_status r ≠ t).
Proof.
  pose proof (sat_StatusEQ t r) as H. unfold sat1, StatusEQ, StatusNEQ in *. simpl in *.
  destruct (String.compare _ _); simpl in *; repeat case_bool_decide; congruence.
Qed.
Lemma sat_StatusIn1 t r : sat1 (StatusIn [t]) r = bool_decide (row_status r = t).
Proof.
  pose proof (sat_StatusEQ t r) as H. unfold sat1, StatusEQ, StatusIn in *. simpl in *.
  destruct (String.compare _ _); simpl in *; repeat case_bool_decide; congruence.
Qed.

Lemma cmp_Z a b :
  cmp_eq (a ?= b)%Z = bool_decide (a = b) ∧
  negb (cmp_lt (a ?= b)%Z) = bool_decide (b <= a)%Z ∧
  negb (cmp_gt (a ?= b)%Z) = bool_decide (a <= b)%Z.
Proof.
  destruct (Z.compare_spec a b); simpl; repeat split; symmetry;
    (apply bool_decide_eq_true || apply bool_decide_eq_false); lia.
Qed.

Lemma sat_ID z r : sat1 (ID z) r = bool_decide (row_id r = z).
Proof. unfold sat1. simpl. destruct (cmp_Z (row_id r) z) as [-> _]. by case_bool_decide. Qed.
Lemma sat_StartBlockEQ z r : sat1 (StartBlockEQ z) r = bool_decide (row_start_block r = z).
Proof. unfold sat1. simpl. destruct (cmp_Z (row_start_block r) z) as [-> _]. by case_bool_decide. Qed.
Lemma sat_EndBlockEQ z r : sat1 (EndBlockEQ z) r = bool_decide (row_end_block r = z).
Proof. unfold sat1. simpl. destruct (cmp_Z (row_end_block r) z) as [-> _]. by case_bool_decide. Qed.
Lemma sat_StartBlockGTE z r : sat1 (StartBlockGTE z) r = bool_decide (z <= row_start_block r)%Z.
Proof. unfold sat1. simpl. destruct (cmp_Z (row_start_block r) z) as [_ [-> _]]. by case_bool_decide. Qed.
Lemma sat_EndBlockLTE z r : sat1 (EndBlockLTE z) r = bool_decide (row_end_block r <= z)%Z.
Proof. unfold sat1. simpl. destruct (cmp_Z (row_end_block r) z) as [_ [_ ->]]. by case_bool_decide. Qed.
Lemma sat_L1BlockNumberEQ z r :
  sat1 (L1BlockNumberEQ z) r = bool_decide (row_l1_block_number r = Some z).
Proof.
  unfold sat1. simpl. destruct (row_l1_block_number r) as [n|]; simpl; [|done].
  destruct (cmp_Z n z) as [-> _]. repeat case_bool_decide; congruence.
Qed.
Lemma sat_L1BlockHashEQ s r :
  sat1 (L1BlockHashEQ s) r = bool_decide (row_l1_block_hash r = Some s).
Proof.
  unfold sat1. simpl. destruct (row_l1_block_hash r) as [n|]; simpl; [|done].
  destruct (String.compare n s) eqn:E; simpl; symmetry.
  - apply String.compare_eq_iff in E as ->. by apply bool_decide_eq_true.
  - apply bool_decide_eq_false. intros [= ->].
    by rewrite string_compare_refl in E.
  - apply bool_decide_eq_false. intros [= ->].
    by rewrite string_compare_refl in E.
Qed.

#[export] Hint Rewrite sat_nil sat_cons sat_TypeEQ sat_StatusEQ sat_StatusNEQ sat_StatusIn1
  sat_ID sat_StartBlockEQ sat_EndBlockEQ sat_StartBlockGTE sat_EndBlockLTE
  sat_L1BlockNumberEQ sat_L1BlockHashEQ : sat.
