(* ===== verification/Where.v ===== *)
(** * More predicates and orders of the proof request table ([proofrequest/where.go], [proofrequest.go])

    The predicates that the proposer's own queries do not use, and the order of
    one column.  What they mean on a row is [ProofRequest.sat]; how the library
    looks for a text in another, with regard to case, is the class [TextLib]. *)

From Stdlib Require Import Ascii Lia.
From S2P Require Import Prelude Sql ProofRequest.

Local Open Scope Z_scope.

(** ** Predicates *)

Definition IDNotIn (ids : list Z) : predicate := FieldNotIn FieldID (VInt <$> ids).
Definition IDGT (id : Z) : predicate := FieldGT FieldID (VInt id).
Definition IDGTE (id : Z) : predicate := FieldGTE FieldID (VInt id).
Definition IDLT (id : Z) : predicate := FieldLT FieldID (VInt id).
Definition IDLTE (id : Z) : predicate := FieldLTE FieldID (VInt id).
Definition StartBlock (v : Z) : predicate := FieldEQ FieldStartBlock (VUint64 v).
Definition EndBlock (v : Z) : predicate := FieldEQ FieldEndBlock (VUint64 v).
Definition RequestAddedTime (v : Z) : predicate := FieldEQ FieldRequestAddedTime (VUint64 v).
Definition ProverRequestID (v : string) : predicate := FieldEQ FieldProverRequestID (VString v).
Definition ProofRequestTime (v : Z) : predicate := FieldEQ FieldProofRequestTime (VUint64 v).
Definition LastUpdatedTime (v : Z) : predicate := FieldEQ FieldLastUpdatedTime (VUint64 v).
Definition L1BlockNumber (v : Z) : predicate := FieldEQ FieldL1BlockNumber (VUint64 v).
Definition L1BlockHash (v : string) : predicate := FieldEQ FieldL1BlockHash (VString v).
Definition Proof_ (v : option bytes) : predicate := FieldEQ FieldProof (VBytes v).
Definition TypeNotIn (vs : list string) : predicate := FieldNotIn FieldType (VType <$> vs).
Definition StartBlockIn (vs : list Z) : predicate := FieldIn FieldStartBlock (VUint64 <$> vs).
Definition StartBlockNotIn (vs : list Z) : predicate := FieldNotIn FieldStartBlock (VUint64 <$> vs).
Definition EndBlockIn (vs : list Z) : predicate := FieldIn FieldEndBlock (VUint64 <$> vs).
Definition EndBlockNotIn (vs : list Z) : predicate := FieldNotIn FieldEndBlock (VUint64 <$> vs).
Definition RequestAddedTimeEQ (v : Z) : predicate := FieldEQ FieldRequestAddedTime (VUint64 v).
Definition RequestAddedTimeNEQ (v : Z) : predicate := FieldNEQ FieldRequestAddedTime (VUint64 v).
Definition RequestAddedTimeIn (vs : list Z) : predicate := FieldIn FieldRequestAddedTime (VUint64 <$> vs).
Definition RequestAddedTimeNotIn (vs : list Z) : predicate := FieldNotIn FieldRequestAddedTime (VUint64 <$> vs).
Definition RequestAddedTimeGT (v : Z) : predicate := FieldGT FieldRequestAddedTime (VUint64 v).
Definition RequestAddedTimeGTE (v : Z) : predicate := FieldGTE FieldRequestAddedTime (VUint64 v).
Definition RequestAddedTimeLT (v : Z) : predicate := FieldLT FieldRequestAddedTime (VUint64 v).
Definition RequestAddedTimeLTE (v : Z) : predicate := FieldLTE FieldRequestAddedTime (VUint64 v).
Definition ProverRequestIDNEQ (v : string) : predicate := FieldNEQ FieldProverRequestID (VString v).
Definition ProverRequestIDIn (vs : list string) : predicate := FieldIn FieldProverRequestID (VString <$> vs).
Definition ProverRequestIDNotIn (vs : list string) : predicate := FieldNotIn FieldProverRequestID (VString <$> vs).
Definition ProverRequestIDGT (v : string) : predicate := FieldGT FieldProverRequestID (VString v).
Definition ProverRequestIDGTE (v : string) : predicate := FieldGTE FieldProverRequestID (VString v).
Definition ProverRequestIDLT (v : string) : predicate := FieldLT FieldProverRequestID (VString v).
Definition ProverRequestIDLTE (v : string) : predicate := FieldLTE FieldProverRequestID (VString v).
Definition ProverRequestIDIsNil : predicate := FieldIsNull FieldProverRequestID.
Definition ProverRequestIDNotNil : predicate := FieldNotNull FieldProverRequestID.
Definition ProofRequestTimeEQ (v : Z) : predicate := FieldEQ FieldProofRequestTime (VUint64 v).
Definition ProofRequestTimeNEQ (v : Z) : predicate := FieldNEQ FieldProofRequestTime (VUint64 v).
Definition ProofRequestTimeIn (vs : list Z) : predicate := FieldIn FieldProofRequestTime (VUint64 <$> vs).
Definition ProofRequestTimeNotIn (vs : list Z) : predicate := FieldNotIn FieldProofRequestTime (VUint64 <$> vs).
Definition ProofRequestTimeGT (v : Z) : predicate := FieldGT FieldProofRequestTime (VUint64 v).
Definition ProofRequestTimeGTE (v : Z) : predicate := FieldGTE FieldProofRequestTime (VUint64 v).
Definition ProofRequestTimeLT (v : Z) : predicate := FieldLT FieldProofRequestTime (VUint64 v).
Definition ProofRequestTimeLTE (v : Z) : predicate := FieldLTE FieldProofRequestTime (VUint64 v).
Definition ProofRequestTimeIsNil : predicate := FieldIsNull FieldProofRequestTime.
Definition ProofRequestTimeNotNil : predicate := FieldNotNull FieldProofRequestTime.
Definition LastUpdatedTimeEQ (v : Z) : predicate := FieldEQ FieldLastUpdatedTime (VUint64 v).
Definition LastUpdatedTimeNEQ (v : Z) : predicate := FieldNEQ FieldLastUpdatedTime (VUint64 v).
Definition LastUpdatedTimeIn (vs : list Z) : predicate := FieldIn FieldLastUpdatedTime (VUint64 <$> vs).
Definition LastUpdatedTimeNotIn (vs : list Z) : predicate := FieldNotIn FieldLastUpdatedTime (VUint64 <$> vs).
Definition LastUpdatedTimeGT (v : Z) : predicate := FieldGT FieldLastUpdatedTime (VUint64 v).
Definition LastUpdatedTimeGTE (v : Z) : predicate := FieldGTE FieldLastUpdatedTime (VUint64 v).
Definition LastUpdatedTimeLT (v : Z) : predicate := FieldLT FieldLastUpdatedTime (VUint64 v).
Definition LastUpdatedTimeLTE (v : Z) : predicate := FieldLTE FieldLastUpdatedTime (VUint64 v).
Definition L1BlockNumberNEQ (v : Z) : predicate := FieldNEQ FieldL1BlockNumber (VUint64 v).
Definition L1BlockNumberIn (vs : list Z) : predicate := FieldIn FieldL1BlockNumber (VUint64 <$> vs).
Definition L1BlockNumberNotIn (vs : list Z) : predicate := FieldNotIn FieldL1BlockNumber (VUint64 <$> vs).
Definition L1BlockNumberGT (v : Z) : predicate := FieldGT FieldL1BlockNumber (VUint64 v).
Definition L1BlockNumberGTE (v : Z) : predicate := FieldGTE FieldL1BlockNumber (VUint64 v).
Definition L1BlockNumberLT (v : Z) : predicate := FieldLT FieldL1BlockNumber (VUint64 v).
Definition L1BlockNumberLTE (v : Z) : predicate := FieldLTE FieldL1BlockNumber (VUint64 v).
Definition L1BlockNumberNotNil : predicate := FieldNotNull FieldL1BlockNumber.
Definition L1BlockHashNEQ (v : string) : predicate := FieldNEQ FieldL1BlockHash (VString v).
Definition L1BlockHashIn (vs : list string) : predicate := FieldIn FieldL1BlockHash (VString <$> vs).
Definition L1BlockHashNotIn (vs : list string) : predicate := FieldNotIn FieldL1BlockHash (VString <$> vs).
Definition L1BlockHashGT (v : string) : predicate := FieldGT FieldL1BlockHash (VString v).
Definition L1BlockHashGTE (v : string) : predicate := FieldGTE FieldL1BlockHash (VString v).
Definition L1BlockHashLT (v : string) : predicate := FieldLT FieldL1BlockHash (VString v).
Definition L1BlockHashLTE (v : string) : predicate := FieldLTE FieldL1BlockHash (VString v).
Definition ProofEQ (v : option bytes) : predicate := FieldEQ FieldProof (VBytes v).
Definition ProofNEQ (v : option bytes) : predicate := FieldNEQ FieldProof (VBytes v).
Definition ProofIn (vs : list (option bytes)) : predicate := FieldIn FieldProof (VBytes <$> vs).
Definition ProofNotIn (vs : list (option bytes)) : predicate := FieldNotIn FieldProof (VBytes <$> vs).
Definition ProofGT (v : option bytes) : predicate := FieldGT FieldProof (VBytes v).
Definition ProofGTE (v : option bytes) : predicate := FieldGTE FieldProof (VBytes v).
Definition ProofLT (v : option bytes) : predicate := FieldLT FieldProof (VBytes v).
Definition ProofLTE (v : option bytes) : predicate := FieldLTE FieldProof (VBytes v).

(** ** Parts of a text *)

(** [sql.FieldContains] and the like; the text looked for comes first. *)
Class TextLib := {
  text_Contains : string → string → bool;
  text_HasPrefix : string → string → bool;
  text_HasSuffix : string → string → bool;
  text_EqualFold : string → string → bool;
  text_ContainsFold : string → string → bool;
}.

Definition FieldContains `{TextLib} (c v : string) : predicate := FieldText c (text_Contains v).
Definition FieldHasPrefix `{TextLib} (c v : string) : predicate := FieldText c (text_HasPrefix v).
Definition FieldHasSuffix `{TextLib} (c v : string) : predicate := FieldText c (text_HasSuffix v).
Definition FieldEqualFold `{TextLib} (c v : string) : predicate := FieldText c (text_EqualFold v).
Definition FieldContainsFold `{TextLib} (c v : string) : predicate := FieldText c (text_ContainsFold v).

Definition ProverRequestIDContains `{TextLib} (v : string) : predicate := FieldContains FieldProverRequestID v.
Definition ProverRequestIDHasPrefix `{TextLib} (v : string) : predicate := FieldHasPrefix FieldProverRequestID v.
Definition ProverRequestIDHasSuffix `{TextLib} (v : string) : predicate := FieldHasSuffix FieldProverRequestID v.
Definition ProverRequestIDEqualFold `{TextLib} (v : string) : predicate := FieldEqualFold FieldProverRequestID v.
Definition ProverRequestIDContainsFold `{TextLib} (v : string) : predicate := FieldContainsFold FieldProverRequestID v.
Definition L1BlockHashContains `{TextLib} (v : string) : predicate := FieldContains FieldL1BlockHash v.
Definition L1BlockHashHasPrefix `{TextLib} (v : string) : predicate := FieldHasPrefix FieldL1BlockHash v.
Definition L1BlockHashHasSuffix `{TextLib} (v : string) : predicate := FieldHasSuffix FieldL1BlockHash v.
Definition L1BlockHashEqualFold `{TextLib} (v : string) : predicate := FieldEqualFold FieldL1BlockHash v.
Definition L1BlockHashContainsFold `{TextLib} (v : string) : predicate := FieldContainsFold FieldL1BlockHash v.

(** ** Orders *)

(** [sql.OrderByField] with the direction that the options set; unlike [Asc]
    and [Desc] it does not check the column. *)
Definition ByID (desc : bool) : OrderTerm := mkOrderTerm FieldID desc None.
Definition ByType (desc : bool) : OrderTerm := mkOrderTerm FieldType desc None.
Definition ByStartBlock (desc : bool) : OrderTerm := mkOrderTerm FieldStartBlock desc None.
Definition ByEndBlock (desc : bool) : OrderTerm := mkOrderTerm FieldEndBlock desc None.
Definition ByStatus (desc : bool) : OrderTerm := mkOrderTerm FieldStatus desc None.
Definition ByRequestAddedTime (desc : bool) : OrderTerm := mkOrderTerm FieldRequestAddedTime desc None.
Definition ByProverRequestID (desc : bool) : OrderTerm := mkOrderTerm FieldProverRequestID desc None.
Definition ByProofRequestTime (desc : bool) : OrderTerm := mkOrderTerm FieldProofRequestTime desc None.
Definition ByLastUpdatedTime (desc : bool) : OrderTerm := mkOrderTerm FieldLastUpdatedTime desc None.
Definition ByL1BlockNumber (desc : bool) : OrderTerm := mkOrderTerm FieldL1BlockNumber desc None.
Definition ByL1BlockHash (desc : bool) : OrderTerm := mkOrderTerm FieldL1BlockHash desc None.

(** ** What the comparisons say together

    On a column that can be null the tests are not complements: a null fails
    them all.  With [IsNil] they divide the table. *)

Lemma compare_cases c v r :
  sql_of v ≠ None →
  (Nat.b2n (sat1 (FieldLT c v) r) + Nat.b2n (sat1 (FieldEQ c v) r) + Nat.b2n (sat1 (FieldGT c v) r)
   + Nat.b2n (sat1 (FieldIsNull c) r) = 1)%nat.
Proof.
  intros Hv. unfold sat1; cbn [eval]. destruct (col c r) as [x|]; simpl.
  - destruct (sql_of v) as [y|]; [|done]. by destruct (sqlval_compare x y).
  - done.
Qed.

Lemma in_known x vs :
  Forall (λ v, sql_of v ≠ None) vs →
  is_Some (foldr (λ v, or3 (cmp3 cmp_eq (Some x) (sql_of v))) (Some false) vs).
Proof.
  induction 1 as [|v vs Hv _ [b IH]]; [by eexists|]. cbn [foldr]. rewrite IH.
  destruct (sql_of v) as [y|]; [|done]. simpl. by destruct (cmp_eq _), b.
Qed.

Lemma in_null vs :
  vs ≠ [] → foldr (λ v, or3 (cmp3 cmp_eq None (sql_of v))) (Some false) vs = None.
Proof.
  destruct vs as [|v vs]; [done|]. intros _. revert v.
  induction vs as [|w vs IH]; intros v; [done|]. cbn [foldr] in *. by rewrite IH.
Qed.

Lemma in_cases c vs r :
  Forall (λ v, sql_of v ≠ None) vs → vs ≠ [] →
  (Nat.b2n (sat1 (FieldIn c vs) r) + Nat.b2n (sat1 (FieldNotIn c vs) r)
   + Nat.b2n (sat1 (FieldIsNull c) r) = 1)%nat.
Proof.
  intros Hvs Hne. unfold sat1; cbn [eval]. destruct (col c r) as [x|].
  - destruct (in_known x vs Hvs) as [b ->]. by destruct b.
  - by rewrite in_null.
Qed.

Lemma length_matching p tbl :
  length (matching [p] tbl) = foldr (λ r n, (Nat.b2n (sat1 p r) + n)%nat) O tbl.
Proof.
  induction tbl as [|r tbl IH]; [done|]. unfold matching in *. rewrite filter_cons. cbn [foldr].
  change (sat [p] r) with (sat1 p r && sat [] r). rewrite sat_nil, andb_true_r, <- IH.
  by destruct (sat1 p r).
Qed.

(** Every row is below, at or above a value, or null, and only one of them. *)
Theorem comparisons_divide c v tbl :
  sql_of v ≠ None →
  (length (matching [FieldLT c v] tbl) + length (matching [FieldEQ c v] tbl)
   + length (matching [FieldGT c v] tbl) + length (matching [FieldIsNull c] tbl) = length tbl)%nat.
Proof.
  intros Hv. rewrite !length_matching. induction tbl as [|r tbl IH]; [done|]. cbn [foldr length].
  pose proof (compare_cases c v r Hv). lia.
Qed.

(** Every row is in a list of values, out of it, or null. *)
Theorem membership_divides c vs tbl :
  Forall (λ v, sql_of v ≠ None) vs → vs ≠ [] →
  (length (matching [FieldIn c vs] tbl) + length (matching [FieldNotIn c vs] tbl)
   + length (matching [FieldIsNull c] tbl) = length tbl)%nat.
Proof.
  intros Hvs Hne. rewrite !length_matching. induction tbl as [|r tbl IH]; [done|]. cbn [foldr length].
  pose proof (in_cases c vs r Hvs Hne). lia.
Qed.

(** The negated and the weak forms are what their names say where the column has a value. *)
Theorem complements c v r :
  col c r ≠ None → sql_of v ≠ None →
  sat1 (FieldNEQ c v) r = negb (sat1 (FieldEQ c v) r) ∧
  sat1 (FieldGTE c v) r = negb (sat1 (FieldLT c v) r) ∧
  sat1 (FieldLTE c v) r = negb (sat1 (FieldGT c v) r).
Proof.
  intros Hc Hv. unfold sat1; cbn [eval]. destruct (col c r) as [x|]; [|done].
  destruct (sql_of v) as [y|]; [|done]. simpl. by destruct (sqlval_compare x y).
Qed.

(** ** Parts of a text

    What is relied on: a prefix, a suffix and the whole are parts, and what is
    found with regard to case is found without. *)
Class TextLaws `{TextLib} : Prop := {
  text_prefix_self v s : text_HasPrefix v (v +:+ s) = true;
  text_suffix_self v s : text_HasSuffix v (s +:+ v) = true;
  text_fold_self v : text_EqualFold v v = true;
  text_prefix_part v s : text_HasPrefix v s = true → text_Contains v s = true;
  text_suffix_part v s : text_HasSuffix v s = true → text_Contains v s = true;
  text_part_fold v s : text_Contains v s = true → text_ContainsFold v s = true;
  text_whole_fold v s : text_EqualFold v s = true → text_ContainsFold v s = true;
}.

Lemma sat1_text c f r : sat1 (FieldText c f) r = match as_text (col c r) with Some s => f s | None => false end.
Proof. unfold sat1. cbn. destruct (as_text (col c r)) as [s|]; [|done]. cbn. by destruct (f s). Qed.

(** A row is found by the beginning, the end and the whole of its text; what
    the narrower predicates find the wider ones do; a null is found by none. *)
Theorem text_predicates `{TextLaws} c v r :
  (sat1 (FieldHasPrefix c v) r = true ∨ sat1 (FieldHasSuffix c v) r = true → sat1 (FieldContains c v) r = true) ∧
  (sat1 (FieldContains c v) r = true ∨ sat1 (FieldEqualFold c v) r = true → sat1 (FieldContainsFold c v) r = true) ∧
  (sat1 (FieldContainsFold c v) r = true → sat1 (FieldIsNull c) r = false) ∧
  ∀ s t, col c r = Some (SText (s +:+ t)) →
    sat1 (FieldHasPrefix c s) r = true ∧ sat1 (FieldHasSuffix c t) r = true ∧ sat1 (FieldEqualFold c (s +:+ t)) r = true.
Proof.
  unfold FieldHasPrefix, FieldHasSuffix, FieldContains, FieldContainsFold, FieldEqualFold. rewrite !sat1_text.
  split_and!.
  - destruct (as_text (col c r)) as [s|]; [|tauto]. intros [?|?]; [by apply text_prefix_part|by apply text_suffix_part].
  - destruct (as_text (col c r)) as [s|]; [|tauto]. intros [?|?]; [by apply text_part_fold|by apply text_whole_fold].
  - unfold sat1. cbn [eval]. by destruct (col c r).
  - intros s t Hc. rewrite !sat1_text, Hc. cbn. by rewrite text_prefix_self, text_suffix_self, text_fold_self.
Qed.

(** Texts as SQLite compares them, without regard to the case of ASCII letters. *)
Definition lower_ascii (a : ascii) : ascii :=
  let n := Ascii.nat_of_ascii a in
  if (65 <=? n)%nat && (n <=? 90)%nat then Ascii.ascii_of_nat (n + 32) else a.
Definition folded (s : string) : list ascii := lower_ascii <$> String.list_ascii_of_string s.
Definition part_of (l s : list ascii) : bool :=
  existsb (λ k, bool_decide (l `prefix_of` drop k s)) (seq 0 (S (length s))).

#[export] Instance FoldText : TextLib := {|
  text_Contains v s := part_of (folded v) (folded s);
  text_HasPrefix v s := bool_decide (folded v `prefix_of` folded s);
  text_HasSuffix v s := bool_decide (folded v `suffix_of` folded s);
  text_EqualFold v s := bool_decide (folded v = folded s);
  text_ContainsFold v s := part_of (folded v) (folded s);
|}.

Lemma folded_app s t : folded (s +:+ t) = (folded s ++ folded t)%list.
Proof. unfold folded. rewrite <- fmap_app. f_equal. induction s as [|a s IH]; [done|]. apply (f_equal (cons a) IH). Qed.

Lemma part_of_true l a b : part_of l (a ++ l ++ b) = true.
Proof.
  apply existsb_exists. exists (length a). split; [apply in_seq; rewrite length_app; lia|].
  apply bool_decide_eq_true. rewrite drop_app_length. by exists b.
Qed.

#[export] Instance FoldText_laws : TextLaws.
Proof.
  split; cbn; intros; rewrite ?folded_app.
  - apply bool_decide_eq_true. by eexists.
  - apply bool_decide_eq_true. by eexists.
  - by apply bool_decide_eq_true.
  - apply bool_decide_eq_true in H as [b ->]. apply (part_of_true _ []).
  - apply bool_decide_eq_true in H as [a ->]. pose proof (part_of_true (folded v) a []) as Hp. by rewrite app_nil_r in Hp.
  - done.
  - apply bool_decide_eq_true in H as <-. pose proof (part_of_true (folded v) [] []) as Hp. by rewrite app_nil_r in Hp.
Qed.
