(* ===== verification/Metrics.v ===== *)
(** * The proposer's metrics ([metrics/metrics.go], [metrics/noop.go])

    The registry's gauges and counters as a record.  A gauge holds a float64;
    the value of the float64 nearest to an integer is computed by [f64]. *)

From S2P Require Import Prelude.

(** [float64(n)]: the nearest value with a 53-bit significand, ties to even. *)
Definition f64 (z : Z) : Z :=
  if z <? 9007199254740992 then z
  else
    let e := Z.log2 z - 52 in
    let q := z / 2 ^ e in
    let r := z mod 2 ^ e in
    let half := 2 ^ (e - 1) in
    let up := (half <? r) || ((r =? half) && Z.odd q) in
    (if up then q + 1 else q) * 2 ^ e.

Record ProposerMetrics := mkProposerMetrics {
  L2UnsafeHeadBlock : Z;
  L2FinalizedBlock : Z;
  LatestContractL2Block : Z;
  HighestProvenContiguousL2Block : Z;
  MinBlockToProveToAgg : Z;
  NumProving : Z;
  NumWitnessgen : Z;
  NumUnrequested : Z;
}.

Record OPSuccinctMetrics := mkMetrics {
  m_info : gmap string Z;
  m_up : Z;
  m_NumProving : Z;
  m_NumWitnessGen : Z;
  m_NumUnrequested : Z;
  m_L2FinalizedBlock : Z;
  m_LatestContractL2Block : Z;
  m_HighestProvenContiguousL2Block : Z;
  m_MinBlockToProveToAgg : Z;
  m_ErrorCount : gmap string Z;
  m_ProveFailures : gmap string Z;
  m_WitnessGenFailures : gmap string Z;
  (* calls of the embedded RefMetrics.RecordL2Ref: label and block number *)
  m_l2refs : list (string * Z);
}.

Definition NewMetrics : OPSuccinctMetrics :=
  mkMetrics ∅ 0 0 0 0 0 0 0 0 ∅ ∅ ∅ [].

(** [CounterVec.WithLabelValues(label).Add(v)] *)
Definition counter_add (label : string) (v : Z) (m : gmap string Z) : gmap string Z :=
  <[label := f64 (default 0 (m !! label) + v)]> m.

Definition RecordInfo (version : string) (m : OPSuccinctMetrics) : OPSuccinctMetrics :=
  let 'mkMetrics i u a b c d e f g ec pf wf l2 := m in
  mkMetrics (<[version := 1]> i) u a b c d e f g ec pf wf l2.

Definition RecordUp (m : OPSuccinctMetrics) : OPSuccinctMetrics :=
  let 'mkMetrics i _ a b c d e f g ec pf wf l2 := m in
  mkMetrics i 1 a b c d e f g ec pf wf l2.

Definition BlockProposed : string := "proposed".

Definition RecordL2BlocksProposed (l2ref : Z) (m : OPSuccinctMetrics) : OPSuccinctMetrics :=
  let 'mkMetrics i u a b c d e f g ec pf wf l2 := m in
  mkMetrics i u a b c d e f g ec pf wf (l2 ++ [(BlockProposed, l2ref)]).

Definition RecordError (errorType : string) (num : Z) (m : OPSuccinctMetrics) : OPSuccinctMetrics :=
  let 'mkMetrics i u a b c d e f g ec pf wf l2 := m in
  mkMetrics i u a b c d e f g (counter_add errorType (f64 num) ec) pf wf l2.

Definition RecordProveFailure (reason : string) (m : OPSuccinctMetrics) : OPSuccinctMetrics :=
  let 'mkMetrics i u a b c d e f g ec pf wf l2 := m in
  mkMetrics i u a b c d e f g ec (counter_add reason 1 pf) wf l2.

Definition RecordWitnessGenFailure (reason : string) (m : OPSuccinctMetrics) : OPSuccinctMetrics :=
  let 'mkMetrics i u a b c d e f g ec pf wf l2 := m in
  mkMetrics i u a b c d e f g ec pf (counter_add reason 1 wf) l2.

Definition RecordProposerStatus (s : ProposerMetrics) (m : OPSuccinctMetrics) : OPSuccinctMetrics :=
  let 'mkMetrics i u _ _ _ _ _ _ _ ec pf wf l2 := m in
  mkMetrics i u (f64 (NumProving s)) (f64 (NumWitnessgen s)) (f64 (NumUnrequested s))
    (f64 (L2FinalizedBlock s)) (f64 (LatestContractL2Block s))
    (f64 (HighestProvenContiguousL2Block s)) (f64 (MinBlockToProveToAgg s)) ec pf wf l2.

(** The metricer the service installs: [NoopMetrics] or a registry. *)
Inductive Metricer :=
| NoopMetrics
| Registry (m : OPSuccinctMetrics).

Definition on_registry (f : OPSuccinctMetrics → OPSuccinctMetrics) (m : Metricer) : Metricer :=
  match m with NoopMetrics => NoopMetrics | Registry r => Registry (f r) end.

Lemma f64_exact z : 0 <= z < 9007199254740992 → f64 z = z.
Proof. intros H. unfold f64. destruct (Z.ltb_spec z 9007199254740992); [done|lia]. Qed.
