(* ===== verification/Encoding.v ===== *)
(** * Text encodings the proposer relies on

    [encoding/hex], [encoding/base64] (the standard alphabet with padding,
    which [encoding/json] uses for a [[]byte]) and decimal integers
    ([strconv]): Go standard library code, modelled as far as the proposer
    uses it, with the round trips the other files need. *)

From Stdlib Require Import ZArith Lia Ascii Strings.Byte.
From Stdlib Require DecimalString DecimalN.
From S2P Require Import Prelude Sql.

Local Open Scope string_scope.
Local Open Scope Z_scope.

Definition byte_Z (b : Byte.byte) : Z := Z.of_N (Byte.to_N b).
Definition Z_byte (z : Z) : Byte.byte :=
  default Byte.x00 (Byte.of_N (Z.to_N (z mod 256))).

Lemma byte_Z_range b : 0 <= byte_Z b < 256.
Proof.
  unfold byte_Z. pose proof (Byte.to_N_bounded b). lia.
Qed.

Lemma Z_byte_Z b : Z_byte (byte_Z b) = b.
Proof.
  unfold Z_byte. rewrite Z.mod_small by apply byte_Z_range.
  unfold byte_Z. by rewrite N2Z.id, Byte.of_to_N.
Qed.

(** ** Hexadecimal *)

Definition hex_digit (d : Z) : ascii :=
  ascii_of_N (Z.to_N (if d <? 10 then 48 + d else 87 + d)).

(** The value of a hexadecimal digit, either case. *)
Definition hex_value (c : ascii) : option Z :=
  let n := Z.of_N (N_of_ascii c) in
  if (48 <=? n) && (n <=? 57) then Some (n - 48)
  else if (97 <=? n) && (n <=? 102) then Some (n - 87)
  else if (65 <=? n) && (n <=? 70) then Some (n - 55)
  else None.

(** [hex.EncodeToString] *)
Fixpoint EncodeToString (bs : bytes) : string :=
  match bs with
  | [] => ""
  | b :: bs' =>
      String (hex_digit (byte_Z b / 16)) (String (hex_digit (byte_Z b mod 16)) (EncodeToString bs'))
  end.

(** [hex.DecodeString]: [None] on an odd length or a non-digit. *)
Fixpoint DecodeString (s : string) : option bytes :=
  match s with
  | EmptyString => Some []
  | String c1 (String c2 s') =>
      match hex_value c1, hex_value c2, DecodeString s' with
      | Some h, Some l, Some bs => Some (Z_byte (16 * h + l) :: bs)
      | _, _, _ => None
      end
  | String _ EmptyString => None
  end.

Lemma hex_value_digit d : 0 <= d < 16 → hex_value (hex_digit d) = Some d.
Proof.
  intros Hd.
  assert (∃ n : nat, (n < 16)%nat ∧ d = Z.of_nat n) as (n & Hn & ->).
  { exists (Z.to_nat d). lia. }
  do 16 (destruct n as [|n]; [done|]). lia.
Qed.

Lemma hex_roundtrip bs : DecodeString (EncodeToString bs) = Some bs.
Proof.
  induction bs as [|b bs IH]; [done|]. simpl. pose proof (byte_Z_range b) as Hb.
  rewrite !hex_value_digit, IH.
  - f_equal. f_equal. rewrite <- (Z_byte_Z b) at 3. f_equal.
    pose proof (Z.div_mod (byte_Z b) 16). lia.
  - apply Z.mod_pos_bound. lia.
  - split; [apply Z.div_pos; lia | apply Z.div_lt_upper_bound; lia].
Qed.

(** ** Base64 *)

Definition b64_alphabet : string :=
  "ABCDEFGHIJKLMNOPQRSTUVWXYZabcdefghijklmnopqrstuvwxyz0123456789+/".

Definition b64_char (d : Z) : ascii :=
  default "A"%char (String.get (Z.to_nat d) b64_alphabet).

Definition b64_value (c : ascii) : option Z :=
  let n := Z.of_N (N_of_ascii c) in
  if (65 <=? n) && (n <=? 90) then Some (n - 65)
  else if (97 <=? n) && (n <=? 122) then Some (n - 71)
  else if (48 <=? n) && (n <=? 57) then Some (n + 4)
  else if n =? 43 then Some 62
  else if n =? 47 then Some 63
  else None.

(** [base64.StdEncoding.EncodeToString] *)
Fixpoint b64_encode (bs : bytes) : string :=
  match bs with
  | [] => ""
  | [x] =>
      let a := byte_Z x in
      String (b64_char (a / 4)) (String (b64_char (a mod 4 * 16)) "==")
  | [x; y] =>
      let a := byte_Z x in let b := byte_Z y in
      String (b64_char (a / 4)) (String (b64_char (a mod 4 * 16 + b / 16))
        (String (b64_char (b mod 16 * 4)) "="))
  | x :: y :: z :: bs' =>
      let a := byte_Z x in let b := byte_Z y in let c := byte_Z z in
      String (b64_char (a / 4)) (String (b64_char (a mod 4 * 16 + b / 16))
        (String (b64_char (b mod 16 * 4 + c / 64)) (String (b64_char (c mod 64))
          (b64_encode bs'))))
  end.

Definition is_pad (c : ascii) : bool := bool_decide (c = "="%char).

(** Decoding of quantums of four characters; a padded quantum is the last. *)
Fixpoint b64_decode_quads (s : string) : option bytes :=
  match s with
  | EmptyString => Some []
  | String c0 (String c1 (String c2 (String c3 s'))) =>
      match b64_value c0, b64_value c1 with
      | Some d0, Some d1 =>
          if is_pad c3 then
            match s' with
            | EmptyString =>
                if is_pad c2 then Some [Z_byte (d0 * 4 + d1 / 16)]
                else match b64_value c2 with
                     | Some d2 => Some [Z_byte (d0 * 4 + d1 / 16);
                                        Z_byte (d1 mod 16 * 16 + d2 / 4)]
                     | None => None
                     end
            | _ => None
            end
          else
            match b64_value c2, b64_value c3, b64_decode_quads s' with
            | Some d2, Some d3, Some bs =>
                Some (Z_byte (d0 * 4 + d1 / 16) :: Z_byte (d1 mod 16 * 16 + d2 / 4)
                      :: Z_byte (d2 mod 4 * 64 + d3) :: bs)
            | _, _, _ => None
            end
      | _, _ => None
      end
  | _ => None
  end.

(** [base64.StdEncoding] skips carriage returns and newlines. *)
Fixpoint strip_newlines (s : string) : string :=
  match s with
  | EmptyString => EmptyString
  | String c s' =>
      let n := N_of_ascii c in
      if (n =? 10)%N || (n =? 13)%N then strip_newlines s' else String c (strip_newlines s')
  end.

Definition b64_decode (s : string) : option bytes := b64_decode_quads (strip_newlines s).

Lemma b64_char_ok d : 0 <= d < 64 →
  b64_value (b64_char d) = Some d ∧ is_pad (b64_char d) = false ∧
  ((N_of_ascii (b64_char d) =? 10)%N || (N_of_ascii (b64_char d) =? 13)%N) = false.
Proof.
  intros Hd.
  assert (∃ n : nat, (n < 64)%nat ∧ d = Z.of_nat n) as (n & Hn & ->).
  { exists (Z.to_nat d). lia. }
  do 64 (destruct n as [|n]; [done|]). lia.
Qed.

Lemma b64_value_char d : 0 <= d < 64 → b64_value (b64_char d) = Some d.
Proof. apply b64_char_ok. Qed.
Lemma b64_pad_char d : 0 <= d < 64 → is_pad (b64_char d) = false.
Proof. apply b64_char_ok. Qed.

Lemma strip_char d s : 0 <= d < 64 →
  strip_newlines (String (b64_char d) s) = String (b64_char d) (strip_newlines s).
Proof. intros Hd. cbn [strip_newlines]. by rewrite (proj2 (proj2 (b64_char_ok d Hd))). Qed.

Ltac Zify.zify_post_hook ::= Z.to_euclidean_division_equations.

Lemma list_ind3 {A} (P : list A → Prop) :
  P [] → (∀ x, P [x]) → (∀ x y, P [x; y]) →
  (∀ x y z l, P l → P (x :: y :: z :: l)) → ∀ l, P l.
Proof.
  intros H0 H1 H2 H3. refine (fix go l := _).
  destruct l as [|x [|y [|z l]]]; [done|apply H1|apply H2|apply H3, go].
Qed.

(** The sextets of up to three bytes are in range, and give the bytes back. *)
Lemma b64_sextets a b c :
  0 <= a < 256 → 0 <= b < 256 → 0 <= c < 256 →
  0 <= a / 4 < 64 ∧ 0 <= a mod 4 * 16 < 64 ∧ 0 <= a mod 4 * 16 + b / 16 < 64 ∧
  0 <= b mod 16 * 4 < 64 ∧ 0 <= b mod 16 * 4 + c / 64 < 64 ∧ 0 <= c mod 64 < 64.
Proof. lia. Qed.

Lemma b64_bytes a b c :
  0 <= a < 256 → 0 <= b < 256 → 0 <= c < 256 →
  a / 4 * 4 + a mod 4 * 16 / 16 = a ∧
  a / 4 * 4 + (a mod 4 * 16 + b / 16) / 16 = a ∧
  (a mod 4 * 16 + b / 16) mod 16 * 16 + b mod 16 * 4 / 4 = b ∧
  (a mod 4 * 16 + b / 16) mod 16 * 16 + (b mod 16 * 4 + c / 64) / 4 = b ∧
  (b mod 16 * 4 + c / 64) mod 4 * 64 + c mod 64 = c.
Proof. lia. Qed.

Ltac Zify.zify_post_hook ::= idtac.

Lemma strip_newlines_pad : strip_newlines "==" = "==" ∧ strip_newlines "=" = "=".
Proof. done. Qed.

Ltac b64_step :=
  cbn [b64_encode]; cbv zeta; rewrite ?strip_char by done;
  rewrite ?(proj1 strip_newlines_pad), ?(proj2 strip_newlines_pad);
  cbn [b64_decode_quads]; rewrite ?b64_value_char, ?b64_pad_char by done;
  change (is_pad "="%char) with true; cbn match.

Lemma b64_roundtrip bs : b64_decode (b64_encode bs) = Some bs.
Proof.
  unfold b64_decode. induction bs as [|x|x y|x y z bs IH] using list_ind3; [done|..].
  - pose proof (byte_Z_range x) as Hx.
    destruct (b64_sextets _ _ _ Hx Hx Hx) as (? & ? & _).
    destruct (b64_bytes _ _ _ Hx Hx Hx) as (E1 & _).
    b64_step. by rewrite E1, Z_byte_Z.
  - pose proof (byte_Z_range x) as Hx. pose proof (byte_Z_range y) as Hy.
    destruct (b64_sextets _ _ _ Hx Hy Hy) as (? & _ & ? & ? & _).
    destruct (b64_bytes _ _ _ Hx Hy Hy) as (_ & E1 & E2 & _).
    b64_step. by rewrite E1, E2, !Z_byte_Z.
  - pose proof (byte_Z_range x) as Hx. pose proof (byte_Z_range y) as Hy.
    pose proof (byte_Z_range z) as Hz.
    destruct (b64_sextets _ _ _ Hx Hy Hz) as (? & _ & ? & _ & ? & ?).
    destruct (b64_bytes _ _ _ Hx Hy Hz) as (_ & E1 & _ & E2 & E3).
    b64_step. rewrite IH. by rewrite E1, E2, E3, !Z_byte_Z.
Qed.

(** ** Decimal integers *)

(** [strconv.FormatUint(z, 10)], for [z] not negative. *)
Definition FormatUint (z : Z) : string :=
  DecimalString.NilZero.string_of_uint (N.to_uint (Z.to_N z)).

Definition is_digit (c : ascii) : bool :=
  let n := N_of_ascii c in (48 <=? n)%N && (n <=? 57)%N.

(** Decimal digits to a number: [None] on the empty string or a non-digit. *)
Definition ParseDigits (s : string) : option Z :=
  match s with
  | EmptyString => None
  | _ => (λ u, Z.of_N (N.of_uint u)) <$> DecimalString.NilZero.uint_of_string s
  end.

(** [strconv.ParseInt(s, 10, 64)] *)
Definition ParseInt (s : string) : option Z :=
  let check (z : option Z) := z ≫= λ z, if decide (- two63 <= z < two63) then Some z else None in
  match s with
  | String "-" s' => check (Z.opp <$> ParseDigits s')
  | String "+" s' => check (ParseDigits s')
  | _ => check (ParseDigits s)
  end.

Lemma to_uint_not_nil n : N.to_uint n ≠ Decimal.Nil.
Proof.
  intros E. pose proof (DecimalN.Unsigned.of_to n) as H. rewrite E in H.
  cbn in H. subst n. done.
Qed.

Lemma FormatUint_roundtrip z : 0 <= z → ParseDigits (FormatUint z) = Some z.
Proof.
  intros Hz. unfold ParseDigits, FormatUint.
  pose proof (DecimalString.NilZero.usu _ (to_uint_not_nil (Z.to_N z))) as E.
  destruct (DecimalString.NilZero.string_of_uint _) as [|c s] eqn:Es; [done|].
  rewrite E. csimpl. rewrite DecimalN.Unsigned.of_to. f_equal. lia.
Qed.
