(* ===== verification/Prog.v ===== *)
(** * Programs, the outside world, and how a program runs in it

    A function of the proposer that does I/O is a value of [prog A]: a tree of
    commands (to the database, to the world outside the process, to the shared
    state of the process) ending in a value, an error or a panic.  [run]
    executes such a tree in a [World].  What answers an external command is the
    type class [External]: an arbitrary state and transition function, so a
    theorem about [run] holds whatever the L1 node, the rollup node, the
    witness generation server, the clock and the scheduler do.  [Script] is a
    concrete instance for the witnesses. *)

From S2P Require Import Prelude Sql ProofRequest Metrics.

(** ** Data of the external services *)

(** The heads of [eth.SyncStatus] the proposer reads (their numbers). *)
Record SyncStatus := mkSyncStatus {
  HeadL1 : Z;
  UnsafeL2 : Z;
  SafeL2 : Z;
  FinalizedL2 : Z;
}.

(** [eth.OutputResponse]; a 32-byte value is its number. *)
Record OutputResponse := mkOutputResponse {
  Version : Z;
  OutputRoot : Z;
  BlockRef_Number : Z;
  BlockRef_L1Origin : Z;
  OutputStatus : SyncStatus;
}.

Record Header := mkHeader { Header_Number : Z; Header_Hash : bytes }.

(** An address; [None] is the nil pointer. *)
Abbreviation Address := bytes.

Record TxCandidate := mkTxCandidate {
  TxData : bytes;
  To : option Address;
  GasLimit : Z;
  Value : option Z;
}.

Record Receipt := mkReceipt { ReceiptStatus : Z; TxHash : bytes }.
Definition ReceiptStatusFailed : Z := 0.

(** The arguments of [abi.Pack]. *)
Inductive abival :=
| ABytes32 (z : Z)
| AUint (z : Z)
| AUint32 (z : Z)
| ABytes (b : option bytes).

Inductive AbiName := L2OOAbi | DgfAbi | RawArguments.

Record HttpRequest := mkHttpRequest {
  rq_method : string;
  rq_url : string;
  rq_body : option string;
  rq_content_type : option string;
  rq_timeout : Z;    (* nanoseconds *)
}.

(** [rs_body] is what [io.ReadAll] of the body gives. *)
Record HttpResponse := mkHttpResponse {
  StatusCode : Z;
  rs_body : error + string;
}.

Global Instance SyncStatus_eq_dec : EqDecision SyncStatus.
Proof. solve_decision. Defined.
Global Instance OutputResponse_eq_dec : EqDecision OutputResponse.
Proof. solve_decision. Defined.
Global Instance TxCandidate_eq_dec : EqDecision TxCandidate.
Proof. solve_decision. Defined.
Global Instance HttpRequest_eq_dec : EqDecision HttpRequest.
Proof. solve_decision. Defined.

(** ** Commands *)

(** The client a database operation goes through. *)
Inductive Handle := HRead | HWrite | HTx.

Inductive DbCmd : Type → Type :=
| SqlCreate (h : Handle) (c : CreateSpec) : DbCmd (sqlerr + Z)
| SqlUpdateNodes (h : Handle) (u : UpdateSpec) : DbCmd (sqlerr + Z)
| SqlUpdateNode (h : Handle) (u : UpdateSpec) : DbCmd (sqlerr + list (option sqlval))
| SqlQuery (h : Handle) (q : QuerySpec) : DbCmd (sqlerr + list (list (option sqlval)))
| SqlSelect (h : Handle) (q : Selector) : DbCmd (sqlerr + list (list (option sqlval)))
| SqlCount (h : Handle) (q : QuerySpec) : DbCmd (sqlerr + Z)
| SqlDelete (h : Handle) (d : DeleteSpec) : DbCmd (sqlerr + Z)
| TxBegin (o : option TxOptions) : DbCmd (sqlerr + unit)
| TxCommit : DbCmd (sqlerr + unit)
| TxRollback : DbCmd (sqlerr + unit)
| DbRemoveFile : DbCmd unit                   (* os.Remove(dbPath), its error dropped *)
| DbOpen (h : Handle) : DbCmd (option sqlerr)
| DbMigrate (h : Handle) : DbCmd (option sqlerr)
| DbClose (h : Handle) : DbCmd (option sqlerr).

(** What the service asks of the libraries it is wired from. *)
Inductive SvcCall :=
| DialL1 (url : string)                       (* dial.DialEthClientWithTimeout *)
| DialActiveRollup (urls : list string)       (* dial.NewActiveL2RollupProvider *)
| DialStaticRollup (url : string)             (* dial.NewStaticL2RollupProvider *)
| NewTxManager                                (* txmgr.NewSimpleTxManager *)
| StartBalance                                (* Metrics.StartBalanceMetrics *)
| StartMetricsServer                          (* opmetrics.StartServer *)
| StartPprof                                  (* oppprof's Start *)
| StartRpc (admin : bool)                     (* the JSON-RPC server's Start *)
| StopRpc
| StopPprof
| CloseBalance
| CloseTxManager
| StopMetricsServer
| CloseL1
| CloseRollup.

Inductive ExtCmd : Type → Type :=
| ENow : ExtCmd Z                             (* time.Now().Unix() *)
| EBindings : ExtCmd (option error)           (* parsing an ABI of the generated bindings *)
| EVersion : ExtCmd (error + string)          (* l2ooContract.Version *)
| ELatestBlockNumber : ExtCmd (error + Z)     (* l2ooContract.LatestBlockNumber *)
| ENextBlockNumber : ExtCmd (error + Z)       (* l2ooContract.NextBlockNumber *)
| ERollupClient : ExtCmd (option error)       (* RollupProvider.RollupClient *)
| EDialRollup : ExtCmd (option error)         (* dial.DialRollupClientWithTimeout *)
| ERollupConfig : ExtCmd (error + Z)          (* rollupClient.RollupConfig: its L2ChainID.Uint64() *)
| ESyncStatus : ExtCmd (error + SyncStatus)
| EOutputAtBlock (n : Z) : ExtCmd (error + OutputResponse)
| ESafeHeadAtL1Block (n : Z) : ExtCmd (error + Z)
| EWaitRollupSync (l1head : Z) : ExtCmd (option error)
| ETxBlockNumber : ExtCmd (error + Z)         (* Txmgr.BlockNumber *)
| ETxSend (c : TxCandidate) : ExtCmd (error + Receipt)
| EL1BlockNumber : ExtCmd (error + Z)
| EL1HeaderByNumber (n : Z) : ExtCmd (error + Header)
| EL1CallContract (to : option Address) (data : bytes) : ExtCmd (error + bytes)
(* client.Do: the response, and whether the request's body reader was read *)
| EHttp (r : HttpRequest) : ExtCmd ((error + HttpResponse) * bool)
(* the connection for a request whose body was read before: over a reused one the
   transport sends the body anew, otherwise client.Do gives this error *)
| EReusedConn : ExtCmd (error + unit)
| ESleep (ns : Z) : ExtCmd unit
| EMkdirAll (path : string) : ExtCmd (option error)   (* of filepath.Dir(path) *)
| ESvc (c : SvcCall) : ExtCmd (option error)          (* None as well for a call without a result *)
| EOrder (n : nat) : ExtCmd (list nat).       (* an order Go leaves open *)

(** Goroutines a function starts. *)
Inductive task :=
| TaskLoop
| TaskRequest (p : ProofRequest) (next : ProofRequest).

Definition is_loop (t : task) : bool := match t with TaskLoop => true | _ => false end.

Inductive MetricOp :=
| MRecordError (errorType : string) (num : Z)
| MRecordProveFailure (reason : string)
| MRecordWitnessGenFailure (reason : string)
| MRecordProposerStatus (s : ProposerMetrics)
| MRecordL2BlocksProposed (n : Z)
| MRecordInfo (v : string)
| MRecordUp.

Inductive ProcCmd : Type → Type :=
| PMetric (m : MetricOp) : ProcCmd unit
| PSetMetrics (enabled : bool) : ProcCmd unit (* ps.Metrics = NewMetrics(...) or NoopMetrics *)
| PSpawn (t : task) : ProcCmd unit
| PNewDriver : ProcCmd unit                   (* a new submitter: context, done channel *)
| PLock : ProcCmd unit                        (* l.mutex *)
| PUnlock : ProcCmd unit
| PGetRunning : ProcCmd bool
| PSetRunning (b : bool) : ProcCmd unit
| PCancel : ProcCmd unit                      (* l.cancel() *)
| PCloseDone : ProcCmd bool                   (* close(l.done); false: it panics *)
| PWgWait : ProcCmd unit
| PSetDb : ProcCmd unit                       (* db: *db, in the submitter that is returned *)
| PGetDb : ProcCmd bool                       (* l.db != (db.ProofDB{}) *)
| PSelectTick : ProcCmd bool.                 (* true: <-ticker.C, false: <-l.done *)

Inductive cmd : Type → Type :=
| CDb {R} (c : DbCmd R) : cmd R
| CExt {R} (c : ExtCmd R) : cmd R
| CProc {R} (c : ProcCmd R) : cmd R.

(** ** Programs *)

Inductive prog (A : Type) : Type :=
| Ret (a : A)
| Raise (e : error)
| Panic (msg : string)
| OutOfFuel
| Do {R : Type} (c : cmd R) (k : R → prog A).
Arguments Ret {A} a.
Arguments Raise {A} e.
Arguments Panic {A} msg.
Arguments OutOfFuel {A}.
Arguments Do {A R} c k.

Fixpoint prog_bind {A B} (f : A → prog B) (p : prog A) : prog B :=
  match p with
  | Ret a => f a
  | Raise e => Raise e
  | Panic m => Panic m
  | OutOfFuel => OutOfFuel
  | Do c k => Do c (λ r, prog_bind f (k r))
  end.

Global Instance prog_mbind : MBind prog := λ A B f p, prog_bind f p.
Global Instance prog_mret : MRet prog := λ A a, Ret a.

Definition db {R} (c : DbCmd R) : prog R := Do (CDb c) Ret.
Definition ask {R} (c : ExtCmd R) : prog R := Do (CExt c) Ret.
Definition proc {R} (c : ProcCmd R) : prog R := Do (CProc c) Ret.

(** The error of a call as a value: [v, err := p]. *)
Fixpoint attempt {A} (p : prog A) : prog (error + A) :=
  match p with
  | Ret a => Ret (inr a)
  | Raise e => Ret (inl e)
  | Panic m => Panic m
  | OutOfFuel => OutOfFuel
  | Do c k => Do c (λ r, attempt (k r))
  end.

(** [if err != nil { panic(err) }], the [X] variants of the generated code. *)
Definition must {A} (p : prog A) : prog A :=
  r ← attempt p;
  match r with inl _ => Panic "ent" | inr a => Ret a end.

(** [if err != nil { return ..., f(err) }] *)
Fixpoint map_err {A} (f : error → error) (p : prog A) : prog A :=
  match p with
  | Ret a => Ret a
  | Raise e => Raise (f e)
  | Panic m => Panic m
  | OutOfFuel => OutOfFuel
  | Do c k => Do c (λ r, map_err f (k r))
  end.

Definition lift {A} (r : error + A) : prog A :=
  match r with inl e => Raise e | inr a => Ret a end.
Definition lift_err (r : option error) : prog unit :=
  match r with Some e => Raise e | None => Ret tt end.

(** [defer d()] around the rest [p] of a function body. *)
Fixpoint defer {A} (d : prog unit) (p : prog A) : prog A :=
  match p with
  | Ret a => prog_bind (λ _, Ret a) d
  | Raise e => prog_bind (λ _, Raise e) d
  | Panic m => prog_bind (λ _, Panic m) d
  | OutOfFuel => OutOfFuel
  | Do c k => Do c (λ r, defer d (k r))
  end.

Fixpoint for_each {A} (l : list A) (f : A → prog unit) : prog unit :=
  match l with
  | [] => Ret tt
  | a :: l' => _ ← f a; for_each l' f
  end.

(** ** The world *)

Class External := {
  ext : Type;
  ext_exec : ∀ R, ExtCmd R → ext → R * ext;
  (* the scheduler's choice of a ready case of a [select]: true for the ticker *)
  ext_select : ext → bool * ext;
  (* pure functions of third-party packages *)
  Address_Hex : Address → string;
  url_valid : string → bool;      (* http.NewRequest accepts the URL *)
  abi_Pack : AbiName → string → list abival → error + bytes;
}.

Record DriverState := mkDriverState {
  running : bool;
  done_closed : bool;
  cancelled : bool;
  locked : bool;
  db_set : bool;        (* the submitter has its database *)
}.

(** What left the process, in order. *)
Inductive Event :=
| EvTx (c : TxCandidate)
| EvHttp (r : HttpRequest)
| EvSleep (ns : Z)
| EvSvc (c : SvcCall).

Record World `{SqlGraph, External} := mkWorld {
  w_db : store;
  w_wopen : bool;          (* the write client is open *)
  w_ropen : bool;          (* the read client is open *)
  w_tx : option store;     (* the open transaction's working copy *)
  w_ext : ext;
  w_metrics : Metricer;
  w_driver : DriverState;
  w_tasks : list task;     (* goroutines started *)
  w_trace : list Event;
}.

Arguments mkWorld {_ _} _ _ _ _ _ _ _ _ _.

Definition db_closed : sqlerr := SgOther 21.

Definition event_of {R} (c : ExtCmd R) : list Event :=
  match c with
  | ETxSend c => [EvTx c]
  | EHttp r => [EvHttp r]
  | ESleep ns => [EvSleep ns]
  | ESvc c => [EvSvc c]
  | _ => []
  end.

Definition metric_op (m : MetricOp) : Metricer → Metricer :=
  on_registry
    match m with
    | MRecordError t n => RecordError t n
    | MRecordProveFailure r => RecordProveFailure r
    | MRecordWitnessGenFailure r => RecordWitnessGenFailure r
    | MRecordProposerStatus s => RecordProposerStatus s
    | MRecordL2BlocksProposed n => RecordL2BlocksProposed n
    | MRecordInfo v => RecordInfo v
    | MRecordUp => RecordUp
    end.

Section run.
Context `{SqlGraph, External}.

Definition with_db s (w : World) :=
  let 'mkWorld _ wo ro tx x m d ts tr := w in mkWorld s wo ro tx x m d ts tr.
Definition with_wopen b (w : World) :=
  let 'mkWorld s _ ro tx x m d ts tr := w in mkWorld s b ro tx x m d ts tr.
Definition with_ropen b (w : World) :=
  let 'mkWorld s wo _ tx x m d ts tr := w in mkWorld s wo b tx x m d ts tr.
Definition with_tx tx (w : World) :=
  let 'mkWorld s wo ro _ x m d ts tr := w in mkWorld s wo ro tx x m d ts tr.
Definition with_ext x (w : World) :=
  let 'mkWorld s wo ro tx _ m d ts tr := w in mkWorld s wo ro tx x m d ts tr.
Definition with_metrics m (w : World) :=
  let 'mkWorld s wo ro tx x _ d ts tr := w in mkWorld s wo ro tx x m d ts tr.
Definition with_driver d (w : World) :=
  let 'mkWorld s wo ro tx x m _ ts tr := w in mkWorld s wo ro tx x m d ts tr.
Definition with_tasks ts (w : World) :=
  let 'mkWorld s wo ro tx x m d _ tr := w in mkWorld s wo ro tx x m d ts tr.
Definition with_trace tr (w : World) :=
  let 'mkWorld s wo ro tx x m d ts _ := w in mkWorld s wo ro tx x m d ts tr.

(** A database operation through a client.  A client that was closed refuses
    it; the write client has one connection, which an open transaction holds
    ([None]: the call blocks); a transaction works on its own copy. *)
Definition on_handle {A} (h : Handle) (f : store → (sqlerr + A) * store) (w : World)
    : option ((sqlerr + A) * World) :=
  match h with
  | HRead =>
      if w_ropen w then let '(r, s) := f (w_db w) in Some (r, with_db s w)
      else Some (inl db_closed, w)
  | HWrite =>
      if w_wopen w then
        match w_tx w with
        | None => let '(r, s) := f (w_db w) in Some (r, with_db s w)
        | Some _ => None
        end
      else Some (inl db_closed, w)
  | HTx =>
      match w_tx w with
      | Some t => let '(r, s) := f t in Some (r, with_tx (Some s) w)
      | None => Some (inl SgTxDone, w)
      end
  end.

Definition with_open (h : Handle) (b : bool) (w : World) : World :=
  match h with
  | HRead => with_ropen b w
  | HWrite => with_wopen b w
  | HTx => w
  end.

Definition exec_db {R} (c : DbCmd R) (w : World) : option (R * World) :=
  match c in DbCmd R return option (R * World) with
  | SqlCreate h c => on_handle h (sg_create c) w
  | SqlUpdateNodes h u => on_handle h (sg_update_nodes u) w
  | SqlUpdateNode h u => on_handle h (sg_update_node u) w
  | SqlQuery h q => on_handle h (sg_query q) w
  | SqlSelect h q => on_handle h (sg_select q) w
  | SqlCount h q => on_handle h (sg_count q) w
  | SqlDelete h d => on_handle h (sg_delete d) w
  | TxBegin o =>
      if w_wopen w then
        match w_tx w with
        | Some _ => None
        | None => match sg_begin o (w_db w) with
                  | (inl e, s) => Some (inl e, with_db s w)
                  | (inr t, s) => Some (inr tt, with_tx (Some t) (with_db s w))
                  end
        end
      else Some (inl db_closed, w)
  | TxCommit =>
      match w_tx w with
      | None => Some (inl SgTxDone, w)
      | Some t => let '(r, s) := sg_commit t (w_db w) in Some (r, with_tx None (with_db s w))
      end
  | TxRollback =>
      match w_tx w with
      | None => Some (inl SgTxDone, w)
      | Some _ => Some (inr tt, with_tx None w)
      end
  | DbRemoveFile => Some (tt, with_db (sg_remove (w_db w)) w)
  | DbOpen h => let '(r, s) := sg_open (w_db w) in
                Some (r, with_open h (match r with None => true | _ => false end) (with_db s w))
  | DbMigrate _ => let '(r, s) := sg_migrate (w_db w) in Some (r, with_db s w)
  | DbClose h => let '(r, s) := sg_close (w_db w) in Some (r, with_open h false (with_db s w))
  end.

Definition set_running b d := let 'mkDriverState _ dc ca lo ds := d in mkDriverState b dc ca lo ds.
Definition set_done_closed b d := let 'mkDriverState r _ ca lo ds := d in mkDriverState r b ca lo ds.
Definition set_cancelled b d := let 'mkDriverState r dc _ lo ds := d in mkDriverState r dc b lo ds.
Definition set_locked b d := let 'mkDriverState r dc ca _ ds := d in mkDriverState r dc ca b ds.
Definition set_db_set b d := let 'mkDriverState r dc ca lo _ := d in mkDriverState r dc ca lo b.

(** [PWgWait] waits for the loops started so far; here, where one function runs
    alone, they are taken to have returned. *)
Definition exec_proc {R} (c : ProcCmd R) (w : World) : option (R * World) :=
  match c in ProcCmd R return option (R * World) with
  | PMetric m => Some (tt, with_metrics (metric_op m (w_metrics w)) w)
  | PSetMetrics b => Some (tt, with_metrics (if b then Registry NewMetrics else NoopMetrics) w)
  | PSpawn t => Some (tt, with_tasks (w_tasks w ++ [t]) w)
  | PNewDriver => Some (tt, with_driver (mkDriverState false false false false false) w)
  | PLock => if locked (w_driver w) then None
             else Some (tt, with_driver (set_locked true (w_driver w)) w)
  | PUnlock => Some (tt, with_driver (set_locked false (w_driver w)) w)
  | PGetRunning => Some (running (w_driver w), w)
  | PSetRunning b => Some (tt, with_driver (set_running b (w_driver w)) w)
  | PCancel => Some (tt, with_driver (set_cancelled true (w_driver w)) w)
  | PCloseDone =>
      if done_closed (w_driver w) then Some (false, w)
      else Some (true, with_driver (set_done_closed true (w_driver w)) w)
  | PWgWait =>
      Some (tt, with_tasks (filter (λ t, is_loop t = false) (w_tasks w)) w)
  | PSetDb => Some (tt, with_driver (set_db_set true (w_driver w)) w)
  | PGetDb => Some (db_set (w_driver w), w)
  | PSelectTick =>
      if done_closed (w_driver w) then
        let '(b, x) := ext_select (w_ext w) in Some (b, with_ext x w)
      else Some (true, w)
  end.

Definition exec_ext {R} (c : ExtCmd R) (w : World) : R * World :=
  let '(r, x) := ext_exec R c (w_ext w) in
  (r, with_trace (w_trace w ++ event_of c) (with_ext x w)).

(** [None]: the command blocks in this world. *)
Definition exec {R} (c : cmd R) : World → option (R * World) :=
  match c in cmd R return World → option (R * World) with
  | CDb c => exec_db c
  | CExt c => λ w, Some (exec_ext c w)
  | CProc c => exec_proc c
  end.

Inductive outcome (A : Type) :=
| Ok (a : A)
| Fail (e : error)
| Panicked (msg : string)
| NoFuel
| Blocked.
#[global] Arguments Ok {A} a.
#[global] Arguments Fail {A} e.
#[global] Arguments Panicked {A} msg.
#[global] Arguments NoFuel {A}.
#[global] Arguments Blocked {A}.

Fixpoint run {A} (p : prog A) (w : World) : outcome A * World :=
  match p with
  | Ret a => (Ok a, w)
  | Raise e => (Fail e, w)
  | Panic m => (Panicked m, w)
  | OutOfFuel => (NoFuel, w)
  | Do c k => match exec c w with
              | Some (r, w') => run (k r) w'
              | None => (Blocked, w)
              end
  end.

(** What follows the outcome of a first part. *)
Definition run_then {A B} (f : A → World → outcome B * World) (r : outcome A * World)
    : outcome B * World :=
  match r with
  | (Ok a, w) => f a w
  | (Fail e, w) => (Fail e, w)
  | (Panicked m, w) => (Panicked m, w)
  | (NoFuel, w) => (NoFuel, w)
  | (Blocked, w) => (Blocked, w)
  end.

Lemma run_bind {A B} (f : A → prog B) (p : prog A) w :
  run (p ≫= f) w = run_then (λ a, run (f a)) (run p w).
Proof.
  unfold mbind, prog_mbind. revert w.
  induction p as [| | | |R c k IH]; intros w; simpl; try done.
  destruct (exec c w) as [[r w']|]; [apply IH|done].
Qed.

Lemma run_ret {A} (a : A) w : run (mret a) w = (Ok a, w).
Proof. done. Qed.

Lemma run_attempt {A} (p : prog A) w :
  run (attempt p) w =
  match run p w with
  | (Ok a, w') => (Ok (inr a), w')
  | (Fail e, w') => (Ok (inl e), w')
  | (Panicked m, w') => (Panicked m, w')
  | (NoFuel, w') => (NoFuel, w')
  | (Blocked, w') => (Blocked, w')
  end.
Proof.
  revert w. induction p as [| | | |R c k IH]; intros w; simpl; try done.
  destruct (exec c w) as [[r w']|]; [apply IH|done].
Qed.

Lemma run_map_err {A} f (p : prog A) w :
  run (map_err f p) w =
  match run p w with
  | (Fail e, w') => (Fail (f e), w')
  | r => r
  end.
Proof.
  revert w. induction p as [| | | |R c k IH]; intros w; simpl; try done.
  destruct (exec c w) as [[r w']|]; [apply IH|done].
Qed.

Lemma run_defer {A} d (p : prog A) w :
  run (defer d p) w =
  match run p w with
  | (Ok a, w') => run_then (λ _ w'', (Ok a, w'')) (run d w')
  | (Fail e, w') => run_then (λ _ w'', (Fail e, w'')) (run d w')
  | (Panicked m, w') => run_then (λ _ w'', (Panicked m, w'')) (run d w')
  | r => r
  end.
Proof.
  assert (∀ B (g : unit → prog B) w', run (prog_bind g d) w' = run_then (λ a, run (g a)) (run d w'))
    as Hb by (intros; apply run_bind).
  revert w. induction p as [| | | |R c k IH]; intros w; simpl; try done; try apply Hb.
  destruct (exec c w) as [[r w']|]; [apply IH|done].
Qed.

Lemma run_lift {A} (r : error + A) w :
  run (lift r) w = match r with inl e => (Fail e, w) | inr a => (Ok a, w) end.
Proof. by destruct r. Qed.

Lemma run_ask {R} (c : ExtCmd R) w : run (ask c) w = (Ok (exec_ext c w).1, (exec_ext c w).2).
Proof. simpl. by destruct (exec_ext c w). Qed.

Lemma run_db {R} (c : DbCmd R) w :
  run (db c) w = match exec_db c w with Some (r, w') => (Ok r, w') | None => (Blocked, w) end.
Proof. done. Qed.

Lemma run_proc {R} (c : ProcCmd R) w :
  run (proc c) w = match exec_proc c w with Some (r, w') => (Ok r, w') | None => (Blocked, w) end.
Proof. done. Qed.

(** A call to the outside leaves the process's own state alone. *)
Definition same_proc (w w' : World) : Prop :=
  w_db w' = w_db w ∧ w_wopen w' = w_wopen w ∧ w_ropen w' = w_ropen w ∧ w_tx w' = w_tx w ∧
  w_metrics w' = w_metrics w ∧ w_driver w' = w_driver w ∧ w_tasks w' = w_tasks w.

Global Instance same_proc_preorder : PreOrder same_proc.
Proof.
  split; [by intros w; repeat split|].
  intros w1 w2 w3 H1 H2. unfold same_proc in *. intuition congruence.
Qed.

Lemma exec_ext_same {R} (c : ExtCmd R) w : same_proc w (exec_ext c w).2.
Proof. unfold exec_ext. destruct (ext_exec R c (w_ext w)), w; by repeat split. Qed.

Lemma exec_ext_trace {R} (c : ExtCmd R) w :
  w_trace (exec_ext c w).2 = w_trace w ++ event_of c.
Proof. unfold exec_ext. by destruct (ext_exec R c (w_ext w)), w. Qed.

(** ** Reasoning about runs

    [wp p w Q]: the outcome and world [p] ends with in [w] satisfy [Q].
    [returns p w P E]: [p] ends with a value that satisfies [P] or an error that
    satisfies [E]; it does not panic, block or run out of fuel. *)

Definition wp {A} (p : prog A) (w : World) (Q : outcome A → World → Prop) : Prop :=
  Q (run p w).1 (run p w).2.

Definition okfail {A} (P : A → World → Prop) (E : error → World → Prop)
    (o : outcome A) (w : World) : Prop :=
  match o with Ok a => P a w | Fail e => E e w | _ => False end.

Definition returns {A} (p : prog A) (w : World) (P : A → World → Prop) (E : error → World → Prop) : Prop :=
  wp p w (okfail P E).

Lemma wp_run {A} (p : prog A) w Q o w' : wp p w Q → run p w = (o, w') → Q o w'.
Proof. unfold wp. intros HQ E. by rewrite E in HQ. Qed.

Lemma wp_mono {A} (p : prog A) w (Q R : outcome A → World → Prop) :
  wp p w Q → (∀ o w', Q o w' → R o w') → wp p w R.
Proof. unfold wp. auto. Qed.

Lemma returns_mono {A} (p : prog A) w P E (P' : A → World → Prop) (E' : error → World → Prop) :
  returns p w P E → (∀ a w', P a w' → P' a w') → (∀ e w', E e w' → E' e w') → returns p w P' E'.
Proof.
  intros H1 HP HE. eapply wp_mono; [exact H1|]. intros [] w'; simpl; auto.
Qed.

Lemma wp_ret {A} (a : A) w Q : Q (Ok a) w → wp (Ret a) w Q.
Proof. done. Qed.

Lemma returns_ret {A} (a : A) w (P : A → World → Prop) E : P a w → returns (Ret a) w P E.
Proof. done. Qed.

Lemma returns_raise {A} e w (P : A → World → Prop) (E : error → World → Prop) :
  E e w → returns (Raise e) w P E.
Proof. done. Qed.

Lemma wp_bind {A B} (f : A → prog B) (p : prog A) w P E (Q : outcome B → World → Prop) :
  returns p w P E → (∀ a w', P a w' → wp (f a) w' Q) → (∀ e w', E e w' → Q (Fail e) w') →
  wp (p ≫= f) w Q.
Proof.
  unfold returns, wp. rewrite run_bind. destruct (run p w) as [[] w'] eqn:Er; simpl; intros; try done; auto.
Qed.

Lemma returns_bind {A B} (f : A → prog B) (p : prog A) w P E P' (E' : error → World → Prop) :
  returns p w P E → (∀ a w', P a w' → returns (f a) w' P' E') → (∀ e w', E e w' → E' e w') →
  returns (p ≫= f) w P' E'.
Proof. intros. eapply wp_bind; eauto. Qed.

Lemma returns_map_err {A} f (p : prog A) w P (E : error → World → Prop) :
  returns p w P (λ e, E (f e)) → returns (map_err f p) w P E.
Proof.
  unfold returns, wp. rewrite run_map_err. destruct (run p w) as [[] w']; done.
Qed.

Lemma returns_attempt {A} (p : prog A) w (P : error + A → World → Prop) E :
  returns p w (λ a, P (inr a)) (λ e, P (inl e)) → returns (attempt p) w P E.
Proof.
  unfold returns, wp. rewrite run_attempt. destruct (run p w) as [[] w']; done.
Qed.

(** With the run itself, for what a later statement says of it. *)
Lemma returns_ran {A} (p : prog A) w (P : A → World → Prop) (E : error → World → Prop) :
  returns p w P E →
  returns p w (λ a w', P a w' ∧ run p w = (Ok a, w')) (λ e w', E e w' ∧ run p w = (Fail e, w')).
Proof. unfold returns, wp. destruct (run p w) as [[] w']; simpl; done. Qed.

Lemma returns_try {A} (p : prog A) w (P : A → World → Prop) E :
  returns p w P E →
  returns (attempt p) w (λ r w', match r with inr a => P a w' | inl e => E e w' end) (λ _ _, False).
Proof. intros HP. by apply returns_attempt. Qed.

Lemma returns_lift {A} (r : error + A) w (P : A → World → Prop) (E : error → World → Prop) :
  match r with inl e => E e w | inr a => P a w end → returns (lift r) w P E.
Proof. by destruct r. Qed.

Lemma returns_ask {R} (c : ExtCmd R) w (P : R → World → Prop) E :
  (∀ r w', same_proc w w' → w_trace w' = w_trace w ++ event_of c → P r w') → returns (ask c) w P E.
Proof.
  intros HP. unfold returns, wp. rewrite run_ask. simpl. apply HP.
  - apply exec_ext_same.
  - apply exec_ext_trace.
Qed.

Lemma returns_defer {A} d (p : prog A) w P E (P' : A → World → Prop) (E' : error → World → Prop) :
  returns p w P E →
  (∀ a w', P a w' → returns d w' (λ _, P' a) (λ _ _, False)) →
  (∀ e w', E e w' → returns d w' (λ _, E' e) (λ _ _, False)) →
  returns (defer d p) w P' E'.
Proof.
  unfold returns, wp. intros Hp Hok Hfail. rewrite run_defer.
  destruct (run p w) as [[a|e|m| |] w1]; simpl in *; try done.
  - specialize (Hok _ _ Hp). by destruct (run d w1) as [[] w2].
  - specialize (Hfail _ _ Hp). by destruct (run d w1) as [[] w2].
Qed.

Lemma returns_for_each {A} (I : list A → World → Prop) E l (f : A → prog unit) w :
  I l w →
  (∀ a l' w', I (a :: l') w' → returns (f a) w' (λ _, I l') E) →
  returns (for_each l f) w (λ _, I []) E.
Proof.
  intros HI Hstep. revert w HI. induction l as [|a l IH]; intros w HI; [done|]. simpl.
  eapply returns_bind; [by apply Hstep|intros [] w' HI'; by apply IH|done].
Qed.

(** Everything but the database content and the outside world is unchanged. *)
Definition frame (w w' : World) : Prop :=
  w_wopen w' = w_wopen w ∧ w_ropen w' = w_ropen w ∧ w_tx w' = w_tx w ∧
  w_metrics w' = w_metrics w ∧ w_driver w' = w_driver w ∧ w_tasks w' = w_tasks w ∧
  w_trace w' = w_trace w.

Global Instance frame_preorder : PreOrder frame.
Proof.
  split; [by intros w; repeat split|].
  intros w1 w2 w3 H1 H2. unfold frame in *. intuition congruence.
Qed.

(** The rows of the database, as a client that is not in a transaction sees them. *)
Definition rows (w : World) : list Row := sg_rows (w_db w).

Lemma same_proc_frame w w' : same_proc w w' → w_trace w' = w_trace w → frame w w'.
Proof. unfold same_proc, frame. intuition. Qed.

Lemma same_proc_rows w w' : same_proc w w' → rows w' = rows w.
Proof. unfold same_proc, rows. by intros [-> _]. Qed.

(** Reading the clock. *)
Lemma returns_now w (P : Z → World → Prop) E :
  (∀ t w', frame w w' → rows w' = rows w → P t w') → returns (ask ENow) w P E.
Proof.
  intros HP. apply returns_ask. intros r w' Hs Ht. rewrite app_nil_r in Ht.
  apply HP; [by apply same_proc_frame|by apply same_proc_rows].
Qed.

End run.

#[global] Hint Extern 0 (same_proc _ _) => reflexivity : core.
#[global] Hint Extern 0 (frame _ _) => reflexivity : core.
Create Rewrite HintDb run.
#[export] Hint Rewrite @run_bind @run_ret @run_attempt @run_map_err @run_lift @run_ask : run.

(** Step over the first command of a sequence with a lemma about it. *)
Ltac step H := eapply returns_bind; [apply H|simpl|simpl].
