(* ===== verification/Types.v ===== *)
(** * Configuration and wire types ([service.go], [rpc_types.go])

    The proposer's configuration, and the requests and responses it exchanges
    with the witness generation server. *)

From S2P Require Import Prelude Sql ProofRequest Metrics Prog.

(** Durations are nanoseconds ([time.Duration]). *)
Record ProposerConfig := mkConfig {
  PollInterval : Z;
  NetworkTimeout : Z;
  OutputRetryInterval : Z;
  ProposalInterval : Z;
  L2OutputOracleAddr : option Address;
  DisputeGameFactoryAddr : option Address;
  DisputeGameType : Z;
  AllowNonFinalized : bool;
  WaitNodeSync : bool;
  DbPath : string;
  UseCachedDb : bool;
  BeaconRpc : string;
  RollupRpc : string;
  MaxBlockRangePerSpanProof : Z;
  MaxConcurrentWitnessGen : Z;
  WitnessGenTimeout : Z;
  L2ChainID : Z;
  ProofTimeout : Z;
  OPSuccinctServerUrl : string;
  MaxConcurrentProofRequests : Z;
  Mock : bool;
}.

Definition second : Z := 1000000000.

Record SpanProofRequest := mkSpanProofRequest { spr_Start : Z; spr_End : Z }.

Record AggProofRequest := mkAggProofRequest {
  apr_Subproofs : list (option bytes);
  apr_L1Head : string;
}.

Record ValidateConfigRequest := mkValidateConfigRequest { vcr_Address : string }.

Record ValidateConfigResponse := mkValidateConfigResponse {
  RollupConfigHashValid : bool;
  AggVkeyValid : bool;
  RangeVkeyValid : bool;
}.

Record WitnessGenerationResponse := mkWitnessGenerationResponse { ProofID : option bytes }.

(** [UnclaimDescription], an [int] with named values. *)
Definition UnexpectedProverError : Z := 0.
Definition ProgramExecutionError : Z := 1.
Definition CycleLimitExceeded : Z := 2.
Definition Other : Z := 3.

Definition UnclaimDescription_String (d : Z) : string :=
  if d =? UnexpectedProverError then "UnexpectedProverError"
  else if d =? ProgramExecutionError then "ProgramExecutionError"
  else if d =? CycleLimitExceeded then "CycleLimitExceeded"
  else if d =? Other then "Other"
  else "Unknown".

(** [SP1FulfillmentStatus] and [SP1ExecutionStatus], [int]s with named values. *)
Definition SP1FulfillmentStatusUnspecified : Z := 0.
Definition SP1FulfillmentStatusRequested : Z := 1.
Definition SP1FulfillmentStatusAssigned : Z := 2.
Definition SP1FulfillmentStatusFulfilled : Z := 3.
Definition SP1FulfillmentStatusUnfulfillable : Z := 4.

Definition SP1ExecutionStatusUnspecified : Z := 0.
Definition SP1ExecutionStatusUnexecuted : Z := 1.
Definition SP1ExecutionStatusExecuted : Z := 2.
Definition SP1ExecutionStatusUnexecutable : Z := 3.

Record ProofStatusResponse := mkProofStatusResponse {
  FulfillmentStatus : Z;
  ExecutionStatus : Z;
  psr_Proof : option bytes;
}.

(** The zero value [ProofStatusResponse{}]. *)
Definition emptyStatus : ProofStatusResponse := mkProofStatusResponse 0 0 None.
