(* ===== verification/Script.v ===== *)
(** * A concrete outside world

    An instance of [External] given by constant answers and queues, on which
    the witnesses of the other files run whole functions. *)

From S2P Require Import Prelude Sql ProofRequest Metrics Encoding Prog Types.

Record ScriptState := mkScript {
  sc_now : Z;
  sc_latest : error + Z;
  sc_next : error + Z;
  sc_sync : error + SyncStatus;
  sc_output : Z → error + OutputResponse;
  sc_safe_head : Z → error + Z;
  sc_l1_heads : list Z;                      (* the last one stays *)
  sc_send : error + Receipt;
  sc_header : Z → error + Header;
  sc_http : list (error + HttpResponse);
  sc_ticks : list bool;
}.

Definition sc_pop_head (l : list Z) : Z * list Z :=
  match l with
  | [] => (0, [])
  | [x] => (x, [x])
  | x :: l' => (x, l')
  end.

Definition with_l1_heads l s := let 'mkScript a b c d e f _ g h i j := s in mkScript a b c d e f l g h i j.
Definition with_http l s := let 'mkScript a b c d e f g h i _ j := s in mkScript a b c d e f g h i l j.
Definition with_ticks l s := let 'mkScript a b c d e f g h i j _ := s in mkScript a b c d e f g h i j l.
Definition with_now n s := let 'mkScript _ b c d e f g h i j k := s in mkScript n b c d e f g h i j k.

Definition script_exec {R} (c : ExtCmd R) (s : ScriptState) : R * ScriptState :=
  match c in ExtCmd R return R * ScriptState with
  | ENow => (sc_now s, s)
  | EBindings => (None, s)
  | EVersion => (inr "v1"%string, s)
  | ELatestBlockNumber => (sc_latest s, s)
  | ENextBlockNumber => (sc_next s, s)
  | ERollupClient | EDialRollup => (None, s)
  | ERollupConfig => (inr 10, s)
  | ESyncStatus => (sc_sync s, s)
  | EOutputAtBlock n => (sc_output s n, s)
  | ESafeHeadAtL1Block n => (sc_safe_head s n, s)
  | EWaitRollupSync _ => (None, s)
  | ETxBlockNumber => let '(x, l) := sc_pop_head (sc_l1_heads s) in (inr x, with_l1_heads l s)
  | ETxSend _ => (sc_send s, s)
  | EL1BlockNumber => (inr (sc_pop_head (sc_l1_heads s)).1, s)
  | EL1HeaderByNumber n => (sc_header s n, s)
  | EL1CallContract _ _ => (inr [], s)
  | EHttp _ => match sc_http s with
               | [] => ((inl (ENet false 111), false), s)
               | r :: l => ((r, match r with inl _ => false | inr _ => true end), with_http l s)
               end
  | EReusedConn => (inl (Errorf "http: ContentLength=%d with Body length 0" []), s)
  | ESleep _ => (tt, s)
  | EMkdirAll _ => (None, s)
  | ESvc _ => (None, s)
  | EOrder n => (seq 0 n, s)
  end.

Definition script_select (s : ScriptState) : bool * ScriptState :=
  match sc_ticks s with
  | [] => (false, s)
  | b :: l => (b, with_ticks l s)
  end.

#[export] Instance ScriptExternal : External := {|
  ext := ScriptState;
  ext_exec := @script_exec;
  ext_select := script_select;
  Address_Hex a := ("0x" ++ EncodeToString a)%string;
  url_valid _ := true;
  abi_Pack _ _ _ := inr [];
|}.

Definition quiet_heads : SyncStatus := mkSyncStatus 0 0 0 0.

Definition script0 : ScriptState :=
  mkScript 1700000000 (inr 0) (inr 0) (inr quiet_heads)
    (λ n, inr (mkOutputResponse 0 0 n 0 quiet_heads)) (λ n, inr n) [0]
    (inr (mkReceipt 1 [])) (λ n, inr (mkHeader n [])) [] [].

Definition driver0 : DriverState := mkDriverState false false false false true.

(** A process over a table and a script. *)
Definition world (tbl : list Row) (s : ScriptState) : @World ListSql ScriptExternal :=
  @mkWorld ListSql ScriptExternal (mkListStore tbl []) true true None s NoopMetrics driver0 [] [].

(** A configuration, and a request added and last updated at time [t]. *)
Definition cfg0 : ProposerConfig :=
  mkConfig 12 10 1 0 (Some [Byte.x01]) None 0 true false "./op-proposer.db" true "http://beacon"
    "http://node" 40 2 20 10 3600 "http://server" 4 false.

Definition row_at (t id : Z) (type : string) (start end_ : Z) (status : string) : Row :=
  mkRow id type start end_ status t None None t None None None.

(** A request sent to the prover as [pid]. *)
Definition row_proving (t id : Z) (type : string) (start end_ : Z) (pid : string) : Row :=
  mkRow id type start end_ StatusPROVING t (Some pid) (Some t) t None None None.

Definition row_done (t id : Z) (type : string) (start end_ : Z) (pf : bytes) : Row :=
  mkRow id type start end_ StatusCOMPLETE t None None t None None (Some pf).

Definition t0 : Z := 1700000000.

(** From a theorem about every run to the run at hand. *)
Section outcomes.
Context `{SqlGraph, External} {A : Type}.
Implicit Types (p : prog A) (w : World).

Lemma wp_at p w Q o : wp p w Q → (run p w).1 = o → Q o (run p w).2.
Proof. unfold wp. by intros HQ <-. Qed.

Lemma returns_ok_at p w P E a : returns p w P E → (run p w).1 = Ok a → P a (run p w).2.
Proof. unfold returns, wp. intros HQ Hr. by rewrite Hr in HQ. Qed.

Lemma returns_fail_at p w P E e : returns p w P E → (run p w).1 = Fail e → E e (run p w).2.
Proof. unfold returns, wp. intros HQ Hr. by rewrite Hr in HQ. Qed.

End outcomes.

(** [HT]: the theorem; [Ho]: the outcome, replaced by what the theorem says of it. *)
Ltac ran HT Ho :=
  cbv zeta in HT;
  first [apply (returns_ok_at _ _ _ _ _ HT) in Ho
        |apply (returns_fail_at _ _ _ _ _ HT) in Ho
        |apply (wp_at _ _ _ _ HT) in Ho];
  cbv beta iota in Ho.

(** Answers of the outside other than those of [script0]. *)
Definition with_sync st s := let 'mkScript a b c _ e f g h i j k := s in mkScript a b c (inr st) e f g h i j k.
Definition with_oracle latest next s :=
  let 'mkScript a _ _ d e f g h i j k := s in mkScript a (inr latest) (inr next) d e f g h i j k.
Definition finalized (n : Z) : ScriptState := with_sync (mkSyncStatus 0 n n n) script0.
Definition replies (l : list string) : ScriptState :=
  with_http ((λ body, inr (mkHttpResponse 200 (inr body))) <$> l) script0.
