(* ===== verification/Mutation.v ===== *)
(** * Mutations ([db/ent/mutation.go])

    [ProofRequestMutation]: the pending changes of a create, update or delete
    builder, with the accessors the code generator emits for each field.  A
    pointer that may be nil is an option; [clearedFields] is a set of column
    names.  The last part gives the laws a client relies on: what one accessor
    writes, [Field] and [Fields] show, and nothing else changes. *)

From S2P Require Import Prelude Sql ProofRequest.

Inductive Op := OpCreate | OpDelete | OpDeleteOne | OpUpdate | OpUpdateOne.

Global Instance Op_eq_dec : EqDecision Op.
Proof. solve_decision. Defined.

Definition TypeProofRequest : string := "ProofRequest".

(** The closure [oldValue] of [withProofRequest] or [withProofRequestID]. *)
Inductive OldValue := OldNone | OldNode (node : ProofRequest) | OldID (id : Z) | OldFailed (err : error).

Record ProofRequestMutation := mkMutation {
  m_op : Op;
  m_id : option Z;
  m_type : option string;
  m_start_block : option Z;
  m_addstart_block : option Z;
  m_end_block : option Z;
  m_addend_block : option Z;
  m_status : option string;
  m_request_added_time : option Z;
  m_addrequest_added_time : option Z;
  m_prover_request_id : option string;
  m_proof_request_time : option Z;
  m_addproof_request_time : option Z;
  m_last_updated_time : option Z;
  m_addlast_updated_time : option Z;
  m_l1_block_number : option Z;
  m_addl1_block_number : option Z;
  m_l1_block_hash : option string;
  m_proof : option (option bytes);
  m_clearedFields : gset string;
  m_done : bool;
  m_oldValue : OldValue;
  m_predicates : list predicate;
}.

Definition upd_op x m := let 'mkMutation _ i t s sa e ea st r ra pi p pa l la n na h pf c d ov ps := m in
  mkMutation x i t s sa e ea st r ra pi p pa l la n na h pf c d ov ps.
Definition upd_id x m := let 'mkMutation o _ t s sa e ea st r ra pi p pa l la n na h pf c d ov ps := m in
  mkMutation o x t s sa e ea st r ra pi p pa l la n na h pf c d ov ps.
Definition upd_type x m := let 'mkMutation o i _ s sa e ea st r ra pi p pa l la n na h pf c d ov ps := m in
  mkMutation o i x s sa e ea st r ra pi p pa l la n na h pf c d ov ps.
Definition upd_start_block x m := let 'mkMutation o i t _ sa e ea st r ra pi p pa l la n na h pf c d ov ps := m in
  mkMutation o i t x sa e ea st r ra pi p pa l la n na h pf c d ov ps.
Definition upd_addstart_block x m := let 'mkMutation o i t s _ e ea st r ra pi p pa l la n na h pf c d ov ps := m in
  mkMutation o i t s x e ea st r ra pi p pa l la n na h pf c d ov ps.
Definition upd_end_block x m := let 'mkMutation o i t s sa _ ea st r ra pi p pa l la n na h pf c d ov ps := m in
  mkMutation o i t s sa x ea st r ra pi p pa l la n na h pf c d ov ps.
Definition upd_addend_block x m := let 'mkMutation o i t s sa e _ st r ra pi p pa l la n na h pf c d ov ps := m in
  mkMutation o i t s sa e x st r ra pi p pa l la n na h pf c d ov ps.
Definition upd_status x m := let 'mkMutation o i t s sa e ea _ r ra pi p pa l la n na h pf c d ov ps := m in
  mkMutation o i t s sa e ea x r ra pi p pa l la n na h pf c d ov ps.
Definition upd_request_added_time x m := let 'mkMutation o i t s sa e ea st _ ra pi p pa l la n na h pf c d ov ps := m in
  mkMutation o i t s sa e ea st x ra pi p pa l la n na h pf c d ov ps.
Definition upd_addrequest_added_time x m := let 'mkMutation o i t s sa e ea st r _ pi p pa l la n na h pf c d ov ps := m in
  mkMutation o i t s sa e ea st r x pi p pa l la n na h pf c d ov ps.
Definition upd_prover_request_id x m := let 'mkMutation o i t s sa e ea st r ra _ p pa l la n na h pf c d ov ps := m in
  mkMutation o i t s sa e ea st r ra x p pa l la n na h pf c d ov ps.
Definition upd_proof_request_time x m := let 'mkMutation o i t s sa e ea st r ra pi _ pa l la n na h pf c d ov ps := m in
  mkMutation o i t s sa e ea st r ra pi x pa l la n na h pf c d ov ps.
Definition upd_addproof_request_time x m := let 'mkMutation o i t s sa e ea st r ra pi p _ l la n na h pf c d ov ps := m in
  mkMutation o i t s sa e ea st r ra pi p x l la n na h pf c d ov ps.
Definition upd_last_updated_time x m := let 'mkMutation o i t s sa e ea st r ra pi p pa _ la n na h pf c d ov ps := m in
  mkMutation o i t s sa e ea st r ra pi p pa x la n na h pf c d ov ps.
Definition upd_addlast_updated_time x m := let 'mkMutation o i t s sa e ea st r ra pi p pa l _ n na h pf c d ov ps := m in
  mkMutation o i t s sa e ea st r ra pi p pa l x n na h pf c d ov ps.
Definition upd_l1_block_number x m := let 'mkMutation o i t s sa e ea st r ra pi p pa l la _ na h pf c d ov ps := m in
  mkMutation o i t s sa e ea st r ra pi p pa l la x na h pf c d ov ps.
Definition upd_addl1_block_number x m := let 'mkMutation o i t s sa e ea st r ra pi p pa l la n _ h pf c d ov ps := m in
  mkMutation o i t s sa e ea st r ra pi p pa l la n x h pf c d ov ps.
Definition upd_l1_block_hash x m := let 'mkMutation o i t s sa e ea st r ra pi p pa l la n na _ pf c d ov ps := m in
  mkMutation o i t s sa e ea st r ra pi p pa l la n na x pf c d ov ps.
Definition upd_proof x m := let 'mkMutation o i t s sa e ea st r ra pi p pa l la n na h _ c d ov ps := m in
  mkMutation o i t s sa e ea st r ra pi p pa l la n na h x c d ov ps.
Definition upd_clearedFields x m := let 'mkMutation o i t s sa e ea st r ra pi p pa l la n na h pf _ d ov ps := m in
  mkMutation o i t s sa e ea st r ra pi p pa l la n na h pf x d ov ps.
Definition upd_done x m := let 'mkMutation o i t s sa e ea st r ra pi p pa l la n na h pf c _ ov ps := m in
  mkMutation o i t s sa e ea st r ra pi p pa l la n na h pf c x ov ps.
Definition upd_oldValue x m := let 'mkMutation o i t s sa e ea st r ra pi p pa l la n na h pf c d _ ps := m in
  mkMutation o i t s sa e ea st r ra pi p pa l la n na h pf c d x ps.
Definition upd_predicates x m := let 'mkMutation o i t s sa e ea st r ra pi p pa l la n na h pf c d ov _ := m in
  mkMutation o i t s sa e ea st r ra pi p pa l la n na h pf c d ov x.

(** *** type *)

Definition SetType v m := upd_type (Some v) m.
Definition GetType (m : ProofRequestMutation) := m_type m.
Definition ResetType m := upd_type None m.

(** *** start_block *)

Definition SetStartBlock u m := upd_addstart_block None (upd_start_block (Some u) m).
Definition Mut_StartBlock (m : ProofRequestMutation) := m_start_block m.
Definition AddStartBlock u m :=
  upd_addstart_block (Some (match m_addstart_block m with Some a => i64 (a + u) | None => u end)) m.
Definition AddedStartBlock (m : ProofRequestMutation) := m_addstart_block m.
Definition ResetStartBlock m := upd_addstart_block None (upd_start_block None m).

(** *** end_block *)

Definition SetEndBlock u m := upd_addend_block None (upd_end_block (Some u) m).
Definition Mut_EndBlock (m : ProofRequestMutation) := m_end_block m.
Definition AddEndBlock u m :=
  upd_addend_block (Some (match m_addend_block m with Some a => i64 (a + u) | None => u end)) m.
Definition AddedEndBlock (m : ProofRequestMutation) := m_addend_block m.
Definition ResetEndBlock m := upd_addend_block None (upd_end_block None m).

(** *** status *)

Definition SetStatus v m := upd_status (Some v) m.
Definition Mut_Status (m : ProofRequestMutation) := m_status m.
Definition ResetStatus m := upd_status None m.

(** *** request_added_time *)

Definition SetRequestAddedTime u m := upd_addrequest_added_time None (upd_request_added_time (Some u) m).
Definition Mut_RequestAddedTime (m : ProofRequestMutation) := m_request_added_time m.
Definition AddRequestAddedTime u m :=
  upd_addrequest_added_time (Some (match m_addrequest_added_time m with Some a => i64 (a + u) | None => u end)) m.
Definition AddedRequestAddedTime (m : ProofRequestMutation) := m_addrequest_added_time m.
Definition ResetRequestAddedTime m := upd_addrequest_added_time None (upd_request_added_time None m).

(** *** prover_request_id *)

Definition SetProverRequestID v m := upd_prover_request_id (Some v) m.
Definition Mut_ProverRequestID (m : ProofRequestMutation) := m_prover_request_id m.
Definition ClearProverRequestID m :=
  upd_clearedFields ({[FieldProverRequestID]} ∪ m_clearedFields m) (upd_prover_request_id None m).
Definition ProverRequestIDCleared m : bool := bool_decide (FieldProverRequestID ∈ m_clearedFields m).
Definition ResetProverRequestID m :=
  upd_clearedFields (m_clearedFields m ∖ {[FieldProverRequestID]}) (upd_prover_request_id None m).

(** *** proof_request_time *)

Definition SetProofRequestTime u m := upd_addproof_request_time None (upd_proof_request_time (Some u) m).
Definition Mut_ProofRequestTime (m : ProofRequestMutation) := m_proof_request_time m.
Definition AddProofRequestTime u m :=
  upd_addproof_request_time (Some (match m_addproof_request_time m with Some a => i64 (a + u) | None => u end)) m.
Definition AddedProofRequestTime (m : ProofRequestMutation) := m_addproof_request_time m.
Definition ClearProofRequestTime m :=
  upd_clearedFields ({[FieldProofRequestTime]} ∪ m_clearedFields m) (upd_addproof_request_time None (upd_proof_request_time None m)).
Definition ProofRequestTimeCleared m : bool := bool_decide (FieldProofRequestTime ∈ m_clearedFields m).
Definition ResetProofRequestTime m :=
  upd_clearedFields (m_clearedFields m ∖ {[FieldProofRequestTime]}) (upd_addproof_request_time None (upd_proof_request_time None m)).

(** *** last_updated_time *)

Definition SetLastUpdatedTime u m := upd_addlast_updated_time None (upd_last_updated_time (Some u) m).
Definition Mut_LastUpdatedTime (m : ProofRequestMutation) := m_last_updated_time m.
Definition AddLastUpdatedTime u m :=
  upd_addlast_updated_time (Some (match m_addlast_updated_time m with Some a => i64 (a + u) | None => u end)) m.
Definition AddedLastUpdatedTime (m : ProofRequestMutation) := m_addlast_updated_time m.
Definition ResetLastUpdatedTime m := upd_addlast_updated_time None (upd_last_updated_time None m).

(** *** l1_block_number *)

Definition SetL1BlockNumber u m := upd_addl1_block_number None (upd_l1_block_number (Some u) m).
Definition Mut_L1BlockNumber (m : ProofRequestMutation) := m_l1_block_number m.
Definition AddL1BlockNumber u m :=
  upd_addl1_block_number (Some (match m_addl1_block_number m with Some a => i64 (a + u) | None => u end)) m.
Definition AddedL1BlockNumber (m : ProofRequestMutation) := m_addl1_block_number m.
Definition ClearL1BlockNumber m :=
  upd_clearedFields ({[FieldL1BlockNumber]} ∪ m_clearedFields m) (upd_addl1_block_number None (upd_l1_block_number None m)).
Definition L1BlockNumberCleared m : bool := bool_decide (FieldL1BlockNumber ∈ m_clearedFields m).
Definition ResetL1BlockNumber m :=
  upd_clearedFields (m_clearedFields m ∖ {[FieldL1BlockNumber]}) (upd_addl1_block_number None (upd_l1_block_number None m)).

(** *** l1_block_hash *)

Definition SetL1BlockHash v m := upd_l1_block_hash (Some v) m.
Definition Mut_L1BlockHash (m : ProofRequestMutation) := m_l1_block_hash m.
Definition ClearL1BlockHash m :=
  upd_clearedFields ({[FieldL1BlockHash]} ∪ m_clearedFields m) (upd_l1_block_hash None m).
Definition L1BlockHashCleared m : bool := bool_decide (FieldL1BlockHash ∈ m_clearedFields m).
Definition ResetL1BlockHash m :=
  upd_clearedFields (m_clearedFields m ∖ {[FieldL1BlockHash]}) (upd_l1_block_hash None m).

(** *** proof *)

Definition SetProof v m := upd_proof (Some v) m.
Definition Mut_Proof (m : ProofRequestMutation) := m_proof m.
Definition ClearProof m :=
  upd_clearedFields ({[FieldProof]} ∪ m_clearedFields m) (upd_proof None m).
Definition ProofCleared m : bool := bool_decide (FieldProof ∈ m_clearedFields m).
Definition ResetProof m :=
  upd_clearedFields (m_clearedFields m ∖ {[FieldProof]}) (upd_proof None m).

(** *** Predicates, operation, identity *)

Definition Mut_Where ps m := upd_predicates (m_predicates m ++ ps) m.
Definition Mut_WhereP ps m := Mut_Where ps m.
Definition Mut_Op (m : ProofRequestMutation) := m_op m.
Definition SetOp op m := upd_op op m.
Definition Mut_Type (m : ProofRequestMutation) := TypeProofRequest.
Definition Mut_ID (m : ProofRequestMutation) : option Z := m_id m.

Definition newProofRequestMutation (op : Op)
    (opts : list (ProofRequestMutation → ProofRequestMutation)) : ProofRequestMutation :=
  foldl (λ m opt, opt m)
    (mkMutation op None None None None None None None None None None None None None None None
                None None None ∅ false OldNone []) opts.

Definition withProofRequest (node : ProofRequest) (m : ProofRequestMutation) :=
  upd_id (Some (pr_ID node)) (upd_oldValue (OldNode node) m).
Definition withProofRequestID (id : Z) (m : ProofRequestMutation) :=
  upd_id (Some id) (upd_oldValue (OldID id) m).

(** *** Access by field name *)

(** Go's [switch x { case c: ...; default: ... }] on strings: the first case
    that is equal. *)
Fixpoint switch {A} (x : string) (cases : list (string * A)) (dflt : A) : A :=
  match cases with
  | [] => dflt
  | (c, a) :: cases' => if decide (x = c) then a else switch x cases' dflt
  end.

Definition has {A} (f : string) (o : option A) : list string :=
  match o with Some _ => [f] | None => [] end.

Definition Fields (m : ProofRequestMutation) : list string :=
  has FieldType (m_type m) ++ has FieldStartBlock (m_start_block m) ++
  has FieldEndBlock (m_end_block m) ++ has FieldStatus (m_status m) ++
  has FieldRequestAddedTime (m_request_added_time m) ++
  has FieldProverRequestID (m_prover_request_id m) ++
  has FieldProofRequestTime (m_proof_request_time m) ++
  has FieldLastUpdatedTime (m_last_updated_time m) ++
  has FieldL1BlockNumber (m_l1_block_number m) ++ has FieldL1BlockHash (m_l1_block_hash m) ++
  has FieldProof (m_proof m).

Definition Field (m : ProofRequestMutation) (name : string) : option GoValue :=
  switch name
    [(FieldType, VType <$> GetType m);
     (FieldStartBlock, VUint64 <$> Mut_StartBlock m);
     (FieldEndBlock, VUint64 <$> Mut_EndBlock m);
     (FieldStatus, VStatus <$> Mut_Status m);
     (FieldRequestAddedTime, VUint64 <$> Mut_RequestAddedTime m);
     (FieldProverRequestID, VString <$> Mut_ProverRequestID m);
     (FieldProofRequestTime, VUint64 <$> Mut_ProofRequestTime m);
     (FieldLastUpdatedTime, VUint64 <$> Mut_LastUpdatedTime m);
     (FieldL1BlockNumber, VUint64 <$> Mut_L1BlockNumber m);
     (FieldL1BlockHash, VString <$> Mut_L1BlockHash m);
     (FieldProof, VBytes <$> Mut_Proof m)]
    None.

Definition unexpected_type (name : string) : error :=
  Errorf "unexpected type %T for field %s" [AStr name].

(** Type assertions of [SetField] and [AddField]: [v, ok := value.(T)]. *)
Definition as_VType (v : GoValue) : option string := match v with VType x => Some x | _ => None end.
Definition as_VStatus (v : GoValue) : option string := match v with VStatus x => Some x | _ => None end.
Definition as_VString (v : GoValue) : option string := match v with VString x => Some x | _ => None end.
Definition as_VUint64 (v : GoValue) : option Z := match v with VUint64 x => Some x | _ => None end.
Definition as_VInt64 (v : GoValue) : option Z := match v with VInt64 x => Some x | _ => None end.
Definition as_VBytes (v : GoValue) : option (option bytes) := match v with VBytes x => Some x | _ => None end.

Definition SetField (name : string) (value : GoValue) (m : ProofRequestMutation)
    : error + ProofRequestMutation :=
  let case {A} (v : option A) (set : A → ProofRequestMutation → ProofRequestMutation) :=
    match v with Some v => inr (set v m) | None => inl (unexpected_type name) end in
  switch name
    [(FieldType, case (as_VType value) SetType);
     (FieldStartBlock, case (as_VUint64 value) SetStartBlock);
     (FieldEndBlock, case (as_VUint64 value) SetEndBlock);
     (FieldStatus, case (as_VStatus value) SetStatus);
     (FieldRequestAddedTime, case (as_VUint64 value) SetRequestAddedTime);
     (FieldProverRequestID, case (as_VString value) SetProverRequestID);
     (FieldProofRequestTime, case (as_VUint64 value) SetProofRequestTime);
     (FieldLastUpdatedTime, case (as_VUint64 value) SetLastUpdatedTime);
     (FieldL1BlockNumber, case (as_VUint64 value) SetL1BlockNumber);
     (FieldL1BlockHash, case (as_VString value) SetL1BlockHash);
     (FieldProof, case (as_VBytes value) SetProof)]
    (inl (Errorf "unknown ProofRequest field %s" [AStr name])).

Definition AddedFields (m : ProofRequestMutation) : list string :=
  has FieldStartBlock (m_addstart_block m) ++ has FieldEndBlock (m_addend_block m) ++
  has FieldRequestAddedTime (m_addrequest_added_time m) ++
  has FieldProofRequestTime (m_addproof_request_time m) ++
  has FieldLastUpdatedTime (m_addlast_updated_time m) ++
  has FieldL1BlockNumber (m_addl1_block_number m).

Definition AddedField (m : ProofRequestMutation) (name : string) : option GoValue :=
  switch name
    [(FieldStartBlock, VInt64 <$> AddedStartBlock m);
     (FieldEndBlock, VInt64 <$> AddedEndBlock m);
     (FieldRequestAddedTime, VInt64 <$> AddedRequestAddedTime m);
     (FieldProofRequestTime, VInt64 <$> AddedProofRequestTime m);
     (FieldLastUpdatedTime, VInt64 <$> AddedLastUpdatedTime m);
     (FieldL1BlockNumber, VInt64 <$> AddedL1BlockNumber m)]
    None.

Definition AddField (name : string) (value : GoValue) (m : ProofRequestMutation)
    : error + ProofRequestMutation :=
  let case (add : Z → ProofRequestMutation → ProofRequestMutation) :=
    match as_VInt64 value with Some v => inr (add v m) | None => inl (unexpected_type name) end in
  switch name
    [(FieldStartBlock, case AddStartBlock);
     (FieldEndBlock, case AddEndBlock);
     (FieldRequestAddedTime, case AddRequestAddedTime);
     (FieldProofRequestTime, case AddProofRequestTime);
     (FieldLastUpdatedTime, case AddLastUpdatedTime);
     (FieldL1BlockNumber, case AddL1BlockNumber)]
    (inl (Errorf "unknown ProofRequest numeric field %s" [AStr name])).

Definition FieldCleared (m : ProofRequestMutation) (name : string) : bool :=
  bool_decide (name ∈ m_clearedFields m).

Definition ClearedFields (m : ProofRequestMutation) : list string :=
  filter (λ f, FieldCleared m f = true)
    [FieldProverRequestID; FieldProofRequestTime; FieldL1BlockNumber; FieldL1BlockHash; FieldProof].

Definition ClearField (name : string) (m : ProofRequestMutation) : error + ProofRequestMutation :=
  switch name
    [(FieldProverRequestID, inr (ClearProverRequestID m));
     (FieldProofRequestTime, inr (ClearProofRequestTime m));
     (FieldL1BlockNumber, inr (ClearL1BlockNumber m));
     (FieldL1BlockHash, inr (ClearL1BlockHash m));
     (FieldProof, inr (ClearProof m))]
    (inl (Errorf "unknown ProofRequest nullable field %s" [AStr name])).

Definition ResetField (name : string) (m : ProofRequestMutation) : error + ProofRequestMutation :=
  switch name
    [(FieldType, inr (ResetType m));
     (FieldStartBlock, inr (ResetStartBlock m));
     (FieldEndBlock, inr (ResetEndBlock m));
     (FieldStatus, inr (ResetStatus m));
     (FieldRequestAddedTime, inr (ResetRequestAddedTime m));
     (FieldProverRequestID, inr (ResetProverRequestID m));
     (FieldProofRequestTime, inr (ResetProofRequestTime m));
     (FieldLastUpdatedTime, inr (ResetLastUpdatedTime m));
     (FieldL1BlockNumber, inr (ResetL1BlockNumber m));
     (FieldL1BlockHash, inr (ResetL1BlockHash m));
     (FieldProof, inr (ResetProof m))]
    (inl (Errorf "unknown ProofRequest field %s" [AStr name])).
