(* ===== verification/Builders.v ===== *)
(** * Builders ([db/ent/proofrequest_create.go], [_update.go], [_query.go], [_delete.go], [tx.go], [client.go])

    A builder is its driver (a [Handle]) and its mutation or query context.
    The clients of this program have no hooks and no interceptors
    ([db.go] makes them from a driver alone), so [withHooks] and
    [withInterceptors] run the builder's own operation ([Hooks.v] has them).  Each [Save], [All],
    [Count] and so on is a program that sends the spec the builder makes to the
    SQL layer and turns the library's errors into the package's. *)

From S2P Require Import Prelude Sql ProofRequest Metrics Prog Mutation.

(** ** Create *)

Record ProofRequestCreate := mkCreate {
  prc_driver : Handle;
  prc_mutation : ProofRequestMutation;
}.

Definition on_create (f : ProofRequestMutation → ProofRequestMutation) (b : ProofRequestCreate) :=
  mkCreate (prc_driver b) (f (prc_mutation b)).

Definition Client_Create (h : Handle) : ProofRequestCreate :=
  mkCreate h (newProofRequestMutation OpCreate []).

Definition prc_SetType v := on_create (SetType v).
Definition prc_SetStartBlock v := on_create (SetStartBlock v).
Definition prc_SetEndBlock v := on_create (SetEndBlock v).
Definition prc_SetStatus v := on_create (SetStatus v).
Definition prc_SetRequestAddedTime v := on_create (SetRequestAddedTime v).
Definition prc_SetProverRequestID v := on_create (SetProverRequestID v).
Definition prc_SetProofRequestTime v := on_create (SetProofRequestTime v).
Definition prc_SetLastUpdatedTime v := on_create (SetLastUpdatedTime v).
Definition prc_SetL1BlockNumber v := on_create (SetL1BlockNumber v).
Definition prc_SetL1BlockHash v := on_create (SetL1BlockHash v).
Definition prc_SetProof v := on_create (SetProof v).

Definition missing (field : string) : error :=
  ValidationError field (Errorf "ent: missing required field %q" [AStr "ProofRequest."; AStr field]).
Definition validator_failed (field : string) (e : error) : error :=
  ValidationError field
    (Wrapf "ent: validator failed for field %q: %w" [AStr "ProofRequest."; AStr field] e).

Definition require {A} (field : string) (o : option A) : option error :=
  match o with None => Some (missing field) | Some _ => None end.
Definition validate {A} (field : string) (f : A → option error) (o : option A) : option error :=
  match o with Some v => validator_failed field <$> f v | None => None end.

(** The first error of a sequence of checks. *)
Definition first_error (l : list (option error)) : option error := head (omap id l).

Definition prc_check (m : ProofRequestMutation) : option error :=
  first_error
    [require "type" (GetType m);
     validate "type" TypeValidator (GetType m);
     require "start_block" (Mut_StartBlock m);
     require "end_block" (Mut_EndBlock m);
     require "status" (Mut_Status m);
     validate "status" StatusValidator (Mut_Status m);
     require "request_added_time" (Mut_RequestAddedTime m);
     require "last_updated_time" (Mut_LastUpdatedTime m)].

(** [if value, ok := m.X(); ok { _spec.SetField(...); _node.X = value }] *)
Definition put {A} (c : string) (g : A → GoValue) (f : A → ProofRequest → ProofRequest)
    (o : option A) (p : ProofRequest * list (string * GoValue)) :=
  match o with
  | Some v => (f v (fst p), snd p ++ [(c, g v)])
  | None => p
  end.

Definition prc_createSpec (m : ProofRequestMutation) : ProofRequest * CreateSpec :=
  let p := (zeroProofRequest, []) in
  let p := put FieldType VType set_Type (GetType m) p in
  let p := put FieldStartBlock VUint64 set_StartBlock (Mut_StartBlock m) p in
  let p := put FieldEndBlock VUint64 set_EndBlock (Mut_EndBlock m) p in
  let p := put FieldStatus VStatus set_Status (Mut_Status m) p in
  let p := put FieldRequestAddedTime VUint64 set_RequestAddedTime (Mut_RequestAddedTime m) p in
  let p := put FieldProverRequestID VString set_ProverRequestID (Mut_ProverRequestID m) p in
  let p := put FieldProofRequestTime VUint64 set_ProofRequestTime (Mut_ProofRequestTime m) p in
  let p := put FieldLastUpdatedTime VUint64 set_LastUpdatedTime (Mut_LastUpdatedTime m) p in
  let p := put FieldL1BlockNumber VUint64 set_L1BlockNumber (Mut_L1BlockNumber m) p in
  let p := put FieldL1BlockHash VString set_L1BlockHash (Mut_L1BlockHash m) p in
  let p := put FieldProof VBytes set_Proof (Mut_Proof m) p in
  (fst p, mkCreateSpec Table (snd p)).

Definition is_constraint (e : sqlerr) : bool :=
  match e with SgConstraint _ => true | _ => false end.

Definition constraint_error (e : sqlerr) : error :=
  match e with SgConstraint msg => ConstraintError msg (ESql e) | _ => ESql e end.

Definition prc_sqlSave (b : ProofRequestCreate) : prog (ProofRequest * ProofRequestMutation) :=
  match prc_check (prc_mutation b) with
  | Some err => Raise err
  | None =>
      let '(node, spec) := prc_createSpec (prc_mutation b) in
      r ← db (SqlCreate (prc_driver b) spec);
      match r with
      | inl e => Raise (constraint_error e)
      | inr id => Ret (set_ID id node, upd_done true (upd_id (Some id) (prc_mutation b)))
      end
  end.

Definition prc_Save (b : ProofRequestCreate) : prog ProofRequest := r ← prc_sqlSave b; Ret (fst r).
Definition prc_Exec (b : ProofRequestCreate) : prog unit := _ ← prc_Save b; Ret tt.

(** ** Update *)

Record ProofRequestUpdate := mkUpdate {
  pru_driver : Handle;
  pru_mutation : ProofRequestMutation;
}.

Definition on_update (f : ProofRequestMutation → ProofRequestMutation) (b : ProofRequestUpdate) :=
  mkUpdate (pru_driver b) (f (pru_mutation b)).

Definition Client_Update (h : Handle) : ProofRequestUpdate :=
  mkUpdate h (newProofRequestMutation OpUpdate []).

Definition pru_Where ps := on_update (Mut_Where ps).
Definition pru_SetType v := on_update (SetType v).
Definition pru_SetStartBlock u := on_update (λ m, SetStartBlock u (ResetStartBlock m)).
Definition pru_AddStartBlock u := on_update (AddStartBlock u).
Definition pru_SetEndBlock u := on_update (λ m, SetEndBlock u (ResetEndBlock m)).
Definition pru_AddEndBlock u := on_update (AddEndBlock u).
Definition pru_SetStatus v := on_update (SetStatus v).
Definition pru_SetRequestAddedTime u := on_update (λ m, SetRequestAddedTime u (ResetRequestAddedTime m)).
Definition pru_AddRequestAddedTime u := on_update (AddRequestAddedTime u).
Definition pru_SetProverRequestID v := on_update (SetProverRequestID v).
Definition pru_ClearProverRequestID := on_update ClearProverRequestID.
Definition pru_SetProofRequestTime u := on_update (λ m, SetProofRequestTime u (ResetProofRequestTime m)).
Definition pru_AddProofRequestTime u := on_update (AddProofRequestTime u).
Definition pru_ClearProofRequestTime := on_update ClearProofRequestTime.
Definition pru_SetLastUpdatedTime u := on_update (λ m, SetLastUpdatedTime u (ResetLastUpdatedTime m)).
Definition pru_AddLastUpdatedTime u := on_update (AddLastUpdatedTime u).
Definition pru_SetL1BlockNumber u := on_update (λ m, SetL1BlockNumber u (ResetL1BlockNumber m)).
Definition pru_AddL1BlockNumber u := on_update (AddL1BlockNumber u).
Definition pru_ClearL1BlockNumber := on_update ClearL1BlockNumber.
Definition pru_SetL1BlockHash v := on_update (SetL1BlockHash v).
Definition pru_ClearL1BlockHash := on_update ClearL1BlockHash.
Definition pru_SetProof v := on_update (SetProof v).
Definition pru_ClearProof := on_update ClearProof.

Definition pru_check (m : ProofRequestMutation) : option error :=
  first_error [validate "type" TypeValidator (GetType m);
               validate "status" StatusValidator (Mut_Status m)].

Definition field1 {A} (c : string) (g : A → GoValue) (o : option A) : list (string * GoValue) :=
  match o with Some v => [(c, g v)] | None => [] end.
Definition clear1 (c : string) (b : bool) : list string := if b then [c] else [].

(** The [Set], [Add] and [Clear] lists of the spec, in the order the builder
    fills them. *)
Definition set_fields (m : ProofRequestMutation) : list (string * GoValue) :=
  field1 FieldType VType (GetType m) ++
  field1 FieldStartBlock VUint64 (Mut_StartBlock m) ++
  field1 FieldEndBlock VUint64 (Mut_EndBlock m) ++
  field1 FieldStatus VStatus (Mut_Status m) ++
  field1 FieldRequestAddedTime VUint64 (Mut_RequestAddedTime m) ++
  field1 FieldProverRequestID VString (Mut_ProverRequestID m) ++
  field1 FieldProofRequestTime VUint64 (Mut_ProofRequestTime m) ++
  field1 FieldLastUpdatedTime VUint64 (Mut_LastUpdatedTime m) ++
  field1 FieldL1BlockNumber VUint64 (Mut_L1BlockNumber m) ++
  field1 FieldL1BlockHash VString (Mut_L1BlockHash m) ++
  field1 FieldProof VBytes (Mut_Proof m).
Definition add_fields (m : ProofRequestMutation) : list (string * GoValue) :=
  field1 FieldStartBlock VInt64 (AddedStartBlock m) ++
  field1 FieldEndBlock VInt64 (AddedEndBlock m) ++
  field1 FieldRequestAddedTime VInt64 (AddedRequestAddedTime m) ++
  field1 FieldProofRequestTime VInt64 (AddedProofRequestTime m) ++
  field1 FieldLastUpdatedTime VInt64 (AddedLastUpdatedTime m) ++
  field1 FieldL1BlockNumber VInt64 (AddedL1BlockNumber m).
Definition clear_fields (m : ProofRequestMutation) : list string :=
  clear1 FieldProverRequestID (ProverRequestIDCleared m) ++
  clear1 FieldProofRequestTime (ProofRequestTimeCleared m) ++
  clear1 FieldL1BlockNumber (L1BlockNumberCleared m) ++
  clear1 FieldL1BlockHash (L1BlockHashCleared m) ++
  clear1 FieldProof (ProofCleared m).

Definition pru_updateSpec (m : ProofRequestMutation) : UpdateSpec :=
  mkUpdateSpec Table Columns None (m_predicates m) (set_fields m) (add_fields m) (clear_fields m).

Definition update_error (e : sqlerr) : error :=
  match e with
  | SgNotFound => NotFoundError Label
  | e => constraint_error e
  end.

Definition pru_sqlSave (b : ProofRequestUpdate) : prog (Z * ProofRequestMutation) :=
  match pru_check (pru_mutation b) with
  | Some err => Raise err
  | None =>
      r ← db (SqlUpdateNodes (pru_driver b) (pru_updateSpec (pru_mutation b)));
      match r with
      | inl e => Raise (update_error e)
      | inr n => Ret (n, upd_done true (pru_mutation b))
      end
  end.

Definition pru_Save (b : ProofRequestUpdate) : prog Z := r ← pru_sqlSave b; Ret (fst r).
Definition pru_Exec (b : ProofRequestUpdate) : prog unit := _ ← pru_Save b; Ret tt.

(** ** Update of one entity *)

Record ProofRequestUpdateOne := mkUpdateOne {
  pruo_driver : Handle;
  pruo_fields : list string;
  pruo_mutation : ProofRequestMutation;
}.

Definition on_update_one (f : ProofRequestMutation → ProofRequestMutation) (b : ProofRequestUpdateOne) :=
  mkUpdateOne (pruo_driver b) (pruo_fields b) (f (pruo_mutation b)).

Definition Client_UpdateOne (h : Handle) (pr : ProofRequest) : ProofRequestUpdateOne :=
  mkUpdateOne h [] (newProofRequestMutation OpUpdateOne [withProofRequest pr]).
Definition Client_UpdateOneID (h : Handle) (id : Z) : ProofRequestUpdateOne :=
  mkUpdateOne h [] (newProofRequestMutation OpUpdateOne [withProofRequestID id]).

Definition pruo_Where ps := on_update_one (Mut_Where ps).
Definition pruo_Select (field : string) (fields : list string) (b : ProofRequestUpdateOne) :=
  mkUpdateOne (pruo_driver b) (field :: fields) (pruo_mutation b).
Definition pruo_SetType v := on_update_one (SetType v).
Definition pruo_SetStartBlock u := on_update_one (λ m, SetStartBlock u (ResetStartBlock m)).
Definition pruo_AddStartBlock u := on_update_one (AddStartBlock u).
Definition pruo_SetEndBlock u := on_update_one (λ m, SetEndBlock u (ResetEndBlock m)).
Definition pruo_AddEndBlock u := on_update_one (AddEndBlock u).
Definition pruo_SetStatus v := on_update_one (SetStatus v).
Definition pruo_SetRequestAddedTime u := on_update_one (λ m, SetRequestAddedTime u (ResetRequestAddedTime m)).
Definition pruo_AddRequestAddedTime u := on_update_one (AddRequestAddedTime u).
Definition pruo_SetProverRequestID v := on_update_one (SetProverRequestID v).
Definition pruo_ClearProverRequestID := on_update_one ClearProverRequestID.
Definition pruo_SetProofRequestTime u := on_update_one (λ m, SetProofRequestTime u (ResetProofRequestTime m)).
Definition pruo_AddProofRequestTime u := on_update_one (AddProofRequestTime u).
Definition pruo_ClearProofRequestTime := on_update_one ClearProofRequestTime.
Definition pruo_SetLastUpdatedTime u := on_update_one (λ m, SetLastUpdatedTime u (ResetLastUpdatedTime m)).
Definition pruo_AddLastUpdatedTime u := on_update_one (AddLastUpdatedTime u).
Definition pruo_SetL1BlockNumber u := on_update_one (λ m, SetL1BlockNumber u (ResetL1BlockNumber m)).
Definition pruo_AddL1BlockNumber u := on_update_one (AddL1BlockNumber u).
Definition pruo_ClearL1BlockNumber := on_update_one ClearL1BlockNumber.
Definition pruo_SetL1BlockHash v := on_update_one (SetL1BlockHash v).
Definition pruo_ClearL1BlockHash := on_update_one ClearL1BlockHash.
Definition pruo_SetProof v := on_update_one (SetProof v).
Definition pruo_ClearProof := on_update_one ClearProof.

(** Both builders run the same checks. *)
Definition pruo_check (m : ProofRequestMutation) : option error :=
  first_error [validate "type" TypeValidator (GetType m);
               validate "status" StatusValidator (Mut_Status m)].

Definition invalid_field (f : string) : error :=
  ValidationError f (Errorf "ent: invalid field %q for query" [AStr f]).

(** The selected columns: the id first, then the fields in order. *)
Fixpoint select_fields (fs : list string) : error + list string :=
  match fs with
  | [] => inr []
  | f :: fs' =>
      if ValidColumn f then
        match select_fields fs' with
        | inl e => inl e
        | inr cs => inr (if bool_decide (f = FieldID) then cs else f :: cs)
        end
      else inl (invalid_field f)
  end.

Definition pruo_columns (fs : list string) : error + list string :=
  match fs with
  | [] => inr Columns
  | _ => match select_fields fs with inl e => inl e | inr cs => inr (FieldID :: cs) end
  end.

Definition pruo_updateSpec (id : Z) (columns : list string) (m : ProofRequestMutation) : UpdateSpec :=
  mkUpdateSpec Table columns (Some id) (m_predicates m) (set_fields m) (add_fields m) (clear_fields m).

Definition pruo_sqlSave (b : ProofRequestUpdateOne) : prog (ProofRequest * ProofRequestMutation) :=
  let m := pruo_mutation b in
  match pruo_check m with
  | Some err => Raise err
  | None =>
      match Mut_ID m with
      | None => Raise (ValidationError "id" (Errorf "ent: missing %q for update" [AStr "ProofRequest.id"]))
      | Some id =>
          match pruo_columns (pruo_fields b) with
          | inl err => Raise err
          | inr columns =>
              r ← db (SqlUpdateNode (pruo_driver b) (pruo_updateSpec id columns m));
              match r with
              | inl e => Raise (update_error e)
              | inr cells =>
                  node ← lift (scan_node columns cells);
                  Ret (node, upd_done true m)
              end
          end
      end
  end.

Definition pruo_Save (b : ProofRequestUpdateOne) : prog ProofRequest := r ← pruo_sqlSave b; Ret (fst r).
Definition pruo_Exec (b : ProofRequestUpdateOne) : prog unit := _ ← pruo_Save b; Ret tt.

(** ** Delete *)

Record ProofRequestDelete := mkDelete {
  prd_driver : Handle;
  prd_mutation : ProofRequestMutation;
}.

Definition Client_Delete (h : Handle) : ProofRequestDelete :=
  mkDelete h (newProofRequestMutation OpDelete []).
Definition prd_Where ps (b : ProofRequestDelete) :=
  mkDelete (prd_driver b) (Mut_Where ps (prd_mutation b)).
Definition Client_DeleteOneID (h : Handle) (id : Z) : ProofRequestDelete :=
  let b := prd_Where [ID id] (Client_Delete h) in
  mkDelete (prd_driver b) (SetOp OpDeleteOne (upd_id (Some id) (prd_mutation b))).
Definition Client_DeleteOne (h : Handle) (pr : ProofRequest) := Client_DeleteOneID h (pr_ID pr).

Definition prd_Exec (b : ProofRequestDelete) : prog Z :=
  r ← db (SqlDelete (prd_driver b) (mkDeleteSpec Table (m_predicates (prd_mutation b))));
  match r with
  | inl e => Raise (constraint_error e)
  | inr n => Ret n
  end.

Definition prdo_Exec (b : ProofRequestDelete) : prog unit :=
  n ← prd_Exec b;
  if n =? 0 then Raise (NotFoundError Label) else Ret tt.

(** ** Query *)

Record ProofRequestQuery := mkQuery {
  prq_driver : Handle;
  prq_fields : list string;
  prq_limit : option Z;
  prq_offset : option Z;
  prq_unique : option bool;
  prq_order : list OrderTerm;
  prq_predicates : list predicate;
}.

Definition Client_Query (h : Handle) : ProofRequestQuery := mkQuery h [] None None None [] [].

Definition prq_Where ps q := let 'mkQuery h f l o u ord p := q in mkQuery h f l o u ord (p ++ ps).
Definition prq_Limit n q := let 'mkQuery h f _ o u ord p := q in mkQuery h f (Some n) o u ord p.
Definition prq_Offset n q := let 'mkQuery h f l _ u ord p := q in mkQuery h f l (Some n) u ord p.
Definition prq_Unique b q := let 'mkQuery h f l o _ ord p := q in mkQuery h f l o (Some b) ord p.
Definition prq_Order ts q := let 'mkQuery h f l o u ord p := q in mkQuery h f l o u (ord ++ ts) p.
Definition prq_Select fs q := let 'mkQuery h f l o u ord p := q in mkQuery h (f ++ fs) l o u ord p.
Definition prq_Clone (q : ProofRequestQuery) : ProofRequestQuery := q.

Definition prq_prepareQuery (q : ProofRequestQuery) : option error :=
  first_error ((λ f, if ValidColumn f then None else Some (invalid_field f)) <$> prq_fields q).

Definition prq_columns (fs : list string) : list string :=
  match fs with
  | [] => Columns
  | _ => FieldID :: filter (λ f, f ≠ FieldID) fs
  end.

Definition prq_querySpec (q : ProofRequestQuery) : QuerySpec :=
  mkQuerySpec Table (prq_columns (prq_fields q)) (default false (prq_unique q)) (prq_predicates q)
    (default 0 (prq_limit q)) (default 0 (prq_offset q)) (prq_order q).

(** [Selector.Err]: the errors that were added to a selector, as one, whose text
    is not kept. *)
Definition selector_Err (errs : list error) : option error :=
  match errs with [] => None | _ => Some (Errorf "sql: selector" []) end.

(** An error an order option left in the selector is returned by the library
    before the query is sent. *)
Definition prq_sqlAll (q : ProofRequestQuery) : prog (list ProofRequest) :=
  match selector_Err (omap ot_err (prq_order q)) with
  | Some err => Raise err
  | None =>
      r ← db (SqlQuery (prq_driver q) (prq_querySpec q));
      match r with
      | inl e => Raise (ESql e)
      | inr rows => lift (scan_nodes (qs_columns (prq_querySpec q)) rows)
      end
  end.

Definition prq_sqlCount (q : ProofRequestQuery) : prog Z :=
  let s := prq_querySpec q in
  let s := mkQuerySpec (qs_table s) (prq_fields q) (qs_unique s) (qs_predicate s)
             (qs_limit s) (qs_offset s) (qs_order s) in
  r ← db (SqlCount (prq_driver q) s);
  match r with
  | inl e => Raise (ESql e)
  | inr n => Ret n
  end.

Definition prq_All (q : ProofRequestQuery) : prog (list ProofRequest) :=
  _ ← lift_err (prq_prepareQuery q);
  prq_sqlAll q.

Definition prq_Count (q : ProofRequestQuery) : prog Z :=
  _ ← lift_err (prq_prepareQuery q);
  prq_sqlCount q.

Definition prq_First (q : ProofRequestQuery) : prog ProofRequest :=
  nodes ← prq_All (prq_Limit 1 q);
  match nodes with
  | [] => Raise (NotFoundError Label)
  | n :: _ => Ret n
  end.

Definition prq_Only (q : ProofRequestQuery) : prog ProofRequest :=
  nodes ← prq_All (prq_Limit 2 q);
  match nodes with
  | [n] => Ret n
  | [] => Raise (NotFoundError Label)
  | _ => Raise (NotSingularError Label)
  end.

Definition Client_Get (h : Handle) (id : Z) : prog ProofRequest :=
  prq_Only (prq_Where [ID id] (Client_Query h)).

(** ** Transactions *)

(** [Client.Tx] of the write client; a transactional client (one whose driver
    is a [txDriver]) refuses to start another. *)
Definition Client_Tx (transactional : bool) : prog unit :=
  if transactional then Raise ErrTxStarted
  else
    r ← db (TxBegin None);
    match r with
    | inl e => Raise (Wrapf "ent: starting a transaction: %w" [] (ESql e))
    | inr _ => Ret tt
    end.

Definition Tx_Commit : prog unit :=
  r ← db TxCommit;
  match r with inl e => Raise (ESql e) | inr _ => Ret tt end.

Definition Tx_Rollback : prog unit :=
  r ← db TxRollback;
  match r with inl e => Raise (ESql e) | inr _ => Ret tt end.

(** ** What the builders do to the table *)

Section specs.
Context `{SqlLaws, External}.
Implicit Types (w : World).

(** One operation through the read client. *)
Lemma read_handle {A} (f : store → (sqlerr + A) * store) w (P : sqlerr + A → World → Prop) :
  (∀ r s, f (w_db w) = (r, s) → P r (with_db s w)) →
  P (inl db_closed) w →
  match on_handle HRead f w with Some (r, w') => P r w' | None => False end.
Proof.
  intros Hf Hc. simpl. destruct (w_ropen w); [|done].
  destruct (f (w_db w)) as [r s] eqn:E. by apply Hf.
Qed.

(** One operation through the write client, when no transaction is open. *)
Lemma write_handle {A} (f : store → (sqlerr + A) * store) w (P : sqlerr + A → World → Prop) :
  w_tx w = None →
  (∀ r s, f (w_db w) = (r, s) → P r (with_db s w)) →
  P (inl db_closed) w →
  match on_handle HWrite f w with Some (r, w') => P r w' | None => False end.
Proof.
  intros Ht Hf Hc. simpl. rewrite Ht. destruct (w_wopen w); [|done].
  destruct (f (w_db w)) as [r s] eqn:E. by apply Hf.
Qed.

Lemma returns_db {R} (c : DbCmd R) w (P : R → World → Prop) E :
  match exec_db c w with Some (r, w') => P r w' | None => False end →
  returns (db c) w P E.
Proof. intros HP. unfold returns, wp. rewrite run_db. by destruct (exec_db c w) as [[]|]. Qed.

Lemma returns_fst {A B} (p : prog (A * B)) w (P : A → World → Prop) E :
  returns p w (λ r, P (fst r)) E → returns (r ← p; Ret (fst r)) w P E.
Proof. intros HP. by eapply returns_bind; [exact HP| |]. Qed.

Lemma frame_with_db s w : frame w (with_db s w).
Proof. by destruct w. Qed.
Lemma rows_with_db s w : rows (with_db s w) = sg_rows s.
Proof. by destruct w. Qed.

Lemma returns_all q w P E :
  prq_driver q = HRead → prq_unique q = None → prq_fields q = [] →
  selector_Err (omap ot_err (prq_order q)) = None →
  (∀ l w', frame w w' → rows w' = rows w → query_rows (prq_querySpec q) (rows w) l →
           P (entity <$> l) w') →
  (∀ e w', frame w w' → rows w' = rows w → E (ESql e) w') →
  returns (prq_All q) w P E.
Proof.
  destruct q as [h fs lim off un ord ps]. simpl. intros -> -> -> Ho HP HE.
  unfold prq_All, prq_prepareQuery, prq_sqlAll. cbn -[db]. rewrite Ho.
  eapply (returns_bind _ _ _ (λ r w', frame w w' ∧ rows w' = rows w ∧
    match r with
    | inl e => True
    | inr cells => ∃ l, query_rows (prq_querySpec (mkQuery HRead [] lim off None ord ps)) (rows w) l ∧
                        cells = select_cols Columns <$> l
    end) (λ _ _, False)).
  - apply returns_db. cbn -[on_handle]. apply read_handle; [|done].
    intros r s Hq. rewrite rows_with_db. split; [apply frame_with_db|]. destruct r as [e|cells].
    + by apply sg_query_err in Hq.
    + apply sg_query_ok in Hq as [? (l & ? & ?)]; [|done]. eauto.
  - intros [e|cells] w' (Hf & Hr & Hl); [by apply HE|].
    destruct Hl as (l & Hl & ->). apply returns_lift.
    change (prq_columns _) with Columns. rewrite scan_nodes_full. by apply HP.
  - done.
Qed.

Lemma returns_count q w P E :
  prq_driver q = HRead → prq_fields q = [] → prq_limit q = None → prq_offset q = None →
  (∀ w', frame w w' → rows w' = rows w →
         P (Z.of_nat (length (matching (prq_predicates q) (rows w)))) w') →
  (∀ e w', frame w w' → rows w' = rows w → E (ESql e) w') →
  returns (prq_Count q) w P E.
Proof.
  destruct q as [h fs lim off un ord ps]. simpl. intros -> -> -> -> HP HE.
  unfold prq_Count, prq_prepareQuery, prq_sqlCount. cbn -[db].
  eapply (returns_bind _ _ _ (λ r w', frame w w' ∧ rows w' = rows w ∧
    match r with
    | inl e => True
    | inr n => n = Z.of_nat (length (matching ps (rows w)))
    end) (λ _ _, False)).
  - apply returns_db. cbn -[on_handle]. apply read_handle; [|done].
    intros r s Hq. rewrite rows_with_db. split; [apply frame_with_db|]. destruct r as [e|n].
    + by apply sg_count_err in Hq.
    + by apply sg_count_ok in Hq.
  - intros [e|n] w' (Hf & Hr & Hl); [by apply HE|]. subst n. by apply HP.
  - done.
Qed.

Lemma returns_create b w P E :
  prc_driver b = HWrite → w_tx w = None → prc_check (prc_mutation b) = None →
  (∀ id r w', frame w w' → 0 < id < two63 → (∀ r', r' ∈ rows w → row_id r' ≠ id) →
     build_row id (cs_fields (prc_createSpec (prc_mutation b)).2) = Some r →
     rows w' = rows w ++ [r] → P (set_ID id (prc_createSpec (prc_mutation b)).1) w') →
  (∀ e w', frame w w' → rows w' = rows w → E (constraint_error e) w') →
  returns (prc_Save b) w P E.
Proof.
  intros Hh Ht Hc HP HE. unfold prc_Save, prc_sqlSave. rewrite Hc, Hh.
  destruct (prc_createSpec (prc_mutation b)) as [node spec]. simpl in HP.
  apply returns_fst.
  eapply (returns_bind _ _ _ (λ r w', frame w w' ∧
    match r with
    | inl e => rows w' = rows w
    | inr id => 0 < id < two63 ∧ (∀ r', r' ∈ rows w → row_id r' ≠ id) ∧
                ∃ r, build_row id (cs_fields spec) = Some r ∧ rows w' = rows w ++ [r]
    end) (λ _ _, False)).
  - apply returns_db. cbn -[on_handle]. apply write_handle; [done| |done].
    intros r s Hq. rewrite rows_with_db. split; [apply frame_with_db|]. destruct r as [e|id].
    + by apply sg_create_err in Hq.
    + by apply sg_create_ok in Hq.
  - intros [e|id] w' (Hf & Hr); [by apply HE|].
    destruct Hr as (? & ? & r & ? & ?). by eapply HP.
  - done.
Qed.

Lemma returns_update b w P E :
  pru_driver b = HWrite → w_tx w = None → pru_check (pru_mutation b) = None →
  (∀ w', frame w w' → update_rows (pru_updateSpec (pru_mutation b)) (rows w) = Some (rows w') →
     P (Z.of_nat (length (matching (m_predicates (pru_mutation b)) (rows w)))) w') →
  (∀ e w', frame w w' → rows w' = rows w → E (update_error e) w') →
  returns (pru_Save b) w P E.
Proof.
  intros Hh Ht Hc HP HE. unfold pru_Save, pru_sqlSave. rewrite Hc, Hh.
  apply returns_fst.
  eapply (returns_bind _ _ _ (λ r w', frame w w' ∧
    match r with
    | inl e => rows w' = rows w
    | inr n => update_rows (pru_updateSpec (pru_mutation b)) (rows w) = Some (rows w') ∧
               n = Z.of_nat (length (matching (m_predicates (pru_mutation b)) (rows w)))
    end) (λ _ _, False)).
  - apply returns_db. cbn -[on_handle pru_updateSpec]. apply write_handle; [done| |done].
    intros r s Hq. rewrite rows_with_db. split; [apply frame_with_db|]. destruct r as [e|n].
    + by apply sg_update_nodes_err in Hq.
    + by apply sg_update_nodes_ok in Hq.
  - intros [e|n] w' (Hf & Hr); [by apply HE|]. destruct Hr as [? ->]. by apply HP.
  - done.
Qed.

Lemma returns_first q w P E :
  prq_driver q = HRead → prq_unique q = None → prq_fields q = [] → prq_offset q = None →
  selector_Err (omap ot_err (prq_order q)) = None →
  (∀ r l w', frame w w' → rows w' = rows w →
     r :: l ≡ₚ matching (prq_predicates q) (rows w) → Sorted (order_le (prq_order q)) (r :: l) →
     P (entity r) w') →
  (∀ w', frame w w' → rows w' = rows w → matching (prq_predicates q) (rows w) = [] →
     E (NotFoundError Label) w') →
  (∀ e w', frame w w' → rows w' = rows w → E (ESql e) w') →
  returns (prq_First q) w P E.
Proof.
  destruct q as [h fs lim off un ord ps]. simpl. intros -> -> -> -> Ho HP HN HE. unfold prq_First.
  eapply (returns_bind _ _ _ (λ l w', frame w w' ∧ rows w' = rows w ∧
    ∃ full, full ≡ₚ matching ps (rows w) ∧ Sorted (order_le ord) full ∧
            l = entity <$> take 1 full) (λ e w', ∃ e', e = ESql e' ∧ frame w w' ∧ rows w' = rows w)).
  - apply returns_all; [done..| |by eauto]. simpl.
    intros l w' Hf Hr (full & Hp & Hs & ->). split; [done|]. split; [done|].
    exists full. simpl in *. split; [done|]. split; [done|]. by destruct full.
  - intros l w' (Hf & Hr & full & Hp & Hs & ->). destruct full as [|r full]; simpl.
    + apply HN; [done..|]. symmetry in Hp. by apply Permutation_nil_r in Hp.
    + by eapply HP.
  - intros e w' (e' & -> & ? & ?). by apply HE.
Qed.

Lemma returns_only ps w P E :
  (∀ r w', frame w w' → rows w' = rows w → matching ps (rows w) = [r] → P (entity r) w') →
  (∀ e w', frame w w' → rows w' = rows w → E e w') →
  returns (prq_Only (prq_Where ps (Client_Query HRead))) w P E.
Proof.
  intros HP HE. unfold prq_Only.
  eapply (returns_bind _ _ _ (λ l w', frame w w' ∧ rows w' = rows w ∧
    ∃ full, full ≡ₚ matching ps (rows w) ∧ l = entity <$> take 2 full) E).
  - apply returns_all; [done..| |by eauto].
    intros l w' Hf Hr (full & Hp & _ & ->). eauto 10.
  - intros l w' (Hf & Hr & full & Hp & ->).
    destruct full as [|r [|r' full]]; simpl; [by apply HE| |by apply HE].
    apply HP; [done..|]. symmetry in Hp. by apply Permutation_singleton_r in Hp.
  - done.
Qed.

(** *** Inside a transaction

    [in_tx w w' t]: [w'] is [w] but for the outside world and its open
    transaction, whose working copy is now [t]. *)
Definition in_tx (w w' : World) (t : store) : Prop :=
  frame (with_tx None w) (with_tx None w') ∧ rows w' = rows w ∧ w_tx w' = Some t.

Lemma in_tx_refl w t : w_tx w = Some t → in_tx w w t.
Proof. done. Qed.

Lemma in_tx_trans w1 w2 w3 t t' : in_tx w1 w2 t → in_tx w2 w3 t' → in_tx w1 w3 t'.
Proof.
  intros (F1 & R1 & _) (F2 & R2 & T2). split; [by etrans|]. split; [by rewrite R2|done].
Qed.

Lemma in_tx_frame w1 w2 w3 t : in_tx w1 w2 t → frame w2 w3 → rows w3 = rows w2 → in_tx w1 w3 t.
Proof.
  intros (F1 & R1 & T1) F2 R2. split; [|split].
  - destruct w2, w3. unfold frame in *. simpl in *. destruct w1; simpl in *. intuition congruence.
  - by rewrite R2.
  - destruct F2 as (_ & _ & -> & _). done.
Qed.

Lemma in_tx_with_tx w t t' : w_tx w = Some t → in_tx w (with_tx (Some t') w) t'.
Proof. destruct w. intros. by repeat split. Qed.

(** One operation through the client of an open transaction. *)
Lemma tx_handle {A} (f : store → (sqlerr + A) * store) w t (P : sqlerr + A → World → Prop) :
  w_tx w = Some t →
  (∀ r s, f t = (r, s) → P r (with_tx (Some s) w)) →
  match on_handle HTx f w with Some (r, w') => P r w' | None => False end.
Proof. intros Ht Hf. simpl. rewrite Ht. destruct (f t) as [r s] eqn:E. by apply Hf. Qed.

Lemma returns_only_tx ps w t P E :
  w_tx w = Some t →
  (∀ r w' t', in_tx w w' t' → sg_rows t' = sg_rows t → matching ps (sg_rows t) = [r] →
     P (entity r) w') →
  (∀ e w' t', in_tx w w' t' → sg_rows t' = sg_rows t → E e w') →
  returns (prq_Only (prq_Where ps (Client_Query HTx))) w P E.
Proof.
  intros Ht HP HE. unfold prq_Only.
  eapply (returns_bind _ _ _ (λ l w', ∃ t', in_tx w w' t' ∧ sg_rows t' = sg_rows t ∧
    ∃ full, full ≡ₚ matching ps (sg_rows t) ∧ l = entity <$> take 2 full)
    (λ e w', ∃ t', in_tx w w' t' ∧ sg_rows t' = sg_rows t)).
  - unfold prq_All, prq_prepareQuery, prq_sqlAll. cbn -[db].
    eapply (returns_bind _ _ _ (λ r w', ∃ t', in_tx w w' t' ∧ sg_rows t' = sg_rows t ∧
      match r with
      | inl e => True
      | inr cells => ∃ full, full ≡ₚ matching ps (sg_rows t) ∧
                             cells = select_cols Columns <$> take 2 full
      end) (λ _ _, False)).
    + apply returns_db. cbn -[on_handle]. eapply tx_handle; [done|].
      intros r s Hq. exists s. split; [by eapply in_tx_with_tx|]. destruct r as [e|cells].
      * by apply sg_query_err in Hq.
      * apply sg_query_ok in Hq as [? (l & (full & ? & ? & ->) & ->)]; [|done]. eauto.
    + intros [e|cells] w' (t' & Hf & Hr & Hl); [by exists t'|].
      destruct Hl as (l & Hl & ->). apply returns_lift.
      change (prq_columns _) with Columns. rewrite scan_nodes_full. eauto 10.
    + done.
  - intros l w' (t' & Hf & Hr & full & Hp & ->).
    destruct full as [|r [|r' full]]; simpl; [by eapply HE| |by eapply HE].
    eapply HP; [done..|]. symmetry in Hp. by apply Permutation_singleton_r in Hp.
  - intros e w' (t' & Hf & Hr). by eapply HE.
Qed.

Lemma returns_update_one_tx b id w t P E :
  w_tx w = Some t → pruo_driver b = HTx → pruo_fields b = [] →
  Mut_ID (pruo_mutation b) = Some id → pruo_check (pruo_mutation b) = None →
  (∀ a w' t', in_tx w w' t' →
     update_rows (pruo_updateSpec id Columns (pruo_mutation b)) (sg_rows t) = Some (sg_rows t') →
     P a w') →
  (∀ e w' t', in_tx w w' t' → E e w') →
  returns (pruo_Save b) w P E.
Proof.
  intros Ht Hh Hfs Hid Hc HP HE. unfold pruo_Save, pruo_sqlSave. cbv zeta. rewrite Hc, Hid, Hfs, Hh.
  apply returns_fst. cbn [pruo_columns].
  eapply (returns_bind _ _ _ (λ r w', ∃ t', in_tx w w' t' ∧
    match r with
    | inl e => True
    | inr cells =>
        update_rows (pruo_updateSpec id Columns (pruo_mutation b)) (sg_rows t) = Some (sg_rows t')
    end) (λ _ _, False)).
  - apply returns_db. cbn -[on_handle pruo_updateSpec]. eapply tx_handle; [done|].
    intros r s Hq. exists s. split; [by eapply in_tx_with_tx|]. destruct r as [e|cells]; [done|].
    by apply sg_update_node_ok in Hq as [? _].
  - intros [e|cells] w' (t' & Hf & Hr); [by eapply HE|].
    eapply (returns_bind _ _ _ (λ _ w'', w'' = w') (λ _ w'', w'' = w')).
    + apply returns_lift. by destruct (scan_node Columns cells).
    + intros a w'' ->. by eapply HP.
    + intros e w'' ->. by eapply HE.
  - done.
Qed.

Lemma begin_cases o w :
  w_tx w = None →
  match exec_db (TxBegin o) w with
  | Some (inl e, w') => frame w w' ∧ rows w' = rows w
  | Some (inr _, w') => ∃ t, in_tx w w' t ∧ sg_rows t = rows w
  | None => False
  end.
Proof.
  intros Ht. cbn. rewrite Ht. destruct (w_wopen w); [|done]. destruct (sg_begin o (w_db w)) as [[e|t] s] eqn:Hb.
  - apply sg_begin_err in Hb. rewrite rows_with_db. split; [apply frame_with_db|done].
  - apply sg_begin_ok in Hb as [Hb Hs]. exists t. destruct w; simpl in *. split; [|done]. by repeat split.
Qed.

Lemma returns_begin w P E :
  w_tx w = None →
  (∀ w' t, in_tx w w' t → sg_rows t = rows w → P tt w') →
  (∀ e w', frame w w' → rows w' = rows w → E e w') →
  returns (Client_Tx false) w P E.
Proof.
  intros Ht HP HE. unfold Client_Tx.
  eapply (returns_bind _ _ _ (λ r w', 
    match r with
    | inl e => frame w w' ∧ rows w' = rows w
    | inr _ => ∃ t, in_tx w w' t ∧ sg_rows t = rows w
    end) (λ _ _, False)).
  - apply returns_db. pose proof (begin_cases None w Ht) as Hb. by destruct (exec_db _ w) as [[[e|[]] w']|].
  - intros [e|[]] w'; [intros [??]; by apply HE|]. intros (t & ? & ?). by eapply HP.
  - done.
Qed.

Lemma returns_commit w t P E :
  w_tx w = Some t →
  (∀ w', frame (with_tx None w) w' → rows w' = sg_rows t → P tt w') →
  (∀ e w', frame (with_tx None w) w' → rows w' = rows w → E e w') →
  returns Tx_Commit w P E.
Proof.
  intros Ht HP HE. unfold Tx_Commit.
  eapply (returns_bind _ _ _ (λ r w', frame (with_tx None w) w' ∧
    match r with
    | inl e => rows w' = rows w
    | inr _ => rows w' = sg_rows t
    end) (λ _ _, False)).
  - apply returns_db. cbn. rewrite Ht. destruct (sg_commit t (w_db w)) as [r s] eqn:Hc.
    split; [by destruct w|]. destruct r as [e|[]].
    + apply sg_commit_err in Hc. by destruct w.
    + apply sg_commit_ok in Hc. by destruct w.
  - intros [e|[]] w' [Hf Hr]; [by apply HE|by apply HP].
  - done.
Qed.

(** A deferred rollback, its error dropped: the transaction, if it is still
    open, is closed and nothing of it remains. *)
Lemma returns_rollback w (P : World → Prop) :
  P (with_tx None w) → returns (_ ← attempt Tx_Rollback; Ret tt) w (λ _, P) (λ _ _, False).
Proof.
  intros HP. unfold Tx_Rollback, returns, wp. rewrite run_bind, run_attempt, run_bind, run_db. cbn.
  destruct w as [s wo ro tx x m d ts tr]. simpl in *. by destruct tx.
Qed.

End specs.
