(* ===== verification/Select.v ===== *)
(** * Selections and groups ([proofrequest_query.go], [ent.go])

    [Select], [GroupBy] and [Aggregate] of a query, the aggregation functions,
    the statement that [sqlScan] builds from them, and the helpers of one
    column.  What a statement means is [Sql.select_rows]; [sql.ScanSlice], which
    reads its rows into a slice, is a parameter. *)

From Stdlib Require Import ZArith Lia.
From S2P Require Import Prelude Sql ProofRequest Metrics Encoding Prog Types Script Mutation Builders.

Local Open Scope string_scope.
Local Open Scope Z_scope.

(** ** The statement of a query *)

Definition sel_AddError (err : error) (s : Selector) : Selector :=
  let 'mkSelect t cs d p o g l f es := s in mkSelect t cs d p o g l f (es ++ [err])%list.
Definition sel_Select (cs : list SelExpr) (s : Selector) : Selector :=
  let 'mkSelect t _ d p o g l f es := s in mkSelect t cs d p o g l f es.
Definition sel_AppendSelect (cs : list SelExpr) (s : Selector) : Selector :=
  let 'mkSelect t cs0 d p o g l f es := s in mkSelect t (cs0 ++ cs)%list d p o g l f es.
Definition sel_GroupBy (cs : list string) (s : Selector) : Selector :=
  let 'mkSelect t cs0 d p o g l f es := s in mkSelect t cs0 d p o (g ++ cs)%list l f es.

(** [sqlQuery]: the selected fields or all columns, and a limit beside every
    offset.  There are no edges to come from. *)
Definition prq_sqlQuery (q : ProofRequestQuery) : Selector :=
  mkSelect Table (EColumn <$> match prq_fields q with [] => Columns | fs => fs end) (default false (prq_unique q))
    (prq_predicates q) (prq_order q) []
    (match prq_limit q, prq_offset q with
     | Some n, _ => Some n
     | None, Some _ => Some 2147483647
     | None, None => None
     end)
    (prq_offset q) (omap ot_err (prq_order q)).

(** ** Aggregation functions *)

(** One gives the expression to select, and may change the statement. *)
Definition AggregateFunc := Selector → SelExpr * Selector.

Definition As (fn : AggregateFunc) (end_ : string) : AggregateFunc := λ s, let '(e, s) := fn s in (EAs e end_, s).
Definition Count : AggregateFunc := λ s, (ECount, s).

(** An unknown column is an error of the statement, and the expression is
    empty. *)
Definition on_column (f : string → SelExpr) (field : string) : AggregateFunc := λ s,
  match checkColumn (sel_table s) field with
  | Some err => (EEmpty, sel_AddError (ValidationError field (Wrapf "ent: %w" [] err)) s)
  | None => (f field, s)
  end.
Definition Max : string → AggregateFunc := on_column EMax.
Definition Mean : string → AggregateFunc := on_column EAvg.
Definition Min : string → AggregateFunc := on_column EMin.
Definition Sum : string → AggregateFunc := on_column ESum.

Fixpoint run_fns (fns : list AggregateFunc) (s : Selector) : list SelExpr * Selector :=
  match fns with
  | [] => ([], s)
  | fn :: fns' =>
      let '(e, s) := fn s in
      let '(es, s) := run_fns fns' s in (e :: es, s)
  end.

(** ** Selections *)

(** The columns of the rows, and the rows, as a slice of [A]. *)
Definition Scanner A := list SelExpr → list (list (option sqlval)) → error + list A.

(** [driver.Query] *)
Definition driver_Query (h : Handle) (s : Selector) : prog (list (list (option sqlval))) :=
  r ← db (SqlSelect h s);
  match r with inl e => Raise (ESql e) | inr rows => Ret rows end.

(** [flds] of a selection and of a group-by is the fields of its query. *)
Record ProofRequestSelect := mkPrs { prs_query : ProofRequestQuery; prs_fns : list AggregateFunc }.
Record ProofRequestGroupBy := mkPrgb { prgb_build : ProofRequestQuery; prgb_fns : list AggregateFunc }.

Definition prq_Selection (fields : list string) (q : ProofRequestQuery) : ProofRequestSelect :=
  mkPrs (prq_Select fields q) [].
Definition prs_Aggregate (fns : list AggregateFunc) (b : ProofRequestSelect) : ProofRequestSelect :=
  mkPrs (prs_query b) (prs_fns b ++ fns)%list.
Definition prq_Aggregate (fns : list AggregateFunc) (q : ProofRequestQuery) : ProofRequestSelect :=
  prs_Aggregate fns (prq_Selection [] q).

Definition prq_GroupBy (field : string) (fields : list string) (q : ProofRequestQuery) : ProofRequestGroupBy :=
  let 'mkQuery h _ l o u ord p := q in mkPrgb (mkQuery h (field :: fields) l o u ord p) [].
Definition prgb_Aggregate (fns : list AggregateFunc) (b : ProofRequestGroupBy) : ProofRequestGroupBy :=
  mkPrgb (prgb_build b) (prgb_fns b ++ fns)%list.

(** The errors of the statement are not looked at. *)
Definition prs_selector (b : ProofRequestSelect) : Selector :=
  let '(aggregation, s) := run_fns (prs_fns b) (prq_sqlQuery (prs_query b)) in
  match prq_fields (prs_query b), aggregation with
  | _, [] => s
  | [], _ => sel_Select aggregation s
  | _, _ => sel_AppendSelect aggregation s
  end.

Definition prs_sqlScan {A} (ScanSlice : Scanner A) (b : ProofRequestSelect) : prog (list A) :=
  rows ← driver_Query (prq_driver (prs_query b)) (prs_selector b);
  lift (ScanSlice (sel_columns (prs_selector b)) rows).

Definition prs_Scan {A} (ScanSlice : Scanner A) (b : ProofRequestSelect) : prog (list A) :=
  _ ← lift_err (prq_prepareQuery (prs_query b));
  prs_sqlScan ScanSlice b.

(** A function may select columns of its own, and then nothing else is. *)
Definition prgb_selector (b : ProofRequestGroupBy) : Selector :=
  let flds := prq_fields (prgb_build b) in
  let '(aggregation, s) := run_fns (prgb_fns b) (sel_Select [] (prq_sqlQuery (prgb_build b))) in
  let s := match sel_columns s with [] => sel_Select ((EColumn <$> flds) ++ aggregation)%list s | _ => s end in
  sel_GroupBy flds s.

Definition prgb_sqlScan {A} (ScanSlice : Scanner A) (b : ProofRequestGroupBy) : prog (list A) :=
  _ ← lift_err (selector_Err (sel_errs (prgb_selector b)));
  rows ← driver_Query (prq_driver (prgb_build b)) (prgb_selector b);
  lift (ScanSlice (sel_columns (prgb_selector b)) rows).

Definition prgb_Scan {A} (ScanSlice : Scanner A) (b : ProofRequestGroupBy) : prog (list A) :=
  _ ← lift_err (prq_prepareQuery (prgb_build b));
  prgb_sqlScan ScanSlice b.

(** ** One column *)

(** The [selector] that both builders embed. *)
Record selector A := mkSelector {
  s_label : string;
  s_flds : list string;
  s_scan : prog (list A);
}.
Arguments mkSelector {A}.
Arguments s_label {A}.
Arguments s_flds {A}.
Arguments s_scan {A}.

Definition prs_embedded {A} (ScanSlice : Scanner A) (b : ProofRequestSelect) : selector A :=
  mkSelector Label (prq_fields (prs_query b)) (prs_Scan ScanSlice b).
Definition prgb_embedded {A} (ScanSlice : Scanner A) (b : ProofRequestGroupBy) : selector A :=
  mkSelector Label (prq_fields (prgb_build b)) (prgb_Scan ScanSlice b).

(** The helpers of one column, for the slices and the single values of a type;
    [name] is how the error names the method. *)
Definition sel_slice {A} (name : string) (s : selector A) : prog (list A) :=
  if decide (1 < length (s_flds s))%nat
  then Raise (Errorf ("ent: " ++ name ++ " is not achievable when selecting more than 1 field") [])
  else s_scan s.

Definition sel_single {A} (name : string) (s : selector A) : prog A :=
  v ← sel_slice name s;
  match v with
  | [x] => Ret x
  | [] => Raise (NotFoundError (s_label s))
  | _ => Raise (Errorf ("ent: " ++ name ++ " returned %d results when one was expected")
                       [AInt (Z.of_nat (length v))])
  end.

Definition sel_ScanX {A} (s : selector A) := must (s_scan s).
Definition sel_Strings : selector string → prog (list string) := sel_slice "Strings".
Definition sel_StringsX s := must (sel_Strings s).
Definition sel_String : selector string → prog string := sel_single "Strings".
Definition sel_StringX s := must (sel_String s).
Definition sel_Ints : selector Z → prog (list Z) := sel_slice "Ints".
Definition sel_IntsX s := must (sel_Ints s).
Definition sel_Int : selector Z → prog Z := sel_single "Ints".
Definition sel_IntX s := must (sel_Int s).
Definition sel_Float64s {float} : selector float → prog (list float) := sel_slice "Float64s".
Definition sel_Float64sX {float} (s : selector float) := must (sel_Float64s s).
Definition sel_Float64 {float} : selector float → prog float := sel_single "Float64s".
Definition sel_Float64X {float} (s : selector float) := must (sel_Float64 s).
Definition sel_Bools : selector bool → prog (list bool) := sel_slice "Bools".
Definition sel_BoolsX s := must (sel_Bools s).
Definition sel_Bool : selector bool → prog bool := sel_single "Bools".
Definition sel_BoolX s := must (sel_Bool s).

(** * Properties *)

(** ** Expressions over a group *)

Definition int_columns : list string :=
  [FieldID; FieldStartBlock; FieldEndBlock; FieldRequestAddedTime; FieldProofRequestTime; FieldLastUpdatedTime;
   FieldL1BlockNumber].

(** The expressions whose value does not depend on the order of the rows. *)
Fixpoint int_aggregate (e : SelExpr) : bool :=
  match e with
  | ECount => true
  | EMax c | EMin c | ESum c => bool_decide (c ∈ int_columns)
  | EAs e _ => int_aggregate e
  | EColumn _ | EAvg _ | EEmpty => false
  end.

Lemma int_aggregate_plain e : int_aggregate e = true → plain_expr e = true ∧ aggregates e = true ∧ ∀ ks, key_expr ks e = true.
Proof. induction e; cbn; auto; done. Qed.

Lemma int_column_value c r : c ∈ int_columns → col c r = SInt <$> as_int (col c r).
Proof.
  intros Hc. unfold int_columns in Hc.
  repeat (apply elem_of_cons in Hc as [->|Hc]; [by destruct r as [??????? [] ? [] ??]|]).
  by apply elem_of_nil in Hc.
Qed.

Definition best_int (f : comparison → bool) (a b : option Z) : option Z :=
  match a, b with
  | Some x, Some y => if f (y ?= x) then Some y else Some x
  | Some x, None | None, Some x => Some x
  | None, None => None
  end.

Lemma best_ints f c (g : list Row) :
  c ∈ int_columns → foldr (best f) None (col c <$> g) = SInt <$> foldr (best_int f) None ((λ r, as_int (col c r)) <$> g).
Proof.
  intros Hc. induction g as [|r g IH]; [done|]. rewrite !fmap_cons. cbn [foldr]. rewrite IH, (int_column_value c r Hc) at 1.
  destruct (as_int (col c r)), (foldr (best_int f) None _); cbn; try done. by case_match.
Qed.

(** Folding an operation whose order does not matter. *)
Lemma foldr_swap {A B} (op : A → B → B) (b : B) (l l' : list A) :
  (∀ x y z, op x (op y z) = op y (op x z)) → l ≡ₚ l' → foldr op b l = foldr op b l'.
Proof. intros Hop. induction 1; cbn; congruence. Qed.

Lemma best_int_swap f a b c :
  f = cmp_gt ∨ f = cmp_lt → best_int f a (best_int f b c) = best_int f b (best_int f a c).
Proof.
  intros [-> | ->]; destruct a as [x|], b as [y|], c as [z|]; cbn; try done;
    repeat (match goal with |- context [?u ?= ?v] => destruct (Z.compare_spec u v) end; cbn; try (f_equal; lia)); f_equal; lia.
Qed.

Lemma expr_value_perm e g g' : int_aggregate e = true → g ≡ₚ g' → expr_value g e = expr_value g' e.
Proof.
  intros He Hg. induction e as [c| |c|c|c|c|e IH n|]; cbn in *; try done.
  - by rewrite Hg.
  - apply bool_decide_eq_true in He. rewrite !best_ints by done. f_equal.
    apply foldr_swap; [|by rewrite Hg]. intros. apply best_int_swap. by left.
  - apply bool_decide_eq_true in He. rewrite !best_ints by done. f_equal.
    apply foldr_swap; [|by rewrite Hg]. intros. apply best_int_swap. by right.
  - unfold sum_ints. assert (omap id ((λ r, as_int (col c r)) <$> g) ≡ₚ omap id ((λ r, as_int (col c r)) <$> g')) as Hp
      by by rewrite Hg.
    destruct (omap id (_ <$> g)) as [|x l], (omap id (_ <$> g')) as [|y l']; [done|..].
    + by apply Permutation_nil_cons in Hp.
    + symmetry in Hp. by apply Permutation_nil_cons in Hp.
    + do 2 f_equal. apply foldr_swap; [|done]. lia.
  - by apply IH.
Qed.

(** ** Groups *)

Lemma filter_key_none {K} `{EqDecision K} (key : Row → K) k (l : list Row) :
  (∀ r, r ∈ l → key r ≠ k) → filter (λ r, key r = k) l = [].
Proof.
  induction l as [|r l IH]; intros Hl; [done|]. rewrite filter_cons_False by (apply Hl; by left).
  apply IH. intros. apply Hl. by right.
Qed.

Lemma filter_key_all {K} `{EqDecision K} (key : Row → K) k (l : list Row) :
  (∀ r, r ∈ l → key r = k) → filter (λ r, key r = k) l = l.
Proof.
  induction l as [|r l IH]; intros Hl; [done|]. rewrite filter_cons_True by (apply Hl; by left).
  f_equal. apply IH. intros. apply Hl. by right.
Qed.

Lemma elem_of_concat {A} (x : A) (ls : list (list A)) : x ∈ concat ls ↔ ∃ l, x ∈ l ∧ l ∈ ls.
Proof.
  induction ls as [|l ls IH]; cbn.
  - split; [by intros ?%elem_of_nil|by intros (? & _ & ?%elem_of_nil)].
  - rewrite elem_of_app, IH. split.
    + intros [?|(l' & ? & ?)]; [exists l|exists l']; (split; [done|]); [by left|by right].
    + intros (l' & Hx & [->|Hl]%elem_of_cons); [by left|right; eauto].
Qed.

(** The groups are the rows with each key, and there is one for every key. *)
Lemma grouped_filters {K} `{EqDecision K} (key : Row → K) gs :
  grouped key gs →
  ∃ keys, NoDup keys ∧ gs = (λ k, filter (λ r, key r = k) (concat gs)) <$> keys ∧
    ∀ k, k ∈ keys ↔ ∃ r, r ∈ concat gs ∧ key r = k.
Proof.
  induction gs as [|g gs IH]; intros [Hn Hg].
  { exists []. split; [by apply NoDup_nil|]. split; [done|]. intros k. split; [by intros ?%elem_of_nil|by intros (r & ?%elem_of_nil & _)]. }
  csimpl in Hn. apply NoDup_cons in Hn as [Hh Hn].
  destruct IH as (keys & Hnk & Hgs & Hkeys); [split; [done|]; intros; apply Hg; by right|].
  destruct (Hg g) as (k & Hne & Hk); [by left|].
  assert (fmap key (head g) = Some k) as Hhead by (destruct g as [|r g]; [done|]; cbn; f_equal; apply Hk; by left).
  assert (k ∉ keys) as Hnew.
  { intros Hin. apply Hh. change ((fmap key ∘ head) g) with (fmap key (head g)). rewrite Hhead.
    apply Hkeys in Hin as (r & Hr & Hrk).
    apply elem_of_concat in Hr as (g' & Hr & Hg').
    apply list_elem_of_fmap. exists g'. split; [|done]. destruct (Hg g') as (k' & Hne' & Hk'); [by right|].
    cbn. destruct g' as [|r' g']; [done|]. cbn. rewrite (Hk' r') by by left. by rewrite <- Hrk, (Hk' r). }
  exists (k :: keys). split; [by apply NoDup_cons|]. cbn [concat fmap list_fmap]. split.
  - rewrite filter_app, (filter_key_all _ k g), filter_key_none, app_nil_r by
      (try done; intros r Hr Hrk; apply Hnew, Hkeys; eauto). f_equal.
    rewrite Hgs at 1. apply list_fmap_ext. intros i k' Hi%list_elem_of_lookup_2.
    rewrite filter_app, (filter_key_none _ k' g); [done|]. intros r Hr <-. apply Hnew. by rewrite <- (Hk r Hr).
  - intros k'. rewrite elem_of_cons, Hkeys. setoid_rewrite elem_of_app. split.
    + intros [->|(r & ? & ?)]; [|eauto]. destruct g as [|r g]; [done|]. exists r. split; [left; by left|]. apply Hk. by left.
    + intros (r & [Hr|Hr] & <-); [left; by apply Hk|eauto].
Qed.

(** ** Statements *)

(** An aggregation function that only gives its expression. *)
Definition yields (fn : AggregateFunc) (e : SelExpr) : Prop := ∀ s, sel_table s = Table → fn s = (e, s).

Lemma yields_Count : yields Count ECount.
Proof. done. Qed.

Lemma yields_column f c : ValidColumn c = true → yields (on_column f c) (f c).
Proof. intros Hc s Hs. unfold on_column, checkColumn. by rewrite Hs, Hc, bool_decide_eq_true_2. Qed.

Lemma yields_As fn e n : yields fn e → yields (As fn n) (EAs e n).
Proof. intros Hf s Hs. unfold As. by rewrite Hf. Qed.

Lemma run_fns_yields fns es s : Forall2 yields fns es → sel_table s = Table → run_fns fns s = (es, s).
Proof. intros Hf Hs. induction Hf as [|fn e fns es Hfn _ IH]; [done|]. cbn. by rewrite Hfn, IH. Qed.

Lemma int_aggregates_plain ks es :
  Forall (λ e, int_aggregate e = true) es →
  forallb plain_expr es = true ∧ forallb (key_expr ks) es = true ∧ (es ≠ [] → existsb aggregates es = true).
Proof.
  induction 1 as [|e es He _ (IHp & IHk & _)]; [done|]. apply int_aggregate_plain in He as (Hp & Ha & Hk).
  cbn. by rewrite Hp, Hk, Ha, IHp, IHk.
Qed.

Lemma prepare_valid q : Forall (λ c, ValidColumn c = true) (prq_fields q) → prq_prepareQuery q = None.
Proof.
  unfold prq_prepareQuery. induction 1 as [|c cs Hc _ IH]; [done|]. rewrite fmap_cons.
  unfold first_error in *. cbn [omap list_omap]. by rewrite Hc.
Qed.

(** The key of a row for a list of fields, and the values of a group. *)
Definition key_of (fields : list string) (r : Row) : list (option sqlval) := (λ c, col c r) <$> fields.

Lemma key_columns fields g k :
  g ≠ [] → (∀ r, r ∈ g → key_of fields r = k) → expr_value g <$> (EColumn <$> fields) = k.
Proof. destruct g as [|r g]; [done|]. intros _ Hk. rewrite <- (Hk r) by by left. by rewrite <- list_fmap_compose. Qed.

(** The statement of a group-by without orders and pages. *)
Definition group_select (keys : list string) (es : list SelExpr) (ps : list predicate) : Selector :=
  mkSelect Table ((EColumn <$> keys) ++ es)%list false ps [] keys None None [].

Lemma plain_group_select keys es ps :
  keys ≠ [] → Forall (λ e, int_aggregate e = true) es → plain_select (group_select keys es ps) = true.
Proof.
  intros Hk He. destruct (int_aggregates_plain keys es He) as (Hp & Hkey & _).
  assert (∀ l, (∀ c, c ∈ l → c ∈ keys) →
    forallb plain_expr (EColumn <$> l) = true ∧ forallb (key_expr keys) (EColumn <$> l) = true) as Hin.
  { induction l as [|c l IH]; intros Hl; [done|]. rewrite fmap_cons. cbn [forallb key_expr plain_expr].
    rewrite bool_decide_eq_true_2 by (apply Hl; by left). apply IH. intros. apply Hl. by right. }
  destruct (Hin keys) as [Hin1 Hin2]; [done|].
  unfold plain_select, group_select. cbn [sel_distinct sel_columns sel_group sel_order negb].
  destruct keys as [|k ks]; [done|]. by rewrite !forallb_app, Hp, Hkey, Hin1, Hin2, bool_decide_eq_true_2.
Qed.

Lemma group_select_rows keys es ps tbl cells :
  keys ≠ [] → Forall (λ e, int_aggregate e = true) es → select_rows (group_select keys es ps) tbl cells →
  ∃ ks, NoDup ks ∧ (∀ k, k ∈ ks ↔ ∃ r, r ∈ matching ps tbl ∧ key_of keys r = k) ∧
    cells = (λ k, k ++ (expr_value (filter (λ r, key_of keys r = k) (matching ps tbl)) <$> es))%list <$> ks.
Proof.
  intros Hne He (gs & Hg & ->). unfold grouping, group_select, sel_page in *. cbn [sel_group sel_where sel_columns sel_offset sel_limit default] in *.
  assert (concat gs ≡ₚ matching ps tbl ∧ grouped (key_of keys) gs) as [Hp Hgs] by by destruct keys.
  clear Hg. destruct (grouped_filters _ _ Hgs) as (ks & Hn & Heq & Hks). exists ks. split; [done|]. split.
  { intros k. rewrite Hks. by setoid_rewrite Hp. }
  rewrite drop_0, Heq, <- list_fmap_compose. apply list_fmap_ext. intros i k Hk%list_elem_of_lookup_2. unfold compose.
  rewrite fmap_app. f_equal.
  - apply key_columns.
    + apply Hks in Hk as (r & Hr & Hrk). intros Hnil.
      assert (r ∈ filter (λ r, key_of keys r = k) (concat gs)) as Hx by by apply list_elem_of_filter.
      rewrite Hnil in Hx. by apply elem_of_nil in Hx.
    + by intros r [? _]%list_elem_of_filter.
  - apply list_fmap_ext. intros j e Hj%list_elem_of_lookup_2. rewrite Forall_forall in He.
    apply expr_value_perm; [by apply He|]. by rewrite Hp.
Qed.

Section specs.
Context `{SqlLaws, External}.
Implicit Types (w : World).

Lemma returns_Query s w P E :
  plain_select s = true →
  (∀ cells w', frame w w' → rows w' = rows w → select_rows s (rows w) cells → P cells w') →
  (∀ e w', frame w w' → rows w' = rows w → E (ESql e) w') →
  returns (driver_Query HRead s) w P E.
Proof.
  intros Hs HP HE. unfold driver_Query.
  eapply (returns_bind _ _ _ (λ r w', frame w w' ∧ rows w' = rows w ∧
    match r with inl e => True | inr cells => select_rows s (rows w) cells end) (λ _ _, False)).
  - apply returns_db. cbn -[on_handle]. apply read_handle; [|done].
    intros r st Hq. rewrite rows_with_db. split; [apply frame_with_db|]. destruct r as [e|cells].
    + by apply sg_select_keeps in Hq.
    + by apply sg_select_ok in Hq.
  - intros [e|cells] w' (? & ? & ?); [by apply HE|by apply HP].
  - done.
Qed.

Lemma returns_scan {A} (ScanSlice : Scanner A) cs cells w P E :
  (∀ v, ScanSlice cs cells = inr v → P v w) → (∀ e, ScanSlice cs cells = inl e → E e w) →
  returns (lift (ScanSlice cs cells)) w P E.
Proof. intros HP HE. apply returns_lift. destruct (ScanSlice cs cells); auto. Qed.

(** A group-by over valid columns has a row for each combination of their
    values that occurs, once, with the aggregates of exactly the rows that have
    it. *)
Theorem GroupBy_aggregates {A} (ScanSlice : Scanner A) field fields fns es ps w :
  Forall (λ c, ValidColumn c = true) (field :: fields) →
  Forall2 yields fns es → Forall (λ e, int_aggregate e = true) es →
  let cs := ((EColumn <$> field :: fields) ++ es)%list in
  let key := key_of (field :: fields) in
  returns (prgb_Scan ScanSlice (prgb_Aggregate fns (prq_GroupBy field fields (prq_Where ps (Client_Query HRead))))) w
    (λ v w', frame w w' ∧ rows w' = rows w ∧ ∃ keys, NoDup keys ∧
       (∀ k, k ∈ keys ↔ ∃ r, r ∈ matching ps (rows w) ∧ key r = k) ∧
       ScanSlice cs ((λ k, k ++ (expr_value (filter (λ r, key r = k) (matching ps (rows w))) <$> es)) <$> keys)%list = inr v)
    (λ e w', frame w w' ∧ rows w' = rows w ∧ ((∃ e', e = ESql e') ∨ ∃ cells, ScanSlice cs cells = inl e)).
Proof.
  intros Hv Hf He cs key. unfold prgb_Scan, prgb_sqlScan.
  set (b := prgb_Aggregate _ _).
  assert (prgb_selector b = group_select (field :: fields) es ps) as Hsel.
  { unfold prgb_selector, b. cbn -[run_fns]. by rewrite (run_fns_yields _ es). }
  rewrite (prepare_valid (prgb_build b)) by done. rewrite Hsel. cbn -[driver_Query lift group_select].
  eapply (returns_bind _ _ _ (λ cells w', frame w w' ∧ rows w' = rows w ∧
    select_rows (group_select (field :: fields) es ps) (rows w) cells)
    (λ e w', frame w w' ∧ rows w' = rows w ∧ ∃ e', e = ESql e')).
  - apply returns_Query; [by apply plain_group_select|done|by eauto].
  - intros cells w' (Hfr & Hr & Hc). apply group_select_rows in Hc as (ks & ? & ? & ->); [|done..].
    apply returns_scan.
    + intros v Hs. split; [done|]. split; [done|]. by exists ks.
    + intros e Hs. split; [done|]. split; [done|]. right. by eexists.
  - intros e w' (? & ? & ?). split; [done|]. split; [done|]. by left.
Qed.

(** An aggregation of the whole result is one row, of every row that matches,
    also when none does. *)
Theorem Aggregate_whole {A} (ScanSlice : Scanner A) fns es ps w :
  Forall2 yields fns es → Forall (λ e, int_aggregate e = true) es → es ≠ [] →
  returns (prs_Scan ScanSlice (prq_Aggregate fns (prq_Where ps (Client_Query HRead)))) w
    (λ v w', frame w w' ∧ rows w' = rows w ∧ ScanSlice es [expr_value (matching ps (rows w)) <$> es] = inr v)
    (λ e w', frame w w' ∧ rows w' = rows w ∧ ((∃ e', e = ESql e') ∨ ∃ cells, ScanSlice es cells = inl e)).
Proof.
  intros Hf He Hne. unfold prs_Scan, prs_sqlScan. set (b := prq_Aggregate _ _).
  assert (prs_selector b = mkSelect Table es false ps [] [] None None []) as Hsel.
  { unfold prs_selector, b. cbn -[run_fns]. rewrite (run_fns_yields _ es) by done. by destruct es. }
  rewrite (prepare_valid (prs_query b)) by done. rewrite Hsel. cbn -[driver_Query lift].
  destruct (int_aggregates_plain [] es He) as (Hp & Hk & Ha).
  eapply (returns_bind _ _ _ (λ cells w', frame w w' ∧ rows w' = rows w ∧ cells = [expr_value (matching ps (rows w)) <$> es])
    (λ e w', frame w w' ∧ rows w' = rows w ∧ ∃ e', e = ESql e')).
  - apply returns_Query; [|intros cells w' Hfr Hr Hs|by eauto].
    + unfold plain_select. cbn. by rewrite Hp, Hk, orb_true_r.
    + split; [done|]. split; [done|]. destruct Hs as (gs & Hg & ->). unfold grouping in Hg. cbn [sel_group sel_columns] in Hg.
      rewrite Ha in Hg by done. destruct Hg as (g & -> & Hg).
      unfold sel_page. cbn [sel_offset sel_limit default]. rewrite drop_0. cbn. f_equal.
      apply list_fmap_ext. intros i e Hi%list_elem_of_lookup_2. rewrite Forall_forall in He. by apply expr_value_perm; [apply He|].
  - intros cells w' (? & ? & ->). apply returns_scan; intros v Hv; (split; [done|]); (split; [done|]); [done|].
    right. by eexists.
  - intros e w' (? & ? & ?). split; [done|]. split; [done|]. by left.
Qed.

(** ** Unknown columns *)

(** A function may not drop an error of the statement. *)
Definition keeps_errors (fn : AggregateFunc) : Prop := ∀ s, sel_errs s ≠ [] → sel_errs (fn s).2 ≠ [].

Lemma AddError_errs err s : sel_errs (sel_AddError err s) ≠ [].
Proof. destruct s as [????????es]. cbn. intros [_ Hn]%app_eq_nil. discriminate Hn. Qed.
Lemma keeps_column f c : keeps_errors (on_column f c).
Proof. intros s Hs. unfold on_column. destruct (checkColumn _ _); [apply AddError_errs|done]. Qed.
Lemma keeps_Count : keeps_errors Count.
Proof. intros s Hs. exact Hs. Qed.
Lemma keeps_As fn n : keeps_errors fn → keeps_errors (As fn n).
Proof. intros Hf s Hs. unfold As. specialize (Hf s Hs). destruct (fn s) as [e s']. exact Hf. Qed.

Lemma run_fns_keeps fns s : Forall keeps_errors fns → sel_errs s ≠ [] → sel_errs (run_fns fns s).2 ≠ [].
Proof.
  intros Hf. revert s. induction Hf as [|fn fns Hfn _ IH]; intros s Hs; [done|]. cbn.
  specialize (Hfn s Hs). destruct (fn s) as [e s1]. specialize (IH s1 Hfn). destruct (run_fns fns s1). exact IH.
Qed.

Lemma run_fns_unknown f c fns1 fns2 s :
  ValidColumn c = false → Forall keeps_errors fns1 → Forall keeps_errors fns2 →
  sel_errs (run_fns (fns1 ++ on_column f c :: fns2) s).2 ≠ [] ∧ EEmpty ∈ (run_fns (fns1 ++ on_column f c :: fns2) s).1.
Proof.
  intros Hc Hk1 Hk2. revert s. induction Hk1 as [|fn fns Hfn _ IH]; intros s.
  - cbn [app run_fns]. unfold on_column, checkColumn. rewrite Hc, andb_false_r.
    pose proof (AddError_errs (ValidationError c (Wrapf "ent: %w" [] (Errorf "unknown column %q for table %q" [AStr c; AStr (sel_table s)]))) s) as Hs.
    pose proof (run_fns_keeps fns2 _ Hk2 Hs) as Hk. destruct (run_fns fns2 _) as [es s2]. split; [done|by left].
  - cbn [app run_fns]. destruct (fn s) as [e s1]. specialize (IH s1). destruct (run_fns _ s1) as [es s2].
    destruct IH. split; [done|by right].
Qed.

(** A group-by with an aggregate of an unknown column is refused before the
    database is asked.  A selection is not: its statement, with an empty
    expression in the place of the aggregate, is sent, and its result is what
    the database makes of that. *)
Theorem unknown_aggregate {A} (ScanSlice : Scanner A) f c fns1 fns2 field fields q w :
  ValidColumn c = false → Forall keeps_errors fns1 → Forall keeps_errors fns2 →
  let fns := (fns1 ++ on_column f c :: fns2)%list in
  let s := prs_selector (prq_Aggregate fns q) in
  (∃ e, run (prgb_Scan ScanSlice (prgb_Aggregate fns (prq_GroupBy field fields q))) w = (Fail e, w)) ∧
  EEmpty ∈ sel_columns s ∧
  ∀ r w', prq_prepareQuery q = None → exec_db (SqlSelect (prq_driver q) s) w = Some (r, w') →
    run (prs_Scan ScanSlice (prq_Aggregate fns q)) w =
      match r with inl e => (Fail (ESql e), w') | inr cells => run (lift (ScanSlice (sel_columns s) cells)) w' end.
Proof.
  intros Hc Hk1 Hk2 fns s. split; [|split].
  - unfold prgb_Scan. destruct (prq_prepareQuery _) as [e|]; [by exists e|]. unfold prgb_sqlScan, prgb_selector.
    assert (prgb_fns (prgb_Aggregate fns (prq_GroupBy field fields q)) = fns) as -> by by destruct q.
    destruct (run_fns_unknown f c fns1 fns2 (sel_Select [] (prq_sqlQuery (prgb_build (prgb_Aggregate fns (prq_GroupBy field fields q)))))
      Hc Hk1 Hk2) as [He _].
    fold fns in He. destruct (run_fns fns _) as [es s1]. cbn [snd] in He.
    assert (∀ cs, sel_errs (sel_GroupBy (prq_fields (prgb_build (prgb_Aggregate fns (prq_GroupBy field fields q))))
      match sel_columns s1 with [] => sel_Select cs s1 | _ => s1 end) = sel_errs s1) as Hs.
    { intros cs. by destruct s1 as [? [] ???????]. }
    rewrite Hs. destruct (sel_errs s1); [done|]. by eexists.
  - unfold s, prs_selector.
    destruct (run_fns_unknown f c fns1 fns2 (prq_sqlQuery (prs_query (prq_Aggregate fns q))) Hc Hk1 Hk2) as [_ He].
    change (prs_fns (prq_Aggregate fns q)) with fns. fold fns in He.
    destruct (run_fns fns _) as [es s1]. cbn [fst] in He. destruct es as [|e es]; [by apply elem_of_nil in He|].
    destruct s1. destruct (prq_fields _); cbn; [done|]. apply elem_of_app. by right.
  - intros r w' Hq Hx. unfold prs_Scan, prs_sqlScan.
    assert (prs_query (prq_Aggregate fns q) = q) as Hquery.
    { destruct q. cbn. by rewrite app_nil_r. }
    rewrite Hquery, Hq. fold s. unfold driver_Query. cbn [lift_err]. rewrite run_bind, run_ret. cbn [run_then].
    rewrite run_bind, run_bind, run_db, Hx. cbn [run_then]. by destruct r.
Qed.

End specs.

(** ** A table *)

Definition some_rows : list Row :=
  [row_at t0 1 TypeSPAN 0 40 StatusFAILED; row_at t0 2 TypeSPAN 0 20 StatusUNREQ; row_at t0 3 TypeSPAN 20 40 StatusUNREQ;
   row_at t0 4 TypeAGG 0 40 StatusUNREQ].

(** The cells as they are. *)
Definition cells_of : Scanner (list (option sqlval)) := λ _ cells, inr cells.

Definition per_status : list AggregateFunc := [Count; As (Max FieldEndBlock) "top"; Sum FieldStartBlock].

Lemma GroupBy_aggregates_witness :
  let b := prgb_Aggregate per_status (prq_GroupBy FieldStatus [] (prq_Where [TypeEQ TypeSPAN] (Client_Query HRead))) in
  let w := world some_rows script0 in
  let out := run (prgb_Scan cells_of b) w in
  out.1 = Ok [[Some (SText StatusUNREQ); Some (SInt 2); Some (SInt 40); Some (SInt 20)];
              [Some (SText StatusFAILED); Some (SInt 1); Some (SInt 40); Some (SInt 0)]] ∧
  returns (prgb_Scan cells_of b) w
    (λ v w', frame w w' ∧ rows w' = rows w ∧ ∃ keys, NoDup keys ∧
       (∀ k, k ∈ keys ↔ ∃ r, r ∈ matching [TypeEQ TypeSPAN] (rows w) ∧ key_of [FieldStatus] r = k) ∧
       (λ k, k ++ (expr_value (filter (λ r, key_of [FieldStatus] r = k) (matching [TypeEQ TypeSPAN] (rows w)))
          <$> [ECount; EAs (EMax FieldEndBlock) "top"; ESum FieldStartBlock])) <$> keys = v)%list
    (λ e w', False ∨ ∃ e', e = ESql e').
Proof.
  intros b w out. split; [vm_compute; reflexivity|].
  eapply returns_mono; [apply (GroupBy_aggregates cells_of FieldStatus [] per_status
    [ECount; EAs (EMax FieldEndBlock) "top"; ESum FieldStartBlock])|..].
  - by repeat constructor.
  - unfold per_status. repeat constructor; [apply yields_As|]; by apply yields_column.
  - by repeat constructor.
  - intros v w' (? & ? & keys & ? & ? & [= Hv]). split; [done|]. split; [done|]. by exists keys.
  - intros e w' (_ & _ & [?|[c Hc]]); [by right|discriminate Hc].
Defined.
