(* ===== verification/Schema.v ===== *)
(** * The schema and the code generated from it ([ent/schema/proofrequest.go], [migrate])

    The fields as the schema declares them, and the migration of a database to
    the tables that are generated from it.  The theorem says that the generated
    columns, validators, setters and checks are those of the schema. *)

From Stdlib Require Import ZArith Lia.
From S2P Require Import Prelude Sql ProofRequest Metrics Prog Mutation Builders.

Local Open Scope string_scope.

(** ** The schema *)

(** [field.Enum], [field.Uint64] and so on, and [Optional]. *)
Record FieldDesc := mkField { fd_name : string; fd_kind : FieldKind; fd_optional : bool }.

Definition field_Enum (name : string) (values : list string) : FieldDesc := mkField name (TypeEnum values) false.
Definition field_Uint64 (name : string) : FieldDesc := mkField name TypeUint64 false.
Definition field_String (name : string) : FieldDesc := mkField name TypeString false.
Definition field_Bytes (name : string) : FieldDesc := mkField name TypeBytes false.
Definition Optional (f : FieldDesc) : FieldDesc := mkField (fd_name f) (fd_kind f) true.

Definition Schema_Fields : list FieldDesc :=
  [field_Enum "type" ["SPAN"; "AGG"];
   field_Uint64 "start_block";
   field_Uint64 "end_block";
   field_Enum "status" ["UNREQ"; "WITNESSGEN"; "PROVING"; "FAILED"; "COMPLETE"];
   field_Uint64 "request_added_time";
   Optional (field_String "prover_request_id");
   Optional (field_Uint64 "proof_request_time");
   field_Uint64 "last_updated_time";
   Optional (field_Uint64 "l1_block_number");
   Optional (field_String "l1_block_hash");
   Optional (field_Bytes "proof")].

(** The table's name, and its options. *)
Definition Schema_Annotations : string * string := ("proof_requests", "STRICT").

(** ** The migration *)

(** [migrate.ProofRequestsTable]: its name, columns, primary key and options. *)
Record MigrateTable := mkTable {
  mt_name : string;
  mt_columns : list (string * FieldKind * bool);
  mt_primary : list string;
  mt_options : string;
}.
Definition ProofRequestsTable : MigrateTable :=
  mkTable "proof_requests" ProofRequestsColumns ["id"] "STRICT".
Definition Tables : list MigrateTable := [ProofRequestsTable].

Section migrate.
(** [schema.NewMigrate]: whether it takes the options. *)
Context {MigrateOption : Type} (NewMigrate : list MigrateOption → option error).

(** [Schema.Create] of a client whose driver is [h]. *)
Definition Schema_Create (h : Handle) (opts : list MigrateOption) : prog unit :=
  match NewMigrate opts with
  | Some err => Raise (Wrapf "ent/migrate: %w" [] err)
  | None =>
      r ← db (DbMigrate h);
      match r with Some e => Raise (ESql e) | None => Ret tt end
  end.

End migrate.

(** ** The generated code is that of the schema *)

(** A value of a field's type. *)
Definition of_kind (k : FieldKind) (v : GoValue) : Prop :=
  match k, v with
  | TypeEnum vs, (VType s | VStatus s) => s ∈ vs
  | TypeUint64, VUint64 _ | TypeString, VString _ | TypeBytes, VBytes _ | TypeInt, VInt _ => True
  | _, _ => False
  end.

(** What the schema asks of the fields of a new entity. *)
Definition conforms (m : ProofRequestMutation) : Prop :=
  Forall (λ f, match Field m (fd_name f) with
               | None => fd_optional f = true
               | Some v => of_kind (fd_kind f) v
               end) Schema_Fields.

Lemma TypeValidator_values s : TypeValidator s = None ↔ s ∈ ["SPAN"; "AGG"].
Proof.
  unfold TypeValidator. repeat case_bool_decide; cbn; rewrite !elem_of_cons, elem_of_nil;
    split; intros; subst; (done || tauto).
Qed.

Lemma StatusValidator_values s :
  StatusValidator s = None ↔ s ∈ ["UNREQ"; "WITNESSGEN"; "PROVING"; "FAILED"; "COMPLETE"].
Proof.
  unfold StatusValidator. repeat case_bool_decide; cbn; rewrite !elem_of_cons, elem_of_nil;
    split; intros; subst; (done || tauto).
Qed.

Lemma first_error_nil l : first_error l = None ↔ Forall (λ e, e = None) l.
Proof.
  unfold first_error. induction l as [|[e|] l IH]; cbn.
  - done.
  - split; [done|]. by intros [? _]%Forall_cons.
  - rewrite Forall_cons. rewrite IH. tauto.
Qed.

Lemma require_iff {A} f (o : option A) : require f o = None ↔ is_Some o.
Proof. destruct o; cbn; split; [by eexists|done|done|by intros []]. Qed.
Lemma validate_iff {A} f (v : A → option error) (o : option A) :
  validate f v o = None ↔ match o with Some x => v x = None | None => True end.
Proof. destruct o as [x|]; [|done]. cbn. by destruct (v x). Qed.

(** A create checks what the schema asks for. *)
Lemma check_conforms m : prc_check m = None ↔ conforms m.
Proof.
  unfold prc_check. rewrite first_error_nil. unfold conforms, Schema_Fields.
  rewrite !Forall_cons, !Forall_nil, !require_iff, !validate_iff.
  unfold GetType, Mut_StartBlock, Mut_EndBlock, Mut_Status, Mut_RequestAddedTime, Mut_LastUpdatedTime.
  change (Field m (fd_name (field_Enum "type" ["SPAN"; "AGG"]))) with (VType <$> m_type m).
  change (Field m (fd_name (field_Uint64 "start_block"))) with (VUint64 <$> m_start_block m).
  change (Field m (fd_name (field_Uint64 "end_block"))) with (VUint64 <$> m_end_block m).
  change (Field m (fd_name (field_Enum "status" _))) with (VStatus <$> m_status m).
  change (Field m (fd_name (field_Uint64 "request_added_time"))) with (VUint64 <$> m_request_added_time m).
  change (Field m (fd_name (Optional (field_String "prover_request_id")))) with (VString <$> m_prover_request_id m).
  change (Field m (fd_name (Optional (field_Uint64 "proof_request_time")))) with (VUint64 <$> m_proof_request_time m).
  change (Field m (fd_name (field_Uint64 "last_updated_time"))) with (VUint64 <$> m_last_updated_time m).
  change (Field m (fd_name (Optional (field_Uint64 "l1_block_number")))) with (VUint64 <$> m_l1_block_number m).
  change (Field m (fd_name (Optional (field_String "l1_block_hash")))) with (VString <$> m_l1_block_hash m).
  change (Field m (fd_name (Optional (field_Bytes "proof")))) with (VBytes <$> m_proof m).
  split.
  - intros ([ty Hty] & Ht & [s Hs] & [e He] & [st Hst] & Hv & [ra Hra] & [lu Hlu] & _).
    rewrite Hty in Ht. rewrite Hst in Hv. rewrite Hty, Hs, He, Hst, Hra, Hlu.
    apply TypeValidator_values in Ht. apply StatusValidator_values in Hv.
    split_and!; try done; match goal with |- context [_ <$> ?o] => by destruct o end.
  - intros (Hty & Hs & He & Hst & Hra & _ & _ & Hlu & _).
    destruct (m_type m), (m_start_block m), (m_end_block m), (m_status m), (m_request_added_time m), (m_last_updated_time m); try done.
    cbn in Hty, Hst. apply TypeValidator_values in Hty. apply StatusValidator_values in Hst.
    split_and!; by eexists || done.
Qed.

(** Whether a column of the table takes no value. *)
Definition takes_null (c : string) : bool :=
  bool_decide (is_Some (set_col c None (mkRow 0 "" 0 0 "" 0 None None 0 None None None))).

(** C24: the code generated from the schema is that of its fields: the columns, in
    their order, behind the id; the columns of the migration, with their types
    and those that take no value, as the table has them; the values of the
    enums; and a create refuses exactly the entities that lack a field which is
    not optional or have a value that is none of its enum. *)
Theorem generated_from_schema :
  ProofRequestsColumns = ("id", TypeInt, false) :: ((λ f, (fd_name f, fd_kind f, fd_optional f)) <$> Schema_Fields) ∧
  Columns = "id" :: (fd_name <$> Schema_Fields) ∧
  Tables = [mkTable (fst Schema_Annotations) ProofRequestsColumns ["id"] (snd Schema_Annotations)] ∧
  Table = fst Schema_Annotations ∧
  (λ f, takes_null (fd_name f)) <$> Schema_Fields = fd_optional <$> Schema_Fields ∧
  (∀ s, TypeValidator s = None ↔ s ∈ ["SPAN"; "AGG"]) ∧
  (∀ s, StatusValidator s = None ↔ s ∈ ["UNREQ"; "WITNESSGEN"; "PROVING"; "FAILED"; "COMPLETE"]) ∧
  ∀ m, prc_check m = None ↔ conforms m.
Proof.
  repeat (split; [vm_compute; reflexivity|]).
  split; [apply TypeValidator_values|]. split; [apply StatusValidator_values|]. apply check_conforms.
Qed.
