(* ===== verification/Client.v ===== *)
(** * The rest of the generated client ([proofrequest_create.go], [_update.go], [_query.go], [mutation.go])

    What the proposer itself does not call: setters that take a pointer, the
    variants that panic, queries for ids, a mutation run by a client, and the
    values a field had before a mutation. *)

From S2P Require Import Prelude Sql ProofRequest Metrics Encoding Prog Mutation Builders Select.

Local Open Scope string_scope.
Local Open Scope Z_scope.

(** ** Setters that take a pointer *)

Definition nillable {A B} (set : A → B → B) (v : option A) (b : B) : B :=
  match v with Some x => set x b | None => b end.

Definition prc_SetNillableProverRequestID (v : option string) := nillable prc_SetProverRequestID v.
Definition prc_SetNillableProofRequestTime (v : option Z) := nillable prc_SetProofRequestTime v.
Definition prc_SetNillableL1BlockNumber (v : option Z) := nillable prc_SetL1BlockNumber v.
Definition prc_SetNillableL1BlockHash (v : option string) := nillable prc_SetL1BlockHash v.
Definition pru_SetNillableType (v : option string) := nillable pru_SetType v.
Definition pru_SetNillableStartBlock (v : option Z) := nillable pru_SetStartBlock v.
Definition pru_SetNillableEndBlock (v : option Z) := nillable pru_SetEndBlock v.
Definition pru_SetNillableStatus (v : option string) := nillable pru_SetStatus v.
Definition pru_SetNillableRequestAddedTime (v : option Z) := nillable pru_SetRequestAddedTime v.
Definition pru_SetNillableProverRequestID (v : option string) := nillable pru_SetProverRequestID v.
Definition pru_SetNillableProofRequestTime (v : option Z) := nillable pru_SetProofRequestTime v.
Definition pru_SetNillableLastUpdatedTime (v : option Z) := nillable pru_SetLastUpdatedTime v.
Definition pru_SetNillableL1BlockNumber (v : option Z) := nillable pru_SetL1BlockNumber v.
Definition pru_SetNillableL1BlockHash (v : option string) := nillable pru_SetL1BlockHash v.
Definition pruo_SetNillableType (v : option string) := nillable pruo_SetType v.
Definition pruo_SetNillableStartBlock (v : option Z) := nillable pruo_SetStartBlock v.
Definition pruo_SetNillableEndBlock (v : option Z) := nillable pruo_SetEndBlock v.
Definition pruo_SetNillableStatus (v : option string) := nillable pruo_SetStatus v.
Definition pruo_SetNillableRequestAddedTime (v : option Z) := nillable pruo_SetRequestAddedTime v.
Definition pruo_SetNillableProverRequestID (v : option string) := nillable pruo_SetProverRequestID v.
Definition pruo_SetNillableProofRequestTime (v : option Z) := nillable pruo_SetProofRequestTime v.
Definition pruo_SetNillableLastUpdatedTime (v : option Z) := nillable pruo_SetLastUpdatedTime v.
Definition pruo_SetNillableL1BlockNumber (v : option Z) := nillable pruo_SetL1BlockNumber v.
Definition pruo_SetNillableL1BlockHash (v : option string) := nillable pruo_SetL1BlockHash v.

(** ** Mutations of builders *)

Definition prc_Mutation (b : ProofRequestCreate) : ProofRequestMutation := prc_mutation b.
Definition pru_Mutation (b : ProofRequestUpdate) : ProofRequestMutation := pru_mutation b.
Definition pruo_Mutation (b : ProofRequestUpdateOne) : ProofRequestMutation := pruo_mutation b.

(** [ProofRequestDeleteOne] is the delete builder it is made from. *)
Definition prdo_Where (ps : list predicate) (b : ProofRequestDelete) : ProofRequestDelete := prd_Where ps b.

(** ** Variants that panic *)

(** Without an entity there is none, and no panic. *)
Definition must_found {A} (p : prog A) : prog (option A) :=
  r ← attempt p;
  match r with
  | inl err => if IsNotFound err then Ret None else Panic "ent"
  | inr a => Ret (Some a)
  end.

Definition prc_SaveX b := must (prc_Save b).
Definition prc_ExecX b := must (prc_Exec b).
Definition pru_SaveX b := must (pru_Save b).
Definition pru_ExecX b := must (pru_Exec b).
Definition pruo_SaveX b := must (pruo_Save b).
Definition pruo_ExecX b := must (pruo_Exec b).
Definition prd_ExecX b := must (prd_Exec b).
Definition prdo_ExecX b := must (prdo_Exec b).
Definition prq_FirstX q := must_found (prq_First q).
Definition prq_OnlyX q := must (prq_Only q).
Definition prq_AllX q := must (prq_All q).
Definition prq_CountX q := must (prq_Count q).
Definition Client_GetX h id := must (Client_Get h id).

(** ** Queries for ids *)

Section ids.
Context (ScanSlice : Scanner Z).

Definition prq_IDs (q : ProofRequestQuery) : prog (list Z) := prs_Scan ScanSlice (prq_Selection [FieldID] q).
Definition prq_IDsX q := must (prq_IDs q).

Definition prq_FirstID (q : ProofRequestQuery) : prog Z :=
  ids ← prq_IDs (prq_Limit 1 q);
  match ids with
  | [] => Raise (NotFoundError Label)
  | id :: _ => Ret id
  end.

(** Without an entity the id is zero. *)
Definition prq_FirstIDX (q : ProofRequestQuery) : prog Z := o ← must_found (prq_FirstID q); Ret (default 0 o).

Definition prq_OnlyID (q : ProofRequestQuery) : prog Z :=
  ids ← prq_IDs (prq_Limit 2 q);
  match ids with
  | [id] => Ret id
  | [] => Raise (NotFoundError Label)
  | _ => Raise (NotSingularError Label)
  end.
Definition prq_OnlyIDX q := must (prq_OnlyID q).

Definition prq_Exist (q : ProofRequestQuery) : prog bool :=
  r ← attempt (prq_FirstID q);
  match r with
  | inl err => if IsNotFound err then Ret false else Raise (Wrapf "ent: check existence: %w" [] err)
  | inr _ => Ret true
  end.
Definition prq_ExistX q := must (prq_Exist q).

(** The ids a mutation is about. *)
Definition Mut_IDs (h : Handle) (m : ProofRequestMutation) : prog (list Z) :=
  let query := prq_IDs (prq_Where (m_predicates m) (Client_Query h)) in
  match m_op m with
  | OpUpdateOne | OpDeleteOne => match Mut_ID m with Some id => Ret [id] | None => query end
  | OpUpdate | OpDelete => query
  | OpCreate => Raise (Errorf "IDs is not allowed on %s operations" [AStr "OpCreate"])
  end.

End ids.

(** A mutation run by the client it is handed to: an entity, or the number of
    rows. *)
Inductive MutValue := MutNode (node : ProofRequest) | MutCount (n : Z).

Definition Client_mutate (h : Handle) (m : ProofRequestMutation) : prog MutValue :=
  match Mut_Op m with
  | OpCreate => node ← prc_Save (mkCreate h m); Ret (MutNode node)
  | OpUpdate => n ← pru_Save (mkUpdate h m); Ret (MutCount n)
  | OpUpdateOne => node ← pruo_Save (mkUpdateOne h [] m); Ret (MutNode node)
  | OpDelete | OpDeleteOne => n ← prd_Exec (mkDelete h m); Ret (MutCount n)
  end.

(** ** Old values *)

(** The entity before the mutation, asked for once: what the first call gave,
    an error too, is what every later call gives. *)
Definition old_value (h : Handle) (m : ProofRequestMutation) : prog ((error + ProofRequest) * ProofRequestMutation) :=
  match m_oldValue m with
  | OldNone => Panic "nil function"
  | OldNode node => Ret (inr node, m)
  | OldFailed err => Ret (inl err, m)
  | OldID id =>
      if m_done m then
        let err := Errorf "querying old values post mutation is not allowed" [] in
        Ret (inl err, upd_oldValue (OldFailed err) m)
      else
        r ← attempt (Client_Get h id);
        Ret (r, upd_oldValue (match r with inl err => OldFailed err | inr node => OldNode node end) m)
  end.

Definition old_field {A} (name : string) (f : ProofRequest → A) (h : Handle) (m : ProofRequestMutation)
    : prog ((error + A) * ProofRequestMutation) :=
  match m_op m, m_id m, m_oldValue m with
  | OpUpdateOne, Some _, OldNone | OpUpdateOne, None, _ =>
      Ret (inl (Errorf (name ++ " requires an ID field in the mutation") []), m)
  | OpUpdateOne, Some _, _ =>
      r ← old_value h m;
      Ret (match fst r with
           | inl err => inl (Wrapf ("querying old value for " ++ name ++ ": %w") [] err)
           | inr node => inr (f node)
           end, snd r)
  | _, _, _ => Ret (inl (Errorf (name ++ " is only allowed on UpdateOne operations") []), m)
  end.

Definition OldType := old_field "OldType" pr_Type.
Definition OldStartBlock := old_field "OldStartBlock" pr_StartBlock.
Definition OldEndBlock := old_field "OldEndBlock" pr_EndBlock.
Definition OldStatus := old_field "OldStatus" pr_Status.
Definition OldRequestAddedTime := old_field "OldRequestAddedTime" pr_RequestAddedTime.
Definition OldProverRequestID := old_field "OldProverRequestID" pr_ProverRequestID.
Definition OldProofRequestTime := old_field "OldProofRequestTime" pr_ProofRequestTime.
Definition OldLastUpdatedTime := old_field "OldLastUpdatedTime" pr_LastUpdatedTime.
Definition OldL1BlockNumber := old_field "OldL1BlockNumber" pr_L1BlockNumber.
Definition OldL1BlockHash := old_field "OldL1BlockHash" pr_L1BlockHash.
Definition OldProof := old_field "OldProof" pr_Proof.

Definition lift_value {A} (c : A → GoValue) (p : prog ((error + A) * ProofRequestMutation))
    : prog ((error + GoValue) * ProofRequestMutation) :=
  r ← p;
  Ret (match fst r with inl err => inl err | inr a => inr (c a) end, snd r).

Definition OldField (h : Handle) (name : string) (m : ProofRequestMutation)
    : prog ((error + GoValue) * ProofRequestMutation) :=
  switch name
    [(FieldType, lift_value VType ∘ OldType h);
     (FieldStartBlock, lift_value VUint64 ∘ OldStartBlock h);
     (FieldEndBlock, lift_value VUint64 ∘ OldEndBlock h);
     (FieldStatus, lift_value VStatus ∘ OldStatus h);
     (FieldRequestAddedTime, lift_value VUint64 ∘ OldRequestAddedTime h);
     (FieldProverRequestID, lift_value VString ∘ OldProverRequestID h);
     (FieldProofRequestTime, lift_value VUint64 ∘ OldProofRequestTime h);
     (FieldLastUpdatedTime, lift_value VUint64 ∘ OldLastUpdatedTime h);
     (FieldL1BlockNumber, lift_value VUint64 ∘ OldL1BlockNumber h);
     (FieldL1BlockHash, lift_value VString ∘ OldL1BlockHash h);
     (FieldProof, lift_value VBytes ∘ OldProof h)]
    (λ m, Ret (inl (Errorf "unknown ProofRequest field %s" [AStr name]), m)) m.

(** ** Edges, of which the schema has none *)

Definition AddedEdges (m : ProofRequestMutation) : list string := [].
Definition AddedIDs (m : ProofRequestMutation) (name : string) : list Z := [].
Definition RemovedEdges (m : ProofRequestMutation) : list string := [].
Definition RemovedIDs (m : ProofRequestMutation) (name : string) : list Z := [].
Definition ClearedEdges (m : ProofRequestMutation) : list string := [].
Definition EdgeCleared (m : ProofRequestMutation) (name : string) : bool := false.
Definition ClearEdge (name : string) (m : ProofRequestMutation) : option error :=
  Some (Errorf "unknown ProofRequest unique edge %s" [AStr name]).
Definition ResetEdge (name : string) (m : ProofRequestMutation) : option error :=
  Some (Errorf "unknown ProofRequest edge %s" [AStr name]).

(** * Properties *)

(** ** Old values are read once *)

Section properties.
Context `{SqlLaws, External}.
Implicit Types (w : World).

Lemma upd_oldValue_same ov m :
  m_op (upd_oldValue ov m) = m_op m ∧ m_id (upd_oldValue ov m) = m_id m ∧
  m_oldValue (upd_oldValue ov m) = ov.
Proof. by destruct m. Qed.

(** What a first look at the entity gave is what every later look gives, an
    error too, whatever the database holds by then, and the database is not
    asked again. *)
Lemma old_value_stable h m w r m' w' :
  run (old_value h m) w = (Ok (r, m'), w') →
  ∀ h2 w2, run (old_value h2 m') w2 = (Ok (r, m'), w2).
Proof.
  unfold old_value. destruct (m_oldValue m) as [|node|id|err] eqn:E; [done| | |].
  1, 3: intros [= <- <- <-] h2 w2; by rewrite E.
  destruct (m_done m).
  - intros [= <- <- <-] h2 w2. by rewrite (proj2 (proj2 (upd_oldValue_same _ m))).
  - rewrite run_bind, run_attempt.
    destruct (run (Client_Get h id) w) as [[node|err| | |] w1]; simpl; try done;
      intros [= <- <- <-] h2 w2; by rewrite (proj2 (proj2 (upd_oldValue_same _ m))).
Qed.

Lemma old_value_keeps h m w r m' w' :
  run (old_value h m) w = (Ok (r, m'), w') →
  m_op m' = m_op m ∧ m_id m' = m_id m ∧ m_oldValue m' ≠ OldNone.
Proof.
  unfold old_value. destruct (m_oldValue m) as [|node|id|err] eqn:E; [done| | |].
  1, 3: intros [= <- <- <-]; by rewrite E.
  destruct (m_done m).
  - intros [= <- <- <-]. by destruct m.
  - rewrite run_bind, run_attempt.
    destruct (run (Client_Get h id) w) as [[node|e| | |] w1]; simpl; try done;
      intros [= <- <- <-]; by destruct m.
Qed.

(** So an [Old] accessor answers the same as long as the mutation is kept,
    for every field. *)
Theorem old_field_stable {A} name (f : ProofRequest → A) h m w r m' w' :
  run (old_field name f h m) w = (Ok (r, m'), w') →
  ∀ h2 w2, run (old_field name f h2 m') w2 = (Ok (r, m'), w2).
Proof.
  unfold old_field at 1. intros Hrun h2 w2.
  destruct (decide (m_op m = OpUpdateOne)) as [Ho|Ho]; cycle 1.
  { destruct (m_op m) eqn:E; try done; injection Hrun as <- <- <-;
      unfold old_field; by rewrite E. }
  rewrite Ho in Hrun. destruct (m_id m) as [id|] eqn:Ei; cycle 1.
  { injection Hrun as <- <- <-. unfold old_field. by rewrite Ho, Ei. }
  destruct (m_oldValue m) eqn:Ev.
  { injection Hrun as <- <- <-. unfold old_field. by rewrite Ho, Ei, Ev. }
  all: rewrite run_bind in Hrun;
    destruct (run (old_value h m) w) as [[[r1 m1]|e| | |] w1] eqn:Er; try done;
    cbn in Hrun; injection Hrun as <- <- <-;
    destruct (old_value_keeps _ _ _ _ _ _ Er) as (Ho1 & Hi1 & Hv1);
    unfold old_field; rewrite Ho1, Ho, Hi1, Ei; destruct (m_oldValue m1) eqn:Ev1; try done;
    rewrite run_bind, (old_value_stable _ _ _ _ _ _ Er); done.
Qed.

(** ** Queries for ids *)

Lemma returns_ids ScanSlice lim ps w P E :
  (∀ l, ScanSlice [EColumn FieldID] ((λ r : Row, [Some (SInt (row_id r))]) <$> l) = inr (row_id <$> l)) →
  0 < lim →
  (∀ w' full, frame w w' → rows w' = rows w → full ≡ₚ matching ps (rows w) →
     P (row_id <$> take (Z.to_nat lim) full) w') →
  (∀ e w', frame w w' → rows w' = rows w → E (ESql e) w') →
  returns (prq_IDs ScanSlice (prq_Limit lim (prq_Where ps (Client_Query HRead)))) w P E.
Proof.
  intros Hscan Hlim HP HE. unfold prq_IDs, prs_Scan, prs_sqlScan.
  set (s := prs_selector _). rewrite prepare_valid by by repeat constructor. cbn -[driver_Query s].
  eapply (returns_bind _ _ _ (λ cells w', frame w w' ∧ rows w' = rows w ∧ ∃ full, full ≡ₚ matching ps (rows w) ∧
    cells = (λ r : Row, [Some (SInt (row_id r))]) <$> take (Z.to_nat lim) full)
    (λ e w', frame w w' ∧ rows w' = rows w ∧ ∃ e', e = ESql e')).
  - apply returns_Query; [done|intros cells w' ?? (gs & (full & -> & Hp & _) & ->)|by eauto].
    split; [done|]. split; [done|]. exists full. split; [done|].
    unfold sel_page. rewrite drop_0. change (sel_limit s) with (Some lim). cbv iota beta.
    rewrite (proj2 (Z.ltb_ge _ _)) by lia. rewrite <- list_fmap_compose, <- fmap_take. done.
  - intros cells w' (? & ? & full & Hp & ->). rewrite Hscan. by apply HP.
  - intros e w' (? & ? & e' & ->). by apply HE.
Qed.

(** [Exist] answers whether any row matches. *)
Theorem Exist_correct ScanSlice ps w :
  (∀ l, ScanSlice [EColumn FieldID] ((λ r : Row, [Some (SInt (row_id r))]) <$> l) = inr (row_id <$> l)) →
  returns (prq_Exist ScanSlice (prq_Where ps (Client_Query HRead))) w
    (λ b w', frame w w' ∧ rows w' = rows w ∧ (b = true ↔ matching ps (rows w) ≠ []))
    (λ e w', frame w w' ∧ rows w' = rows w ∧ ∃ e', e = Wrapf "ent: check existence: %w" [] (ESql e')).
Proof.
  intros Hscan. unfold prq_Exist.
  eapply (returns_bind _ _ _ (λ r w', frame w w' ∧ rows w' = rows w ∧
    match r with
    | inr id => matching ps (rows w) ≠ []
    | inl e => (e = NotFoundError Label ∧ matching ps (rows w) = []) ∨ ∃ e', e = ESql e'
    end) (λ _ _, False)); [| |done].
  - apply returns_attempt. unfold prq_FirstID.
    eapply (returns_bind _ _ _ (λ ids w', frame w w' ∧ rows w' = rows w ∧
      (ids = [] ↔ matching ps (rows w) = [])) (λ e w', frame w w' ∧ rows w' = rows w ∧ ∃ e', e = ESql e')).
    + apply returns_ids; [done|lia| |by eauto].
      intros w' full ?? Hp. split_and!; [done..|].
      change (Z.to_nat 1) with 1%nat. destruct full as [|r full]; simpl.
      * symmetry in Hp. apply Permutation_nil_r in Hp. by rewrite Hp.
      * split; [done|]. intros Hm. rewrite Hm in Hp. by apply Permutation_nil_r in Hp.
    + intros [|id ids] w' (? & ? & Hi); simpl; split_and!; try done.
      * left. split; [done|]. by apply Hi.
      * intros Hm. by apply Hi in Hm.
    + intros e w' (? & ? & ?). by eauto.
  - intros [e|id] w' (? & ? & Hr).
    + destruct Hr as [[-> Hm]|[e' ->]]; simpl; [|split_and!; [done..|by exists e']].
      split_and!; [done..|]. by rewrite Hm.
    + by simpl.
Qed.

End properties.
