(* ===== verification/Hooks.v ===== *)
(** * Hooks, interceptors and transaction hooks of the generated client

    [db/ent/hook/hook.go], [withHooks] and [withInterceptors] of [ent.go],
    [Use] and [Intercept] of [client.go], the hooks of a transaction in [tx.go]
    and the builders of [Builders] with hooks.  The proposer adds none; without
    them the builders are those of [Builders] ([Save_no_hooks]). *)

From S2P Require Import Prelude Sql ProofRequest Metrics Prog Script Mutation Builders.

Local Open Scope string_scope.

(** ** Mutators *)

(** The interface [ent.Mutation]: a mutation of this package, or one of another
    schema, known by its methods. *)
Record ForeignMutation := mkForeign {
  fm_type : string;
  fm_Op : Op;
  fm_Field : string → option GoValue;
  fm_AddedField : string → option GoValue;
  fm_FieldCleared : string → bool;
}.

Inductive Mutation :=
| MProofRequest (m : ProofRequestMutation)
| MForeign (m : ForeignMutation).

Definition mutation_Op (m : Mutation) : Op :=
  match m with MProofRequest m => Mut_Op m | MForeign m => fm_Op m end.
Definition mutation_Field (m : Mutation) (name : string) : option GoValue :=
  match m with MProofRequest m => Field m name | MForeign m => fm_Field m name end.
Definition mutation_AddedField (m : Mutation) (name : string) : option GoValue :=
  match m with MProofRequest m => AddedField m name | MForeign m => fm_AddedField m name end.
Definition mutation_FieldCleared (m : Mutation) (name : string) : bool :=
  match m with MProofRequest m => FieldCleared m name | MForeign m => fm_FieldCleared m name end.

(** An [ent.Value], with its type. *)
Inductive Value :=
| RNode (node : ProofRequest)
| RNodes (nodes : list ProofRequest)
| RInt (n : Z)
| ROther (type : string).

Definition of_node (v : Value) : option ProofRequest := match v with RNode node => Some node | _ => None end.
Definition of_nodes (v : Value) : option (list ProofRequest) := match v with RNodes l => Some l | _ => None end.
Definition of_int (v : Value) : option Z := match v with RInt n => Some n | _ => None end.

(** Where a client in debug mode logs to. *)
Inductive Logger := LogPrintln | LogFunc (name : string).

Section hooks.
Context `{External}.

(** [Mutate] on a pointer: the value, and what the pointer points to then. *)
Definition Mutator := Mutation → prog (Value * Mutation).
Definition Middleware := Mutator → Mutator.
(** A Go function value, which may be nil. *)
Definition Hook := option Middleware.

(** A call of a nil function panics. *)
Definition call_hook (h : Hook) (next : Mutator) : Mutator :=
  match h with Some f => f next | None => λ _, Panic "nil function" end.

(** [ProofRequestFunc.Mutate] *)
Definition ProofRequestFunc_Mutate (f : ProofRequestMutation → prog (Value * ProofRequestMutation)) : Mutator := λ m,
  match m with
  | MProofRequest mv => r ← f mv; Ret (r.1, MProofRequest r.2)
  | MForeign m => Raise (Errorf "unexpected mutation type %T. expect *ent.ProofRequestMutation" [AStr (fm_type m)])
  end.

(** ** Conditions *)

Definition Condition := Mutation → prog bool.

(** [if !first(ctx, m) || !second(ctx, m) { return false }], then the rest until
    one is false. *)
Fixpoint all_conditions (l : list Condition) : Condition := λ m,
  match l with
  | [] => Ret true
  | cond :: rest => b ← cond m; if b : bool then all_conditions rest m else Ret false
  end.
Fixpoint any_condition (l : list Condition) : Condition := λ m,
  match l with
  | [] => Ret false
  | cond :: rest => b ← cond m; if b : bool then Ret true else any_condition rest m
  end.

Definition hook_And (first second : Condition) (rest : list Condition) : Condition :=
  all_conditions (first :: second :: rest).
Definition hook_Or (first second : Condition) (rest : list Condition) : Condition :=
  any_condition (first :: second :: rest).
Definition hook_Not (cond : Condition) : Condition := λ m, b ← cond m; Ret (negb b).

(** A value of [ent.Op] as a set of operations, [Is] and [String] of it. *)
Record OpSet := mkOpSet { os_Is : Op → bool; os_String : string }.

Definition HasOp (op : OpSet) : Condition := λ m, Ret (os_Is op (mutation_Op m)).
Definition HasAddedFields (field : string) (fields : list string) : Condition := λ m,
  Ret (forallb (λ f, bool_decide (is_Some (mutation_AddedField m f))) (field :: fields)).
Definition HasClearedFields (field : string) (fields : list string) : Condition := λ m,
  Ret (forallb (mutation_FieldCleared m) (field :: fields)).
Definition HasFields (field : string) (fields : list string) : Condition := λ m,
  Ret (forallb (λ f, bool_decide (is_Some (mutation_Field m f))) (field :: fields)).

(** ** Hooks *)

Definition hook_If (hk : Hook) (cond : Condition) : Hook :=
  Some (λ next m, b ← cond m; if b : bool then call_hook hk next m else next m).
Definition On (hk : Hook) (op : OpSet) : Hook := hook_If hk (HasOp op).
Definition Unless (hk : Hook) (op : OpSet) : Hook := hook_If hk (hook_Not (HasOp op)).
Definition FixedError (err : error) : Hook := Some (λ _ _, Raise err).
Definition Reject (op : OpSet) : Hook :=
  On (FixedError (Errorf "%s operation is not allowed" [AStr (os_String op)])) op.

Record Chain := mkChain { chain_hooks : list Hook }.
Definition NewChain (hooks : list Hook) : Chain := mkChain hooks.
Definition Chain_Hook (c : Chain) : Hook := Some (λ mutator, foldr call_hook mutator (chain_hooks c)).
Definition Chain_Append (hooks : list Hook) (c : Chain) : Chain := mkChain (chain_hooks c ++ hooks)%list.
Definition Chain_Extend (chain c : Chain) : Chain := Chain_Append (chain_hooks chain) c.

(** ** [withHooks] *)

(** The builder's operation as the innermost mutator: the mutation it is given
    becomes the builder's. *)
Definition base_mutator {A} (value : A → Value) (exec : ProofRequestMutation → prog (A * ProofRequestMutation)) : Mutator := λ m,
  match m with
  | MProofRequest mutation => r ← exec mutation; Ret (value r.1, MProofRequest r.2)
  | MForeign m => Raise (Errorf "unexpected mutation type %T" [AStr (fm_type m)])
  end.

(** The hooks around a mutator, from the last; a nil hook is refused. *)
Fixpoint wrap_hooks (hooks : list Hook) (mut : Mutator) : option Mutator :=
  match hooks with
  | [] => Some mut
  | hk :: hooks' => inner ← wrap_hooks hooks' mut; f ← hk; Some (f inner)
  end.

Definition withHooks {A} (value : A → Value) (of_value : Value → option A)
    (exec : ProofRequestMutation → prog (A * ProofRequestMutation)) (mutation : ProofRequestMutation) (hooks : list Hook)
    : prog (A * ProofRequestMutation) :=
  match hooks with
  | [] => exec mutation
  | _ =>
      match wrap_hooks hooks (base_mutator value exec) with
      | None => Raise (Errorf "ent: uninitialized hook (forgotten import ent/runtime?)" [])
      | Some mut =>
          r ← mut (MProofRequest mutation);
          match of_value r.1 with
          | None => Raise (Errorf "unexpected node type %T returned from %T" [])
          | Some nv => Ret (nv, match r.2 with MProofRequest m => m | MForeign _ => mutation end)
          end
      end
  end.

(** ** Clients *)

(** The driver of a client: a connection, that of a transaction begun on a
    driver, or one that logs. *)
Inductive ClientDriver :=
| DrvNil
| DrvSql (h : Handle)
| DrvTx (drv : ClientDriver)
| DrvDebug (log : Logger) (d : ClientDriver).

(** [hooks] and [inters] are pointers, shared by the configurations copied from
    this one: the state [ClientHooks] below. *)
Record ClientConfig := mkClientConfig {
  cc_driver : ClientDriver;
  cc_debug : bool;
  cc_log : Logger;
}.

Definition ClientOption := ClientConfig → ClientConfig.

Definition opt_Debug : ClientOption := λ c, mkClientConfig (cc_driver c) true (cc_log c).
Definition opt_Log (fn : Logger) : ClientOption := λ c, mkClientConfig (cc_driver c) (cc_debug c) fn.
Definition opt_Driver (driver : ClientDriver) : ClientOption := λ c, mkClientConfig driver (cc_debug c) (cc_log c).

Definition config_options (opts : list ClientOption) (c : ClientConfig) : ClientConfig :=
  let c := fold_left (λ c opt, opt c) opts c in
  if cc_debug c then mkClientConfig (DrvDebug (cc_log c) (cc_driver c)) true (cc_log c) else c.

Definition newConfig (opts : list ClientOption) : ClientConfig :=
  config_options opts (mkClientConfig DrvNil false LogPrintln).
Definition NewClient (opts : list ClientOption) : ClientConfig := newConfig opts.

(** [Open]: [sql_Open] gives the connection of a data source. *)
Definition Open (sql_Open : string → string → error + Handle) (driverName dataSourceName : string) (options : list ClientOption)
    : error + ClientConfig :=
  if bool_decide (driverName ∈ ["mysql"; "postgres"; "sqlite3"]) then
    match sql_Open driverName dataSourceName with
    | inl err => inl err
    | inr drv => inr (NewClient (options ++ [opt_Driver (DrvSql drv)])%list)
    end
  else inl (Errorf "unsupported driver: %q" [AStr driverName]).

Definition Client_Debug (c : ClientConfig) : ClientConfig :=
  if cc_debug c then c
  else mkClientConfig (DrvDebug (cc_log c) (cc_driver c)) (cc_debug c) (cc_log c).

(** ** Builders with hooks *)

Definition prc_SaveWith (hooks : list Hook) (b : ProofRequestCreate) : prog ProofRequest :=
  r ← withHooks RNode of_node (λ m, prc_sqlSave (mkCreate (prc_driver b) m)) (prc_mutation b) hooks;
  Ret r.1.
Definition pru_SaveWith (hooks : list Hook) (b : ProofRequestUpdate) : prog Z :=
  r ← withHooks RInt of_int (λ m, pru_sqlSave (mkUpdate (pru_driver b) m)) (pru_mutation b) hooks;
  Ret r.1.
Definition pruo_SaveWith (hooks : list Hook) (b : ProofRequestUpdateOne) : prog ProofRequest :=
  r ← withHooks RNode of_node (λ m, pruo_sqlSave (mkUpdateOne (pruo_driver b) (pruo_fields b) m)) (pruo_mutation b) hooks;
  Ret r.1.

(** [sqlExec] of a delete: the mutation is done, also after an error. *)
Definition prd_sqlExec (b : ProofRequestDelete) : prog (Z * ProofRequestMutation) :=
  affected ← prd_Exec b;
  Ret (affected, upd_done true (prd_mutation b)).
Definition prd_ExecWith (hooks : list Hook) (b : ProofRequestDelete) : prog Z :=
  r ← withHooks RInt of_int (λ m, prd_sqlExec (mkDelete (prd_driver b) m)) (prd_mutation b) hooks;
  Ret r.1.

(** ** Interceptors *)

(** The interface [ent.Query]: a query of this package, or another. *)
Inductive Query :=
| QProofRequest (q : ProofRequestQuery)
| QForeign (type : string).

Definition Querier := Query → prog Value.

(** An interceptor wraps the querier; one that is a [Traverser] is shown the
    query before. *)
Record Interceptor := mkInterceptor {
  in_Intercept : Querier → Querier;
  in_Traverse : option (ProofRequestQuery → prog ProofRequestQuery);
}.

(** The interceptors a query is prepared with; a nil one is refused. *)
Fixpoint traverse (inters : list (option Interceptor)) (q : ProofRequestQuery) : prog ProofRequestQuery :=
  match inters with
  | [] => Ret q
  | None :: _ => Raise (Errorf "ent: uninitialized interceptor (forgotten import ent/runtime?)" [])
  | Some inter :: inters' =>
      q' ← match in_Traverse inter with Some trv => trv q | None => Ret q end;
      traverse inters' q'
  end.

Definition prq_prepareQueryWith (inters : list (option Interceptor)) (q : ProofRequestQuery) : prog ProofRequestQuery :=
  q' ← traverse inters q;
  _ ← lift_err (prq_prepareQuery q');
  Ret q'.

Definition querierAll : Querier := λ q,
  match q with
  | QProofRequest query => nodes ← prq_sqlAll query; Ret (RNodes nodes)
  | QForeign type => Raise (Errorf "unexpected query type %T" [AStr type])
  end.
Definition querierCount : Querier := λ q,
  match q with
  | QProofRequest query => n ← prq_sqlCount query; Ret (RInt n)
  | QForeign type => Raise (Errorf "unexpected query type %T" [AStr type])
  end.

Definition call_interceptor (inter : option Interceptor) (qr : Querier) : Querier :=
  match inter with Some inter => in_Intercept inter qr | None => λ _, Panic "nil interceptor" end.

Definition withInterceptors {V} (of_value : Value → option V) (q : Query) (qr : Querier) (inters : list (option Interceptor)) : prog V :=
  rv ← foldr call_interceptor qr inters q;
  match of_value rv with
  | Some vt => Ret vt
  | None => Raise (Errorf "unexpected type %T returned from %T. expected type: %T" [])
  end.

Definition prq_AllWith (inters : list (option Interceptor)) (q : ProofRequestQuery) : prog (list ProofRequest) :=
  q' ← prq_prepareQueryWith inters q;
  withInterceptors of_nodes (QProofRequest q') querierAll inters.
Definition prq_CountWith (inters : list (option Interceptor)) (q : ProofRequestQuery) : prog Z :=
  q' ← prq_prepareQueryWith inters q;
  withInterceptors of_int (QProofRequest q') querierCount inters.

(** ** [Use] and [Intercept] *)

Record ClientHooks := mkClientHooks { ch_hooks : list Hook; ch_inters : list (option Interceptor) }.

Definition Client_Use (hooks : list Hook) (c : ClientHooks) : ClientHooks :=
  mkClientHooks (ch_hooks c ++ hooks)%list (ch_inters c).
Definition Client_Intercept (interceptors : list (option Interceptor)) (c : ClientHooks) : ClientHooks :=
  mkClientHooks (ch_hooks c) (ch_inters c ++ interceptors)%list.

(** ** Transactions *)

(** [CommitHook] and [RollbackHook]: what is done around the commit, or the
    rollback, of a transaction. *)
Definition CommitHook := prog unit → prog unit.

(** The driver of a transaction: its hooks. *)
Record txDriver := mkTxDriver { onCommit : list CommitHook; onRollback : list CommitHook }.

Definition newTx : txDriver := mkTxDriver [] [].
Definition Tx_OnCommit (f : CommitHook) (tx : txDriver) : txDriver := mkTxDriver (onCommit tx ++ [f])%list (onRollback tx).
Definition Tx_OnRollback (f : CommitHook) (tx : txDriver) : txDriver := mkTxDriver (onCommit tx) (onRollback tx ++ [f])%list.
Definition Tx_CommitWith (tx : txDriver) : prog unit := foldr (λ f fn, f fn) Tx_Commit (onCommit tx).
Definition Tx_RollbackWith (tx : txDriver) : prog unit := foldr (λ f fn, f fn) Tx_Rollback (onRollback tx).

(** The builders that work in a transaction commit nothing themselves. *)
Definition txDriver_Commit : option error := None.
Definition txDriver_Rollback : option error := None.
Definition txDriver_Close : option error := None.

End hooks.

(** * Properties *)

(** ** Programs that run alike *)

Section equiv.
Context `{SqlGraph, External}.

Definition peq {A} : relation (prog A) := λ p q, ∀ w : World, run p w = run q w.

#[export] Instance peq_equivalence {A} : Equivalence (@peq A).
Proof. split; [done|intros p q Hp w; by rewrite Hp|intros p q r Hp Hq w; by rewrite Hp, Hq]. Qed.

#[export] Instance bind_peq {A B} : Proper (pointwise_relation A peq ==> peq ==> peq) (@mbind prog _ A B).
Proof.
  intros f g Hf p q Hp w. rewrite !run_bind, Hp. destruct (run q w) as [[a|e|m| |] w']; simpl; try done. apply Hf.
Qed.

Lemma bind_assoc {A B C} (f : A → prog B) (g : B → prog C) p : peq (x ← (y ← p; f y); g x) (y ← p; x ← f y; g x).
Proof. intros w. rewrite !run_bind. destruct (run p w) as [[a|e|m| |] w']; simpl; try done. by rewrite run_bind. Qed.

Lemma bind_ret {A} (p : prog A) : peq (x ← p; Ret x) p.
Proof. intros w. rewrite run_bind. by destruct (run p w) as [[a|e|m| |] w']. Qed.

(** ** Conditions *)

Lemma not_all_conditions l m :
  peq (b ← all_conditions l m; Ret (negb b)) (any_condition (hook_Not <$> l) m).
Proof.
  induction l as [|cond l IH]; [done|]. simpl. change (hook_Not cond m) with (b ← cond m; Ret (negb b)).
  rewrite !bind_assoc. apply bind_peq; [|reflexivity]. intros []; simpl; [apply IH|reflexivity].
Qed.

(** ** Wrapping *)

Lemma wrap_hooks_some hooks mut : (∀ hk, hk ∈ hooks → hk ≠ None) → wrap_hooks hooks mut = Some (foldr call_hook mut hooks).
Proof.
  induction hooks as [|hk hooks IH]; intros Hall; simpl; [done|].
  rewrite IH by set_solver. simpl. destruct hk as [f|]; [done|]. set_solver.
Qed.

(** ** [withHooks] *)

Section with_hooks.
Context {A : Type} (value : A → Value) (of_value : Value → option A).
Context (Hvalue : ∀ a, of_value (value a) = Some a).
Context (exec : ProofRequestMutation → prog (A * ProofRequestMutation)).

(** The result a mutator gives back to the builder. *)
Definition result (mutation : ProofRequestMutation) (r : Value * Mutation) : prog (A * ProofRequestMutation) :=
  match of_value r.1 with
  | None => Raise (Errorf "unexpected node type %T returned from %T" [])
  | Some nv => Ret (nv, match r.2 with MProofRequest m => m | MForeign _ => mutation end)
  end.

(** With hooks or without: the hooks around the builder's operation, in order. *)
Lemma withHooks_foldr m hooks :
  (∀ hk, hk ∈ hooks → hk ≠ None) →
  peq (withHooks value of_value exec m hooks)
      (r ← foldr call_hook (base_mutator value exec) hooks (MProofRequest m); result m r).
Proof.
  intros Hall. destruct hooks as [|hk hooks].
  - simpl. rewrite bind_assoc. rewrite <- (bind_ret (exec m)) at 1. apply bind_peq; [|reflexivity].
    intros [a m']. simpl. unfold result. simpl. by rewrite Hvalue.
  - unfold withHooks. rewrite wrap_hooks_some by done. reflexivity.
Qed.

Lemma nil_hook (hooks : list Hook) : None ∈ hooks ∨ ∀ hk, hk ∈ hooks → hk ≠ None.
Proof.
  induction hooks as [|[f|] hooks IH]; [right; by intros hk ?%elem_of_nil| |left; by left].
  destruct IH as [IH|IH]; [left; by right|right]. intros hk [->|Hh]%elem_of_cons; [done|by apply IH].
Qed.

(** A nil hook is an error before anything is done. *)
Lemma withHooks_nil m hooks : None ∈ hooks →
  withHooks value of_value exec m hooks = Raise (Errorf "ent: uninitialized hook (forgotten import ent/runtime?)" []).
Proof.
  intros Hin. assert (wrap_hooks hooks (base_mutator value exec) = None) as Hw.
  { induction hooks as [|hk hooks IH]; [set_solver|]. simpl. apply elem_of_cons in Hin as [<-|Hin].
    - by destruct (wrap_hooks hooks _).
    - by rewrite IH. }
  destruct hooks; [set_solver|]. unfold withHooks. by rewrite Hw.
Qed.

(** What a hook makes of a mutation, the rest of the list around the builder. *)
Lemma withHooks_cons m hk hooks :
  (∀ h, h ∈ hk :: hooks → h ≠ None) →
  peq (withHooks value of_value exec m (hk :: hooks))
      (r ← call_hook hk (foldr call_hook (base_mutator value exec) hooks) (MProofRequest m); result m r).
Proof. apply (withHooks_foldr m (hk :: hooks)). Qed.

(** A hook under a condition that holds is the hook, and under one that does not
    is none. *)
Lemma withHooks_If m hk cond hooks (b : bool) :
  (∀ h, h ∈ hk :: hooks → h ≠ None) → cond (MProofRequest m) = Ret b →
  peq (withHooks value of_value exec m (hook_If hk cond :: hooks))
      (withHooks value of_value exec m (if b then hk :: hooks else hooks)).
Proof.
  intros Hall Hb. etrans; [apply withHooks_cons; intros h [->|Hh]%elem_of_cons; [done|apply Hall; by right]|].
  simpl. rewrite Hb. simpl. symmetry.
  destruct b; [by apply withHooks_cons|]. apply withHooks_foldr. intros h Hh. apply Hall. by right.
Qed.

(** C14: a client's hooks run as written: none is the builder's own operation; a
    chain of hooks is its hooks in order, and an extended chain the one around
    the other; [On] and [Unless] divide the operations; and [Reject] refuses its
    operations before anything is sent and is no hook for the others. *)
Theorem withHooks_laws m hooks op hk c d :
  (∀ h, h ∈ hk :: hooks → h ≠ None) →
  withHooks value of_value exec m [] = exec m ∧
  peq (withHooks value of_value exec m [Chain_Hook (NewChain hooks)]) (withHooks value of_value exec m hooks) ∧
  (∀ next, call_hook (Chain_Hook (Chain_Extend d c)) next = call_hook (Chain_Hook c) (call_hook (Chain_Hook d) next)) ∧
  peq (withHooks value of_value exec m (On hk op :: hooks))
      (withHooks value of_value exec m (if os_Is op (Mut_Op m) then hk :: hooks else hooks)) ∧
  peq (withHooks value of_value exec m (Unless hk op :: hooks))
      (withHooks value of_value exec m (if os_Is op (Mut_Op m) then hooks else hk :: hooks)) ∧
  peq (withHooks value of_value exec m (Reject op :: hooks))
      (if os_Is op (Mut_Op m) then Raise (Errorf "%s operation is not allowed" [AStr (os_String op)])
       else withHooks value of_value exec m hooks).
Proof.
  intros Hall. assert (∀ h, h ∈ hooks → h ≠ None) as Hhooks by (intros h Hh; apply Hall; by right).
  split_and!; [done|..].
  - etrans; [apply withHooks_cons; intros h [->|Hh]%elem_of_cons; [done|by apply elem_of_nil in Hh]|].
    symmetry. by apply withHooks_foldr.
  - intros next. simpl. by rewrite foldr_app.
  - by apply withHooks_If.
  - etrans; [by apply (withHooks_If _ _ _ _ (negb (os_Is op (Mut_Op m))))|]. by destruct (os_Is op _).
  - unfold Reject, On. etrans; [apply (withHooks_If _ _ _ _ (os_Is op (Mut_Op m))); [|done]|].
    + intros h [->|Hh]%elem_of_cons; [done|by apply Hhooks].
    + destruct (os_Is op (Mut_Op m)); [|done]. apply withHooks_cons.
      intros h [->|Hh]%elem_of_cons; [done|by apply Hhooks].
Qed.

(** What the builder's operation keeps, and every hook keeps around what keeps
    it, the builder with its hooks keeps. *)
Lemma withHooks_keeps (I : World → Prop) hooks :
  (∀ m w, I w → I (run (exec m) w).2) →
  (∀ f next, Some f ∈ hooks → (∀ m w, I w → I (run (next m) w).2) → ∀ m w, I w → I (run (f next m) w).2) →
  ∀ m w, I w → I (run (withHooks value of_value exec m hooks) w).2.
Proof.
  intros Hexec Hhooks m w HI.
  destruct (nil_hook hooks) as [Hn|Hn]; [by rewrite withHooks_nil|].
  rewrite (withHooks_foldr m hooks Hn).
  assert (∀ m w, I w → I (run (foldr call_hook (base_mutator value exec) hooks m) w).2) as Hfold.
  { clear Hn. induction hooks as [|hk hooks IH]; intros m' w' HI'; simpl.
    - destruct m' as [m'|m']; [|done]. simpl. rewrite run_bind.
      pose proof (Hexec m' w' HI') as Hx. by destruct (run (exec m') w') as [[|?|?| |] ?].
    - destruct hk as [f|]; [|done]. apply (Hhooks f); [set_solver| |done].
      intros. apply IH; [|done]. set_solver. }
  rewrite run_bind. pose proof (Hfold (MProofRequest m) w HI) as Hx.
  destruct (run _ w) as [[r|?|?| |] w']; simpl in *; try done.
  unfold result. by destruct (of_value r.1).
Qed.

End with_hooks.

(** ** The builders, which the proposer uses without hooks *)

Lemma prepare_no_interceptors q : peq (prq_prepareQueryWith [] q) (_ ← lift_err (prq_prepareQuery q); Ret q).
Proof. done. Qed.

Theorem builders_without_hooks (b : ProofRequestCreate) (u : ProofRequestUpdate) (o : ProofRequestUpdateOne)
    (d : ProofRequestDelete) (q : ProofRequestQuery) :
  peq (prc_SaveWith [] b) (prc_Save b) ∧ peq (pru_SaveWith [] u) (pru_Save u) ∧
  peq (pruo_SaveWith [] o) (pruo_Save o) ∧ peq (prd_ExecWith [] d) (prd_Exec d) ∧
  peq (prq_AllWith [] q) (prq_All q) ∧ peq (prq_CountWith [] q) (prq_Count q).
Proof.
  split_and!.
  - by destruct b.
  - by destruct u.
  - by destruct o.
  - destruct d as [h m]. intros w. unfold prd_ExecWith, prd_sqlExec. cbn [withHooks prd_driver prd_mutation].
    rewrite !run_bind. by destruct (run (prd_Exec _) w) as [[|?|?| |] ?].
  - intros w. unfold prq_AllWith, prq_All, prq_prepareQueryWith, withInterceptors. cbn [traverse foldr].
    rewrite !run_bind. cbn [run run_then]. rewrite !run_bind. destruct (prq_prepareQuery q); [done|].
    cbn [run run_then lift_err]. unfold querierAll. rewrite !run_bind. by destruct (run (prq_sqlAll q) w) as [[|?|?| |] ?].
  - intros w. unfold prq_CountWith, prq_Count, prq_prepareQueryWith, withInterceptors. cbn [traverse foldr].
    rewrite !run_bind. cbn [run run_then]. rewrite !run_bind. destruct (prq_prepareQuery q); [done|].
    cbn [run run_then lift_err]. unfold querierCount. rewrite !run_bind. by destruct (run (prq_sqlCount q) w) as [[|?|?| |] ?].
Qed.

(** ** The hooks of a transaction *)

(** Without hooks a commit is the commit; a hook added first is around all
    others; and one that fails before it hands on leaves the transaction open
    and the table as it was. *)
Theorem commit_hooks tx f g e (w : World) :
  Tx_CommitWith newTx = Tx_Commit ∧
  Tx_CommitWith (Tx_OnCommit g (Tx_OnCommit f newTx)) = f (g Tx_Commit) ∧
  Tx_CommitWith (Tx_OnRollback f tx) = Tx_CommitWith tx ∧
  (onCommit tx = [] → run (Tx_CommitWith (Tx_OnCommit (λ _, Raise e) tx)) w = (Fail e, w)).
Proof. split_and!; [done..|]. intros Ht. unfold Tx_CommitWith. simpl. by rewrite Ht. Qed.

(** ** Clients *)

(** [Open] gives a client of the data source, whatever its options say about
    the driver; it logs exactly in debug mode. *)
Theorem Open_client sql_Open name source options drv :
  name ∈ ["mysql"; "postgres"; "sqlite3"] → sql_Open name source = inr drv →
  ∃ c, Open sql_Open name source options = inr c ∧
    cc_driver c = (if cc_debug c then DrvDebug (cc_log c) (DrvSql drv) else DrvSql drv).
Proof.
  intros Hn Ho. unfold Open. rewrite bool_decide_true, Ho by done. eexists. split; [done|].
  unfold NewClient, newConfig, config_options. rewrite fold_left_app. simpl.
  by destruct (fold_left _ options _) as [d [] l].
Qed.

End equiv.

(** ** An update that is refused *)

Definition updates : OpSet := mkOpSet (λ op, match op with OpUpdate | OpUpdateOne => true | _ => false end) "OpUpdate|OpUpdateOne".

Lemma withHooks_laws_witness :
  let update := pru_SetStatus StatusFAILED (Client_Update HWrite) in
  let save := λ m, pru_sqlSave (mkUpdate HWrite m) in
  @peq ListSql ScriptExternal _ (withHooks RInt of_int save (pru_mutation update) [Reject updates])
    (Raise (Errorf "%s operation is not allowed" [AStr "OpUpdate|OpUpdateOne"])).
Proof.
  intros update save.
  apply (@withHooks_laws ListSql ScriptExternal Z RInt of_int (λ n, eq_refl) save (pru_mutation update) [] updates
    (FixedError (Errorf "closed" [])) (NewChain []) (NewChain [])).
  intros h [->|Hh]%elem_of_cons; [done|by apply elem_of_nil in Hh].
Defined.
