(* ===== verification/Handles.v ===== *)
(** * Clients, transactions and contexts as values ([client.go], [tx.go], [ent.go])

    What the generated code passes around: a client and the clients made from
    it, the transaction with the client bound to it, an entity's way back from a
    transaction, what a context carries, and the scan of a selection under
    interceptors.  The database operations themselves are in [Builders] and
    [Client]. *)

From Stdlib Require Import ZArith.
From S2P Require Import Prelude Sql ProofRequest Metrics Encoding Prog Types Script Mutation Builders Select Client Hooks.

Local Open Scope string_scope.

(** ** Clients *)

(** [Schema] is known by its driver. *)
Record EntClient := mkEntClient {
  cl_config : ClientConfig;
  cl_Schema : ClientDriver;
  cl_ProofRequest : ClientConfig;
}.

Definition NewProofRequestClient (c : ClientConfig) : ClientConfig := c.
Definition Client_init (c : ClientConfig) : EntClient := mkEntClient c (cc_driver c) (NewProofRequestClient c).

(** The connection behind a driver; a transaction's operations are those of its
    [*sql.Tx], and one that logs passes everything on. *)
Fixpoint driver_handle (d : ClientDriver) : option Handle :=
  match d with
  | DrvNil => None
  | DrvSql h => Some h
  | DrvTx _ => Some HTx
  | DrvDebug _ d => driver_handle d
  end.

Fixpoint driver_Close (d : ClientDriver) : prog unit :=
  match d with
  | DrvNil => Panic "nil driver"
  | DrvSql h => r ← db (DbClose h); match r with Some e => Raise (ESql e) | None => Ret tt end
  | DrvTx _ => lift_err txDriver_Close
  | DrvDebug _ d => driver_Close d
  end.
Definition Client_Close (c : EntClient) : prog unit := driver_Close (cc_driver (cl_config c)).

(** A mutation of this package is handed to its client. *)
Definition Client_Mutate (c : EntClient) (m : Mutation) : prog MutValue :=
  match m with
  | MProofRequest m =>
      match driver_handle (cc_driver (cl_ProofRequest c)) with
      | Some h => Client_mutate h m
      | None => Panic "nil driver"
      end
  | MForeign m => Raise (Errorf "ent: unknown mutation type %T" [AStr (fm_type m)])
  end.

Definition Client_Hooks (c : ClientHooks) : list Hook := ch_hooks c.
Definition Client_Interceptors (c : ClientHooks) : list (option Interceptor) := ch_inters c.

(** ** Transactions *)

Record Tx := mkTx {
  tx_config : ClientConfig;
  tx_ProofRequest : ClientConfig;
  tx_client : option EntClient;   (* made on first use *)
}.

Definition is_txDriver (d : ClientDriver) : bool := match d with DrvTx _ => true | _ => false end.

(** The transactional client over a configuration. *)
Definition Tx_over (c : ClientConfig) : Tx :=
  let cfg := mkClientConfig (DrvTx (cc_driver c)) (cc_debug c) (cc_log c) in
  mkTx cfg (NewProofRequestClient cfg) None.

(** A transaction is begun on the write client: see [Prog]. *)
Definition Client_Tx_value (c : EntClient) : prog Tx :=
  _ ← Client_Tx (is_txDriver (cc_driver (cl_config c)));
  Ret (Tx_over (cl_config c)).

Definition Client_BeginTx (opts : option TxOptions) (c : EntClient) : prog Tx :=
  if is_txDriver (cc_driver (cl_config c))
  then Raise (Errorf "ent: cannot start a transaction within a transaction" [])
  else
    r ← db (TxBegin opts);
    match r with
    | inl e => Raise (Wrapf "ent: starting a transaction: %w" [] (ESql e))
    | inr _ => Ret (Tx_over (cl_config c))
    end.

Definition Tx_Client (tx : Tx) : EntClient * Tx :=
  match tx_client tx with
  | Some c => (c, tx)
  | None => let c := Client_init (tx_config tx) in (c, mkTx (tx_config tx) (tx_ProofRequest tx) (Some c))
  end.
Definition Tx_init (tx : Tx) : Tx := mkTx (tx_config tx) (NewProofRequestClient (tx_config tx)) (tx_client tx).

(** An entity's driver after [Unwrap]. *)
Definition pr_Unwrap (d : ClientDriver) : prog ClientDriver :=
  match d with DrvTx drv => Ret drv | _ => Panic "ent: ProofRequest is not a transactional entity" end.
Definition pr_Update (h : Handle) (pr : ProofRequest) : ProofRequestUpdateOne := Client_UpdateOne h pr.

(** A value that was selected besides the columns. *)
Definition pr_Value (name : string) (pr : ProofRequest) : error + cell :=
  match assoc name (pr_selectValues pr) with
  | Some v => inr v
  | None => inl (Errorf "value was not selected" [AStr name])
  end.

(** ** Contexts *)

(** [QueryContext]: the type and the operation of a query. *)
Record QueryContext := mkQueryContext { qc_Type : string; qc_Op : string }.

(** What [context.WithValue] adds, under a key of each package's own. *)
Inductive ContextValue :=
| CtxClient (c : option EntClient)
| CtxTx (tx : option Tx)
| CtxQuery (qc : QueryContext)
| CtxForeign (key : string).
Definition Context := list ContextValue.

Definition FromContext (ctx : Context) : option EntClient :=
  default None (head (omap (λ v, match v with CtxClient c => Some c | _ => None end) ctx)).
Definition NewContext (parent : Context) (c : option EntClient) : Context := CtxClient c :: parent.
Definition TxFromContext (ctx : Context) : option Tx :=
  default None (head (omap (λ v, match v with CtxTx tx => Some tx | _ => None end) ctx)).
Definition NewTxContext (parent : Context) (tx : option Tx) : Context := CtxTx tx :: parent.
Definition QueryFromContext (ctx : Context) : option QueryContext :=
  head (omap (λ v, match v with CtxQuery qc => Some qc | _ => None end) ctx).

(** The first operation of a call names it. *)
Definition setContextOp (ctx : Context) (qc : QueryContext) (op : string) : Context * QueryContext :=
  match QueryFromContext ctx with
  | None => let qc := mkQueryContext (qc_Type qc) op in (CtxQuery qc :: ctx, qc)
  | Some _ => (ctx, qc)
  end.

(** ** Scans under interceptors *)

Section scan.
Context {A : Type} (sqlScan : ProofRequestQuery → prog (list A)).

(** What an interceptor returns, as reflection sees it beside a pointer to a
    slice of [A]: such a slice or pointer, a nil, a value of another type that
    can be nil, or one that cannot. *)
Inductive ScanValue :=
| SVSlice (l : list A)
| SVPointer (l : list A)
| SVNil
| SVOther
| SVPlain.

(** With a query comes what the destination holds, before and after. *)
Definition ScanQuerier := Query → list A → prog (ScanValue * list A).
Definition ScanInterceptor := option (ScanQuerier → ScanQuerier).

Definition scan_querier : ScanQuerier := λ q _,
  match q with
  | QProofRequest query => v ← sqlScan query; Ret (SVSlice v, v)
  | QForeign type => Raise (Errorf "unexpected query type %T" [AStr type])
  end.
Definition call_scan (inter : ScanInterceptor) (qr : ScanQuerier) : ScanQuerier :=
  match inter with Some f => f qr | None => λ _ _, Panic "nil interceptor" end.

Definition scanWithInterceptors (rootQuery : ProofRequestQuery) (inters : list ScanInterceptor) (v : list A) : prog (list A) :=
  r ← foldr call_scan scan_querier inters (QProofRequest rootQuery) v;
  match r.1 with
  | SVSlice l | SVPointer l => Ret l
  | SVNil | SVOther => Ret r.2
  | SVPlain => Panic "reflect: call of reflect.Value.IsNil"
  end.

End scan.
Arguments SVSlice {A}.
Arguments SVPointer {A}.
Arguments SVNil {A}.
Arguments SVOther {A}.
Arguments SVPlain {A}.

(** * Properties *)

Section properties.
Context `{SqlLaws, External}.
Implicit Types (w : World).

(** Contexts keep what is put into them, each kind apart, and the operation of
    the outermost call. *)
Theorem context_laws ctx c tx qc op qc' op' :
  FromContext (NewContext ctx c) = c ∧ TxFromContext (NewContext ctx c) = TxFromContext ctx ∧
  TxFromContext (NewTxContext ctx tx) = tx ∧ FromContext (NewTxContext ctx tx) = FromContext ctx ∧
  QueryFromContext (NewContext ctx c) = QueryFromContext ctx ∧
  setContextOp (setContextOp ctx qc op).1 qc' op' = ((setContextOp ctx qc op).1, qc') ∧
  (QueryFromContext ctx = None → qc_Op <$> QueryFromContext (setContextOp ctx qc op).1 = Some op).
Proof.
  split_and!; try done.
  - unfold setContextOp. destruct (QueryFromContext ctx) eqn:E; cbn [fst]; [by rewrite E|done].
  - intros E. unfold setContextOp. by rewrite E.
Qed.

(** A transaction has one client, which works in it, starts no other and leaves
    it open when it is closed; an entity read in it finds the way back to the
    client that began it.  Of the two ways to begin another only [Tx] gives
    [ErrTxStarted]. *)
Theorem Tx_Client_laws c w :
  let tx := Tx_over (cl_config c) in
  let '(client, tx') := Tx_Client tx in
  Tx_Client tx' = (client, tx') ∧ driver_handle (cc_driver (cl_ProofRequest client)) = Some HTx ∧
  run (Client_Tx_value client) w = (Fail ErrTxStarted, w) ∧
  (∀ opts, ∃ e, run (Client_BeginTx opts client) w = (Fail e, w) ∧ e ≠ ErrTxStarted) ∧
  run (Client_Close client) w = (Ok tt, w) ∧
  pr_Unwrap (cc_driver (tx_ProofRequest tx')) = Ret (cc_driver (cl_config c)).
Proof. split_and!; try done. intros opts. by eexists. Qed.

(** A transaction begun with options is one on a copy of the table, like one
    without. *)
Theorem BeginTx_begins opts c w :
  w_tx w = None → is_txDriver (cc_driver (cl_config c)) = false →
  returns (Client_BeginTx opts c) w
    (λ tx w', tx = Tx_over (cl_config c) ∧ ∃ t, in_tx w w' t ∧ sg_rows t = rows w)
    (λ e w', frame w w' ∧ rows w' = rows w).
Proof.
  intros Ht Hd. unfold Client_BeginTx. rewrite Hd. apply (returns_bind _ _ _ (λ r w',
    match r with inl _ => frame w w' ∧ rows w' = rows w | inr _ => ∃ t, in_tx w w' t ∧ sg_rows t = rows w end)
    (λ _ _, False)); [|intros [e|[]] w' Hw; [done|by split]|done].
  apply returns_db. by apply begin_cases.
Qed.

(** Without interceptors a scan is that of the statement; a value that cannot be
    nil, from an interceptor, makes it panic. *)
Theorem scan_laws {A} (sqlScan : ProofRequestQuery → prog (list A)) q inters v w :
  run (scanWithInterceptors sqlScan q [] v) w = run (sqlScan q) w ∧
  run (scanWithInterceptors sqlScan q (Some (λ next q v, r ← next q v; Ret (SVNil, r.2)) :: inters) v) w =
    run (r ← foldr call_scan (scan_querier sqlScan) inters (QProofRequest q) v; Ret r.2) w ∧
  (run (scanWithInterceptors sqlScan q (Some (λ _ _ v, Ret (SVPlain, v)) :: inters) v) w).1 =
    Panicked "reflect: call of reflect.Value.IsNil".
Proof.
  unfold scanWithInterceptors. split_and!; [| |done].
  - cbn. rewrite !run_bind. destruct (run (sqlScan q) w) as [[] w']; done.
  - cbn. rewrite !run_bind. by destruct (run (foldr call_scan (scan_querier sqlScan) inters (QProofRequest q) v) w) as [[] w'].
Qed.

End properties.
