(* ===== verification/Bulk.v ===== *)
(** * Creation in bulk ([ProofRequestCreateBulk] of [proofrequest_create.go], [CreateBulk] and [MapCreateBulk] of [client.go])

    The builders' mutators call each other, the last one sends all specs to the
    database at once, and the ids are filled in on the way back.  As in
    [Builders] there are no hooks.  [sqlgraph.BatchCreate] is a parameter: the
    ids it sets in the specs, where the database returns them. *)

From Stdlib Require Import ZArith Lia.
From S2P Require Import Prelude Sql ProofRequest Metrics Prog Mutation Builders Client Hooks.

Local Open Scope string_scope.

Record ProofRequestCreateBulk := mkCreateBulk {
  prcb_driver : Handle;
  prcb_err : option error;
  prcb_builders : list ProofRequestCreate;
}.

Definition Client_CreateBulk (h : Handle) (builders : list ProofRequestCreate) : ProofRequestCreateBulk :=
  mkCreateBulk h None builders.

(** [slice]: its length if it is one, or the name of its type. *)
Definition Client_MapCreateBulk (h : Handle) (slice : string + nat) (setFunc : ProofRequestCreate → nat → ProofRequestCreate)
    : ProofRequestCreateBulk :=
  match slice with
  | inl type =>
      mkCreateBulk h (Some (Errorf "calling to ProofRequestClient.MapCreateBulk with wrong type %T, need slice" [AStr type])) []
  | inr n => mkCreateBulk h None ((λ i, setFunc (Client_Create h) i) <$> seq 0 n)
  end.

Section bulk.
Context `{SqlGraph, External}.
Context (BatchCreate : Handle → list CreateSpec → prog (sqlerr + list (option Z))).

(** The node of a builder once its spec was sent: its id, if the spec has one,
    and its mutation, which is done. *)
Definition bulk_done (node : ProofRequest) (id : option Z) (m : ProofRequestMutation) : ProofRequest * ProofRequestMutation :=
  let node := match id with Some id => set_ID id node | None => node end in
  (node, upd_done true (upd_id (Some (pr_ID node)) m)).

(** Mutator [i], with the specs of those before it: its check and its spec,
    then the next mutator, or [BatchCreate] with all specs. *)
Fixpoint bulk_mutate (h : Handle) (specs : list CreateSpec) (builder : ProofRequestCreate) (rest : list ProofRequestCreate)
    : prog (list (ProofRequest * ProofRequestMutation) * list (option Z)) :=
  match prc_check (prc_mutation builder) with
  | Some err => Raise err
  | None =>
      let '(node, spec) := prc_createSpec (prc_mutation builder) in
      r ← match rest with
          | next :: rest' => bulk_mutate h (specs ++ [spec])%list next rest'
          | [] =>
              r ← BatchCreate h (specs ++ [spec])%list;
              match r with
              | inl err => Raise (constraint_error err)
              | inr ids => Ret ([], ids)
              end
          end;
      Ret (bulk_done node (mjoin (snd r !! length specs)) (prc_mutation builder) :: fst r, snd r)
  end.

Definition prcb_Save (b : ProofRequestCreateBulk) : prog (list ProofRequest) :=
  match prcb_err b with
  | Some err => Raise err
  | None =>
      match prcb_builders b with
      | [] => Ret []
      | builder :: rest => r ← bulk_mutate (prcb_driver b) [] builder rest; Ret (map fst (fst r))
      end
  end.

Definition prcb_Exec (b : ProofRequestCreateBulk) : prog unit := _ ← prcb_Save b; Ret tt.

Definition prcb_SaveX (b : ProofRequestCreateBulk) : prog (list ProofRequest) := must (prcb_Save b).
Definition prcb_ExecX (b : ProofRequestCreateBulk) : prog unit := must (prcb_Exec b).

(** * Properties *)

(** The nodes of builders from the [i]-th on, with the ids of the batch. *)
Definition bulk_nodes (builders : list ProofRequestCreate) (i : nat) (ids : list (option Z)) : list (ProofRequest * ProofRequestMutation) :=
  imap (λ j b, bulk_done (prc_createSpec (prc_mutation b)).1 (mjoin (ids !! (i + j)%nat)) (prc_mutation b)) builders.

Definition bulk_specs (builders : list ProofRequestCreate) : list CreateSpec :=
  (λ b, (prc_createSpec (prc_mutation b)).2) <$> builders.

Definition bulk_error (builders : list ProofRequestCreate) : option error :=
  first_error ((λ b, prc_check (prc_mutation b)) <$> builders).

Lemma bulk_error_cons b rest :
  bulk_error (b :: rest) = match prc_check (prc_mutation b) with Some err => Some err | None => bulk_error rest end.
Proof. unfold bulk_error, first_error. rewrite fmap_cons. simpl. by destruct (prc_check _). Qed.

Lemma bulk_nodes_cons b rest i ids :
  bulk_nodes (b :: rest) i ids =
  bulk_done (prc_createSpec (prc_mutation b)).1 (mjoin (ids !! i)) (prc_mutation b) :: bulk_nodes rest (S i) ids.
Proof.
  unfold bulk_nodes. rewrite imap_cons, Nat.add_0_r. f_equal. apply imap_ext. intros j b' _. simpl.
  by rewrite Nat.add_succ_r.
Qed.

Lemma bulk_mutate_spec h specs b rest w :
  run (bulk_mutate h specs b rest) w =
  run (match bulk_error (b :: rest) with
       | Some err => Raise err
       | None =>
           r ← BatchCreate h (specs ++ bulk_specs (b :: rest))%list;
           match r with
           | inl err => Raise (constraint_error err)
           | inr ids => Ret (bulk_nodes (b :: rest) (length specs) ids, ids)
           end
       end) w.
Proof.
  revert specs b. induction rest as [|b' rest IH]; intros specs b; rewrite bulk_error_cons; cbn [bulk_mutate];
    destruct (prc_check (prc_mutation b)) as [err|]; try done;
    unfold bulk_specs; rewrite fmap_cons; destruct (prc_createSpec (prc_mutation b)) as [node spec] eqn:E.
  - change (bulk_error []) with (@None error). cbn [fmap list_fmap snd]. rewrite !run_bind.
    destruct (run (BatchCreate _ _) w) as [[[err|ids]|?|?| |] w']; simpl; try done.
    by rewrite bulk_nodes_cons, E.
  - rewrite run_bind, IH. destruct (bulk_error (b' :: rest)) as [err|]; [done|].
    rewrite !run_bind, <- (assoc_L (++)). cbn [app snd]. unfold bulk_specs.
    destruct (run (BatchCreate _ _) w) as [[[err|ids]|?|?| |] w']; simpl; try done.
    rewrite (bulk_nodes_cons b), E, length_app, Nat.add_1_r. done.
Qed.

(** A bulk creation sends nothing and returns the first failed check, if there
    is one; otherwise it sends the specs of all builders, in order, in one
    batch, and returns their entities in order, each with the id of its spec. *)
Theorem prcb_Save_one_batch h builders (w : World) :
  run (prcb_Save (Client_CreateBulk h builders)) w =
  run (match bulk_error builders with
       | Some err => Raise err
       | None =>
           match builders with
           | [] => Ret []
           | _ =>
               r ← BatchCreate h (bulk_specs builders);
               match r with
               | inl err => Raise (constraint_error err)
               | inr ids => Ret (map fst (bulk_nodes builders 0 ids))
               end
           end
       end) w.
Proof.
  unfold prcb_Save, Client_CreateBulk. simpl. destruct builders as [|b rest]; [done|].
  rewrite run_bind, bulk_mutate_spec. destruct (bulk_error (b :: rest)) as [err|]; [done|].
  rewrite !run_bind. by destruct (run (BatchCreate _ _) w) as [[[err|ids]|?|?| |] w'].
Qed.

(** [MapCreateBulk] makes one builder for each element. *)
Lemma MapCreateBulk_length h n setFunc : length (prcb_builders (Client_MapCreateBulk h (inr n) setFunc)) = n.
Proof. simpl. by rewrite length_fmap, length_seq. Qed.

End bulk.
