(* ===== verification/Spans.v ===== *)
(** * Block ranges

    [Span] of [range.go] and the theory of lists of block ranges the database
    and the range code share.  A type with a range is an instance of the class
    [Interval]; [chain s l e] says that the elements of [l], in order, lead from
    block [s] to block [e] without gap or overlap, and [tiles s e l] that they
    do so in some order. *)

From Stdlib Require Import ZArith Lia.
From S2P Require Import Prelude.

Class Interval (A : Type) := { lo : A → Z; hi : A → Z }.

Record Span := mkSpan { Start : Z; End : Z }.

Global Instance Span_eq_dec : EqDecision Span.
Proof. solve_decision. Defined.

#[export] Instance Span_interval : Interval Span := { lo := Start; hi := End }.
#[export] Instance pair_interval : Interval (Z * Z) := { lo := fst; hi := snd }.

Section chains.
Context {A : Type} `{!Interval A}.
Implicit Types (x y : A) (l : list A) (s e m : Z).

Fixpoint chain s l e : Prop :=
  match l with
  | [] => s = e
  | x :: l' => lo x = s ∧ lo x < hi x ∧ chain (hi x) l' e
  end.

#[export] Instance chain_dec s l e : Decision (chain s l e).
Proof. revert s. induction l; intros s; simpl; apply _. Defined.

Definition tiles s e l : Prop := ∃ l', l' ≡ₚ l ∧ chain s l' e.

#[export] Instance tiles_proper s e : Proper ((≡ₚ) ==> iff) (tiles s e).
Proof.
  intros l1 l2 Hl. split; intros (l' & Hp & Hc); exists l'; (split; [|done]); by rewrite Hp.
Qed.

Lemma chain_le s l e : chain s l e → s <= e.
Proof.
  revert s. induction l as [|x l IH]; simpl; intros s; [lia|].
  intros (? & ? & Hc). apply IH in Hc. lia.
Qed.

Lemma chain_app s l1 l2 e : chain s (l1 ++ l2) e ↔ ∃ m, chain s l1 m ∧ chain m l2 e.
Proof.
  revert s. induction l1 as [|x l1 IH]; simpl; intros s.
  - split; [by exists s|]. by intros (m & -> & ?).
  - split.
    + intros (? & ? & Hc). apply IH in Hc as (m & ? & ?). by exists m.
    + intros (m & (? & ? & ?) & ?). do 2 (split; [done|]). apply IH. by exists m.
Qed.

Lemma chain_bounds s l e x : chain s l e → x ∈ l → s <= lo x ∧ lo x < hi x ∧ hi x <= e.
Proof.
  intros Hc Hx. apply list_elem_of_split in Hx as (l1 & l2 & ->).
  apply chain_app in Hc as (m & H1 & H2). simpl in H2. destruct H2 as (<- & ? & H2).
  apply chain_le in H1, H2. lia.
Qed.

Lemma chain_functional s l e e' : chain s l e → chain s l e' → e = e'.
Proof.
  revert s. induction l as [|x l IH]; simpl; intros s; [congruence|].
  intros (_ & _ & ?) (_ & _ & ?). eauto.
Qed.

Lemma chain_start_inj s l e x y : chain s l e → x ∈ l → y ∈ l → lo x = lo y → x = y.
Proof.
  revert s. induction l as [|z l IH]; simpl; intros s; [by intros _ ?%elem_of_nil|].
  intros (? & ? & Hc) Hx Hy Heq. apply elem_of_cons in Hx as [->|Hx], Hy as [->|Hy].
  - done.
  - pose proof (chain_bounds _ _ _ _ Hc Hy). lia.
  - pose proof (chain_bounds _ _ _ _ Hc Hx). lia.
  - by eapply IH.
Qed.

Lemma chain_sorted s l e : chain s l e → StronglySorted (le_key lo) l.
Proof.
  revert s. induction l as [|x l IH]; simpl; intros s; [constructor|].
  intros (? & ? & Hc). constructor; [by eapply IH|].
  apply Forall_forall. intros y Hy. pose proof (chain_bounds _ _ _ _ Hc Hy). unfold le_key. lia.
Qed.

(** Two elements of a chain are the same or do not overlap. *)
Lemma chain_disjoint s l e x y :
  chain s l e → x ∈ l → y ∈ l → x = y ∨ hi x <= lo y ∨ hi y <= lo x.
Proof.
  revert s. induction l as [|z l IH]; simpl; intros s; [by intros _ ?%elem_of_nil|].
  intros (? & ? & Hc) Hx Hy. apply elem_of_cons in Hx as [->|Hx], Hy as [->|Hy].
  - by left.
  - pose proof (chain_bounds _ _ _ _ Hc Hy). lia.
  - pose proof (chain_bounds _ _ _ _ Hc Hx). lia.
  - by eapply IH.
Qed.

(** Every block of the range is in one of the elements. *)
Lemma chain_point s l e n : chain s l e → s <= n < e → ∃ x, x ∈ l ∧ lo x <= n < hi x.
Proof.
  revert s. induction l as [|x l IH]; simpl; intros s; [lia|]. intros (<- & ? & Hc) Hn.
  destruct (decide (n < hi x)).
  - exists x. split; [apply elem_of_cons; by left|lia].
  - destruct (IH _ Hc) as (y & Hy & ?); [lia|]. exists y. split; [apply elem_of_cons; by right|done].
Qed.

(** What a chain made of elements of another covers is covered by nothing else. *)
Lemma chain_inside s0 l e0 a c b x :
  chain s0 l e0 → chain a c b → (∀ y, y ∈ c → y ∈ l) →
  x ∈ l → a <= lo x → hi x <= b → x ∈ c.
Proof.
  intros Hl Hc Hsub Hx Ha Hb. pose proof (chain_bounds _ _ _ _ Hl Hx).
  destruct (chain_point a c b (lo x)) as (y & Hy & ?); [done|lia|].
  destruct (chain_disjoint _ _ _ _ _ Hl Hx (Hsub y Hy)) as [->|]; [done|lia].
Qed.

Lemma chain_NoDup s l e : chain s l e → NoDup l.
Proof.
  revert s. induction l as [|x l IH]; simpl; intros s; [constructor|]. intros (? & ? & Hc).
  constructor; [|by eapply IH]. intros Hx. pose proof (chain_bounds _ _ _ _ Hc Hx). lia.
Qed.

Lemma tiles_nil s : tiles s s [].
Proof. by exists []. Qed.

Lemma tiles_chain s e l : chain s l e → tiles s e l.
Proof. intros. by exists l. Qed.

Lemma tiles_le s e l : tiles s e l → s <= e.
Proof. intros (l' & _ & Hc). by eapply chain_le. Qed.

Lemma tiles_bounds s e l x : tiles s e l → x ∈ l → s <= lo x ∧ lo x < hi x ∧ hi x <= e.
Proof. intros (l' & Hp & Hc) Hx. rewrite <- Hp in Hx. by eapply chain_bounds. Qed.

Lemma tiles_start_inj s e l x y : tiles s e l → x ∈ l → y ∈ l → lo x = lo y → x = y.
Proof. intros (l' & Hp & Hc) Hx Hy. rewrite <- Hp in Hx, Hy. by eapply chain_start_inj. Qed.

Lemma tiles_app s m e l1 l2 : tiles s m l1 → tiles m e l2 → tiles s e (l1 ++ l2).
Proof.
  intros (l1' & Hp1 & Hc1) (l2' & Hp2 & Hc2). exists (l1' ++ l2'). split.
  - by rewrite Hp1, Hp2.
  - apply chain_app. by exists m.
Qed.

(** One element of a tiling may be replaced by a chain over the same range. *)
Lemma tiles_replace s e x l c :
  tiles s e (x :: l) → chain (lo x) c (hi x) → tiles s e (c ++ l).
Proof.
  intros (l' & Hp & Hc) Hx.
  assert (x ∈ l') as Hin by (rewrite Hp; apply elem_of_cons; by left).
  apply list_elem_of_split in Hin as (l1 & l2 & ->).
  exists (l1 ++ c ++ l2). split.
  - rewrite <- Permutation_middle in Hp. apply Permutation_cons_inv in Hp.
    rewrite <- Hp. apply Permutation_app_swap_app.
  - apply chain_app in Hc as (m & H1 & H2). simpl in H2. destruct H2 as (<- & _ & H2).
    apply chain_app. exists (lo x). split; [done|]. apply chain_app. by exists (hi x).
Qed.

Lemma filter_ext_in (P Q : A → Prop) `{∀ x, Decision (P x), ∀ x, Decision (Q x)} l :
  (∀ x, x ∈ l → P x ↔ Q x) → filter P l = filter Q l.
Proof.
  induction l as [|x l IH]; intros HPQ; [done|]. rewrite !filter_cons.
  assert (P x ↔ Q x) by (apply HPQ, elem_of_cons; by left).
  rewrite IH by (intros y Hy; apply HPQ, elem_of_cons; by right).
  repeat case_decide; tauto.
Qed.

Lemma filter_none (P : A → Prop) `{∀ x, Decision (P x)} l :
  (∀ x, x ∈ l → ¬ P x) → filter P l = [].
Proof.
  intros HP. destruct (filter P l) as [|x l'] eqn:E; [done|].
  assert (x ∈ filter P l) as Hx by (rewrite E; apply elem_of_cons; by left).
  apply list_elem_of_filter in Hx as [Px Hx]. by apply HP in Px.
Qed.

(** A part of a tiling, sorted by start block, is the part of the chain. *)
Lemma sorted_filter_chain s e l l' (P : A → Prop) `{∀ x, Decision (P x)} :
  chain s l e → l' ≡ₚ filter P l → StronglySorted (le_key lo) l' → l' = filter P l.
Proof.
  intros Hc Hp Hs. apply (StronglySorted_unique_strong (le_key lo)); [|done| |done].
  - intros x1 x2 H1 H2 Hle1 Hle2. rewrite Hp in H1.
    apply list_elem_of_filter in H1 as [_ H1], H2 as [_ H2].
    eapply chain_start_inj; [done..|]. unfold le_key in *. lia.
  - apply chain_sorted in Hc. clear Hp. induction Hc as [|x l Hs' IH Hall]; [constructor|].
    rewrite filter_cons. case_decide; [|done]. constructor; [done|].
    apply Forall_forall. intros y Hy. apply list_elem_of_filter in Hy as [_ Hy].
    by eapply Forall_forall in Hall.
Qed.

(** A tiling, sorted, is a chain; so tilings are decidable. *)
Lemma chain_of_sorted s e l l' :
  chain s l e → l' ≡ₚ l → StronglySorted (le_key lo) l' → l' = l.
Proof.
  intros Hc Hp Hs. apply (StronglySorted_unique_strong (le_key lo)); [|done|by eapply chain_sorted|done].
  intros x1 x2 H1 H2 Hle1 Hle2. rewrite Hp in H1.
  eapply chain_start_inj; [done..|]. unfold le_key in *. lia.
Qed.

Lemma tiles_merge_sort s e l : tiles s e l ↔ chain s (merge_sort (le_key lo) l) e.
Proof.
  pose proof (merge_sort_Permutation (le_key lo) l) as Hp. split.
  - intros (l' & Hp' & Hc). rewrite (chain_of_sorted s e l' _ Hc); [done|by rewrite Hp|].
    apply Sorted_StronglySorted; [apply _|]. apply Sorted_merge_sort, _.
  - intros Hc. by exists (merge_sort (le_key lo) l).
Qed.

#[export] Instance tiles_dec s e l : Decision (tiles s e l).
Proof.
  refine (cast_if (decide (chain s (merge_sort (le_key lo) l) e))).
  - by apply tiles_merge_sort.
  - by intros Ht%tiles_merge_sort.
Defined.

(** Disjoint ranges that cover exactly the blocks of [s, e). *)
Lemma cover_tiles s e l :
  NoDup l → (∀ x, x ∈ l → lo x < hi x) →
  (∀ x y b, x ∈ l → y ∈ l → lo x <= b < hi x → lo y <= b < hi y → x = y) →
  s <= e → (∀ b, (∃ x, x ∈ l ∧ lo x <= b < hi x) ↔ s <= b < e) → tiles s e l.
Proof.
  remember (length l) as n eqn:Hn. revert s l Hn. induction n as [|n IH]; intros s l Hn Hnd Hlt Hdis Hse Hcov.
  - destruct l; [|done]. assert (s = e) as ->; [|apply tiles_nil].
    destruct (decide (s = e)) as [|Hne]; [done|]. destruct (proj2 (Hcov s) ltac:(lia)) as (x & ?%elem_of_nil & _). done.
  - assert (∀ x, x ∈ l → s <= lo x ∧ hi x <= e) as Hin.
    { intros x Hx. specialize (Hlt x Hx). split.
      - apply (Hcov (lo x)). exists x. split; [done|lia].
      - enough (hi x - 1 < e) by lia. apply (Hcov (hi x - 1)). exists x. split; [done|lia]. }
    assert (s < e) as Hs.
    { destruct l as [|y l]; [done|]. pose proof (Hin y ltac:(by left)). pose proof (Hlt y ltac:(by left)). lia. }
    destruct (proj2 (Hcov s) ltac:(lia)) as (x & Hx & Hxs). pose proof (Hin x Hx). assert (lo x = s) as Hlo by lia.
    apply list_elem_of_split in Hx as (l1 & l2 & ->). rewrite <- Permutation_middle in Hnd. apply NoDup_cons in Hnd as [Hnx Hnd].
    assert (∀ y, y ∈ l1 ++ l2 → y ∈ l1 ++ x :: l2) as Hsub by (intros y; rewrite !elem_of_app, elem_of_cons; tauto).
    destruct (IH (hi x) (l1 ++ l2)) as (l' & Hp & Hc); [|done|auto|eauto|lia| |].
    + rewrite length_app in *. cbn in Hn. lia.
    + intros b. split.
      * intros (y & Hy & Hb). pose proof (proj1 (Hcov b) (ex_intro _ y (conj (Hsub y Hy) Hb))). split; [|lia].
        destruct (Z.le_gt_cases (hi x) b) as [|Hgt]; [done|]. exfalso. apply Hnx.
        rewrite (Hdis x y b); [done|apply elem_of_app; right; by left|auto|lia|done].
      * intros Hb. destruct (proj2 (Hcov b) ltac:(lia)) as (y & Hy & Hyb). exists y. split; [|done].
        rewrite elem_of_app, elem_of_cons in Hy. rewrite elem_of_app. destruct Hy as [|[->|]]; [by left|lia|by right].
    + exists (x :: l'). split; [by rewrite <- Permutation_middle, Hp|]. cbn. split; [done|]. split; [lia|done].
Qed.

(** The longest prefix of a chain all of whose elements satisfy [P]. *)
Lemma chain_prefix s l e (P : A → Prop) `{∀ x, Decision (P x)} :
  chain s l e →
  ∃ l1 l2 m, l = l1 ++ l2 ∧ Forall P l1 ∧ chain s l1 m ∧ chain m l2 e ∧
             match l2 with [] => True | x :: _ => ¬ P x end.
Proof.
  revert s. induction l as [|x l IH]; simpl; intros s Hc.
  - exists [], [], s. by repeat split.
  - destruct (decide (P x)) as [Hx|Hx].
    + destruct Hc as (<- & Hlt & Hc). destruct (IH _ Hc) as (l1 & l2 & m & -> & ? & ? & ? & ?).
      exists (x :: l1), l2, m. split; [done|]. split; [by constructor|]. done.
    + exists [], (x :: l), s. split; [done|]. split; [constructor|]. done.
Qed.

(** The block reached by walking a list as long as each element starts where
    the last one ended. *)
Fixpoint reach s l : Z :=
  match l with
  | [] => s
  | x :: l' => if lo x =? s then reach (hi x) l' else s
  end.

Lemma reach_chain s l m l' : chain s l m → reach s (l ++ l') = reach m l'.
Proof.
  revert s. induction l as [|x l IH]; simpl; intros s; [by intros ->|].
  intros (-> & _ & Hc). rewrite Z.eqb_refl. by apply IH.
Qed.

Lemma reach_stuck s l : (∀ x, x ∈ l → lo x ≠ s) → reach s l = s.
Proof.
  destruct l as [|x l]; [done|]. intros H. simpl.
  destruct (Z.eqb_spec (lo x) s) as [E|]; [|done]. by apply H in E; [|apply elem_of_cons; left].
Qed.

(** What [reach] finds: a chain made of a prefix of the list. *)
Lemma reach_prefix s l :
  (∀ x, x ∈ l → lo x < hi x) →
  ∃ l1 l2, l = l1 ++ l2 ∧ chain s l1 (reach s l) ∧
           match l2 with [] => True | x :: _ => lo x ≠ reach s l end.
Proof.
  revert s. induction l as [|x l IH]; intros s Hlt; simpl; [by exists [], []|].
  destruct (Z.eqb_spec (lo x) s) as [E|E].
  - destruct (IH (hi x)) as (l1 & l2 & -> & ? & ?).
    { intros y Hy. apply Hlt, elem_of_cons. by right. }
    exists (x :: l1), l2. split; [done|]. split; [|done]. simpl. split; [done|]. split; [|done].
    apply Hlt, elem_of_cons. by left.
  - by exists [], (x :: l).
Qed.

Lemma reach_le s l : (∀ x, x ∈ l → lo x < hi x) → s <= reach s l.
Proof.
  intros Hlt. destruct (reach_prefix s l Hlt) as (l1 & l2 & _ & Hc & _). by eapply chain_le.
Qed.

Lemma filter_later (P : A → Prop) `{∀ x, Decision (P x)} s m l e :
  chain m l e → s <= m → filter (λ x, P x ∧ s <= lo x) l = filter (λ x, P x ∧ m <= lo x) l.
Proof.
  intros Hc Hsm. apply filter_ext_in. intros x Hx.
  pose proof (chain_bounds _ _ _ _ Hc Hx). intuition lia.
Qed.

(** Walking the part of a chain that satisfies [P] and starts at [s] or later:
    no element with [P] starts where the walk ends. *)
Lemma reach_filter_chain (P : A → Prop) `{∀ x, Decision (P x)} s0 e0 l s :
  chain s0 l e0 →
  ∀ x, x ∈ l → P x → lo x ≠ reach s (filter (λ x, P x ∧ s <= lo x) l).
Proof.
  revert s0 s. induction l as [|z l IH]; intros s0 s Hc x Hx HP; [by apply elem_of_nil in Hx|].
  destruct Hc as (Hz & Hlt & Hc).
  assert (∀ t, t <= reach t (filter (λ x, P x ∧ t <= lo x) l)) as Hle.
  { intros t. apply reach_le. intros y Hy. apply list_elem_of_filter in Hy as [_ Hy].
    pose proof (chain_bounds _ _ _ _ Hc Hy). lia. }
  rewrite filter_cons. case_decide as Hd.
  - destruct Hd as [Pz Hsz]. simpl. destruct (Z.eqb_spec (lo z) s) as [E|E].
    + rewrite (filter_later P s (hi z) l e0) by (done || lia).
      apply elem_of_cons in Hx as [->|Hx]; [|by eapply IH].
      specialize (Hle (hi z)). lia.
    + apply elem_of_cons in Hx as [->|Hx]; [lia|].
      pose proof (chain_bounds _ _ _ _ Hc Hx). lia.
  - apply elem_of_cons in Hx as [->|Hx]; [|by eapply IH].
    specialize (Hle s). intros E. apply Hd. split; [done|]. lia.
Qed.

Lemma reach_tiles (P : A → Prop) `{∀ x, Decision (P x)} s0 e0 l l' s :
  tiles s0 e0 l → l' ≡ₚ filter (λ x, P x ∧ s <= lo x) l → StronglySorted (le_key lo) l' →
  ∀ x, x ∈ l → P x → lo x ≠ reach s l'.
Proof.
  intros (L & Hp & Hc) Hp' Hs x Hx HP. rewrite <- Hp in Hp', Hx.
  eapply sorted_filter_chain in Hs; [|done..]. subst l'. by eapply reach_filter_chain.
Qed.

(** The walk's range is tiled exactly by the elements with [P] inside it. *)
Lemma reached_chain (P : A → Prop) `{∀ x, Decision (P x)} s0 e0 l s m :
  chain s0 l e0 → m = reach s (filter (λ x, P x ∧ s <= lo x) l) →
  chain s (filter (λ x, P x ∧ s <= lo x ∧ hi x <= m) l) m.
Proof.
  revert s0 s m. induction l as [|z l IH]; intros s0 s m Hc Hm; [done|].
  destruct Hc as (Hz & Hlt & Hc). rewrite filter_cons in Hm. rewrite filter_cons.
  case_decide as Hd.
  - destruct Hd as [Pz Hsz]. simpl in Hm. destruct (Z.eqb_spec (lo z) s) as [E|E].
    + rewrite (filter_later P s (hi z) l e0) in Hm by (done || lia).
      specialize (IH _ _ _ Hc Hm). pose proof (chain_le _ _ _ IH).
      rewrite decide_True by (split; [done|lia]). split; [done|]. split; [done|].
      erewrite filter_ext_in; [exact IH|]. intros x Hx.
      pose proof (chain_bounds _ _ _ _ Hc Hx). intuition lia.
    + rewrite decide_False by (intros (_ & _ & ?); lia).
      rewrite filter_none; [done|]. intros x Hx (_ & _ & ?).
      pose proof (chain_bounds _ _ _ _ Hc Hx). lia.
  - rewrite decide_False by tauto. by eapply IH.
Qed.

(** As [chain], for ranges that may be empty. *)
Fixpoint linked s l e : Prop :=
  match l with
  | [] => s = e
  | x :: l' => lo x = s ∧ linked (hi x) l' e
  end.

Lemma chain_linked s l e : chain s l e → linked s l e.
Proof.
  revert s. induction l as [|x l IH]; simpl; intros s; [done|].
  intros (? & _ & ?). auto.
Qed.

End chains.

(** Lists with the same ranges are chains together. *)
Lemma chain_Forall2 {A B} `{!Interval A, !Interval B} s e (l : list A) (l' : list B) :
  Forall2 (λ x y, lo y = lo x ∧ hi y = hi x) l l' → chain s l e ↔ chain s l' e.
Proof.
  intros Hf. revert s. induction Hf as [|x y l l' [Hlo Hhi] _ IH]; intros s; [done|].
  simpl. by rewrite Hlo, Hhi, IH.
Qed.
