(* ===== verification/Db.v ===== *)
(** * The proof database ([db/db.go])

    [ProofDB] is two clients over one SQLite file: a write client with a single
    connection ([HWrite]) and a read client ([HRead]).  Each method is a program
    over the builders of [Builders]; the second part says what each does to the
    table and to its caller, in every case. *)

From S2P Require Import Prelude Sql ProofRequest Metrics Encoding Prog Mutation Builders Spans.

Definition wrap (msg : string) : error → error := Wrapf msg [].

(** ** Opening and closing *)

Definition open_client (h : Handle) : prog unit :=
  r ← db (DbOpen h);
  match r with
  | Some e => Raise (Errorf "failed opening connection to sqlite: %v" [])
  | None => Ret tt
  end.

Definition create_schema (h : Handle) : prog unit :=
  r ← db (DbMigrate h);
  match r with
  | Some e => Raise (Errorf "failed creating schema resources: %v" [])
  | None => Ret tt
  end.

Definition InitDB (dbPath : string) (useCachedDb : bool) : prog unit :=
  _ ← (if useCachedDb then Ret tt else db DbRemoveFile);
  r ← ask (EMkdirAll dbPath);
  _ ← match r with
      | Some err => Raise (wrap "failed to create directories for DB: %w" err)
      | None => Ret tt
      end;
  _ ← open_client HWrite;
  _ ← open_client HRead;
  _ ← create_schema HRead;
  create_schema HWrite.

Definition close_client (h : Handle) : prog unit :=
  r ← db (DbClose h);
  match r with
  | Some e => Raise (wrap "error closing database: %w" (ESql e))
  | None => Ret tt
  end.

Definition CloseDB : prog unit :=
  _ ← close_client HWrite;
  close_client HRead.

(** ** Writing *)

Definition now : prog Z := t ← ask ENow; Ret (u64 t).

Definition NewEntry (proofType : string) (start end_ : Z) : prog unit :=
  now ← now;
  map_err (wrap "failed to create new entry: %w")
    (_ ← prc_Save
           (prc_SetLastUpdatedTime now
           (prc_SetRequestAddedTime now
           (prc_SetStatus StatusUNREQ
           (prc_SetEndBlock end_
           (prc_SetStartBlock start
           (prc_SetType proofType (Client_Create HWrite)))))));
     Ret tt).

Definition UpdateProofStatus (id : Z) (proofStatus : string) : prog unit :=
  now ← now;
  _ ← pru_Save
        (pru_SetLastUpdatedTime now
        (pru_SetStatus proofStatus
        (pru_Where [ID id] (Client_Update HWrite))));
  Ret tt.

Definition SetProverRequestID_ (id : Z) (proverRequestID : option bytes) : prog unit :=
  let proverRequestIDHex := EncodeToString (default [] proverRequestID) in
  t1 ← now;
  t2 ← now;
  map_err (wrap "failed to set prover network id: %w")
    (_ ← pru_Save
           (pru_SetLastUpdatedTime t2
           (pru_SetProofRequestTime t1
           (pru_SetProverRequestID proverRequestIDHex
           (pru_Where [ID id] (Client_Update HWrite)))));
     Ret tt).

Definition AddFulfilledProof (id : Z) (proof : option bytes) : prog unit :=
  _ ← map_err (wrap "failed to start transaction: %w") (Client_Tx false);
  defer (_ ← attempt Tx_Rollback; Ret tt)
    (existingProof ← map_err (wrap "failed to find existing proof: %w")
                       (prq_Only (prq_Where [ID id] (Client_Query HTx)));
     if negb (bool_decide (pr_Status existingProof = StatusPROVING)) then
       Raise (Errorf "proof request status is not PROVING: %v" [AInt id])
     else if bool_decide (pr_Proof existingProof ≠ None) then
       Raise (Errorf "proof is already set: %v" [AInt id])
     else
       now ← now;
       _ ← map_err (wrap "failed to update proof and status: %w")
             (pruo_Save
                (pruo_SetLastUpdatedTime now
                (pruo_SetStatus StatusCOMPLETE
                (pruo_SetProof proof (Client_UpdateOne HTx existingProof)))));
       map_err (wrap "failed to commit transaction: %w") Tx_Commit).

(** ** Reading *)

Definition GetNumberOfRequestsWithStatuses (statuses : list string) : prog Z :=
  map_err (Wrapf "failed to count requests with statuses %v: %w" (AStr <$> statuses))
    (prq_Count (prq_Where [StatusIn statuses] (Client_Query HRead))).

Definition AddL1BlockInfoToAggRequest (startBlock endBlock l1BlockNumber : Z) (l1BlockHash : string)
    : prog ProofRequest :=
  now ← now;
  rowsAffected ← map_err (wrap "failed to update L1 block info: %w")
    (pru_Save
       (pru_SetLastUpdatedTime now
       (pru_SetL1BlockHash l1BlockHash
       (pru_SetL1BlockNumber l1BlockNumber
       (pru_Where [TypeEQ TypeAGG; StatusEQ StatusUNREQ; StartBlockEQ startBlock; EndBlockEQ endBlock]
          (Client_Update HWrite))))));
  if rowsAffected =? 0 then
    Raise (Errorf "no matching proof request found to update" [])
  else
    map_err (wrap "failed to fetch updated proof request: %w")
      (prq_Only (prq_Where
         [TypeEQ TypeAGG; StatusEQ StatusUNREQ; StartBlockEQ startBlock; EndBlockEQ endBlock;
          L1BlockNumberEQ l1BlockNumber; L1BlockHashEQ l1BlockHash] (Client_Query HRead))).

Definition GetLatestEndBlock : prog Z :=
  maxEnd ← map_err (λ err, if IsNotFound err then err
                           else wrap "failed to get latest end requested: %w" err)
    (prq_First (prq_Select [FieldEndBlock] (prq_Order (Desc [FieldEndBlock]) (Client_Query HRead))));
  Ret (u64 (pr_EndBlock maxEnd)).

(** [if ent.IsNotFound(err) { return nil, nil }] after an [All]. *)
Definition all_or_none (f : error → error) (q : ProofRequestQuery) : prog (list ProofRequest) :=
  r ← attempt (prq_All q);
  match r with
  | inl err => if IsNotFound err then Ret [] else Raise (f err)
  | inr proofs => Ret proofs
  end.

Definition GetAllProofsWithStatus (status : string) : prog (list ProofRequest) :=
  all_or_none (Wrapf "failed to query proofs with status %s: %w" [AStr status])
    (prq_Where [StatusEQ status] (Client_Query HRead)).

Definition unrequested (type : string) : ProofRequestQuery :=
  prq_Order (Asc [FieldStartBlock])
    (prq_Where [StatusEQ StatusUNREQ; TypeEQ type] (Client_Query HRead)).

Definition GetNextUnrequestedProof : prog (option ProofRequest) :=
  aggProof ← attempt (prq_First (unrequested TypeAGG));
  match aggProof with
  | inr aggProof => Ret (Some aggProof)
  | inl err =>
      if negb (IsNotFound err) then
        Raise (wrap "failed to query AGG unrequested proof: %w" err)
      else
        spanProof ← attempt (prq_First (unrequested TypeSPAN));
        match spanProof with
        | inl err =>
            if IsNotFound err then Ret None
            else Raise (wrap "failed to query SPAN unrequested proof: %w" err)
        | inr spanProof => Ret (Some spanProof)
        end
  end.

Definition GetAllCompletedAggProofs (startBlock : Z) : prog (list ProofRequest) :=
  all_or_none (wrap "failed to query completed AGG proof: %w")
    (prq_Where [TypeEQ TypeAGG; StartBlockEQ startBlock; StatusEQ StatusCOMPLETE] (Client_Query HRead)).

(** The loop of [GetMaxContiguousSpanProofRange]. *)
Fixpoint contiguous_end (currentBlock : Z) (spans : list ProofRequest) : Z :=
  match spans with
  | [] => currentBlock
  | span :: spans' =>
      if pr_StartBlock span =? currentBlock then contiguous_end (pr_EndBlock span) spans'
      else currentBlock
  end.

Definition GetMaxContiguousSpanProofRange (start : Z) : prog Z :=
  spans ← map_err (wrap "failed to query span proofs: %w")
    (prq_All (prq_Order (Asc [FieldStartBlock])
       (prq_Where [TypeEQ TypeSPAN; StatusEQ StatusCOMPLETE; StartBlockGTE start] (Client_Query HRead))));
  Ret (contiguous_end start spans).

Definition TryCreateAggProofFromSpanProofs (from minTo : Z) : prog (bool * Z) :=
  count ← map_err (Wrapf "failed to query DB for AGG proof with start block %d: %w" [AInt from])
    (prq_Count (prq_Where [TypeEQ TypeAGG; StartBlockEQ from; StatusNEQ StatusFAILED]
                  (Client_Query HRead)));
  if 0 <? count then Ret (false, 0)
  else
    maxContigousEnd ← map_err (wrap "failed to get max contiguous span proof range: %w")
                        (GetMaxContiguousSpanProofRange from);
    if maxContigousEnd <? minTo then Ret (false, 0)
    else
      _ ← map_err (wrap "failed to insert AGG proof request: %w")
            (NewEntry "AGG" from maxContigousEnd);
      Ret (true, maxContigousEnd).

(** The loop of [GetConsecutiveSpanProofs]: the proofs collected and the block
    reached, or the gap. *)
Fixpoint collect_chain (currentBlock : Z) (result : list (option bytes)) (spans : list ProofRequest)
    : error + (list (option bytes) * Z) :=
  match spans with
  | [] => inr (result, currentBlock)
  | span :: spans' =>
      if pr_StartBlock span =? currentBlock then
        collect_chain (pr_EndBlock span) (result ++ [pr_Proof span]) spans'
      else
        inl (Errorf "gap in proof chain: expected start block %d, got %d"
                    [AInt currentBlock; AInt (pr_StartBlock span)])
  end.

Definition GetConsecutiveSpanProofs (start end_ : Z) : prog (list (option bytes)) :=
  spans ← map_err (wrap "failed to query span proofs: %w")
    (prq_All (prq_Order (Asc [FieldStartBlock])
       (prq_Where [TypeEQ TypeSPAN; StatusEQ StatusCOMPLETE; StartBlockGTE start; EndBlockLTE end_]
          (Client_Query HRead))));
  r ← lift (collect_chain start [] spans);
  let '(result, currentBlock) := r in
  if negb (currentBlock =? end_) then
    Raise (Errorf "incomplete proof chain: ends at block %d, expected %d" [AInt currentBlock; AInt end_])
  else Ret result.

Definition GetProofRequestsWithBlockRangeAndStatus (proofType : string) (startBlock endBlock : Z)
    (status : string) : prog (list ProofRequest) :=
  map_err (wrap "failed to query proofs with block range and status: %w")
    (prq_All (prq_Where [TypeEQ proofType; StartBlockEQ startBlock; EndBlockEQ endBlock; StatusEQ status]
                (Client_Query HRead))).

(** ** Rows after a write *)

Definition new_row (id : Z) (type : string) (start end_ now : Z) : Row :=
  mkRow id type start end_ StatusUNREQ now None None now None None None.

(** [SET status = st, last_updated_time = t] *)
Definition mark (st : string) (t : Z) (r : Row) : Row :=
  let 'mkRow i ty s e _ ra pid pt _ ln lh pf := r in mkRow i ty s e st ra pid pt t ln lh pf.

Definition with_prover_id (pid : string) (t1 t2 : Z) (r : Row) : Row :=
  let 'mkRow i ty s e st ra _ _ _ ln lh pf := r in
  mkRow i ty s e st ra (Some pid) (Some t1) t2 ln lh pf.

Definition with_l1_info (n : Z) (h : string) (t : Z) (r : Row) : Row :=
  let 'mkRow i ty s e st ra pid pt _ _ _ pf := r in
  mkRow i ty s e st ra pid pt t (Some n) (Some h) pf.

Definition with_proof (pf : option bytes) (t : Z) (r : Row) : Row :=
  let 'mkRow i ty s e _ ra pid pt _ ln lh _ := r in
  mkRow i ty s e StatusCOMPLETE ra pid pt t ln lh pf.

(** [f] on the rows with id [id]. *)
Definition at_id (id : Z) (f : Row → Row) (tbl : list Row) : list Row :=
  (λ r, if decide (row_id r = id) then f r else r) <$> tbl.

Lemma update_rows_inv u (f : Row → Row) tbl tbl' :
  (∀ r r', touched u r → apply_update u r = Some r' → r' = f r) →
  update_rows u tbl = Some tbl' →
  tbl' = (λ r, if touched u r then f r else r) <$> tbl.
Proof.
  intros Hf Hu. unfold update_rows in Hu. apply mapM_Some in Hu.
  induction Hu as [|r r' l l' Hr _ IH]; [done|].
  rewrite fmap_cons, <- IH. f_equal. unfold update_row in Hr.
  destruct (touched u r) eqn:Ht; [|congruence]. apply Hf; [by rewrite Ht|done].
Qed.

(** An update of the rows with one id. *)
Lemma update_rows_at_id u id f tbl tbl' :
  us_predicate u = [ID id] → us_node_id u = None →
  (∀ r r', apply_update u r = Some r' → r' = f r) →
  update_rows u tbl = Some tbl' → tbl' = at_id id f tbl.
Proof.
  intros Hp Hn Hf Hu. eapply update_rows_inv in Hu; [|intros r r' _; apply Hf].
  subst tbl'. apply list_fmap_ext. intros i r _. unfold touched. rewrite Hn, Hp.
  autorewrite with sat. rewrite andb_true_r. repeat case_bool_decide; case_decide; done.
Qed.

(** Evaluate the assignments of a spec on a row. *)
Ltac eval_update H :=
  unfold apply_update, foldM in H; simpl in H; unfold apply_set in H; simpl in H;
  repeat match type of H with context [if ?b then _ else _] => destruct b eqn:?; simpl in H end;
  try done; injection H as <-.

Section specs.
Context `{SqlLaws, External}.
Implicit Types (w : World).

Lemma now_returns w (P : Z → World → Prop) E :
  (∀ t w', is_u64 t → frame w w' → rows w' = rows w → P t w') → returns now w P E.
Proof.
  intros HP. unfold now. eapply returns_bind.
  - apply (returns_now w (λ _ w', frame w w' ∧ rows w' = rows w) E). done.
  - intros t w' [??]. apply HP; [apply u64_range|done..].
  - done.
Qed.

Lemma frame_tx w w' : frame w w' → w_tx w' = w_tx w.
Proof. by intros (_ & _ & ? & _). Qed.

(** Nothing but the outside world has moved. *)
Definition quiet (w w' : World) : Prop := frame w w' ∧ rows w' = rows w.

Global Instance quiet_preorder : PreOrder quiet.
Proof.
  split; [done|]. intros w1 w2 w3 [F1 R1] [F2 R2]. split; [by etrans|by rewrite R2].
Qed.

(** What a failed write leaves behind. *)
Definition unchanged w (_ : error) (w' : World) : Prop := quiet w w'.

(** Read the clock first; what follows starts from the same rows. *)
Lemma now_bind {A} (f : Z → prog A) w P (E : error → World → Prop) :
  (∀ t w1, is_u64 t → frame w w1 → rows w1 = rows w → returns (f t) w1 P E) →
  returns (t ← now; f t) w P E.
Proof.
  intros Hf. eapply returns_bind.
  - apply (now_returns w (λ t w', is_u64 t ∧ frame w w' ∧ rows w' = rows w) (λ _ _, False)). done.
  - intros t w1 (? & ? & ?). by apply Hf.
  - done.
Qed.

(** The result of a call is dropped. *)
Lemma returns_drop {A} (p : prog A) w (P : World → Prop) E :
  returns p w (λ _, P) E → returns (_ ← p; Ret tt) w (λ _, P) E.
Proof. intros HP. by eapply returns_bind; [exact HP| |]. Qed.

Lemma NewEntry_returns w t s e :
  w_tx w = None →
  returns (NewEntry t s e) w
    (λ _ w', frame w w' ∧ ∃ id now, 0 < id < two63 ∧ (∀ r, r ∈ rows w → row_id r ≠ id) ∧
       s < two63 ∧ e < two63 ∧ 0 <= now < two63 ∧ (t = TypeSPAN ∨ t = TypeAGG) ∧
       rows w' = rows w ++ [new_row id t s e now])
    (unchanged w).
Proof.
  intros Ht. apply now_bind. intros n w1 Hn Hf Hr. apply returns_map_err.
  destruct (prc_check (prc_mutation
    (prc_SetLastUpdatedTime n (prc_SetRequestAddedTime n (prc_SetStatus StatusUNREQ
      (prc_SetEndBlock e (prc_SetStartBlock s (prc_SetType t (Client_Create HWrite))))))))) eqn:Hc.
  { unfold prc_Save, prc_sqlSave. rewrite Hc. by split. }
  apply returns_drop, returns_create; [done|by rewrite (frame_tx _ _ Hf)|done| |].
  - intros id r w' Hf' Hid Hfr Hb Hr'. split; [by etrans|]. exists id, n.
    assert (t = TypeSPAN ∨ t = TypeAGG) as Hty.
    { unfold prc_check, first_error in Hc. simpl in Hc. unfold TypeValidator in Hc.
      repeat case_bool_decide; simplify_eq/=; auto. }
    rewrite Hr in Hr', Hfr. simpl in Hb. unfold build_row in Hb. simpl in Hb.
    destruct (s <? two63) eqn:?, (e <? two63) eqn:?, (n <? two63) eqn:?; simpl in Hb; try done.
    injection Hb as <-. destruct Hn. repeat split; auto; lia.
  - intros er w' Hf' Hr'. split; [by etrans|]. congruence.
Qed.

Lemma UpdateProofStatus_returns w id st :
  w_tx w = None →
  returns (UpdateProofStatus id st) w
    (λ _ w', frame w w' ∧ StatusValidator st = None ∧
       ∃ t, is_u64 t ∧ rows w' = at_id id (mark st t) (rows w))
    (unchanged w).
Proof.
  intros Ht. apply now_bind. intros n w1 Hn Hf Hr. apply returns_drop.
  destruct (StatusValidator st) as [er|] eqn:Hst.
  { unfold pru_Save, pru_sqlSave, pru_check. cbn -[db StatusValidator]. rewrite Hst. by split. }
  apply returns_update; [done|by rewrite (frame_tx _ _ Hf)| | |].
  - unfold pru_check. cbn -[StatusValidator]. by rewrite Hst.
  - intros w' Hf' Hu. split; [by etrans|]. split; [done|]. exists n. split; [done|].
    rewrite Hr in Hu. eapply update_rows_at_id in Hu; [exact Hu|done|done|].
    intros r r' Ha. destruct r. eval_update Ha. done.
  - intros er w' Hf' Hr'. split; [by etrans|]. congruence.
Qed.

Lemma SetProverRequestID_returns w id pid :
  w_tx w = None →
  returns (SetProverRequestID_ id pid) w
    (λ _ w', frame w w' ∧ ∃ t1 t2, is_u64 t1 ∧ is_u64 t2 ∧
       rows w' = at_id id (with_prover_id (EncodeToString (default [] pid)) t1 t2) (rows w))
    (unchanged w).
Proof.
  intros Ht. apply now_bind. intros t1 w1 Ht1 Hf1 Hr1. apply now_bind. intros t2 w2 Ht2 Hf2 Hr2.
  assert (frame w w2) as Hf by by etrans. apply returns_map_err, returns_drop.
  apply returns_update; [done|by rewrite (frame_tx _ _ Hf)|done| |].
  - intros w' Hf' Hu. split; [by etrans|]. exists t1, t2. do 2 (split; [done|]).
    rewrite Hr2, Hr1 in Hu. eapply update_rows_at_id in Hu; [exact Hu|done|done|].
    intros r r' Ha. destruct r. eval_update Ha. done.
  - intros er w' Hf' Hr'. split; [by etrans|]. congruence.
Qed.

Lemma with_tx_None w : w_tx w = None → with_tx None w = w.
Proof. destruct w. simpl. by intros ->. Qed.

Lemma in_tx_unchanged w w' t : w_tx w = None → in_tx w w' t → frame w (with_tx None w') ∧ rows (with_tx None w') = rows w.
Proof.
  intros Hn (Hf & Hr & _). rewrite (with_tx_None w Hn) in Hf. split; [done|].
  rewrite <- Hr. by destruct w'.
Qed.

(** The error case inside the transaction of [w]: rolling back gives [w] back. *)
Definition aborted w (_ : error) (w' : World) : Prop :=
  frame w (with_tx None w') ∧ rows (with_tx None w') = rows w.

Lemma in_tx_aborted w w' t e : w_tx w = None → in_tx w w' t → aborted w e w'.
Proof. apply in_tx_unchanged. Qed.

Definition fulfilled w (id : Z) (pf : option bytes) (w' : World) : Prop :=
  frame w w' ∧ ∃ r t, matching [ID id] (rows w) = [r] ∧ row_status r = StatusPROVING ∧
    row_proof r = None ∧ is_u64 t ∧ rows w' = at_id id (with_proof pf t) (rows w).

(** From the update to the commit. *)
Lemma fulfil_commit_returns w w2 t2 r id pf :
  w_tx w = None → in_tx w w2 t2 → sg_rows t2 = rows w → matching [ID id] (rows w) = [r] →
  row_status r = StatusPROVING → row_proof r = None →
  returns
    (now ← now;
     _ ← map_err (wrap "failed to update proof and status: %w")
           (pruo_Save
              (pruo_SetLastUpdatedTime now
              (pruo_SetStatus StatusCOMPLETE
              (pruo_SetProof pf (Client_UpdateOne HTx (entity r))))));
     map_err (wrap "failed to commit transaction: %w") Tx_Commit) w2
    (λ _, fulfilled w id pf) (aborted w).
Proof.
  intros Ht Hin2 Hrt2 Hm Hst Hpf. apply now_bind. intros n w3 Hn Hf3 Hr3.
  assert (in_tx w w3 t2) as Hin3 by by eapply in_tx_frame.
  assert (row_id r = id) as Hid.
  { assert (r ∈ matching [ID id] (rows w)) as Hr by (rewrite Hm; set_solver).
    apply list_elem_of_filter in Hr as [Hr _]. autorewrite with sat in Hr.
    rewrite andb_true_r in Hr. by apply bool_decide_unpack in Hr. }
  eapply (returns_bind _ _ _ (λ _ w', ∃ t', in_tx w w' t' ∧
       sg_rows t' = at_id id (with_proof pf n) (rows w)) (aborted w)); [|..|done].
  - apply returns_map_err.
    apply (returns_update_one_tx _ id _ t2); [apply Hin3|done|done|by simpl; rewrite Hid|done|..].
    + intros _ w' t' Hi Hu. exists t'. split; [by eapply in_tx_trans|]. rewrite Hrt2 in Hu.
      eapply update_rows_inv in Hu.
      * rewrite Hu. apply list_fmap_ext. intros i r' _. simpl. unfold touched. simpl.
        rewrite andb_true_r. repeat case_bool_decide; case_decide; done.
      * intros r' r'' _ Ha. destruct r', pf; eval_update Ha; done.
    + intros e w' t' Hi. eapply in_tx_aborted; [done|]. by eapply in_tx_trans.
  - intros ? w4 (t4 & Hin4 & Hr4). apply returns_map_err.
    destruct (in_tx_unchanged _ _ _ Ht Hin4) as [Hf4 Hr4'].
    eapply returns_commit; [apply Hin4|..].
    + intros w' Hf' Hr'. split; [by etrans|]. exists r, n. by rewrite Hr', Hr4.
    + intros e w' Hf' Hr'.
      assert (w_tx w' = None) as Hn' by (rewrite (frame_tx _ _ Hf'); by destruct w4).
      unfold aborted. rewrite (with_tx_None _ Hn'). split; [by etrans|].
      rewrite Hr', <- Hr4'. by destruct w4.
Qed.

Lemma AddFulfilledProof_returns w id pf :
  w_tx w = None →
  returns (AddFulfilledProof id pf) w (λ _, fulfilled w id pf) (unchanged w).
Proof.
  intros Ht. unfold AddFulfilledProof.
  eapply (returns_bind _ _ _ (λ _ w', ∃ t, in_tx w w' t ∧ sg_rows t = rows w) (unchanged w));
    [|..|done].
  { apply returns_map_err, returns_begin; [done|by eauto|by split]. }
  intros [] w1 (t & Hin & Hrt).
  eapply (returns_defer _ _ _ (λ _, fulfilled w id pf) (aborted w)).
  2: { intros [] w' [Hf HP]. apply returns_rollback. rewrite with_tx_None; [done|].
       by rewrite (frame_tx _ _ Hf). }
  2: { intros e w' HP. by apply returns_rollback. }
  eapply (returns_bind _ _ _ (λ a w', ∃ r t', in_tx w w' t' ∧ sg_rows t' = rows w ∧
        matching [ID id] (rows w) = [r] ∧ a = entity r) (aborted w)); [|..|done].
  { apply returns_map_err, (returns_only_tx _ _ t); [by apply Hin|..].
    - intros r w' t' Hi Hs Hm. rewrite Hrt in *. exists r, t'. split; [by eapply in_tx_trans|done].
    - intros e w' t' Hi _. eapply in_tx_aborted; [done|]. by eapply in_tx_trans. }
  intros ? w2 (r & t2 & Hin2 & Hrt2 & Hm & ->).
  change (pr_Status (entity r)) with (row_status r). change (pr_Proof (entity r)) with (row_proof r).
  case_bool_decide as Hst; cbn [negb]; [|by eapply in_tx_aborted].
  case_bool_decide as Hpf; [by eapply in_tx_aborted|].
  by eapply fulfil_commit_returns.
Qed.

(** ** What the queries return *)

Lemma matching_filter ps (P : Row → Prop) `{∀ r, Decision (P r)} tbl :
  (∀ r, sat ps r = bool_decide (P r)) → matching ps tbl = filter P tbl.
Proof.
  intros HP. apply list_filter_iff. intros r. rewrite HP. apply bool_decide_spec.
Qed.

#[export] Instance Row_interval : Interval Row := { lo := row_start_block; hi := row_end_block }.

Lemma entity_start r : row_ok r → pr_StartBlock (entity r) = row_start_block r.
Proof. intros (_ & Hs & _). by apply u64_i63. Qed.
Lemma entity_end r : row_ok r → pr_EndBlock (entity r) = row_end_block r.
Proof. intros (_ & _ & He). by apply u64_i63. Qed.

Lemma table_row_ok tbl r : table_ok tbl → r ∈ tbl → row_ok r.
Proof. intros [Hok _] Hr. by eapply Forall_forall in Hok. Qed.

Lemma GetNumberOfRequestsWithStatuses_returns w st :
  returns (GetNumberOfRequestsWithStatuses [st]) w
    (λ n w', quiet w w' ∧ n = Z.of_nat (length (filter (λ r, row_status r = st) (rows w))))
    (unchanged w).
Proof.
  apply returns_map_err, returns_count; [done..| |done].
  intros w' Hf Hr. split; [done|]. simpl. do 2 f_equal. apply matching_filter.
  intros r. autorewrite with sat. by rewrite andb_true_r.
Qed.

Lemma all_or_none_returns f q w P E :
  returns (prq_All q) w P (λ e w', IsNotFound e = false ∧ E (f e) w') →
  returns (all_or_none f q) w P E.
Proof.
  intros Hq. unfold all_or_none.
  eapply (returns_bind _ _ _ (λ r w', match r with inl e => IsNotFound e = false ∧ E (f e) w' | inr l => P l w' end)
    (λ _ _, False)); [|..|done].
  - apply returns_attempt. by eapply returns_mono.
  - intros [e|l] w'; [|done]. intros [He HE]. by rewrite He.
Qed.

(** A [WHERE] clause as a proposition on rows. *)
Ltac solve_sat :=
  intros ?; autorewrite with sat; apply eq_bool_prop_intro;
  rewrite ?andb_True, ?bool_decide_spec; intuition done.

(** A query without an order or limit returns the matching rows in some order. *)
Definition selected (P : Row → Prop) `{∀ r, Decision (P r)} w (l : list ProofRequest) : Prop :=
  ∃ rs, rs ≡ₚ filter P (rows w) ∧ l = entity <$> rs.

Lemma unordered_returns ps (P : Row → Prop) `{∀ r, Decision (P r)} w :
  (∀ r, sat ps r = bool_decide (P r)) →
  returns (prq_All (prq_Where ps (Client_Query HRead))) w
    (λ l w', quiet w w' ∧ selected P w l)
    (λ e w', quiet w w' ∧ ∃ e', e = ESql e').
Proof.
  intros HP. apply returns_all; [done..| |].
  2: { intros e w' Hf Hr. split; [done|by exists e]. }
  intros l w' Hf Hr (full & Hp & _ & ->). split; [done|]. simpl in *. exists full.
  change (filter _ _) with (matching ps (rows w)) in Hp.
  rewrite (matching_filter ps P) in Hp by done. done.
Qed.

Lemma GetAllProofsWithStatus_returns w st :
  returns (GetAllProofsWithStatus st) w
    (λ l w', quiet w w' ∧ selected (λ r, row_status r = st) w l) (unchanged w).
Proof.
  apply all_or_none_returns. eapply returns_mono;
    [apply (unordered_returns _ (λ r, row_status r = st))|done|].
  - intros r. autorewrite with sat. by rewrite andb_true_r.
  - intros e w' [? (e' & ->)]. done.
Qed.

Definition completed_agg (start : Z) (r : Row) : Prop :=
  row_type r = TypeAGG ∧ row_start_block r = start ∧ row_status r = StatusCOMPLETE.
#[export] Instance completed_agg_dec start r : Decision (completed_agg start r).
Proof. unfold completed_agg. apply _. Defined.

Lemma GetAllCompletedAggProofs_returns w start :
  returns (GetAllCompletedAggProofs start) w
    (λ l w', quiet w w' ∧ selected (completed_agg start) w l) (unchanged w).
Proof.
  apply all_or_none_returns. eapply returns_mono;
    [apply (unordered_returns _ (completed_agg start))|done|].
  - unfold completed_agg. solve_sat.
  - intros e w' [? (e' & ->)]. done.
Qed.

Definition over_range (t : string) (s e : Z) (st : string) (r : Row) : Prop :=
  row_type r = t ∧ row_start_block r = s ∧ row_end_block r = e ∧ row_status r = st.
#[export] Instance over_range_dec t s e st r : Decision (over_range t s e st r).
Proof. unfold over_range. apply _. Defined.

Lemma GetProofRequestsWithBlockRangeAndStatus_returns w t s e st :
  returns (GetProofRequestsWithBlockRangeAndStatus t s e st) w
    (λ l w', quiet w w' ∧ selected (over_range t s e st) w l) (unchanged w).
Proof.
  apply returns_map_err. eapply returns_mono;
    [apply (unordered_returns _ (over_range t s e st))|done|].
  - unfold over_range. solve_sat.
  - intros er w' [? _]. done.
Qed.

(** The rows of a query ordered by start block. *)
Definition selected_asc (P : Row → Prop) `{∀ r, Decision (P r)} w (rs : list Row) : Prop :=
  rs ≡ₚ filter P (rows w) ∧ StronglySorted (le_key row_start_block) rs.

Lemma ordered_returns ps (P : Row → Prop) `{∀ r, Decision (P r)} w :
  (∀ r, sat ps r = bool_decide (P r)) →
  returns (prq_All (prq_Order (Asc [FieldStartBlock]) (prq_Where ps (Client_Query HRead)))) w
    (λ l w', quiet w w' ∧ ∃ rs, selected_asc P w rs ∧ l = entity <$> rs)
    (λ e w', quiet w w' ∧ ∃ e', e = ESql e').
Proof.
  intros HP. apply returns_all; [done..| |].
  2: { intros e w' Hf Hr. split; [done|by exists e]. }
  intros l w' Hf Hr (full & Hp & Hs & ->). split; [done|]. simpl in *. exists full.
  change (filter _ _) with (matching ps (rows w)) in Hp.
  rewrite (matching_filter ps P) in Hp by done. split; [|done]. split; [done|].
  eapply sorted_asc; [apply int_col_start|exact Hs].
Qed.

Definition waiting (t : string) (r : Row) : Prop := row_status r = StatusUNREQ ∧ row_type r = t.
#[export] Instance waiting_dec t r : Decision (waiting t r).
Proof. unfold waiting. apply _. Defined.

(** [r] is first in the queue of unrequested proofs of type [t]. *)
Definition first_waiting (t : string) (tbl : list Row) (r : Row) : Prop :=
  r ∈ tbl ∧ waiting t r ∧ ∀ r', r' ∈ tbl → waiting t r' → row_start_block r <= row_start_block r'.

Lemma first_unrequested_returns w t :
  returns (prq_First (unrequested t)) w
    (λ p w', quiet w w' ∧ ∃ r, first_waiting t (rows w) r ∧ p = entity r)
    (λ e w', quiet w w' ∧ (IsNotFound e = true → ∀ r, r ∈ rows w → ¬ waiting t r)).
Proof.
  assert (∀ r, sat [StatusEQ StatusUNREQ; TypeEQ t] r = bool_decide (waiting t r)) as Hsat.
  { unfold waiting. solve_sat. }
  apply returns_first; [done..| | |].
  - intros r l w' Hf Hr Hp Hs. split; [done|]. exists r. split; [|done]. simpl in Hp, Hs.
    rewrite (matching_filter _ (waiting t)) in Hp by done.
    assert (∀ r', r' ∈ r :: l ↔ waiting t r' ∧ r' ∈ rows w) as Hin.
    { intros r'. rewrite Hp. apply list_elem_of_filter. }
    destruct (proj1 (Hin r)) as [Hw Hr0]; [apply elem_of_cons; by left|].
    split; [done|]. split; [done|]. intros r' Hr' Hw'.
    apply (sorted_head_min row_start_block r l); [|by apply Hin].
    eapply sorted_asc; [apply int_col_start|exact Hs].
  - intros w' Hf Hr Hm. split; [done|]. intros _ r Hin Hw. simpl in Hm.
    rewrite (matching_filter _ (waiting t)) in Hm by done.
    assert (r ∈ filter (waiting t) (rows w)) as Hx by by apply list_elem_of_filter.
    rewrite Hm in Hx. by apply elem_of_nil in Hx.
  - intros e w' Hf Hr. by split.
Qed.

Lemma GetNextUnrequestedProof_returns w :
  returns GetNextUnrequestedProof w
    (λ o w', quiet w w' ∧
       match o with
       | Some p => ∃ r, p = entity r ∧
           (first_waiting TypeAGG (rows w) r ∨
            first_waiting TypeSPAN (rows w) r ∧ ∀ r', r' ∈ rows w → ¬ waiting TypeAGG r')
       | None => ∀ r, r ∈ rows w → ¬ waiting TypeAGG r ∧ ¬ waiting TypeSPAN r
       end)
    (unchanged w).
Proof.
  unfold GetNextUnrequestedProof.
  eapply (returns_bind _ _ _ _ (λ _ _, False)); [apply returns_try, first_unrequested_returns| |done].
  intros [e|p] w1; cbv beta.
  2: { intros (Hq & r & Hr & ->). split; [done|]. exists r. auto. }
  intros (Hq & Hnone). destruct (IsNotFound e); cbn [negb]; [|done].
  eapply (returns_bind _ _ _ _ (λ _ _, False)); [apply returns_try, first_unrequested_returns| |done].
  destruct Hq as [Hf Hr]. rewrite Hr.
  intros [e'|p] w2; cbv beta.
  - intros ([Hf2 Hr2] & Hnone2). assert (quiet w w2) as Hq2 by (split; [by etrans|congruence]).
    destruct (IsNotFound e'); [|done]. split; [done|]. auto.
  - intros ([Hf2 Hr2] & r & Hfw & ->). apply returns_ret. split; [split; [by etrans|congruence]|]. exists r. auto.
Qed.

Lemma GetLatestEndBlock_returns w :
  returns GetLatestEndBlock w
    (λ m w', quiet w w' ∧ ∃ r, r ∈ rows w ∧ m = u64 (u64 (row_end_block r)) ∧
       ∀ r', r' ∈ rows w → row_end_block r' <= row_end_block r)
    (λ e w', quiet w w' ∧ (IsNotFound e = true → rows w = [])).
Proof.
  unfold GetLatestEndBlock.
  eapply (returns_bind _ _ _ (λ p w', quiet w w' ∧ ∃ r, r ∈ rows w ∧ p = end_block_entity r ∧
       ∀ r', r' ∈ rows w → row_end_block r' <= row_end_block r)
    (λ e w', quiet w w' ∧ (IsNotFound e = true → rows w = []))); [|..|done].
  - apply returns_map_err. unfold prq_First.
    eapply (returns_bind _ _ _ (λ l w', quiet w w' ∧ ∃ full, full ≡ₚ rows w ∧
      StronglySorted (le_key (λ r, - row_end_block r)) full ∧ l = end_block_entity <$> take 1 full)
      (λ e w', quiet w w' ∧ IsNotFound e = false)).
    + unfold prq_All, prq_prepareQuery, prq_sqlAll. cbn -[db].
      eapply (returns_bind _ _ _ (λ r w', quiet w w' ∧
        match r with
        | inl e => True
        | inr cells => ∃ full, full ≡ₚ rows w ∧
            StronglySorted (le_key (λ r, - row_end_block r)) full ∧
            cells = select_cols [FieldID; FieldEndBlock] <$> take 1 full
        end) (λ _ _, False)); [| |done].
      * apply returns_db. cbn -[on_handle]. apply read_handle; [|done].
        intros r s Hq. split; [split; [apply frame_with_db|rewrite rows_with_db]|].
        -- destruct r as [e|cells]; [by apply sg_query_err in Hq|].
           by apply sg_query_ok in Hq as [? _].
        -- destruct r as [e|cells]; [done|].
           apply sg_query_ok in Hq as [_ (l & (full & Hp & Hs & ->) & ->)]; [|done].
           exists full. change (filter _ _) with (matching [] (rows w)) in Hp. rewrite matching_nil in Hp.
           split; [done|]. split; [|done]. eapply sorted_desc; [apply int_col_end|exact Hs].
      * intros [e|cells] w' (Hq & Hl); [by split|].
        destruct Hl as (l & Hl & Hs & ->). apply returns_lift.
        change (prq_columns _) with [FieldID; FieldEndBlock].
        rewrite scan_nodes_end_block. eauto.
    + intros l w' (Hq & full & Hp & Hs & ->). destruct full as [|r full]; simpl.
      * split; [done|]. intros _. by apply Permutation_nil_l in Hp.
      * split; [done|]. exists r. split; [rewrite <- Hp; apply elem_of_cons; by left|].
        split; [done|]. intros r' Hr'. rewrite <- Hp in Hr'.
        apply (sorted_head_min _ _ _ Hs) in Hr'. cbv beta in Hr'. lia.
    + intros e w' [Hq He]. cbv beta. rewrite He. split; [done|]. intros Hn. change (IsNotFound e = true) in Hn. congruence.
  - intros p w' (Hq & r & Hr & -> & Hmax). split; [done|]. eauto.
Qed.

(** A completed span proof. *)
Definition proven (r : Row) : Prop := row_type r = TypeSPAN ∧ row_status r = StatusCOMPLETE.
#[export] Instance proven_dec r : Decision (proven r).
Proof. unfold proven. apply _. Defined.

Lemma contiguous_end_rows s rs :
  Forall row_ok rs → contiguous_end s (entity <$> rs) = reach s rs.
Proof.
  revert s. induction rs as [|r rs IH]; intros s Hok; [done|].
  apply Forall_cons in Hok as [Hr Hok]. rewrite fmap_cons. cbn [contiguous_end reach lo hi Row_interval].
  rewrite entity_start, entity_end by done. by rewrite IH.
Qed.

Lemma selected_asc_ok (P : Row → Prop) `{∀ r, Decision (P r)} w rs :
  table_ok (rows w) → selected_asc P w rs → Forall row_ok rs.
Proof.
  intros Hok [Hp _]. apply Forall_forall. intros r Hr. rewrite Hp in Hr.
  apply list_elem_of_filter in Hr as [_ Hr]. by eapply table_row_ok.
Qed.

Lemma GetMaxContiguousSpanProofRange_returns w s :
  table_ok (rows w) →
  returns (GetMaxContiguousSpanProofRange s) w
    (λ m w', quiet w w' ∧ ∃ rs, selected_asc (λ r, proven r ∧ s <= lo r) w rs ∧ m = reach s rs)
    (unchanged w).
Proof.
  intros Hok. unfold GetMaxContiguousSpanProofRange.
  eapply (returns_bind _ _ _ _ (unchanged w)); [|..|done].
  - apply returns_map_err. eapply returns_mono;
      [apply (ordered_returns _ (λ r, proven r ∧ s <= lo r))|intros l w' HQ; exact HQ|by intros e w' [? _]].
    unfold proven. solve_sat.
  - intros l w' (Hq & rs & Hrs & ->). apply returns_ret. split; [done|]. exists rs. split; [done|].
    apply contiguous_end_rows. by eapply selected_asc_ok.
Qed.

(** An aggregation request that has not failed, from block [s]. *)
Definition live_agg (s : Z) (r : Row) : Prop :=
  row_type r = TypeAGG ∧ row_start_block r = s ∧ row_status r ≠ StatusFAILED.
#[export] Instance live_agg_dec s r : Decision (live_agg s r).
Proof. unfold live_agg. apply _. Defined.

Lemma TryCreateAgg_returns w from minTo :
  w_tx w = None → table_ok (rows w) →
  returns (TryCreateAggProofFromSpanProofs from minTo) w
    (λ r w', frame w w' ∧
       match r with
       | (created, end_) =>
           if created then
             ∃ rs, selected_asc (λ r, proven r ∧ from <= lo r) w rs ∧ end_ = reach from rs ∧
               minTo <= end_ ∧ (∀ r, r ∈ rows w → ¬ live_agg from r) ∧
               ∃ id now, (∀ r, r ∈ rows w → row_id r ≠ id) ∧ 0 < id < two63 ∧ 0 <= now < two63 ∧
                 from < two63 ∧ end_ < two63 ∧
                 rows w' = rows w ++ [new_row id TypeAGG from end_ now]
           else
             end_ = 0 ∧ rows w' = rows w ∧
             ((∃ r, r ∈ rows w ∧ live_agg from r) ∨
              ∃ rs, selected_asc (λ r, proven r ∧ from <= lo r) w rs ∧ reach from rs < minTo)
       end)
    (unchanged w).
Proof.
  intros Ht Hok. unfold TryCreateAggProofFromSpanProofs.
  eapply (returns_bind _ _ _ (λ n w', quiet w w' ∧
    n = Z.of_nat (length (filter (live_agg from) (rows w)))) (unchanged w)); [|..|done].
  { apply returns_map_err, returns_count; [done..| |by split].
    intros w' Hf Hr. split; [done|]. simpl. do 2 f_equal. apply matching_filter.
    unfold live_agg. solve_sat. }
  intros n w1 [[Hf1 Hr1] ->]. destruct (Z.ltb_spec 0 (Z.of_nat (length (filter (live_agg from) (rows w))))) as [Hn|Hn].
  { apply returns_ret. split; [done|]. split; [done|]. split; [done|]. left.
    destruct (filter (live_agg from) (rows w)) as [|r l] eqn:E; [simpl in Hn; lia|].
    exists r. assert (r ∈ filter (live_agg from) (rows w)) as Hr by (rewrite E; apply elem_of_cons; by left).
    apply list_elem_of_filter in Hr. tauto. }
  assert (∀ r, r ∈ rows w → ¬ live_agg from r) as Hnone.
  { intros r Hr Hl. assert (r ∈ filter (live_agg from) (rows w)) as Hx by by apply list_elem_of_filter.
    destruct (filter (live_agg from) (rows w)); [by apply elem_of_nil in Hx|simpl in Hn; lia]. }
  eapply (returns_bind _ _ _ (λ m w', quiet w w' ∧
     ∃ rs, selected_asc (λ r, proven r ∧ from <= lo r) w rs ∧ m = reach from rs) (unchanged w)); [|..|done].
  { apply returns_map_err. eapply returns_mono; [apply GetMaxContiguousSpanProofRange_returns; by rewrite Hr1|..].
    - unfold selected_asc. rewrite Hr1. intros m w' [[Hf Hr] Hrs]. split; [|done].
      split; [by etrans|congruence].
    - intros e w' [Hf Hr]. split; [by etrans|congruence]. }
  intros m w2 ([Hf2 Hr2] & rs & Hrs & ->). destruct (Z.ltb_spec (reach from rs) minTo).
  { apply returns_ret. split; [done|]. split; [done|]. split; [done|]. right. by exists rs. }
  eapply (returns_bind _ _ _ (λ _ w', frame w w' ∧ ∃ id now, (∀ r, r ∈ rows w → row_id r ≠ id) ∧
      0 < id < two63 ∧ 0 <= now < two63 ∧ from < two63 ∧ reach from rs < two63 ∧
      rows w' = rows w ++ [new_row id TypeAGG from (reach from rs) now]) (unchanged w)); [|..|done].
  - apply returns_map_err. eapply returns_mono; [apply NewEntry_returns; by rewrite (frame_tx _ _ Hf2)|..].
    + rewrite Hr2. intros _ w' (Hf & id & now & ? & ? & ? & ? & ? & _ & ?).
      split; [by etrans|]. by exists id, now.
    + intros e w' [Hf Hr]. split; [by etrans|congruence].
  - intros _ w' (Hf & Hrow). apply returns_ret. split; [done|]. exists rs. by split.
Qed.

Lemma collect_chain_rows s acc rs :
  Forall row_ok rs →
  match collect_chain s acc (entity <$> rs) with
  | inr (l, m) => l = acc ++ (row_proof <$> rs) ∧ linked s rs m
  | inl _ => ∀ m, ¬ linked s rs m
  end.
Proof.
  revert s acc. induction rs as [|r rs IH]; intros s acc Hok; simpl; [by rewrite app_nil_r|].
  apply Forall_cons in Hok as [Hr Hok]. change (u64 (row_start_block r)) with (pr_StartBlock (entity r)).
  change (u64 (row_end_block r)) with (pr_EndBlock (entity r)).
  rewrite entity_start, entity_end by done.
  destruct (Z.eqb_spec (row_start_block r) s) as [E|E]; [|by intros m []].
  specialize (IH (row_end_block r) (acc ++ [row_proof r]) Hok).
  destruct (collect_chain _ _ _) as [e|[l m]].
  - intros m [_ ?]. by apply (IH m).
  - destruct IH as [-> Hl]. rewrite <- app_assoc. done.
Qed.

Definition proven_within (s e : Z) (r : Row) : Prop := proven r ∧ s <= lo r ∧ hi r <= e.
#[export] Instance proven_within_dec s e r : Decision (proven_within s e r).
Proof. unfold proven_within. apply _. Defined.

Lemma linked_functional s (l : list Row) e e' : linked s l e → linked s l e' → e = e'.
Proof.
  revert s. induction l as [|x l IH]; simpl; intros s; [congruence|]. intros [_ ?] [_ ?]. eauto.
Qed.

Lemma GetConsecutiveSpanProofs_returns w s e :
  table_ok (rows w) →
  returns (GetConsecutiveSpanProofs s e) w
    (λ l w', quiet w w' ∧ ∃ rs, selected_asc (proven_within s e) w rs ∧ linked s rs e ∧ l = row_proof <$> rs)
    (λ err w', quiet w w' ∧
       ((∃ e', err = wrap "failed to query span proofs: %w" (ESql e')) ∨
        ∃ rs, selected_asc (proven_within s e) w rs ∧ ¬ linked s rs e)).
Proof.
  intros Hok. unfold GetConsecutiveSpanProofs.
  eapply (returns_bind _ _ _ (λ l w', quiet w w' ∧ ∃ rs, selected_asc (proven_within s e) w rs ∧ l = entity <$> rs)
    (λ err w', quiet w w' ∧ ∃ e', err = wrap "failed to query span proofs: %w" (ESql e'))).
  - apply returns_map_err. eapply returns_mono;
      [apply (ordered_returns _ (proven_within s e))|intros l w' HQ; exact HQ|].
    + unfold proven_within, proven. solve_sat.
    + intros er w' [Hq (e' & ->)]. split; [done|]. by exists e'.
  - intros l w' (Hq & rs & Hrs & ->).
    pose proof (collect_chain_rows s [] rs (selected_asc_ok _ _ _ Hok Hrs)) as Hc.
    destruct (collect_chain s [] (entity <$> rs)) as [er|[l m]].
    + apply returns_raise. split; [done|]. right. exists rs. split; [done|]. apply Hc.
    + destruct Hc as [-> Hl]. cbn [lift mbind prog_mbind prog_bind].
      destruct (Z.eqb_spec m e) as [->|Hne]; simpl; split; [done| |done|].
      * by exists rs.
      * right. exists rs. split; [done|]. intros Hl'. apply Hne. by eapply linked_functional.
  - intros er w' [Hq He]. split; [done|]. by left.
Qed.

(** The aggregation requests a checkpoint is stored in. *)
Definition unrequested_agg (s e : Z) (r : Row) : Prop :=
  row_type r = TypeAGG ∧ row_status r = StatusUNREQ ∧ row_start_block r = s ∧ row_end_block r = e.
#[export] Instance unrequested_agg_dec s e r : Decision (unrequested_agg s e r).
Proof. unfold unrequested_agg. apply _. Defined.

Definition l1_info_added (s e n : Z) (h : string) (t : Z) (tbl : list Row) : list Row :=
  (λ r, if decide (unrequested_agg s e r) then with_l1_info n h t r else r) <$> tbl.

Lemma unrequested_agg_sat s e r :
  sat [TypeEQ TypeAGG; StatusEQ StatusUNREQ; StartBlockEQ s; EndBlockEQ e] r = bool_decide (unrequested_agg s e r).
Proof. revert r. unfold unrequested_agg. solve_sat. Qed.

(** What the update of [AddL1BlockInfoToAggRequest] writes. *)
Lemma l1_info_update s e n h t tbl tbl' :
  update_rows (pru_updateSpec (pru_mutation
    (pru_SetLastUpdatedTime t (pru_SetL1BlockHash h (pru_SetL1BlockNumber n
      (pru_Where [TypeEQ TypeAGG; StatusEQ StatusUNREQ; StartBlockEQ s; EndBlockEQ e] (Client_Update HWrite))))))) tbl
    = Some tbl' →
  tbl' = l1_info_added s e n h t tbl.
Proof.
  intros Hu. pose proof (unrequested_agg_sat s e) as Hsat. eapply (update_rows_inv _ (with_l1_info n h t)) in Hu.
  - rewrite Hu. apply list_fmap_ext. intros i r _. specialize (Hsat r).
    match goal with |- (if touched ?u r then _ else _) = _ =>
      change (touched u r = bool_decide (unrequested_agg s e r)) in Hsat end.
    rewrite Hsat. case_bool_decide; case_decide; done.
  - intros r r' _ Ha. destruct r. eval_update Ha. done.
Qed.

Lemma unrequested_with_l1 s e n h t r :
  unrequested_agg s e (with_l1_info n h t r) ↔ unrequested_agg s e r.
Proof. by destruct r. Qed.

(** The rows the second query of [AddL1BlockInfoToAggRequest] finds. *)
Lemma l1_info_hits s e n h t tbl :
  filter (λ r, unrequested_agg s e r ∧ row_l1_block_number r = Some n ∧ row_l1_block_hash r = Some h)
    (l1_info_added s e n h t tbl)
  = with_l1_info n h t <$> filter (unrequested_agg s e) tbl.
Proof.
  unfold l1_info_added. induction tbl as [|r tbl IH]; [done|].
  rewrite fmap_cons, (filter_cons (unrequested_agg s e)).
  destruct (decide (unrequested_agg s e r)) as [Hu|Hu].
  - rewrite filter_cons_True; [by rewrite IH|]. split; [by apply unrequested_with_l1|by destruct r].
  - rewrite filter_cons_False; [by rewrite IH|tauto].
Qed.

Lemma list_eq_singleton_fmap {A B} (f : A → B) l y : f <$> l = [y] → ∃ x, l = [x] ∧ f x = y.
Proof. destruct l as [|x [|x' l]]; intros E; simplify_eq/=. by exists x. Qed.

Lemma AddL1BlockInfo_returns w s e n h :
  w_tx w = None →
  returns (AddL1BlockInfoToAggRequest s e n h) w
    (λ p w', frame w w' ∧ ∃ r t, filter (unrequested_agg s e) (rows w) = [r] ∧ is_u64 t ∧
       rows w' = l1_info_added s e n h t (rows w) ∧ p = entity (with_l1_info n h t r))
    (λ err w', frame w w' ∧
       (rows w' = rows w ∨ ∃ t, is_u64 t ∧ rows w' = l1_info_added s e n h t (rows w))).
Proof.
  intros Ht. apply now_bind. intros t w1 Htm Hf1 Hr1.
  eapply (returns_bind _ _ _ (λ k w', frame w w' ∧ rows w' = l1_info_added s e n h t (rows w) ∧
     k = Z.of_nat (length (filter (unrequested_agg s e) (rows w)))) (unchanged w)).
  - apply returns_map_err, returns_update; [done|by rewrite (frame_tx _ _ Hf1)|done|..].
    + intros w' Hf Hu. split; [by etrans|]. rewrite Hr1 in *. split; [by apply l1_info_update|].
      do 2 f_equal. apply matching_filter, unrequested_agg_sat.
    + intros er w' Hf Hr. split; [by etrans|congruence].
  - intros k w2 (Hf2 & Hr2 & ->).
    set (hits := filter (unrequested_agg s e) (rows w)).
    destruct (Z.eqb_spec (Z.of_nat (length hits)) 0) as [E|E].
    { apply returns_raise. split; [done|]. right. by exists t. }
    apply returns_map_err, returns_only.
    + intros r w' Hf Hr Hm. rewrite Hr2 in *.
      rewrite (matching_filter _ (λ r, unrequested_agg s e r ∧
        row_l1_block_number r = Some n ∧ row_l1_block_hash r = Some h)) in Hm
        by (unfold unrequested_agg; solve_sat).
      rewrite l1_info_hits in Hm. apply list_eq_singleton_fmap in Hm as (r0 & Hr0 & <-).
      split; [by etrans|]. exists r0, t. done.
    + intros er w' Hf Hr. split; [by etrans|]. right. exists t. split; [done|congruence].
  - intros er w' [? ?]. split; [done|]. by left.
Qed.

End specs.
