(* ===== verification/Range.v ===== *)
(** * Ranges to prove ([range.go])

    How the proposer cuts the blocks that became final into span proofs, and
    the helpers that cut along the safe heads of the derivation. *)

From Stdlib Require Import ZArith Lia.
From S2P Require Import Prelude Sql ProofRequest Metrics Prog Types Spans Mutation Builders Db.

(** An external call that returns an error or a value. *)
Definition call {A} (c : ExtCmd (error + A)) : prog A := r ← ask c; lift r.

(** [rollupClient, err := dial.DialRollupClientWithTimeout(...)] *)
Definition dial_rollup : prog unit := r ← ask EDialRollup; lift_err r.

(** The search of [GetL1HeadForL2Block], from [currentL1Block] on. *)
Fixpoint search_l1_head (fuel : nat) (l2End latestL1Block currentL1Block : Z) : prog Z :=
  if currentL1Block <=? latestL1Block then
    match fuel with
    | O => OutOfFuel
    | S fuel' =>
        safeHead ← map_err (wrap "failed to get safe head: %w") (call (ESafeHeadAtL1Block currentL1Block));
        if l2End <=? safeHead then Ret currentL1Block
        else search_l1_head fuel' l2End latestL1Block (add64 currentL1Block 1)
    end
  else
    Raise (Errorf "could not find an L1 block with an L2 safe head greater than the L2 end block" []).

Definition GetL1HeadForL2Block (l2End : Z) : prog Z :=
  status ← map_err (wrap "failed to get sync status: %w") (call ESyncStatus);
  let latestL1Block := HeadL1 status in
  outputResponse ← map_err (wrap "failed to get l1 origin: %w") (call (EOutputAtBlock l2End));
  let L2EndL1Origin := BlockRef_L1Origin outputResponse in
  search_l1_head (Z.to_nat (latestL1Block - L2EndL1Origin + 1)) l2End latestL1Block L2EndL1Origin.

Definition IsSafeDBActivated : prog bool :=
  status ← map_err (wrap "failed to get sync status: %w") (call ESyncStatus);
  _ ← map_err (wrap "failed to get safe head: %w") (call (ESafeHeadAtL1Block (HeadL1 status)));
  Ret true.

(** The chunks of one safe head interval: [None] when the fuel runs out. *)
Fixpoint cut (fuel : nat) (step limit rangeStart : Z) : option (list Span * Z) :=
  if add64 rangeStart step <? limit then
    match fuel with
    | O => None
    | S fuel' =>
        match cut fuel' step limit (add64 rangeStart step) with
        | Some (spans, last) => Some (mkSpan rangeStart (add64 rangeStart step) :: spans, last)
        | None => None
        end
    end
  else Some ([], rangeStart).

(** The loop over the sorted safe heads of [SplitRangeBasedOnSafeHeads]. *)
Fixpoint cut_at_heads (step l2End currentStart : Z) (heads : list Z) : option (list Span) :=
  match heads with
  | [] => Some []
  | safeHead :: heads' =>
      if currentStart <? safeHead then
        let limit := Z.min l2End safeHead in
        '(spans, rangeStart) ← cut (Z.to_nat (limit - currentStart)) step limit currentStart;
        rest ← cut_at_heads step l2End safeHead heads';
        Some (spans ++ mkSpan rangeStart limit :: rest)
      else cut_at_heads step l2End currentStart heads'
  end.

(** The safe heads at a list of L1 blocks, asked for in that order; every
    request is made, and the first error is the result. *)
Fixpoint gather (l1Blocks : list Z) : prog (option error * gset Z) :=
  match l1Blocks with
  | [] => Ret (None, ∅)
  | l1Block :: rest =>
      r ← attempt (map_err (Wrapf "failed to get safe head at block %d: %w" [AInt l1Block])
                     (call (ESafeHeadAtL1Block l1Block)));
      p ← gather rest;
      Ret (match r with
           | inl err => (Some err, snd p)
           | inr safeHead => (fst p, {[safeHead]} ∪ snd p)
           end)
  end.

(** [for b := first; b <= last; b++], for [last] below the largest uint64. *)
Definition block_range (first last : Z) : list Z :=
  (λ i, first + Z.of_nat i) <$> seq 0 (Z.to_nat (last - first + 1)).

Definition SplitRangeBasedOnSafeHeads (step : Z) (l2Start l2End : Z) : prog (list Span) :=
  _ ← dial_rollup;
  L1Head ← map_err (wrap "failed to get l1 head for l2 block: %w") (GetL1HeadForL2Block l2End);
  l2StartOutput ← map_err (wrap "failed to get l2 start output: %w") (call (EOutputAtBlock l2Start));
  let L2StartL1Origin := BlockRef_L1Origin l2StartOutput in
  if L1Head =? two64 - 1 then OutOfFuel
  else
    let blocks := block_range L2StartL1Origin L1Head in
    order ← ask (EOrder (length blocks));
    p ← gather (shuffle order blocks);
    match fst p with
    | Some err => Raise (wrap "failed while getting safe heads: %w" err)
    | None =>
        let uniqueSafeHeads := merge_sort Z.le (elements (snd p)) in
        match cut_at_heads step l2End l2Start uniqueSafeHeads with
        | Some spans => Ret spans
        | None => OutOfFuel
        end
    end.

(** The loop of [SplitRangeBasic]; [None] when the fuel runs out. *)
Fixpoint split_loop (fuel : nat) (step end_ i : Z) : option (list Span) :=
  if add64 i step <=? end_ then
    match fuel with
    | O => None
    | S fuel' => cons (mkSpan i (add64 i step)) <$> split_loop fuel' step end_ (add64 i step)
    end
  else Some [].

(** One iteration per span: no more than the blocks of the range. *)
Definition SplitRangeBasic (step start end_ : Z) : option (list Span) :=
  split_loop (Z.to_nat (end_ - start)) step end_ start.

(** The first lines of [GetRangeProofBoundaries]: the last end block of the
    database or, when it is empty, the contract's latest block. *)
Definition latest_l2_end_block : prog Z :=
  r ← attempt GetLatestEndBlock;
  match r with
  | inl err =>
      if IsNotFound err then
        latestEndBlockU256 ← map_err (wrap "failed to get latest output index: %w")
                               (call ELatestBlockNumber);
        Ret (u64 latestEndBlockU256)
      else Raise err
  | inr n => Ret n
  end.

Definition GetRangeProofBoundaries (cfg : ProposerConfig) : prog unit :=
  latestL2EndBlock ← latest_l2_end_block;
  let newL2StartBlock := latestL2EndBlock in
  _ ← dial_rollup;
  status ← call ESyncStatus;
  let newL2EndBlock := FinalizedL2 status in
  match SplitRangeBasic (MaxBlockRangePerSpanProof cfg) newL2StartBlock newL2EndBlock with
  | None => OutOfFuel
  | Some spans => for_each spans (λ span, NewEntry TypeSPAN (Start span) (End span))
  end.

(** ** Cutting a range into spans of equal size *)

Lemma add64_advance i step end_ :
  0 <= i → 0 < step → end_ + step < two64 → i <= end_ → add64 i step = i + step.
Proof. intros. apply add64_small. lia. Qed.

Lemma split_loop_chain fuel step end_ i l :
  0 <= i → 0 < step → end_ + step < two64 → i <= end_ → split_loop fuel step end_ i = Some l →
  ∃ m, chain i l m ∧ Forall (λ x, End x - Start x = step) l ∧ m <= end_ ∧ end_ < m + step.
Proof.
  revert i l. induction fuel as [|fuel IH]; intros i l Hi Hs He Hie; simpl;
    rewrite (add64_advance i step end_) by done; destruct (Z.leb_spec (i + step) end_) as [Hle|Hgt].
  - done.
  - intros [= <-]. exists i. repeat split; [constructor|lia|lia].
  - intros Hl. destruct (split_loop fuel step end_ (i + step)) as [l'|] eqn:E; simplify_eq/=.
    destruct (IH (i + step) l') as (m & Hc & Hf & ?); [lia..|done|].
    exists m. split; [|split; [|done]].
    + repeat split; [lia|done].
    + constructor; [simpl; lia|done].
  - intros [= <-]. exists i. repeat split; [constructor|lia|lia].
Qed.

(** One unit of fuel per block of the range is enough. *)
Lemma split_loop_total fuel step end_ i :
  0 <= i → 0 < step → end_ + step < two64 → end_ - i <= Z.of_nat fuel → i + step < two64 →
  ∃ l, split_loop fuel step end_ i = Some l.
Proof.
  revert i. induction fuel as [|fuel IH]; intros i Hi Hs He Hf Hw; simpl;
    rewrite add64_small by lia; destruct (Z.leb_spec (i + step) end_) as [Hle|Hgt]; eauto; [lia|].
  destruct (IH (i + step)) as [l ->]; [lia..|]. by eexists.
Qed.

Lemma SplitRangeBasic_total step start end_ :
  0 <= start → 0 < step → start + step < two64 → end_ + step < two64 →
  ∃ l, SplitRangeBasic step start end_ = Some l.
Proof. intros. apply split_loop_total; lia. Qed.

Section specs.
Context `{SqlLaws, External}.

(** An external call: the answer is the one the world gave. *)
Lemma returns_answer {A} (c : ExtCmd (error + A)) w (P : A → World → Prop) (E : error → World → Prop) :
  event_of c = [] →
  (∀ a w', quiet w w' → ext_exec _ c (w_ext w) = (inr a, w_ext w') → P a w') →
  (∀ e w', quiet w w' → ext_exec _ c (w_ext w) = (inl e, w_ext w') → E e w') →
  returns (call c) w P E.
Proof.
  intros Hev HP HE. unfold call, returns, wp. rewrite run_bind, run_ask.
  pose proof (exec_ext_same c w) as Hs. pose proof (exec_ext_trace c w) as Ht.
  assert (ext_exec _ c (w_ext w) = ((exec_ext c w).1, w_ext (exec_ext c w).2)) as Hx.
  { unfold exec_ext. destruct (ext_exec _ c (w_ext w)). by destruct w. }
  destruct (exec_ext c w) as [r w']. simpl in *. rewrite Hev, app_nil_r in Ht.
  assert (quiet w w') as Hq.
  { split; [by apply same_proc_frame|by apply same_proc_rows]. }
  destruct r as [e|a]; simpl; auto.
Qed.

Lemma returns_call {A} (c : ExtCmd (error + A)) w (P : A → World → Prop) (E : error → World → Prop) :
  event_of c = [] →
  (∀ a w', quiet w w' → ext_exec _ c (w_ext w) = (inr a, w_ext w') → P a w') →
  (∀ e w', quiet w w' → E e w') →
  returns (call c) w P E.
Proof. intros Hev HP HE. apply returns_answer; [done|done|]. intros e w' Hq _. by apply HE. Qed.

Lemma returns_dial w (P : World → Prop) (E : error → World → Prop) :
  (∀ w', quiet w w' → P w') → (∀ e w', quiet w w' → E e w') → returns dial_rollup w (λ _, P) E.
Proof.
  intros HP HE. unfold dial_rollup.
  eapply (returns_bind _ _ _ (λ _ w', quiet w w') (λ _ _, False)); [| |done].
  - apply returns_ask. intros r w' Hs Ht. rewrite app_nil_r in Ht.
    split; [by apply same_proc_frame|by apply same_proc_rows].
  - intros [e|] w' Hq; [by apply HE|by apply HP].
Qed.

End specs.
