(* ===== verification/Partition.v ===== *)
(** * The partition invariant of the proof database

    The proposer proves every block once: the span proofs that have not failed
    cover the blocks from a first block to the last block any request reaches,
    without gap or overlap.  [partition s e tbl] states it of a table; the
    lemmas say what each kind of write does to it. *)

From Stdlib Require Import ZArith Lia.
From S2P Require Import Prelude Sql ProofRequest Metrics Prog Mutation Builders Spans Db.

Implicit Types (tbl : list Row).

(** A span proof that has not failed. *)
Definition live_span (r : Row) : Prop := row_type r = TypeSPAN ∧ row_status r ≠ StatusFAILED.
#[export] Instance live_span_dec r : Decision (live_span r).
Proof. unfold live_span. apply _. Defined.

Record partition (s e : Z) (tbl : list Row) : Prop := mkPartition {
  part_tiles : tiles s e (filter live_span tbl);
  part_last : ∀ r, r ∈ tbl → row_end_block r <= e;
  part_reached : tbl = [] ∨ ∃ r, r ∈ tbl ∧ row_end_block r = e;
}.

(** Rows in range with distinct ids, and span proofs of at least one block. *)
Record sane (tbl : list Row) : Prop := mkSane {
  sane_ok : table_ok tbl;
  sane_span : ∀ r, r ∈ tbl → row_type r = TypeSPAN → lo r < hi r;
}.

(** Everything the proposer relies on about its table. *)
Record table_inv (s e : Z) (tbl : list Row) : Prop := mkTableInv {
  ti_sane : sane tbl;
  ti_part : partition s e tbl;
}.

(** The invariant of a concrete table is checked by computation. *)
#[export] Instance row_ok_dec r : Decision (row_ok r).
Proof. unfold row_ok. apply _. Defined.
#[export] Instance table_ok_dec tbl : Decision (table_ok tbl).
Proof. unfold table_ok. apply _. Defined.

Definition table_invb (s e : Z) tbl : bool :=
  bool_decide (table_ok tbl) && bool_decide (tiles s e (filter live_span tbl)) &&
  forallb (λ r, bool_decide (row_type r = TypeSPAN → lo r < hi r)) tbl &&
  forallb (λ r, row_end_block r <=? e) tbl &&
  (bool_decide (tbl = []) || existsb (λ r, row_end_block r =? e) tbl).

Lemma table_invb_sound s e tbl : table_invb s e tbl = true → table_inv s e tbl.
Proof.
  unfold table_invb. rewrite !andb_true_iff, orb_true_iff, !forallb_forall, existsb_exists.
  intros [[[[Hok Ht] Hs] Hl] Hr]. split.
  { split; [by apply bool_decide_eq_true in Hok|]. intros r Hin. apply list_elem_of_In in Hin.
    by apply Hs, bool_decide_eq_true in Hin. }
  split; [by apply bool_decide_eq_true in Ht|..].
  - intros r Hin. apply list_elem_of_In in Hin. apply Hl in Hin. lia.
  - destruct Hr as [Hr|(r & Hin & Hr)]; [left; by apply bool_decide_eq_true in Hr|].
    right. exists r. split; [by apply list_elem_of_In|lia].
Qed.

Lemma table_inv_empty s : table_inv s s [].
Proof.
  split; [split; [split; constructor|]|split; [apply tiles_nil| |by left]];
    by intros r Hr; apply elem_of_nil in Hr.
Qed.

Lemma ti_ok s e tbl : table_inv s e tbl → table_ok tbl.
Proof. intros [[? _] _]. done. Qed.

(** ** Appending a request *)

Lemma new_row_ok id t s e now :
  0 < id < two63 → is_i63 s → is_i63 e → row_ok (new_row id t s e now).
Proof. done. Qed.

Lemma table_ok_snoc tbl r :
  table_ok tbl → row_ok r → (∀ r', r' ∈ tbl → row_id r' ≠ row_id r) → table_ok (tbl ++ [r]).
Proof.
  intros [Hok Hnd] Hr Hfresh. split; [by apply Forall_app; split; [|constructor]|].
  rewrite fmap_app. apply NoDup_app. split; [done|]. split; [|apply NoDup_singleton].
  intros i Hi Hir. apply list_elem_of_fmap in Hi as (r' & -> & Hr'). simpl in Hir.
  apply list_elem_of_singleton in Hir. by apply (Hfresh r').
Qed.

Lemma live_snoc tbl r :
  filter live_span (tbl ++ [r]) =
  if decide (live_span r) then filter live_span tbl ++ [r] else filter live_span tbl.
Proof. rewrite filter_app, filter_cons, filter_nil. case_decide; [done|apply app_nil_r]. Qed.

Lemma sane_app tbl l :
  sane tbl → table_ok (tbl ++ l) → (∀ r, r ∈ l → row_type r = TypeSPAN → lo r < hi r) → sane (tbl ++ l).
Proof.
  intros [_ Hs] Hok Hl. split; [done|]. intros r Hr. apply elem_of_app in Hr as [Hr|Hr]; auto.
Qed.

Lemma sane_snoc tbl id ty a b now :
  sane tbl → 0 < id < two63 → (∀ r, r ∈ tbl → row_id r ≠ id) → is_i63 a → is_i63 b →
  (ty = TypeSPAN → a < b) → sane (tbl ++ [new_row id ty a b now]).
Proof.
  intros Hs Hid Hfresh Ha Hb Hlt. apply sane_app; [done|..].
  - apply table_ok_snoc; [apply Hs|by apply new_row_ok|done].
  - intros r Hr. apply list_elem_of_singleton in Hr as ->. exact Hlt.
Qed.

Lemma partition_snoc_span s e tbl id e' now :
  e < e' → partition s e tbl → partition s e' (tbl ++ [new_row id TypeSPAN e e' now]).
Proof.
  intros Hlt [Ht Hl Hr]. split.
  - rewrite live_snoc, decide_True by done.
    eapply tiles_app; [exact Ht|]. apply tiles_chain. simpl. lia.
  - intros r Hin. apply elem_of_app in Hin as [Hin|Hin].
    + apply Hl in Hin. lia.
    + apply list_elem_of_singleton in Hin as ->. simpl. lia.
  - right. eexists. split; [apply elem_of_app; right; by apply list_elem_of_singleton|done].
Qed.

Lemma partition_snoc_agg s e tbl id a b now :
  b <= e → tbl ≠ [] → partition s e tbl → partition s e (tbl ++ [new_row id TypeAGG a b now]).
Proof.
  intros Hle Hne [Ht Hl Hr]. split.
  - by rewrite live_snoc, decide_False by (by intros [? _]).
  - intros r Hin. apply elem_of_app in Hin as [Hin|Hin]; [by apply Hl|].
    by apply list_elem_of_singleton in Hin as ->.
  - right. destruct Hr as [?|(r & ? & ?)]; [done|]. exists r. split; [|done]. apply elem_of_app. by left.
Qed.

(** ** Changing requests in place

    A write that keeps the range, the type and the liveness of every row. *)

Definition keeps (f : Row → Row) (r : Row) : Prop :=
  row_id (f r) = row_id r ∧ row_start_block (f r) = row_start_block r ∧
  row_end_block (f r) = row_end_block r ∧ (live_span (f r) ↔ live_span r).

Lemma chain_fmap (f : Row → Row) s e l :
  (∀ r, r ∈ l → row_start_block (f r) = row_start_block r ∧ row_end_block (f r) = row_end_block r) →
  chain s (f <$> l) e ↔ chain s l e.
Proof.
  revert s. induction l as [|r l IH]; intros s Hf; [done|]. csimpl.
  destruct (Hf r) as [-> ->]; [apply elem_of_cons; by left|].
  rewrite IH; [done|]. intros r' Hr'. apply Hf, elem_of_cons. by right.
Qed.

Lemma tiles_fmap (f : Row → Row) s e l :
  (∀ r, r ∈ l → row_start_block (f r) = row_start_block r ∧ row_end_block (f r) = row_end_block r) →
  tiles s e l → tiles s e (f <$> l).
Proof.
  intros Hf (l' & Hp & Hc). exists (f <$> l'). split; [by rewrite Hp|].
  apply chain_fmap; [|done]. intros r Hr. apply Hf. by rewrite <- Hp.
Qed.

Lemma filter_live_fmap (f : Row → Row) tbl :
  (∀ r, r ∈ tbl → live_span (f r) ↔ live_span r) →
  filter live_span (f <$> tbl) = f <$> filter live_span tbl.
Proof.
  induction tbl as [|r tbl IH]; intros Hf; [done|]. rewrite fmap_cons, !filter_cons.
  assert (live_span (f r) ↔ live_span r) by (apply Hf, elem_of_cons; by left).
  rewrite IH by (intros r' Hr'; apply Hf, elem_of_cons; by right).
  repeat case_decide; tauto || done.
Qed.

Lemma partition_fmap (f : Row → Row) s e tbl :
  (∀ r, r ∈ tbl → keeps f r) → partition s e tbl → partition s e (f <$> tbl).
Proof.
  intros Hf [Ht Hl Hr]. split.
  - rewrite filter_live_fmap by (intros r Hin; by destruct (Hf r Hin) as (_ & _ & _ & ?)).
    apply tiles_fmap; [|done]. intros r Hin. apply list_elem_of_filter in Hin as [_ Hin].
    by destruct (Hf r Hin) as (_ & ? & ? & _).
  - intros r' Hin. apply list_elem_of_fmap in Hin as (r & -> & Hin).
    destruct (Hf r Hin) as (_ & _ & -> & _). auto.
  - destruct Hr as [->|(r & Hin & He)]; [by left|]. right. exists (f r).
    destruct (Hf r Hin) as (_ & _ & -> & _). split; [|done]. apply list_elem_of_fmap. eauto.
Qed.

Lemma table_ok_fmap (f : Row → Row) tbl :
  (∀ r, r ∈ tbl → row_ok r → row_ok (f r) ∧ row_id (f r) = row_id r) → table_ok tbl → table_ok (f <$> tbl).
Proof.
  intros Hf [Hok Hnd]. split.
  - apply Forall_fmap, Forall_forall. intros r Hr. apply Hf; [done|]. by eapply Forall_forall in Hok.
  - assert (row_id <$> (f <$> tbl) = row_id <$> tbl) as ->; [|done].
    rewrite <- list_fmap_compose. apply list_fmap_ext. intros i r Hr.
    apply list_elem_of_lookup_2 in Hr. simpl. apply Hf; [done|]. by eapply Forall_forall in Hok.
Qed.

(** ** Failing a request and replacing it *)

Lemma at_id_split id f l1 r l2 :
  NoDup (row_id <$> (l1 ++ r :: l2)) → row_id r = id →
  at_id id f (l1 ++ r :: l2) = l1 ++ f r :: l2.
Proof.
  intros Hnd <-. unfold at_id. rewrite fmap_app, fmap_cons, decide_True by done.
  rewrite fmap_app, fmap_cons in Hnd. apply NoDup_app in Hnd as (_ & Hx & Hnd).
  apply NoDup_cons in Hnd as [Hn _].
  assert (∀ l : list Row, (row_id r ∉ row_id <$> l) →
    (λ r0, if decide (row_id r0 = row_id r) then f r0 else r0) <$> l = l) as Hid.
  { induction l as [|x l IH]; intros Hl; [done|]. csimpl in Hl. csimpl.
    apply not_elem_of_cons in Hl as [Hl1 Hl2]. by rewrite decide_False, IH. }
  rewrite (Hid l2 Hn), (Hid l1); [done|]. intros Hin. apply (Hx _ Hin), elem_of_cons. by left.
Qed.

Lemma table_ok_split tbl r : table_ok tbl → r ∈ tbl → ∃ l1 l2, tbl = l1 ++ r :: l2 ∧
  ∀ f, at_id (row_id r) f tbl = l1 ++ f r :: l2.
Proof.
  intros [_ Hnd] Hin. apply list_elem_of_split in Hin as (l1 & l2 & ->).
  exists l1, l2. split; [done|]. intros f. by apply at_id_split.
Qed.

(** A request is known by its id. *)
Lemma ids_inj tbl r r' :
  NoDup (row_id <$> tbl) → r ∈ tbl → r' ∈ tbl → row_id r = row_id r' → r = r'.
Proof.
  intros Hnd [i Hi]%list_elem_of_lookup [j Hj]%list_elem_of_lookup Hid.
  assert (i = j) as ->; [|congruence].
  apply (NoDup_lookup _ i j (row_id r) Hnd); rewrite list_lookup_fmap; [by rewrite Hi|].
  by rewrite Hid, Hj.
Qed.

Lemma table_ok_id_inj tbl r r' :
  table_ok tbl → r ∈ tbl → r' ∈ tbl → row_id r = row_id r' → r = r'.
Proof. intros [_ Hnd]. by apply ids_inj. Qed.

Lemma sane_fmap (f : Row → Row) tbl :
  (∀ r, r ∈ tbl → row_id (f r) = row_id r ∧ row_type (f r) = row_type r ∧
     row_start_block (f r) = row_start_block r ∧ row_end_block (f r) = row_end_block r) →
  sane tbl → sane (f <$> tbl).
Proof.
  intros Hf [Hok Hsp]. split.
  - apply table_ok_fmap; [|done]. intros r Hr Hro. destruct (Hf r Hr) as (Hi & _ & Hs & He).
    split; [|done]. unfold row_ok in *. by rewrite Hi, Hs, He.
  - intros r' Hr'. apply list_elem_of_fmap in Hr' as (r & -> & Hr). simpl.
    destruct (Hf r Hr) as (_ & -> & -> & ->). by apply (Hsp r).
Qed.

Lemma mark_range st t r :
  row_id (mark st t r) = row_id r ∧ row_type (mark st t r) = row_type r ∧
  row_start_block (mark st t r) = row_start_block r ∧
  row_end_block (mark st t r) = row_end_block r ∧ row_status (mark st t r) = st.
Proof. by destruct r. Qed.

Lemma table_ok_at_id id f tbl :
  (∀ r, row_id (f r) = row_id r ∧ row_start_block (f r) = row_start_block r ∧
        row_end_block (f r) = row_end_block r) →
  table_ok tbl → table_ok (at_id id f tbl).
Proof.
  intros Hf. apply table_ok_fmap. intros r _ Hr. case_decide; [|done].
  destruct (Hf r) as (Hi & Hs & He). split; [|done]. unfold row_ok in *. by rewrite Hi, Hs, He.
Qed.

(** The failed row leaves a hole that a chain of fresh requests fills. *)
Lemma partition_replace s e tbl r t c :
  table_ok tbl → partition s e tbl → r ∈ tbl → live_span r →
  Forall live_span c → chain (lo r) c (hi r) →
  partition s e (at_id (row_id r) (mark StatusFAILED t) tbl ++ c).
Proof.
  intros Hok [Ht Hl Hr] Hin Hlive Hc Hch.
  destruct (table_ok_split _ _ Hok Hin) as (l1 & l2 & -> & Hat). rewrite Hat.
  set (r' := mark StatusFAILED t r).
  assert (¬ live_span r') as Hdead by (intros [_ Hs]; by destruct r).
  assert (row_end_block r' = row_end_block r) as He by by destruct r.
  split.
  - rewrite !filter_app, filter_cons_False by done.
    rewrite filter_app, filter_cons_True in Ht by done.
    assert (filter live_span c = c) as -> by (clear -Hc; induction Hc;
      [done|rewrite filter_cons_True by done; congruence]).
    rewrite <- app_assoc. rewrite <- Permutation_middle in Ht.
    rewrite app_assoc, (Permutation_app_comm _ c). by eapply tiles_replace.
  - intros x Hx. apply elem_of_app in Hx as [Hx|Hx].
    + apply elem_of_app in Hx as [Hx|Hx]; [apply Hl, elem_of_app; by left|].
      apply elem_of_cons in Hx as [->|Hx]; [rewrite He; by apply Hl|].
      apply Hl, elem_of_app. right. apply elem_of_cons. by right.
    + pose proof (chain_bounds _ _ _ _ Hch Hx) as (_ & _ & Hhi). specialize (Hl r Hin).
      simpl in Hhi. lia.
  - right. destruct Hr as [Hnil|(x & Hx & Hxe)]; [by destruct l1|].
    apply elem_of_app in Hx as [Hx|Hx]; [exists x; split; [|done]; rewrite !elem_of_app; auto|].
    apply elem_of_cons in Hx as [->|Hx].
    + exists r'. split; [|congruence]. rewrite !elem_of_app, elem_of_cons. auto.
    + exists x. split; [|done]. rewrite !elem_of_app, elem_of_cons. auto.
Qed.

(** A change of status that does not touch liveness. *)
Lemma partition_mark s e tbl id st t :
  (∀ r, r ∈ tbl → row_id r = id → row_type r = TypeSPAN → row_status r ≠ StatusFAILED ∧ st ≠ StatusFAILED) →
  partition s e tbl → partition s e (at_id id (mark st t) tbl).
Proof.
  intros Hst. apply partition_fmap. intros r Hr. unfold keeps. case_decide as Hid; [|done].
  destruct (mark_range st t r) as (-> & Hty & -> & -> & Hs). do 3 (split; [done|]).
  unfold live_span. rewrite Hty, Hs. specialize (Hst r Hr Hid). tauto.
Qed.
