(* ===== verification/Steps.v ===== *)
(** * The life of the requests: an abstract specification

    [table_step] is what may happen to the table of requests, without the
    programs that do it: a state machine over tables.  The partition of
    [Partition] is an invariant of it, a request never changes its identity or
    leaves a final status, and the stages of the main loop are shown to be runs
    of it in [Pipeline]. *)

From Stdlib Require Import ZArith Lia.
From stdpp Require Import relations.
From S2P Require Import Prelude Sql ProofRequest Metrics Prog Types Spans Builders Db Partition.

(** ** What replaces a failed request *)

(** [n] is a new request of type [t] over the range [rg]. *)
Definition entry_of (t : string) (rg : Z * Z) (n : Row) : Prop :=
  ∃ id now, n = new_row id t (fst rg) (snd rg) now.

(** The ranges that replace a failed request: its own range or, for a span
    proof of several blocks that cannot be executed or has failed before, its
    two halves.  [failed] counts the failed requests over this range. *)
Definition replacement (status : ProofStatusResponse) (failed : nat) (r : Row) : list (Z * Z) :=
  if bool_decide (row_type r = TypeSPAN) &&
     ((ExecutionStatus status =? SP1ExecutionStatusUnexecutable) || (1 <? failed)%nat) &&
     (1 <? hi r - lo r)
  then [(lo r, (lo r + hi r) / 2); ((lo r + hi r) / 2, hi r)]
  else [(lo r, hi r)].

Lemma replacement_chain status n r : lo r < hi r → chain (lo r) (replacement status n r) (hi r).
Proof.
  intros Hlt. unfold replacement. destruct (bool_decide _ && _); [|simpl in *; lia].
  destruct (Z.ltb_spec 1 (hi r - lo r)) as [Hm|Hm]; [|simpl in *; lia].
  assert (lo r < (lo r + hi r) / 2 < hi r) as Hmid.
  { pose proof (Z.div_mod (lo r + hi r) 2). pose proof (Z.mod_pos_bound (lo r + hi r) 2). lia. }
  simpl in *. lia.
Qed.

Lemma replacement_nonneg status n r :
  row_ok r → Forall (λ rg, 0 <= fst rg ∧ 0 <= snd rg) (replacement status n r).
Proof.
  intros (_ & [Hs _] & [He _]). unfold replacement.
  assert (0 <= (lo r + hi r) / 2) by (apply Z.div_pos; simpl; lia).
  destruct (_ && _); repeat constructor; simpl in *; lia.
Qed.

(** The table after [r] was marked as failed. *)
Definition failed_at (t : Z) (r : Row) (tbl : list Row) : list Row :=
  at_id (row_id r) (mark StatusFAILED t) tbl.

Definition failures (r : Row) (tbl : list Row) : nat :=
  length (filter (over_range (row_type r) (lo r) (hi r) StatusFAILED) tbl).

Lemma entries_live t rgs new : t = TypeSPAN → Forall2 (entry_of t) rgs new → Forall live_span new.
Proof. intros -> Hf. induction Hf as [|rg n rgs new (id & now & ->) _ IH]; by constructor. Qed.

Lemma entries_chain t s e rgs new : Forall2 (entry_of t) rgs new → chain s rgs e → chain s new e.
Proof.
  intros Hf Hc. apply (chain_Forall2 s e rgs new); [|done].
  eapply Forall2_impl; [exact Hf|]. by intros rg n (id & now & ->).
Qed.

(** ** The state machine *)

(** The blocks requested so far end at [a]; nothing is known of an empty table. *)
Definition frontier (tbl : list Row) (a : Z) : Prop :=
  tbl = [] ∨ (∀ r, r ∈ tbl → row_end_block r <= a) ∧ ∃ r, r ∈ tbl ∧ row_end_block r = a.

Definition fresh (tbl : list Row) (id : Z) : Prop :=
  0 < id < two63 ∧ ∀ r, r ∈ tbl → row_id r ≠ id.

(** The changes of status that are a plain [UPDATE]. *)
Definition status_step (a b : string) : Prop :=
  a = StatusUNREQ ∧ b = StatusWITNESSGEN ∨ a = StatusWITNESSGEN ∧ b = StatusPROVING.

(** The statuses of a request that is being worked on. *)
Definition in_flight (r : Row) : Prop := row_status r = StatusWITNESSGEN ∨ row_status r = StatusPROVING.

(** One change of the table.  With [lossy], a retry may stop half way: the
    request is marked as failed, and only a proper prefix of the requests that
    replace it was added. *)
Inductive table_step (lossy : bool) (tbl : list Row) : list Row → Prop :=
| ts_span id a b now :
    fresh tbl id → is_i63 a → is_i63 b → a < b → frontier tbl a →
    table_step lossy tbl (tbl ++ [new_row id TypeSPAN a b now])
| ts_agg id a b now :
    fresh tbl id → is_i63 a → is_i63 b → (∃ r, r ∈ tbl ∧ b <= row_end_block r) →
    table_step lossy tbl (tbl ++ [new_row id TypeAGG a b now])
| ts_mark r st t :
    r ∈ tbl → status_step (row_status r) st →
    table_step lossy tbl (at_id (row_id r) (mark st t) tbl)
| ts_sent r pid t1 t2 :
    r ∈ tbl → table_step lossy tbl (at_id (row_id r) (with_prover_id pid t1 t2) tbl)
| ts_l1 s e n h t :
    table_step lossy tbl (l1_info_added s e n h t tbl)
| ts_fulfil r pf t :
    r ∈ tbl → row_status r = StatusPROVING →
    table_step lossy tbl (at_id (row_id r) (with_proof pf t) tbl)
| ts_retry r status t new :
    r ∈ tbl → in_flight r → row_type r = TypeSPAN ∨ row_type r = TypeAGG →
    Forall2 (entry_of (row_type r)) (replacement status (failures r (failed_at t r tbl)) r) new →
    table_ok (failed_at t r tbl ++ new) →
    table_step lossy tbl (failed_at t r tbl ++ new)
| ts_lost r status t rgs new :
    lossy = true → r ∈ tbl → in_flight r →
    rgs `prefix_of` replacement status (failures r (failed_at t r tbl)) r →
    Forall2 (entry_of (row_type r)) rgs new →
    table_ok (failed_at t r tbl ++ new) →
    table_step lossy tbl (failed_at t r tbl ++ new).

Definition reaches (lossy : bool) : relation (list Row) := rtc (table_step lossy).

Lemma table_step_lossy tbl tbl' : table_step false tbl tbl' → table_step true tbl tbl'.
Proof. intros []; try discriminate; econstructor; eauto. Qed.

Lemma reaches_lossy lossy tbl tbl' : reaches false tbl tbl' → reaches lossy tbl tbl'.
Proof.
  destruct lossy; [|done]. unfold reaches. intros Hr.
  induction Hr as [|? ? ? Hs _ IH]; [constructor|]. eapply rtc_l; [by apply table_step_lossy|done].
Qed.

(** ** Every table reached is sane *)

(** What an update of one request may do to it: its identity stays. *)
Definition same_request (r r' : Row) : Prop :=
  row_id r' = row_id r ∧ row_type r' = row_type r ∧
  row_start_block r' = row_start_block r ∧ row_end_block r' = row_end_block r.

Lemma same_mark st t r : same_request r (mark st t r).
Proof. by destruct r. Qed.
Lemma same_sent pid t1 t2 r : same_request r (with_prover_id pid t1 t2 r).
Proof. by destruct r. Qed.
Lemma same_proof pf t r : same_request r (with_proof pf t r).
Proof. by destruct r. Qed.
Lemma same_l1 n h t r : same_request r (with_l1_info n h t r).
Proof. by destruct r. Qed.
#[export] Hint Resolve same_mark same_sent same_proof same_l1 : core.

Lemma sane_at_id (f : Row → Row) id tbl :
  (∀ r, same_request r (f r)) → sane tbl → sane (at_id id f tbl).
Proof. intros Hf. apply sane_fmap. intros r _. case_decide; [apply Hf|done]. Qed.

Lemma sane_l1 s e n h t tbl : sane tbl → sane (l1_info_added s e n h t tbl).
Proof. apply sane_fmap. intros r _. case_decide; [apply same_l1|done]. Qed.

(** The requests over (a prefix of) the replacement ranges are not empty. *)
Lemma sane_replaced tbl r status n t rgs new :
  sane tbl → r ∈ tbl → rgs `prefix_of` replacement status n r →
  Forall2 (entry_of (row_type r)) rgs new →
  table_ok (failed_at t r tbl ++ new) → sane (failed_at t r tbl ++ new).
Proof.
  intros Hs Hin [rgs' Hp] Hn Hok. apply sane_app; [by apply sane_at_id|done|].
  intros x Hx Hty. apply list_elem_of_lookup in Hx as [i Hx].
  destruct (Forall2_lookup_r _ _ _ _ _ Hn Hx) as (rg & Hrg & id & now & ->). simpl in *.
  assert (rg ∈ replacement status n r) as Hin' by (rewrite Hp; apply elem_of_app; left; by eapply list_elem_of_lookup_2).
  pose proof (chain_bounds _ _ _ rg (replacement_chain status n r (sane_span _ Hs r Hin Hty)) Hin').
  simpl in *. lia.
Qed.

Lemma step_sane lossy tbl tbl' : sane tbl → table_step lossy tbl tbl' → sane tbl'.
Proof.
  intros Hs []; try (match goal with H : fresh _ _ |- _ => destruct H end; by apply sane_snoc).
  - by apply sane_at_id.
  - by apply sane_at_id.
  - by apply sane_l1.
  - by apply sane_at_id.
  - by eapply sane_replaced.
  - by eapply sane_replaced.
Qed.

(** ** The partition is an invariant *)

Lemma partition_at_id (f : Row → Row) s e tbl r :
  sane tbl → r ∈ tbl → keeps f r → partition s e tbl → partition s e (at_id (row_id r) f tbl).
Proof.
  intros [Hok _] Hin Hf. apply partition_fmap. intros r' Hin'. unfold keeps. case_decide as Hid; [|done].
  by assert (r' = r) as -> by eauto using table_ok_id_inj.
Qed.

Lemma keeps_mark st t r : row_status r ≠ StatusFAILED → st ≠ StatusFAILED → keeps (mark st t) r.
Proof. intros. unfold keeps, live_span. destruct r; simpl in *. tauto. Qed.

Lemma keeps_sent pid t1 t2 r : keeps (with_prover_id pid t1 t2) r.
Proof. unfold keeps, live_span. by destruct r. Qed.

Lemma keeps_proof pf t r : row_status r ≠ StatusFAILED → keeps (with_proof pf t) r.
Proof. intros. unfold keeps, live_span. destruct r; simpl in *. by intuition. Qed.

Lemma keeps_l1 s e n h t r :
  keeps (λ r, if decide (unrequested_agg s e r) then with_l1_info n h t r else r) r.
Proof. unfold keeps, live_span. case_decide; [by destruct r|done]. Qed.

Lemma inv_frontier s e tbl a : table_inv s e tbl → frontier tbl a → tbl = [] ∨ a = e.
Proof.
  intros [_ [_ Hl Hr]] [Hn|[Hle (r & Hin & Ha)]]; [by left|]. right.
  apply Z.le_antisymm; [rewrite <- Ha; by apply Hl|].
  destruct Hr as [->|(r' & Hin' & <-)]; [by apply elem_of_nil in Hin|by apply Hle].
Qed.

Lemma in_flight_not_failed r : in_flight r → row_status r ≠ StatusFAILED.
Proof. by intros [-> | ->]. Qed.

Lemma failed_nonempty t r tbl : r ∈ tbl → failed_at t r tbl ≠ [].
Proof. intros Hin Hnil. apply fmap_nil_inv in Hnil. rewrite Hnil in Hin. by apply elem_of_nil in Hin. Qed.

(** The requests over the replacement ranges cover what the failed one did. *)
Lemma partition_retry s e tbl r status t n new :
  table_inv s e tbl → r ∈ tbl → row_status r ≠ StatusFAILED →
  row_type r = TypeSPAN ∨ row_type r = TypeAGG →
  Forall2 (entry_of (row_type r)) (replacement status n r) new →
  partition s e (failed_at t r tbl ++ new).
Proof.
  intros [[Hok Hsp] Hpart] Hin Hst [Hty|Hty] Hn.
  - apply partition_replace; [done..|by eapply entries_live|].
    eapply entries_chain; [exact Hn|by apply replacement_chain, Hsp].
  - unfold replacement in Hn. rewrite bool_decide_eq_false_2 in Hn by (by rewrite Hty). simpl in Hn.
    apply Forall2_cons_inv_l in Hn as (x & new' & (id & now & ->) & Hn & ->).
    apply Forall2_nil_inv_l in Hn as ->. simpl. rewrite Hty.
    apply (partition_snoc_agg s e _ id (row_start_block r) (row_end_block r) now).
    + by apply (part_last _ _ _ Hpart).
    + by apply failed_nonempty.
    + apply partition_mark; [|done]. intros r' Hin' Hid Hspan. exfalso.
      assert (r' = r) as -> by eauto using table_ok_id_inj. by rewrite Hty in Hspan.
Qed.

(** [tbl'] is partitioned as [tbl] was, and further. *)
Definition grown (tbl : list Row) (s e : Z) (tbl' : list Row) : Prop :=
  ∃ s' e', table_inv s' e' tbl' ∧ (tbl ≠ [] → tbl' ≠ [] ∧ s' = s ∧ e <= e').

Lemma grown_same tbl s e tbl' : table_inv s e tbl' → (tbl ≠ [] → tbl' ≠ []) → grown tbl s e tbl'.
Proof. intros Hi Hn. exists s, e. split; [done|]. intros Hne. split; [by apply Hn|]. split; [done|lia]. Qed.

Lemma grown_trans tbl1 tbl2 tbl3 s1 e1 s2 e2 :
  (tbl1 ≠ [] → tbl2 ≠ [] ∧ s2 = s1 ∧ e1 <= e2) → grown tbl2 s2 e2 tbl3 → grown tbl1 s1 e1 tbl3.
Proof.
  intros H12 (s3 & e3 & Hi & H23). exists s3, e3. split; [done|]. intros Hne.
  destruct (H12 Hne) as (Hne2 & -> & ?). destruct (H23 Hne2) as (? & -> & ?). split; [done|]. split; [done|lia].
Qed.

Lemma at_id_nonempty id f tbl : tbl ≠ [] → at_id id f tbl ≠ [].
Proof. by destruct tbl. Qed.
Lemma app_nonempty (tbl l : list Row) : tbl ≠ [] → tbl ++ l ≠ [].
Proof. by destruct tbl. Qed.
#[export] Hint Resolve at_id_nonempty app_nonempty : core.

Lemma frontier_inv s e tbl a : table_inv s e tbl → frontier tbl a → ∃ s', table_inv s' a tbl ∧ (tbl ≠ [] → s' = s ∧ a = e).
Proof.
  intros Hinv Hfr. destruct (inv_frontier _ _ _ _ Hinv Hfr) as [-> | ->]; [|by exists s].
  exists a. split; [apply table_inv_empty|done].
Qed.

(** A step that keeps the partition where it ended. *)
Lemma grown_here s e tbl tbl' : sane tbl' → partition s e tbl' → (tbl ≠ [] → tbl' ≠ []) → grown tbl s e tbl'.
Proof. intros. by apply grown_same. Qed.

Lemma table_step_grown s e tbl tbl' : table_inv s e tbl → table_step false tbl tbl' → grown tbl s e tbl'.
Proof.
  intros Hinv Hstep. pose proof (step_sane _ _ _ (ti_sane _ _ _ Hinv) Hstep) as Hsane.
  destruct Hinv as [Hs Hp] eqn:E. clear E.
  destruct Hstep as [id a b now Hid Ha Hb Hlt Hfr|id a b now Hid Ha Hb (r & Hr & Hle)|r st t Hr Hst|r pid t1 t2 Hr
    |a b n h t|r pf t Hr Hst|r status t new Hr Hfl Hty Hn Hok|]; [| | | | | | |discriminate].
  - destruct (frontier_inv s e tbl a) as (s' & [_ Hp'] & Hne); [done..|].
    exists s', b. split; [split; [done|by apply partition_snoc_span]|].
    intros Hnil. destruct (Hne Hnil) as [-> ->]. split; [by auto|]. split; [done|lia].
  - assert (tbl ≠ []) as Hne by by intros ->; apply elem_of_nil in Hr.
    apply grown_here; [done| |by auto]. apply partition_snoc_agg; [|done..].
    apply (part_last _ _ _ Hp) in Hr. lia.
  - apply grown_here; [done| |by auto]. apply partition_at_id; [done..| |done].
    destruct Hst as [[Hst ->]|[Hst ->]]; apply keeps_mark; rewrite ?Hst; done.
  - apply grown_here; [done| |by auto]. apply partition_at_id; [done..|apply keeps_sent|done].
  - apply grown_here; [done| |by destruct tbl]. apply partition_fmap; [intros; apply keeps_l1|done].
  - apply grown_here; [done| |by auto]. apply partition_at_id; [done..| |done].
    apply keeps_proof. by rewrite Hst.
  - apply grown_here; [done| |unfold failed_at; by auto].
    eapply partition_retry; eauto using in_flight_not_failed.
Qed.

Lemma reaches_grown s e tbl tbl' : table_inv s e tbl → reaches false tbl tbl' → grown tbl s e tbl'.
Proof.
  intros Hinv Hr. revert s e Hinv. induction Hr as [tbl|tbl tbl1 tbl2 Hs _ IH]; intros s e Hinv.
  - by apply grown_same.
  - apply (table_step_grown _ _ _ _ Hinv) in Hs as (s1 & e1 & Hinv1 & Hne).
    eapply grown_trans; [exact Hne|by apply IH].
Qed.

Lemma reaches_sane lossy tbl tbl' : sane tbl → reaches lossy tbl tbl' → sane tbl'.
Proof. intros Hs Hr. induction Hr; eauto using step_sane. Qed.

(** ** The life of one request *)

(** The changes a status can go through. *)
Inductive status_change : string → string → Prop :=
| sc_requested : status_change StatusUNREQ StatusWITNESSGEN
| sc_proving : status_change StatusWITNESSGEN StatusPROVING
| sc_complete : status_change StatusPROVING StatusCOMPLETE
| sc_timeout : status_change StatusWITNESSGEN StatusFAILED
| sc_unprovable : status_change StatusPROVING StatusFAILED.

Definition final (st : string) : Prop := st = StatusCOMPLETE ∨ st = StatusFAILED.

Lemma final_stays st st' : final st → rtc status_change st st' → st' = st.
Proof.
  intros Hf Hr. destruct Hr as [|st st1 st2 Hs _]; [done|].
  destruct Hf as [-> | ->]; by inversion Hs.
Qed.

(** [r'] is [r] at a later time. *)
Record later (r r' : Row) : Prop := mkLater {
  later_same : same_request r r';
  later_status : rtc status_change (row_status r) (row_status r');
  later_proof : row_status r = StatusCOMPLETE → row_proof r' = row_proof r;
}.

#[export] Instance later_preorder : PreOrder later.
Proof.
  split; [by intros r; split; [done|constructor|]|].
  intros r1 r2 r3 [S1 T1 P1] [S2 T2 P2]. split.
  - unfold same_request in *. intuition congruence.
  - by etrans.
  - intros Hc. rewrite <- (P1 Hc). apply P2. apply final_stays in T1; [congruence|]. by left.
Qed.

(** Every request of a table is still there after the step. *)
Definition kept (tbl tbl' : list Row) : Prop := ∀ r, r ∈ tbl → ∃ r', r' ∈ tbl' ∧ later r r'.

Lemma kept_fmap (f : Row → Row) tbl l : (∀ r, r ∈ tbl → later r (f r)) → kept tbl ((f <$> tbl) ++ l).
Proof.
  intros Hf r Hr. exists (f r). split; [|by apply Hf]. apply elem_of_app. left. by apply list_elem_of_fmap_2.
Qed.

Lemma kept_at_id (f : Row → Row) tbl r l :
  table_ok tbl → r ∈ tbl → later r (f r) → kept tbl (at_id (row_id r) f tbl ++ l).
Proof.
  intros Hok Hr Hf. apply kept_fmap. intros r' Hr'. case_decide as Hid; [|done].
  by assert (r' = r) as -> by eauto using table_ok_id_inj.
Qed.

Lemma later_mark st t r :
  row_status r ≠ StatusCOMPLETE → rtc status_change (row_status r) st → later r (mark st t r).
Proof. intros Hc Hs. split; [done|by destruct r|done]. Qed.

Lemma later_failed t r : in_flight r → later r (mark StatusFAILED t r).
Proof. intros Hf. apply later_mark; destruct Hf as [-> | ->]; done || apply rtc_once; constructor. Qed.

Lemma step_kept lossy tbl tbl' : table_ok tbl → table_step lossy tbl tbl' → kept tbl tbl'.
Proof.
  intros Hok []; try (rewrite <- (app_nil_r (at_id _ _ _)); apply kept_at_id; [done..|]).
  - intros r Hr. exists r. split; [apply elem_of_app; by left|done].
  - intros r Hr. exists r. split; [apply elem_of_app; by left|done].
  - match goal with H : status_step _ _ |- _ => destruct H as [[Hs ->]|[Hs ->]] end;
      apply later_mark; rewrite Hs; try done; apply rtc_once; constructor.
  - split; [done|by destruct r|by destruct r].
  - rewrite <- (app_nil_r (l1_info_added _ _ _ _ _ _)). apply kept_fmap. intros r _.
    case_decide; [|done]. split; [done|by destruct r|by destruct r].
  - split; [done| |by intros Hc; destruct r; simpl in *; subst]. destruct r; simpl in *. subst. apply rtc_once. constructor.
  - apply kept_at_id; [done..|by apply later_failed].
  - apply kept_at_id; [done..|by apply later_failed].
Qed.

Lemma reaches_kept lossy tbl tbl' : sane tbl → reaches lossy tbl tbl' → kept tbl tbl'.
Proof.
  intros Hs Hr. induction Hr as [tbl|tbl tbl1 tbl2 Hstep _ IH]; [by intros r Hr; exists r|].
  intros r Hin. destruct (step_kept _ _ _ (sane_ok _ Hs) Hstep r Hin) as (r1 & Hin1 & Hl1).
  destruct (IH (step_sane _ _ _ Hs Hstep) r1 Hin1) as (r2 & Hin2 & Hl2). exists r2. split; [done|by etrans].
Qed.
