(* ===== verification/Json.v ===== *)
(** * JSON, as [encoding/json] reads and writes it

    The part of Go's [encoding/json] the proposer uses: the syntax of a whole
    document ([parse]), the decoding of the server's responses into the structs
    of [rpc_types.go] (case-insensitive field names, [null] as no value, []byte
    from a base64 string or from an array of numbers), and the encoding of the
    proposer's requests.  Every caller drops the decoded value when there is an
    error, so a decoder gives the error or the value. *)

From Stdlib Require Import ZArith Lia Ascii Strings.Byte.
From S2P Require Import Prelude Sql ProofRequest Metrics Encoding Prog Types.

Set Warnings "-register-all,-abstract-large-number".

Local Open Scope string_scope.
Local Open Scope Z_scope.

Inductive json :=
| JNull
| JBool (b : bool)
| JNum (literal : string)
| JStr (s : string)
| JArr (l : list json)
| JObj (l : list (string * json)).

Definition code (c : ascii) : Z := Z.of_N (N_of_ascii c).
Definition chr (n : Z) : ascii := ascii_of_N (Z.to_N n).
Definition is_in (a n b : Z) : bool := (a <=? n) && (n <=? b).

(** ** Syntax *)

Definition is_space (c : ascii) : bool :=
  let n := code c in (n =? 32) || (n =? 9) || (n =? 10) || (n =? 13).

Fixpoint skip (s : string) : string :=
  match s with
  | String c s' => if is_space c then skip s' else s
  | EmptyString => s
  end.

(** The longest prefix of digits, and the rest. *)
Fixpoint digits (s : string) : string * string :=
  match s with
  | String c s' => if is_digit c then let '(d, r) := digits s' in (String c d, r) else ("", s)
  | EmptyString => ("", s)
  end.

Definition number_int (s : string) : option (string * string) :=
  match s with
  | String "0" r => Some ("0", r)
  | _ => match digits s with
         | (EmptyString, _) => None
         | p => Some p
         end
  end.

Definition number_frac (s : string) : option (string * string) :=
  match s with
  | String "." r => match digits r with
                    | (EmptyString, _) => None
                    | (d, r') => Some (String "." d, r')
                    end
  | _ => Some ("", s)
  end.

Definition number_exp (s : string) : option (string * string) :=
  let body (e : ascii) (r : string) :=
    let '(sign, r1) := match r with
                       | String "+" r1 => ("+", r1)
                       | String "-" r1 => ("-", r1)
                       | _ => ("", r)
                       end in
    match digits r1 with
    | (EmptyString, _) => None
    | (d, r') => Some (String e (sign ++ d), r')
    end in
  match s with
  | String "e" r => body "e"%char r
  | String "E" r => body "E"%char r
  | _ => Some ("", s)
  end.

Definition number (s : string) : option (string * string) :=
  let '(sign, s0) := match s with String "-" r => ("-", r) | _ => ("", s) end in
  '(i, s1) ← number_int s0;
  '(f, s2) ← number_frac s1;
  '(e, s3) ← number_exp s2;
  Some (sign ++ i ++ f ++ e, s3).

(** The UTF-8 encoding of a code point; a surrogate or a value out of range is
    the replacement character. *)
Definition utf8 (n : Z) : string :=
  let n := if is_in 55296 n 57343 || (1114111 <? n) then 65533 else n in
  if n <? 128 then String (chr n) ""
  else if n <? 2048 then String (chr (192 + n / 64)) (String (chr (128 + n mod 64)) "")
  else if n <? 65536 then
    String (chr (224 + n / 4096))
      (String (chr (128 + n / 64 mod 64)) (String (chr (128 + n mod 64)) ""))
  else
    String (chr (240 + n / 262144))
      (String (chr (128 + n / 4096 mod 64))
         (String (chr (128 + n / 64 mod 64)) (String (chr (128 + n mod 64)) ""))).

(** The number of bytes of the well-formed UTF-8 sequence at the head of a
    string that starts with a byte above 127; 0 when there is none. *)
Definition utf8_width (s : string) : nat :=
  let at_ (i : nat) := match String.get i s with Some c => code c | None => 0 end in
  let b := at_ 0%nat in
  let tail (i : nat) := is_in 128 (at_ i) 191 in
  if is_in 194 b 223 && tail 1%nat then 2
  else if (is_in 224 b 239 && tail 1%nat && tail 2%nat
           && (negb (b =? 224) || (160 <=? at_ 1%nat))
           && (negb (b =? 237) || (at_ 1%nat <=? 159))) then 3
  else if (is_in 240 b 244 && tail 1%nat && tail 2%nat && tail 3%nat
           && (negb (b =? 240) || (144 <=? at_ 1%nat))
           && (negb (b =? 244) || (at_ 1%nat <=? 143))) then 4
  else 0.

Definition hex4 (s : string) : option (Z * string) :=
  match s with
  | String a (String b (String c (String d r))) =>
      x ← hex_value a; y ← hex_value b; z ← hex_value c; t ← hex_value d;
      Some (4096 * x + 256 * y + 16 * z + t, r)
  | _ => None
  end.

(** The characters of a string literal, after the opening quote, and what
    follows the closing one. *)
Fixpoint literal_body (fuel : nat) (s : string) : option (string * string) :=
  match fuel with
  | O => None
  | S fuel' =>
      let put (p : string) (r : string) :=
        match literal_body fuel' r with Some (t, r') => Some (p ++ t, r') | None => None end in
      match s with
      | EmptyString => None
      | String c r =>
          let n := code c in
          if n =? 34 then Some ("", r)
          else if n <? 32 then None
          else if n =? 92 then
            match r with
            | EmptyString => None
            | String e r1 =>
                match code e with
                | 34 | 92 | 47 => put (String e "") r1
                | 98 => put (String (chr 8) "") r1
                | 102 => put (String (chr 12) "") r1
                | 110 => put (String (chr 10) "") r1
                | 114 => put (String (chr 13) "") r1
                | 116 => put (String (chr 9) "") r1
                | 117 =>
                    match hex4 r1 with
                    | None => None
                    | Some (u, r2) =>
                        match r2 with
                        | String b1 (String b2 r3) =>
                            match hex4 r3 with
                            | Some (v, r4) =>
                                if is_in 55296 u 56319 && (code b1 =? 92) && (code b2 =? 117)
                                   && is_in 56320 v 57343
                                then put (utf8 (65536 + (u - 55296) * 1024 + (v - 56320))) r4
                                else put (utf8 u) r2
                            | None => put (utf8 u) r2
                            end
                        | _ => put (utf8 u) r2
                        end
                    end
                | _ => None
                end
            end
          else if n <? 128 then put (String c "") r
          else match utf8_width s with
               | O => put (utf8 65533) r
               | w => put (String.substring 0 w s) (String.substring w (String.length s - w) s)
               end
      end
  end.

Definition quote : ascii := chr 34.

Fixpoint strip_prefix (p s : string) : option string :=
  match p, s with
  | EmptyString, _ => Some s
  | String a p', String b s' => if Ascii.eqb a b then strip_prefix p' s' else None
  | _, EmptyString => None
  end.

(** Arrays and objects nested deeper than this are an error. *)
Definition maxNestingDepth : nat := 10000.

(** One value, and the rest of the input.  The fuel is used once per value,
    element or member; the length of the input is enough. *)
Fixpoint value (fuel depth : nat) (s : string) : option (json * string) :=
  match fuel with
  | O => None
  | S fuel' =>
      let s := skip s in
      match s with
      | EmptyString => None
      | String c r =>
          if Ascii.eqb c quote then
            '(t, r') ← literal_body (String.length s) r; Some (JStr t, r')
          else if Ascii.eqb c "{" then
            match depth with
            | O => None
            | S depth' =>
                match skip r with
                | String "}" r' => Some (JObj [], r')
                | _ => '(ms, r') ← members fuel' depth' r; Some (JObj ms, r')
                end
            end
          else if Ascii.eqb c "[" then
            match depth with
            | O => None
            | S depth' =>
                match skip r with
                | String "]" r' => Some (JArr [], r')
                | _ => '(es, r') ← elements fuel' depth' r; Some (JArr es, r')
                end
            end
          else if Ascii.eqb c "n" then r' ← strip_prefix "null" s; Some (JNull, r')
          else if Ascii.eqb c "t" then r' ← strip_prefix "true" s; Some (JBool true, r')
          else if Ascii.eqb c "f" then r' ← strip_prefix "false" s; Some (JBool false, r')
          else '(n, r') ← number s; Some (JNum n, r')
      end
  end
with members (fuel depth : nat) (s : string) : option (list (string * json) * string) :=
  match fuel with
  | O => None
  | S fuel' =>
      match skip s with
      | String q r =>
          if Ascii.eqb q quote then
            '(k, r1) ← literal_body (String.length s) r;
            match skip r1 with
            | String ":" r2 =>
                '(v, r3) ← value fuel' depth r2;
                match skip r3 with
                | String "," r4 => '(ms, r5) ← members fuel' depth r4; Some ((k, v) :: ms, r5)
                | String "}" r4 => Some ([(k, v)], r4)
                | _ => None
                end
            | _ => None
            end
          else None
      | _ => None
      end
  end
with elements (fuel depth : nat) (s : string) : option (list json * string) :=
  match fuel with
  | O => None
  | S fuel' =>
      '(v, r1) ← value fuel' depth s;
      match skip r1 with
      | String "," r2 => '(es, r3) ← elements fuel' depth r2; Some (v :: es, r3)
      | String "]" r2 => Some ([v], r2)
      | _ => None
      end
  end.

Definition parse (s : string) : option json :=
  '(v, r) ← value (2 * String.length s + 1) maxNestingDepth s;
  match skip r with
  | EmptyString => Some v
  | _ => None
  end.

(** ** Decoding *)

Definition syntax_error : error := Errorf "invalid character in JSON input" [].
Definition type_error (field : string) : error :=
  Errorf "json: cannot unmarshal value into Go struct field" [AStr field].

(** Field names are compared after folding: ASCII letters to upper case, and
    the two other characters that fold to an ASCII letter. *)
Fixpoint fold_name (s : string) : string :=
  match s with
  | EmptyString => ""
  | String c r =>
      let n := code c in
      if is_in 97 n 122 then String (chr (n - 32)) (fold_name r)
      else match r with
           | String c2 r2 =>
               if (n =? 197) && (code c2 =? 191) then String "S" (fold_name r2)
               else match r2 with
                    | String c3 r3 =>
                        if (n =? 226) && (code c2 =? 132) && (code c3 =? 170)
                        then String "K" (fold_name r3)
                        else String c (fold_name r)
                    | _ => String c (fold_name r)
                    end
           | _ => String c (fold_name r)
           end
  end.

Definition field_match (name key : string) : bool :=
  bool_decide (fold_name key = fold_name name).

(** [json.Unmarshal] into a struct: members are stored in order, each by the
    first of [stores] whose field name matches; other members are skipped. *)
Definition decode_struct {A} (stores : list (string * (json → A → error + A))) (zero : A) (j : json)
    : error + A :=
  match j with
  | JObj ms =>
      foldl (λ acc m,
        match acc with
        | inl e => inl e
        | inr a =>
            match list_find (λ p, field_match (fst p) (fst m) = true) stores with
            | Some (_, (_, store)) => store (snd m) a
            | None => inr a
            end
        end) (inr zero) ms
  | JNull => inr zero
  | _ => inl (type_error "")
  end.

Definition unmarshal {A} (stores : list (string * (json → A → error + A))) (zero : A) (s : string)
    : error + A :=
  match parse s with
  | None => inl syntax_error
  | Some j => decode_struct stores zero j
  end.

Definition store_bool {A} (field : string) (set : bool → A → A) (j : json) (a : A) : error + A :=
  match j with
  | JBool b => inr (set b a)
  | JNull => inr a
  | _ => inl (type_error field)
  end.

Definition store_string {A} (field : string) (set : string → A → A) (j : json) (a : A) : error + A :=
  match j with
  | JStr s => inr (set s a)
  | JNull => inr a
  | _ => inl (type_error field)
  end.

Definition store_int {A} (field : string) (set : Z → A → A) (j : json) (a : A) : error + A :=
  match j with
  | JNum n => match ParseInt n with Some z => inr (set z a) | None => inl (type_error field) end
  | JNull => inr a
  | _ => inl (type_error field)
  end.

(** An element of a []byte given as an array: [null] leaves the zero byte. *)
Definition byte_of (j : json) : option Byte.byte :=
  match j with
  | JNum n => match ParseDigits n with
              | Some z => if z <? 256 then Some (Z_byte z) else None
              | None => None
              end
  | JNull => Some Byte.x00
  | _ => None
  end.

Definition store_bytes {A} (field : string) (set : option bytes → A → A) (j : json) (a : A) : error + A :=
  match j with
  | JStr s => match b64_decode s with
              | Some b => inr (set (Some b) a)
              | None => inl (Errorf "illegal base64 data" [AStr field])
              end
  | JArr l => match mapM byte_of l with
              | Some b => inr (set (Some b) a)
              | None => inl (type_error field)
              end
  | JNull => inr (set None a)
  | _ => inl (type_error field)
  end.

Definition unmarshal_ProofStatusResponse : string → error + ProofStatusResponse :=
  unmarshal
    [("fulfillment_status", store_int "fulfillment_status"
        (λ z r, mkProofStatusResponse z (ExecutionStatus r) (psr_Proof r)));
     ("execution_status", store_int "execution_status"
        (λ z r, mkProofStatusResponse (FulfillmentStatus r) z (psr_Proof r)));
     ("proof", store_bytes "proof"
        (λ b r, mkProofStatusResponse (FulfillmentStatus r) (ExecutionStatus r) b))]
    emptyStatus.

Definition unmarshal_WitnessGenerationResponse : string → error + WitnessGenerationResponse :=
  unmarshal [("proof_id", store_bytes "proof_id" (λ b _, mkWitnessGenerationResponse b))]
    (mkWitnessGenerationResponse None).

Definition unmarshal_ValidateConfigResponse : string → error + ValidateConfigResponse :=
  unmarshal
    [("rollup_config_hash_valid", store_bool "rollup_config_hash_valid"
        (λ b r, mkValidateConfigResponse b (AggVkeyValid r) (RangeVkeyValid r)));
     ("agg_vkey_valid", store_bool "agg_vkey_valid"
        (λ b r, mkValidateConfigResponse (RollupConfigHashValid r) b (RangeVkeyValid r)));
     ("range_vkey_valid", store_bool "range_vkey_valid"
        (λ b r, mkValidateConfigResponse (RollupConfigHashValid r) (AggVkeyValid r) b))]
    (mkValidateConfigResponse false false false).

(** ** Encoding *)

Definition hex2 (n : Z) : string := String (hex_digit (n / 16)) (String (hex_digit (n mod 16)) "").

(** A string literal: quotes, backslashes and control characters escaped, and
    the characters that matter in HTML; a byte that is not UTF-8 is replaced;
    the line separators U+2028 and U+2029 are escaped. *)
Fixpoint escape (fuel : nat) (s : string) : string :=
  match fuel, s with
  | S fuel', String c r =>
      let n := code c in
      if (n =? 34) || (n =? 92) then String (chr 92) (String c (escape fuel' r))
      else if n =? 8 then "\b" ++ escape fuel' r
      else if n =? 12 then "\f" ++ escape fuel' r
      else if n =? 10 then "\n" ++ escape fuel' r
      else if n =? 13 then "\r" ++ escape fuel' r
      else if n =? 9 then "\t" ++ escape fuel' r
      else if (n <? 32) || (n =? 60) || (n =? 62) || (n =? 38) then "\u00" ++ hex2 n ++ escape fuel' r
      else if n <? 128 then String c (escape fuel' r)
      else match utf8_width s with
           | O => "\ufffd" ++ escape fuel' r
           | w =>
               let ch := String.substring 0 w s in
               let r' := String.substring w (String.length s - w) s in
               if bool_decide (ch = utf8 8232) then "\u2028" ++ escape fuel' r'
               else if bool_decide (ch = utf8 8233) then "\u2029" ++ escape fuel' r'
               else ch ++ escape fuel' r'
           end
  | _, _ => ""
  end.

Definition marshal_string (s : string) : string :=
  String quote (escape (String.length s) s ++ String quote "").

Definition marshal_bytes (b : option bytes) : string :=
  match b with
  | None => "null"
  | Some b => String quote (b64_encode b ++ String quote "")
  end.

Fixpoint join (sep : string) (l : list string) : string :=
  match l with
  | [] => ""
  | [x] => x
  | x :: l' => x ++ sep ++ join sep l'
  end.

Definition marshal_object (l : list (string * string)) : string :=
  "{" ++ join "," ((λ p, marshal_string (fst p) ++ ":" ++ snd p) <$> l) ++ "}".

(** A nil slice of subproofs is [null]; [GetConsecutiveSpanProofs] returns one
    when there are none. *)
Definition marshal_subproofs (l : list (option bytes)) : string :=
  match l with
  | [] => "null"
  | _ => "[" ++ join "," (marshal_bytes <$> l) ++ "]"
  end.

Definition marshal_SpanProofRequest (r : SpanProofRequest) : string :=
  marshal_object [("start", FormatUint (spr_Start r)); ("end", FormatUint (spr_End r))].

Definition marshal_AggProofRequest (r : AggProofRequest) : string :=
  marshal_object [("subproofs", marshal_subproofs (apr_Subproofs r));
                  ("head", marshal_string (apr_L1Head r))].

Definition marshal_ValidateConfigRequest (r : ValidateConfigRequest) : string :=
  marshal_object [("address", marshal_string (vcr_Address r))].
