(* ===== verification/Paths.v ===== *)
(** * Strings and paths

    The functions of [strings] and [path/filepath] that the configuration, the
    service and the batch tool use. *)

From Stdlib Require Import ZArith Ascii.
From S2P Require Import Prelude Sql ProofRequest Metrics Encoding Prog Types Json.

Local Open Scope string_scope.
Local Open Scope Z_scope.

(** [strings.Split(s, sep)] for a separator of one character. *)
Fixpoint split_on (sep : ascii) (s : string) : list string :=
  match s with
  | EmptyString => [""]
  | String c s' =>
      match split_on sep s' with
      | [] => []
      | w :: ws => if Ascii.eqb c sep then "" :: w :: ws else String c w :: ws
      end
  end.

Fixpoint contains_char (c : ascii) (s : string) : bool :=
  match s with
  | EmptyString => false
  | String d s' => Ascii.eqb c d || contains_char c s'
  end.

(** [filepath.Clean] (with the separator "/"): the elements that stay, last
    one first. *)
Fixpoint clean_elems (rooted : bool) (out l : list string) : list string :=
  match l with
  | [] => out
  | e :: l' =>
      let out' :=
        if bool_decide (e = "" ∨ e = ".") then out
        else if bool_decide (e = "..") then
          match out with
          | p :: out' => if bool_decide (p = "..") then e :: out else out'
          | [] => if rooted then [] else [e]
          end
        else e :: out in
      clean_elems rooted out' l'
  end.

Definition filepath_Clean (path : string) : string :=
  let rooted := match path with String c _ => Ascii.eqb c "/" | _ => false end in
  let body := join "/" (rev (clean_elems rooted [] (split_on "/" path))) in
  if rooted then "/" ++ body else if bool_decide (body = "") then "." else body.

(** [filepath.Join]: empty elements at the front are ignored. *)
Fixpoint filepath_Join (elem : list string) : string :=
  match elem with
  | [] => ""
  | e :: rest => if bool_decide (e = "") then filepath_Join rest else filepath_Clean (join "/" (e :: rest))
  end.

(** [strings.TrimPrefix(s, p)] *)
Definition TrimPrefix (s p : string) : string := default s (strip_prefix p s).

(** [utf8.RuneCountInString]: a byte that starts no well-formed sequence counts
    as one. *)
Fixpoint rune_count (fuel : nat) (s : string) : nat :=
  match fuel, s with
  | S fuel', String c r =>
      if code c <? 128 then S (rune_count fuel' r)
      else match utf8_width s with
           | O => S (rune_count fuel' r)
           | w => S (rune_count fuel' (String.substring w (String.length s - w) s))
           end
  | _, _ => O
  end.
Definition RuneCountInString (s : string) : nat := rune_count (String.length s) s.

Fixpoint zeros (n : nat) (s : string) : string :=
  match n with
  | O => s
  | S n' => String "0" (zeros n' s)
  end.

(** [fmt.Sprintf("%0<width>s", s)] *)
Definition pad_zeros (width : nat) (s : string) : string := zeros (width - RuneCountInString s) s.

(** The value of hexadecimal digits, [None] on the empty string or a non-digit. *)
Fixpoint hex_digits (acc : Z) (s : string) : option Z :=
  match s with
  | EmptyString => Some acc
  | String c r => d ← hex_value c; hex_digits (16 * acc + d) r
  end.
Definition ParseHexDigits (s : string) : option Z :=
  match s with EmptyString => None | _ => hex_digits 0 s end.

(** [strconv.ParseInt(s, 16, 64)] *)
Definition ParseInt16 (s : string) : option Z :=
  let check (z : option Z) := z ≫= λ z, if decide (- two63 <= z < two63) then Some z else None in
  match s with
  | String "-" s' => check (Z.opp <$> ParseHexDigits s')
  | String "+" s' => check (ParseHexDigits s')
  | _ => check (ParseHexDigits s)
  end.
