(* ===== verification/Prove.v ===== *)
(** * Requesting and tracking proofs ([prove.go])

    The requests to the witness generation server, the state machine of a proof
    request (UNREQ, WITNESSGEN, PROVING, COMPLETE or FAILED and retried), and
    the validation of the server's configuration. *)

From Stdlib Require Import ZArith Lia.
From S2P Require Import Prelude Sql ProofRequest Metrics Encoding Prog Types Json Spans Mutation.
From S2P Require Import Builders Db Range.

Definition PROOF_STATUS_TIMEOUT : Z := 30 * second.
Definition StatusOK : Z := 200.

Definition metric (m : MetricOp) : prog unit := proc (PMetric m).

(** ** HTTP *)

(** [client.Do].  The body of a request that was sent before is empty; the
    transport notices that it does not have the announced length, and gets the
    body again only when it would have used a connection kept from an earlier
    request. *)
Definition http_do (r : HttpRequest) (drained : bool) : prog ((error + HttpResponse) * bool) :=
  if drained && bool_decide (default EmptyString (rq_body r) ≠ EmptyString) then
    c ← ask EReusedConn;
    match c with
    | inl err => Ret (inl err, true)
    | inr _ => ask (EHttp r)
    end
  else ask (EHttp r).

Definition is_timeout (e : error) : bool := match e with ENet t _ => t | _ => false end.

Section prove.
Context `{External}.
Implicit Types (cfg : ProposerConfig).

Definition check_url (url : string) : prog unit :=
  if url_valid url then Ret tt else Raise (wrap "failed to create request: %w" (EExt 1)).

Definition getProofEndpoint cfg (proofType : string) : string :=
  if bool_decide (proofType = TypeAGG) && Mock cfg then "request_mock_agg_proof"
  else if bool_decide (proofType = TypeAGG) then "request_agg_proof"
  else if Mock cfg then "request_mock_span_proof"
  else "request_span_proof".

Definition makeProofRequest cfg (proofType : string) (jsonBody : string) : prog string :=
  let urlPath := getProofEndpoint cfg proofType in
  let url := (OPSuccinctServerUrl cfg ++ "/" ++ urlPath)%string in
  _ ← check_url url;
  let timeout := i64 (i64 (WitnessGenTimeout cfg) * second) in
  r ← http_do (mkHttpRequest "POST" url (Some jsonBody) (Some "application/json"%string) timeout) false;
  match fst r with
  | inl err =>
      if is_timeout err then
        _ ← metric (MRecordWitnessGenFailure "Timeout");
        Raise (Wrapf "request timed out after %s: %w" [AInt timeout] err)
      else Raise (wrap "failed to send request: %w" err)
  | inr resp =>
      if negb (StatusCode resp =? StatusOK) then
        _ ← metric (MRecordWitnessGenFailure "Failed");
        Raise (Errorf "received non-200 status code: %d" [AInt (StatusCode resp)])
      else lift (rs_body resp)
  end.

Definition decode_error : error → error := wrap "error decoding JSON response: %w".

Definition requestRealProof cfg (proofType : string) (jsonBody : string) : prog (option bytes) :=
  resp ← makeProofRequest cfg proofType jsonBody;
  response ← map_err decode_error (lift (unmarshal_WitnessGenerationResponse resp));
  Ret (ProofID response).

Definition requestMockProof cfg (proofType : string) (jsonBody : string) : prog (option bytes) :=
  resp ← makeProofRequest cfg proofType jsonBody;
  response ← map_err decode_error (lift (unmarshal_ProofStatusResponse resp));
  Ret (psr_Proof response).

Definition GetProofStatus cfg (proofId : string) : prog ProofStatusResponse :=
  let url := (OPSuccinctServerUrl cfg ++ "/status/" ++ proofId)%string in
  _ ← check_url url;
  r ← http_do (mkHttpRequest "GET" url None None PROOF_STATUS_TIMEOUT) false;
  match fst r with
  | inl err =>
      if is_timeout err then
        Raise (Wrapf "request timed out after %s: %w" [AInt PROOF_STATUS_TIMEOUT] err)
      else Raise (wrap "failed to send request: %w" err)
  | inr resp =>
      if negb (StatusCode resp =? StatusOK) then
        Raise (Errorf "received non-200 status code: %d" [AInt (StatusCode resp)])
      else
        body ← map_err (λ _, Errorf "error reading the response body: %v" []) (lift (rs_body resp));
        map_err (λ _, Errorf "error decoding JSON response: %v" []) (lift (unmarshal_ProofStatusResponse body))
  end.

(** ** The state machine of a request *)

(** The two halves of a range, or the range itself. *)
Definition retry_ranges (req : ProofRequest) (status : ProofStatusResponse)
    (prevFailedReq : list ProofRequest) : list (Z * Z) :=
  let unexecutable := ExecutionStatus status =? SP1ExecutionStatusUnexecutable in
  let spanProof := bool_decide (pr_Type req = TypeSPAN) in
  let multiBlockRange := 1 <? sub64 (pr_EndBlock req) (pr_StartBlock req) in
  let severalFailedRequests := (1 <? length prevFailedReq)%nat in
  if spanProof && (unexecutable || severalFailedRequests) && multiBlockRange then
    let midBlock := add64 (pr_StartBlock req) (pr_EndBlock req) / 2 in
    [(pr_StartBlock req, midBlock); (midBlock, pr_EndBlock req)]
  else [(pr_StartBlock req, pr_EndBlock req)].

Definition RetryRequest (req : ProofRequest) (status : ProofStatusResponse) : prog unit :=
  _ ← UpdateProofStatus (pr_ID req) StatusFAILED;
  prevFailedReq ← GetProofRequestsWithBlockRangeAndStatus (pr_Type req) (pr_StartBlock req)
                    (pr_EndBlock req) StatusFAILED;
  for_each (retry_ranges req status prevFailedReq) (λ r, NewEntry (pr_Type req) (fst r) (snd r)).

Definition process_proving cfg (req : ProofRequest) : prog unit :=
  r ← attempt (GetProofStatus cfg (pr_ProverRequestID req));
  match r with
  | inl err => _ ← metric (MRecordError "get_proof_status" 1); Raise err
  | inr proofStatus =>
      if FulfillmentStatus proofStatus =? SP1FulfillmentStatusFulfilled then
        AddFulfilledProof (pr_ID req) (psr_Proof proofStatus)
      else if FulfillmentStatus proofStatus =? SP1FulfillmentStatusUnfulfillable then
        _ ← metric (MRecordProveFailure "unfulfillable");
        map_err (wrap "failed to retry request: %w") (RetryRequest req proofStatus)
      else Ret tt
  end.

Definition ProcessProvingRequests cfg : prog unit :=
  reqs ← GetAllProofsWithStatus StatusPROVING;
  for_each reqs (process_proving cfg).

(** The error of the retry is not looked at. *)
Definition process_witnessgen cfg (req : ProofRequest) : prog unit :=
  now ← now;
  if add64 (pr_LastUpdatedTime req) (WitnessGenTimeout cfg) <? now then
    _ ← attempt (RetryRequest req emptyStatus); Ret tt
  else Ret tt.

Definition ProcessWitnessgenRequests cfg : prog unit :=
  reqs ← GetAllProofsWithStatus StatusWITNESSGEN;
  for_each reqs (process_witnessgen cfg).

Definition prepareProofRequest (p : ProofRequest) : prog string :=
  if bool_decide (pr_Type p = TypeSPAN) then
    if pr_EndBlock p <=? pr_StartBlock p then
      Raise (Errorf "l2Start must be less than l2End" [])
    else Ret (marshal_SpanProofRequest (mkSpanProofRequest (pr_StartBlock p) (pr_EndBlock p)))
  else
    subproofs ← map_err (wrap "failed to get subproofs: %w")
                  (GetConsecutiveSpanProofs (pr_StartBlock p) (pr_EndBlock p));
    Ret (marshal_AggProofRequest (mkAggProofRequest subproofs (pr_L1BlockHash p))).

Definition RequestProof cfg (p : ProofRequest) (isMock : bool) : prog unit :=
  jsonBody ← prepareProofRequest p;
  if isMock then
    proofData ← map_err (wrap "mock proof request failed: %w") (requestMockProof cfg (pr_Type p) jsonBody);
    _ ← map_err (wrap "failed to set proof status to proving: %w")
          (UpdateProofStatus (pr_ID p) StatusPROVING);
    AddFulfilledProof (pr_ID p) proofData
  else
    proofID ← map_err (wrap "real proof request failed: %w") (requestRealProof cfg (pr_Type p) jsonBody);
    _ ← map_err (wrap "failed to set proof status to proving: %w")
          (UpdateProofStatus (pr_ID p) StatusPROVING);
    SetProverRequestID_ (pr_ID p) proofID.

(** The goroutine [RequestQueuedProofs] starts.  Its errors are only logged. *)
Definition request_task cfg (p nextProofToRequest : ProofRequest) : prog unit :=
  r ← attempt (UpdateProofStatus (pr_ID p) StatusWITNESSGEN);
  match r with
  | inl _ => Ret tt
  | inr _ =>
      r ← attempt (RequestProof cfg p (Mock cfg));
      match r with
      | inr _ => Ret tt
      | inl _ => _ ← attempt (RetryRequest nextProofToRequest emptyStatus); Ret tt
      end
  end.

Definition DeriveAggProofs : prog unit :=
  latest ← map_err (wrap "failed to get latest L2OO output: %w") (call ELatestBlockNumber);
  minTo ← map_err (wrap "failed to get next L2OO output: %w") (call ENextBlockNumber);
  _ ← map_err (wrap "failed to create agg proof from span proofs: %w")
        (TryCreateAggProofFromSpanProofs (u64 latest) (u64 minTo));
  Ret tt.

(** ** Configuration *)

Fixpoint validate_attempts (n : nat) (backoff : Z) (drained : bool) (req : HttpRequest) : prog HttpResponse :=
  r ← http_do req drained;
  let again (n' : nat) := _ ← ask (ESleep backoff);
                          validate_attempts n' (2 * backoff) (drained || snd r) req in
  match fst r, n with
  | inl err, O =>
      if is_timeout err then
        Raise (Wrapf "request timed out after %s: %w" [AInt PROOF_STATUS_TIMEOUT] err)
      else Raise (wrap "failed to send request: %w" err)
  | inl err, S n' => again n'
  | inr resp, _ =>
      if StatusCode resp =? StatusOK then Ret resp
      else match n with
           | O => Raise (Errorf "server not healthy after %d retries" [AInt 5])
           | S n' => again n'
           end
  end.

Definition invalid_configs (response : ValidateConfigResponse) : list string :=
  (if RollupConfigHashValid response then [] else ["rollup config hash"%string]) ++
  (if AggVkeyValid response then [] else ["aggregation verification key"%string]) ++
  (if RangeVkeyValid response then [] else ["range verification key"%string]).

Definition ValidateConfig cfg (address : string) : prog unit :=
  let jsonBody := marshal_ValidateConfigRequest (mkValidateConfigRequest address) in
  let url := (OPSuccinctServerUrl cfg ++ "/validate_config")%string in
  _ ← check_url url;
  let req := mkHttpRequest "POST" url (Some jsonBody) (Some "application/json"%string) PROOF_STATUS_TIMEOUT in
  resp ← validate_attempts 4 second false req;
  body ← map_err (λ _, Errorf "error reading the response body: %v" []) (lift (rs_body resp));
  response ← map_err (λ _, Errorf "error decoding JSON response: %v" [])
               (lift (unmarshal_ValidateConfigResponse body));
  match invalid_configs response with
  | [] => Ret tt
  | l => Raise (Errorf "config is invalid: %s" [AStr (join ", " l)])
  end.

End prove.
