(* ===== verification/Driver.v ===== *)
(** * The driver ([driver.go], and the scheduling part of [prove.go])

    The life cycle of the submitter, the main loop and its six stages, and the
    transactions it sends. *)

From Stdlib Require Import ZArith Lia.
From S2P Require Import Prelude Sql ProofRequest Metrics Encoding Prog Types Json Spans Mutation.
From S2P Require Import Builders Db Range Prove.

Definition supportedL2OutputVersion : Z := 0.

Section driver.
Context `{External}.
Implicit Types (cfg : ProposerConfig).

(** ** Reading the chains *)

Definition rollup_client : prog unit :=
  r ← ask ERollupClient;
  match r with
  | Some err => Raise (wrap "getting rollup client: %w" err)
  | None => Ret tt
  end.

Definition sync_status : prog SyncStatus :=
  _ ← rollup_client;
  map_err (wrap "getting sync status: %w") (call ESyncStatus).

Definition GetProposerMetrics : prog ProposerMetrics :=
  status ← sync_status;
  let l2UnsafeHeadBlock := UnsafeL2 status in
  let l2FinalizedBlock := FinalizedL2 status in
  latestContractL2Block ← map_err (wrap "failed to get latest output index: %w") (call ELatestBlockNumber);
  highestProvenContiguousL2Block ←
    map_err (wrap "failed to get max contiguous span proof range: %w")
      (GetMaxContiguousSpanProofRange (u64 latestContractL2Block));
  minBlockToProveToAgg ← map_err (wrap "failed to get next L2OO output: %w") (call ENextBlockNumber);
  numProving ← map_err (wrap "failed to get number of proofs proving: %w")
                 (GetNumberOfRequestsWithStatuses [StatusPROVING]);
  numWitnessgen ← map_err (wrap "failed to get number of proofs witnessgen: %w")
                    (GetNumberOfRequestsWithStatuses [StatusWITNESSGEN]);
  numUnrequested ← map_err (wrap "failed to get number of unrequested proofs: %w")
                     (GetNumberOfRequestsWithStatuses [StatusUNREQ]);
  let metrics := mkProposerMetrics l2UnsafeHeadBlock l2FinalizedBlock (u64 latestContractL2Block)
                   highestProvenContiguousL2Block (u64 minBlockToProveToAgg)
                   (u64 numProving) (u64 numWitnessgen) (u64 numUnrequested) in
  _ ← metric (MRecordProposerStatus metrics);
  Ret metrics.

Definition FetchCurrentBlockNumber cfg : prog Z :=
  status ← sync_status;
  if AllowNonFinalized cfg then Ret (SafeL2 status) else Ret (FinalizedL2 status).

Definition FetchOutput (block : Z) : prog OutputResponse :=
  _ ← rollup_client;
  output ← map_err (Wrapf "fetching output at block %d: %w" [AInt block]) (call (EOutputAtBlock block));
  if negb (Version output =? supportedL2OutputVersion) then
    Raise (Errorf "unsupported l2 output version: %v, supported: %v"
                  [AInt (Version output); AInt supportedL2OutputVersion])
  else if negb (BlockRef_Number output =? block) then
    Raise (Errorf "output block number %d mismatches requested %d"
                  [AInt (BlockRef_Number output); AInt block])
  else Ret output.

(** Whether an output may be proposed now. *)
Definition not_ready cfg (output : OutputResponse) : bool :=
  (FinalizedL2 (OutputStatus output) <? BlockRef_Number output) &&
  (negb (AllowNonFinalized cfg) || (SafeL2 (OutputStatus output) <? BlockRef_Number output)).

Definition FetchL2OOOutput cfg (l2ooContract : option unit) : prog (option OutputResponse * bool) :=
  match l2ooContract with
  | None => Raise (Errorf "L2OutputOracle contract not set, cannot fetch next output info" [])
  | Some _ =>
      nextCheckpointBlockBig ← map_err (wrap "querying next block number: %w") (call ENextBlockNumber);
      let nextCheckpointBlock := u64 nextCheckpointBlockBig in
      currentBlockNumber ← FetchCurrentBlockNumber cfg;
      if currentBlockNumber <? nextCheckpointBlock then Ret (None, false)
      else
        output ← map_err (wrap "fetching output: %w") (FetchOutput nextCheckpointBlock);
        if not_ready cfg output then Ret (Some output, false) else Ret (Some output, true)
  end.

(** ** Transactions *)

Definition ProposeL2OutputTxData (output : OutputResponse) (proof : option bytes) (l1BlockNum : Z)
    : error + bytes :=
  abi_Pack L2OOAbi "proposeL2Output"
    [ABytes32 (OutputRoot output); AUint (BlockRef_Number output); AUint l1BlockNum; ABytes proof].

Definition ProposeL2OutputDGFTxData cfg (output : OutputResponse) (proof : option bytes) (l1BlockNum : Z)
    : error + bytes :=
  match abi_Pack RawArguments "" [AUint (BlockRef_Number output); AUint l1BlockNum; ABytes proof] with
  | inl err => inl err
  | inr extraData =>
      abi_Pack DgfAbi "create"
        [AUint32 (DisputeGameType cfg); ABytes32 (OutputRoot output); ABytes (Some extraData)]
  end.

Definition CheckpointBlockHashTxData (blockNumber : Z) : error + bytes :=
  abi_Pack L2OOAbi "checkpointBlockHash" [AUint blockNumber].

(** [big.Int.SetBytes]: big-endian. *)
Definition SetBytes (b : bytes) : Z := foldl (λ n x, 256 * n + byte_Z x) 0 b.

Definition GetBondAmount cfg : prog Z :=
  data ← lift (abi_Pack DgfAbi "initBonds" [AUint32 (DisputeGameType cfg)]);
  initBonds ← call (EL1CallContract (DisputeGameFactoryAddr cfg) data);
  Ret (SetBytes initBonds).

(** [time.NewTicker] panics on an interval that is not positive. *)
Definition newTicker cfg : prog unit :=
  if PollInterval cfg <=? 0 then Panic "non-positive interval for NewTicker" else Ret tt.

(** The polling loop of [waitForL1Head]; the fuel bounds the number of ticks. *)
Fixpoint wait_l1_head (fuel : nat) (blockNum l1head : Z) : prog unit :=
  if l1head <=? blockNum then
    match fuel with
    | O => OutOfFuel
    | S fuel' =>
        tick ← proc PSelectTick;
        if tick : bool then
          l1head ← call ETxBlockNumber;
          wait_l1_head fuel' blockNum l1head
        else Raise (Errorf "L2OutputSubmitter is done()" [])
    end
  else Ret tt.

Definition waitForL1Head (fuel : nat) cfg (blockNum : Z) : prog unit :=
  _ ← newTicker cfg;
  l1head ← call ETxBlockNumber;
  wait_l1_head fuel blockNum l1head.

Definition sendTransaction (fuel : nat) cfg (output : OutputResponse) (proof : option bytes)
    (l1BlockNum : Z) : prog unit :=
  _ ← waitForL1Head fuel cfg (add64 (HeadL1 (OutputStatus output)) 1);
  match DisputeGameFactoryAddr cfg with
  | Some _ =>
      bondAmount ← GetBondAmount cfg;
      data ← lift (ProposeL2OutputDGFTxData cfg output proof l1BlockNum);
      _ ← call (ETxSend (mkTxCandidate data (DisputeGameFactoryAddr cfg) 0 (Some bondAmount)));
      Ret tt
  | None =>
      data ← lift (ProposeL2OutputTxData output proof l1BlockNum);
      _ ← call (ETxSend (mkTxCandidate data (L2OutputOracleAddr cfg) 0 None));
      Ret tt
  end.

Definition proposeOutput (fuel : nat) cfg (output : OutputResponse) (proof : option bytes)
    (l1BlockNum : Z) : prog unit :=
  _ ← call ENextBlockNumber;
  _ ← sendTransaction fuel cfg output proof l1BlockNum;
  metric (MRecordL2BlocksProposed (BlockRef_Number output)).

(** [sort.Slice] by decreasing end block.  It is not stable: the order of equal
    elements is the environment's. *)
Definition end_block_desc (a b : ProofRequest) : Prop := pr_EndBlock b <= pr_EndBlock a.
#[export] Instance end_block_desc_dec a b : Decision (end_block_desc a b).
Proof. unfold end_block_desc. apply _. Defined.

Definition sort_by_end (order : list nat) (proofs : list ProofRequest) : list ProofRequest :=
  merge_sort end_block_desc (shuffle order proofs).

Definition SubmitAggProofs (fuel : nat) cfg : prog unit :=
  latestBlockNumber ← map_err (wrap "failed to get latest output index: %w") (call ELatestBlockNumber);
  completedAggProofs ← map_err (wrap "failed to query for completed AGG proof: %w")
                         (GetAllCompletedAggProofs (u64 latestBlockNumber));
  if bool_decide (completedAggProofs = []) then Ret tt
  else
    order ← ask (EOrder (length completedAggProofs));
    match sort_by_end order completedAggProofs with
    | [] => Panic "index out of range"
    | aggProof :: _ =>
        output ← map_err (Wrapf "failed to fetch output at block %d: %w" [AInt (pr_EndBlock aggProof)])
                   (FetchOutput (pr_EndBlock aggProof));
        map_err (wrap "failed to propose output: %w")
          (proposeOutput fuel cfg output (pr_Proof aggProof) (pr_L1BlockNumber aggProof))
    end.

Definition checkpointBlockHash cfg : prog (Z * bytes) :=
  currBlockNum ← call EL1BlockNumber;
  header ← call (EL1HeaderByNumber (sub64 currBlockNum 1));
  let blockHash := Header_Hash header in
  let blockNumber := Header_Number header in
  data ← lift (CheckpointBlockHashTxData blockNumber);
  _ ← call (ETxSend (mkTxCandidate data (L2OutputOracleAddr cfg) 0 None));
  Ret (u64 blockNumber, blockHash).

(** [common.Hash.Hex] *)
Definition Hash_Hex (h : bytes) : string := ("0x" ++ EncodeToString h)%string.

(** ** Stage 5 *)

(** The L1 block an aggregation proof is made against: the one of an earlier
    failed request over the same range, or a new checkpoint. *)
Definition add_l1_info cfg (p : ProofRequest) : prog ProofRequest :=
  existingProofs ← GetProofRequestsWithBlockRangeAndStatus TypeAGG (pr_StartBlock p) (pr_EndBlock p)
                     StatusFAILED;
  p' ← match list_find (λ proof, pr_L1BlockHash proof ≠ ""%string) existingProofs with
       | Some (_, proof) =>
           AddL1BlockInfoToAggRequest (pr_StartBlock p) (pr_EndBlock p) (pr_L1BlockNumber proof)
             (pr_L1BlockHash proof)
       | None => Ret p
       end;
  if bool_decide (pr_L1BlockHash p' = ""%string) then
    b ← checkpointBlockHash cfg;
    AddL1BlockInfoToAggRequest (pr_StartBlock p') (pr_EndBlock p') (fst b) (Hash_Hex (snd b))
  else Ret p'.

Definition RequestQueuedProofs cfg : prog unit :=
  nextProofToRequest ← map_err (wrap "failed to get unrequested proofs: %w") GetNextUnrequestedProof;
  match nextProofToRequest with
  | None => Ret tt
  | Some p =>
      if bool_decide (pr_Type p = TypeAGG) then
        p' ← (if bool_decide (pr_L1BlockHash p = ""%string) then add_l1_info cfg p else Ret p);
        proc (PSpawn (TaskRequest p' p'))
      else
        witnessGenProofs ← map_err (wrap "failed to count witnessgen proofs: %w")
                             (GetNumberOfRequestsWithStatuses [StatusWITNESSGEN]);
        provingProofs ← map_err (wrap "failed to count proving proofs: %w")
                          (GetNumberOfRequestsWithStatuses [StatusPROVING]);
        if i64 (MaxConcurrentWitnessGen cfg) <=? witnessGenProofs then Ret tt
        else if i64 (MaxConcurrentProofRequests cfg) <=? i64 (witnessGenProofs + provingProofs) then Ret tt
        else proc (PSpawn (TaskRequest p p))
  end.

(** ** The main loop *)

(** The stages in order; an error ends the iteration and is logged. *)
Fixpoint run_stages (l : list (prog unit)) : prog unit :=
  match l with
  | [] => Ret tt
  | stage :: l' =>
      r ← attempt stage;
      match r with
      | inl _ => Ret tt
      | inr _ => run_stages l'
      end
  end.

Definition stages (fuel : nat) cfg : list (prog unit) :=
  [_ ← GetProposerMetrics; Ret tt;
   GetRangeProofBoundaries cfg;
   ProcessProvingRequests cfg;
   ProcessWitnessgenRequests cfg;
   DeriveAggProofs;
   RequestQueuedProofs cfg;
   SubmitAggProofs fuel cfg].

(** [for { select { ... } }]: [n] bounds the number of times round. *)
Fixpoint loop_ticks (n fuel : nat) cfg : prog unit :=
  match n with
  | O => OutOfFuel
  | S n' =>
      tick ← proc PSelectTick;
      if tick : bool then _ ← run_stages (stages fuel cfg); loop_ticks n' fuel cfg
      else Ret tt
  end.

Definition loopL2OO (n fuel : nat) cfg : prog unit :=
  _ ← newTicker cfg;
  loop_ticks n fuel cfg.

Definition waitNodeSync : prog unit :=
  l1head ← map_err (wrap "failed to retrieve current L1 block number: %w") (call ETxBlockNumber);
  r ← ask ERollupClient;
  _ ← match r with
      | Some err => Raise (wrap "failed to get rollup client: %w" err)
      | None => Ret tt
      end;
  r ← ask (EWaitRollupSync l1head);
  lift_err r.

Definition loop (n fuel : nat) cfg : prog unit :=
  r ← (if WaitNodeSync cfg then attempt waitNodeSync else Ret (inr tt));
  match r with
  | inl _ => Ret tt
  | inr _ => loopL2OO n fuel cfg
  end.

(** ** Life cycle *)

(** An error while the submitter is made cancels its context. *)
Definition or_cancel {A} (p : prog A) : prog A :=
  r ← attempt p;
  match r with
  | inl err => _ ← proc PCancel; Raise err
  | inr a => Ret a
  end.

Definition newL2OOSubmitter cfg (addr : Address) : prog unit :=
  _ ← or_cancel (map_err (Wrapf "failed to create L2OO at address %s: %w" [AStr (Address_Hex addr)])
                   (r ← ask EBindings; lift_err r));
  _ ← or_cancel (call EVersion);
  _ ← or_cancel (r ← ask EBindings; lift_err r);
  _ ← or_cancel (r ← ask EBindings; lift_err r);
  _ ← or_cancel (InitDB (DbPath cfg) (UseCachedDb cfg));
  proc PSetDb.

Definition NewL2OutputSubmitter cfg : prog unit :=
  _ ← proc PNewDriver;
  or_cancel
    match L2OutputOracleAddr cfg with
    | Some addr => newL2OOSubmitter cfg addr
    | None => Raise (Errorf "the `L2OutputOracle` address was not provided" [])
    end.

Definition with_mutex {A} (p : prog A) : prog A :=
  _ ← proc PLock;
  defer (proc PUnlock) p.

Definition StartL2OutputSubmitting cfg : prog unit :=
  with_mutex
    (r ← proc PGetRunning;
     if r : bool then Raise (Errorf "proposer is already running" [])
     else
       _ ← proc (PSetRunning true);
       witnessGenReqs ← map_err (wrap "failed to get witness generation pending proofs: %w")
                          (GetAllProofsWithStatus StatusWITNESSGEN);
       _ ← for_each witnessGenReqs
             (λ req, map_err (wrap "failed to retry request: %w") (RetryRequest req emptyStatus));
       match L2OutputOracleAddr cfg with
       | None => Panic "nil pointer dereference"
       | Some addr =>
           _ ← map_err (wrap "failed to validate config: %w") (ValidateConfig cfg (Address_Hex addr));
           proc (PSpawn TaskLoop)
       end).

Definition StopL2OutputSubmitting : prog unit :=
  with_mutex
    (r ← proc PGetRunning;
     if negb r then Raise ErrProposerNotRunning
     else
       _ ← proc (PSetRunning false);
       _ ← proc PCancel;
       open ← proc PCloseDone;
       if negb open then Panic "close of closed channel"
       else
         _ ← proc PWgWait;
         has_db ← proc PGetDb;
         if has_db : bool then map_err (wrap "error closing database: %w") CloseDB
         else Ret tt).

Definition is_not_running (e : error) : bool :=
  errors_as (λ e, bool_decide (e = ErrProposerNotRunning)) e.

Definition StopL2OutputSubmittingIfRunning : prog unit :=
  r ← attempt StopL2OutputSubmitting;
  match r with
  | inl err => if is_not_running err then Ret tt else Raise err
  | inr _ => Ret tt
  end.

End driver.
