(* ===== verification/Evolve.v ===== *)
(** * Programs that evolve the table

    [evolves lossy w w']: between [w] and [w'] the table made steps of
    [Steps.table_step], and the handles, the open transaction and the life
    cycle state are as they were.  [always p w Q]: [p] leaves [w] in a world
    that satisfies [Q], however it ends. *)

From stdpp Require Import relations.
From S2P Require Import Prelude Sql ProofRequest Metrics Prog Script Types Spans Builders Db Range.
From S2P Require Import Partition Steps.

Section evolve.
Context `{SqlLaws, External}.
Implicit Types (w : World).

(** The clients, the transaction and the life cycle are unchanged. *)
Definition calm w w' : Prop :=
  w_wopen w' = w_wopen w ∧ w_ropen w' = w_ropen w ∧ w_tx w' = w_tx w ∧ w_driver w' = w_driver w.

#[export] Instance calm_preorder : PreOrder calm.
Proof.
  split; [by intros w; repeat split|]. intros w1 w2 w3 C1 C2. unfold calm in *. intuition congruence.
Qed.

Lemma frame_calm w w' : frame w w' → calm w w'.
Proof. unfold frame, calm. tauto. Qed.

Lemma same_proc_calm w w' : same_proc w w' → calm w w'.
Proof. unfold same_proc, calm. tauto. Qed.

(** Nothing of the database has moved; messages and metrics may have. *)
Definition still w w' : Prop := calm w w' ∧ rows w' = rows w.

#[export] Instance still_preorder : PreOrder still.
Proof. split; [done|]. intros w1 w2 w3 [C1 R1] [C2 R2]. split; [by etrans|congruence]. Qed.

Lemma quiet_still w w' : quiet w w' → still w w'.
Proof. intros [? ?]. split; [by apply frame_calm|done]. Qed.

Definition evolves (lossy : bool) w w' : Prop := calm w w' ∧ reaches lossy (rows w) (rows w').

#[export] Instance evolves_preorder lossy : PreOrder (evolves lossy).
Proof.
  split; [intros w; split; [done|constructor]|].
  intros w1 w2 w3 [C1 R1] [C2 R2]. split; [by etrans|]. unfold reaches in *; by etrans.
Qed.

Lemma still_evolves lossy w w' : still w w' → evolves lossy w w'.
Proof. intros [Hc Hr]. split; [done|]. rewrite Hr. constructor. Qed.

Lemma quiet_evolves lossy w w' : quiet w w' → evolves lossy w w'.
Proof. intros. by apply still_evolves, quiet_still. Qed.

Lemma evolves_step lossy w w' : calm w w' → table_step lossy (rows w) (rows w') → evolves lossy w w'.
Proof. intros Hc Hs. split; [done|]. by apply rtc_once. Qed.

Lemma evolves_lossy lossy w w' : evolves false w w' → evolves lossy w w'.
Proof. intros [Hc Hr]. split; [done|]. by apply reaches_lossy. Qed.

Lemma evolves_sane lossy w w' : evolves lossy w w' → sane (rows w) → sane (rows w').
Proof. intros [_ Hr] Hs. by eapply reaches_sane. Qed.

Lemma evolves_tx lossy w w' : evolves lossy w w' → w_tx w = None → w_tx w' = None.
Proof. intros [(_ & _ & -> & _) _]. done. Qed.

(** An error is wrapped; its text does not matter. *)
Lemma returns_wrap {A} f (p : prog A) w P (E : World → Prop) :
  returns p w P (λ _ w', E w') → returns (map_err f p) w P (λ _ w', E w').
Proof. intros Hp. by apply returns_map_err. Qed.

(** ** Whatever the outcome *)

Definition always {A} (p : prog A) w (Q : World → Prop) : Prop := wp p w (λ _ w', Q w').

Lemma returns_always {A} (p : prog A) w (Q : World → Prop) :
  returns p w (λ _ w', Q w') (λ _ w', Q w') → always p w Q.
Proof. intros HQ. eapply wp_mono; [exact HQ|]. intros [] w'; simpl; tauto. Qed.

Lemma always_mono {A} (p : prog A) w (Q Q' : World → Prop) :
  always p w Q → (∀ w', Q w' → Q' w') → always p w Q'.
Proof. intros HQ Himp. exact (Himp _ HQ). Qed.

Lemma always_bind {A B} (f : A → prog B) (p : prog A) w (Q : World → Prop) :
  always p w Q → (∀ a w', Q w' → always (f a) w' Q) → always (p ≫= f) w Q.
Proof.
  unfold always, wp. rewrite run_bind. intros HQ Hf.
  destruct (run p w) as [[] w'] eqn:E; simpl in *; auto.
Qed.

Lemma always_attempt {A} (p : prog A) w Q : always p w Q → always (attempt p) w Q.
Proof. unfold always, wp. rewrite run_attempt. by destruct (run p w) as [[] w']. Qed.

Lemma always_map_err {A} f (p : prog A) w Q : always p w Q → always (map_err f p) w Q.
Proof. unfold always, wp. rewrite run_map_err. by destruct (run p w) as [[] w']. Qed.

Lemma always_ret {A} (a : A) w (Q : World → Prop) : Q w → always (Ret a) w Q.
Proof. done. Qed.

Lemma always_raise {A} e w (Q : World → Prop) : Q w → always (A := A) (Raise e) w Q.
Proof. done. Qed.

Lemma always_lift {A} (r : error + A) w (Q : World → Prop) : Q w → always (lift r) w Q.
Proof. by destruct r. Qed.

Lemma always_for_each {A} (l : list A) (f : A → prog unit) w (Q : World → Prop) :
  Q w → (∀ a w', Q w' → always (f a) w' Q) → always (for_each l f) w Q.
Proof.
  intros HQ Hf. revert w HQ. induction l as [|a l IH]; intros w HQ; [done|]. cbn [for_each].
  apply always_bind; [by apply Hf|]. intros _ w' HQ'. by apply IH.
Qed.

(** ** Commands that leave the table alone *)

Lemma exec_ext_still {R} (c : ExtCmd R) w : still w (exec_ext c w).2.
Proof.
  pose proof (exec_ext_same c w) as Hs. split; [by apply same_proc_calm|by apply same_proc_rows].
Qed.

Lemma always_ask {R} (c : ExtCmd R) w (Q : World → Prop) :
  (∀ w', still w w' → Q w') → always (ask c) w Q.
Proof. intros HQ. unfold always, wp. rewrite run_ask. apply HQ, exec_ext_still. Qed.

Lemma always_call {A} (c : ExtCmd (error + A)) w (Q : World → Prop) :
  (∀ w', still w w' → Q w') → always (call c) w Q.
Proof.
  intros HQ. unfold call. apply always_bind; [by apply always_ask|]. intros r w' ?. by apply always_lift.
Qed.

(** ** What the outside world always keeps *)

(** [I] holds of the outside whatever the process does. *)
Record ext_invariant (I : ext → Prop) : Prop := mkExtInvariant {
  ei_exec : ∀ R (c : ExtCmd R) x, I x → I (ext_exec R c x).2;
  ei_select : ∀ x, I x → I (ext_select x).2;
}.

Lemma with_handle_ext {A} h (f : store → (sqlerr + A) * store) w r w' :
  on_handle h f w = Some (r, w') → w_ext w' = w_ext w.
Proof.
  unfold on_handle. destruct w as [s wo ro tx x m d ts tr]; simpl.
  destruct h, wo, ro, tx; simpl; try destruct (f _); intros; simplify_eq; done.
Qed.

Lemma exec_invariant I {R} (c : cmd R) w r w' :
  ext_invariant I → exec c w = Some (r, w') → I (w_ext w) → I (w_ext w').
Proof.
  intros [He Hs] Hx HI. destruct c as [R c|R c|R c]; simpl in Hx.
  - assert (w_ext w' = w_ext w) as ->; [|done].
    destruct c; simpl in Hx; try (by eapply with_handle_ext);
      destruct w as [s wo ro tx x m d ts tr]; simpl in *; repeat (case_match; simplify_eq/=); try done.
    all: simplify_eq/=; try done; by destruct h.
  - unfold exec_ext in Hx. specialize (He _ c (w_ext w) HI).
    destruct (ext_exec _ c (w_ext w)). simplify_eq. by destruct w.
  - destruct w as [s wo ro tx x mt d ts tr], c; simpl in *; try (by simplify_eq).
    + destruct (locked d); by simplify_eq.
    + destruct (done_closed d); by simplify_eq.
    + specialize (Hs x HI). destruct (done_closed d); [|by simplify_eq].
      destruct (ext_select x). by simplify_eq.
Qed.

Lemma run_invariant I {A} (p : prog A) w : ext_invariant I → I (w_ext w) → I (w_ext (run p w).2).
Proof.
  intros HI. revert w. induction p as [| | | |R c k IH]; intros w Hw; simpl; try done.
  destruct (exec c w) as [[r w']|] eqn:E; [|done]. apply IH. by eapply exec_invariant.
Qed.

Lemma wp_invariant I {A} (p : prog A) w Q :
  ext_invariant I → I (w_ext w) → wp p w Q → wp p w (λ o w', Q o w' ∧ I (w_ext w')).
Proof. intros HI Hw HQ. split; [done|]. by apply run_invariant. Qed.

End evolve.

(** An external call under a postcondition that the table alone decides. *)
Ltac stable_call HQ := apply always_call; intros ? ?; by eapply HQ.
