(* ===== verification/Pipeline.v ===== *)
(** * The proof pipeline keeps its table right

    What the stages of the main loop do to the table of requests: the ranges to
    prove are partitioned into live span proofs ([Partition.table_inv]), and
    every stage that succeeds keeps that partition. *)

From Stdlib Require Import ZArith Lia.
From stdpp Require Import relations.
From S2P Require Import Prelude Sql ProofRequest Metrics Prog Script Types Json Spans Mutation.
From S2P Require Import Builders Db Range Partition Steps Evolve Prove Driver.

Section pipeline.
Context `{SqlLaws, External}.
Implicit Types (w : World) (cfg : ProposerConfig).

(** ** Stage 1: new ranges *)

(** [w'] has, after the requests of [w], unrequested span proofs of [step]
    blocks each that lead from block [b] to block [e']. *)
Definition extended (step b e' : Z) w w' : Prop :=
  ∃ new, rows w' = rows w ++ new ∧ chain b new e' ∧ table_ok (rows w') ∧
    Forall (λ r, entry_of TypeSPAN (lo r, hi r) r ∧ hi r - lo r = step) new.

Lemma extended_refl step b w : table_ok (rows w) → extended step b b w w.
Proof. intros Hok. exists []. rewrite app_nil_r. done. Qed.

Lemma extended_inv step s b e' w w' :
  table_inv s b (rows w) → extended step b e' w w' → table_inv s e' (rows w').
Proof.
  intros [Hs [Ht Hl Hr]] (new & Hrows & Hc & Hok' & Hnew). split.
  { rewrite Hrows in *. apply sane_app; [done..|]. intros r Hin _. by apply (chain_bounds _ _ _ _ Hc Hin). }
  rewrite Hrows. split.
  - rewrite filter_app. eapply tiles_app; [exact Ht|].
    assert (filter live_span new = new) as ->.
    { clear -Hnew. induction Hnew as [|r new [(id & now & ->) _] _ IH]; [done|].
      rewrite filter_cons_True; [by rewrite IH|done]. }
    by apply tiles_chain.
  - pose proof (chain_le _ _ _ Hc). intros r Hin. apply elem_of_app in Hin as [Hin|Hin].
    + apply Hl in Hin. lia.
    + apply (chain_bounds _ _ _ _ Hc Hin).
  - clear Hnew. destruct new as [|x new _] using rev_ind.
    + simpl in Hc. subst e'. by rewrite app_nil_r.
    + right. exists x. split; [rewrite !elem_of_app, list_elem_of_singleton; auto|].
      apply chain_app in Hc as (m & _ & Hc). simpl in Hc. tauto.
Qed.

(** One more entry. *)
Lemma extended_snoc step b i w w1 w2 id now :
  0 < step → extended step b i w w1 → 0 <= i → i + step < two63 → 0 < id < two63 →
  (∀ r, r ∈ rows w1 → row_id r ≠ id) →
  rows w2 = rows w1 ++ [new_row id TypeSPAN i (i + step) now] →
  extended step b (i + step) w w2.
Proof.
  intros Hs (new & Hrows & Hc & Hok & Hnew) Hi Hlt Hid Hfresh Hr2.
  exists (new ++ [new_row id TypeSPAN i (i + step) now]). split; [by rewrite Hr2, Hrows, app_assoc|].
  split; [|split].
  - apply chain_app. exists i. split; [done|]. simpl. lia.
  - rewrite Hr2. apply table_ok_snoc; [done| |done]. apply new_row_ok; [done|split; lia|split; lia].
  - apply Forall_app. split; [done|]. apply Forall_singleton. simpl.
    split; [by exists id, now|lia].
Qed.

(** Appending the new span proofs one by one. *)
Lemma spans_reach new tbl b e' :
  frontier tbl b → chain b new e' → table_ok (tbl ++ new) →
  Forall (λ r, entry_of TypeSPAN (lo r, hi r) r) new → reaches false tbl (tbl ++ new).
Proof.
  revert tbl b. induction new as [|r new IH]; intros tbl b Hfr Hc Hok Hnew.
  { rewrite app_nil_r. constructor. }
  apply Forall_cons in Hnew as [(id & now & Hr) Hnew]. simpl in Hr. destruct Hc as (Hlo & Hlt & Hc).
  rewrite cons_middle, app_assoc in Hok |- *.
  assert (row_ok r) as (Hid & Hs & He).
  { apply (table_row_ok _ r Hok). rewrite !elem_of_app, list_elem_of_singleton. auto. }
  eapply rtc_l; [|apply (IH _ (hi r)); [|done..]].
  - rewrite Hr at 1. rewrite Hr in Hid. apply ts_span; [|done..|by simpl in Hlo; rewrite Hlo].
    split; [done|]. intros r' Hr'. destruct Hok as [_ Hnd]. rewrite !fmap_app in Hnd.
    apply NoDup_app in Hnd as [Hnd _]. apply NoDup_app in Hnd as (_ & Hx & _).
    intros Heq. apply (Hx id); [rewrite <- Heq; by apply list_elem_of_fmap_2|]. rewrite Hr. by apply list_elem_of_singleton.
  - right. split; [|exists r; split; [apply elem_of_app; right; by apply list_elem_of_singleton|done]].
    intros r' Hr'. apply elem_of_app in Hr' as [Hr'|Hr']; [|by apply list_elem_of_singleton in Hr' as ->].
    destruct Hfr as [->|[Hle _]]; [by apply elem_of_nil in Hr'|]. specialize (Hle r' Hr'). simpl in *. lia.
Qed.

Lemma extended_reaches step b e' w w' :
  frontier (rows w) b → extended step b e' w w' → reaches false (rows w) (rows w').
Proof.
  intros Hfr (new & Hr & Hc & Hok & Hnew). rewrite Hr in Hok |- *. eapply spans_reach; [done..|].
  eapply Forall_impl; [exact Hnew|]. by intros r [? _].
Qed.

(** The entries of a split range, one by one; an error leaves a prefix. *)
Lemma entries_returns fuel step end_ b spans w w1 :
  w_tx w = None → 0 < step < two63 → 0 <= b → extended step b b w w1 → frame w w1 →
  split_loop fuel step end_ b = Some spans →
  returns (for_each spans (λ span, NewEntry TypeSPAN (Start span) (End span))) w1
    (λ _ w', frame w w' ∧ ∃ e', extended step b e' w w' ∧ (e' = b ∨ e' <= end_) ∧ end_ < add64 e' step)
    (λ _ w', frame w w' ∧ ∃ e', extended step b e' w w' ∧ (e' = b ∨ e' <= end_)).
Proof.
  intros Ht Hs Hb Hext Hf Hsp.
  eapply returns_mono; [apply (returns_for_each (λ l w', frame w w' ∧ ∃ i f, b <= i ∧
      split_loop f step end_ i = Some l ∧ extended step b i w w' ∧ (i = b ∨ i <= end_))
    (λ _ w', frame w w' ∧ ∃ e', extended step b e' w w' ∧ (e' = b ∨ e' <= end_)))|..|done].
  - split; [done|]. exists b, fuel. split; [lia|]. split; [done|]. split; [done|by left].
  - intros sp l' w2 (Hf2 & i & f & Hbi & Hl & He & Hend).
    assert (sp = mkSpan i (add64 i step) ∧ add64 i step <= end_ ∧
            ∃ f', split_loop f' step end_ (add64 i step) = Some l') as (-> & Hle & f' & Hl').
    { destruct f as [|f]; simpl in Hl; destruct (Z.leb_spec (add64 i step) end_); try done.
      destruct (split_loop f _ _ _) eqn:E; simplify_eq/=. split; [done|]. split; [done|]. by exists f. }
    eapply returns_mono; [apply NewEntry_returns; by rewrite (frame_tx _ _ Hf2)|..].
    + intros _ w3 (Hf3 & id & now & Hid & Hfresh & Hi1 & Hi2 & _ & _ & Hr). simpl in *.
      split; [by etrans|].
      assert (add64 i step = i + step) as Ha.
      { apply add64_small. unfold two63, two64 in *. lia. }
      rewrite Ha in *. exists (i + step), f'. split; [lia|]. split; [done|]. split; [|by right].
      eapply extended_snoc; [lia|done|lia|lia|done..].
    + intros er w3 [Hf3 Hr3]. split; [by etrans|]. exists i. unfold extended in *. by rewrite Hr3.
  - intros _ w' (Hf' & i & f & Hbi & Hl & He & Hend). split; [done|]. exists i. split; [done|]. split; [done|].
    destruct f; simpl in Hl; destruct (Z.leb_spec (add64 i step) end_) as [?|?]; try done.
    by destruct (split_loop f _ _ _).
Qed.

(** Where the new ranges start: after the last request, or at the contract's
    latest block when there is none. *)
Definition starts_at w (b : Z) : Prop :=
  rows w = [] ∧ (∃ n x x', ext_exec _ ELatestBlockNumber x = (inr n, x') ∧ b = u64 n) ∨
  rows w ≠ [] ∧ frontier (rows w) b.

Lemma starts_frontier w b : starts_at w b → frontier (rows w) b.
Proof. intros [[? _]|[_ ?]]; [by left|done]. Qed.

Lemma start_block_returns w :
  table_ok (rows w) →
  returns latest_l2_end_block w (λ b w', quiet w w' ∧ is_u64 b ∧ starts_at w b) (unchanged w).
Proof.
  intros Hok. unfold latest_l2_end_block.
  eapply (returns_bind _ _ _ _ (λ _ _, False)); [apply returns_try, GetLatestEndBlock_returns| |done].
  intros [err|m] w1; cbv beta.
  - intros [Hq Hnf]. destruct (IsNotFound err); [|done]. specialize (Hnf eq_refl).
    eapply (returns_bind _ _ _ (λ n w', quiet w w' ∧ starts_at w (u64 n)) (unchanged w)); [|..|done].
    + apply returns_map_err, returns_call; [done|..].
      * intros n w2 Hq2 Hx. split; [by etrans|]. left. split; [done|]. by exists n, (w_ext w1), (w_ext w2).
      * intros er w2 Hq2. exact (transitivity Hq Hq2).
    + intros n w2 [Hq2 Hs]. apply returns_ret. split; [done|]. split; [apply u64_range|done].
  - intros (Hq & r & Hin & -> & Hmax). apply returns_ret. split; [done|]. split; [apply u64_range|]. right.
    destruct (table_row_ok _ _ Hok Hin) as (_ & _ & He).
    rewrite (u64_i63 (row_end_block r)), (u64_i63 (row_end_block r)) by done.
    split; [by intros Hnil; rewrite Hnil in Hin; apply elem_of_nil in Hin|].
    right. split; [done|]. by exists r.
Qed.

(** Stage 1, in every case: on an error only a prefix of the new span proofs
    was added, and the fuel can only run out when a block number is near the
    top of the range of [uint64]. *)
Lemma boundaries_wp w cfg :
  w_tx w = None → table_ok (rows w) → 0 < MaxBlockRangePerSpanProof cfg < two63 →
  let step := MaxBlockRangePerSpanProof cfg in
  wp (GetRangeProofBoundaries cfg) w (λ o w', frame w w' ∧
    match o with
    | Ok _ => ∃ b e' status x x', starts_at w b ∧ extended step b e' w w' ∧
        ext_exec _ ESyncStatus x = (inr status, x') ∧
        (e' = b ∨ e' <= FinalizedL2 status) ∧ FinalizedL2 status < add64 e' step
    | Fail _ => rows w' = rows w ∨ ∃ b e' status x x', starts_at w b ∧ extended step b e' w w' ∧
        ext_exec _ ESyncStatus x = (inr status, x') ∧ (e' = b ∨ e' <= FinalizedL2 status)
    | NoFuel => rows w' = rows w ∧ ∃ b status x x', starts_at w b ∧
        ext_exec _ ESyncStatus x = (inr status, x') ∧
        (two64 <= b + step ∨ two64 <= FinalizedL2 status + step)
    | _ => False
    end).
Proof.
  intros Ht Hok Hstep step. unfold GetRangeProofBoundaries.
  eapply wp_bind; [by apply start_block_returns| |by intros er w' [? ?]; auto].
  intros b w1 (Hq1 & Hb & Hs).
  eapply (wp_bind _ _ _ (λ _ w', quiet w w') (λ _ w', quiet w w')); [|..|by intros er w' [? ?]; auto].
  { apply returns_dial; [intros w2 Hq2|intros er w2 Hq2]; exact (transitivity Hq1 Hq2). }
  intros _ w2 Hq2.
  eapply (wp_bind _ _ _ (λ status w', quiet w w' ∧ ∃ x x', ext_exec _ ESyncStatus x = (inr status, x'))
    (λ _ w', quiet w w')); [|..|by intros er w' [? ?]; auto].
  { apply returns_call; [done|..].
    - intros st w3 Hq3 Hx. split; [exact (transitivity Hq2 Hq3)|by exists (w_ext w2), (w_ext w3)].
    - intros er w3 Hq3. exact (transitivity Hq2 Hq3). }
  intros status w3 ([Hf3 Hr3] & x & x' & Hx). fold step.
  destruct (SplitRangeBasic step b (FinalizedL2 status)) as [spans|] eqn:Hsp.
  - eapply wp_mono; [eapply (entries_returns _ step _ b _ w w3); try done; [by destruct Hb|]|].
    + destruct (extended_refl step b w) as (new & Hext); [done|]. exists new. by rewrite Hr3.
    + intros [|er| | |] w' HP; simpl in HP; try done.
      * destruct HP as (Hf & e' & Hext & Hle & Hlt). split; [done|]. by exists b, e', status, x, x'.
      * destruct HP as (Hf & e' & Hext & Hle). split; [done|]. right. by exists b, e', status, x, x'.
  - split; [done|]. split; [done|]. exists b, status, x, x'. do 2 (split; [done|]).
    destruct (decide (two64 <= b + step)); [by left|]. right.
    destruct (decide (two64 <= FinalizedL2 status + step)); [done|].
    destruct (SplitRangeBasic_total step b (FinalizedL2 status)) as [l Hl]; [destruct Hb; lia..|congruence].
Qed.

(** The partition from where it stood. *)
Lemma starts_inv w s e b :
  table_inv s e (rows w) → starts_at w b →
  ∃ s', table_inv s' b (rows w) ∧ (rows w ≠ [] → s' = s ∧ b = e).
Proof. intros Hinv Hs. eapply frontier_inv; [done|by apply starts_frontier]. Qed.

(** ** Failing and retrying a request *)

(** One [NewEntry] per range; an error leaves a proper prefix. *)
Lemma new_entries_returns t l w :
  w_tx w = None → table_ok (rows w) → Forall (λ rg, 0 <= fst rg ∧ 0 <= snd rg) l →
  returns (for_each l (λ rg, NewEntry t (fst rg) (snd rg))) w
    (λ _ w', frame w w' ∧ (l = [] ∨ t = TypeSPAN ∨ t = TypeAGG) ∧
       ∃ new, rows w' = rows w ++ new ∧ Forall2 (entry_of t) l new ∧ table_ok (rows w'))
    (λ _ w', frame w w' ∧ ∃ l1 l2 new, l = l1 ++ l2 ∧ l2 ≠ [] ∧ rows w' = rows w ++ new ∧
       Forall2 (entry_of t) l1 new ∧ table_ok (rows w')).
Proof.
  intros Ht Hok. revert w Ht Hok. induction l as [|rg l IH]; intros w Ht Hok Hl.
  { apply returns_ret. split; [done|]. split; [by left|]. exists []. rewrite app_nil_r. auto. }
  apply Forall_cons in Hl as [[Hs He] Hl]. cbn [for_each].
  eapply returns_bind; [by apply NewEntry_returns|..].
  - intros _ w1 (Hf & id & now & Hid & Hfresh & ? & ? & ? & Hty & Hr).
    assert (table_ok (rows w1)) as Hok1.
    { rewrite Hr. apply table_ok_snoc; [done| |done]. apply new_row_ok; [done|by split|by split]. }
    eapply returns_mono; [apply IH; [by rewrite (frame_tx _ _ Hf)|done..]|..].
    + intros _ w' (Hf' & _ & new & Hr' & Hn & Hok'). split; [by etrans|]. split; [by right|].
      exists (new_row id t rg.1 rg.2 now :: new). split; [by rewrite Hr', Hr, <- app_assoc|].
      split; [|done]. constructor; [by exists id, now|done].
    + intros er w' (Hf' & l1 & l2 & new & -> & Hne & Hr' & Hn & Hok'). split; [by etrans|].
      exists (rg :: l1), l2, (new_row id t rg.1 rg.2 now :: new). split; [done|]. split; [done|].
      split; [by rewrite Hr', Hr, <- app_assoc|]. split; [|done].
      constructor; [by exists id, now|done].
  - intros er w' [Hf Hr]. split; [done|]. exists [], (rg :: l), []. rewrite app_nil_r, Hr. auto.
Qed.

Lemma retry_ranges_entity status l r :
  row_ok r → (row_type r = TypeSPAN → lo r <= hi r) →
  retry_ranges (entity r) status l = replacement status (length l) r.
Proof.
  intros Hok Hle. unfold retry_ranges, replacement.
  change (pr_Type (entity r)) with (row_type r). rewrite entity_start, entity_end by done.
  destruct Hok as (_ & [Hs1 Hs2] & [He1 He2]). simpl in *. unfold two63 in *.
  case_bool_decide as Hty; [|done]. specialize (Hle Hty).
  by rewrite sub64_small, add64_small by (unfold two64; lia).
Qed.

(** The first writes and reads of [RetryRequest]. *)
Lemma retry_body_returns w r status P (E : error → World → Prop) :
  w_tx w = None → table_ok (rows w) → r ∈ rows w → (row_type r = TypeSPAN → lo r <= hi r) →
  (∀ w', quiet w w' → ∀ e, E e w') →
  (∀ t w', is_u64 t → frame w w' → rows w' = failed_at t r (rows w) →
     (∀ e w'', quiet w' w'' → E e w'') ∧
     returns (for_each (replacement status (failures r (failed_at t r (rows w))) r)
                (λ rg, NewEntry (row_type r) (fst rg) (snd rg))) w' P E) →
  returns (RetryRequest (entity r) status) w P E.
Proof.
  intros Ht Hok Hin Hle Hq Hk. unfold RetryRequest.
  change (pr_ID (entity r)) with (row_id r). change (pr_Type (entity r)) with (row_type r).
  destruct (table_row_ok _ _ Hok Hin) as (Hid & Hs & He).
  rewrite entity_start, entity_end by done.
  eapply returns_bind; [by apply UpdateProofStatus_returns| |intros e w' HQ; by apply Hq].
  intros _ w1 (Hf & _ & t & Htm & Hr). destruct (Hk t w1 Htm Hf Hr) as [HE _].
  eapply returns_bind; [apply GetProofRequestsWithBlockRangeAndStatus_returns| |intros e w' HQ; by apply HE].
  intros l w2 ([Hf2 Hr2] & rs & Hp & ->). rewrite retry_ranges_entity by done.
  rewrite length_fmap, Hp, Hr.
  destruct (Hk t w2 Htm) as [_ HK]; [by etrans|by rewrite Hr2|exact HK].
Qed.

(** A run of [RetryRequest] on [r]: the row failed, and the requests [new] over
    a prefix [rgs] of its replacement ranges were added. *)
Definition retried_with (status : ProofStatusResponse) (r : Row) (rgs : list (Z * Z)) w w' : Prop :=
  ∃ t new, is_u64 t ∧
    rows w' = failed_at t r (rows w) ++ new ∧ Forall2 (entry_of (row_type r)) rgs new ∧
    rgs `prefix_of` replacement status (failures r (failed_at t r (rows w))) r ∧ table_ok (rows w').

Definition retried (status : ProofStatusResponse) (r : Row) w w' : Prop :=
  ∃ t new, is_u64 t ∧ (row_type r = TypeSPAN ∨ row_type r = TypeAGG) ∧ rows w' = failed_at t r (rows w) ++ new ∧
    Forall2 (entry_of (row_type r)) (replacement status (failures r (failed_at t r (rows w))) r) new ∧
    table_ok (rows w').

Lemma RetryRequest_returns w r status :
  w_tx w = None → table_ok (rows w) → r ∈ rows w → (row_type r = TypeSPAN → lo r <= hi r) →
  returns (RetryRequest (entity r) status) w
    (λ _ w', frame w w' ∧ retried status r w w')
    (λ _ w', frame w w' ∧ (rows w' = rows w ∨ ∃ rgs, retried_with status r rgs w w')).
Proof.
  intros Ht Hok Hin Hle. apply retry_body_returns; [done..|by intros w' [? ?] e; auto|].
  intros t w1 Htm Hf Hr.
  assert (table_ok (rows w1)) as Hok1.
  { rewrite Hr. apply table_ok_at_id; [|done]. intros r'. by destruct r'. }
  split.
  - intros e w' [Hf' Hr']. split; [by etrans|]. right. exists [], t, [].
    split; [done|]. split; [by rewrite app_nil_r, Hr', Hr|]. split; [by constructor|].
    split; [apply prefix_nil|by rewrite Hr'].
  - assert (row_ok r) as Hrow by eauto using table_row_ok.
    eapply returns_mono; [apply new_entries_returns; [by rewrite (frame_tx _ _ Hf)|done|by apply replacement_nonneg]|..].
    + intros _ w' (Hf' & Hty & new & Hr' & Hn & Hok'). split; [by etrans|]. exists t, new.
      split; [done|]. split; [|split; [by rewrite Hr', Hr|done]].
      destruct Hty as [Hnil|Hty]; [|done]. unfold replacement in Hnil. by destruct (_ && _).
    + intros er w' (Hf' & l1 & l2 & new & Hl & _ & Hr' & Hn & Hok'). split; [by etrans|]. right.
      exists l1, t, new. split; [done|]. split; [by rewrite Hr', Hr|]. split; [done|].
      split; [|done]. rewrite Hl. by eexists.
Qed.

Lemma retried_evolves status r w w' :
  calm w w' → r ∈ rows w → in_flight r → retried status r w w' → evolves false w w'.
Proof.
  intros Hc Hin Hfl (t & new & _ & Hty & Hr & Hn & Hok). rewrite Hr in Hok.
  apply evolves_step; [done|]. rewrite Hr. by eapply ts_retry.
Qed.

Lemma retried_with_evolves status r rgs w w' :
  calm w w' → r ∈ rows w → in_flight r → retried_with status r rgs w w' → evolves true w w'.
Proof.
  intros Hc Hin Hfl (t & new & _ & Hr & Hn & Hp & Hok). rewrite Hr in Hok.
  apply evolves_step; [done|]. rewrite Hr. by eapply ts_lost.
Qed.

(** A retry of a request that is being worked on. *)
Lemma RetryRequest_evolves w r status :
  w_tx w = None → sane (rows w) → r ∈ rows w → in_flight r →
  returns (RetryRequest (entity r) status) w
    (λ _ w', frame w w' ∧ retried status r w w' ∧ evolves false w w')
    (λ _ w', frame w w' ∧ evolves true w w').
Proof.
  intros Ht [Hok Hsp] Hin Hfl. eapply returns_mono; [apply RetryRequest_returns; try done|..].
  - intros Hty. specialize (Hsp r Hin Hty). lia.
  - intros _ w' [Hf Hr]. split; [done|]. split; [done|]. eapply retried_evolves; eauto using frame_calm.
  - intros e w' [Hf [Hr|[rgs Hr]]]; (split; [done|]).
    + by apply quiet_evolves.
    + eapply retried_with_evolves; eauto using frame_calm.
Qed.

End pipeline.
