(* ===== verification/Stages.v ===== *)
(** * The stages of the main loop refine the state machine of requests

    Each stage of an iteration, and each goroutine it starts, is shown to make
    only steps of [Steps.table_step], with what it does on every branch. *)

From Stdlib Require Import ZArith Lia.
From stdpp Require Import relations.
From S2P Require Import Prelude Sql ProofRequest Metrics Prog Script Types Json Spans Mutation.
From S2P Require Import Builders Db Range Partition Steps Evolve Prove Driver Pipeline.

Section stages.
Context `{SqlLaws, External}.
Implicit Types (w : World) (cfg : ProposerConfig).

(** ** Loops over the rows of a query *)

(** The rows [rs] are in the table, with property [P], and distinct. *)
Definition pending (P : Row → Prop) (rs : list Row) w : Prop :=
  NoDup (row_id <$> rs) ∧ Forall (λ r, r ∈ rows w ∧ P r) rs.

(** Nothing happened to requests other than [r]. *)
Definition touches (r : Row) w w' : Prop :=
  ∀ r', r' ∈ rows w → row_id r' ≠ row_id r → r' ∈ rows w'.

Lemma touches_at_id r f new w w' :
  rows w' = at_id (row_id r) f (rows w) ++ new → touches r w w'.
Proof.
  intros Hr r' Hin Hne. rewrite Hr. apply elem_of_app. left. apply list_elem_of_fmap. exists r'.
  by rewrite decide_False.
Qed.

Lemma still_touches r w w' : still w w' → touches r w w'.
Proof. intros [_ Hr] r' Hin _. by rewrite Hr. Qed.

Lemma selected_pending (P : Row → Prop) `{∀ r, Decision (P r)} rs w :
  table_ok (rows w) → rs ≡ₚ filter P (rows w) → pending P rs w.
Proof.
  intros [_ Hnd] Hp. split.
  - rewrite Hp. eapply sublist_NoDup; [exact Hnd|]. apply fmap_sublist, sublist_filter.
  - apply Forall_forall. intros r Hr. rewrite Hp in Hr. apply list_elem_of_filter in Hr. tauto.
Qed.

Lemma pending_tail P r rs w w' : pending P (r :: rs) w → touches r w w' → pending P rs w'.
Proof.
  intros [Hnd Hf] Ht. rewrite fmap_cons in Hnd. apply NoDup_cons in Hnd as [Hni Hnd].
  apply Forall_cons in Hf as [_ Hf]. split; [done|]. apply Forall_forall. intros r' Hin.
  destruct (proj1 (Forall_forall _ _) Hf r' Hin) as [Hr' HP]. split; [|done]. apply Ht; [done|]. intros Heq. apply Hni. rewrite <- Heq.
  by apply list_elem_of_fmap_2.
Qed.

Lemma for_pending (f : ProofRequest → prog unit) P lossy rs w :
  (∀ r w, w_tx w = None → sane (rows w) → r ∈ rows w → P r →
     returns (f (entity r)) w (λ _ w', evolves lossy w w' ∧ touches r w w') (λ _ w', evolves true w w')) →
  w_tx w = None → sane (rows w) → pending P rs w →
  returns (for_each (entity <$> rs) f) w (λ _ w', evolves lossy w w') (λ _ w', evolves true w w').
Proof.
  intros Hf. revert w. induction rs as [|r rs IH]; intros w Ht Hs Hp; [by apply returns_ret|].
  rewrite fmap_cons. cbn [for_each]. pose proof Hp as [_ Hfa]. apply Forall_cons in Hfa as [[Hin HP] _].
  eapply returns_bind; [by apply Hf| |done]. intros _ w1 [He Hto].
  eapply returns_mono; [apply IH|..].
  - by eapply evolves_tx.
  - by eapply evolves_sane.
  - by eapply pending_tail.
  - intros ? w' He'. by etrans.
  - intros e w' He'. etrans; [|exact He']. destruct lossy; [done|by apply evolves_lossy].
Qed.

(** ** Messages to the server *)

Lemma http_returns r w (P : (error + HttpResponse) * bool → World → Prop) E :
  (∀ a w', still w w' → ext_exec _ (EHttp r) (w_ext w) = (a, w_ext w') →
     w_trace w' = w_trace w ++ [EvHttp r] → P a w') →
  returns (http_do r false) w P E.
Proof.
  intros HP. unfold http_do, returns, wp. cbn [andb]. rewrite run_ask. simpl.
  pose proof (exec_ext_still (EHttp r) w) as Hs. pose proof (exec_ext_trace (EHttp r) w) as Ht.
  apply HP; [done| |done]. unfold exec_ext. destruct (ext_exec _ (EHttp r) (w_ext w)). by destruct w.
Qed.

Lemma metric_returns m w (P : unit → World → Prop) E :
  (∀ w', still w w' → P tt w') → returns (metric m) w P E.
Proof. intros HP. apply HP. by destruct w. Qed.

Lemma check_url_returns url w (P : unit → World → Prop) (E : error → World → Prop) :
  P tt w → (∀ e, E e w) → returns (check_url url) w P E.
Proof. intros. unfold check_url. by destruct (url_valid url); [apply returns_ret|apply returns_raise]. Qed.

(** The server answered [body] to [req]. *)
Definition answered (req : HttpRequest) (body : string) : Prop :=
  ∃ drained x x', ext_exec _ (EHttp req) x = ((inr (mkHttpResponse StatusOK (inr body)), drained), x').

Definition status_request cfg (pid : string) : HttpRequest :=
  mkHttpRequest "GET" (OPSuccinctServerUrl cfg ++ "/status/" ++ pid) None None PROOF_STATUS_TIMEOUT.

(** The server answered [st] when asked for the request [pid]. *)
Definition reported cfg (pid : string) (st : ProofStatusResponse) : Prop :=
  ∃ body, answered (status_request cfg pid) body ∧ unmarshal_ProofStatusResponse body = inr st.

Lemma GetProofStatus_returns cfg pid w :
  returns (GetProofStatus cfg pid) w (λ st w', still w w' ∧ reported cfg pid st) (λ _ w', still w w').
Proof.
  unfold GetProofStatus.
  eapply (returns_bind _ _ _ (λ _, still w) (λ _, still w)); [by apply check_url_returns| |done]. intros _ w1 Hs1.
  eapply (returns_bind _ _ _ (λ a w', still w w' ∧ ∃ x x', ext_exec _ (EHttp (status_request cfg pid)) x = (a, x'))
    (λ _ _, False)); [|..|done].
  { apply http_returns. intros a w2 Hs2 Hx _. split; [by etrans|]. by eexists _, _. }
  intros [[err|[code rb]] drained] w2 (Hs2 & x & x' & Hx); cbn [fst].
  { destruct (is_timeout err); by apply returns_raise. }
  cbn [StatusCode]. destruct (Z.eqb_spec code StatusOK) as [->|]; cbn [negb]; [|by apply returns_raise].
  cbn [rs_body]. destruct rb as [err|body]; [by apply returns_raise|]. cbn [lift map_err mbind prog_mbind prog_bind].
  apply returns_map_err, returns_lift. destruct (unmarshal_ProofStatusResponse body) as [e|st] eqn:Hu; [done|].
  split; [done|]. exists body. split; [|done]. by exists drained, x, x'.
Qed.

(** ** Stage 2: proofs that are being made *)

(** What one poll does to a request [r] in PROVING, when the server answers [st]. *)
Definition polled (r : Row) (st : ProofStatusResponse) w w' : Prop :=
  if FulfillmentStatus st =? SP1FulfillmentStatusFulfilled then
    row_proof r = None ∧ ∃ t, is_u64 t ∧ rows w' = at_id (row_id r) (with_proof (psr_Proof st) t) (rows w)
  else if FulfillmentStatus st =? SP1FulfillmentStatusUnfulfillable then retried st r w w'
  else rows w' = rows w.

Lemma polled_touches r st w w' : polled r st w w' → touches r w w'.
Proof.
  unfold polled. repeat case_match.
  - intros (_ & t & _ & Hr). eapply (touches_at_id _ _ []). by rewrite app_nil_r.
  - intros (t & new & _ & _ & Hr & _). by eapply touches_at_id.
  - intros Hr r' Hin _. by rewrite Hr.
Qed.

Lemma polled_evolves r st w w' :
  calm w w' → r ∈ rows w → row_status r = StatusPROVING → polled r st w w' → evolves false w w'.
Proof.
  intros Hc Hin Hst. unfold polled. repeat case_match.
  - intros (_ & t & _ & Hr). apply evolves_step; [done|]. rewrite Hr. by apply ts_fulfil.
  - intros Hr. eapply retried_evolves; eauto. by right.
  - intros Hr. by apply still_evolves.
Qed.

Lemma matching_id tbl r r' : table_ok tbl → r ∈ tbl → matching [ID (row_id r)] tbl = [r'] → r' = r.
Proof.
  intros Hok Hin Hm. assert (r ∈ matching [ID (row_id r)] tbl) as Hx.
  { apply list_elem_of_filter. split; [|done]. autorewrite with sat. by rewrite bool_decide_eq_true_2. }
  rewrite Hm in Hx. by apply list_elem_of_singleton in Hx.
Qed.

Lemma process_proving_returns cfg r w :
  w_tx w = None → sane (rows w) → r ∈ rows w → row_status r = StatusPROVING →
  returns (process_proving cfg (entity r)) w
    (λ _ w', calm w w' ∧ ∃ st, reported cfg (pr_ProverRequestID (entity r)) st ∧ polled r st w w')
    (λ _ w', evolves true w w').
Proof.
  intros Ht Hs Hin Hst. unfold process_proving.
  eapply (returns_bind _ _ _ _ (λ _ _, False)); [apply returns_try, GetProofStatus_returns| |done].
  intros [err|st] w1; cbv beta.
  { intros Hw1. eapply (returns_bind _ _ _ (λ _, still w) (λ _ _, False)); [|..|done].
    - apply metric_returns. intros w2 Hw2. by etrans.
    - intros _ w2 Hw2. apply returns_raise. by apply still_evolves. }
  intros [[Hc1 Hr1] Hrep].
  assert (w_tx w1 = None) as Ht1 by (by destruct Hc1 as (_ & _ & -> & _)).
  destruct (FulfillmentStatus st =? SP1FulfillmentStatusFulfilled) eqn:E1.
  { eapply returns_mono; [by apply AddFulfilledProof_returns|..].
    - intros _ w' (Hf & r' & t & Hm & _ & Hpf & Htm & Hr). rewrite Hr1 in *.
      apply matching_id in Hm as ->; [|apply Hs|done]. split; [etrans; [exact Hc1|by apply frame_calm]|].
      exists st. split; [done|]. unfold polled. rewrite E1. split; [done|]. by exists t.
    - intros e w' Hq. etrans; [apply still_evolves; exact (conj Hc1 Hr1)|by apply quiet_evolves]. }
  destruct (FulfillmentStatus st =? SP1FulfillmentStatusUnfulfillable) eqn:E2.
  2: { apply returns_ret. split; [done|]. exists st. split; [done|]. unfold polled. by rewrite E1, E2. }
  eapply (returns_bind _ _ _ (λ _, still w) (λ _ _, False)); [|..|done].
  { apply metric_returns. intros w2 Hw2. etrans; [|exact Hw2]. done. }
  intros _ w2 [Hc2 Hr2]. apply returns_map_err.
  eapply returns_mono; [apply RetryRequest_evolves; [by destruct Hc2 as (_ & _ & -> & _)|by rewrite Hr2..|by right]|..].
  - intros _ w' (Hf & Hre & _). split; [etrans; [exact Hc2|by apply frame_calm]|].
    exists st. split; [done|]. unfold polled, retried in *. rewrite E1, E2. by rewrite Hr2 in Hre.
  - intros e w' [_ Hev]. etrans; [apply still_evolves; exact (conj Hc2 Hr2)|exact Hev].
Qed.

Lemma ProcessProvingRequests_returns cfg w :
  w_tx w = None → sane (rows w) →
  returns (ProcessProvingRequests cfg) w (λ _ w', evolves false w w') (λ _ w', evolves true w w').
Proof.
  intros Ht Hs. unfold ProcessProvingRequests.
  eapply returns_bind; [apply GetAllProofsWithStatus_returns| |intros e w' Hq; by apply quiet_evolves].
  intros l w1 ([Hf Hr] & rs & Hp & ->).
  eapply returns_mono; [eapply (for_pending _ (λ r, row_status r = StatusPROVING) false)|..].
  - intros r w' Ht' Hs' Hin Hst. eapply returns_mono; [by apply process_proving_returns|..].
    + intros _ w2 (Hc & st & _ & Hpo). split; [by eapply polled_evolves|by eapply polled_touches].
    + done.
  - by rewrite (frame_tx _ _ Hf).
  - by rewrite Hr.
  - apply (selected_pending (λ r, row_status r = StatusPROVING)); rewrite Hr; [apply Hs|done].
  - intros ? w' Hev. etrans; [apply quiet_evolves; exact (conj Hf Hr)|exact Hev].
  - intros e w' Hev. etrans; [apply quiet_evolves; exact (conj Hf Hr)|exact Hev].
Qed.

(** ** Stage 3: requests whose witness is being generated *)

(** The request is older than the timeout, at time [now]. *)
Definition timed_out cfg (r : Row) (now : Z) : bool :=
  add64 (pr_LastUpdatedTime (entity r)) (WitnessGenTimeout cfg) <? now.

Lemma process_witnessgen_returns cfg r w :
  w_tx w = None → sane (rows w) → r ∈ rows w → row_status r = StatusWITNESSGEN →
  returns (process_witnessgen cfg (entity r)) w
    (λ _ w', frame w w' ∧ ∃ now, is_u64 now ∧
       if timed_out cfg r now then
         retried emptyStatus r w w' ∨ rows w' = rows w ∨ ∃ rgs, retried_with emptyStatus r rgs w w'
       else rows w' = rows w)
    (λ _ _, False).
Proof.
  intros Ht [Hok Hsp] Hin Hst. unfold process_witnessgen. apply now_bind. intros now w1 Hnow Hf1 Hr1.
  change (add64 _ _ <? now) with (timed_out cfg r now). destruct (timed_out cfg r now) eqn:E.
  2: { apply returns_ret. split; [done|]. exists now. split; [done|]. by rewrite E. }
  eapply (returns_bind _ _ _ _ (λ _ _, False)); [apply returns_try, RetryRequest_returns|..|done].
  - by rewrite (frame_tx _ _ Hf1).
  - by rewrite Hr1.
  - by rewrite Hr1.
  - intros Hty. specialize (Hsp r Hin Hty). lia.
  - unfold retried, retried_with. rewrite Hr1. intros [e|[]] w2 [Hf2 Hre]; apply returns_ret;
      (split; [by etrans|]); exists now; (split; [done|]); rewrite E; auto.
Qed.

(** Errors of the retries are dropped, so a half-made retry goes unnoticed. *)
Lemma ProcessWitnessgenRequests_returns cfg w :
  w_tx w = None → sane (rows w) →
  returns (ProcessWitnessgenRequests cfg) w (λ _ w', evolves true w w') (unchanged w).
Proof.
  intros Ht Hs. unfold ProcessWitnessgenRequests.
  eapply returns_bind; [apply GetAllProofsWithStatus_returns| |done].
  intros l w1 ([Hf Hr] & rs & Hp & ->).
  assert (pending (λ r, row_status r = StatusWITNESSGEN) rs w1) as Hpend.
  { apply (selected_pending (λ r, row_status r = StatusWITNESSGEN)); rewrite Hr; [apply Hs|done]. }
  assert (evolves true w w1) as Hev by by apply quiet_evolves.
  clear Hp. rewrite <- Hr in Hs. rewrite <- (frame_tx _ _ Hf) in Ht. clear Hf Hr.
  revert w1 Ht Hs Hev Hpend. induction rs as [|r rs IH]; intros w1 Ht Hs Hev Hpend; [done|].
  rewrite fmap_cons. cbn [for_each]. pose proof Hpend as [_ Hfa]. apply Forall_cons in Hfa as [[Hin Hst] _].
  eapply returns_bind; [by apply process_witnessgen_returns| |done].
  intros _ w2 (Hf2 & now & _ & Hcase).
  assert (evolves true w1 w2 ∧ touches r w1 w2) as [Hev2 Hto].
  { assert (in_flight r) as Hfl by by left. apply frame_calm in Hf2.
    assert (rows w2 = rows w1 → evolves true w1 w2 ∧ touches r w1 w2) as Hsame.
    { intros Hr. split; [by apply still_evolves|by apply still_touches]. }
    destruct (timed_out cfg r now); [|by apply Hsame].
    destruct Hcase as [Hre|[Hr|[rgs Hre]]]; [|by apply Hsame|].
    - split; [by eapply evolves_lossy, retried_evolves|]. destruct Hre as (t & new & _ & _ & Hr & _).
      by eapply touches_at_id.
    - split; [by eapply retried_with_evolves|]. destruct Hre as (t & new & _ & Hr & _).
      by eapply touches_at_id. }
  apply IH.
  - by eapply evolves_tx.
  - by eapply evolves_sane.
  - by etrans.
  - by eapply pending_tail.
Qed.

(** ** The goroutine that requests a proof *)

Definition proof_http cfg (ty body : string) : HttpRequest :=
  mkHttpRequest "POST" (OPSuccinctServerUrl cfg ++ "/" ++ getProofEndpoint cfg ty) (Some body)
    (Some "application/json"%string) (i64 (i64 (WitnessGenTimeout cfg) * second)).

Lemma makeProofRequest_returns cfg ty body w :
  returns (makeProofRequest cfg ty body) w
    (λ resp w', still w w' ∧ answered (proof_http cfg ty body) resp) (λ _ w', still w w').
Proof.
  unfold makeProofRequest.
  eapply (returns_bind _ _ _ (λ _, still w) (λ _, still w)); [by apply check_url_returns| |done]. intros _ w1 Hs1.
  eapply (returns_bind _ _ _ (λ a w', still w w' ∧ ∃ x x', ext_exec _ (EHttp (proof_http cfg ty body)) x = (a, x'))
    (λ _ _, False)); [|..|done].
  { apply http_returns. intros a w2 Hs2 Hx _. split; [by etrans|]. by eexists _, _. }
  assert (∀ m e w2, still w w2 → returns (_ ← metric m; Raise e) w2
    (λ resp w', still w w' ∧ answered (proof_http cfg ty body) resp) (λ _ w', still w w')) as Hfail.
  { intros m e w2 Hs2. eapply (returns_bind _ _ _ (λ _, still w) (λ _ _, False)); [|by intros; apply returns_raise|done].
    apply metric_returns. intros w3 Hs3. by etrans. }
  intros [[err|[code rb]] drained] w2 (Hs2 & x & x' & Hx); cbn [fst].
  { destruct (is_timeout err); [by apply Hfail|by apply returns_raise]. }
  cbn [StatusCode]. destruct (Z.eqb_spec code StatusOK) as [->|]; cbn [negb]; [|by apply Hfail].
  apply returns_lift. cbn [rs_body]. destruct rb as [err|resp]; [done|].
  split; [done|]. by exists drained, x, x'.
Qed.

Lemma prepareProofRequest_returns p w :
  table_ok (rows w) →
  returns (prepareProofRequest p) w (λ _ w', quiet w w') (unchanged w).
Proof.
  intros Hok. unfold prepareProofRequest. case_bool_decide.
  - destruct (_ <=? _); [by apply returns_raise|by apply returns_ret].
  - eapply (returns_bind _ _ _ (λ _, quiet w) (unchanged w)); [|by intros; apply returns_ret|done].
    apply returns_map_err. eapply returns_mono; [by apply GetConsecutiveSpanProofs_returns|..].
    + by intros l w' [? _].
    + by intros e w' [? _].
Qed.

Lemma at_id_in f tbl r : r ∈ tbl → f r ∈ at_id (row_id r) f tbl.
Proof. intros Hin. apply list_elem_of_fmap. exists r. by rewrite decide_True. Qed.

(** The retry of [r] only looks at what never changes of it. *)
Lemma RetryRequest_same r r' st :
  same_request r r' → RetryRequest (entity r') st = RetryRequest (entity r) st.
Proof.
  intros (Hi & Ht & Hs & He). unfold RetryRequest, retry_ranges.
  change (pr_ID (entity r')) with (row_id r'). change (pr_Type (entity r')) with (row_type r').
  change (pr_StartBlock (entity r')) with (u64 (row_start_block r')).
  change (pr_EndBlock (entity r')) with (u64 (row_end_block r')). by rewrite Hi, Ht, Hs, He.
Qed.

(** The server took the request for [r]: with a real prover, [r'] carries the
    hex form of the id it answered; with a mock one, the proof it answered. *)
Definition accepted cfg (r r' : Row) : Prop :=
  ∃ body resp, answered (proof_http cfg (row_type r) body) resp ∧
    if Mock cfg then
      ∃ st, unmarshal_ProofStatusResponse resp = inr st ∧ row_status r' = StatusCOMPLETE ∧
        row_proof r' = psr_Proof st
    else
      ∃ wg, unmarshal_WitnessGenerationResponse resp = inr wg ∧ row_status r' = StatusPROVING ∧
        row_prover_request_id r' = Some (Encoding.EncodeToString (default [] (ProofID wg))).

(** [r] was marked as [st]. *)
Definition marked (st : string) (r : Row) w w' : Prop :=
  ∃ t, rows w' = at_id (row_id r) (mark st t) (rows w).

Lemma marked_in st r w w' :
  r ∈ rows w → marked st r w w' →
  ∃ r', r' ∈ rows w' ∧ same_request r r' ∧ row_status r' = st ∧ row_proof r' = row_proof r.
Proof.
  intros Hin [t Hr]. exists (mark st t r). rewrite Hr. split; [by apply at_id_in|]. by destruct r.
Qed.

Lemma UpdateProofStatus_marks r st w :
  w_tx w = None → r ∈ rows w → status_step (row_status r) st →
  returns (UpdateProofStatus (row_id r) st) w
    (λ _ w', evolves false w w' ∧ marked st r w w') (unchanged w).
Proof.
  intros Ht Hin Hst. eapply returns_mono; [by apply UpdateProofStatus_returns| |done].
  intros _ w' (Hf & _ & t & _ & Hr). split; [|by exists t].
  apply evolves_step; [by apply frame_calm|]. rewrite Hr. by apply ts_mark.
Qed.

(** The request is still in the table, and being worked on. *)
Definition still_open (r : Row) w : Prop := ∃ r', r' ∈ rows w ∧ same_request r r' ∧ in_flight r'.

(** From the answer of the server to the end of [RequestProof]. *)
Lemma set_proving_bind (k : prog unit) r w (P : World → Prop) :
  w_tx w = None → r ∈ rows w → row_status r = StatusWITNESSGEN →
  (∀ w1 r1, w_tx w1 = None → r1 ∈ rows w1 → same_request r r1 → row_status r1 = StatusPROVING →
     returns k w1 (λ _ w', evolves false w1 w' ∧ P w') (unchanged w1)) →
  returns (_ ← map_err (wrap "failed to set proof status to proving: %w")
                 (UpdateProofStatus (row_id r) StatusPROVING); k) w
    (λ _ w', evolves false w w' ∧ P w') (λ _ w', evolves false w w' ∧ still_open r w').
Proof.
  intros Ht Hin Hst Hk.
  eapply (returns_bind _ _ _ (λ _ w', evolves false w w' ∧ marked StatusPROVING r w w') (unchanged w)).
  - apply returns_map_err, UpdateProofStatus_marks; [done..|]. by right.
  - intros _ w1 [Hev Hmk]. destruct (marked_in _ _ _ _ Hin Hmk) as (r1 & Hin1 & Hsame & Hs1 & _).
    eapply returns_mono; [apply (Hk w1 r1); [by eapply evolves_tx|done..]|..].
    + intros _ w' [Hev' HP]. split; [by etrans|done].
    + intros e w' [Hf Hr]. split; [etrans; [exact Hev|by apply quiet_evolves]|].
      exists r1. rewrite Hr. split; [done|]. split; [done|]. by right.
  - intros e w' [Hf Hr]. split; [by apply quiet_evolves|]. exists r. rewrite Hr.
    split; [done|]. split; [done|]. by left.
Qed.

Definition accepted_in cfg (r : Row) w : Prop :=
  ∃ r', r' ∈ rows w ∧ same_request r r' ∧ accepted cfg r r'.

Lemma store_answer_returns cfg r r1 w body resp st :
  w_tx w = None → r1 ∈ rows w → same_request r r1 → row_status r1 = StatusPROVING →
  answered (proof_http cfg (row_type r) body) resp → Mock cfg = true →
  unmarshal_ProofStatusResponse resp = inr st →
  returns (AddFulfilledProof (row_id r) (psr_Proof st)) w
    (λ _ w', evolves false w w' ∧ accepted_in cfg r w') (unchanged w).
Proof.
  intros Ht Hin Hsame Hs1 Hans Hm Hst. rewrite <- (proj1 Hsame).
  eapply returns_mono; [by apply AddFulfilledProof_returns| |done].
  intros _ w' (Hf & r' & t & _ & _ & _ & _ & Hr). split.
  { apply evolves_step; [by apply frame_calm|]. rewrite Hr. by apply ts_fulfil. }
  exists (with_proof (psr_Proof st) t r1). rewrite Hr. split; [by apply at_id_in|].
  split; [by destruct r1|]. exists body, resp. split; [done|]. rewrite Hm. exists st.
  split; [done|]. by destruct r1.
Qed.

Lemma store_id_returns cfg r r1 w body resp wg :
  w_tx w = None → r1 ∈ rows w → same_request r r1 → row_status r1 = StatusPROVING →
  answered (proof_http cfg (row_type r) body) resp → Mock cfg = false →
  unmarshal_WitnessGenerationResponse resp = inr wg →
  returns (SetProverRequestID_ (row_id r) (ProofID wg)) w
    (λ _ w', evolves false w w' ∧ accepted_in cfg r w') (unchanged w).
Proof.
  intros Ht Hin Hsame Hs1 Hans Hm Hwg. rewrite <- (proj1 Hsame).
  eapply returns_mono; [by apply SetProverRequestID_returns| |done].
  intros _ w' (Hf & t1 & t2 & _ & _ & Hr). split.
  { apply evolves_step; [by apply frame_calm|]. rewrite Hr. by apply ts_sent. }
  eexists. rewrite Hr. split; [by apply at_id_in|].
  split; [by destruct r1|]. exists body, resp. split; [done|]. rewrite Hm. exists wg.
  split; [done|]. by destruct r1.
Qed.

(** [requestMockProof] and [requestRealProof]. *)
Lemma request_returns {A B} cfg ty body w (un : string → error + B) (g : B → A) :
  returns (resp ← makeProofRequest cfg ty body; response ← map_err decode_error (lift (un resp)); Ret (g response)) w
    (λ a w', still w w' ∧ ∃ resp b, answered (proof_http cfg ty body) resp ∧ un resp = inr b ∧ a = g b)
    (λ _ w', still w w').
Proof.
  eapply returns_bind; [apply makeProofRequest_returns| |done].
  intros resp w1 [Hs Hans]. destruct (un resp) as [e|b] eqn:Hu; [by apply returns_raise|].
  apply returns_ret. split; [done|]. by exists resp, b.
Qed.

(** [RequestProof] after the request was prepared, for both provers. *)
Lemma RequestProof_branch {A B} cfg r r1 w body msg (un : string → error + B) (g : B → A) (k : A → prog unit) :
  w_tx w = None → r1 ∈ rows w → same_request r r1 → row_status r1 = StatusWITNESSGEN →
  (∀ w3 r3 resp b, w_tx w3 = None → r3 ∈ rows w3 → same_request r r3 → row_status r3 = StatusPROVING →
     answered (proof_http cfg (row_type r) body) resp → un resp = inr b →
     returns (k (g b)) w3 (λ _ w', evolves false w3 w' ∧ accepted_in cfg r w') (unchanged w3)) →
  returns (a ← map_err (wrap msg)
             (resp ← makeProofRequest cfg (row_type r) body;
              response ← map_err decode_error (lift (un resp)); Ret (g response));
           _ ← map_err (wrap "failed to set proof status to proving: %w")
                 (UpdateProofStatus (row_id r) StatusPROVING);
           k a) w
    (λ _ w', evolves false w w' ∧ accepted_in cfg r w')
    (λ _ w', evolves false w w' ∧ still_open r w').
Proof.
  intros Ht Hin Hsame Hst Hk.
  eapply returns_bind; [apply returns_wrap, request_returns| |].
  - intros a w2 (Hs2 & resp & b & Hans & Hu & ->). rewrite <- (proj1 Hsame).
    destruct Hs2 as [Hc2 Hr2]. assert (w_tx w2 = None) as Ht2 by (by destruct Hc2 as (_ & _ & -> & _)).
    assert (evolves false w w2) as Hev2 by by apply still_evolves.
    eapply returns_mono; [apply (set_proving_bind _ r1 w2 (accepted_in cfg r)); [done|by rewrite Hr2|done|]|..].
    + intros w3 r3 Ht3 Hin3 Hsame3 Hst3. eapply Hk; [done|exact Hin3| |done..].
      unfold same_request in *. intuition congruence.
    + intros _ w' [Hev HP]. split; [by etrans|done].
    + intros e w' [Hev (r4 & ? & ? & ?)]. split; [by etrans|]. exists r4. split; [done|]. split; [|done].
      unfold same_request in *. intuition congruence.
  - intros e w2 [Hc2 Hr2]. split; [by apply still_evolves|]. exists r1. rewrite Hr2.
    split; [done|]. split; [done|]. by left.
Qed.

Lemma RequestProof_returns cfg r r1 w :
  w_tx w = None → sane (rows w) → r1 ∈ rows w → same_request r r1 → row_status r1 = StatusWITNESSGEN →
  returns (RequestProof cfg (entity r) (Mock cfg)) w
    (λ _ w', evolves false w w' ∧ accepted_in cfg r w')
    (λ _ w', evolves false w w' ∧ still_open r w').
Proof.
  intros Ht [Hok Hsp] Hin Hsame Hst. unfold RequestProof.
  change (pr_ID (entity r)) with (row_id r). change (pr_Type (entity r)) with (row_type r).
  eapply returns_bind; [by apply prepareProofRequest_returns| |].
  2: { intros e w' [Hf Hr]. split; [by apply quiet_evolves|]. exists r1. rewrite Hr.
       split; [done|]. split; [done|]. by left. }
  intros body w1 [Hf1 Hr1]. assert (evolves false w w1) as Hev1 by by apply quiet_evolves.
  assert (w_tx w1 = None) as Ht1 by by eapply evolves_tx. rewrite <- Hr1 in Hin.
  destruct (Mock cfg) eqn:Hm.
  - eapply returns_mono; [apply (RequestProof_branch cfg r r1 w1 body _ unmarshal_ProofStatusResponse psr_Proof);
      [done..|]|intros ? w' [? ?]; split; [by etrans|done]|intros e w' [? ?]; split; [by etrans|done]].
    intros w3 r3 resp st Ht3 Hin3 Hs3 Hst3 Hans Hu. by eapply store_answer_returns.
  - eapply returns_mono; [apply (RequestProof_branch cfg r r1 w1 body _ unmarshal_WitnessGenerationResponse ProofID);
      [done..|]|intros ? w' [? ?]; split; [by etrans|done]|intros e w' [? ?]; split; [by etrans|done]].
    intros w3 r3 resp wg Ht3 Hin3 Hs3 Hst3 Hans Hu. by eapply store_id_returns.
Qed.

(** The server did not take the request of [r], which was then in [w2] as [r2]. *)
Definition refused cfg (r r2 : Row) w w2 : Prop :=
  (∃ w1 e, run (UpdateProofStatus (row_id r) StatusWITNESSGEN) w = (Ok tt, w1) ∧
     run (RequestProof cfg (entity r) (Mock cfg)) w1 = (Fail e, w2)) ∧
  r2 ∈ rows w2 ∧ same_request r r2 ∧ in_flight r2.

(** A retry of [r2] that an error ended, and what it had done by then. *)
Definition half_retried (r r2 : Row) w2 w' : Prop :=
  (∃ e, run (RetryRequest (entity r) emptyStatus) w2 = (Fail e, w')) ∧
  (rows w' = rows w2 ∨ ∃ rgs, retried_with emptyStatus r2 rgs w2 w').

(** The whole goroutine, on a request that nobody else is working on. *)
Lemma request_task_returns cfg r w :
  w_tx w = None → sane (rows w) → r ∈ rows w → row_status r = StatusUNREQ →
  returns (request_task cfg (entity r) (entity r)) w
    (λ _ w',
       (* the first write failed *)
       quiet w w' ∧ (∃ e, run (UpdateProofStatus (row_id r) StatusWITNESSGEN) w = (Fail e, w')) ∨
       (* the server took the request *)
       evolves false w w' ∧ accepted_in cfg r w' ∨
       (* it did not, and the request was replaced, or that failed too *)
       ∃ w2 r2, refused cfg r r2 w w2 ∧ evolves false w w2 ∧
         (evolves false w w' ∧ retried emptyStatus r2 w2 w' ∨ evolves true w w' ∧ half_retried r r2 w2 w'))
    (λ _ _, False).
Proof.
  intros Ht Hs Hin Hst. unfold request_task. change (pr_ID (entity r)) with (row_id r).
  eapply (returns_bind _ _ _ _ (λ _ _, False));
    [apply returns_try, returns_ran, UpdateProofStatus_marks; [done..|by left]| |done].
  intros [e|[]] w1; cbv beta.
  { intros [Hq Hrun]. apply returns_ret. left. split; [done|by exists e]. }
  intros [[Hev1 Hmk] Hrun1]. destruct (marked_in _ _ _ _ Hin Hmk) as (r1 & Hin1 & Hsame1 & Hst1 & _).
  assert (w_tx w1 = None) as Ht1 by by eapply evolves_tx.
  assert (sane (rows w1)) as Hs1 by by eapply evolves_sane.
  eapply (returns_bind _ _ _ _ (λ _ _, False));
    [apply returns_try, returns_ran, (RequestProof_returns cfg r r1); done| |done].
  intros [e|[]] w2; cbv beta.
  2: { intros [[Hev2 Hacc] _]. apply returns_ret. right. left. split; [by etrans|done]. }
  intros [[Hev2 (r2 & Hin2 & Hsame2 & Hfl2)] Hrun2].
  assert (evolves false w w2) as Hev by by etrans. assert (sane (rows w2)) as Hs2 by by eapply evolves_sane.
  assert (refused cfg r r2 w w2) as Href by (split; [by exists w1, e|done]).
  pose proof (RetryRequest_same r r2 emptyStatus Hsame2) as Hre. rewrite <- Hre.
  eapply (returns_bind _ _ _ _ (λ _ _, False));
    [apply returns_try, returns_ran, RetryRequest_returns; [by eapply evolves_tx|by destruct Hs2|done|]| |done].
  { intros Hty. pose proof (sane_span _ Hs2 r2 Hin2 Hty). lia. }
  intros [e'|[]] w3; cbv beta.
  - intros [[Hf Hcase] Hrun3]. apply returns_ret. do 2 right. exists w2, r2. do 2 (split; [done|]). right.
    split; [|split; [exists e'; by rewrite <- Hre|done]].
    etrans; [by apply evolves_lossy|]. destruct Hcase as [Hr|[rgs Hr]]; [by apply quiet_evolves|].
    eapply retried_with_evolves; eauto using frame_calm.
  - intros [[Hf Hret] _]. apply returns_ret. do 2 right. exists w2, r2. do 2 (split; [done|]). left.
    split; [|done]. etrans; [done|]. eapply retried_evolves; eauto using frame_calm.
Qed.

(** ** Stage 4: aggregation *)

Lemma reach_some s (rs : list Row) : reach s rs ≠ s → ∃ r, r ∈ rs ∧ hi r = reach s rs.
Proof.
  revert s. induction rs as [|r rs IH]; intros s; simpl; [done|].
  destruct (Z.eqb_spec (row_start_block r) s) as [Hs|Hs]; [|done]. intros _.
  destruct (decide (reach (row_end_block r) rs = row_end_block r)) as [Heq|Hne].
  - exists r. split; [apply elem_of_cons; by left|]. by rewrite Heq.
  - destruct (IH _ Hne) as (r' & Hr' & Hh). exists r'. split; [apply elem_of_cons; by right|done].
Qed.

(** The contract asks for a block after its latest one. *)
Definition oracle_ahead (x : ext) : Prop :=
  ∀ n x' m x'', ext_exec _ ELatestBlockNumber x = (inr n, x') →
    ext_exec _ ENextBlockNumber x' = (inr m, x'') → u64 n < u64 m.

Lemma DeriveAggProofs_returns w :
  w_tx w = None → sane (rows w) → oracle_ahead (w_ext w) →
  returns DeriveAggProofs w (λ _ w', evolves false w w') (unchanged w).
Proof.
  intros Ht Hs Ho. unfold DeriveAggProofs.
  eapply (returns_bind _ _ _ (λ n w', quiet w w' ∧ ext_exec _ ELatestBlockNumber (w_ext w) = (inr n, w_ext w'))
    (unchanged w)); [|..|done].
  { apply returns_map_err, returns_call; [done|..]; [by intros|by intros]. }
  intros n w1 [Hq1 Hx1].
  eapply (returns_bind _ _ _ (λ m w', quiet w w' ∧ u64 n < u64 m) (unchanged w)); [|..|done].
  { apply returns_map_err, returns_call; [done|..].
    - intros m w2 Hq2 Hx2. split; [exact (transitivity Hq1 Hq2)|by eapply Ho].
    - intros e w2 Hq2. exact (transitivity Hq1 Hq2). }
  intros m w2 [[Hf2 Hr2] Hlt].
  apply (returns_drop _ _ (λ w', evolves false w w')). apply returns_map_err.
  eapply returns_mono; [apply TryCreateAgg_returns; [by rewrite (frame_tx _ _ Hf2)|rewrite Hr2; apply Hs]|..].
  - intros [created end_] w' [Hf Hcase]. assert (calm w w') as Hc by (apply frame_calm; by etrans).
    unfold selected_asc in Hcase. rewrite Hr2 in Hcase. destruct created.
    + destruct Hcase as (rs & [Hp _] & -> & Hle & _ & id & now & Hfresh & Hid & _ & ? & ? & Hr).
      apply evolves_step; [done|]. rewrite Hr. destruct (u64_range n).
      assert (reach (u64 n) rs ≠ u64 n) as Hne by lia. destruct (reach_some _ _ Hne) as (r & Hin & Hh).
      rewrite Hp in Hin. apply list_elem_of_filter in Hin as [_ Hin].
      apply ts_agg; [done|done|split; [lia|done]|]. exists r. split; [done|]. simpl in Hh. lia.
    + destruct Hcase as (_ & Hr & _). by apply still_evolves.
  - intros e w' [Hf Hr]. split; [by etrans|congruence].
Qed.

(** ** Stage 5: requesting *)

Lemma AddL1BlockInfo_evolves s e n h w :
  w_tx w = None → always (AddL1BlockInfoToAggRequest s e n h) w (evolves false w).
Proof.
  intros Ht. apply returns_always. eapply returns_mono; [by apply AddL1BlockInfo_returns|..].
  - intros p w' (Hf & r & t & _ & _ & Hr & _). apply evolves_step; [by apply frame_calm|]. rewrite Hr. constructor.
  - intros er w' (Hf & [Hr|(t & _ & Hr)]); [by apply quiet_evolves|].
    apply evolves_step; [by apply frame_calm|]. rewrite Hr. constructor.
Qed.

(** [Q] survives whatever leaves the table alone. *)
Definition stable (Q : World → Prop) : Prop := ∀ w w', still w w' → Q w → Q w'.

Lemma evolves_stable lossy w : stable (evolves lossy w).
Proof. intros w1 w2 Hs He. etrans; [exact He|by apply still_evolves]. Qed.

Lemma always_quiet {A} (p : prog A) w (Q : World → Prop) :
  stable Q → Q w → returns p w (λ _ w', quiet w w') (unchanged w) → always p w Q.
Proof.
  intros HQ Hw Hp. apply returns_always. eapply returns_mono; [exact Hp|..].
  - intros a w' Hq. by apply (HQ w); [apply quiet_still|].
  - intros e w' Hq. by apply (HQ w); [apply quiet_still|].
Qed.

Lemma checkpointBlockHash_stable cfg w Q : stable Q → Q w → always (checkpointBlockHash cfg) w Q.
Proof.
  intros HQ Hw. unfold checkpointBlockHash.
  apply always_bind; [apply always_call; intros w' Hs; by apply (HQ w)|]. intros n w1 Hw1.
  apply always_bind; [apply always_call; intros w' Hs; by apply (HQ w1)|]. intros hd w2 Hw2.
  apply always_bind; [by apply always_lift|]. intros d w3 Hw3.
  apply always_bind; [apply always_call; intros w' Hs; by apply (HQ w3)|]. intros rc w4 Hw4.
  by apply always_ret.
Qed.

Lemma add_l1_info_evolves cfg p w :
  w_tx w = None → always (add_l1_info cfg p) w (evolves false w).
Proof.
  intros Ht. unfold add_l1_info.
  assert (∀ w1 s e n h, evolves false w w1 → always (AddL1BlockInfoToAggRequest s e n h) w1 (evolves false w)) as Hadd.
  { intros w1 s e n h He. eapply always_mono; [apply AddL1BlockInfo_evolves; by eapply evolves_tx|].
    intros w' He'. by etrans. }
  apply always_bind.
  { apply always_quiet; [apply evolves_stable|done|]. eapply returns_mono;
      [apply GetProofRequestsWithBlockRangeAndStatus_returns|by intros ? ? [? _]|done]. }
  intros l w1 He1. apply always_bind.
  { destruct (list_find _ l) as [[i pf]|]; [by apply Hadd|by apply always_ret]. }
  intros p' w2 He2. case_bool_decide; [|by apply always_ret].
  apply always_bind; [apply checkpointBlockHash_stable; [apply evolves_stable|done]|].
  intros b w3 He3. by apply Hadd.
Qed.

Lemma always_spawn t w Q : stable Q → Q w → always (proc (PSpawn t)) w Q.
Proof. intros HQ Hw. apply (HQ w); [|done]. by destruct w. Qed.

Lemma always_metric m w Q : stable Q → Q w → always (metric m) w Q.
Proof. intros HQ Hw. apply (HQ w); [|done]. by destruct w. Qed.

Lemma count_stable st w Q : stable Q → Q w → always (GetNumberOfRequestsWithStatuses [st]) w Q.
Proof.
  intros HQ Hw. apply always_quiet; [done..|]. eapply returns_mono;
    [apply GetNumberOfRequestsWithStatuses_returns|by intros ? ? [? _]|done].
Qed.

Lemma RequestQueuedProofs_evolves cfg w :
  w_tx w = None → always (RequestQueuedProofs cfg) w (evolves false w).
Proof.
  intros Ht. pose proof (evolves_stable false w) as Hst. unfold RequestQueuedProofs. apply always_bind.
  { apply always_map_err, always_quiet; [done..|]. eapply returns_mono;
      [apply GetNextUnrequestedProof_returns|by intros ? ? [? _]|done]. }
  intros [p|] w1 He1; [|by apply always_ret]. case_bool_decide.
  - apply always_bind; [|intros p' w2 He2; by apply always_spawn].
    case_bool_decide; [|by apply always_ret].
    eapply always_mono; [apply add_l1_info_evolves; by eapply evolves_tx|]. intros w' He'. by etrans.
  - apply always_bind; [by apply always_map_err, count_stable|]. intros n w2 He2.
    apply always_bind; [by apply always_map_err, count_stable|]. intros m w3 He3.
    destruct (_ <=? _); [by apply always_ret|]. destruct (_ <=? _); [by apply always_ret|].
    by apply always_spawn.
Qed.

(** ** Stage 6, and the metrics: the table is only read *)

Lemma rollup_client_stable w Q : stable Q → Q w → always rollup_client w Q.
Proof.
  intros HQ Hw. apply always_bind; [apply always_ask; intros ? ?; by eapply HQ|].
  intros [e|] w1 Hw1; [by apply always_raise|by apply always_ret].
Qed.

Lemma FetchOutput_stable n w Q : stable Q → Q w → always (FetchOutput n) w Q.
Proof.
  intros HQ Hw. apply always_bind; [by apply rollup_client_stable|]. intros _ w1 Hw1.
  apply always_bind; [apply always_map_err; stable_call HQ|]. intros o w2 Hw2.
  destruct (negb _); [by apply always_raise|]. destruct (negb _); [by apply always_raise|by apply always_ret].
Qed.

Lemma select_still w :
  still w (match exec_proc PSelectTick w with Some (_, w') => w' | None => w end).
Proof.
  simpl. destruct (done_closed (w_driver w)); [|done].
  destruct (ext_select (w_ext w)) as [b x]. by destruct w.
Qed.

Lemma always_select w Q : stable Q → Q w → always (proc PSelectTick) w Q.
Proof.
  intros HQ Hw. pose proof (select_still w) as Hs. unfold always, wp. rewrite run_proc.
  destruct (exec_proc PSelectTick w) as [[b w']|]; by apply (HQ w).
Qed.

Lemma waitForL1Head_stable fuel cfg n w Q : stable Q → Q w → always (waitForL1Head fuel cfg n) w Q.
Proof.
  intros HQ Hw. unfold waitForL1Head, newTicker. destruct (PollInterval cfg <=? 0); [done|]. cbn [mbind prog_mbind prog_bind].
  apply always_bind; [stable_call HQ|]. intros h w1 Hw1. clear w Hw.
  revert h w1 Hw1. induction fuel as [|fuel IH]; intros h w1 Hw1; cbn [wait_l1_head];
    (destruct (h <=? n); [|by apply always_ret]); [done|].
  apply always_bind; [by apply always_select|]. intros [] w2 Hw2; [|by apply always_raise].
  apply always_bind; [stable_call HQ|]. intros h' w3 Hw3. by apply IH.
Qed.

Lemma sendTransaction_stable fuel cfg o pf n w Q : stable Q → Q w → always (sendTransaction fuel cfg o pf n) w Q.
Proof.
  intros HQ Hw. apply always_bind; [by apply waitForL1Head_stable|]. intros _ w1 Hw1.
  destruct (DisputeGameFactoryAddr cfg).
  - apply always_bind.
    { apply always_bind; [by apply always_lift|]. intros d w2 Hw2.
      apply always_bind; [stable_call HQ|]. intros ? w3 Hw3. by apply always_ret. }
    intros bond w2 Hw2. apply always_bind; [by apply always_lift|]. intros d w3 Hw3.
    apply always_bind; [stable_call HQ|]. intros ? w4 Hw4. by apply always_ret.
  - apply always_bind; [by apply always_lift|]. intros d w3 Hw3.
    apply always_bind; [stable_call HQ|]. intros ? w4 Hw4. by apply always_ret.
Qed.

Lemma SubmitAggProofs_stable fuel cfg w Q : stable Q → Q w → always (SubmitAggProofs fuel cfg) w Q.
Proof.
  intros HQ Hw. apply always_bind; [apply always_map_err; stable_call HQ|]. intros n w1 Hw1.
  apply always_bind.
  { apply always_map_err, always_quiet; [done..|]. eapply returns_mono;
      [apply GetAllCompletedAggProofs_returns|by intros ? ? [? _]|done]. }
  intros l w2 Hw2. case_bool_decide; [by apply always_ret|].
  apply always_bind; [apply always_ask; intros ? ?; by eapply HQ|]. intros order w3 Hw3.
  destruct (sort_by_end order l) as [|p ps]; [done|].
  apply always_bind; [by apply always_map_err, FetchOutput_stable|]. intros o w4 Hw4. apply always_map_err.
  apply always_bind; [stable_call HQ|]. intros ? w5 Hw5.
  apply always_bind; [by apply sendTransaction_stable|]. intros _ w6 Hw6. by apply always_metric.
Qed.

Lemma GetProposerMetrics_stable w (Q : World → Prop) :
  (∀ w', Q w' → table_ok (rows w')) → stable Q → Q w → always GetProposerMetrics w Q.
Proof.
  intros Hok HQ Hw.
  unfold GetProposerMetrics, sync_status.
  apply always_bind.
  { apply always_bind; [by apply rollup_client_stable|]. intros _ w1 Hw1. apply always_map_err. stable_call HQ. }
  intros st w1 Hw1. apply always_bind; [apply always_map_err; stable_call HQ|]. intros n w2 Hw2.
  apply always_bind.
  { apply always_map_err. apply always_quiet; [done..|]. eapply returns_mono.
    - by apply GetMaxContiguousSpanProofRange_returns, Hok.
    - by intros ? ? [? _].
    - done. }
  intros hp w3 Hw3. apply always_bind; [apply always_map_err; stable_call HQ|]. intros m w4 Hw4.
  apply always_bind; [by apply always_map_err, count_stable|]. intros ? w5 Hw5.
  apply always_bind; [by apply always_map_err, count_stable|]. intros ? w6 Hw6.
  apply always_bind; [by apply always_map_err, count_stable|]. intros ? w7 Hw7.
  apply always_bind; [by apply always_metric|]. intros ? w8 Hw8. by apply always_ret.
Qed.

(** ** An iteration *)

(** What [Driver.run_stages] relies on: the stage makes steps of the state
    machine, whatever its outcome, in a world where the contract is sound. *)
Definition refines (I : ext → Prop) {A} (p : prog A) : Prop :=
  ∀ w, w_tx w = None → sane (rows w) → I (w_ext w) → always p w (λ w', evolves true w w' ∧ I (w_ext w')).

Lemma always_invariant I {A} (p : prog A) w Q :
  ext_invariant I → I (w_ext w) → always p w Q → always p w (λ w', Q w' ∧ I (w_ext w')).
Proof. intros HI Hw HQ. exact (wp_invariant I p w _ HI Hw HQ). Qed.

Lemma refines_intro I {A} (p : prog A) :
  ext_invariant I →
  (∀ w, w_tx w = None → sane (rows w) → I (w_ext w) → always p w (evolves true w)) → refines I p.
Proof. intros HI Hp w Ht Hs Hx. apply always_invariant; [done..|by apply Hp]. Qed.

Lemma refines_bind I {A B} (p : prog A) (f : A → prog B) :
  refines I p → (∀ a, refines I (f a)) → refines I (p ≫= f).
Proof.
  intros Hp Hf w Ht Hs Hx. apply always_bind; [by apply Hp|]. intros a w1 [He Hx1].
  eapply always_mono; [apply Hf; [by eapply evolves_tx|by eapply evolves_sane|done]|].
  intros w' [He' Hx']. split; [by etrans|done].
Qed.

Lemma refines_ret I {A} (a : A) : refines I (Ret a).
Proof. intros w Ht Hs Hx. done. Qed.

Lemma refines_attempt I {A} (p : prog A) : refines I p → refines I (attempt p).
Proof. intros Hp w Ht Hs Hx. by apply always_attempt, Hp. Qed.

Lemma run_stages_refines I l : Forall (refines I) l → refines I (run_stages l).
Proof.
  intros Hl. induction Hl as [|p l Hp _ IH]; [by apply refines_ret|]. cbn [run_stages].
  apply refines_bind; [by apply refines_attempt|]. intros [e|[]]; [by apply refines_ret|done].
Qed.

(** Stage 1 as a run of the state machine. *)
Lemma boundaries_evolves cfg w :
  w_tx w = None → table_ok (rows w) → 0 < MaxBlockRangePerSpanProof cfg < two63 →
  always (GetRangeProofBoundaries cfg) w (evolves false w).
Proof.
  intros Ht Hok Hstep. eapply wp_mono; [by apply boundaries_wp|].
  intros o w' [Hf Ho]. apply frame_calm in Hf. destruct o as [[]|er| | |]; try done.
  - destruct Ho as (b & e' & st & x & x' & Hs & Hext & _). split; [done|].
    eapply extended_reaches; [by apply starts_frontier|done].
  - destruct Ho as [Hr|(b & e' & st & x & x' & Hs & Hext & _)]; [by apply still_evolves|]. split; [done|].
    eapply extended_reaches; [by apply starts_frontier|done].
  - destruct Ho as [Hr _]. by apply still_evolves.
Qed.

(** The contract is sound, now and later. *)
Definition sound_oracle (I : ext → Prop) : Prop :=
  ext_invariant I ∧ ∀ x, I x → oracle_ahead x.

Lemma stages_refine I fuel cfg :
  sound_oracle I → 0 < MaxBlockRangePerSpanProof cfg < two63 → Forall (refines I) (stages fuel cfg).
Proof.
  intros [HI Ho] Hstep. unfold stages.
  repeat (apply Forall_cons; split); [..|by apply Forall_nil];
    (apply refines_intro; [done|]); intros w Ht Hs Hx.
  - apply always_bind; [|intros ? w' ?; by apply always_ret].
    apply GetProposerMetrics_stable; [|apply evolves_stable|done]. intros w' He. by eapply evolves_sane in He as [? _].
  - eapply always_mono; [apply boundaries_evolves; [done|apply Hs|done]|]. intros w'. apply evolves_lossy.
  - apply returns_always. eapply returns_mono; [by apply ProcessProvingRequests_returns| |done].
    intros ? w'. apply evolves_lossy.
  - apply returns_always. eapply returns_mono; [by apply ProcessWitnessgenRequests_returns|done|].
    intros e w' Hq. by apply quiet_evolves.
  - apply returns_always. eapply returns_mono; [apply DeriveAggProofs_returns; [done..|by apply Ho]|..].
    + intros ? w'. apply evolves_lossy.
    + intros e w' Hq. by apply quiet_evolves.
  - eapply always_mono; [by apply RequestQueuedProofs_evolves|]. intros w'. apply evolves_lossy.
  - apply SubmitAggProofs_stable; [apply evolves_stable|done].
Qed.

(** The loop, for any number of iterations. *)
Lemma loopL2OO_refines I n fuel cfg :
  sound_oracle I → 0 < MaxBlockRangePerSpanProof cfg < two63 → refines I (loopL2OO n fuel cfg).
Proof.
  intros HI Hstep. unfold loopL2OO, newTicker. destruct (PollInterval cfg <=? 0); [by intros w|].
  cbn [mbind prog_mbind prog_bind]. induction n as [|n IH]; cbn [loop_ticks]; [by intros w|].
  apply refines_bind.
  - apply refines_intro; [apply HI|]. intros w _ _ _. apply always_select; [apply evolves_stable|done].
  - intros []; [|by apply refines_ret].
    apply refines_bind; [by apply run_stages_refines, stages_refine|done].
Qed.

End stages.
