(* ===== verification/Correctness.v ===== *)
(** * The proof pipeline is correct

    The theorems about the main loop as a whole: the ranges to prove stay
    partitioned into live span proofs, no request is lost or comes back from a
    final status, and each stage does its part of the state machine. *)

From Stdlib Require Import ZArith Lia.
From S2P Require Import Prelude Sql ProofRequest Metrics Encoding Prog Types Script Json Spans.
From S2P Require Import Mutation Builders Db Range Partition Steps Evolve Prove Driver Pipeline.
From S2P Require Import Stages.

Section correctness.
Context `{SqlLaws, External}.
Implicit Types (w : World) (cfg : ProposerConfig).

(** C1: stage 1 ([GetRangeProofBoundaries]) keeps the partition.  Started on a
    table whose live span proofs partition the blocks [s, e), it only appends
    unrequested span proofs of [MaxBlockRangePerSpanProof] blocks each, which
    continue the partition from where it ended (from the contract's latest
    block, on an empty table) and none of which ends after the finalized head
    the node reported; when it returns no error that head is less than one span
    ahead of the new end.  On an error, of a node or of the database and at any
    point, what was appended is a part of these, and the partition still holds;
    the loop only fails to end when a block number is within one span of 2^64. *)
Theorem GetRangeProofBoundaries_partition w cfg s e :
  w_tx w = None → 0 < MaxBlockRangePerSpanProof cfg < two63 → table_inv s e (rows w) →
  let step := MaxBlockRangePerSpanProof cfg in
  wp (GetRangeProofBoundaries cfg) w (λ o w',
    match o with
    | Ok _ => ∃ b s' e' status x x', (rows w ≠ [] → b = e ∧ s' = s) ∧ starts_at w b ∧
        extended step b e' w w' ∧ table_inv s' e' (rows w') ∧
        ext_exec _ ESyncStatus x = (inr status, x') ∧
        (e' = b ∨ e' <= FinalizedL2 status) ∧ FinalizedL2 status < add64 e' step
    | Fail _ => ∃ s' e', table_inv s' e' (rows w') ∧ (rows w ≠ [] → s' = s ∧ e <= e') ∧
        (rows w' = rows w ∨ ∃ b status x x', (rows w ≠ [] → b = e) ∧ starts_at w b ∧ extended step b e' w w' ∧
           ext_exec _ ESyncStatus x = (inr status, x') ∧ (e' = b ∨ e' <= FinalizedL2 status))
    | NoFuel => rows w' = rows w ∧ ∃ b status x x', starts_at w b ∧
        ext_exec _ ESyncStatus x = (inr status, x') ∧
        (two64 <= b + step ∨ two64 <= FinalizedL2 status + step)
    | _ => False
    end).
Proof.
  intros Ht Hstep Hinv step. eapply wp_mono; [apply boundaries_wp; [done|by eapply ti_ok|done]|].
  intros [[]|er| | |] w' [Hf Ho]; try done.
  - destruct Ho as (b & e' & st & x & x' & Hs & Hext & Hx & Hle & Hlt).
    destruct (starts_inv _ _ _ _ Hinv Hs) as (s' & Hinv' & Hne).
    exists b, s', e', st, x, x'. split; [intros Hn; by destruct (Hne Hn)|]. do 2 (split; [done|]).
    split; [by eapply extended_inv|done].
  - destruct Ho as [Hr|(b & e' & st & x & x' & Hs & Hext & Hx & Hle)].
    + exists s, e. rewrite Hr. split; [done|]. split; [split; [done|lia]|by left].
    + destruct (starts_inv _ _ _ _ Hinv Hs) as (s' & Hinv' & Hne). exists s', e'.
      split; [by eapply extended_inv|]. split.
      * intros Hn. destruct (Hne Hn) as [-> ->]. split; [done|].
        destruct Hext as (new & _ & Hc & _). by eapply chain_le.
      * right. exists b, st, x, x'. split; [|done]. intros Hn. by apply Hne.
Qed.

(** C2: retrying a request keeps the partition.  When [RetryRequest] of a
    request in WITNESSGEN or PROVING returns no error, the request is FAILED,
    its blocks are covered again by new unrequested proofs of its type (its own
    range, or both halves of it when it cannot be executed or has failed
    before), every other request is as it was, and the live span proofs still
    partition the same blocks. *)
Theorem RetryRequest_partition w r status s e :
  w_tx w = None → table_inv s e (rows w) → r ∈ rows w → in_flight r →
  returns (RetryRequest (entity r) status) w
    (λ _ w', ∃ t new,
       rows w' = at_id (row_id r) (mark StatusFAILED t) (rows w) ++ new ∧
       Forall2 (entry_of (row_type r)) (replacement status (failures r (failed_at t r (rows w))) r) new ∧
       table_inv s e (rows w'))
    (λ _ w', sane (rows w') ∧ kept (rows w) (rows w')).
Proof.
  intros Ht Hinv Hin Hfl. eapply returns_mono; [apply RetryRequest_evolves; [done|by destruct Hinv|done..]|..].
  - intros _ w' (_ & (t & new & _ & Hty & Hr & Hn & Hok) & _). exists t, new. split; [done|]. split; [done|].
    rewrite Hr in Hok |- *. split; [eapply sane_replaced; [apply Hinv|done|reflexivity|done..]|].
    eapply partition_retry; eauto using in_flight_not_failed.
  - intros er w' [_ Hev]. split; [eapply evolves_sane; [exact Hev|by destruct Hinv]|].
    eapply reaches_kept; [by destruct Hinv|apply Hev].
Qed.

(** C3: polling the prover ([ProcessProvingRequests]) keeps the partition and
    the requests: without an error the blocks proven or in work are still
    partitioned into live span proofs; in any case every request is still in
    the table, the same range and type, further in its life. *)
Theorem ProcessProvingRequests_partition w cfg s e :
  w_tx w = None → table_inv s e (rows w) →
  returns (ProcessProvingRequests cfg) w
    (λ _ w', grown (rows w) s e (rows w') ∧ kept (rows w) (rows w'))
    (λ _ w', sane (rows w') ∧ kept (rows w) (rows w')).
Proof.
  intros Ht Hinv. assert (sane (rows w)) as Hs by by destruct Hinv.
  eapply returns_mono; [by apply ProcessProvingRequests_returns|..].
  - intros ? w' [_ Hev]. split; [by apply reaches_grown|by eapply reaches_kept].
  - intros er w' Hev. split; [exact (evolves_sane _ _ _ Hev Hs)|]. eapply reaches_kept; [done|apply Hev].
Qed.

(** One poll of a request in PROVING, on every answer of the server: a
    fulfilled request becomes COMPLETE with exactly the proof the server sent;
    an unfulfillable one becomes FAILED and is replaced over its own range; any
    other answer changes nothing.  No other request is touched. *)
Theorem process_proving_branches w cfg r :
  w_tx w = None → sane (rows w) → r ∈ rows w → row_status r = StatusPROVING →
  returns (process_proving cfg (entity r)) w
    (λ _ w', ∃ st, reported cfg (pr_ProverRequestID (entity r)) st ∧ touches r w w' ∧
       (FulfillmentStatus st = SP1FulfillmentStatusFulfilled →
          ∃ r', r' ∈ rows w' ∧ same_request r r' ∧ row_status r' = StatusCOMPLETE ∧
            row_proof r' = psr_Proof st ∧ length (rows w') = length (rows w)) ∧
       (FulfillmentStatus st = SP1FulfillmentStatusUnfulfillable →
          ∃ r' t new, r' ∈ rows w' ∧ same_request r r' ∧ row_status r' = StatusFAILED ∧
            rows w' = failed_at t r (rows w) ++ new ∧
            Forall2 (entry_of (row_type r)) (replacement st (failures r (failed_at t r (rows w))) r) new) ∧
       (FulfillmentStatus st ≠ SP1FulfillmentStatusFulfilled →
        FulfillmentStatus st ≠ SP1FulfillmentStatusUnfulfillable → rows w' = rows w))
    (λ _ w', kept (rows w) (rows w')).
Proof.
  intros Ht Hs Hin Hst. eapply returns_mono; [by apply process_proving_returns|..].
  2: { intros er w' Hev. eapply reaches_kept; [done|apply Hev]. }
  intros _ w' (_ & st & Hrep & Hp). exists st. split; [done|]. split; [by eapply polled_touches|].
  unfold polled in Hp. split; [|split].
  - intros E. rewrite E in Hp. simpl in Hp. destruct Hp as (_ & t & _ & Hr).
    exists (with_proof (psr_Proof st) t r). rewrite Hr. split; [by apply at_id_in|].
    unfold at_id. rewrite length_fmap. by destruct r.
  - intros E. rewrite E in Hp. simpl in Hp. destruct Hp as (t & new & _ & _ & Hr & Hn & _).
    exists (mark StatusFAILED t r), t, new. split; [|split; [done|split; [by destruct r|done]]].
    rewrite Hr. apply elem_of_app. left. by apply at_id_in.
  - intros E1 E2. apply Z.eqb_neq in E1, E2. by rewrite E1, E2 in Hp.
Qed.

(** A request in WITNESSGEN is retried exactly when its last update is more
    than [WitnessGenTimeout] seconds ago; the error of the retry, if any, is
    not reported. *)
Theorem process_witnessgen_timeout w cfg r :
  w_tx w = None → sane (rows w) → r ∈ rows w → row_status r = StatusWITNESSGEN →
  returns (process_witnessgen cfg (entity r)) w
    (λ _ w', ∃ now, is_u64 now ∧
       if add64 (u64 (row_last_updated_time r)) (WitnessGenTimeout cfg) <? now
       then retried emptyStatus r w w' ∨ rows w' = rows w ∨ ∃ rgs, retried_with emptyStatus r rgs w w'
       else rows w' = rows w)
    (λ _ _, False).
Proof.
  intros Ht Hs Hin Hst. eapply returns_mono; [by apply process_witnessgen_returns| |done].
  intros _ w' (_ & now & Hnow & Hc). by exists now.
Qed.

(** C5: the goroutine that requests a proof never panics or fails, and does one
    of these with the request, which nobody else works on.  Its first write
    failed, and the table is as it was.  Or the server took the request, which
    has the id (or, for a mock prover, the proof) the server answered.  Or
    [RequestProof] failed, with the request still in work; then it is FAILED
    and replaced over its range, unless [RetryRequest] itself returned an error,
    of the database: only then can the request be left as it was, or part of its
    range be lost.  In every case each request of the table stays, and moves on
    in its life. *)
Theorem request_task_outcomes w cfg r s e :
  w_tx w = None → table_inv s e (rows w) → r ∈ rows w → row_status r = StatusUNREQ →
  returns (request_task cfg (entity r) (entity r)) w
    (λ _ w', kept (rows w) (rows w') ∧
       (rows w' = rows w ∧ (∃ err, run (UpdateProofStatus (row_id r) StatusWITNESSGEN) w = (Fail err, w')) ∨
        grown (rows w) s e (rows w') ∧ (∃ r', r' ∈ rows w' ∧ same_request r r' ∧ accepted cfg r r') ∨
        ∃ w2 r2, refused cfg r r2 w w2 ∧
          (grown (rows w) s e (rows w') ∧ retried emptyStatus r2 w2 w' ∨
           sane (rows w') ∧ half_retried r r2 w2 w')))
    (λ _ _, False).
Proof.
  intros Ht Hinv Hin Hst. assert (sane (rows w)) as Hs by by destruct Hinv.
  eapply returns_mono; [by apply request_task_returns| |done].
  intros _ w' [[[_ Hr] He]|[[Hev Hacc]|(w2 & r2 & Href & _ & [[Hev Hre]|[Hev Hre]])]].
  - rewrite Hr. split; [by intros r' Hr'; exists r'|by left].
  - split; [eapply reaches_kept; [done|apply Hev]|]. right. left. split; [apply reaches_grown; [done|apply Hev]|done].
  - split; [eapply reaches_kept; [done|apply Hev]|]. do 2 right. exists w2, r2. split; [done|]. left.
    split; [apply reaches_grown; [done|apply Hev]|done].
  - split; [eapply reaches_kept; [done|apply Hev]|]. do 2 right. exists w2, r2. split; [done|]. right.
    split; [by eapply evolves_sane|done].
Qed.

Lemma loop_refines I n fuel cfg :
  sound_oracle I → 0 < MaxBlockRangePerSpanProof cfg < two63 → refines I (loop n fuel cfg).
Proof.
  intros HI Hstep. unfold loop. apply refines_bind.
  - destruct (WaitNodeSync cfg); [|by apply refines_ret]. apply refines_attempt, refines_intro; [apply HI|].
    intros w _ _ _. pose proof (evolves_stable true w) as HQ. unfold waitNodeSync.
    apply always_bind; [apply always_map_err; stable_call HQ|]. intros h w1 Hw1.
    apply always_bind; [apply always_ask; intros ? ?; by eapply HQ|]. intros r w2 Hw2.
    apply always_bind; [destruct r; [by apply always_raise|by apply always_ret]|]. intros _ w3 Hw3.
    apply always_bind; [apply always_ask; intros ? ?; by eapply HQ|]. intros [?|] w4 Hw4;
      [by apply always_raise|by apply always_ret].
  - intros [er|[]]; [by apply refines_ret|by apply loopL2OO_refines].
Qed.

(** C6: no request is ever lost.  However many iterations the main loop runs,
    however they end (an error of any stage, of any node or of the database),
    every request of the table stays in it with its id, type and range, its
    status only moves along UNREQ, WITNESSGEN, PROVING, COMPLETE or FAILED, a
    completed or failed request stays so, and a stored proof is not changed.
    The contract is assumed to ask for a block after its latest one. *)
Theorem loop_keeps_requests I n fuel cfg w :
  sound_oracle I → I (w_ext w) → 0 < MaxBlockRangePerSpanProof cfg < two63 →
  w_tx w = None → sane (rows w) →
  wp (loop n fuel cfg) w (λ _ w', sane (rows w') ∧ kept (rows w) (rows w')).
Proof.
  intros HI Hx Hstep Ht Hs. eapply always_mono; [by eapply (loop_refines I n fuel cfg)|].
  intros w' [Hev _]. split; [by eapply evolves_sane|]. eapply reaches_kept; [done|apply Hev].
Qed.

End correctness.

(** ** The theorems on concrete runs *)

Definition two_spans : list Row :=
  [row_at t0 1 TypeSPAN 0 40 StatusCOMPLETE; row_at t0 2 TypeSPAN 40 100 StatusUNREQ].

Lemma GetRangeProofBoundaries_partition_witness :
  let r := run (GetRangeProofBoundaries cfg0) (world two_spans (finalized 190)) in
  r.1 = Ok tt ∧ length (rows r.2) = 4%nat ∧ ∃ s' e', table_inv s' e' (rows r.2).
Proof.
  intros r. assert (r.1 = Ok tt) as Ho by (vm_compute; reflexivity).
  split; [done|]. split; [vm_compute; reflexivity|].
  pose proof (GetRangeProofBoundaries_partition (world two_spans (finalized 190)) cfg0 0 100
    eq_refl ltac:(done) ltac:(by apply table_invb_sound)) as HT.
  ran HT Ho. destruct Ho as (b & s' & e' & st & x & x' & _ & _ & _ & Hinv & _). by exists s', e'.
Defined.

(** A span proof that failed before, of 60 blocks, in PROVING again. *)
Definition retry_row : Row := row_proving t0 3 TypeSPAN 40 100 "ab".
Definition retry_table : list Row :=
  [row_at t0 1 TypeSPAN 0 40 StatusCOMPLETE; row_at t0 2 TypeSPAN 40 100 StatusFAILED; retry_row].

Lemma RetryRequest_partition_witness :
  let r := run (RetryRequest (entity retry_row) emptyStatus) (world retry_table script0) in
  r.1 = Ok tt ∧ ((λ x, (lo x, hi x)) <$> rows r.2) = [(0, 40); (40, 100); (40, 100); (40, 70); (70, 100)] ∧
  table_inv 0 100 (rows r.2).
Proof.
  intros r. assert (r.1 = Ok tt) as Ho by (vm_compute; reflexivity).
  split; [done|]. split; [vm_compute; reflexivity|].
  pose proof (RetryRequest_partition (world retry_table script0) retry_row emptyStatus 0 100 eq_refl
    ltac:(by apply table_invb_sound) ltac:(by apply list_elem_of_In; do 2 right; left) ltac:(by right)) as HT.
  ran HT Ho. by destruct Ho as (t & new & _ & _ & Hinv).
Defined.

Definition status_body (fulfillment execution : string) (proof : option bytes) : string :=
  marshal_object [("fulfillment_status"%string, fulfillment); ("execution_status"%string, execution);
                  ("proof"%string, marshal_bytes proof)].

Lemma ProcessProvingRequests_partition_witness :
  let w := world retry_table (replies [status_body "4" "3" None]) in
  let r := run (ProcessProvingRequests cfg0) w in
  r.1 = Ok tt ∧ length (rows r.2) = 5%nat ∧ grown (rows w) 0 100 (rows r.2).
Proof.
  intros w r. assert (r.1 = Ok tt) as Ho by (vm_compute; reflexivity).
  split; [done|]. split; [vm_compute; reflexivity|].
  pose proof (ProcessProvingRequests_partition w cfg0 0 100 eq_refl ltac:(by apply table_invb_sound)) as HT.
  ran HT Ho. by destruct Ho as [Hg _].
Defined.

Lemma process_proving_branches_witness :
  let w := world retry_table (replies [status_body "3" "2" (Some [Byte.x07])]) in
  let r := run (process_proving cfg0 (entity retry_row)) w in
  r.1 = Ok tt ∧ (row_proof <$> rows r.2) = [None; None; Some [Byte.x07]] ∧
  ∃ st, reported cfg0 "ab" st.
Proof.
  intros w r. assert (r.1 = Ok tt) as Ho by (vm_compute; reflexivity).
  split; [done|]. split; [vm_compute; reflexivity|].
  pose proof (process_proving_branches w cfg0 retry_row eq_refl
    ltac:(apply (ti_sane 0 100); by apply table_invb_sound)
    ltac:(by apply list_elem_of_In; do 2 right; left) eq_refl) as HT.
  ran HT Ho. destruct Ho as (st & Hrep & _). by exists st.
Defined.

Definition slow_row : Row := row_at (t0 - 30) 2 TypeSPAN 40 100 StatusWITNESSGEN.
Definition slow_table : list Row := [row_at t0 1 TypeSPAN 0 40 StatusCOMPLETE; slow_row].

Lemma process_witnessgen_timeout_witness :
  let r := run (process_witnessgen cfg0 (entity slow_row)) (world slow_table script0) in
  r.1 = Ok tt ∧ (row_status <$> rows r.2) = [StatusCOMPLETE; StatusFAILED; StatusUNREQ] ∧
  ∃ now, is_u64 now.
Proof.
  intros r. assert (r.1 = Ok tt) as Ho by (vm_compute; reflexivity).
  split; [done|]. split; [vm_compute; reflexivity|].
  pose proof (process_witnessgen_timeout (world slow_table script0) cfg0 slow_row eq_refl
    ltac:(apply (ti_sane 0 100); by apply table_invb_sound)
    ltac:(by apply list_elem_of_In; right; left) eq_refl) as HT.
  ran HT Ho. destruct Ho as (now & Hnow & _). by exists now.
Defined.

Definition queued_row : Row := row_at t0 2 TypeSPAN 40 100 StatusUNREQ.

Lemma request_task_outcomes_witness :
  let w := world two_spans (replies [marshal_object [("proof_id"%string, marshal_bytes (Some [Byte.xab]))]]) in
  let r := run (request_task cfg0 (entity queued_row) (entity queued_row)) w in
  r.1 = Ok tt ∧ (row_prover_request_id <$> rows r.2) = [None; Some "ab"%string] ∧ kept (rows w) (rows r.2).
Proof.
  intros w r. assert (r.1 = Ok tt) as Ho by (vm_compute; reflexivity).
  split; [done|]. split; [vm_compute; reflexivity|].
  pose proof (request_task_outcomes w cfg0 queued_row 0 100 eq_refl ltac:(by apply table_invb_sound)
    ltac:(by apply list_elem_of_In; right; left) eq_refl) as HT.
  ran HT Ho. by destruct Ho as [Hk _].
Defined.

(** An oracle at block 0 that asks for block 100 next. *)
Definition oracle_script (s : ScriptState) : Prop := sc_latest s = inr 0 ∧ sc_next s = inr 100.

Lemma oracle_script_sound : sound_oracle oracle_script.
Proof.
  split; [split|].
  - intros R c [? ? ? ? ? ? heads ? ? http ?] [Hl Hn]. destruct c; try done; simpl in *.
    + by destruct (sc_pop_head heads).
    + by destruct http.
  - intros [? ? ? ? ? ? ? ? ? ? ticks] [Hl Hn]. by destruct ticks.
  - intros x [Hl Hn] n x' m x'' En Em. simpl in *. rewrite Hl in En. injection En as <- <-.
    rewrite Hn in Em. by injection Em as <- <-.
Qed.

Lemma loop_keeps_requests_witness :
  let w := world retry_table (with_oracle 0 100 (finalized 190)) in
  let r := run (loop 1 1 cfg0) w in
  r.1 = NoFuel ∧ length (rows r.2) = 5%nat ∧ kept (rows w) (rows r.2).
Proof.
  intros w r. split; [vm_compute; reflexivity|]. split; [vm_compute; reflexivity|].
  apply (@loop_keeps_requests ListSql ListSql_laws ScriptExternal oracle_script 1 1 cfg0 w oracle_script_sound); [done..|].
  apply (ti_sane 0 100). by apply table_invb_sound.
Defined.
