(* ===== verification/Aggregation.v ===== *)
(** * Aggregation

    Which span proofs an aggregation proof is made of: the longest chain of
    completed proofs from the contract's block on, and that the chain found
    when the aggregation is queued is the one its proofs are taken from. *)

From Stdlib Require Import ZArith Lia.
From stdpp Require Import relations.
From S2P Require Import Prelude Sql ProofRequest Metrics Encoding Prog Types Script Json Spans.
From S2P Require Import Mutation Builders Db Range Partition Steps Evolve Prove Driver Pipeline.
From S2P Require Import Stages.

(** The completed span proofs of a table that lie within [a, b) cover it
    exactly, in the order [rs]. *)
Definition covered (tbl : list Row) (a b : Z) (rs : list Row) : Prop :=
  rs ≡ₚ filter (proven_within a b) tbl ∧ chain a rs b.

(** [b] is as far as completed span proofs lead from [a]. *)
Definition proven_up_to (tbl : list Row) (a b : Z) : Prop :=
  (∃ rs, covered tbl a b rs) ∧ ∀ r, r ∈ tbl → proven r → row_start_block r ≠ b.

Lemma proven_live r : proven r → live_span r.
Proof. intros [Ht Hs]. split; [done|]. by rewrite Hs. Qed.

(** A selection of proven rows may be made among the live ones. *)
Lemma filter_proven (P : Row → Prop) `{∀ r, Decision (P r)} (tbl : list Row) :
  (∀ r, P r → proven r) → filter P (filter live_span tbl) = filter P tbl.
Proof.
  intros HP. induction tbl as [|r tbl IH]; [done|]. rewrite !filter_cons.
  destruct (decide (live_span r)) as [Hl|Hl]; [by rewrite filter_cons, IH|].
  rewrite IH, decide_False; [done|]. intros Hr. by apply Hl, proven_live, HP.
Qed.

Lemma reach_covered s0 e0 tbl a rs :
  table_inv s0 e0 tbl → rs ≡ₚ filter (λ r, proven r ∧ a <= lo r) tbl →
  StronglySorted (le_key row_start_block) rs → proven_up_to tbl a (reach a rs).
Proof.
  intros [_ [(L & HpL & HcL) _ _]] Hp Hs. set (m := reach a rs).
  rewrite <- filter_proven in Hp by tauto.
  assert (rs ≡ₚ filter (λ r, proven r ∧ a <= lo r) L) as HpL' by by rewrite Hp, HpL.
  pose proof (sorted_filter_chain _ _ _ _ _ HcL HpL' Hs) as Hrs.
  split.
  - exists (filter (λ x, proven x ∧ a <= lo x ∧ hi x <= m) L). split.
    + rewrite HpL. rewrite filter_proven by tauto. done.
    + apply (reached_chain proven s0 e0 L a m HcL). unfold m. by rewrite Hrs at 1.
  - intros r Hr Hpr. refine (reach_tiles proven s0 e0 (filter live_span tbl) rs a _ Hp Hs r _ Hpr);
      [by exists L|]. apply list_elem_of_filter. split; [by apply proven_live|done].
Qed.

(** ** Coverage lasts *)

Lemma table_ok_NoDup tbl : table_ok tbl → NoDup tbl.
Proof. intros [_ Hnd]. by eapply NoDup_fmap_1. Qed.

Lemma kept_list tbl tbl' l :
  kept tbl tbl' → (∀ r, r ∈ l → r ∈ tbl) → ∃ l', Forall2 later l l' ∧ ∀ r', r' ∈ l' → r' ∈ tbl'.
Proof.
  intros Hk. induction l as [|r l IH]; intros Hin.
  - exists []. split; [constructor|]. by intros r' ?%elem_of_nil.
  - destruct (Hk r) as (r' & Hr' & Hl); [apply Hin, elem_of_cons; by left|].
    destruct IH as (l' & Hf & Hl'); [intros x Hx; apply Hin, elem_of_cons; by right|].
    exists (r' :: l'). split; [by constructor|]. intros x Hx. apply elem_of_cons in Hx as [->|Hx]; auto.
Qed.

Lemma later_proven r r' : later r r' → proven r → proven r' ∧ row_proof r' = row_proof r.
Proof.
  intros [(_ & Ht & _) Hs Hp] [Hty Hst]. split; [|by apply Hp]. split; [congruence|].
  apply final_stays in Hs; [congruence|]. by left.
Qed.

(** No two live span proofs overlap. *)
Definition disjoint_spans (tbl : list Row) : Prop :=
  ∀ r r', r ∈ tbl → r' ∈ tbl → live_span r → live_span r' → lo r < hi r' → lo r' < hi r → r = r'.

Lemma table_inv_disjoint s e tbl : table_inv s e tbl → disjoint_spans tbl.
Proof.
  intros [_ [(L & HpL & HcL) _ _]] r r' Hr Hr' Hl Hl' H1 H2.
  assert (r ∈ L ∧ r' ∈ L) as [Hi Hi'] by by rewrite HpL, !list_elem_of_filter.
  destruct (chain_disjoint _ _ _ _ _ HcL Hi Hi') as [->|Hd]; [done|lia].
Qed.

(** In such a table the proofs found between the ends of a chain are the chain. *)
Lemma chain_covered tbl a b rs :
  sane tbl → disjoint_spans tbl → chain a rs b → (∀ r, r ∈ rs → r ∈ tbl ∧ proven r) → covered tbl a b rs.
Proof.
  intros [Hok Hsp] Hd Hc Hin. split; [|done].
  apply NoDup_Permutation; [by eapply chain_NoDup|by apply NoDup_filter, table_ok_NoDup|].
  intros r. rewrite list_elem_of_filter. split.
  - intros Hr. destruct (Hin r Hr) as [Ht Hp]. split; [|done].
    pose proof (chain_bounds _ _ _ _ Hc Hr) as (? & _ & ?). done.
  - intros [(Hp & Ha & Hb) Ht]. pose proof Hp as [Hty _]. specialize (Hsp r Ht Hty).
    destruct (chain_point a rs b (lo r) Hc) as (y & Hy & Hlo); [lia|]. destruct (Hin y Hy) as [Hyt Hyp].
    assert (r = y) as -> by (apply Hd; [done..|by apply proven_live|by apply proven_live|lia|lia]). done.
Qed.

Lemma covered_later tbl tbl' a b rs :
  sane tbl' → disjoint_spans tbl' → kept tbl tbl' → covered tbl a b rs →
  ∃ rs', covered tbl' a b rs' ∧ row_proof <$> rs' = row_proof <$> rs.
Proof.
  intros Hs Hd Hk [Hp Hc].
  assert (∀ r, r ∈ rs → r ∈ tbl ∧ proven r) as Hin.
  { intros r Hr. rewrite Hp in Hr. apply list_elem_of_filter in Hr as [(? & _) ?]. done. }
  destruct (kept_list _ _ rs Hk) as (rs' & Hf & Hin'); [intros r Hr; by apply Hin|].
  assert (Forall2 (λ r r', proven r' ∧ row_proof r' = row_proof r) rs rs') as Hf2.
  { clear -Hf Hin. induction Hf as [|r r' rs rs' Hl _ IH]; [constructor|]. constructor.
    - eapply later_proven; [done|]. apply Hin, elem_of_cons. by left.
    - apply IH. intros x Hx. apply Hin, elem_of_cons. by right. }
  exists rs'. split.
  - apply chain_covered; [done|done| |].
    + apply (chain_Forall2 a b rs rs'); [|done]. eapply Forall2_impl; [exact Hf|].
      by intros r r' [(_ & _ & ? & ?) _ _].
    + intros r' Hr'. split; [by apply Hin'|]. apply list_elem_of_lookup in Hr' as [i Hi].
      by destruct (Forall2_lookup_r _ _ _ _ _ Hf2 Hi) as (r & _ & ? & _).
  - clear -Hf2. induction Hf2 as [|r r' rs rs' [_ Hr] _ IH]; [done|]. by rewrite !fmap_cons, IH, Hr.
Qed.

Section aggregation.
Context `{SqlLaws, External}.
Implicit Types (w : World).

(** C11: [GetMaxContiguousSpanProofRange] finds the longest chain: when the live
    span proofs partition the blocks, the completed ones between [start] and the
    block [m] it returns cover that range exactly and without overlap, and no
    completed span proof starts at [m].  The table is not changed. *)
Theorem GetMaxContiguousSpanProofRange_maximal w start s e :
  table_inv s e (rows w) →
  returns (GetMaxContiguousSpanProofRange start) w
    (λ m w', rows w' = rows w ∧ proven_up_to (rows w) start m)
    (λ _ w', rows w' = rows w).
Proof.
  intros Hinv. eapply returns_mono; [apply GetMaxContiguousSpanProofRange_returns; by eapply ti_ok|..].
  - intros m w' ([_ Hr] & rs & [Hp Hs] & ->). split; [done|]. by eapply reach_covered.
  - by intros er w' [_ Hr].
Qed.

(** C12: [TryCreateAggProofFromSpanProofs] queues an aggregation proof exactly
    when there is no unfailed one from this block and the completed span proofs
    reach the block the contract asks for; its range is then the longest that
    completed span proofs cover.  Otherwise, and on an error, the table is as
    it was. *)
Theorem TryCreateAggProof_exact w from minTo s e :
  w_tx w = None → table_inv s e (rows w) →
  returns (TryCreateAggProofFromSpanProofs from minTo) w
    (λ r w',
       match r with
       | (true, m) =>
           minTo <= m ∧ proven_up_to (rows w) from m ∧ (∀ r', r' ∈ rows w → ¬ live_agg from r') ∧
           ∃ id now, fresh (rows w) id ∧ rows w' = rows w ++ [new_row id TypeAGG from m now]
       | (false, _) =>
           rows w' = rows w ∧
           ((∃ r', r' ∈ rows w ∧ live_agg from r') ∨
            ∃ m, proven_up_to (rows w) from m ∧ m < minTo)
       end)
    (λ _ w', rows w' = rows w).
Proof.
  intros Ht Hinv. eapply returns_mono; [apply TryCreateAgg_returns; [done|by eapply ti_ok]|..].
  2: { by intros er w' [_ Hr]. }
  intros [[] m] w' [_ Hc].
  - destruct Hc as (rs & [Hp Hs] & -> & Hle & Hno & id & now & Hfr & Hid & _ & _ & _ & Hr).
    split; [done|]. split; [by eapply reach_covered|]. split; [done|]. by exists id, now.
  - destruct Hc as (_ & Hr & [Hl|(rs & [Hp Hs] & Hlt)]); (split; [done|]); [by left|]. right.
    exists (reach from rs). split; [by eapply reach_covered|done].
Qed.

(** The proofs of a covered range are found. *)
Lemma GetConsecutive_covered w a b rs :
  table_ok (rows w) → covered (rows w) a b rs →
  returns (GetConsecutiveSpanProofs a b) w
    (λ l w', rows w' = rows w ∧ l = row_proof <$> rs)
    (λ err w', rows w' = rows w ∧ ∃ e', err = wrap "failed to query span proofs: %w" (ESql e')).
Proof.
  intros Hok [Hp Hc]. assert (∀ rs', selected_asc (proven_within a b) w rs' → rs' = rs) as Hu.
  { intros rs' [Hp' Hs']. eapply (chain_of_sorted a b rs rs'); [done| |done]. by rewrite Hp', Hp. }
  eapply returns_mono; [by apply GetConsecutiveSpanProofs_returns|..].
  - intros l w' ([_ Hr] & rs' & Hsel & _ & ->). by rewrite (Hu _ Hsel).
  - intros er w' ([_ Hr] & [He|(rs' & Hsel & Hn)]); [done|]. exfalso. apply Hn. rewrite (Hu _ Hsel).
    by apply chain_linked.
Qed.

(** C13: an aggregation proof that was queued can be requested.  Once
    [TryCreateAggProofFromSpanProofs] has queued one over [from, m), then in any
    table that still has the requests, further in their lives, and in which no
    two live span proofs overlap, [GetConsecutiveSpanProofs] over this range
    finds the same proofs, in the order of their blocks: it cannot report a gap
    or an incomplete chain, only an error of the database itself.  Blocks
    elsewhere may have lost their request. *)
Theorem queued_agg_has_subproofs w w' from m :
  proven_up_to (rows w) from m →
  kept (rows w) (rows w') → sane (rows w') → disjoint_spans (rows w') →
  ∃ rs, covered (rows w) from m rs ∧
    returns (GetConsecutiveSpanProofs from m) w'
      (λ l w'', rows w'' = rows w' ∧ l = row_proof <$> rs)
      (λ err w'', rows w'' = rows w' ∧ ∃ c, err = wrap "failed to query span proofs: %w" (ESql c)).
Proof.
  intros [[rs Hcov] _] Hk Hs Hd. exists rs. split; [done|].
  destruct (covered_later (rows w) (rows w') from m rs) as (rs' & Hcov' & <-); [done..|].
  apply GetConsecutive_covered; [apply Hs|done].
Qed.

(** Linked proofs of a sane table cover the range. *)
Lemma linked_covered w start end_ rs :
  sane (rows w) → selected_asc (proven_within start end_) w rs → linked start rs end_ →
  covered (rows w) start end_ rs.
Proof.
  intros [Hok Hsp] [Hp _] Hl. split; [done|].
  assert (∀ r, r ∈ rs → lo r < hi r) as Hlt.
  { intros r Hin. rewrite Hp in Hin. apply list_elem_of_filter in Hin as [[[Hty _] _] Hin]. by apply Hsp. }
  clear Hp. revert start Hl. induction rs as [|r rs IH]; intros start Hl; [done|]. destruct Hl as [<- Hl].
  split; [done|]. split; [apply Hlt, elem_of_cons; by left|]. apply IH; [|done].
  intros x Hx. apply Hlt, elem_of_cons. by right.
Qed.

(** The proofs [GetConsecutiveSpanProofs] returns are those of completed
    span proofs that cover the range exactly, in the order of their blocks, one
    ending where the next starts; with none missing and none left over. *)
Theorem GetConsecutiveSpanProofs_sound w start end_ :
  sane (rows w) →
  returns (GetConsecutiveSpanProofs start end_) w
    (λ l w', rows w' = rows w ∧ ∃ rs, covered (rows w) start end_ rs ∧ l = row_proof <$> rs)
    (λ _ w', rows w' = rows w).
Proof.
  intros Hs. eapply returns_mono; [apply GetConsecutiveSpanProofs_returns, Hs|..].
  - intros l w' ([_ Hr] & rs & Hp & Hl & ->). split; [done|]. exists rs. split; [|done]. by apply linked_covered.
  - by intros er w' [[_ Hr] _].
Qed.

(** C15: [AddFulfilledProof] is all or nothing: it succeeds only on the one
    request with this id, in PROVING and without a proof, which becomes COMPLETE
    with the proof while every other request stays as it was; on any error,
    in the transaction or of its commit, the table is as it was.  No transaction
    stays open. *)
Theorem AddFulfilledProof_atomic w id pf :
  w_tx w = None →
  returns (AddFulfilledProof id pf) w
    (λ _ w', w_tx w' = None ∧ ∃ r t, r ∈ rows w ∧ row_id r = id ∧
       (∀ r', r' ∈ rows w → row_id r' = id → r' = r) ∧
       row_status r = StatusPROVING ∧ row_proof r = None ∧
       rows w' = at_id id (with_proof pf t) (rows w))
    (λ _ w', w_tx w' = None ∧ rows w' = rows w).
Proof.
  intros Ht. eapply returns_mono; [by apply AddFulfilledProof_returns|..].
  - intros _ w' (Hf & r & t & Hm & Hst & Hpf & _ & Hr). split; [by rewrite (frame_tx _ _ Hf)|].
    assert (∀ r', r' ∈ [r] ↔ row_id r' = id ∧ r' ∈ rows w) as Hin.
    { intros r'. rewrite <- Hm. unfold matching. rewrite list_elem_of_filter. autorewrite with sat.
      by rewrite andb_true_r, bool_decide_spec. }
    destruct (proj1 (Hin r)) as [Hid Hr0]; [by apply list_elem_of_singleton|].
    exists r, t. do 2 (split; [done|]). split; [|done]. intros r' Hr' Hid'.
    by apply list_elem_of_singleton, Hin.
  - intros er w' [Hf Hr]. split; [by rewrite (frame_tx _ _ Hf)|done].
Qed.

(** The queue: [GetNextUnrequestedProof] returns the unrequested
    aggregation proof with the lowest start block; without one, the unrequested
    span proof with the lowest start block; nothing only when no request waits. *)
Theorem GetNextUnrequestedProof_order w :
  returns GetNextUnrequestedProof w
    (λ o w', rows w' = rows w ∧
       match o with
       | Some p => ∃ r, p = entity r ∧ r ∈ rows w ∧ row_status r = StatusUNREQ ∧
           (row_type r = TypeAGG ∨
            row_type r = TypeSPAN ∧ ∀ r', r' ∈ rows w → ¬ waiting TypeAGG r') ∧
           ∀ r', r' ∈ rows w → waiting (row_type r) r' → row_start_block r <= row_start_block r'
       | None => ∀ r, r ∈ rows w → row_status r = StatusUNREQ → row_type r ≠ TypeAGG ∧ row_type r ≠ TypeSPAN
       end)
    (λ _ w', rows w' = rows w).
Proof.
  eapply returns_mono; [apply GetNextUnrequestedProof_returns| |by intros er w' [_ ?]].
  intros [p|] w' [[_ Hr] Ho]; (split; [done|]).
  - destruct Ho as (r & -> & [(Hin & [Hst Hty] & Hmin)|[(Hin & [Hst Hty] & Hmin) Hno]]); exists r;
      rewrite Hty; auto 10.
  - intros r Hin Hst. destruct (Ho r Hin) as [H1' H2']. unfold waiting in *. tauto.
Qed.

End aggregation.

(** ** The theorems on concrete runs *)

Definition chain_table : list Row :=
  [row_done t0 1 TypeSPAN 0 40 [Byte.x0a]; row_at t0 2 TypeSPAN 70 100 StatusUNREQ;
   row_done t0 3 TypeSPAN 40 70 [Byte.x0b]].

Definition chain_world : World := world chain_table script0.

Lemma chain_table_proven : proven_up_to chain_table 0 70.
Proof.
  apply (reach_covered 0 100 chain_table 0
    [row_done t0 1 TypeSPAN 0 40 [Byte.x0a]; row_done t0 3 TypeSPAN 40 70 [Byte.x0b]]).
  - by apply table_invb_sound.
  - done.
  - by repeat constructor.
Qed.

Lemma GetMaxContiguousSpanProofRange_maximal_witness :
  (run (GetMaxContiguousSpanProofRange 0) chain_world).1 = Ok 70 ∧ proven_up_to chain_table 0 70.
Proof.
  assert ((run (GetMaxContiguousSpanProofRange 0) chain_world).1 = Ok 70) as Ho by (vm_compute; reflexivity).
  split; [done|].
  pose proof (GetMaxContiguousSpanProofRange_maximal chain_world 0 0 100 ltac:(by apply table_invb_sound)) as HT.
  ran HT Ho. by destruct Ho as [_ ?].
Defined.

Lemma TryCreateAggProof_exact_witness :
  let r := run (TryCreateAggProofFromSpanProofs 0 50) chain_world in
  r.1 = Ok (true, 70) ∧ ∃ id now, rows r.2 = chain_table ++ [new_row id TypeAGG 0 70 now].
Proof.
  intros r. assert (r.1 = Ok (true, 70)) as Ho by (vm_compute; reflexivity). split; [done|].
  pose proof (TryCreateAggProof_exact chain_world 0 50 0 100 eq_refl ltac:(by apply table_invb_sound)) as HT.
  ran HT Ho. destruct Ho as (_ & _ & _ & id & now & _ & Hr). by exists id, now.
Defined.

(** The queue after the aggregation proof was added, and after the request for
    the blocks that follow has failed and its replacement was not stored. *)
Definition agg_row : Row := new_row 4 TypeAGG 0 70 t0.
Definition queued_world : World := world (chain_table ++ [agg_row]) script0.
Definition lost_row : Row := row_at t0 2 TypeSPAN 70 100 StatusWITNESSGEN.
Definition lost_world : World := world (failed_at t0 lost_row (at_id 2 (mark StatusWITNESSGEN t0) (chain_table ++ [agg_row]))) script0.

Lemma queued_lost : reaches true chain_table (rows lost_world).
Proof.
  eapply rtc_l; [apply (ts_agg _ _ 4 0 70 t0); [|done..|]|].
  - split; [done|]. intros q Hq. by repeat (apply elem_of_cons in Hq as [->|Hq]; [done|]); apply elem_of_nil in Hq.
  - exists (row_at t0 2 TypeSPAN 70 100 StatusUNREQ). split; [|done]. apply list_elem_of_In. by right; left.
  - eapply rtc_l; [apply (ts_mark _ _ (row_at t0 2 TypeSPAN 70 100 StatusUNREQ) StatusWITNESSGEN t0)|].
    + apply list_elem_of_In. by right; left.
    + by left.
    + apply rtc_once. change (rows lost_world) with (failed_at t0 lost_row (at_id 2 (mark StatusWITNESSGEN t0) (chain_table ++ [agg_row])) ++ []).
      apply (ts_lost true _ lost_row emptyStatus t0 [] []); [done| |by left|by exists (replacement emptyStatus
        (failures lost_row (failed_at t0 lost_row (at_id 2 (mark StatusWITNESSGEN t0) (chain_table ++ [agg_row])))) lost_row)|constructor|].
      * apply list_elem_of_In. by right; left.
      * apply (bool_decide_unpack _). by vm_compute.
Qed.

Lemma queued_agg_has_subproofs_witness :
  let r := run (GetConsecutiveSpanProofs 0 70) lost_world in
  (row_status <$> rows lost_world) = [StatusCOMPLETE; StatusFAILED; StatusCOMPLETE; StatusUNREQ] ∧
  r.1 = Ok [Some [Byte.x0a]; Some [Byte.x0b]] ∧
  ∃ rs, covered chain_table 0 70 rs ∧ [Some [Byte.x0a]; Some [Byte.x0b]] = row_proof <$> rs.
Proof.
  intros r. assert (r.1 = Ok [Some [Byte.x0a]; Some [Byte.x0b]]) as Ho by (vm_compute; reflexivity).
  split; [vm_compute; reflexivity|]. split; [done|].
  assert (sane chain_table) as Hs by (apply (ti_sane 0 100); by apply table_invb_sound).
  destruct (queued_agg_has_subproofs chain_world lost_world 0 70) as (rs & Hcov & HT).
  - exact chain_table_proven.
  - exact (reaches_kept _ _ _ Hs queued_lost).
  - exact (reaches_sane _ _ _ Hs queued_lost).
  - intros x y Hx Hy. change (rows lost_world) with [row_done t0 1 TypeSPAN 0 40 [Byte.x0a];
      mark StatusFAILED t0 lost_row; row_done t0 3 TypeSPAN 40 70 [Byte.x0b]; agg_row] in Hx, Hy.
    by repeat (apply elem_of_cons in Hx as [->|Hx]; [|]); repeat (apply elem_of_cons in Hy as [->|Hy]; [|]);
      try (by apply elem_of_nil in Hx); try (by apply elem_of_nil in Hy); intros [? ?] [? ?]; cbn; try done; lia.
  - ran HT Ho. destruct Ho as [_ Hl]. by exists rs.
Defined.

Lemma GetConsecutiveSpanProofs_sound_witness :
  (run (GetConsecutiveSpanProofs 0 70) chain_world).1 = Ok [Some [Byte.x0a]; Some [Byte.x0b]] ∧
  ∃ rs, covered chain_table 0 70 rs.
Proof.
  assert ((run (GetConsecutiveSpanProofs 0 70) chain_world).1 = Ok [Some [Byte.x0a]; Some [Byte.x0b]])
    as Ho by (vm_compute; reflexivity).
  split; [done|].
  pose proof (GetConsecutiveSpanProofs_sound chain_world 0 70
    ltac:(apply (ti_sane 0 100); by apply table_invb_sound)) as HT.
  ran HT Ho. destruct Ho as (_ & rs & ? & _). by exists rs.
Defined.

Definition proving_table : list Row := [row_proving t0 1 TypeSPAN 0 40 "ab"; row_at t0 2 TypeSPAN 40 80 StatusUNREQ].

Lemma AddFulfilledProof_atomic_witness :
  let r := run (AddFulfilledProof 1 (Some [Byte.x07])) (world proving_table script0) in
  r.1 = Ok tt ∧ (row_status <$> rows r.2) = [StatusCOMPLETE; StatusUNREQ] ∧ w_tx r.2 = None.
Proof.
  intros r. assert (r.1 = Ok tt) as Ho by (vm_compute; reflexivity).
  split; [done|]. split; [vm_compute; reflexivity|].
  pose proof (AddFulfilledProof_atomic (world proving_table script0) 1 (Some [Byte.x07]) eq_refl) as HT.
  ran HT Ho. by destruct Ho as [? _].
Defined.

Lemma GetNextUnrequestedProof_order_witness :
  (run GetNextUnrequestedProof queued_world).1 = Ok (Some (entity agg_row)) ∧
  ∃ r, entity agg_row = entity r ∧ r ∈ chain_table ++ [agg_row] ∧ row_status r = StatusUNREQ.
Proof.
  assert ((run GetNextUnrequestedProof queued_world).1 = Ok (Some (entity agg_row))) as Ho by (vm_compute; reflexivity).
  split; [exact Ho|]. pose proof (GetNextUnrequestedProof_order queued_world) as HT.
  ran HT Ho. destruct Ho as [_ (r & Hr & Hin & Hst & _)]. by exists r.
Defined.
