(* ===== verification/Submission.v ===== *)
(** * Submission

    What the proposer sends to L1, and when: the transaction of a proposal, the
    wait before it, the choice of the proof that is proposed, the checkpoint an
    aggregation proof is made against, and which requests are started. *)

From Stdlib Require Import ZArith Lia.
From S2P Require Import Prelude Sql ProofRequest Metrics Encoding Prog Types Script Json Spans.
From S2P Require Import Mutation Builders Db Range Partition Steps Evolve Prove Driver Pipeline.
From S2P Require Import Stages.

Section submission.
Context `{SqlLaws, External}.
Implicit Types (w : World) (cfg : ProposerConfig).

(** ** What a run sends *)

(** Between [w] and [w'] the process sent [evs] and changed nothing of the
    database, its life cycle or its goroutines. *)
Definition emitted (evs : list Event) w w' : Prop :=
  still w w' ∧ w_tasks w' = w_tasks w ∧ w_trace w' = w_trace w ++ evs.

Lemma quiet_emitted w w' : quiet w w' → emitted [] w w'.
Proof.
  intros Hq. split; [by apply quiet_still|]. destruct Hq as [(_ & _ & _ & _ & _ & -> & ->) _].
  by rewrite app_nil_r.
Qed.

Lemma emitted_trans e1 e2 w1 w2 w3 : emitted e1 w1 w2 → emitted e2 w2 w3 → emitted (e1 ++ e2) w1 w3.
Proof.
  intros (S1 & T1 & R1) (S2 & T2 & R2). split; [by etrans|]. split; [congruence|].
  by rewrite R2, R1, app_assoc.
Qed.

Lemma emitted_quiet evs w1 w2 w3 : quiet w1 w2 → emitted evs w2 w3 → emitted evs w1 w3.
Proof. intros Hq. apply (emitted_trans [] evs). by apply quiet_emitted. Qed.

(** Sequencing for outcomes other than a value or an error too. *)
Lemma wp_seq {A B} (f : A → prog B) (p : prog A) w (Q : outcome B → World → Prop) :
  wp p w (λ o w', match o with
                  | Ok a => wp (f a) w' Q
                  | Fail e => Q (Fail e) w'
                  | Panicked m => Q (Panicked m) w'
                  | NoFuel => Q NoFuel w'
                  | Blocked => Q Blocked w'
                  end) → wp (p ≫= f) w Q.
Proof. unfold wp. rewrite run_bind. by destruct (run p w) as [[] w']. Qed.

Lemma wp_map_err {A} f (p : prog A) w (Q : outcome A → World → Prop) :
  wp p w (λ o w', match o with Fail e => Q (Fail (f e)) w' | _ => Q o w' end) → wp (map_err f p) w Q.
Proof. unfold wp. rewrite run_map_err. by destruct (run p w) as [[] w']. Qed.

Lemma send_returns c w :
  returns (call (ETxSend c)) w (λ _ w', emitted [EvTx c] w w') (λ _ w', emitted [EvTx c] w w').
Proof.
  unfold call. eapply (returns_bind _ _ _ (λ _ w', emitted [EvTx c] w w') (λ _ _, False)); [|..|done].
  - apply returns_ask. intros r w' Hs Ht. split; [split; [by apply same_proc_calm|by apply same_proc_rows]|].
    split; [apply Hs|done].
  - intros [e|rc] w' He; [by apply returns_raise|by apply returns_ret].
Qed.

(** ** Waiting for the L1 head *)

Lemma select_quiet w (Q : bool → World → Prop) :
  (∀ b w', quiet w w' → w_driver w' = w_driver w → Q b w') → returns (proc PSelectTick) w Q (λ _ _, False).
Proof.
  intros HQ. unfold returns, wp. rewrite run_proc. simpl. destruct (done_closed (w_driver w)).
  - destruct (ext_select (w_ext w)) as [b x]. simpl. apply HQ; by destruct w.
  - simpl. by apply HQ.
Qed.

(** The L1 head was seen after block [n]. *)
Definition head_passed (n : Z) : Prop :=
  ∃ h x x', ext_exec _ ETxBlockNumber x = (inr h, x') ∧ n < h.

Definition waited (n : Z) w (o : outcome unit) w' : Prop :=
  quiet w w' ∧ match o with Ok _ => head_passed n | Fail _ | NoFuel => True | _ => False end.

(** What a ticker of the configured interval refuses. *)
Definition no_ticker cfg : Prop := PollInterval cfg <= 0.

Lemma wait_wp fuel n h w w0 :
  quiet w0 w → (∃ x x', ext_exec _ ETxBlockNumber x = (inr h, x')) →
  wp (wait_l1_head fuel n h) w (waited n w0).
Proof.
  revert h w. induction fuel as [|fuel IH]; intros h w Hq (x & x' & Hx); cbn [wait_l1_head];
    destruct (Z.leb_spec h n) as [Hle|Hgt].
  - by split.
  - split; [done|]. by exists h, x, x'.
  - eapply wp_bind; [apply (select_quiet w (λ _ w', quiet w0 w'))|..|done].
    { intros b w1 Hq1 _. by etrans. }
    intros [] w1 Hq1; [|by split].
    eapply wp_bind; [apply (returns_call ETxBlockNumber w1
      (λ h' w', quiet w0 w' ∧ ∃ x x', ext_exec _ ETxBlockNumber x = (inr h', x')) (λ _ w', quiet w0 w'))|..].
    + done.
    + intros h' w2 Hq2 Hx2. split; [by etrans|by eexists _, _].
    + intros e w2 Hq2. by etrans.
    + intros h' w2 [Hq2 Hx2]. by apply IH.
    + intros e w2 Hq2. by split.
  - split; [done|]. by exists h, x, x'.
Qed.

Lemma waitForL1Head_wp fuel cfg n w :
  wp (waitForL1Head fuel cfg n) w (λ o w', match o with Panicked _ => no_ticker cfg ∧ w' = w | _ => waited n w o w' end).
Proof.
  unfold waitForL1Head, newTicker, no_ticker. destruct (Z.leb_spec (PollInterval cfg) 0); [done|].
  apply (wp_mono _ _ (waited n w)); [|by intros [] w' []]. cbn [mbind prog_mbind prog_bind]. eapply wp_bind; [apply (returns_call ETxBlockNumber w
    (λ h w', quiet w w' ∧ ∃ x x', ext_exec _ ETxBlockNumber x = (inr h, x')) (λ _ w', quiet w w'))|..].
  - done.
  - intros h w1 Hq Hx. split; [done|by eexists _, _].
  - done.
  - intros h w1 [Hq Hx]. by apply wait_wp.
  - intros e w1 Hq. by split.
Qed.

(** ** The transaction of a proposal *)

(** The transaction that proposes [output]: to the dispute game factory with its
    bond when one is configured, to the output oracle otherwise. *)
Definition proposal cfg (output : OutputResponse) (pf : option bytes) (l1 : Z) (c : TxCandidate) : Prop :=
  match DisputeGameFactoryAddr cfg with
  | Some dgf => ∃ data bond, ProposeL2OutputDGFTxData cfg output pf l1 = inr data ∧
                             c = mkTxCandidate data (Some dgf) 0 (Some bond)
  | None => ∃ data, ProposeL2OutputTxData output pf l1 = inr data ∧
                    c = mkTxCandidate data (L2OutputOracleAddr cfg) 0 None
  end.

(** Nothing was sent, or the one transaction of the proposal, after the L1 head
    had passed the block after the one [output] was derived at. *)
Definition proposed cfg (output : OutputResponse) (pf : option bytes) (l1 : Z) w w' : Prop :=
  ∃ c, emitted [EvTx c] w w' ∧ proposal cfg output pf l1 c ∧
    head_passed (add64 (HeadL1 (OutputStatus output)) 1).

Definition send_outcome cfg output pf l1 w (o : outcome unit) w' : Prop :=
  match o with
  | Ok _ => proposed cfg output pf l1 w w'
  | Fail _ => emitted [] w w' ∨ proposed cfg output pf l1 w w'
  | NoFuel => emitted [] w w'
  | Panicked _ => no_ticker cfg ∧ emitted [] w w'
  | Blocked => False
  end.

Lemma tx_tail_wp cfg output pf l1 w w1 c :
  emitted [] w w1 → proposal cfg output pf l1 c → head_passed (add64 (HeadL1 (OutputStatus output)) 1) →
  wp (_ ← call (ETxSend c); Ret tt) w1 (send_outcome cfg output pf l1 w).
Proof.
  intros He Hp Hh. eapply wp_bind; [apply send_returns|..].
  - intros rc w2 He2. apply wp_ret. exists c. split; [by apply (emitted_trans [] [EvTx c] w w1)|done].
  - intros e w2 He2. right. exists c. split; [by apply (emitted_trans [] [EvTx c] w w1)|done].
Qed.

Lemma sendTransaction_wp fuel cfg output pf l1 w :
  wp (sendTransaction fuel cfg output pf l1) w (send_outcome cfg output pf l1 w).
Proof.
  unfold sendTransaction. apply wp_seq. eapply wp_mono; [apply waitForL1Head_wp|].
  intros [[]|e|m| |] w1; [|intros [Hq _]; left; by apply quiet_emitted
    |intros [Hn ->]; split; [done|by apply quiet_emitted]|intros [Hq _]; by apply quiet_emitted|by intros [_ []]].
  intros [Hq Hh].
  destruct (DisputeGameFactoryAddr cfg) as [dgf|] eqn:Hdgf.
  - eapply (wp_bind _ _ _ (λ _, quiet w) (λ _, quiet w)); [| |intros e w2 Hq2; left; by apply quiet_emitted].
    { unfold GetBondAmount. eapply (returns_bind _ _ _ (λ _, quiet w) (λ _, quiet w)); [by apply returns_lift; case_match| |done].
      intros d w2 Hq2. eapply (returns_bind _ _ _ (λ _, quiet w) (λ _, quiet w)); [|by intros; apply returns_ret|done].
      apply returns_call; [done|..]; intros; by etrans. }
    intros bond w2 Hq2. destruct (ProposeL2OutputDGFTxData cfg output pf l1) as [e|data] eqn:Hd;
      [left; by apply quiet_emitted|]. cbn [lift mbind prog_mbind prog_bind].
    eapply tx_tail_wp; [by apply quiet_emitted| |done]. unfold proposal. rewrite Hdgf. by exists data, bond.
  - destruct (ProposeL2OutputTxData output pf l1) as [e|data] eqn:Hd;
      [left; by apply quiet_emitted|]. cbn [lift mbind prog_mbind prog_bind].
    eapply tx_tail_wp; [by apply quiet_emitted| |done]. unfold proposal. rewrite Hdgf. by exists data.
Qed.

Lemma proposed_quiet cfg output pf l1 w w1 w' :
  quiet w w1 → proposed cfg output pf l1 w1 w' → proposed cfg output pf l1 w w'.
Proof. intros Hq (c & He & Hp). exists c. split; [by eapply emitted_quiet|done]. Qed.

Lemma proposeOutput_wp fuel cfg output pf l1 w :
  wp (proposeOutput fuel cfg output pf l1) w (send_outcome cfg output pf l1 w).
Proof.
  unfold proposeOutput.
  eapply (wp_bind _ _ _ (λ _, quiet w) (λ _, quiet w)); [by apply returns_call| |intros e w' Hq; left; by apply quiet_emitted].
  intros _ w1 Hq. apply wp_seq. eapply wp_mono; [apply sendTransaction_wp|].
  intros [[]|e|m| |] w2 Ho; simpl in Ho; try done.
  - apply (proposed_quiet _ _ _ _ w w1); [done|]. destruct Ho as (c & He & Hc). exists c.
    split; [|done]. unfold emitted, still, calm in *. by destruct w2.
  - destruct Ho as [Ho|Ho]; [left; by eapply emitted_quiet|right; by eapply proposed_quiet].
  - destruct Ho as [Hn Ho]. split; [done|by eapply emitted_quiet].
  - by eapply emitted_quiet.
Qed.

(** ** Which proof is proposed *)

Lemma FetchOutput_returns n w :
  returns (FetchOutput n) w
    (λ o w', quiet w w' ∧ Version o = supportedL2OutputVersion ∧ BlockRef_Number o = n ∧
       ∃ x x', ext_exec _ (EOutputAtBlock n) x = (inr o, x'))
    (unchanged w).
Proof.
  unfold FetchOutput, rollup_client.
  eapply (returns_bind _ _ _ (λ _, quiet w) (unchanged w)); [|..|done].
  { eapply (returns_bind _ _ _ (λ _ w', quiet w w') (λ _ _, False)); [|..|done].
    - apply returns_ask. intros r w' Hs Ht. rewrite app_nil_r in Ht.
      split; [by apply same_proc_frame|by apply same_proc_rows].
    - intros [e|] w' Hq; [by apply returns_raise|by apply returns_ret]. }
  intros _ w1 Hq1.
  eapply (returns_bind _ _ _ (λ o w', quiet w w' ∧ ∃ x x', ext_exec _ (EOutputAtBlock n) x = (inr o, x'))
    (unchanged w)); [|..|done].
  { apply returns_map_err, returns_call; [done|..].
    - intros o w2 Hq2 Hx. split; [by etrans|by eexists _, _].
    - intros e w2 Hq2. exact (transitivity Hq1 Hq2). }
  intros o w2 (Hq2 & Hx).
  destruct (Z.eqb_spec (Version o) supportedL2OutputVersion); cbn [negb]; [|by apply returns_raise].
  destruct (Z.eqb_spec (BlockRef_Number o) n); cbn [negb]; [|by apply returns_raise].
  by apply returns_ret.
Qed.

#[local] Instance end_block_desc_total : Total end_block_desc.
Proof. intros a b. unfold end_block_desc. lia. Qed.
#[local] Instance end_block_desc_trans : Transitive end_block_desc.
Proof. intros a b c. unfold end_block_desc. lia. Qed.

Lemma sort_by_end_perm order l : sort_by_end order l ≡ₚ l.
Proof. unfold sort_by_end. by rewrite merge_sort_Permutation, shuffle_Permutation. Qed.

Lemma sort_by_end_head order l p ps :
  sort_by_end order l = p :: ps → p ∈ l ∧ ∀ p', p' ∈ l → pr_EndBlock p' <= pr_EndBlock p.
Proof.
  intros Hs. pose proof (sort_by_end_perm order l) as Hp.
  assert (StronglySorted end_block_desc (p :: ps)) as Hss.
  { rewrite <- Hs. apply Sorted_StronglySorted; [apply _|]. apply Sorted_merge_sort, _. }
  rewrite Hs in Hp. split; [rewrite <- Hp; apply elem_of_cons; by left|].
  intros p' Hp'. rewrite <- Hp in Hp'. apply StronglySorted_inv in Hss as [_ Hall].
  apply elem_of_cons in Hp' as [->|Hp']; [lia|]. eapply Forall_forall in Hall; [|done]. exact Hall.
Qed.

(** The contract's latest block was [n]. *)
Definition latest_block (n : Z) : Prop := ∃ x x', ext_exec _ ELatestBlockNumber x = (inr n, x').

(** [r] is the completed aggregation proof from block [b] that reaches furthest. *)
Definition furthest (tbl : list Row) (b : Z) (r : Row) : Prop :=
  r ∈ tbl ∧ completed_agg b r ∧ ∀ r', r' ∈ tbl → completed_agg b r' → row_end_block r' <= row_end_block r.

Lemma selected_furthest w b order l p ps :
  table_ok (rows w) → selected (completed_agg b) w l → sort_by_end order l = p :: ps →
  ∃ r, p = entity r ∧ furthest (rows w) b r ∧ row_ok r.
Proof.
  intros Hok (rs & Hp & ->) Hs. destruct (sort_by_end_head _ _ _ _ Hs) as [Hin Hmax].
  apply list_elem_of_fmap in Hin as (r & -> & Hin). exists r. split; [done|].
  assert (∀ r, r ∈ rs ↔ completed_agg b r ∧ r ∈ rows w) as Hrs.
  { intros r'. rewrite Hp. apply list_elem_of_filter. }
  apply Hrs in Hin as [Hc Hin]. assert (row_ok r) as Hro by by eapply table_row_ok.
  split; [|done]. split; [done|]. split; [done|].
  intros r' Hin' Hc'. assert (row_ok r') as Hro' by by eapply table_row_ok.
  rewrite <- (entity_end r), <- (entity_end r') by done. apply Hmax. apply list_elem_of_fmap_2, Hrs. done.
Qed.

Lemma selected_none (P : Row → Prop) `{∀ r, Decision (P r)} w :
  selected P w [] → ∀ r, r ∈ rows w → ¬ P r.
Proof.
  intros (rs & Hp & Hl) r Hin HP. symmetry in Hl. apply fmap_nil_inv in Hl as ->.
  assert (r ∈ filter P (rows w)) as Hx by by apply list_elem_of_filter.
  rewrite <- Hp in Hx. by apply elem_of_nil in Hx.
Qed.

(** C16: [SubmitAggProofs] proposes the completed aggregation proof that starts
    at the contract's latest block and reaches furthest, with the output of its
    end block (of the supported version), its stored proof and its checkpointed
    L1 block, in exactly one transaction, once the L1 head has passed the block
    the output depends on.  It returns without a transaction only when no such
    proof is complete, or with an error.  The table is not changed, and it
    panics, with nothing sent, only on a poll interval that is not positive. *)
Theorem SubmitAggProofs_furthest fuel cfg w :
  table_ok (rows w) →
  wp (SubmitAggProofs fuel cfg) w (λ o w',
    let submitted := ∃ n r output, latest_block n ∧ furthest (rows w) (u64 n) r ∧
      Version output = supportedL2OutputVersion ∧ BlockRef_Number output = row_end_block r ∧
      proposed cfg output (row_proof r) (pr_L1BlockNumber (entity r)) w w' in
    match o with
    | Ok _ => submitted ∨
        emitted [] w w' ∧ ∃ n, latest_block n ∧ ∀ r, r ∈ rows w → ¬ completed_agg (u64 n) r
    | Fail _ => submitted ∨ emitted [] w w'
    | NoFuel => emitted [] w w'
    | Panicked _ => PollInterval cfg <= 0 ∧ emitted [] w w'
    | Blocked => False
    end).
Proof.
  intros Hok. unfold SubmitAggProofs.
  eapply (wp_bind _ _ _ (λ n w', quiet w w' ∧ latest_block n) (λ _, quiet w));
    [| |intros e w' Hq; right; by apply quiet_emitted].
  { apply returns_map_err, returns_call; [done|..]; [|done]. intros n w1 Hq Hx. split; [done|by eexists _, _]. }
  intros n w1 [Hq1 Hn].
  eapply (wp_bind _ _ _ (λ l w', quiet w w' ∧ selected (completed_agg (u64 n)) w l) (λ _, quiet w));
    [| |intros e w' Hq; right; by apply quiet_emitted].
  { apply returns_map_err. eapply returns_mono; [apply GetAllCompletedAggProofs_returns|..].
    - intros l w2 [Hq2 Hl]. split; [exact (transitivity Hq1 Hq2)|]. unfold selected in *. by rewrite (proj2 Hq1) in Hl.
    - intros e w2 Hq2. exact (transitivity Hq1 Hq2). }
  intros l w2 [Hq2 Hl]. case_bool_decide as Hnil.
  { apply wp_ret. right. split; [by apply quiet_emitted|]. exists n. split; [done|]. subst l.
    by apply (selected_none (completed_agg (u64 n))). }
  eapply (wp_bind _ _ _ (λ _, quiet w) (λ _ _, False)); [|..|done].
  { apply returns_ask. intros r w' Hs Ht. rewrite app_nil_r in Ht. etrans; [exact Hq2|].
    split; [by apply same_proc_frame|by apply same_proc_rows]. }
  intros order w3 Hq3. destruct (sort_by_end order l) as [|p ps] eqn:Hs.
  { exfalso. apply Hnil. pose proof (sort_by_end_perm order l) as Hp. rewrite Hs in Hp.
    by apply Permutation_nil_l in Hp. }
  destruct (selected_furthest _ _ _ _ _ _ Hok Hl Hs) as (r & -> & Hfar & Hro). rewrite entity_end by done.
  eapply (wp_bind _ _ _ (λ o w', quiet w w' ∧ Version o = supportedL2OutputVersion ∧ BlockRef_Number o = row_end_block r)
    (λ _, quiet w)); [| |intros e w' Hq; right; by apply quiet_emitted].
  { apply returns_map_err. eapply returns_mono; [apply FetchOutput_returns|..].
    - intros o w4 (Hq4 & ? & ? & _). split; [exact (transitivity Hq3 Hq4)|done].
    - intros e w4 Hq4. exact (transitivity Hq3 Hq4). }
  intros output w4 (Hq4 & Hv & Hb). apply wp_map_err. eapply wp_mono; [apply proposeOutput_wp|].
  intros [[]|e|m| |] w5 Ho; simpl in Ho; try done.
  - left. exists n, r, output. do 4 (split; [done|]). by eapply proposed_quiet.
  - destruct Ho as [Ho|Ho]; [right; by eapply emitted_quiet|]. left. exists n, r, output.
    do 4 (split; [done|]). by eapply proposed_quiet.
  - destruct Ho as [Hnt Ho]. split; [done|by eapply emitted_quiet].
  - by eapply emitted_quiet.
Qed.

(** ** Waiting ends *)

(** Asked for the L1 head again and again, the node answers, and after at most
    [k] answers not after [n] comes one that is. *)
Fixpoint heads_reach (k : nat) (n : Z) (x : ext) : Prop :=
  match ext_exec _ ETxBlockNumber x with
  | (inl _, _) => False
  | (inr h, x') => n < h ∨ match k with O => False | S k' => heads_reach k' n x' end
  end.

(** [waitForL1Head] returns: when the poll interval is positive, the proposer is not stopped and the L1
    head passes the block after [k] more polls, that many ticks are enough. *)
Theorem waitForL1Head_terminates k fuel cfg n w :
  0 < PollInterval cfg → done_closed (w_driver w) = false → heads_reach k n (w_ext w) → (k <= fuel)%nat →
  (run (waitForL1Head fuel cfg n) w).1 = Ok tt.
Proof.
  intros Hpi Hd. unfold waitForL1Head, newTicker, call. rewrite (proj2 (Z.leb_gt _ _) Hpi).
  cbn [mbind prog_mbind prog_bind]. revert fuel w Hd. induction k as [|k IH]; intros fuel w Hd Hh Hf.
  - rewrite !run_bind, run_ask. cbn [run_then]. unfold exec_ext. cbn [heads_reach] in Hh.
    destruct (ext_exec _ ETxBlockNumber (w_ext w)) as [[e|h] x]; [done|]. destruct Hh as [Hlt|[]].
    cbn [lift fst snd run run_then]. destruct fuel; cbn [wait_l1_head]; by rewrite (proj2 (Z.leb_gt h n) Hlt).
  - destruct fuel as [|fuel]; [lia|].
    rewrite !run_bind, run_ask. cbn [run_then]. unfold exec_ext. cbn [heads_reach] in Hh.
    destruct (ext_exec _ ETxBlockNumber (w_ext w)) as [[e|h] x]; [done|].
    cbn [lift fst snd run run_then wait_l1_head].
    destruct (Z.leb_spec h n) as [Hle|Hgt]; [|done]. destruct Hh as [Hlt|Hh]; [lia|].
    rewrite run_bind, run_proc. cbn [exec_proc].
    set (w1 := with_trace _ (with_ext x w)). assert (w_driver w1 = w_driver w) as Hw1 by (by destruct w).
    rewrite Hw1, Hd. cbn [run_then]. apply IH; [by rewrite Hw1| |lia]. unfold w1. by destruct w.
Qed.

(** ** The L1 block of an aggregation proof *)

(** The process sent [evs]; the database may have changed. *)
Definition sends (evs : list Event) w w' : Prop :=
  calm w w' ∧ w_tasks w' = w_tasks w ∧ w_trace w' = w_trace w ++ evs.

Lemma emitted_sends evs w w' : emitted evs w w' → sends evs w w'.
Proof. intros ([? _] & ? & ?). done. Qed.

Lemma frame_sends w w' : frame w w' → sends [] w w'.
Proof.
  intros Hf. split; [by apply frame_calm|]. destruct Hf as (_ & _ & _ & _ & _ & -> & ->). by rewrite app_nil_r.
Qed.

Lemma sends_trans e1 e2 w1 w2 w3 : sends e1 w1 w2 → sends e2 w2 w3 → sends (e1 ++ e2) w1 w3.
Proof.
  intros (S1 & T1 & R1) (S2 & T2 & R2). split; [by etrans|]. split; [congruence|]. by rewrite R2, R1, app_assoc.
Qed.

(** The transaction that checkpoints the block of [hd]. *)
Definition checkpoint_tx cfg (hd : Header) (c : TxCandidate) : Prop :=
  ∃ data, CheckpointBlockHashTxData (Header_Number hd) = inr data ∧
          c = mkTxCandidate data (L2OutputOracleAddr cfg) 0 None.

(** [hd] is the header of the block before the L1 head. *)
Definition parent_of_head (hd : Header) : Prop :=
  ∃ cur x x' y y', ext_exec _ EL1BlockNumber x = (inr cur, x') ∧
    ext_exec _ (EL1HeaderByNumber (sub64 cur 1)) y = (inr hd, y').

Lemma checkpointBlockHash_returns cfg w :
  returns (checkpointBlockHash cfg) w
    (λ b w', ∃ hd c, parent_of_head hd ∧ checkpoint_tx cfg hd c ∧ emitted [EvTx c] w w' ∧
       b = (u64 (Header_Number hd), Header_Hash hd))
    (λ _ w', ∃ evs, emitted evs w w' ∧ (length evs <= 1)%nat).
Proof.
  unfold checkpointBlockHash.
  assert (∀ w', quiet w w' → ∃ evs, emitted evs w w' ∧ (length evs <= 1)%nat) as Herr.
  { intros w' Hq. exists []. split; [by apply quiet_emitted|simpl; lia]. }
  eapply (returns_bind _ _ _ (λ cur w', quiet w w' ∧ ∃ x x', ext_exec _ EL1BlockNumber x = (inr cur, x'))
    (λ _, quiet w)); [|..|intros e w'; apply Herr].
  { apply returns_call; [done|..]; [|done]. intros cur w1 Hq Hx. split; [done|by eexists _, _]. }
  intros cur w1 (Hq1 & x & x' & Hx).
  eapply (returns_bind _ _ _ (λ hd w', quiet w w' ∧ parent_of_head hd) (λ _, quiet w)); [|..|intros e w'; apply Herr].
  { apply returns_call; [done|..].
    - intros hd w2 Hq2 Hy. split; [by etrans|by exists cur, x, x', (w_ext w1), (w_ext w2)].
    - intros e w2 Hq2. exact (transitivity Hq1 Hq2). }
  intros hd w2 [Hq2 Hp]. destruct (CheckpointBlockHashTxData (Header_Number hd)) as [e|data] eqn:Hd.
  { apply returns_raise. by apply Herr. }
  cbn [lift mbind prog_mbind prog_bind].
  eapply returns_bind; [apply send_returns|..].
  - intros rc w3 He. apply returns_ret. eexists hd, _. split; [done|]. split; [by exists data|].
    split; [by eapply emitted_quiet|done].
  - intros e w3 He. eexists. split; [exact (emitted_quiet _ _ _ _ Hq2 He)|]. simpl. lia.
Qed.

Lemma Hash_Hex_nonempty h : Hash_Hex h ≠ ""%string.
Proof. done. Qed.

(** A failed request over the same range left its checkpoint. *)
Definition checkpointed (s e : Z) (r : Row) : Prop :=
  over_range TypeAGG s e StatusFAILED r ∧ pr_L1BlockHash (entity r) ≠ ""%string.

(** The queued request [r] has got the L1 block [n], [h], in the table and in
    [p'], the request that is made; it is the only one over its range. *)
Definition given_l1 (r : Row) (n : Z) (h : string) (p' : ProofRequest) w w' : Prop :=
  ∃ t, filter (unrequested_agg (row_start_block r) (row_end_block r)) (rows w) = [r] ∧
    rows w' = l1_info_added (row_start_block r) (row_end_block r) n h t (rows w) ∧
    p' = entity (with_l1_info n h t r).

Lemma given_l1_hash r n h p' w w' : given_l1 r n h p' w w' → pr_L1BlockHash p' = h.
Proof. intros (t & _ & _ & ->). by destruct r. Qed.

Lemma AddL1BlockInfo_gives r n h w :
  w_tx w = None → r ∈ rows w → waiting TypeAGG r →
  returns (AddL1BlockInfoToAggRequest (row_start_block r) (row_end_block r) n h) w
    (λ p' w', frame w w' ∧ given_l1 r n h p' w w') (λ _ w', frame w w').
Proof.
  intros Ht Hin [Hst Hty]. eapply returns_mono; [by apply AddL1BlockInfo_returns|..].
  - intros p' w' (Hf & r' & t & Hl & _ & Hr & ->). split; [done|].
    assert (r ∈ filter (unrequested_agg (row_start_block r) (row_end_block r)) (rows w)) as Hr'
      by by rewrite list_elem_of_filter.
    rewrite Hl in Hr'. apply list_elem_of_singleton in Hr' as <-. by exists t.
  - intros er w' [? _]. done.
Qed.

(** The L1 block of the queued request [r]: that of an earlier one over the
    range that failed, or a new checkpoint. *)
Definition l1_chosen cfg (r : Row) (p' : ProofRequest) w w' : Prop :=
  let s := row_start_block r in
  let e := row_end_block r in
  (∃ q, q ∈ rows w ∧ checkpointed s e q ∧ sends [] w w' ∧
     given_l1 r (pr_L1BlockNumber (entity q)) (pr_L1BlockHash (entity q)) p' w w') ∨
  (∀ q, q ∈ rows w → ¬ checkpointed s e q) ∧
  ∃ hd c, parent_of_head hd ∧ checkpoint_tx cfg hd c ∧ sends [EvTx c] w w' ∧
    given_l1 r (u64 (Header_Number hd)) (Hash_Hex (Header_Hash hd)) p' w w'.

Lemma given_l1_quiet r n h p' w w1 w' :
  rows w1 = rows w → given_l1 r n h p' w1 w' → given_l1 r n h p' w w'.
Proof. unfold given_l1. by intros ->. Qed.

Lemma add_l1_info_returns cfg r w :
  w_tx w = None → table_ok (rows w) → r ∈ rows w → waiting TypeAGG r → pr_L1BlockHash (entity r) = ""%string →
  returns (add_l1_info cfg (entity r)) w
    (λ p' w', pr_L1BlockHash p' ≠ ""%string ∧ l1_chosen cfg r p' w w')
    (λ _ w', ∃ evs, sends evs w w' ∧ (length evs <= 1)%nat).
Proof.
  intros Ht Hok Hrin Hwt Hp. assert (row_ok r) as Hro by by eapply table_row_ok.
  unfold add_l1_info. rewrite entity_start, entity_end by done.
  eapply returns_bind; [apply GetProofRequestsWithBlockRangeAndStatus_returns| |].
  2: { intros e w' [Hf _]. exists []. split; [by apply frame_sends|simpl; lia]. }
  intros l w1 ([Hf1 Hr1] & rs & Hrs & ->). rewrite <- (frame_tx _ _ Hf1) in Ht.
  assert (∀ q, q ∈ rs ↔ over_range TypeAGG (row_start_block r) (row_end_block r) StatusFAILED q ∧ q ∈ rows w) as Hin.
  { intros q. rewrite Hrs. apply list_elem_of_filter. }
  destruct (list_find _ (entity <$> rs)) as [[i pf]|] eqn:Hfind.
  - apply list_find_Some in Hfind as (Hi & Hh & _). rewrite list_lookup_fmap in Hi.
    destruct (rs !! i) as [q|] eqn:Hi'; [injection Hi as <-|done]. apply list_elem_of_lookup_2, Hin in Hi' as [Hov Hq].
    eapply returns_bind; [apply AddL1BlockInfo_gives; [done|by rewrite Hr1|done]| |].
    2: { intros e w' Hf. exists []. split; [apply frame_sends; by etrans|simpl; lia]. }
    intros p' w2 [Hf2 Hl1]. pose proof (given_l1_hash _ _ _ _ _ _ Hl1) as Hph.
    rewrite bool_decide_eq_false_2 by (rewrite Hph; done).
    apply returns_ret. split; [rewrite Hph; done|]. left. exists q. split; [done|]. split; [done|].
    split; [apply frame_sends; by etrans|by eapply given_l1_quiet].
  - apply list_find_None in Hfind. cbn [mbind prog_mbind prog_bind]. rewrite bool_decide_eq_true_2 by done.
    assert (∀ q, q ∈ rows w → ¬ checkpointed (row_start_block r) (row_end_block r) q) as Hno.
    { intros q Hq [Hov Hh]. eapply Forall_forall in Hfind; [by apply Hfind|].
      apply list_elem_of_fmap_2. by apply Hin. }
    eapply returns_bind; [apply checkpointBlockHash_returns| |].
    2: { intros e w' (evs & He & Hlen). exists evs. split; [|done].
         apply (sends_trans [] evs w w1); [by apply frame_sends|by apply emitted_sends]. }
    intros b w2 (hd & c & Hpar & Htx & He & ->). assert (sends [EvTx c] w w2) as Hs2.
    { apply (sends_trans [] [EvTx c] w w1); [by apply frame_sends|by apply emitted_sends]. }
    destruct He as [[(_ & _ & Htx2 & _) Hr2] _]. rewrite entity_start, entity_end by done.
    eapply returns_mono; [apply AddL1BlockInfo_gives; [by rewrite Htx2|by rewrite Hr2, Hr1|done]|..].
    + intros p' w3 [Hf3 Hl1]. assert (sends [EvTx c] w w3) as Hs3.
      { apply (sends_trans [EvTx c] [] w w2); [done|by apply frame_sends]. }
      split; [rewrite (given_l1_hash _ _ _ _ _ _ Hl1); by apply Hash_Hex_nonempty|]. right. split; [done|].
      exists hd, c. do 3 (split; [done|]). eapply given_l1_quiet; [|exact Hl1]. by rewrite Hr2.
    + intros e w3 Hf3. exists [EvTx c]. split; [|simpl; lia].
      apply (sends_trans [EvTx c] [] w w2); [done|by apply frame_sends].
Qed.

(** ** Starting requests *)

(** The number of requests with a status. *)
Definition in_status (st : string) (tbl : list Row) : Z :=
  Z.of_nat (length (filter (λ r, row_status r = st) tbl)).

(** [p] is the waiting request [r], which may have got its L1 block just now. *)
Definition made_from (r : Row) (p : ProofRequest) : Prop :=
  p = entity r ∨ ∃ n h t, p = entity (with_l1_info n h t r).

(** Fewer requests generate witnesses, and are being worked on, than the caps. *)
Definition caps_leave_room cfg (tbl : list Row) : Prop :=
  in_status StatusWITNESSGEN tbl < i64 (MaxConcurrentWitnessGen cfg) ∧
  i64 (in_status StatusWITNESSGEN tbl + in_status StatusPROVING tbl) < i64 (MaxConcurrentProofRequests cfg).

(** The request [p] that is started: the first aggregation proof in the queue,
    with its L1 block, or the first span proof while both caps leave room. *)
Definition may_start cfg (tbl : list Row) (p : ProofRequest) : Prop :=
  (∃ r, first_waiting TypeAGG tbl r ∧ made_from r p ∧ pr_L1BlockHash p ≠ ""%string) ∨
  ∃ r, p = entity r ∧ first_waiting TypeSPAN tbl r ∧ (∀ r', r' ∈ tbl → ¬ waiting TypeAGG r') ∧
    caps_leave_room cfg tbl.

(** Why nothing is started: nothing waits, or only span proofs, and a cap is
    reached. *)
Definition must_wait cfg (tbl : list Row) : Prop :=
  (∀ r, r ∈ tbl → ¬ waiting TypeAGG r) ∧
  ((∀ r, r ∈ tbl → ¬ waiting TypeSPAN r) ∨ ¬ caps_leave_room cfg tbl).

Lemma spawn_returns t w (P : unit → World → Prop) E :
  (∀ w', calm w w' → w_tasks w' = w_tasks w ++ [t] → P tt w') → returns (proc (PSpawn t)) w P E.
Proof. intros HP. apply HP; by destruct w. Qed.

Lemma quiet_tasks w w' : quiet w w' → w_tasks w' = w_tasks w.
Proof. by intros [(_ & _ & _ & _ & _ & ? & _) _]. Qed.

Lemma count_returns st w w0 :
  quiet w0 w →
  returns (GetNumberOfRequestsWithStatuses [st]) w
    (λ n w', quiet w0 w' ∧ n = in_status st (rows w0)) (λ _ w', quiet w0 w').
Proof.
  intros Hq. eapply returns_mono; [apply GetNumberOfRequestsWithStatuses_returns|..].
  - intros n w' [Hq' ->]. split; [by etrans|]. unfold in_status. by rewrite (proj2 Hq).
  - intros e w' Hq'. exact (transitivity Hq Hq').
Qed.

(** C18: one iteration starts at most one request: the first unrequested
    aggregation proof (with an L1 block, checkpointed before if need be) or, only
    when there is none, the first unrequested span proof, and that only while
    fewer than [MaxConcurrentWitnessGen] requests generate witnesses and fewer
    than [MaxConcurrentProofRequests] are being worked on.  Without an error
    nothing is started only when no request waits, or no aggregation proof and a
    cap is reached; on an error nothing is started. *)
Theorem RequestQueuedProofs_caps cfg w :
  w_tx w = None → table_ok (rows w) →
  returns (RequestQueuedProofs cfg) w
    (λ _ w', w_tasks w' = w_tasks w ∧ must_wait cfg (rows w) ∨
       ∃ p, w_tasks w' = w_tasks w ++ [TaskRequest p p] ∧ may_start cfg (rows w) p)
    (λ _ w', w_tasks w' = w_tasks w).
Proof.
  intros Ht Hok. unfold RequestQueuedProofs.
  eapply (returns_bind _ _ _ _ (unchanged w));
    [apply returns_map_err, GetNextUnrequestedProof_returns| |by intros e w' Hq; apply quiet_tasks].
  intros [p|] w1 [Hq1 Ho].
  2: { apply returns_ret. left. split; [by apply quiet_tasks|].
       split; [by intros r Hr; apply Ho|left; by intros r Hr; apply Ho]. }
  destruct Ho as (r & -> & Hr). change (pr_Type (entity r)) with (row_type r).
  case_bool_decide as Hty.
  - destruct Hr as [Hfw|[(_ & [_ Hspan] & _) _]]; [|by rewrite Hty in Hspan]. pose proof Hfw as (Hin & Hwt & _).
    eapply (returns_bind _ _ _ (λ p w', w_tasks w' = w_tasks w ∧ made_from r p ∧ pr_L1BlockHash p ≠ ""%string)
      (λ _ w', w_tasks w' = w_tasks w)); [|..|done].
    + case_bool_decide as Hh; [|apply returns_ret; split; [by apply quiet_tasks|split; [by left|done]]].
      eapply returns_mono; [apply add_l1_info_returns; [by rewrite (frame_tx _ _ (proj1 Hq1))|by rewrite (proj2 Hq1)|
        by rewrite (proj2 Hq1)|done|done]|..].
      * intros p' w2 [Hne Hl1]. rewrite <- (quiet_tasks _ _ Hq1).
        destruct Hl1 as [(q & _ & _ & (_ & Hts & _) & t & _ & _ & Hp)|(_ & hd & c & _ & _ & (_ & Hts & _) & t & _ & _ & Hp)];
          (split; [done|]); (split; [|done]); right; by eexists _, _, t.
      * intros e w2 (evs & (_ & Hts & _) & _). by rewrite Hts, (quiet_tasks _ _ Hq1).
    + intros p w2 (Hts & Hm & Hh). apply spawn_returns. intros w3 _ Hts3. right. exists p.
      split; [by rewrite Hts3, Hts|]. left. by exists r.
  - destruct Hr as [(_ & [_ Hagg] & _)|[Hfw Hno]]; [by rewrite Hagg in Hty|].
    eapply returns_bind; [by apply returns_wrap, count_returns| |by intros e w' Hq; apply quiet_tasks].
    intros wg w2 [Hq2 ->].
    eapply returns_bind; [by apply returns_wrap, count_returns| |by intros e w' Hq; apply quiet_tasks].
    intros pv w3 [Hq3 ->].
    destruct (Z.leb_spec (i64 (MaxConcurrentWitnessGen cfg)) (in_status StatusWITNESSGEN (rows w))) as [?|Hwg].
    { apply returns_ret. left. split; [by apply quiet_tasks|]. split; [done|right]. unfold caps_leave_room. lia. }
    destruct (Z.leb_spec (i64 (MaxConcurrentProofRequests cfg))
      (i64 (in_status StatusWITNESSGEN (rows w) + in_status StatusPROVING (rows w)))) as [?|Hpv].
    { apply returns_ret. left. split; [by apply quiet_tasks|]. split; [done|right]. unfold caps_leave_room. lia. }
    apply spawn_returns. intros w4 _ Hts. right. exists (entity r).
    split; [by rewrite Hts, (quiet_tasks _ _ Hq3)|]. right. by exists r.
Qed.

(** C17: the checkpoint of a queued aggregation proof is made once.  When an
    earlier request over the same range failed after its L1 block was
    checkpointed, that block is used again and nothing is sent; otherwise exactly
    one transaction checkpoints the parent of the L1 head.  Either way the queued
    request itself is given that block, in the table and in what is handed on,
    and has a block hash. *)
Theorem add_l1_info_checkpoints cfg r w :
  w_tx w = None → table_ok (rows w) → r ∈ rows w → waiting TypeAGG r → pr_L1BlockHash (entity r) = ""%string →
  returns (add_l1_info cfg (entity r)) w
    (λ p' w', pr_L1BlockHash p' ≠ ""%string ∧ l1_chosen cfg r p' w w')
    (λ _ w', ∃ evs, sends evs w w' ∧ (length evs <= 1)%nat).
Proof. intros. by apply add_l1_info_returns. Qed.

(** ** The next output of the oracle *)

Lemma rollup_client_quiet w w0 :
  quiet w0 w → returns rollup_client w (λ _ w', quiet w0 w') (λ _ w', quiet w0 w').
Proof.
  intros Hq. eapply (returns_bind _ _ _ (λ _ w', quiet w0 w') (λ _ _, False)); [|..|done].
  - apply returns_ask. intros r w' Hs Ht. rewrite app_nil_r in Ht. etrans; [exact Hq|].
    split; [by apply same_proc_frame|by apply same_proc_rows].
  - intros [e|] w' Hq'; [by apply returns_raise|by apply returns_ret].
Qed.

(** The head a proposal may refer to. *)
Definition proposable cfg (st : SyncStatus) : Z :=
  if AllowNonFinalized cfg then SafeL2 st else FinalizedL2 st.

Lemma FetchCurrentBlockNumber_returns cfg w w0 :
  quiet w0 w →
  returns (FetchCurrentBlockNumber cfg) w
    (λ n w', quiet w0 w' ∧ ∃ st x x', ext_exec _ ESyncStatus x = (inr st, x') ∧ n = proposable cfg st)
    (λ _ w', quiet w0 w').
Proof.
  intros Hq. unfold FetchCurrentBlockNumber, sync_status.
  eapply (returns_bind _ _ _ (λ st w', quiet w0 w' ∧ ∃ x x', ext_exec _ ESyncStatus x = (inr st, x'))
    (λ _ w', quiet w0 w')); [|..|done].
  - eapply returns_bind; [by apply rollup_client_quiet| |done]. intros ? w1 Hq1. cbv beta in Hq1.
    apply returns_map_err, returns_call; [done|..].
    + intros st w2 Hq2 Hx. split; [by etrans|by eexists _, _].
    + intros e w2 Hq2. exact (transitivity Hq1 Hq2).
  - intros st w1 (Hq1 & x & x' & Hx). unfold proposable.
    destruct (AllowNonFinalized cfg) eqn:Ha; apply returns_ret; (split; [done|]); exists st, x, x'; by rewrite ?Ha.
Qed.

(** [FetchL2OOOutput] says that an output should be proposed only for the
    output of the block the oracle asks for, of the supported version, and only
    when that block is finalized on L2, or at least safe where the configuration
    allows it; it returns no output at all only when the chain has not got that
    far.  It sends nothing. *)
Theorem FetchL2OOOutput_decision cfg w :
  returns (FetchL2OOOutput cfg (Some tt)) w
    (λ r w', emitted [] w w' ∧ ∃ next x x', ext_exec _ ENextBlockNumber x = (inr next, x') ∧
       match r with
       | (Some o, propose) =>
           BlockRef_Number o = u64 next ∧ Version o = supportedL2OutputVersion ∧
           (propose = true ↔
            u64 next <= FinalizedL2 (OutputStatus o) ∨
            AllowNonFinalized cfg = true ∧ u64 next <= SafeL2 (OutputStatus o))
       | (None, propose) =>
           propose = false ∧ ∃ st y y', ext_exec _ ESyncStatus y = (inr st, y') ∧ proposable cfg st < u64 next
       end)
    (λ _ w', emitted [] w w').
Proof.
  unfold FetchL2OOOutput.
  eapply (returns_bind _ _ _ (λ n w', quiet w w' ∧ ∃ x x', ext_exec _ ENextBlockNumber x = (inr n, x'))
    (λ _, quiet w)); [|..|intros e w' Hq; by apply quiet_emitted].
  { apply returns_map_err, returns_call; [done|..]; [|done]. intros n w1 Hq Hx. split; [done|by eexists _, _]. }
  intros next w1 (Hq1 & x & x' & Hx).
  eapply returns_bind; [by apply FetchCurrentBlockNumber_returns| |intros e w' Hq; by apply quiet_emitted].
  intros cur w2 (Hq2 & st & y & y' & Hy & ->).
  destruct (Z.ltb_spec (proposable cfg st) (u64 next)) as [Hlt|Hge].
  { apply returns_ret. split; [by apply quiet_emitted|]. exists next, x, x'. split; [done|]. split; [done|]. by exists st, y, y'. }
  eapply (returns_bind _ _ _ _ (unchanged w2));
    [apply returns_map_err, FetchOutput_returns| |intros e w' Hq; apply quiet_emitted; by etrans].
  intros o w3 (Hq3 & Hv & Hb & _).
  assert (emitted [] w w3) as He by (apply quiet_emitted; by etrans). unfold not_ready. rewrite Hb.
  destruct (Z.ltb_spec (FinalizedL2 (OutputStatus o)) (u64 next)) as [Hf|Hf]; cbn [andb].
  - destruct (AllowNonFinalized cfg); cbn [negb orb].
    + destruct (Z.ltb_spec (SafeL2 (OutputStatus o)) (u64 next)) as [Hs|Hs];
        apply returns_ret; (split; [done|]); exists next, x, x'; do 3 (split; [done|]); split; intros; try done.
      * lia.
      * by right.
    + apply returns_ret. split; [done|]. exists next, x, x'. do 3 (split; [done|]). split; [done|].
      intros [?|[? _]]; [lia|done].
  - apply returns_ret. split; [done|]. exists next, x, x'. do 3 (split; [done|]). split; [by left|done].
Qed.

End submission.

(** ** The theorems on concrete runs *)

(** Two aggregation proofs from block 0 are complete; the second goes further. *)
Definition agg_done (id e l1 : Z) (pf : bytes) : Row :=
  mkRow id TypeAGG 0 e StatusCOMPLETE t0 None None t0 (Some l1) (Some "0xaa"%string) (Some pf).
Definition agg_table : list Row := [agg_done 1 70 8 [Byte.x01]; agg_done 2 90 9 [Byte.x02]].

Definition l1_at (heads : list Z) : ScriptState := with_l1_heads heads script0.

Lemma SubmitAggProofs_furthest_witness :
  let r := run (SubmitAggProofs 5 cfg0) (world agg_table (l1_at [0; 1; 2])) in
  r.1 = Ok tt ∧ length (w_trace r.2) = 1%nat ∧ still (world agg_table (l1_at [0; 1; 2])) r.2.
Proof.
  intros r. assert (r.1 = Ok tt) as Ho by (vm_compute; reflexivity).
  split; [done|]. split; [vm_compute; reflexivity|].
  pose proof (SubmitAggProofs_furthest 5 cfg0 (world agg_table (l1_at [0; 1; 2]))
    ltac:(by apply (bool_decide_unpack (table_ok agg_table)))) as HT.
  ran HT Ho. destruct Ho as [(n & q & o & _ & _ & _ & _ & c & [? _] & _)|[[? _] _]]; done.
Defined.

Lemma waitForL1Head_terminates_witness :
  heads_reach 2 1 (w_ext (world [] (l1_at [0; 1; 2]))) ∧
  (run (waitForL1Head 5 cfg0 1) (world [] (l1_at [0; 1; 2]))).1 = Ok tt.
Proof.
  assert (heads_reach 2 1 (w_ext (world [] (l1_at [0; 1; 2])))) as Hh by (right; right; by left).
  split; [done|]. apply (waitForL1Head_terminates 2 5 cfg0 1); [done|done|done|lia].
Defined.

Definition failed_agg : Row :=
  mkRow 1 TypeAGG 0 70 StatusFAILED t0 None None t0 (Some 8) (Some "0xaa"%string) None.
Definition waiting_agg : Row := row_at t0 2 TypeAGG 0 70 StatusUNREQ.
Definition agg_queue : list Row := [failed_agg; waiting_agg].

Lemma RequestQueuedProofs_caps_witness :
  let r := run (RequestQueuedProofs cfg0) (world agg_queue script0) in
  r.1 = Ok tt ∧ length (w_tasks r.2) = 1%nat ∧ w_trace r.2 = [] ∧
  ∃ p, w_tasks r.2 = [TaskRequest p p] ∧ may_start cfg0 agg_queue p.
Proof.
  intros r. assert (r.1 = Ok tt) as Ho by (vm_compute; reflexivity).
  split; [done|]. split; [vm_compute; reflexivity|]. split; [vm_compute; reflexivity|].
  pose proof (RequestQueuedProofs_caps cfg0 (world agg_queue script0) eq_refl
    ltac:(by apply (bool_decide_unpack (table_ok agg_queue)))) as HT.
  ran HT Ho. destruct Ho as [[Ho _]|Ho]; [exfalso|exact Ho].
  apply (f_equal length) in Ho. vm_compute in Ho. done.
Defined.

Lemma add_l1_info_checkpoints_witness :
  let r := run (add_l1_info cfg0 (entity waiting_agg)) (world agg_queue script0) in
  (∃ p, r.1 = Ok p ∧ pr_ID p = 2 ∧ pr_L1BlockHash p = "0xaa"%string ∧
     l1_chosen cfg0 waiting_agg p (world agg_queue script0) r.2) ∧
  w_trace r.2 = [].
Proof.
  intros r. split; [|vm_compute; reflexivity].
  pose proof (add_l1_info_checkpoints cfg0 waiting_agg (world agg_queue script0) eq_refl
    ltac:(by apply (bool_decide_unpack (table_ok agg_queue)))
    ltac:(by apply list_elem_of_In; right; left) ltac:(done) eq_refl) as HT.
  assert (r.1 = Ok (entity (with_l1_info 8 "0xaa" t0 waiting_agg))) as Ho by (vm_compute; reflexivity).
  eexists. split; [exact Ho|]. split; [done|]. split; [done|]. ran HT Ho. by destruct Ho as [_ ?].
Defined.

Definition with_output f s := let 'mkScript a b c d _ g h i j k l := s in mkScript a b c d f g h i j k l.

(** The oracle asks for block 100; 190 is finalized. *)
Definition ready : ScriptState :=
  with_oracle 0 100 (with_output (λ n, inr (mkOutputResponse 0 7 n 0 (mkSyncStatus 0 190 190 190))) (finalized 190)).

Lemma FetchL2OOOutput_decision_witness :
  ∃ o, (run (FetchL2OOOutput cfg0 (Some tt)) (world [] ready)).1 = Ok (Some o, true) ∧
    BlockRef_Number o = 100 ∧
    (100 <= FinalizedL2 (OutputStatus o) ∨ AllowNonFinalized cfg0 = true ∧ 100 <= SafeL2 (OutputStatus o)).
Proof.
  eexists.
  assert ((run (FetchL2OOOutput cfg0 (Some tt)) (world [] ready)).1 = Ok (Some _, true)) as Ho by (vm_compute; reflexivity).
  split; [exact Ho|]. split; [done|].
  pose proof (FetchL2OOOutput_decision cfg0 (world [] ready)) as HT. ran HT Ho.
  destruct Ho as (_ & next & x & x' & _ & Hn & _ & Hp). rewrite <- Hn in Hp. by apply Hp.
Defined.
