(* ===== verification/Lifecycle.v ===== *)
(** * Life cycle

    Starting and stopping the submitter: what a start recovers, what a stop
    leaves, and what happens when the two are repeated; and the validation of
    the server's configuration that a start waits for. *)

From Stdlib Require Import ZArith Lia.
From stdpp Require Import relations.
From S2P Require Import Prelude Sql ProofRequest Metrics Encoding Prog Types Script Json Spans.
From S2P Require Import Mutation Builders Db Range Partition Steps Evolve Prove Driver Pipeline.
From S2P Require Import Stages.

(** The HTTP requests and the time slept in a trace. *)
Fixpoint http_count (evs : list Event) : Z :=
  match evs with
  | [] => 0
  | EvHttp _ :: evs' => 1 + http_count evs'
  | _ :: evs' => http_count evs'
  end.

Fixpoint slept (evs : list Event) : Z :=
  match evs with
  | [] => 0
  | EvSleep ns :: evs' => ns + slept evs'
  | _ :: evs' => slept evs'
  end.

Lemma http_count_app e1 e2 : http_count (e1 ++ e2) = http_count e1 + http_count e2.
Proof. induction e1 as [|[] e1 IH]; simpl; lia. Qed.

Lemma slept_app e1 e2 : slept (e1 ++ e2) = slept e1 + slept e2.
Proof. induction e1 as [|[] e1 IH]; simpl; lia. Qed.

Section lifecycle.
Context `{SqlLaws, External}.
Implicit Types (w : World) (cfg : ProposerConfig).

(** ** Validating the configuration *)

(** The run between [w] and [w'] made at most [k] HTTP requests and slept at
    most [t]; nothing else of the process changed. *)
Definition patient (k t : Z) w w' : Prop :=
  still w w' ∧ w_tasks w' = w_tasks w ∧
  ∃ evs, w_trace w' = w_trace w ++ evs ∧ http_count evs <= k ∧ slept evs <= t.

Lemma patient_refl w : patient 0 0 w w.
Proof. split; [done|]. split; [done|]. exists []. by rewrite app_nil_r. Qed.

Lemma patient_trans k1 t1 k2 t2 w1 w2 w3 :
  patient k1 t1 w1 w2 → patient k2 t2 w2 w3 → patient (k1 + k2) (t1 + t2) w1 w3.
Proof.
  intros (S1 & T1 & e1 & R1 & H1' & L1) (S2 & T2 & e2 & R2 & H2' & L2).
  split; [by etrans|]. split; [congruence|]. exists (e1 ++ e2).
  rewrite R2, R1, app_assoc, http_count_app, slept_app. split; [done|]. lia.
Qed.

Lemma patient_weaken k t k' t' w w' : k <= k' → t <= t' → patient k t w w' → patient k' t' w w'.
Proof.
  intros Hk Ht (Hs & Hts & evs & Hr & ? & ?). split; [done|]. split; [done|]. exists evs. split; [done|]. lia.
Qed.

Lemma ask_patient {R} (c : ExtCmd R) k t w (P : R → World → Prop) E :
  http_count (event_of c) <= k → slept (event_of c) <= t →
  (∀ r w', patient k t w w' → ext_exec _ c (w_ext w) = (r, w_ext w') → P r w') →
  returns (ask c) w P E.
Proof.
  intros Hk Ht HP. unfold returns, wp. rewrite run_ask. simpl.
  pose proof (exec_ext_same c w) as Hs. pose proof (exec_ext_trace c w) as Htr. apply HP.
  - split; [apply exec_ext_still|]. split; [apply Hs|]. by exists (event_of c).
  - unfold exec_ext. destruct (ext_exec _ c (w_ext w)). by destruct w.
Qed.

(** [resp] came from the server as the answer to [req]. *)
Definition response_to (req : HttpRequest) (resp : HttpResponse) : Prop :=
  ∃ drained x x', ext_exec _ (EHttp req) x = ((inr resp, drained), x').

Lemma http_do_patient req d w :
  returns (http_do req d) w
    (λ r w', patient 1 0 w w' ∧ match fst r with inr resp => response_to req resp | inl _ => True end)
    (λ _ _, False).
Proof.
  unfold http_do. destruct (d && _).
  - eapply (returns_bind _ _ _ (λ _ w', patient 0 0 w w') (λ _ _, False)); [by apply (ask_patient _ 0 0)| |done].
    intros [e|[]] w1 Hp1; [apply returns_ret; split; [|done]; eapply patient_weaken; [| |exact Hp1]; lia|].
    apply (ask_patient _ 1 0); [done|done|]. intros [[e|resp] b] w2 Hp2 Hx.
    + split; [by apply (patient_trans 0 0 1 0 w w1)|done].
    + split; [by apply (patient_trans 0 0 1 0 w w1)|by exists b, (w_ext w1), (w_ext w2)].
  - apply (ask_patient _ 1 0); [done|done|]. intros [[e|resp] b] w2 Hp2 Hx; (split; [done|]); [done|].
    by exists b, (w_ext w), (w_ext w2).
Qed.

(** What [n + 1] attempts with pauses from [b] on may do. *)
Definition attempts_ok (n : nat) (b : Z) (req : HttpRequest) (p : prog HttpResponse) w : Prop :=
  returns p w
    (λ resp w', patient (Z.of_nat n + 1) (b * (2 ^ Z.of_nat n - 1)) w w' ∧ StatusCode resp = StatusOK ∧
       response_to req resp)
    (λ _ w', patient (Z.of_nat n + 1) (b * (2 ^ Z.of_nat n - 1)) w w').

(** A failed attempt, a pause, and the rest. *)
Lemma again_returns n b req w w1 (p : prog HttpResponse) :
  0 <= b → patient 1 0 w w1 → (∀ w', attempts_ok n (2 * b) req p w') →
  returns (_ ← ask (ESleep b); p) w1
    (λ resp w', patient (Z.of_nat (S n) + 1) (b * (2 ^ Z.of_nat (S n) - 1)) w w' ∧
       StatusCode resp = StatusOK ∧ response_to req resp)
    (λ _ w', patient (Z.of_nat (S n) + 1) (b * (2 ^ Z.of_nat (S n) - 1)) w w').
Proof.
  intros Hb Hp Hk. rewrite Nat2Z.inj_succ, Z.pow_succ_r by lia. pose proof (Z.pow_pos_nonneg 2 (Z.of_nat n)).
  eapply (returns_bind _ _ _ (λ _ w', patient 0 b w1 w') (λ _ _, False)); [| |done].
  { apply (ask_patient (ESleep b) 0 b); [done|simpl; lia|by intros]. }
  intros _ w2 Hp2. pose proof (patient_trans 1 0 0 b _ _ _ Hp Hp2) as Hp12.
  assert (∀ w', patient (Z.of_nat n + 1) (2 * b * (2 ^ Z.of_nat n - 1)) w2 w' →
    patient (Z.succ (Z.of_nat n) + 1) (b * (2 * 2 ^ Z.of_nat n - 1)) w w') as Hall.
  { intros w' Hp'. eapply patient_weaken; [| |exact (patient_trans _ _ _ _ _ _ _ Hp12 Hp')]; nia. }
  eapply returns_mono; [apply Hk|..].
  - intros resp w' [Hp' ?]. auto.
  - intros e w' Hp'. by apply Hall.
Qed.

(** At most [n + 1] attempts; the pauses double. *)
Lemma validate_attempts_returns n b d req w :
  0 <= b → attempts_ok n b req (validate_attempts n b d req) w.
Proof.
  unfold attempts_ok. revert b d w. induction n as [|n IH]; intros b d w Hb; cbn [validate_attempts].
  - eapply returns_bind; [apply http_do_patient| |done].
    intros [[e|resp] dr] w1 [Hp Hr]; cbn [fst snd] in *;
      (assert (patient 1 (b * (2 ^ 0 - 1)) w w1) as Hp' by (eapply patient_weaken; [| |exact Hp]; lia)).
    + destruct (is_timeout e); by apply returns_raise.
    + destruct (Z.eqb_spec (StatusCode resp) StatusOK); [by apply returns_ret|by apply returns_raise].
  - eapply returns_bind; [apply http_do_patient| |done].
    intros [[e|resp] dr] w1 [Hp Hr]; cbn [fst snd] in *; [apply (again_returns n b req w); [done|done|]; intros w'; apply IH; lia|].
    destruct (Z.eqb_spec (StatusCode resp) StatusOK); [|apply (again_returns n b req w); [done|done|]; intros w'; apply IH; lia].
    apply returns_ret. split; [|done]. eapply patient_weaken; [| |exact Hp]; [lia|].
    pose proof (Z.pow_pos_nonneg 2 (Z.of_nat (S n))). nia.
Qed.

Definition validate_http cfg (address : string) : HttpRequest :=
  mkHttpRequest "POST" (OPSuccinctServerUrl cfg ++ "/validate_config")
    (Some (marshal_ValidateConfigRequest (mkValidateConfigRequest address)))
    (Some "application/json"%string) PROOF_STATUS_TIMEOUT.

(** The server confirmed the configuration of the contract. *)
Definition validated cfg (address : string) : Prop :=
  ∃ body r, response_to (validate_http cfg address) (mkHttpResponse StatusOK (inr body)) ∧
    unmarshal_ValidateConfigResponse body = inr r ∧
    RollupConfigHashValid r = true ∧ AggVkeyValid r = true ∧ RangeVkeyValid r = true.

Lemma invalid_configs_nil r :
  invalid_configs r = [] →
  RollupConfigHashValid r = true ∧ AggVkeyValid r = true ∧ RangeVkeyValid r = true.
Proof. unfold invalid_configs. by destruct (RollupConfigHashValid r), (AggVkeyValid r), (RangeVkeyValid r). Qed.

Lemma ValidateConfig_returns cfg address w :
  returns (ValidateConfig cfg address) w
    (λ _ w', patient 5 (15 * second) w w' ∧ validated cfg address)
    (λ _ w', patient 5 (15 * second) w w').
Proof.
  unfold ValidateConfig.
  eapply (returns_bind _ _ _ (λ _ w', w' = w) (λ _ w', w' = w)).
  { by apply check_url_returns. }
  2: { intros e w' ->. eapply patient_weaken; [| |apply patient_refl]; unfold second; lia. }
  intros _ w1 ->. eapply returns_bind; [apply (validate_attempts_returns 4 second false); unfold second; lia| |done].
  intros [code rb] w2 (Hp & Hc & Hr). simpl in Hc. subst code. change (patient 5 (15 * second) w w2) in Hp.
  cbn [rs_body]. destruct rb as [e|body]; [by apply returns_raise|]. cbn [lift map_err mbind prog_mbind prog_bind].
  destruct (unmarshal_ValidateConfigResponse body) as [e|r] eqn:Hu; [by apply returns_raise|].
  cbn [lift map_err mbind prog_mbind prog_bind].
  destruct (invalid_configs r) as [|c l] eqn:Hi; [|by apply returns_raise].
  apply returns_ret. split; [done|]. exists body, r. split; [done|]. split; [done|]. by apply invalid_configs_nil.
Qed.

(** C19: [ValidateConfig] accepts only a configuration the server confirmed in
    all three parts (rollup config hash, aggregation and range verification
    keys), in a 200 response to the request for this address; it makes at most
    five attempts, pauses at most 15 seconds in all, and always returns. *)
Theorem ValidateConfig_sound cfg address w :
  returns (ValidateConfig cfg address) w
    (λ _ w', validated cfg address ∧ rows w' = rows w ∧
       ∃ evs, w_trace w' = w_trace w ++ evs ∧ http_count evs <= 5 ∧ slept evs <= 15 * second)
    (λ _ w', rows w' = rows w ∧
       ∃ evs, w_trace w' = w_trace w ++ evs ∧ http_count evs <= 5 ∧ slept evs <= 15 * second).
Proof.
  eapply returns_mono; [apply ValidateConfig_returns|..].
  - intros _ w' ([[_ Hr] (_ & He)] & Hv). done.
  - intros e w' [[_ Hr] (_ & He)]. done.
Qed.

(** Every connection is a new one. *)
Definition fresh_connections : Prop := ∀ x, ∃ e, (ext_exec _ EReusedConn x).1 = inl e.

Lemma drained_fails n b req w :
  fresh_connections → default EmptyString (rq_body req) ≠ EmptyString →
  returns (validate_attempts n b true req) w (λ _ _, False) (λ _ w', rows w' = rows w).
Proof.
  intros Hfc Hne. revert b w. induction n as [|n IH]; intros b w; cbn [validate_attempts];
    (eapply (returns_bind _ _ _ (λ r w', rows w' = rows w ∧ ∃ e, fst r = inl e) (λ _ _, False)); [| |done]).
  1, 3: unfold http_do; rewrite bool_decide_eq_true_2 by done; cbn [andb];
    (eapply (returns_bind _ _ _ (λ r w', rows w' = rows w ∧ ∃ e, r = inl e) (λ _ _, False)); [| |done];
     [apply (ask_patient _ 0 0); [done|done|]; intros r w1 [[_ Hr] _] Hx; split; [done|];
      destruct (Hfc (w_ext w)) as [e He]; rewrite Hx in He; by exists e
     |intros r w1 [Hr [e ->]]; apply returns_ret; split; [done|by exists e]]).
  - intros [r d] w1 [Hr [e He]]. cbn [fst] in *. subst r. destruct (is_timeout e); by apply returns_raise.
  - intros [r d] w1 [Hr [e He]]. cbn [fst snd] in *. subst r.
    eapply (returns_bind _ _ _ (λ _ w', rows w' = rows w) (λ _ _, False)); [| |done].
    + apply (ask_patient _ 0 b); [done|simpl; lia|]. intros _ w2 [[_ Hr2] _] _. congruence.
    + intros _ w2 Hr2. cbn [orb]. eapply returns_mono; [apply IH|done|]. intros er w3 Hr3. cbv beta in *. congruence.
Qed.

(** C20: the retries of [ValidateConfig] do not retry.  The one request object
    is sent again after its body was read by the first attempt; over new
    connections (the response of a failed attempt is not closed, so its
    connection is not kept) every later attempt fails in the client itself, so
    once the server has answered with anything but 200 the validation fails,
    whatever the server would answer later. *)
Theorem ValidateConfig_never_recovers cfg address w resp x :
  fresh_connections → ext_exec _ (EHttp (validate_http cfg address)) (w_ext w) = ((inr resp, true), x) →
  StatusCode resp ≠ StatusOK →
  returns (ValidateConfig cfg address) w (λ _ _, False) (λ _ w', rows w' = rows w).
Proof.
  intros Hfc Hx Hc. unfold ValidateConfig.
  eapply (returns_bind _ _ _ (λ _ w', w' = w) (λ _ w', w' = w));
    [by apply check_url_returns| |by intros e w' ->].
  intros _ w1 ->.
  eapply (returns_bind _ _ _ (λ _ _, False) (λ _ w', rows w' = rows w)); [|done|done].
  cbn [validate_attempts http_do andb].
  eapply (returns_bind _ _ _ (λ r w', rows w' = rows w ∧ r = (inr resp, true)) (λ _ _, False)); [| |done].
  { apply (ask_patient _ 1 0); [done|done|]. intros r w2 [[_ Hr] _] Hx2. split; [done|].
    unfold validate_http in Hx. congruence. }
  intros r w2 [Hr ->]. cbn [fst snd]. rewrite (proj2 (Z.eqb_neq _ _) Hc).
  eapply (returns_bind _ _ _ (λ _ w', rows w' = rows w) (λ _ _, False)); [| |done].
  - apply (ask_patient (ESleep second) 0 second); [done|unfold second; simpl; lia|].
    intros _ w3 [[_ Hr3] _] _. congruence.
  - intros _ w3 Hr3. cbn [orb]. eapply returns_mono; [apply (drained_fails 3); [done|]|done|].
    + done.
    + intros er w4 Hr4. cbv beta in *. congruence.
Qed.

(** ** The mutex *)

Definition set_driver (f : DriverState → DriverState) w : World := with_driver (f (w_driver w)) w.

Lemma set_driver_driver f w : w_driver (set_driver f w) = f (w_driver w).
Proof. by destruct w. Qed.
Lemma set_driver_rows f w : rows (set_driver f w) = rows w.
Proof. by destruct w. Qed.
Lemma set_driver_tasks f w : w_tasks (set_driver f w) = w_tasks w.
Proof. by destruct w. Qed.
Lemma set_driver_tx f w : w_tx (set_driver f w) = w_tx w.
Proof. by destruct w. Qed.

(** A body that ends is run with the mutex held, and leaves it free. *)
Lemma with_mutex_wp {A} (p : prog A) w (Q : outcome A → World → Prop) :
  locked (w_driver w) = false →
  wp p (set_driver (set_locked true) w) (λ o w',
    match o with Ok _ | Fail _ | Panicked _ => Q o (set_driver (set_locked false) w') | _ => Q o w' end) →
  wp (with_mutex p) w Q.
Proof.
  intros Hl Hp. unfold with_mutex, wp in *. rewrite run_bind, run_proc. cbn [exec_proc]. rewrite Hl.
  cbn [run_then]. rewrite run_defer. change (with_driver _ w) with (set_driver (set_locked true) w).
  by destruct (run p (set_driver (set_locked true) w)) as [[] w'].
Qed.

(** ** Start *)

(** Every request that waits for its witness in the table is among [rs]. *)
Definition only_witnessgen (rs : list Row) w : Prop :=
  ∀ r, r ∈ rows w → row_status r = StatusWITNESSGEN → r ∈ rs.

Lemma only_witnessgen_retried r rs w w' :
  table_ok (rows w) → retried emptyStatus r w w' → r ∈ rows w →
  only_witnessgen (r :: rs) w → only_witnessgen rs w'.
Proof.
  intros Hok (t & new & _ & _ & Hr & Hn & _) Hin Hw r' Hin' Hst. rewrite Hr in Hin'.
  apply elem_of_app in Hin' as [Hin'|Hin'].
  - apply list_elem_of_fmap in Hin' as (r0 & -> & Hin0). case_decide as Hid.
    + destruct r0; simpl in Hst. by rewrite Hst in *.
    + specialize (Hw r0 Hin0 Hst). apply elem_of_cons in Hw as [->|Hw]; done.
  - apply list_elem_of_lookup in Hin' as [i Hi].
    destruct (Forall2_lookup_r _ _ _ _ _ Hn Hi) as (rg & _ & id & now & ->). done.
Qed.

Lemma recover_returns rs w :
  w_tx w = None → sane (rows w) → pending (λ r, row_status r = StatusWITNESSGEN) rs w →
  only_witnessgen rs w →
  returns (for_each (entity <$> rs) (λ req, map_err (wrap "failed to retry request: %w") (RetryRequest req emptyStatus))) w
    (λ _ w', frame w w' ∧ evolves false w w' ∧ only_witnessgen [] w')
    (λ _ w', frame w w' ∧ evolves true w w').
Proof.
  revert w. induction rs as [|r rs IH]; intros w Ht Hs Hp Hw; [by apply returns_ret|].
  rewrite fmap_cons. cbn [for_each]. pose proof Hp as [_ Hfa]. apply Forall_cons in Hfa as [[Hin Hst] _].
  eapply returns_bind; [apply returns_wrap, RetryRequest_evolves; [done..|by left]| |done].
  intros _ w1 (Hf & Hre & Hev).
  eapply returns_mono; [apply IH|..].
  - by eapply evolves_tx.
  - by eapply evolves_sane.
  - eapply pending_tail; [done|]. destruct Hre as (t & new & _ & _ & Hr & _). by eapply touches_at_id.
  - eapply only_witnessgen_retried; [apply Hs|done..].
  - intros _ w' (Hf' & Hev' & Hno). split; [by etrans|]. split; [by etrans|done].
  - intros e w' [Hf' Hev']. split; [by etrans|]. etrans; [by apply evolves_lossy|done].
Qed.

(** The body of a start, after [running] was set. *)
Definition start_body cfg (addr : Address) : prog unit :=
  witnessGenReqs ← map_err (wrap "failed to get witness generation pending proofs: %w")
                     (GetAllProofsWithStatus StatusWITNESSGEN);
  _ ← for_each witnessGenReqs
        (λ req, map_err (wrap "failed to retry request: %w") (RetryRequest req emptyStatus));
  _ ← map_err (wrap "failed to validate config: %w") (ValidateConfig cfg (Address_Hex addr));
  proc (PSpawn TaskLoop).

Lemma start_body_returns cfg addr w :
  w_tx w = None → sane (rows w) →
  returns (start_body cfg addr) w
    (λ _ w', evolves false w w' ∧ only_witnessgen [] w' ∧ validated cfg (Address_Hex addr) ∧
       w_tasks w' = w_tasks w ++ [TaskLoop])
    (λ _ w', evolves true w w' ∧ w_tasks w' = w_tasks w).
Proof.
  intros Ht Hs. unfold start_body.
  eapply (returns_bind _ _ _ _ (unchanged w)); [apply returns_map_err, GetAllProofsWithStatus_returns|..].
  2: { intros e w' Hq. split; [by apply quiet_evolves|]. by destruct Hq as [(_ & _ & _ & _ & _ & ? & _) _]. }
  intros l w1 ([Hf1 Hr1] & rs & Hp & ->).
  eapply returns_bind; [apply recover_returns|..].
  - by rewrite (frame_tx _ _ Hf1).
  - by rewrite Hr1.
  - apply (selected_pending (λ r, row_status r = StatusWITNESSGEN)); rewrite Hr1; [apply Hs|done].
  - intros r Hin Hst. rewrite Hp. apply list_elem_of_filter. by rewrite <- Hr1.
  - intros _ w2 (Hf2 & Hev2 & Hno). assert (frame w w2) as Hf12 by by etrans.
    assert (evolves false w w2) as Hev by (etrans; [apply quiet_evolves; exact (conj Hf1 Hr1)|done]).
    eapply returns_bind; [apply returns_wrap, ValidateConfig_returns|..].
    + intros _ w3 [(Hs3 & Hts3 & _) Hv].
      assert (evolves false w w3) as Hev3 by (etrans; [exact Hev|by apply still_evolves]).
      unfold returns, wp. simpl. split; [etrans; [exact Hev3|apply still_evolves; by destruct w3]|].
      destruct Hf12 as (_ & _ & _ & _ & _ & Hts & _).
      split; [|split; [done|by destruct w3; simpl in *; rewrite Hts3, Hts]].
      intros r Hin Hst. apply (Hno r); [|done]. destruct Hs3 as [_ Hr3]. rewrite <- Hr3. by destruct w3.
    + intros e w3 (Hs3 & Hts3 & _). destruct Hf12 as (_ & _ & _ & _ & _ & Hts & _). split; [|congruence].
      etrans; [by apply evolves_lossy|by apply still_evolves].
  - intros e w2 [Hf2 Hev2]. split; [etrans; [apply quiet_evolves; exact (conj Hf1 Hr1)|done]|].
    destruct (transitivity Hf1 Hf2) as (_ & _ & _ & _ & _ & Hts & _). done.
Qed.

Lemma driver_unlocked d f :
  locked d = false → (∀ b d', set_locked b (f d') = f (set_locked b d')) →
  set_locked false (f (set_locked true d)) = f d.
Proof. intros Hl Hf. rewrite Hf. destruct d; simpl in *. by subst. Qed.

Lemma Start_returns cfg addr w :
  locked (w_driver w) = false → running (w_driver w) = false →
  w_tx w = None → sane (rows w) → L2OutputOracleAddr cfg = Some addr →
  returns (StartL2OutputSubmitting cfg) w
    (λ _ w', w_driver w' = set_running true (w_driver w) ∧ w_tasks w' = w_tasks w ++ [TaskLoop] ∧
       reaches false (rows w) (rows w') ∧ only_witnessgen [] w' ∧ validated cfg (Address_Hex addr) ∧ w_tx w' = w_tx w)
    (λ _ w', w_driver w' = set_running true (w_driver w) ∧ w_tasks w' = w_tasks w ∧
       reaches true (rows w) (rows w') ∧ w_tx w' = w_tx w).
Proof.
  intros Hl Hr Ht Hs Ha. apply with_mutex_wp; [done|]. unfold wp.
  set (w0 := set_driver (set_locked true) w). set (w1 := set_driver (set_running true) w0).
  rewrite run_bind, run_proc. cbn [exec_proc run_then].
  assert (running (w_driver w0) = false) as -> by (unfold w0; rewrite set_driver_driver; by destruct (w_driver w)).
  rewrite run_bind, run_proc. cbn [exec_proc run_then]. rewrite Ha.
  change (with_driver _ w0) with w1. change (_ ← map_err _ (GetAllProofsWithStatus _); _) with (start_body cfg addr).
  assert (rows w1 = rows w) as Hrw by (unfold w1, w0; by rewrite !set_driver_rows).
  assert (∀ w', calm w1 w' → w_driver (set_driver (set_locked false) w') = set_running true (w_driver w)) as Hd.
  { intros w' (_ & _ & _ & Hdw). rewrite set_driver_driver, Hdw. unfold w1, w0. rewrite !set_driver_driver.
    apply (driver_unlocked _ (set_running true)); [done|]. by intros b []. }
  assert (∀ w', calm w1 w' → w_tx (set_driver (set_locked false) w') = w_tx w) as Htx.
  { intros w' (_ & _ & Htx & _). rewrite set_driver_tx, Htx. unfold w1, w0. by rewrite !set_driver_tx. }
  pose proof (start_body_returns cfg addr w1) as Hb. unfold returns, wp in Hb.
  destruct (run (start_body cfg addr) w1) as [[[]|e| | |] w2]; simpl in *;
    try (apply Hb; [by unfold w1, w0; rewrite !set_driver_tx|by rewrite Hrw]).
  - destruct Hb as ([Hc Hre] & Hno & Hv & Hts); [by unfold w1, w0; rewrite !set_driver_tx|by rewrite Hrw|].
    split; [by apply Hd|]. rewrite set_driver_tasks, set_driver_rows, Hts, <- Hrw.
    split; [by unfold w1, w0; rewrite !set_driver_tasks|]. split; [done|]. split; [|split; [done|by apply Htx]].
    intros r. rewrite set_driver_rows. apply Hno.
  - destruct Hb as ([Hc Hre] & Hts); [by unfold w1, w0; rewrite !set_driver_tx|by rewrite Hrw|].
    split; [by apply Hd|]. rewrite set_driver_tasks, set_driver_rows, Hts, <- Hrw.
    split; [by unfold w1, w0; rewrite !set_driver_tasks|]. split; [done|by apply Htx].
Qed.

(** A submitter that runs is not started again. *)
Lemma Start_running cfg w :
  locked (w_driver w) = false → running (w_driver w) = true →
  wp (StartL2OutputSubmitting cfg) w (λ o w',
    o = Fail (Errorf "proposer is already running" []) ∧ w_driver w' = w_driver w ∧
    w_tasks w' = w_tasks w ∧ rows w' = rows w).
Proof.
  intros Hl Hr. apply with_mutex_wp; [done|]. unfold wp. rewrite run_bind, run_proc. cbn [exec_proc run_then].
  rewrite set_driver_driver. assert (running (set_locked true (w_driver w)) = true) as -> by by destruct (w_driver w).
  simpl. split; [done|]. rewrite !set_driver_driver, !set_driver_tasks, !set_driver_rows.
  split; [|done]. destruct (w_driver w); simpl in *. by subst.
Qed.

(** C21: a start makes good what a crash left.  When [StartL2OutputSubmitting]
    returns no error, every request that was waiting for a witness when the
    process ended has been failed and replaced (none is left in WITNESSGEN, and
    the partition of the blocks is kept), the server has confirmed the
    contract's configuration, and one loop was started. *)
Theorem StartL2OutputSubmitting_recovers cfg addr w s e :
  locked (w_driver w) = false → running (w_driver w) = false →
  w_tx w = None → table_inv s e (rows w) → L2OutputOracleAddr cfg = Some addr →
  returns (StartL2OutputSubmitting cfg) w
    (λ _ w', grown (rows w) s e (rows w') ∧ kept (rows w) (rows w') ∧
       (∀ r, r ∈ rows w' → row_status r ≠ StatusWITNESSGEN) ∧
       validated cfg (Address_Hex addr) ∧ w_tasks w' = w_tasks w ++ [TaskLoop] ∧
       w_driver w' = set_running true (w_driver w))
    (λ _ w', kept (rows w) (rows w') ∧ w_tasks w' = w_tasks w).
Proof.
  intros Hl Hr Ht Hinv Ha. assert (sane (rows w)) as Hs by by destruct Hinv.
  eapply returns_mono; [by apply (Start_returns cfg addr)|..].
  - intros _ w' (Hd & Hts & Hre & Hno & Hv & _). split; [by apply reaches_grown|].
    split; [by eapply reaches_kept|]. split; [|done]. intros r Hin Hst. by apply (Hno r Hin), elem_of_nil in Hst.
  - intros er w' (_ & Hts & Hre & _). split; [by eapply reaches_kept|done].
Qed.

(** A start that failed cannot be repeated: [running] stays set, so the next
    start reports that the proposer is running, though no loop was started. *)
Theorem failed_start_sticks cfg addr w :
  locked (w_driver w) = false → running (w_driver w) = false →
  w_tx w = None → sane (rows w) → L2OutputOracleAddr cfg = Some addr →
  wp (StartL2OutputSubmitting cfg) w (λ o w',
    match o with
    | Fail _ => w_tasks w' = w_tasks w ∧
        (run (StartL2OutputSubmitting cfg) w').1 = Fail (Errorf "proposer is already running" [])
    | _ => True
    end).
Proof.
  intros Hl Hr Ht Hs Ha. eapply wp_mono; [by apply (Start_returns cfg addr)|].
  intros [] w' Ho; simpl in Ho; try done. destruct Ho as (Hd & Hts & _). split; [done|].
  destruct (Start_running cfg w') as [? _]; [rewrite Hd; by destruct (w_driver w)..|done].
Qed.

(** ** Stop *)

Definition both_closed w : Prop := w_wopen w = false ∧ w_ropen w = false.

(** Closing: on an error of the write client the read client stays open. *)
Lemma close_client_returns h w :
  h ≠ HTx →
  returns (close_client h) w
    (λ _ w', w_driver w' = w_driver w ∧ w_tasks w' = w_tasks w ∧ rows w' = rows w ∧
       (h = HWrite → w_wopen w' = false ∧ w_ropen w' = w_ropen w) ∧
       (h = HRead → w_ropen w' = false ∧ w_wopen w' = w_wopen w))
    (λ e w', w_driver w' = w_driver w ∧ w_tasks w' = w_tasks w ∧ rows w' = rows w ∧ is_not_running e = false).
Proof.
  intros Hh. unfold close_client, returns, wp. rewrite run_bind, run_db. cbn [exec_db].
  destruct (sg_close (w_db w)) as [r s] eqn:Hc. cbn [run_then]. apply sg_close_rows in Hc.
  destruct r as [e|]; simpl; unfold rows; destruct w, h; simpl in *; try done; by repeat split.
Qed.

Lemma CloseDB_returns w :
  returns CloseDB w
    (λ _ w', w_driver w' = w_driver w ∧ w_tasks w' = w_tasks w ∧ rows w' = rows w ∧ both_closed w')
    (λ e w', w_driver w' = w_driver w ∧ w_tasks w' = w_tasks w ∧ rows w' = rows w ∧ is_not_running e = false).
Proof.
  unfold CloseDB. eapply returns_bind; [by apply close_client_returns| |by intros e w' (? & ? & ? & ?)].
  intros _ w1 (Hd1 & Ht1 & Hr1 & Hw & _). destruct (Hw eq_refl) as [Hw1 _].
  eapply returns_mono; [by apply close_client_returns|..].
  - intros _ w2 (Hd2 & Ht2 & Hr2 & _ & Hro). destruct (Hro eq_refl) as [Hro2 Hwo2].
    split; [congruence|]. split; [congruence|]. split; [congruence|]. split; congruence.
  - intros e w2 (Hd2 & Ht2 & Hr2 & He). split; [congruence|]. split; [congruence|]. split; [congruence|done].
Qed.

Definition not_loop (t : task) : Prop := is_loop t = false.
#[local] Instance not_loop_dec t : Decision (not_loop t).
Proof. unfold not_loop. apply _. Defined.

(** The clients of the database are as in [w]. *)
Definition clients_kept w w' : Prop := w_wopen w' = w_wopen w ∧ w_ropen w' = w_ropen w.

(** A submitter without a database has nothing to close. *)
Definition clients_closed w w' : Prop := if db_set (w_driver w) then both_closed w' else clients_kept w w'.

(** The state of a driver that was stopped. *)
Definition stopped_driver w : DriverState := mkDriverState false true true false (db_set (w_driver w)).

Lemma Stop_returns w :
  locked (w_driver w) = false → running (w_driver w) = true → done_closed (w_driver w) = false →
  returns StopL2OutputSubmitting w
    (λ _ w', w_driver w' = stopped_driver w ∧
       w_tasks w' = filter not_loop (w_tasks w) ∧ rows w' = rows w ∧ clients_closed w w')
    (λ e w', w_driver w' = stopped_driver w ∧
       w_tasks w' = filter not_loop (w_tasks w) ∧ rows w' = rows w ∧ is_not_running e = false ∧
       db_set (w_driver w) = true).
Proof.
  intros Hl Hr Hd. apply with_mutex_wp; [done|]. unfold wp, clients_closed, stopped_driver.
  destruct w as [s wo ro tx x m [rn dc ca lk []] ts tr]; simpl in *; subst rn dc lk; [|done].
  set (w1 := mkWorld s wo ro tx x m (mkDriverState false true true true true)
    (filter (λ t, is_loop t = false) ts) tr).
  change (run _ _) with (run (map_err (wrap "error closing database: %w") CloseDB) w1).
  rewrite run_map_err. pose proof (CloseDB_returns w1) as Hc. unfold returns, wp in Hc.
  destruct (run CloseDB w1) as [[[]|e| | |] w2]; simpl in *; try done.
  - destruct Hc as (Hdr & Hts & Hrw & Hcl). rewrite set_driver_driver, set_driver_tasks, set_driver_rows, Hdr, Hts, Hrw.
    unfold both_closed in *. by destruct w2.
  - destruct Hc as (Hdr & Hts & Hrw & He). by rewrite set_driver_driver, set_driver_tasks, set_driver_rows, Hdr, Hts, Hrw.
Qed.

Lemma Stop_not_running w :
  locked (w_driver w) = false → running (w_driver w) = false →
  run StopL2OutputSubmitting w = (Fail ErrProposerNotRunning, w).
Proof.
  intros Hl Hr. destruct w as [s wo ro tx x m [rn dc ca lk ds] ts tr]; simpl in *. by subst rn lk.
Qed.

Lemma Stop_closed w :
  locked (w_driver w) = false → running (w_driver w) = true → done_closed (w_driver w) = true →
  (run StopL2OutputSubmitting w).1 = Panicked "close of closed channel".
Proof.
  intros Hl Hr Hd. destruct w as [s wo ro tx x m [rn dc ca lk ds] ts tr]; simpl in *. by subst rn lk dc.
Qed.

(** C22: a stop ends the loops, not the requests: when [StopL2OutputSubmitting]
    of a running proposer returns without an error, the context is cancelled,
    the loops have returned and both clients of its database are closed (a
    submitter that has no database leaves them as they are), but the goroutines
    that request proofs were not waited for.  Only the close of a database can
    fail.  The table is kept.  A
    proposer that does not run is left as it is; [StopL2OutputSubmittingIfRunning]
    then reports no error. *)
Theorem StopL2OutputSubmitting_stops w :
  locked (w_driver w) = false → done_closed (w_driver w) = false →
  wp StopL2OutputSubmitting w (λ o w',
    if running (w_driver w) then
      rows w' = rows w ∧ w_driver w' = mkDriverState false true true false (db_set (w_driver w)) ∧
      (∀ t, t ∈ w_tasks w' ↔ t ∈ w_tasks w ∧ t ≠ TaskLoop) ∧
      match o with
      | Ok _ => if db_set (w_driver w) then both_closed w' else w_wopen w' = w_wopen w ∧ w_ropen w' = w_ropen w
      | Fail _ => db_set (w_driver w) = true
      | _ => False
      end
    else o = Fail ErrProposerNotRunning ∧ w' = w ∧
         run StopL2OutputSubmittingIfRunning w = (Ok tt, w)).
Proof.
  intros Hl Hd. destruct (running (w_driver w)) eqn:Hr.
  - assert (∀ t, t ∈ filter not_loop (w_tasks w) ↔ t ∈ w_tasks w ∧ t ≠ TaskLoop) as Hts.
    { intros t. rewrite list_elem_of_filter. unfold not_loop. destruct t; simpl; intuition congruence. }
    eapply wp_mono; [by apply Stop_returns|]. intros [[]|e| | |] w' Ho; simpl in Ho; try done.
    + destruct Ho as (Hdr & Ht & Hrw & Hcl). by rewrite Ht.
    + destruct Ho as (Hdr & Ht & Hrw & _ & Hds). by rewrite Ht.
  - unfold wp, StopL2OutputSubmittingIfRunning.
    rewrite run_bind, run_attempt, (Stop_not_running w) by done. done.
Qed.

Lemma closed_read_fails st w :
  w_ropen w = false →
  ∃ e, run (GetAllProofsWithStatus st) w = (Fail e, w).
Proof.
  intros Hr. unfold GetAllProofsWithStatus, all_or_none. rewrite run_bind, run_attempt.
  unfold prq_All, prq_sqlAll. cbn -[run_then]. destruct w; simpl in *. subst. by eexists.
Qed.

(** C23: stopping and starting again ends in a crash, for a submitter that has
    its database.  After a stop, a start
    fails, since the database is closed, but counts as running; the next stop
    then closes the channel [done], which the first one closed, and panics. *)
Theorem restart_then_stop_panics cfg w :
  locked (w_driver w) = false → running (w_driver w) = true → done_closed (w_driver w) = false →
  db_set (w_driver w) = true →
  (run StopL2OutputSubmitting w).1 = Ok tt →
  let w1 := (run StopL2OutputSubmitting w).2 in
  let w2 := (run (StartL2OutputSubmitting cfg) w1).2 in
  (∃ e, (run (StartL2OutputSubmitting cfg) w1).1 = Fail e) ∧
  (run StopL2OutputSubmitting w2).1 = Panicked "close of closed channel".
Proof.
  intros Hl Hr Hd Hds Hok. pose proof (Stop_returns w Hl Hr Hd) as Hstop.
  unfold returns, wp, clients_closed, stopped_driver in Hstop.
  rewrite Hok, Hds in Hstop. destruct Hstop as (Hdr & _ & _ & _ & Hro).
  generalize dependent (run StopL2OutputSubmitting w).2. intros w1 Hdr Hro. cbv zeta.
  set (w1' := with_driver (mkDriverState true true true true true) w1).
  destruct (closed_read_fails StatusWITNESSGEN w1') as [e He]; [by destruct w1|].
  assert (run (StartL2OutputSubmitting cfg) w1 =
    (Fail (wrap "failed to get witness generation pending proofs: %w" e),
     with_driver (mkDriverState true true true false true) w1)) as Hrun.
  { unfold StartL2OutputSubmitting, with_mutex. rewrite run_bind, run_proc. cbn [exec_proc]. rewrite Hdr.
    cbn [locked run_then]. rewrite run_defer, run_bind, run_proc. cbn [exec_proc].
    destruct w1 as [s wo ro tx x m d ts tr]; simpl in *. subst.
    rewrite run_bind, run_map_err. unfold w1' in He. by rewrite He. }
  rewrite Hrun. split; [by eexists|]. by apply Stop_closed; destruct w1.
Qed.

End lifecycle.

(** ** The theorems on concrete runs *)

Definition driver_on (d : DriverState) (tasks : list task) (tbl : list Row) (x : ScriptState) : World :=
  @mkWorld ListSql ScriptExternal (mkListStore tbl []) true true None x NoopMetrics d tasks [].

Definition idle : DriverState := mkDriverState false false false false true.
Definition at_work : DriverState := mkDriverState true false false false true.

Definition config_body (a b c : string) : string :=
  marshal_object [("rollup_config_hash_valid"%string, a); ("agg_vkey_valid"%string, b);
                  ("range_vkey_valid"%string, c)].
Definition good_config : ScriptState := replies [config_body "true" "true" "true"].

(** The first answer is a 503; the second would confirm the configuration. *)
Definition late_server : ScriptState :=
  with_http [inr (mkHttpResponse 503 (inr EmptyString));
             inr (mkHttpResponse 200 (inr (config_body "true" "true" "true")))] script0.

Lemma ValidateConfig_never_recovers_witness :
  let r := run (ValidateConfig cfg0 "0x01") (world [] late_server) in
  (∃ e, r.1 = Fail e) ∧ http_count (w_trace r.2) = 1 ∧ slept (w_trace r.2) = 15 * second ∧ rows r.2 = [].
Proof.
  intros r. assert (∃ e, r.1 = Fail e) as [e He] by (eexists; vm_compute; reflexivity).
  split; [by exists e|]. split; [vm_compute; reflexivity|]. split; [vm_compute; reflexivity|].
  pose proof (ValidateConfig_never_recovers cfg0 "0x01" (world [] late_server)
    (mkHttpResponse 503 (inr EmptyString)) (w_ext (world [] (with_http [inr (mkHttpResponse 200 (inr (config_body "true" "true" "true")))] script0)))
    ltac:(intros x; by eexists) eq_refl ltac:(done)) as HT.
  by ran HT He.
Defined.

Definition crashed_table : list Row :=
  [row_at t0 1 TypeSPAN 0 40 StatusCOMPLETE; row_at t0 2 TypeSPAN 40 100 StatusWITNESSGEN].

Lemma StartL2OutputSubmitting_recovers_witness :
  let w := driver_on idle [] crashed_table good_config in
  let r := run (StartL2OutputSubmitting cfg0) w in
  r.1 = Ok tt ∧ (row_status <$> rows r.2) = [StatusCOMPLETE; StatusFAILED; StatusUNREQ] ∧
  grown crashed_table 0 100 (rows r.2) ∧ w_tasks r.2 = [TaskLoop].
Proof.
  intros w r. assert (r.1 = Ok tt) as Ho by (vm_compute; reflexivity).
  split; [done|]. split; [vm_compute; reflexivity|].
  pose proof (StartL2OutputSubmitting_recovers cfg0 [Byte.x01] w 0 100 eq_refl eq_refl eq_refl
    ltac:(by apply table_invb_sound) eq_refl) as HT.
  ran HT Ho. by destruct Ho as (Hg & _ & _ & _ & Hts & _).
Defined.

Lemma failed_start_sticks_witness :
  let w := driver_on idle [] crashed_table (replies [config_body "true" "false" "true"]) in
  let r := run (StartL2OutputSubmitting cfg0) w in
  (∃ e, r.1 = Fail e) ∧
  (run (StartL2OutputSubmitting cfg0) r.2).1 = Fail (Errorf "proposer is already running" []).
Proof.
  intros w r. assert (∃ e, r.1 = Fail e) as [e He] by (eexists; vm_compute; reflexivity).
  split; [by exists e|].
  pose proof (failed_start_sticks cfg0 [Byte.x01] w eq_refl eq_refl eq_refl
    ltac:(apply (ti_sane 0 100); by apply table_invb_sound) eq_refl) as HT.
  ran HT He. by destruct He as [_ ?].
Defined.

Definition request_of (r : Row) : task := TaskRequest (entity r) (entity r).

Lemma StopL2OutputSubmitting_stops_witness :
  let w := driver_on at_work [TaskLoop; request_of (row_at t0 2 TypeSPAN 40 100 StatusUNREQ)] crashed_table script0 in
  let r := run StopL2OutputSubmitting w in
  r.1 = Ok tt ∧ length (w_tasks r.2) = 1%nat ∧ both_closed r.2.
Proof.
  intros w r. assert (r.1 = Ok tt) as Ho by (vm_compute; reflexivity).
  split; [done|]. split; [vm_compute; reflexivity|].
  pose proof (StopL2OutputSubmitting_stops w eq_refl eq_refl) as HT.
  ran HT Ho. by destruct Ho as (_ & _ & _ & ?).
Defined.

Lemma restart_then_stop_panics_witness :
  let w := driver_on at_work [TaskLoop] crashed_table script0 in
  let w1 := (run StopL2OutputSubmitting w).2 in
  let w2 := (run (StartL2OutputSubmitting cfg0) w1).2 in
  (run StopL2OutputSubmitting w2).1 = Panicked "close of closed channel".
Proof.
  intros w w1 w2.
  destruct (restart_then_stop_panics cfg0 w eq_refl eq_refl eq_refl eq_refl ltac:(vm_compute; reflexivity)) as [_ Hp].
  exact Hp.
Defined.

Lemma ValidateConfig_sound_witness :
  let r := run (ValidateConfig cfg0 "0x01") (world [] good_config) in
  r.1 = Ok tt ∧ @validated ScriptExternal cfg0 "0x01".
Proof.
  intros r. assert (r.1 = Ok tt) as Ho by (vm_compute; reflexivity). split; [exact Ho|].
  pose proof (ValidateConfig_sound cfg0 "0x01" (world [] good_config)) as HT. ran HT Ho. apply Ho.
Defined.
