(* ===== verification/Machine.v ===== *)
(** * Progress of the prover's requests

    A poll of a prover that has decided leaves nothing in work. *)

From Stdlib Require Import ZArith Lia.
From S2P Require Import Prelude Sql ProofRequest Metrics Encoding Prog Types Script Json Spans.
From S2P Require Import Mutation Builders Db Range Partition Steps Evolve Prove Driver Pipeline.
From S2P Require Import Stages Correctness Lifecycle.

Section machine.
Context `{SqlLaws, External}.
Context (cfg : ProposerConfig).
Implicit Types (w : World).

(** The prover has decided: it answers with a proof or with a failure. *)
Definition decided (st : ProofStatusResponse) : Prop :=
  FulfillmentStatus st = SP1FulfillmentStatusFulfilled ∨ FulfillmentStatus st = SP1FulfillmentStatusUnfulfillable.

(** Every request in PROVING is among [rs]. *)
Definition only_proving (rs : list Row) w : Prop :=
  ∀ r, r ∈ rows w → row_status r = StatusPROVING → r ∈ rs.

Lemma only_proving_at_id r rs f w w' new :
  rows w' = at_id (row_id r) f (rows w) ++ new →
  (∀ r0, row_status (f r0) ≠ StatusPROVING) → (∀ n, n ∈ new → row_status n ≠ StatusPROVING) →
  only_proving (r :: rs) w → only_proving rs w'.
Proof.
  intros Hr Hf Hn Hw r' Hin Hst. rewrite Hr in Hin. apply elem_of_app in Hin as [Hin|Hin]; [|by destruct (Hn r' Hin)].
  apply list_elem_of_fmap in Hin as (r0 & -> & Hin0). case_decide as Hid; [by destruct (Hf r0)|].
  specialize (Hw r0 Hin0 Hst). apply elem_of_cons in Hw as [->|Hw]; done.
Qed.

Lemma only_proving_polled r st rs w w' :
  decided st → polled r st w w' → only_proving (r :: rs) w → only_proving rs w'.
Proof.
  unfold polled. intros [-> | ->]; simpl.
  - intros (_ & t & _ & Hr). apply (only_proving_at_id _ _ (with_proof (psr_Proof st) t) _ _ []); [by rewrite app_nil_r|..].
    + by intros [].
    + by intros n ?%elem_of_nil.
  - intros (t & new & _ & _ & Hr & Hn & _). eapply only_proving_at_id; [exact Hr|by intros []|].
    intros n Hin. apply list_elem_of_lookup in Hin as [i Hi].
    destruct (Forall2_lookup_r _ _ _ _ _ Hn Hi) as (rg & _ & id & now & ->). done.
Qed.

Lemma poll_all_returns rs w :
  (∀ pid st, reported cfg pid st → decided st) →
  w_tx w = None → sane (rows w) → pending (λ r, row_status r = StatusPROVING) rs w → only_proving rs w →
  returns (for_each (entity <$> rs) (process_proving cfg)) w
    (λ _ w', evolves false w w' ∧ only_proving [] w') (λ _ w', evolves true w w').
Proof.
  intros Hdec. revert w. induction rs as [|r rs IH]; intros w Ht Hs Hp Hw; [by apply returns_ret|].
  rewrite fmap_cons. cbn [for_each]. pose proof Hp as [_ Hfa]. apply Forall_cons in Hfa as [[Hin Hst] _].
  eapply returns_bind; [by apply process_proving_returns| |done]. intros _ w1 (Hc & st & Hrep & Hpo).
  assert (evolves false w w1) as Hev by (by eapply polled_evolves).
  eapply returns_mono; [apply IH|..].
  - by eapply evolves_tx.
  - by eapply evolves_sane.
  - eapply pending_tail; [done|by eapply polled_touches].
  - eapply only_proving_polled; [by eapply Hdec|done..].
  - intros _ w' (Hev' & Hno). split; [by etrans|done].
  - intros e w' Hev'. etrans; [by apply evolves_lossy|done].
Qed.

(** C37: progress of the prover's requests.  If the prover answers every
    question about a request with a proof or a failure, then one round of
    [ProcessProvingRequests] that returns no error leaves no request in
    PROVING: each one that was is COMPLETE or FAILED, and the blocks of the live
    span proofs are still partitioned. *)
Theorem ProcessProvingRequests_progress w s e :
  (∀ pid st, reported cfg pid st → decided st) → w_tx w = None → table_inv s e (rows w) →
  returns (ProcessProvingRequests cfg) w
    (λ _ w', (∀ r, r ∈ rows w' → row_status r ≠ StatusPROVING) ∧
       (∀ r, r ∈ rows w → row_status r = StatusPROVING →
          ∃ r', r' ∈ rows w' ∧ same_request r r' ∧ final (row_status r')) ∧
       grown (rows w) s e (rows w'))
    (λ _ w', kept (rows w) (rows w')).
Proof.
  intros Hdec Ht Hinv. assert (sane (rows w)) as Hs by by destruct Hinv. unfold ProcessProvingRequests.
  eapply returns_bind; [apply GetAllProofsWithStatus_returns| |].
  2: { intros er w' Hq. eapply reaches_kept; [done|]. by apply (quiet_evolves true). }
  intros l w1 ([Hf Hr] & rs & Hp & ->). eapply returns_mono; [apply poll_all_returns; [done|..]|..].
  - by rewrite (frame_tx _ _ Hf).
  - by rewrite Hr.
  - apply (selected_pending (λ r, row_status r = StatusPROVING)); rewrite Hr; [apply Hs|done].
  - intros r Hin Hst. rewrite Hp. apply list_elem_of_filter. by rewrite <- Hr.
  - intros _ w' ([_ Hev] & Hno). rewrite Hr in Hev.
    assert (∀ r, r ∈ rows w' → row_status r ≠ StatusPROVING) as Hnone
      by (intros r Hin Hst; by apply (Hno r Hin), elem_of_nil in Hst).
    split; [done|]. split; [|by apply reaches_grown]. intros r Hin Hst.
    destruct (reaches_kept _ _ _ Hs Hev r Hin) as (r' & Hin' & [Hsame Hch _]). exists r'. split; [done|]. split; [done|].
    rewrite Hst in Hch. apply rtc_inv in Hch as [E|(st1 & Hst1 & Hr1)]; [by destruct (Hnone r' Hin')|].
    assert (final st1) as Hfin by (inversion Hst1; [by left|by right]).
    by rewrite (final_stays _ _ Hfin Hr1).
  - intros er w' [_ Hev]. rewrite Hr in Hev. by eapply reaches_kept.
Qed.

End machine.

(** ** Runs *)

(** A server that answers every question with a proof. *)
Definition proven_body : string := status_body "3" "2" (Some [Byte.x07]).
Definition proven {R} (c : ExtCmd R) (s : ScriptState) : R * ScriptState :=
  match c in ExtCmd R return R * ScriptState with
  | EHttp _ => ((inr (mkHttpResponse 200 (inr proven_body)), true), s)
  | c => script_exec c s
  end.
Definition ProvenExternal : External := {|
  ext := ScriptState;
  ext_exec := @proven;
  ext_select := script_select;
  Address_Hex a := ("0x" ++ EncodeToString a)%string;
  url_valid _ := true;
  abi_Pack _ _ _ := inr [];
|}.
Definition proven_world : @World ListSql ProvenExternal :=
  @mkWorld ListSql ProvenExternal (mkListStore retry_table []) true true None script0 NoopMetrics driver0 [] [].

Lemma ProcessProvingRequests_progress_witness :
  let r := run (ProcessProvingRequests (H := ProvenExternal) cfg0) proven_world in
  r.1 = Ok tt ∧ (row_status <$> rows r.2) = [StatusCOMPLETE; StatusFAILED; StatusCOMPLETE] ∧
  ∀ x, x ∈ rows r.2 → row_status x ≠ StatusPROVING.
Proof.
  intros r. assert (r.1 = Ok tt) as Ho by (vm_compute; reflexivity).
  split; [exact Ho|]. split; [vm_compute; reflexivity|].
  pose proof (@ProcessProvingRequests_progress ListSql ListSql_laws ProvenExternal cfg0 proven_world 0 100) as HT.
  assert (∀ pid st, @reported ProvenExternal cfg0 pid st → decided st) as Hd.
  { intros pid st (body & (dr & x & x' & E) & Hu).
    pose proof (f_equal (λ p, match p.1.1 with inr (mkHttpResponse _ (inr b)) => b | _ => ""%string end) E) as Eb.
    change (proven_body = body) in Eb. subst body.
    assert ((λ r : error + ProofStatusResponse, match r with inr st => FulfillmentStatus st | inl _ => 0 end)
      (unmarshal_ProofStatusResponse proven_body) = 3) as E3 by (vm_compute; reflexivity).
    rewrite Hu in E3. by left. }
  specialize (HT Hd eq_refl ltac:(by apply table_invb_sound)). ran HT Ho. by destruct Ho as [Hn _].
Defined.
