(* ===== verification/Concurrent.v ===== *)
(** * Any interleaving of the goroutines

    The main loop and any number of request goroutines run over one table, and
    the scheduler switches between them after every command.  A goroutine that
    has opened a transaction holds the one connection for writing; the others
    wait.  [tame] is what a goroutine must keep to, command by command, for its
    part: it is proved of each function of the proposer from its text, and it
    composes to what no schedule can break.  What may become of the table is a
    machine, [row_step], of which every write is a step; a transaction has a
    number of commands after which it is over. *)

From Stdlib Require Import ZArith Lia.
From stdpp Require Import relations.
From S2P Require Import Prelude Sql ProofRequest Metrics Encoding Prog Types Script Json Spans.
From S2P Require Import Mutation Builders Db Range Prove Driver.

(** ** The history of a table *)

(** What no command changes of a request: its id, what it asks to prove, when
    it was added, and a proof it has. *)
Definition descends (r r' : Row) : Prop :=
  row_id r' = row_id r ∧ row_type r' = row_type r ∧ lo r' = lo r ∧ hi r' = hi r ∧
  row_request_added_time r' = row_request_added_time r ∧
  (row_proof r ≠ None → row_proof r' = row_proof r).

Definition history (tbl tbl' : list Row) : Prop :=
  (NoDup (row_id <$> tbl) → NoDup (row_id <$> tbl')) ∧ ∀ r, r ∈ tbl → ∃ r', r' ∈ tbl' ∧ descends r r'.

Global Instance descends_preorder : PreOrder descends.
Proof.
  split; [by intros r; repeat split|].
  intros r1 r2 r3 (Hi1 & Ht1 & Hl1 & Hh1 & Ha1 & Hp1) (Hi2 & Ht2 & Hl2 & Hh2 & Ha2 & Hp2).
  repeat split; try congruence. intros Hp. rewrite Hp2; [by apply Hp1|]. by rewrite Hp1.
Qed.

Global Instance history_preorder : PreOrder history.
Proof.
  split; [by intros tbl; split; [done|]; intros r Hr; exists r|].
  intros t1 t2 t3 [Hn1 H1] [Hn2 H2]. split; [by auto|]. intros r Hr.
  destruct (H1 r Hr) as (r' & Hr' & Hd). destruct (H2 r' Hr') as (r'' & Hr'' & Hd').
  exists r''. split; [done|]. by etrans.
Qed.

Lemma history_snoc tbl r : (∀ r', r' ∈ tbl → row_id r' ≠ row_id r) → history tbl (tbl ++ [r]).
Proof.
  intros Hf. split.
  - intros Hn. rewrite fmap_app. apply NoDup_app. split; [done|]. split; [|apply NoDup_singleton].
    intros i (r' & -> & Hr')%list_elem_of_fmap Hin. apply list_elem_of_singleton in Hin. by apply (Hf r').
  - intros r' Hr'. exists r'. split; [apply elem_of_app; by left|done].
Qed.

Lemma history_update u tbl tbl' :
  (∀ r r', r ∈ tbl → touched u r → apply_update u r = Some r' → descends r r') →
  update_rows u tbl = Some tbl' → history tbl tbl'.
Proof.
  intros Hd Hu. unfold update_rows in Hu. apply mapM_Some in Hu.
  assert (Forall2 descends tbl tbl') as Hall.
  { apply Forall2_same_length_lookup. split; [by eapply Forall2_length|]. intros i r r' Hr Hr'.
    pose proof (Forall2_lookup_lr _ _ _ _ _ _ Hu Hr Hr') as Hx. unfold update_row in Hx.
    destruct (touched u r) eqn:Ht; [|by simplify_eq]. eapply Hd; [by eapply list_elem_of_lookup_2|by rewrite Ht|done]. }
  split.
  - assert (row_id <$> tbl' = row_id <$> tbl) as ->; [|done]. clear -Hall.
    induction Hall as [|r r' l l' Hr _ IH]; [done|]. rewrite !fmap_cons, IH. f_equal. apply Hr.
  - intros r (i & Hi)%list_elem_of_lookup. destruct (Forall2_lookup_l _ _ _ _ _ Hall Hi) as (r' & Hr' & Hx).
    exists r'. split; [by eapply list_elem_of_lookup_2|done].
Qed.

(** ** What a command does to the table

    The machine of the table when goroutines run at once: between two commands
    of a goroutine any others may run, so a change of status is guarded only by
    what its own command looks at.  A request is added without a proof and
    waiting; the three plain updates of the status, and the id of a prover, go
    to whatever has the id; an L1 block goes to the waiting aggregation requests
    over its range; and a proof is stored, with the status COMPLETE, only in a
    request that is PROVING and has none. *)

Definition is_marking (st : string) : Prop :=
  st = StatusWITNESSGEN ∨ st = StatusPROVING ∨ st = StatusFAILED.

Inductive row_step (tbl : list Row) : list Row → Prop :=
| rw_added id t a b now :
    0 < id < two63 → (∀ r, r ∈ tbl → row_id r ≠ id) → t = TypeSPAN ∨ t = TypeAGG → a < two63 → b < two63 →
    row_step tbl (tbl ++ [new_row id t a b now])
| rw_marked id st t : is_marking st → row_step tbl (at_id id (mark st t) tbl)
| rw_sent id pid t1 t2 : row_step tbl (at_id id (with_prover_id pid t1 t2) tbl)
| rw_l1 s e n h t : row_step tbl (l1_info_added s e n h t tbl)
| rw_fulfilled r pf t :
    r ∈ tbl → (∀ r', r' ∈ tbl → row_id r' = row_id r → r' = r) → row_status r = StatusPROVING → row_proof r = None →
    row_step tbl (at_id (row_id r) (with_proof pf t) tbl).

Definition evolved : relation (list Row) := rtc row_step.

Lemma history_fmap (f : Row → Row) tbl : (∀ r, r ∈ tbl → descends r (f r)) → history tbl (f <$> tbl).
Proof.
  intros Hf. split.
  - assert (row_id <$> (f <$> tbl) = row_id <$> tbl) as ->; [|done]. rewrite <- list_fmap_compose.
    apply list_fmap_ext. intros i r Hi. apply Hf. by eapply list_elem_of_lookup_2.
  - intros r Hr. exists (f r). split; [by apply list_elem_of_fmap_2|by apply Hf].
Qed.

Lemma history_at_id id f tbl :
  (∀ r, r ∈ tbl → row_id r = id → descends r (f r)) → history tbl (at_id id f tbl).
Proof. intros Hf. apply history_fmap. intros r Hr. case_decide; [by apply Hf|done]. Qed.

Lemma row_step_history tbl tbl' : row_step tbl tbl' → history tbl tbl'.
Proof.
  intros []; [by apply history_snoc|apply history_at_id; by intros []..|apply history_fmap|apply history_at_id].
  - intros r _. case_decide; [by destruct r|done].
  - intros r' Hr' Hid. rewrite (H0 r' Hr' Hid). destruct r; simpl in *. subst. by repeat split.
Qed.

Lemma evolved_history tbl tbl' : evolved tbl tbl' → history tbl tbl'.
Proof. induction 1 as [|t1 t2 t3 Hs _ IH]; [done|]. etrans; [by apply row_step_history|done]. Qed.

(** What becomes of the status of one request. *)
Definition status_move (a b : string) : Prop := is_marking b ∨ a = StatusPROVING ∧ b = StatusCOMPLETE.

Lemma row_step_moves tbl tbl' r :
  row_step tbl tbl' → r ∈ tbl →
  ∃ r', r' ∈ tbl' ∧ descends r r' ∧ (row_status r' = row_status r ∨ status_move (row_status r) (row_status r')).
Proof.
  assert (∀ f : Row → Row, descends r (f r) →
    (row_status (f r) = row_status r ∨ status_move (row_status r) (row_status (f r))) → r ∈ tbl →
    ∃ r', r' ∈ f <$> tbl ∧ descends r r' ∧ (row_status r' = row_status r ∨ status_move (row_status r) (row_status r'))) as Hf.
  { intros f Hd Hm Hr. exists (f r). split; [by apply list_elem_of_fmap_2|done]. }
  intros Hs Hr. destruct Hs as [id t a b now|id st t Hst|id pid t1 t2|s e n h t|r0 pf t Hr0 Hone Hst Hpf].
  - exists r. split; [apply elem_of_app; by left|]. split; [done|by left].
  - apply Hf; [..|done]; (case_decide; [|by auto]); destruct r; [done|]. right. by left.
  - apply Hf; [..|done]; (case_decide; [|by auto]); destruct r; [done|]. by left.
  - apply Hf; [..|done]; (case_decide; [|by auto]); destruct r; [done|]. by left.
  - apply Hf; [..|done]; (case_decide as Hid; [|by auto]); rewrite (Hone r Hr Hid);
      destruct r0; simpl in *; subst; [by repeat split|]. right. by right.
Qed.

Lemma evolved_moves tbl tbl' :
  evolved tbl tbl' → ∀ r, r ∈ tbl → ∃ r', r' ∈ tbl' ∧ descends r r' ∧ rtc status_move (row_status r) (row_status r').
Proof.
  induction 1 as [tbl|t1 t2 t3 Hs _ IH]; intros r Hr; [by exists r|].
  destruct (row_step_moves _ _ _ Hs Hr) as (r1 & Hr1 & Hd1 & Hm). destruct (IH r1 Hr1) as (r2 & Hr2 & Hd2 & Hm2).
  exists r2. split; [done|]. split; [by etrans|]. destruct Hm as [<-|Hm]; [done|by eapply rtc_l].
Qed.

(** What the schema and the life cycle of a request say of a row. *)
Record well_typed (r : Row) : Prop := mkWellTyped {
  wt_type : TypeValidator (row_type r) = None;
  wt_status : StatusValidator (row_status r) = None;
  wt_id : 0 < row_id r < two63;
  wt_blocks : row_start_block r < two63 ∧ row_end_block r < two63;
  wt_waiting : row_status r = StatusUNREQ → row_proof r = None;
  wt_l1 : row_l1_block_number r ≠ None ∨ row_l1_block_hash r ≠ None → row_type r = TypeAGG;
}.

Lemma at_id_typed id (f : Row → Row) tbl :
  (∀ r, well_typed r → well_typed (f r)) → Forall well_typed tbl → Forall well_typed (at_id id f tbl).
Proof.
  intros Hf Hall. apply Forall_fmap. eapply Forall_impl; [exact Hall|]. intros r Hr. cbn. case_decide; auto.
Qed.

Lemma row_step_typed tbl tbl' : row_step tbl tbl' → Forall well_typed tbl → Forall well_typed tbl'.
Proof.
  intros [id t a b now Hid Hfr Ht Ha Hb|id st t Hst|id pid t1 t2|s e n h t|r0 pf t Hr0 Hone Hst Hpf] Hall.
  - apply Forall_app. split; [done|]. apply Forall_singleton. split; simpl; try done; [by destruct Ht as [-> | ->]|by intros []].
  - apply at_id_typed; [|done]. intros [] []. split; simpl in *; try done; by destruct Hst as [->|[->| ->]].
  - apply at_id_typed; [|done]. intros [] []. by split.
  - apply Forall_fmap. eapply Forall_impl; [exact Hall|]. intros r Hr. cbn. case_decide as Hagg; [|done].
    destruct Hagg as (Hty & _). destruct r, Hr. by split.
  - apply at_id_typed; [|done]. intros [] []. by split.
Qed.

Lemma evolved_typed tbl tbl' : evolved tbl tbl' → Forall well_typed tbl → Forall well_typed tbl'.
Proof. induction 1 as [|t1 t2 t3 Hs _ IH]; [done|]. intros Hall. by eapply IH, row_step_typed. Qed.

(** ** One command of one goroutine *)

(** What a goroutine has of a transaction it has open: the number of commands
    after which it has ended it, and its content. *)
Abbreviation txn := (option (nat * list Row)).

Section goroutines.
Context `{SqlLaws, External}.
Implicit Types (w : World).

Definition is_tx (h : Handle) : bool := match h with HTx => true | _ => false end.

(** The commands of a [*sql.Tx]. *)
Definition uses_tx {R} (c : cmd R) : bool :=
  match c with
  | CDb (SqlCreate h _) | CDb (SqlUpdateNodes h _) | CDb (SqlUpdateNode h _) | CDb (SqlQuery h _)
  | CDb (SqlSelect h _) | CDb (SqlCount h _) | CDb (SqlDelete h _) => is_tx h
  | CDb TxCommit | CDb TxRollback => true
  | _ => false
  end.

(** The transaction of another goroutine is not the goroutine's own: its own,
    if it had one, is over. *)
Definition exec_local (own : bool) {R} (c : cmd R) w : option (R * World) :=
  if uses_tx c && negb own then (λ x, (x.1, with_tx (w_tx w) x.2)) <$> exec c (with_tx None w)
  else exec c w.

Definition step_local (own : bool) {A} (p : prog A) w : option (prog A * World) :=
  match p with
  | Do c k => (λ x, (k x.1, x.2)) <$> exec_local own c w
  | _ => None
  end.

(** ** What a goroutine keeps to

    [tx] is the transaction the goroutine has open. *)

Definition view (tx : txn) w : Prop :=
  match tx with
  | None => True
  | Some (_, t) => ∃ s, w_tx w = Some s ∧ sg_rows s = t ∧ evolved (rows w) t
  end.

Definition own (tx : txn) : bool := match tx with Some _ => true | None => false end.

(** The most commands between the begin of a transaction and its end. *)
Definition tx_commands : nat := 4.

Definition effect (tx : txn) w (tx' : txn) w' : Prop :=
  match tx, tx' with
  | None, None => w_tx w' = w_tx w ∧ evolved (rows w) (rows w') ∧ (w_tx w ≠ None → rows w' = rows w)
  | None, Some (n, t) =>
      w_tx w = None ∧ (∃ s, w_tx w' = Some s ∧ sg_rows s = t) ∧ rows w' = rows w ∧ t = rows w ∧ (n <= tx_commands)%nat
  | Some (n, t), Some (n', t') =>
      (∃ s, w_tx w' = Some s ∧ sg_rows s = t') ∧ rows w' = rows w ∧ evolved t t' ∧ (n' < n)%nat
  | Some (n, t), None => w_tx w' = None ∧ (rows w' = t ∨ rows w' = rows w) ∧ (0 < n)%nat
  end.

(** A command blocks only without a transaction, and only while another
    goroutine has one. *)
Definition waits (tx : txn) {R} (c : cmd R) : Prop :=
  ∀ w, view tx w → exec_local (own tx) c w = None → tx = None ∧ w_tx w ≠ None.

Fixpoint tame {A} (tx : txn) (p : prog A) (Q : outcome A → txn → Prop) : Prop :=
  match p with
  | Ret a => Q (Ok a) tx
  | Raise e => Q (Fail e) tx
  | Panic m => Q (Panicked m) tx
  | OutOfFuel => Q NoFuel tx
  | Do c k =>
      waits tx c ∧
      ∀ w r w', view tx w → exec_local (own tx) c w = Some (r, w') →
        ∃ tx', effect tx w tx' w' ∧ tame tx' (k r) Q
  end.

(** The outcome of a first part, on which the rest depends when it is a value. *)
Definition or_rest {A B} (f : A → txn → Prop) (Q : outcome B → txn → Prop)
    (o : outcome A) : txn → Prop :=
  match o with
  | Ok a => f a
  | Fail e => Q (Fail e)
  | Panicked m => Q (Panicked m)
  | NoFuel => Q NoFuel
  | Blocked => λ _, True
  end.

(** The same for programs that are made of a program. *)
Ltac tame_ind p :=
  match goal with |- context [tame ?tx p _] => revert tx end;
  induction p as [a|e|m| |R c k IH]; intros tx; cbn;
  [| | | |
   intros [Hw Hp]; split; [done|]; intros w r w' Hv He;
   destruct (Hp w r w' Hv He) as (tx' & Hx & Hk); exists tx'; split; [done|by apply IH]].

Lemma tame_mono {A} tx (p : prog A) (Q Q' : outcome A → txn → Prop) :
  (∀ r tx', Q r tx' → Q' r tx') → tame tx p Q → tame tx p Q'.
Proof. intros HQ. tame_ind p; apply HQ. Qed.

Lemma tame_bind {A B} tx (p : prog A) (f : A → prog B) Q :
  tame tx p (or_rest (λ a tx', tame tx' (f a) Q) Q) → tame tx (p ≫= f) Q.
Proof. unfold mbind, prog_mbind. tame_ind p; done. Qed.

Lemma tame_attempt {A} tx (p : prog A) (Q : outcome (error + A) → txn → Prop) :
  tame tx p (λ o, Q match o with
                    | Ok a => Ok (inr a) | Fail e => Ok (inl e) | Panicked m => Panicked m
                    | NoFuel => NoFuel | Blocked => Blocked
                    end) → tame tx (attempt p) Q.
Proof. tame_ind p; done. Qed.

Lemma tame_map_err {A} tx f (p : prog A) Q :
  tame tx p (λ o, Q match o with Fail e => Fail (f e) | o => o end) → tame tx (map_err f p) Q.
Proof. tame_ind p; done. Qed.

Lemma tame_defer {A} tx d (p : prog A) Q :
  tame tx p (λ o tx', match o with NoFuel | Blocked => Q o tx' | _ => tame tx' d (or_rest (λ _, Q o) Q) end) →
  tame tx (defer d p) Q.
Proof.
  tame_ind p; [..|done]; intros Hd;
    apply (tame_bind tx d); (eapply tame_mono; [|exact Hd]); by intros [].
Qed.

(** *** One command *)

Lemma exec_local_plain {R} b (c : cmd R) w : uses_tx c = false → exec_local b c w = exec c w.
Proof. unfold exec_local. by intros ->. Qed.

(** A call to the outside, or a change of the process's own state. *)
Definition spent (tx : txn) : txn := match tx with Some (n, t) => Some (pred n, t) | None => None end.
Definition affordable (tx : txn) : Prop := match tx with Some (n, _) => (0 < n)%nat | None => True end.

Lemma tame_quiet {R} tx (c : cmd R) Q :
  uses_tx c = false → (∀ w, exec c w ≠ None) →
  (∀ w r w', exec c w = Some (r, w') → rows w' = rows w ∧ w_tx w' = w_tx w) →
  affordable tx → (∀ r, Q (Ok r) (spent tx)) → tame tx (Do c Ret) Q.
Proof.
  intros Hu Hn Hx Haf HQ. split.
  - intros w _. rewrite exec_local_plain by done. by intros He%Hn.
  - intros w r w' Hv. rewrite exec_local_plain by done. intros He. destruct (Hx w r w' He) as [Hr Ht].
    exists (spent tx). split; [|apply HQ]. destruct tx as [[n t]|]; cbn in *.
    + destruct Hv as (s & Hs & Hst & _). rewrite Ht. split_and!; [by eauto|done|done|lia].
    + by rewrite Hr.
Qed.

Lemma tame_ask {R} tx (c : ExtCmd R) Q : affordable tx → (∀ r, Q (Ok r) (spent tx)) → tame tx (ask c) Q.
Proof.
  apply (tame_quiet tx (CExt c)); [done|done|]. intros w r w' [= He].
  pose proof (exec_ext_same c w) as Hs. rewrite He in Hs.
  split; [by apply same_proc_rows|]. by destruct Hs as (_ & _ & _ & ? & _).
Qed.

(** The commands on the process that a running proposer uses. *)
Definition running_cmd {R} (c : ProcCmd R) : bool :=
  match c with PMetric _ | PSpawn _ | PSelectTick => true | _ => false end.

Lemma tame_proc {R} (c : ProcCmd R) Q : running_cmd c → (∀ r, Q (Ok r) None) → tame None (proc c) Q.
Proof.
  intros Hc. apply (tame_quiet None (CProc c)); [done|..]; destruct c; try done; intros w; cbn.
  - destruct (done_closed (w_driver w)); [|done]. by destruct (ext_select (w_ext w)).
  - intros r w' [= _ <-]. by destruct w.
  - intros r w' [= _ <-]. by destruct w.
  - intros r w'. destruct (done_closed (w_driver w)); [destruct (ext_select (w_ext w))|]; intros [= _ <-]; by destruct w.
Qed.

(** *** The database *)

Lemma tame_read {X} (c : DbCmd (sqlerr + X)) f Q :
  uses_tx (CDb c) = false → (∀ w, exec_db c w = on_handle HRead f w) →
  (∀ s r s', f s = (r, s') → sg_rows s' = sg_rows s) →
  (∀ r, Q (Ok r) None) → tame None (db c) Q.
Proof.
  intros Hu Hc Hf. apply (tame_quiet None (CDb c)); [done|..|done]; intros w; cbn; rewrite Hc; cbn.
  - destruct (w_ropen w); [|done]. by destruct (f (w_db w)).
  - intros r w'. destruct (w_ropen w); [|by intros [= _ <-]].
    destruct (f (w_db w)) as [r' s'] eqn:E. intros [= _ <-]. unfold rows. destruct w. simpl in *. by eapply Hf in E.
Qed.

(** A write outside a transaction waits for one that is open, and has the table
    to itself otherwise. *)
Lemma tame_write {X} (c : DbCmd (sqlerr + X)) f Q :
  uses_tx (CDb c) = false → (∀ w, exec_db c w = on_handle HWrite f w) →
  (∀ s r s', f s = (r, s') → evolved (sg_rows s) (sg_rows s')) →
  (∀ r, Q (Ok r) None) → tame None (db c) Q.
Proof.
  intros Hu Hc Hf HQ. split.
  - intros w _. rewrite exec_local_plain by done. cbn. rewrite Hc. cbn.
    destruct (w_wopen w); [|done]. destruct (w_tx w); [done|]. by destruct (f (w_db w)).
  - intros w r w' _. rewrite exec_local_plain by done. cbn. rewrite Hc. cbn. intros He.
    exists None. split; [|apply HQ]. cbn. destruct (w_wopen w); [|injection He as _ <-; done].
    destruct (w_tx w) eqn:Ht; [done|]. destruct (f (w_db w)) as [r' s'] eqn:E. injection He as _ <-.
    unfold rows. destruct w. simpl in *. split; [done|]. split; [by eapply Hf|done].
Qed.

Lemma tame_create c Q :
  (∀ id r tbl, 0 < id < two63 → (∀ r', r' ∈ tbl → row_id r' ≠ id) → build_row id (cs_fields c) = Some r →
     row_step tbl (tbl ++ [r])) →
  (∀ r, Q (Ok r) None) → tame None (db (SqlCreate HWrite c)) Q.
Proof.
  intros Hc. apply tame_write with (f := sg_create c); [done|done|]. intros s [e|id] s' E.
  - by apply sg_create_err in E as ->.
  - apply sg_create_ok in E as (Hid & Hfr & r & Hb & ->). by apply rtc_once, (Hc id).
Qed.

Lemma tame_update u Q :
  (∀ tbl tbl', update_rows u tbl = Some tbl' → row_step tbl tbl') →
  (∀ r, Q (Ok r) None) → tame None (db (SqlUpdateNodes HWrite u)) Q.
Proof.
  intros Hu. apply tame_write with (f := sg_update_nodes u); [done|done|]. intros s [e|n] s' E.
  - by apply sg_update_nodes_err in E as ->.
  - apply sg_update_nodes_ok in E as [E _]. by apply rtc_once, Hu.
Qed.

Lemma tame_query q Q : qs_unique q = false → (∀ r, Q (Ok r) None) → tame None (db (SqlQuery HRead q)) Q.
Proof.
  intros Hq. apply tame_read with (f := sg_query q); [done|done|]. intros s [e|n] s' E.
  - by apply sg_query_err in E as ->.
  - by apply sg_query_ok in E as [-> _].
Qed.

Lemma tame_count q Q :
  qs_limit q = 0 → qs_offset q = 0 → (∀ r, Q (Ok r) None) → tame None (db (SqlCount HRead q)) Q.
Proof.
  intros Hl Ho. apply tame_read with (f := sg_count q); [done|done|]. intros s [e|n] s' E.
  - by apply sg_count_err in E as ->.
  - by apply sg_count_ok in E as [-> _].
Qed.

(** *** Inside the goroutine's own transaction *)

Lemma tame_begin (Q : outcome (sqlerr + unit) → txn → Prop) :
  (∀ t, Q (Ok (inr tt)) (Some (tx_commands, t))) → (∀ e, Q (Ok (inl e)) None) → tame None (db (TxBegin None)) Q.
Proof.
  intros HT HE. split.
  - intros w _. rewrite exec_local_plain by done. cbn. destruct (w_wopen w); [|done].
    destruct (w_tx w); [done|]. by destruct (sg_begin None (w_db w)) as [[]].
  - intros w r w' _. rewrite exec_local_plain by done. cbn. destruct (w_wopen w) eqn:Hw.
    2: { intros [= <- <-]. exists None. by split. }
    destruct (w_tx w) eqn:Ht; [done|]. destruct (sg_begin None (w_db w)) as [[e|t] s] eqn:E; intros [= <- <-].
    + exists None. split; [|apply HE]. apply sg_begin_err in E. unfold rows. destruct w. simpl in *. by rewrite E.
    + exists (Some (tx_commands, rows w)). split; [|apply HT]. apply sg_begin_ok in E as [Et Es].
      unfold rows. destruct w. simpl in *. split_and!; [done|by exists t|done|done|done].
Qed.

Lemma tame_in_tx {X} n t (c : DbCmd (sqlerr + X)) f Q :
  (∀ b w, exec_local b (CDb c) w = exec_db c w ∨ b = false) → (∀ w, exec_db c w = on_handle HTx f w) →
  (∀ s r s', f s = (r, s') → sg_rows s = t → evolved t (sg_rows s') ∧ Q (Ok r) (Some (n, sg_rows s'))) →
  tame (Some (S n, t)) (db c) Q.
Proof.
  intros Hl Hc Hf. split; intros w.
  - intros (s & Hs & _). destruct (Hl true w) as [Hl'|]; [|done]. cbn [own] in *. rewrite Hl', Hc. cbn. rewrite Hs.
    by destruct (f s).
  - intros r w' (s & Hs & Ht & _). destruct (Hl true w) as [Hl'|]; [|done]. cbn [own] in *. rewrite Hl', Hc. cbn.
    rewrite Hs. destruct (f s) as [r' s'] eqn:E. intros [= <- <-]. destruct (Hf s r' s' E Ht) as [Hh HQ].
    exists (Some (n, sg_rows s')). split; [|done]. unfold rows. destruct w. simpl in *.
    split_and!; [by eexists|done|done|lia].
Qed.

Lemma tame_query_tx n t q (Q : outcome _ → txn → Prop) :
  qs_unique q = false →
  (∀ e, Q (Ok (inl e)) (Some (n, t))) →
  (∀ l, query_rows q t l → Q (Ok (inr (select_cols (qs_columns q) <$> l))) (Some (n, t))) →
  tame (Some (S n, t)) (db (SqlQuery HTx q)) Q.
Proof.
  intros Hq HE HQ. apply tame_in_tx with (f := sg_query q); [by intros []; auto|done|].
  intros s [e|cells] s' E <-.
  - by apply sg_query_err in E as ->.
  - apply sg_query_ok in E as [-> (l & Hl & ->)]; [|done]. split; [done|]. by apply HQ.
Qed.

Lemma tame_update_tx n t u (Q : outcome _ → txn → Prop) :
  (∀ t', update_rows u t = Some t' → row_step t t') → (∀ r t', Q (Ok r) (Some (n, t'))) →
  tame (Some (S n, t)) (db (SqlUpdateNode HTx u)) Q.
Proof.
  intros Hu HQ. apply tame_in_tx with (f := sg_update_node u); [by intros []; auto|done|].
  intros s [e|cells] s' E <-; (split; [|apply HQ]).
  - by apply sg_update_node_err in E as ->.
  - apply sg_update_node_ok in E as [? _]. by apply rtc_once, Hu.
Qed.

Lemma tame_commit n t (Q : outcome _ → txn → Prop) :
  (∀ r, Q (Ok r) None) → tame (Some (S n, t)) (db TxCommit) Q.
Proof.
  intros HQ. split; intros w.
  - intros (s & Hs & _). cbn. rewrite Hs. by destruct (sg_commit s _).
  - intros r w' (s & Hs & Ht & _). cbn. rewrite Hs. destruct (sg_commit s (w_db w)) as [r' s'] eqn:E.
    intros [= <- <-]. exists None. split; [|apply HQ]. unfold rows. destruct w. simpl in *.
    split; [done|]. split; [|lia]. destruct r' as [e|[]]; [right; by eapply sg_commit_err|left]. apply sg_commit_ok in E. congruence.
Qed.

(** A rollback of a transaction that is over does nothing. *)
Lemma tame_rollback tx (Q : outcome _ → txn → Prop) :
  affordable tx → (∀ r, Q (Ok r) None) → tame tx (db TxRollback) Q.
Proof.
  intros Haf HQ. split; intros w.
  - destruct tx as [[n t]|]; [|by destruct w]. intros (s & Hs & _). cbn. by rewrite Hs.
  - intros r w'. destruct tx as [[n t]|].
    + intros (s & Hs & _). cbn. rewrite Hs. intros [= <- <-]. exists None. split; [|apply HQ].
      unfold rows. destruct w. simpl in *. split; [done|]. split; [by right|done].
    + intros _. destruct w. cbn. intros [= <- <-]. exists None. split; [|apply HQ]. cbn. split_and!; done.
Qed.

End goroutines.
