(* ===== verification/Pool.v ===== *)
(** * The proposer's goroutines under any schedule

    Every function that the main loop and the request goroutines call keeps to
    [Concurrent.tame]; so whatever the scheduler does, the table follows the
    machine [row_step], requests are not lost, nor what they ask for, nor a proof
    that is stored, and the connection for writing is always given back. *)

From Stdlib Require Import ZArith Lia.
From stdpp Require Import relations.
From S2P Require Import Prelude Sql ProofRequest Metrics Encoding Prog Types Script Json Spans.
From S2P Require Import Mutation Builders Db Range Prove Driver Machine Concurrent.

Section plain.
Context `{SqlLaws, External}.
Implicit Types (w : World) (cfg : ProposerConfig).

(** A program that starts and ends without a transaction of its own. *)
Definition plain {A} (p : prog A) : Prop := tame None p (λ _ tx, tx = None).

Lemma plain_bind {A B} (p : prog A) (f : A → prog B) : plain p → (∀ a, plain (f a)) → plain (p ≫= f).
Proof. intros Hp Hf. apply tame_bind. eapply tame_mono; [|exact Hp]. intros [a| | | |] tx ->; cbn; by try apply Hf. Qed.
Lemma plain_attempt {A} (p : prog A) : plain p → plain (attempt p).
Proof. intros Hp. by apply tame_attempt. Qed.
Lemma plain_map_err {A} f (p : prog A) : plain p → plain (map_err f p).
Proof. intros Hp. by apply tame_map_err. Qed.
Lemma plain_lift {A} (r : error + A) : plain (lift r).
Proof. by destruct r. Qed.
Lemma plain_lift_err (r : option error) : plain (lift_err r).
Proof. by destruct r. Qed.
Lemma plain_ask {R} (c : ExtCmd R) : plain (ask c).
Proof. by apply (tame_ask None). Qed.
Lemma plain_proc {R} (c : ProcCmd R) : running_cmd c → plain (proc c).
Proof. intros Hc. by apply tame_proc. Qed.
Lemma plain_for_each {A} (l : list A) (f : A → prog unit) : (∀ a, plain (f a)) → plain (for_each l f).
Proof. intros Hf. induction l as [|a l IH]; [done|]. cbn [for_each]. by apply plain_bind. Qed.

(** The specifications of the rows that are written. *)
Lemma plain_create b :
  prc_driver b = HWrite →
  (prc_check (prc_mutation b) = None → ∀ id r tbl, 0 < id < two63 → (∀ r', r' ∈ tbl → row_id r' ≠ id) →
     build_row id (cs_fields (prc_createSpec (prc_mutation b)).2) = Some r → row_step tbl (tbl ++ [r])) →
  plain (prc_Save b).
Proof.
  intros Hh Hc. apply plain_bind; [|done]. unfold prc_sqlSave. rewrite Hh.
  destruct (prc_check _); [done|]. destruct (prc_createSpec _) as [node spec].
  apply plain_bind; [apply tame_create; [exact (Hc eq_refl)|done]|]. by intros [].
Qed.

Lemma plain_update b :
  pru_driver b = HWrite →
  (∀ tbl tbl', update_rows (pru_updateSpec (pru_mutation b)) tbl = Some tbl' → row_step tbl tbl') → plain (pru_Save b).
Proof.
  intros Hh Hg. apply plain_bind; [|done]. unfold pru_sqlSave. rewrite Hh.
  destruct (pru_check _); [done|]. apply plain_bind; [by apply tame_update|]. by intros [].
Qed.

Lemma plain_all q : prq_driver q = HRead → prq_unique q = None → plain (prq_All q).
Proof.
  intros Hh Hu. unfold prq_All. apply plain_bind; [apply plain_lift_err|]. intros _. unfold prq_sqlAll. rewrite Hh.
  destruct (selector_Err _); [done|]. apply plain_bind; [apply tame_query; [by cbn; rewrite Hu|done]|].
  intros [e|cells]; [done|]. apply plain_lift.
Qed.

Lemma plain_count q :
  prq_driver q = HRead → prq_limit q = None → prq_offset q = None → plain (prq_Count q).
Proof.
  intros Hh Hl Ho. unfold prq_Count. apply plain_bind; [apply plain_lift_err|]. intros _. unfold prq_sqlCount. rewrite Hh.
  apply plain_bind; [apply tame_count; [by cbn; rewrite Hl|by cbn; rewrite Ho|done]|]. by intros [].
Qed.

Lemma plain_first q : prq_driver q = HRead → prq_unique q = None → plain (prq_First q).
Proof.
  intros Hh Hu. apply plain_bind; [|by intros []]. apply plain_all; by destruct q.
Qed.

Lemma plain_only q : prq_driver q = HRead → prq_unique q = None → plain (prq_Only q).
Proof.
  intros Hh Hu. apply plain_bind; [|by intros [|? []]]. apply plain_all; by destruct q.
Qed.

Create HintDb plain.

(** From the text of a function: its binds, its branches, and the calls the
    database of hints knows. *)
Ltac plain_step :=
  lazymatch goal with
  | |- ∀ _, _ => intro
  | |- plain (_ ≫= _) => apply plain_bind
  | |- plain (attempt _) => apply plain_attempt
  | |- plain (map_err _ _) => apply plain_map_err
  | |- plain (lift _) => apply plain_lift
  | |- plain (lift_err _) => apply plain_lift_err
  | |- plain (ask _) => apply plain_ask
  | |- plain (call _) => unfold call
  | |- plain (proc _) => by apply plain_proc
  | |- plain (metric _) => by apply plain_proc
  | |- plain (for_each _ _) => apply plain_for_each
  | |- plain (prq_All _) => by apply plain_all
  | |- plain (prq_Count _) => by apply plain_count
  | |- plain (prq_First _) => by apply plain_first
  | |- plain (prq_Only _) => by apply plain_only
  | |- plain (match ?x with _ => _ end) => destruct x
  | |- plain (Ret _) => reflexivity
  | |- plain (Raise _) => reflexivity
  | |- plain (Panic _) => reflexivity
  | |- plain OutOfFuel => reflexivity
  | |- plain (let x := _ in _) => cbv zeta
  end.
Ltac plain := repeat first [solve [eauto with plain] | plain_step].

(** ** The proof database *)

Lemma plain_now : plain now.
Proof. unfold now. plain. Qed.
#[local] Hint Resolve plain_now : plain.

Lemma plain_NewEntry t s e : plain (NewEntry t s e).
Proof.
  unfold NewEntry. plain. apply plain_create; [done|]. intros Hc id r tbl Hid Hf Hb.
  assert (t = TypeSPAN ∨ t = TypeAGG) as Hty.
  { unfold prc_check, first_error in Hc. simpl in Hc. unfold TypeValidator in Hc.
    repeat case_bool_decide; simplify_eq/=; auto. }
  simpl in Hb. unfold build_row in Hb. simpl in Hb.
  destruct (s <? two63) eqn:?, (e <? two63) eqn:?, (a <? two63) eqn:?; simpl in Hb; try done.
  injection Hb as <-. apply rw_added; try done; lia.
Qed.

(** The statuses of a plain update, which every call site has. *)
Lemma plain_UpdateProofStatus id st : is_marking st → plain (UpdateProofStatus id st).
Proof.
  intros Hst. unfold UpdateProofStatus. plain. apply plain_update; [done|]. intros tbl tbl' Hu.
  eapply update_rows_at_id in Hu as ->; [by apply rw_marked|done|done|].
  intros r r' Ha. destruct r. eval_update Ha. done.
Qed.

Lemma plain_SetProverRequestID id pid : plain (SetProverRequestID_ id pid).
Proof.
  unfold SetProverRequestID_. plain. apply plain_update; [done|]. intros tbl tbl' Hu.
  eapply update_rows_at_id in Hu as ->; [apply rw_sent|done|done|].
  intros r r' Ha. destruct r. eval_update Ha. done.
Qed.

Lemma plain_AddL1BlockInfo s e n h : plain (AddL1BlockInfoToAggRequest s e n h).
Proof.
  unfold AddL1BlockInfoToAggRequest. plain. apply plain_update; [done|]. intros tbl tbl' Hu.
  eapply l1_info_update in Hu as ->. apply rw_l1.
Qed.

Lemma plain_all_or_none f q : prq_driver q = HRead → prq_unique q = None → plain (all_or_none f q).
Proof. intros. unfold all_or_none. plain. Qed.
Lemma marking_WITNESSGEN : is_marking StatusWITNESSGEN.
Proof. by left. Qed.
Lemma marking_PROVING : is_marking StatusPROVING.
Proof. by right; left. Qed.
Lemma marking_FAILED : is_marking StatusFAILED.
Proof. by right; right. Qed.
#[local] Hint Resolve plain_NewEntry plain_UpdateProofStatus plain_SetProverRequestID plain_AddL1BlockInfo
  marking_WITNESSGEN marking_PROVING marking_FAILED : plain.

(** The only write of a proof: inside a transaction, to the one request with
    this id, which is PROVING and has none. *)
Lemma tame_fulfil k t r pf n :
  matching [ID (row_id r)] t = [r] → row_status r = StatusPROVING → row_proof r = None →
  tame (Some (S k, t)) (pruo_Save (pruo_SetLastUpdatedTime n (pruo_SetStatus StatusCOMPLETE
    (pruo_SetProof pf (Client_UpdateOne HTx (entity r))))))
    (λ o tx, (∃ t', tx = Some (k, t')) ∧ o ≠ NoFuel ∧ o ≠ Blocked).
Proof.
  intros Hm Hst Hpf. apply tame_bind.
  eapply tame_mono with (Q := λ o tx, (∃ t', tx = Some (k, t')) ∧ o ≠ NoFuel ∧ o ≠ Blocked);
    [by intros [[]| | | |] tx (? & ? & ?)|].
  unfold pruo_sqlSave. cbn -[db]. apply tame_bind. apply tame_update_tx.
  - intros t' Hu.
    assert (∀ x, x ∈ t → row_id x = row_id r → x = r) as Hone.
    { intros x Hin Hx. assert (x ∈ matching [ID (row_id r)] t) as Hin'.
      { apply list_elem_of_filter. split; [|done]. autorewrite with sat. rewrite andb_true_r. by case_bool_decide. }
      rewrite Hm in Hin'. by apply list_elem_of_singleton in Hin'. }
    assert (t' = at_id (row_id r) (with_proof pf n) t) as ->.
    { eapply update_rows_inv in Hu as ->; [apply list_fmap_ext; intros i x _|].
      - unfold touched. cbn. rewrite andb_true_r. by case_bool_decide; case_decide.
      - intros x x' _ Ha. destruct x, pf; by eval_update Ha. }
    assert (r ∈ matching [ID (row_id r)] t) as Hin by (rewrite Hm; by left).
    apply list_elem_of_filter in Hin as [_ Hin]. by apply rw_fulfilled.
  - intros [e|cells] t'; cbn; [by eauto|]. destruct (scan_node _ _); cbn; by eauto.
Qed.

Lemma tame_only_tx n t id (Q : outcome ProofRequest → txn → Prop) :
  (∀ e, Q (Fail e) (Some (n, t))) →
  (∀ r, matching [ID id] t = [r] → Q (Ok (entity r)) (Some (n, t))) →
  tame (Some (S n, t)) (prq_Only (prq_Where [ID id] (Client_Query HTx))) Q.
Proof.
  intros HE HQ. apply tame_bind. unfold prq_All, prq_prepareQuery, prq_sqlAll. cbn -[db].
  apply tame_bind, tame_query_tx; [done|by intros e; cbn; apply HE|].
  intros l (full & Hp & _ & ->). unfold or_rest at 1.
  change (prq_columns _) with Columns. cbn -[select_cols Columns take].
  rewrite scan_nodes_full. destruct full as [|r [|r' full]]; cbn; try apply HE. apply HQ.
  symmetry in Hp. by apply Permutation_singleton_r in Hp.
Qed.

Lemma tame_Client_Tx (Q : outcome unit → txn → Prop) :
  (∀ t, Q (Ok tt) (Some (tx_commands, t))) → (∀ e, Q (Fail e) None) → tame None (Client_Tx false) Q.
Proof. intros HT HE. apply tame_bind, tame_begin; [apply HT|]. intros e. apply HE. Qed.

(** Query, clock, update, and the commit or the rollback. *)
Lemma plain_AddFulfilledProof id pf : plain (AddFulfilledProof id pf).
Proof.
  unfold AddFulfilledProof. apply tame_bind, tame_map_err, tame_Client_Tx; [|done].
  intros t. cbn [or_rest]. apply tame_defer.
  assert (∀ tx (Q : outcome unit → txn → Prop), affordable tx → (∀ o, Q o None) →
    tame tx (_ ← attempt Tx_Rollback; Ret tt) Q) as Hroll.
  { intros tx Q Haf HQ. apply tame_bind, tame_attempt, tame_bind, tame_rollback; [done|]. by intros [[]|]; apply HQ. }
  eapply tame_mono with (Q := λ o tx, o ≠ NoFuel ∧ o ≠ Blocked ∧ affordable tx).
  { intros [[]|e|m| |] tx (? & ? & ?); try done; (apply Hroll; [done|]); by intros []. }
  apply tame_bind, tame_map_err, tame_only_tx; [intros e; cbn; split_and!; [done..|lia]|].
  intros r Hm. cbn [or_rest]. case_bool_decide as Hst; cbn [negb]; [|by cbn; split_and!; [done..|lia]].
  case_bool_decide as Hpf; [by cbn; split_and!; [done..|lia]|].
  unfold now. apply tame_bind, tame_bind, tame_ask; [cbn; lia|]. intros now. cbn [or_rest spent pred].
  assert (row_id r = id) as <-.
  { assert (r ∈ matching [ID id] t) as Hin by (rewrite Hm; by left).
    apply list_elem_of_filter in Hin as [Hin _]. autorewrite with sat in Hin.
    rewrite andb_true_r in Hin. by apply bool_decide_unpack in Hin. }
  assert (row_proof r = None) as Hpf' by (destruct (row_proof r) eqn:E; [by destruct Hpf; cbn; rewrite E|done]).
  apply tame_bind, tame_map_err.
  eapply tame_mono; [|eapply tame_fulfil; [exact Hm|exact Hst|exact Hpf']].
  intros [node|e|m| |] tx ((t' & ->) & ? & ?); cbn [or_rest]; try done; try (by cbn; split_and!; [done..|lia]).
  by apply tame_map_err, tame_bind, tame_commit; intros [e|[]].
Qed.
#[local] Hint Resolve plain_AddFulfilledProof : plain.

Lemma plain_GetAllProofsWithStatus st : plain (GetAllProofsWithStatus st).
Proof. by apply plain_all_or_none. Qed.
Lemma plain_GetAllCompletedAggProofs s : plain (GetAllCompletedAggProofs s).
Proof. by apply plain_all_or_none. Qed.
Lemma plain_GetNextUnrequestedProof : plain GetNextUnrequestedProof.
Proof. unfold GetNextUnrequestedProof. plain. Qed.
Lemma plain_GetNumberOfRequestsWithStatuses l : plain (GetNumberOfRequestsWithStatuses l).
Proof. unfold GetNumberOfRequestsWithStatuses. plain. Qed.
Lemma plain_GetLatestEndBlock : plain GetLatestEndBlock.
Proof. unfold GetLatestEndBlock. plain. Qed.
Lemma plain_GetMaxContiguousSpanProofRange s : plain (GetMaxContiguousSpanProofRange s).
Proof. unfold GetMaxContiguousSpanProofRange. plain. Qed.
Lemma plain_GetConsecutiveSpanProofs s e : plain (GetConsecutiveSpanProofs s e).
Proof. unfold GetConsecutiveSpanProofs. plain. Qed.
Lemma plain_GetProofRequests t s e st : plain (GetProofRequestsWithBlockRangeAndStatus t s e st).
Proof. unfold GetProofRequestsWithBlockRangeAndStatus. plain. Qed.
#[local] Hint Resolve plain_GetAllProofsWithStatus plain_GetAllCompletedAggProofs plain_GetNextUnrequestedProof
  plain_GetNumberOfRequestsWithStatuses plain_GetLatestEndBlock plain_GetMaxContiguousSpanProofRange
  plain_GetConsecutiveSpanProofs plain_GetProofRequests : plain.

Lemma plain_TryCreateAgg s e : plain (TryCreateAggProofFromSpanProofs s e).
Proof. unfold TryCreateAggProofFromSpanProofs. plain. Qed.
#[local] Hint Resolve plain_TryCreateAgg : plain.

(** ** The stages of the loop *)

Lemma plain_GetRangeProofBoundaries cfg : plain (GetRangeProofBoundaries cfg).
Proof. unfold GetRangeProofBoundaries, latest_l2_end_block, dial_rollup. plain. Qed.

Lemma plain_RetryRequest r st : plain (RetryRequest r st).
Proof. unfold RetryRequest. plain. Qed.
#[local] Hint Resolve plain_RetryRequest : plain.

Lemma plain_http_do r b : plain (http_do r b).
Proof. unfold http_do. plain. Qed.
#[local] Hint Resolve plain_http_do : plain.

Lemma plain_ProcessProvingRequests cfg : plain (ProcessProvingRequests cfg).
Proof. unfold ProcessProvingRequests, process_proving, GetProofStatus, check_url. plain. Qed.
Lemma plain_ProcessWitnessgenRequests cfg : plain (ProcessWitnessgenRequests cfg).
Proof. unfold ProcessWitnessgenRequests, process_witnessgen. plain. Qed.
Lemma plain_DeriveAggProofs : plain DeriveAggProofs.
Proof. unfold DeriveAggProofs. plain. Qed.

Lemma plain_makeProofRequest cfg t body : plain (makeProofRequest cfg t body).
Proof. unfold makeProofRequest, check_url. plain. Qed.
#[local] Hint Resolve plain_makeProofRequest : plain.

Lemma plain_request_task cfg p next : plain (request_task cfg p next).
Proof.
  unfold request_task, RequestProof, prepareProofRequest, requestRealProof, requestMockProof. plain.
Qed.

Lemma plain_rollup_client : plain rollup_client.
Proof. unfold rollup_client. plain. Qed.
#[local] Hint Resolve plain_rollup_client : plain.

Lemma plain_GetProposerMetrics : plain GetProposerMetrics.
Proof. unfold GetProposerMetrics, sync_status. plain. Qed.

Lemma plain_RequestQueuedProofs cfg : plain (RequestQueuedProofs cfg).
Proof. unfold RequestQueuedProofs, add_l1_info, checkpointBlockHash. plain. Qed.

Lemma plain_wait_l1_head fuel n h : plain (wait_l1_head fuel n h).
Proof.
  revert h. induction fuel as [|fuel IH]; intros h; cbn [wait_l1_head]; plain. Qed.
#[local] Hint Resolve plain_wait_l1_head : plain.

Lemma plain_SubmitAggProofs fuel cfg : plain (SubmitAggProofs fuel cfg).
Proof. unfold SubmitAggProofs, FetchOutput, proposeOutput, sendTransaction, waitForL1Head, newTicker, GetBondAmount. plain. Qed.

Lemma plain_run_stages l : Forall plain l → plain (run_stages l).
Proof. induction 1 as [|p l Hp _ IH]; cbn [run_stages]; plain. Qed.

Lemma plain_stages fuel cfg : Forall plain (stages fuel cfg).
Proof.
  repeat apply Forall_cons_2; [..|by apply Forall_nil_2]; plain.
  - apply plain_GetProposerMetrics.
  - apply plain_GetRangeProofBoundaries.
  - apply plain_ProcessProvingRequests.
  - apply plain_ProcessWitnessgenRequests.
  - apply plain_DeriveAggProofs.
  - apply plain_RequestQueuedProofs.
  - apply plain_SubmitAggProofs.
Qed.

Lemma plain_loop n fuel cfg : plain (loop n fuel cfg).
Proof.
  assert (plain (loop_ticks n fuel cfg)) as HL.
  { induction n as [|n IH]; cbn [loop_ticks]; [done|]. plain. apply plain_run_stages, plain_stages. }
  unfold loop, waitNodeSync, loopL2OO, newTicker. plain.
Qed.

End plain.

(** ** The pool *)

Section pool.
Context `{SqlGraph, External}.
Implicit Types (w : World).

(** The goroutines, the one that has the open transaction, and the process. *)
Record pool := mkPool {
  threads : list (prog unit);
  owner : option nat;
  pworld : World;
}.

(** The goroutine at [i] runs one command; [None] when it cannot. *)
Definition pool_next (i : nat) (P : pool) : option pool :=
  p ← threads P !! i;
  '(p', w') ← step_local (bool_decide (owner P = Some i)) p (pworld P);
  Some (mkPool (<[i := p']> (threads P))
          (match w_tx w' with
           | None => None
           | Some _ => match owner P with Some j => Some j | None => Some i end
           end) w').

(** A schedule; a goroutine that cannot move passes. *)
Definition pool_run (sched : list nat) (P : pool) : pool :=
  foldl (λ P i, default P (pool_next i P)) P sched.

(** Some goroutine moves, or a request goroutine that the loop has asked for
    starts (it may do so more than once). *)
Inductive pool_step (cfg : ProposerConfig) : relation pool :=
| pool_moves i P P' : pool_next i P = Some P' → pool_step cfg P P'
| pool_starts p next P : TaskRequest p next ∈ w_tasks (pworld P) →
    pool_step cfg P (mkPool (threads P ++ [request_task cfg p next]) (owner P) (pworld P)).

Lemma pool_run_steps cfg sched P : rtc (pool_step cfg) P (pool_run sched P).
Proof.
  revert P. induction sched as [|i sched IH]; intros P; [done|]. unfold pool_run. cbn [foldl].
  destruct (pool_next i P) as [P'|] eqn:E; cbn [default]; [|apply IH].
  eapply rtc_l; [by eapply pool_moves|apply IH].
Qed.

(** Loops and request goroutines, no transaction open. *)
Definition started (cfg : ProposerConfig) (P : pool) : Prop :=
  owner P = None ∧ w_tx (pworld P) = None ∧
  ∀ p, p ∈ threads P → (∃ n fuel, p = loop n fuel cfg) ∨ (∃ a b, p = request_task cfg a b).

Definition ended {A} (p : prog A) : bool := match p with Do _ _ => false | _ => true end.

End pool.

Section schedules.
Context `{SqlLaws, External}.
Context (cfg : ProposerConfig).
Implicit Types (P : pool).

(** The transaction of a goroutine, and what holds of every pool; the owner of
    the transaction has at most [n] commands left in it. *)
Definition tx_of (n : nat) P (i : nat) : txn :=
  if bool_decide (owner P = Some i) then (λ s, (n, sg_rows s)) <$> w_tx (pworld P) else None.

Record pool_at (n : nat) (tbl0 : list Row) P : Prop := mkPoolAt {
  po_evolved : evolved tbl0 (rows (pworld P));
  po_tame : ∀ i p, threads P !! i = Some p → tame (tx_of n P i) p (λ _ tx, tx = None);
  po_copy : ∀ s, w_tx (pworld P) = Some s → evolved (rows (pworld P)) (sg_rows s);
  po_owner : ∀ s, w_tx (pworld P) = Some s → ∃ i p, owner P = Some i ∧ threads P !! i = Some p;
  po_free : w_tx (pworld P) = None → owner P = None;
  po_few : (n <= tx_commands)%nat;
}.

Definition pool_ok (tbl0 : list Row) P : Prop := ∃ n, pool_at n tbl0 P.

Lemma pool_evolved tbl0 P : pool_ok tbl0 P → evolved tbl0 (rows (pworld P)).
Proof. intros [n Hok]. apply Hok. Qed.

Lemma pool_history tbl0 P : pool_ok tbl0 P → history tbl0 (rows (pworld P)).
Proof. intros Hok. by apply evolved_history, pool_evolved. Qed.

Lemma started_ok P : started cfg P → pool_ok (rows (pworld P)) P.
Proof.
  intros (Ho & Ht & Hp). exists 0%nat. split; [constructor|..|by rewrite Ht|by rewrite Ht|done|lia].
  intros i p Hi. unfold tx_of. rewrite Ho. cbn. apply list_elem_of_lookup_2 in Hi.
  destruct (Hp p Hi) as [(n & fuel & ->)|(a & b & ->)]; [apply plain_loop|apply plain_request_task].
Qed.

Lemma view_own n tbl0 P i : pool_at n tbl0 P → view (tx_of n P i) (pworld P).
Proof.
  intros Hok. unfold tx_of. case_bool_decide; [|done]. destruct (w_tx (pworld P)) as [s|] eqn:E; [|done].
  exists s. split_and!; [done|done|by apply (po_copy _ _ _ Hok)].
Qed.

Lemma own_tx n tbl0 P i : pool_at n tbl0 P → own (tx_of n P i) = bool_decide (owner P = Some i).
Proof.
  intros Hok. unfold tx_of. case_bool_decide as Hi; [|done].
  destruct (w_tx (pworld P)) eqn:E; [done|]. by rewrite (po_free _ _ _ Hok E) in Hi.
Qed.

Lemma pool_next_inv P P' i :
  pool_next i P = Some P' → ∃ R (c : cmd R) k r w',
    threads P !! i = Some (Do c k) ∧ exec_local (bool_decide (owner P = Some i)) c (pworld P) = Some (r, w') ∧
    P' = mkPool (<[i := k r]> (threads P))
           (match w_tx w' with None => None | Some _ => match owner P with Some j => Some j | None => Some i end end) w'.
Proof.
  unfold pool_next. intros (p & Hp & Hs)%bind_Some. apply bind_Some in Hs as ([p' w'] & Hs & [= <-]).
  destruct p as [| | | |R c k]; try done. cbn in Hs. apply fmap_Some in Hs as ([r w1] & He & [= -> ->]).
  by exists R, c, k, r, w1.
Qed.

(** The owner after a move with an effect, and everybody's transaction. *)
Lemma moved_tx n tbl0 P ts i tx' w' :
  let o' := match w_tx w' with None => None | Some _ => match owner P with Some j => Some j | None => Some i end end in
  let P' := mkPool ts o' w' in
  pool_at n tbl0 P → effect (tx_of n P i) (pworld P) tx' w' →
  ∃ n', tx_of n' P' i = tx' ∧ (∀ j, j ≠ i → tx_of n' P' j = tx_of n P j) ∧
    (w_tx w' ≠ None → ∃ j, o' = Some j ∧ (owner P = Some j ∨ j = i)) ∧ (n' <= tx_commands)%nat ∧
    (∀ j, owner P = Some j → o' = Some j → if decide (j = i) then (n' < n)%nat else n' = n).
Proof.
  cbv zeta. intros [_ _ _ Hown Hfree Hn] He. unfold tx_of in *. cbn [owner pworld] in *.
  destruct (w_tx (pworld P)) as [s|] eqn:Hs.
  - destruct (Hown s eq_refl) as (j & pj & Hj & _). rewrite Hj in *. cbn in He.
    case_bool_decide as Hji.
    + injection Hji as ->. destruct tx' as [[n' t']|]; cbn in He.
      * destruct He as ((s' & -> & Hs') & _ & _ & Hlt). exists n'. rewrite bool_decide_true by done. cbn.
        split; [congruence|]. split; [intros k Hk; by rewrite !bool_decide_false by congruence|].
        split; [by eauto|]. split; [lia|]. intros k [= ->] _. by rewrite decide_True.
      * destruct He as (-> & _ & _). exists n. cbn. split_and!; try done. intros k Hk. by rewrite !bool_decide_false by congruence.
    + destruct tx' as [[n' t']|]; cbn in He; [destruct He; congruence|].
      destruct He as (-> & _). exists n. rewrite Hs. rewrite bool_decide_false by done.
      split_and!; [done|done|by eauto|done|]. intros k [= <-] _. rewrite decide_False; [done|congruence].
  - rewrite (Hfree eq_refl) in *. cbn in He. destruct tx' as [[n' t']|]; cbn in He.
    + destruct He as (_ & (s' & -> & Hs') & _ & _ & Hle). exists n'. rewrite bool_decide_true by done. cbn.
      split; [congruence|]. split_and!; [intros k Hk; by rewrite !bool_decide_false by congruence|by eauto|done|done].
    + destruct He as (-> & _). exists n. rewrite Hs. split_and!; [by case_bool_decide|intros; by repeat case_bool_decide|done..].
Qed.

(** A move; the owner of the transaction spends one of its commands. *)
Lemma moves_at n tbl0 P P' i :
  pool_at n tbl0 P → pool_next i P = Some P' →
  ∃ n', pool_at n' tbl0 P' ∧
    ∀ j, owner P = Some j → owner P' = Some j → if decide (j = i) then (n' < n)%nat else n' = n.
Proof.
  intros Hok (R & c & k & r & w' & Hi & He & ->)%pool_next_inv. pose proof Hok as [Hh Ht Hc Hown Hfree _].
  pose proof (Ht i _ Hi) as [_ Htame]. rewrite <- (own_tx _ _ _ _ Hok) in He.
  destruct (Htame _ _ _ (view_own _ _ _ i Hok) He) as (tx' & Heff & Hk).
  destruct (moved_tx _ _ _ (<[i := k r]> (threads P)) _ _ _ Hok Heff) as (n' & Hti & Htj & Ho' & Hle & Hsp).
  exists n'. split; [|exact Hsp]. split; cbn [threads owner pworld].
  - unfold evolved in *. etrans; [exact Hh|]. destruct (tx_of n P i) as [[m t]|] eqn:E, tx' as [[m' t']|]; cbn in Heff.
    + destruct Heff as (_ & -> & _). constructor.
    + pose proof (view_own _ _ _ i Hok) as Hv. rewrite E in Hv. destruct Hv as (s & _ & _ & Hst).
      destruct Heff as (_ & [-> | ->] & _); [exact Hst|constructor].
    + destruct Heff as (_ & _ & -> & _). constructor.
    + by destruct Heff as (_ & ? & _).
  - intros j q Hj. destruct (decide (j = i)) as [->|Hne].
    + rewrite list_lookup_insert_eq in Hj by (by eapply lookup_lt_Some). injection Hj as <-. by rewrite Hti.
    + rewrite list_lookup_insert_ne in Hj by done. rewrite (Htj j Hne). by apply Ht.
  - intros s' Hs'. destruct (tx_of n P i) as [[m t]|] eqn:E, tx' as [[m' t']|]; cbn in Heff.
    + pose proof (view_own _ _ _ i Hok) as Hv. rewrite E in Hv. destruct Hv as (s & _ & _ & Hst).
      destruct Heff as ((s1 & Hs1 & <-) & -> & Htt & _). assert (s1 = s') as -> by congruence.
      unfold evolved in *. by etrans.
    + destruct Heff as [Hnone _]. congruence.
    + destruct Heff as (_ & (s1 & Hs1 & Et) & -> & Er & _). assert (s1 = s') as -> by congruence.
      rewrite Et, Er. constructor.
    + destruct Heff as (Htx & _ & Hsame). rewrite Htx in Hs'. rewrite Hsame by congruence. by apply Hc.
  - intros s' Hs'. destruct Ho' as (j & Hj & Hor); [by rewrite Hs'|]. rewrite Hs' in Hj.
    assert (is_Some (threads P !! j)) as Hlt.
    { destruct Hor as [Ho| ->]; [|by eexists]. destruct (w_tx (pworld P)) as [s|] eqn:Es.
      - destruct (Hown s eq_refl) as (j' & pj & Hj' & Hpj). rewrite Ho in Hj'. injection Hj' as <-. by eexists.
      - by rewrite Hfree in Ho. }
    apply lookup_lt_is_Some in Hlt. destruct (<[i := k r]> (threads P) !! j) as [q|] eqn:Eq.
    + exists j, q. by rewrite Hs'.
    + apply lookup_ge_None in Eq. rewrite length_insert in Eq. lia.
  - by intros ->.
  - exact Hle.
Qed.

Lemma moves_ok tbl0 P P' i : pool_ok tbl0 P → pool_next i P = Some P' → pool_ok tbl0 P'.
Proof. intros [n Hok] Hm. destruct (moves_at _ _ _ _ _ Hok Hm) as (n' & Hok' & _). by exists n'. Qed.

(** A goroutine that is started does not change what the others have. *)
Lemma starts_at n tbl0 P p next :
  pool_at n tbl0 P → pool_at n tbl0 (mkPool (threads P ++ [request_task cfg p next]) (owner P) (pworld P)).
Proof.
  intros [Hh Ht Hc Hown Hfree Hn]. split; cbn [threads owner pworld]; [done|..|done| |done|done].
  - intros i q Hi. change (tx_of n _ i) with (tx_of n P i). apply lookup_app_Some in Hi as [Hi|[Hlen Hi]]; [by apply Ht|].
    apply list_lookup_singleton_Some in Hi as [Hi <-]. assert (tx_of n P i = None) as ->; [|apply plain_request_task].
    unfold tx_of. case_bool_decide as Ho; [|done]. destruct (w_tx (pworld P)) as [s|] eqn:Es; [|done].
    destruct (Hown s eq_refl) as (j & q' & Hj & Hq'). rewrite Ho in Hj. injection Hj as <-.
    apply lookup_lt_Some in Hq'. lia.
  - intros s Hs. destruct (Hown s Hs) as (j & q & Hj & Hq). exists j, q. split; [done|]. by apply lookup_app_l_Some.
Qed.

Lemma starts_ok tbl0 P p next :
  pool_ok tbl0 P → pool_ok tbl0 (mkPool (threads P ++ [request_task cfg p next]) (owner P) (pworld P)).
Proof. intros [n Hok]. exists n. by apply starts_at. Qed.

Lemma reachable_ok P P' : started cfg P → rtc (pool_step cfg) P P' → pool_ok (rows (pworld P)) P'.
Proof.
  intros Hs Hr. apply started_ok in Hs. revert Hs. generalize (rows (pworld P)) as tbl0. intros tbl0 Hok.
  induction Hr as [P|P P1 P' Hstep _ IH]; [done|]. apply IH. destruct Hstep; [by eapply moves_ok|by apply starts_ok].
Qed.

(** C7: whatever the schedule of the main loop and the request goroutines,
    command by command, and whatever fails, no request is lost, none changes its
    type, its blocks or the time it was added, ids stay distinct, and a proof
    that is stored is never replaced. *)
Theorem schedules_keep_requests P P' :
  started cfg P → rtc (pool_step cfg) P P' → history (rows (pworld P)) (rows (pworld P')).
Proof. intros Hs Hr. by apply pool_history, (reachable_ok _ _ Hs Hr). Qed.

(** ** The machine of the table *)

(** C35: the goroutines refine the machine of the table, command by command.
    Whatever the schedule of the main loop and the request goroutines, and
    whatever fails, the table changes only by steps of [row_step]: requests are
    added waiting and without a proof, under an id of their own; an L1 block goes
    only to waiting aggregation requests over its range; and a proof is stored
    only in a request that is PROVING and has none.  So each request keeps its
    identity, is COMPLETE only after it was PROVING, and never waits again once
    it was marked; but a marking is not guarded, so a request that was FAILED or
    COMPLETE can be marked once more. *)
Theorem schedules_refine_rows P P' :
  started cfg P → rtc (pool_step cfg) P P' →
  rtc row_step (rows (pworld P)) (rows (pworld P')) ∧
  ∀ r, r ∈ rows (pworld P) → ∃ r', r' ∈ rows (pworld P') ∧ descends r r' ∧
    rtc status_move (row_status r) (row_status r').
Proof.
  intros Hs Hr. pose proof (pool_evolved _ _ (reachable_ok _ _ Hs Hr)) as He.
  split; [done|]. by apply evolved_moves.
Qed.

(** C36: rows stay well typed under any schedule: types and statuses are values
    of their enums, ids are positive, ids and block numbers do not exceed their
    columns, no request that waits has a proof, and only an aggregation request has an L1 block. *)
Theorem schedules_keep_types P P' :
  started cfg P → rtc (pool_step cfg) P P' →
  Forall well_typed (rows (pworld P)) → Forall well_typed (rows (pworld P')).
Proof. intros Hs Hr. by apply evolved_typed, (pool_evolved _ _ (reachable_ok _ _ Hs Hr)). Qed.

(** ** Waiting *)

(** Only a goroutine without the transaction waits, and only for the one that
    has it. *)
Lemma waits_for n tbl0 P i p :
  pool_at n tbl0 P → threads P !! i = Some p → ended p = false → pool_next i P = None →
  ∃ j, j ≠ i ∧ owner P = Some j.
Proof.
  intros Hok Hi Hp Hn. destruct p as [| | | |R c k]; try done. pose proof (po_tame _ _ _ Hok i _ Hi) as [Hw _].
  unfold pool_next in Hn. rewrite Hi in Hn. cbn in Hn. rewrite <- (own_tx _ _ _ _ Hok) in Hn.
  destruct (exec_local (own (tx_of n P i)) c (pworld P)) as [[r w']|] eqn:E; [done|].
  destruct (Hw _ (view_own _ _ _ i Hok) E) as [Hnone Htx]. destruct (w_tx (pworld P)) as [s|] eqn:Es; [|done].
  destruct (po_owner _ _ _ Hok s Es) as (j & q & Hj & _). exists j. split; [|done]. intros ->.
  unfold tx_of in Hnone. by rewrite bool_decide_true, Es in Hnone.
Qed.

(** The goroutine with the transaction has not ended. *)
Lemma owner_runs n tbl0 P j :
  pool_at n tbl0 P → owner P = Some j → ∃ p, threads P !! j = Some p ∧ ended p = false.
Proof.
  intros Hok Ho. destruct (w_tx (pworld P)) as [s|] eqn:Es; [|by rewrite (po_free _ _ _ Hok Es) in Ho].
  destruct (po_owner _ _ _ Hok s Es) as (j' & p & Hj & Hp). rewrite Ho in Hj. injection Hj as <-. exists p.
  split; [done|]. apply (po_tame _ _ _ Hok) in Hp. unfold tx_of in Hp. rewrite bool_decide_true, Es in Hp by done.
  by destruct p.
Qed.

Lemma owner_moves n tbl0 P j : pool_at n tbl0 P → owner P = Some j → is_Some (pool_next j P).
Proof.
  intros Hok Ho. destruct (owner_runs _ _ _ _ Hok Ho) as (p & Hp & He).
  destruct (pool_next j P) as [P'|] eqn:E; [done|].
  destruct (waits_for _ _ _ _ _ Hok Hp He E) as (j' & Hne & Ho'). congruence.
Qed.

(** [holding j k P P']: the goroutine at [j] has the transaction all the way from
    [P] to [P'], and makes [k] moves of its own, among any moves of the others. *)
Inductive holding (j : nat) : nat → relation pool :=
| hold_refl P : owner P = Some j → holding j 0 P P
| hold_own k P P1 P' : owner P = Some j → pool_next j P = Some P1 → holding j k P1 P' → holding j (S k) P P'
| hold_other k i P P1 P' : owner P = Some j → i ≠ j → pool_next i P = Some P1 → holding j k P1 P' → holding j k P P'
| hold_start k p next P P' :
    owner P = Some j → TaskRequest p next ∈ w_tasks (pworld P) →
    holding j k (mkPool (threads P ++ [request_task cfg p next]) (owner P) (pworld P)) P' → holding j k P P'.

Lemma holding_owner j k P P' : holding j k P P' → owner P = Some j.
Proof. by intros []. Qed.

Lemma holding_bound j k n tbl0 P P' : pool_at n tbl0 P → holding j k P P' → (k <= n)%nat.
Proof.
  intros Hok Hh. revert n Hok. induction Hh as [P Ho|k P P1 P' Ho Hm Hh IH|k i P P1 P' Ho Hne Hm Hh IH|k p next P P' Ho Ht Hh IH];
    intros n Hok; [lia|..].
  - destruct (moves_at _ _ _ _ _ Hok Hm) as (n' & Hok' & Hsp). specialize (IH n' Hok').
    specialize (Hsp j Ho (holding_owner _ _ _ _ Hh)). rewrite decide_True in Hsp by done. lia.
  - destruct (moves_at _ _ _ _ _ Hok Hm) as (n' & Hok' & Hsp). specialize (IH n' Hok').
    specialize (Hsp j Ho (holding_owner _ _ _ _ Hh)). rewrite decide_False in Hsp by done. by subst.
  - by apply IH, starts_at.
Qed.

(** C8: no deadlock, under any schedule.  A goroutine that has a command to run
    and cannot run it waits for another one, which has the one connection for
    writing; that one can always run its next command, whatever the others do;
    and it cannot have the connection for more than four commands of its own,
    however they are interleaved with those of the others and with goroutines
    that start.  So a scheduler that runs the owner again and again always gets
    the connection back, and when no goroutine can move none has a command left.
    The bounds of the loops play no part in this. *)
Theorem connection_is_given_back P P' :
  started cfg P → rtc (pool_step cfg) P P' →
  (∀ i p, threads P' !! i = Some p → ended p = false → pool_next i P' = None → ∃ j, j ≠ i ∧ owner P' = Some j) ∧
  (∀ j, owner P' = Some j → is_Some (pool_next j P')) ∧
  (∀ j k P'', holding j k P' P'' → (k <= 4)%nat) ∧
  ((∀ i, pool_next i P' = None) → ∀ p, p ∈ threads P' → ended p = true).
Proof.
  intros Hs Hr. destruct (reachable_ok _ _ Hs Hr) as [n Hok].
  split; [by intros i p Hi He Hn; eapply waits_for|]. split; [by intros j; eapply owner_moves|].
  split; [intros j k P'' Hh; pose proof (po_few _ _ _ Hok); pose proof (holding_bound _ _ _ _ _ _ Hok Hh);
    unfold tx_commands in *; lia|].
  intros Hn p Hp. destruct (ended p) eqn:He; [done|]. apply list_elem_of_lookup in Hp as [i Hi].
  destruct (waits_for _ _ _ _ _ Hok Hi He (Hn i)) as (j & _ & Hj).
  destruct (owner_moves _ _ _ _ Hok Hj) as [P1 Hm]. by rewrite Hn in Hm.
Qed.

End schedules.

(** ** A schedule *)

(** Mock proofs: the request goroutine stores the proof itself. *)
Definition mock_cfg : ProposerConfig :=
  mkConfig 12 10 1 0 (Some [Byte.x01]) None 0 true false "./op-proposer.db" true "http://beacon"
    "http://node" 40 2 20 10 3600 "http://server" 4 true.

Definition mock_row : Row := row_at t0 1 TypeSPAN 0 40 StatusUNREQ.

Definition mock_pool : @pool ListSql ProvenExternal :=
  mkPool [loop (H := ProvenExternal) 1 1 mock_cfg;
          request_task (H := ProvenExternal) mock_cfg (entity mock_row) (entity mock_row)] None
    (@mkWorld ListSql ProvenExternal (mkListStore [mock_row] []) true true None
       (with_ticks [true; false] script0) NoopMetrics driver0 [] []).

Lemma mock_started : started mock_cfg mock_pool.
Proof.
  split; [done|]. split; [done|]. intros p Hp. apply elem_of_cons in Hp as [->|Hp]; [left; by eexists _, _|].
  apply elem_of_cons in Hp as [->|Hp]; [right; by eexists _, _|]. by apply not_elem_of_nil in Hp.
Qed.

Definition stuck `{SqlGraph, External} (i : nat) (P : pool) : bool := from_option (λ _, false) true (pool_next i P).

Lemma stuck_next `{SqlGraph, External} i P : stuck i P = true → pool_next i P = None.
Proof. unfold stuck. by destruct (pool_next i P). Qed.

(** The goroutine opens its transaction; the loop polls the same request, and
    waits for the connection. *)
Definition contended : @pool ListSql ProvenExternal := pool_run (replicate 9 1%nat ++ replicate 60 0%nat) mock_pool.
Definition settled : @pool ListSql ProvenExternal := pool_run (replicate 60 1%nat ++ replicate 60 0%nat) contended.

Lemma schedules_keep_requests_witness :
  owner contended = Some 1%nat ∧ stuck 0 contended = true ∧
  (row_proof <$> rows (pworld settled)) = [Some [Byte.x07]] ∧ history [mock_row] (rows (pworld settled)).
Proof.
  split; [vm_compute; reflexivity|]. split; [vm_compute; reflexivity|]. split; [vm_compute; reflexivity|].
  apply (@schedules_keep_requests ListSql ListSql_laws ProvenExternal mock_cfg mock_pool settled mock_started).
  transitivity contended; apply pool_run_steps.
Defined.

Lemma schedules_refine_rows_witness :
  rtc row_step [mock_row] (rows (pworld settled)) ∧ rtc status_move StatusUNREQ StatusCOMPLETE.
Proof.
  destruct (@schedules_refine_rows ListSql ListSql_laws ProvenExternal mock_cfg mock_pool settled mock_started) as [Hr Hm];
    [transitivity contended; apply pool_run_steps|].
  split; [exact Hr|]. destruct (Hm mock_row) as (r' & Hin & _ & Hst); [by left|].
  assert (Forall (λ r, row_status r = StatusCOMPLETE) (rows (pworld settled))) as Hc
    by (vm_compute; repeat constructor).
  by rewrite (proj1 (Forall_forall _ _) Hc r' Hin) in Hst.
Defined.

Lemma schedules_keep_types_witness : Forall well_typed (rows (pworld settled)).
Proof.
  apply (@schedules_keep_types ListSql ListSql_laws ProvenExternal mock_cfg mock_pool settled mock_started).
  - transitivity contended; apply pool_run_steps.
  - repeat constructor; try done; by intros [].
Defined.

(** The loop waits for the goroutine, which has the connection and can move; in
    the end both have ended. *)
Lemma connection_is_given_back_witness :
  owner contended = Some 1%nat ∧ stuck 0 contended = true ∧ is_Some (pool_next 1 contended) ∧
  (∃ j, j ≠ 0%nat ∧ owner contended = Some j) ∧
  ended <$> threads settled = [true; true] ∧ (∀ p, p ∈ threads settled → ended p = true).
Proof.
  split; [vm_compute; reflexivity|]. split; [vm_compute; reflexivity|].
  destruct (@connection_is_given_back ListSql ListSql_laws ProvenExternal mock_cfg mock_pool contended mock_started)
    as (Hwait & Hmove & _); [apply pool_run_steps|].
  destruct (@connection_is_given_back ListSql ListSql_laws ProvenExternal mock_cfg mock_pool settled mock_started)
    as (_ & _ & _ & Hend); [transitivity contended; apply pool_run_steps|].
  split; [by apply Hmove; vm_compute|]. split.
  { destruct (threads contended !! 0%nat) as [p|] eqn:E.
    - apply (Hwait 0%nat p E); [|by apply stuck_next; vm_compute].
      assert ((ended <$> threads contended) !! 0%nat = Some false) as Hf by (vm_compute; reflexivity).
      rewrite list_lookup_fmap, E in Hf. by injection Hf.
    - assert (is_Some (threads contended !! 0%nat)) as [? Hx] by (apply lookup_lt_is_Some; vm_compute; lia). congruence. }
  split; [vm_compute; reflexivity|]. apply Hend.
  intros [|[|i]]; [apply stuck_next; vm_compute; reflexivity..|]. unfold pool_next.
  assert (length (threads settled) = 2%nat) as Hl by (vm_compute; reflexivity).
  rewrite (proj2 (lookup_ge_None _ _)); [done|]. rewrite Hl. lia.
Defined.
