(* ===== verification/Fuel.v ===== *)
(** * The fuel of the loops

    The loops of the source run until the process ends; here they are cut off
    after a number of rounds, which every theorem quantifies over.  A program
    with more fuel is more defined: it does the same, command by command, until
    the one with less is cut off.  So what is proved of the loops with any fuel
    holds of every finite part of a run of the source. *)

From Stdlib Require Import ZArith Lia.
From stdpp Require Import relations.
From S2P Require Import Prelude Sql ProofRequest Metrics Prog Types Db Prove Driver Concurrent Pool.

(** [p'] does what [p] does, as far as [p] goes. *)
Inductive lessdef {A} : prog A → prog A → Prop :=
| ld_fuel p : lessdef OutOfFuel p
| ld_ret a : lessdef (Ret a) (Ret a)
| ld_raise e : lessdef (Raise e) (Raise e)
| ld_panic m : lessdef (Panic m) (Panic m)
| ld_do R (c : cmd R) k k' : (∀ r, lessdef (k r) (k' r)) → lessdef (Do c k) (Do c k').

#[export] Instance lessdef_refl {A} : Reflexive (lessdef (A := A)).
Proof. intros p. induction p; by constructor. Qed.

Lemma lessdef_bind {A B} (p p' : prog A) (f f' : A → prog B) :
  lessdef p p' → (∀ a, lessdef (f a) (f' a)) → lessdef (p ≫= f) (p' ≫= f').
Proof.
  intros Hp Hf. unfold mbind, prog_mbind.
  induction Hp as [p'|a|e|m|R c k k' _ IH]; cbn [prog_bind]; [by constructor|apply Hf|by constructor..].
Qed.

Lemma lessdef_attempt {A} (p p' : prog A) : lessdef p p' → lessdef (attempt p) (attempt p').
Proof. induction 1; cbn [attempt]; by constructor. Qed.

Lemma lessdef_map_err {A} f (p p' : prog A) : lessdef p p' → lessdef (map_err f p) (map_err f p').
Proof. induction 1; cbn [map_err]; by constructor. Qed.

Section runs.
Context `{SqlGraph, External}.
Implicit Types (w : World) (cfg : ProposerConfig).

(** A run that was not cut off is the run with more fuel. *)
Lemma lessdef_run {A} (p p' : prog A) w : lessdef p p' → (run p w).1 ≠ NoFuel → run p' w = run p w.
Proof.
  intros Hp. revert w. induction Hp as [p'|a|e|m|R c k k' _ IH]; intros w Hn; try done.
  cbn [run] in *. destruct (exec c w) as [[r w']|]; [|done]. by apply IH.
Qed.

(** ** The loops of the driver *)

Lemma lessdef_wait_l1_head fuel fuel' n h :
  (fuel <= fuel')%nat → lessdef (wait_l1_head fuel n h) (wait_l1_head fuel' n h).
Proof.
  revert fuel' h. induction fuel as [|fuel IH]; intros [|fuel'] h Hle; try lia; cbn [wait_l1_head];
    (destruct (h <=? n); [|reflexivity]); [done|constructor|].
  apply lessdef_bind; [reflexivity|]. intros [|]; [|done]. apply lessdef_bind; [reflexivity|]. intros h'. apply IH. lia.
Qed.

Lemma lessdef_SubmitAggProofs fuel fuel' cfg :
  (fuel <= fuel')%nat → lessdef (SubmitAggProofs fuel cfg) (SubmitAggProofs fuel' cfg).
Proof.
  intros Hle. unfold SubmitAggProofs. apply lessdef_bind; [done|]. intros n. apply lessdef_bind; [done|]. intros l.
  case_bool_decide; [done|]. apply lessdef_bind; [done|]. intros order. destruct (sort_by_end _ _) as [|p ps]; [done|].
  apply lessdef_bind; [done|]. intros output. apply lessdef_map_err. unfold proposeOutput.
  apply lessdef_bind; [done|]. intros _. apply lessdef_bind; [|done]. unfold sendTransaction.
  apply lessdef_bind; [|done]. unfold waitForL1Head. apply lessdef_bind; [done|]. intros _.
  apply lessdef_bind; [done|]. intros h. by apply lessdef_wait_l1_head.
Qed.

Lemma lessdef_run_stages l l' : Forall2 lessdef l l' → lessdef (run_stages l) (run_stages l').
Proof.
  induction 1 as [|p p' l l' Hp _ IH]; [done|]. cbn [run_stages]. apply lessdef_bind; [by apply lessdef_attempt|].
  by intros [].
Qed.

Lemma lessdef_stages fuel fuel' cfg : (fuel <= fuel')%nat → Forall2 lessdef (stages fuel cfg) (stages fuel' cfg).
Proof.
  intros Hle. unfold stages. do 6 (apply Forall2_cons; split; [done|]).
  apply Forall2_cons. split; [by apply lessdef_SubmitAggProofs|done].
Qed.

Lemma lessdef_loop_ticks n n' fuel fuel' cfg :
  (n <= n')%nat → (fuel <= fuel')%nat → lessdef (loop_ticks n fuel cfg) (loop_ticks n' fuel' cfg).
Proof.
  intros Hn Hle. revert n' Hn. induction n as [|n IH]; intros [|n'] Hn; try lia; [constructor..|]. cbn [loop_ticks].
  apply lessdef_bind; [done|]. intros [|]; [|done]. apply lessdef_bind; [by apply lessdef_run_stages, lessdef_stages|].
  intros _. apply IH. lia.
Qed.

Lemma lessdef_loop n n' fuel fuel' cfg :
  (n <= n')%nat → (fuel <= fuel')%nat → lessdef (loop n fuel cfg) (loop n' fuel' cfg).
Proof.
  intros Hn Hle. unfold loop. apply lessdef_bind; [done|]. intros [e|u]; [done|]. unfold loopL2OO.
  apply lessdef_bind; [done|]. intros _. by apply lessdef_loop_ticks.
Qed.

(** More rounds of the loop change nothing that happened before. *)
Theorem loop_more_fuel n n' fuel fuel' cfg w :
  (n <= n')%nat → (fuel <= fuel')%nat → (run (loop n fuel cfg) w).1 ≠ NoFuel →
  run (loop n' fuel' cfg) w = run (loop n fuel cfg) w.
Proof. intros Hn Hle. by apply lessdef_run, lessdef_loop. Qed.

(** ** Schedules *)

(** The same pool with more fuel in its goroutines. *)
Record more_fuel (P P' : pool) : Prop := mkMoreFuel {
  mf_threads : Forall2 lessdef (threads P) (threads P');
  mf_owner : owner P' = owner P;
  mf_world : pworld P' = pworld P;
}.

Lemma more_fuel_next i P P' Q :
  more_fuel P P' → pool_next i P = Some Q → ∃ Q', pool_next i P' = Some Q' ∧ more_fuel Q Q'.
Proof.
  intros [Ht Ho Hw] Hm. unfold pool_next in *. rewrite Ho, Hw.
  destruct (threads P !! i) as [p|] eqn:Hi; [|done]. destruct (Forall2_lookup_l _ _ _ _ _ Ht Hi) as (p' & -> & Hp).
  cbn [mbind option_bind] in *. destruct Hp as [q|a|e|m|R c k k' Hk]; try done. cbn [step_local] in *.
  destruct (exec_local _ c (pworld P)) as [[r w']|]; [|done]. cbn in *. injection Hm as <-. eexists. split; [done|].
  split; [|done..]. cbn [threads]. by apply Forall2_insert.
Qed.

(** Whatever schedule the goroutines follow, they can follow it with more fuel,
    and reach the same process. *)
Theorem schedules_more_fuel cfg P P' Q :
  more_fuel P P' → rtc (pool_step cfg) P Q → ∃ Q', rtc (pool_step cfg) P' Q' ∧ more_fuel Q Q'.
Proof.
  intros Hf Hr. revert P' Hf. induction Hr as [P|P P1 Q Hs _ IH]; intros P' Hf; [by exists P'|].
  destruct Hs as [i P P1 Hm|p next P Hin].
  - destruct (more_fuel_next _ _ _ _ Hf Hm) as (P1' & Hm' & Hf1). destruct (IH P1' Hf1) as (Q' & Hr' & HQ).
    exists Q'. split; [|done]. eapply rtc_l; [by eapply pool_moves|done].
  - destruct Hf as [Ht Ho Hw]. destruct (IH (mkPool (threads P' ++ [request_task cfg p next]) (owner P') (pworld P')))
      as (Q' & Hr' & HQ); [split; cbn; [|done..]; apply Forall2_app; [done|by constructor]|].
    exists Q'. split; [|done]. eapply rtc_l; [apply pool_starts; by rewrite Hw|done].
Qed.

End runs.
