(* ===== verification/RangeProofs.v ===== *)
(** * Cutting ranges

    The loops of [range.go]: the spans they make tile the range they are given,
    they end, and the search for an L1 head finds the first one. *)

From Stdlib Require Import ZArith Lia.
From S2P Require Import Prelude Sql ProofRequest Metrics Encoding Prog Types Script Json Spans.
From S2P Require Import Mutation Builders Db Range.

(** ** Equal spans *)

(** [SplitRangeBasic] ends and tiles: the spans have exactly the configured
    size, each starts where the last one ended, the first at [start], and less
    than one span is left before [end_]; a range that is too short gives none. *)
Theorem SplitRangeBasic_tiles step start end_ :
  0 <= start → 0 < step → start + step < two64 → end_ + step < two64 →
  ∃ l m, SplitRangeBasic step start end_ = Some l ∧ chain start l m ∧
    Forall (λ x, End x - Start x = step) l ∧ end_ < m + step ∧ (start <= end_ → m <= end_).
Proof.
  intros Hs Hst Hw He. destruct (SplitRangeBasic_total step start end_) as [l Hl]; [done..|].
  exists l. destruct (decide (start <= end_)) as [Hle|Hgt].
  - destruct (split_loop_chain _ _ _ _ _ Hs Hst He Hle Hl) as (m & Hc & Hf & ? & ?). by exists m.
  - exists start. split; [done|]. unfold SplitRangeBasic in Hl. replace (Z.to_nat (end_ - start)) with O in Hl by lia.
    cbn [split_loop] in Hl. rewrite add64_small in Hl by lia.
    rewrite (proj2 (Z.leb_gt _ _)) in Hl by lia. injection Hl as <-. split; [done|]. split; [done|]. lia.
Qed.

Lemma SplitRangeBasic_tiles_witness :
  SplitRangeBasic 40 100 190 = Some [mkSpan 100 140; mkSpan 140 180] ∧
  ∃ l m, SplitRangeBasic 40 100 190 = Some l ∧ chain 100 l m.
Proof.
  split; [reflexivity|].
  destruct (SplitRangeBasic_tiles 40 100 190) as (l & m & Hl & Hc & _); [lia|lia|done|done|]. by exists l, m.
Defined.

(** With [MaxBlockRangePerSpanProof] zero, which no check refuses, the loop
    of [SplitRangeBasic] never ends: no number of iterations is enough. *)
Theorem SplitRangeBasic_zero_diverges fuel start end_ :
  is_u64 start → start <= end_ → split_loop fuel 0 end_ start = None.
Proof.
  intros Hs Hle. assert (add64 start 0 = start) as Ha by (unfold add64; rewrite Z.add_0_r; by apply u64_small).
  induction fuel as [|fuel IH]; cbn [split_loop]; rewrite Ha, (proj2 (Z.leb_le _ _) Hle); [done|]. by rewrite IH.
Qed.

Lemma SplitRangeBasic_zero_diverges_witness : split_loop 1000 0 190 100 = None.
Proof. apply SplitRangeBasic_zero_diverges; [done|lia]. Defined.

(** ** Spans along the safe heads *)

(** The pieces of one interval between safe heads. *)
Lemma cut_chain fuel step limit s :
  0 <= s < limit → 0 < step → limit + step < two64 → limit - s <= Z.of_nat fuel →
  ∃ spans last, cut fuel step limit s = Some (spans, last) ∧
    chain s (spans ++ [mkSpan last limit]) limit ∧
    Forall (λ x, End x - Start x <= step) (spans ++ [mkSpan last limit]).
Proof.
  revert s. induction fuel as [|fuel IH]; intros s Hs Hst Hw Hf; [lia|].
  cbn [cut]. rewrite add64_small by lia. destruct (Z.ltb_spec (s + step) limit) as [Hlt|Hge].
  - destruct (IH (s + step)) as (spans & last & -> & Hc & Hsz); [lia..|].
    exists (mkSpan s (s + step) :: spans), last. split; [done|]. split.
    + simpl. split; [done|]. split; [lia|done].
    + constructor; [simpl; lia|done].
  - exists [], s. split; [done|]. split; [simpl; lia|]. constructor; [simpl; lia|constructor].
Qed.

(** The heads are increasing, from one after [s] on; all but the last are
    before [e], and the last is not. *)
Fixpoint heads_ok (s e : Z) (heads : list Z) : Prop :=
  match heads with
  | [] => False
  | [h] => s < h ∧ e <= h
  | h :: heads' => s < h ∧ h < e ∧ heads_ok h e heads'
  end.

Lemma cut_at_heads_skip step e s h heads :
  h <= s → cut_at_heads step e s (h :: heads) = cut_at_heads step e s heads.
Proof. intros Hle. cbn [cut_at_heads]. by rewrite (proj2 (Z.ltb_ge _ _) Hle). Qed.

Lemma heads_ok_gt s e heads y : heads_ok s e heads → y ∈ heads → s < y.
Proof.
  revert s. induction heads as [|h heads IH]; intros s Hh Hy; [by apply elem_of_nil in Hy|].
  assert (s < h) as Hsh by (destruct heads; apply Hh).
  apply elem_of_cons in Hy as [->|Hy]; [done|]. destruct heads as [|h' heads]; [by apply elem_of_nil in Hy|].
  destruct Hh as (_ & _ & Hh). specialize (IH h Hh Hy). lia.
Qed.

(** What the spans over [s, e) are, cut at the heads. *)
Definition cut_ok (step s e : Z) (heads : list Z) (spans : list Span) : Prop :=
  chain s spans e ∧ Forall (λ x, End x - Start x <= step) spans ∧
  ∀ x h, x ∈ spans → h ∈ heads → ¬ (Start x < h < End x).

Lemma cut_at_heads_ok step e heads s :
  0 <= s < e → 0 < step → e + step < two64 → heads_ok s e heads →
  ∃ spans, cut_at_heads step e s heads = Some spans ∧ cut_ok step s e heads spans.
Proof.
  intros Hs Hst Hw Hh. revert s Hs Hh. induction heads as [|h heads IH]; intros s Hs Hh; [done|].
  cbn [cut_at_heads].
  assert (s < h) as Hsh by (destruct heads; apply Hh). rewrite (proj2 (Z.ltb_lt _ _) Hsh).
  set (limit := Z.min e h).
  destruct (cut_chain (Z.to_nat (limit - s)) step limit s) as (spans & last & Hcut & Hc & Hsz); [unfold limit; lia..|].
  rewrite Hcut. cbn [mbind option_bind].
  destruct heads as [|h' heads].
  - destruct Hh as [_ He]. replace limit with e in * by (unfold limit; lia). cbn [cut_at_heads mbind option_bind].
    exists (spans ++ [mkSpan last e]). do 3 (split; [done|]).
    intros x y Hx Hy Hin. apply list_elem_of_singleton in Hy as ->.
    pose proof (chain_bounds _ _ _ _ Hc Hx). simpl in *. lia.
  - destruct Hh as (_ & Hlt & Hh). replace limit with h in * by (unfold limit; lia).
    destruct (IH h) as (rest & Hr & Hc' & Hsz' & Hno); [lia|done|].
    rewrite Hr. cbn [mbind option_bind]. exists (spans ++ mkSpan last h :: rest).
    rewrite cons_middle, app_assoc. split; [done|]. split; [apply chain_app; by exists h|].
    split; [by apply Forall_app|]. intros x y Hx Hy Hin.
    apply elem_of_app in Hx as [Hx|Hx].
    + pose proof (chain_bounds _ _ _ _ Hc Hx) as Hbx. cbn [lo hi Span_interval] in Hbx.
      apply elem_of_cons in Hy as [->|Hy]; [lia|]. pose proof (heads_ok_gt _ _ _ _ Hh Hy). lia.
    + apply elem_of_cons in Hy as [->|Hy]; [|by apply (Hno x y)].
      pose proof (chain_bounds _ _ _ _ Hc' Hx). simpl in *. lia.
Qed.

(** C25: the split along safe heads tiles the range: when the safe heads, after
    those not past [l2Start], are increasing and only the last one reaches
    [l2End] (as they are where the L1 head is the first from which [l2End] can be
    derived), the loops end, the spans cover [l2Start, l2End) without gap or
    overlap, none is longer than the configured size, and none crosses a head. *)
Theorem cut_at_heads_tiles step l2Start l2End skipped heads :
  0 <= l2Start < l2End → 0 < step → l2End + step < two64 →
  Forall (λ h, h <= l2Start) skipped → heads_ok l2Start l2End heads →
  ∃ spans, cut_at_heads step l2End l2Start (skipped ++ heads) = Some spans ∧
    cut_ok step l2Start l2End heads spans.
Proof.
  intros Hs Hst Hw Hsk Hh. induction Hsk as [|h skipped Hle Hsk IH].
  - by apply cut_at_heads_ok.
  - cbn [app]. by rewrite cut_at_heads_skip.
Qed.

Lemma cut_at_heads_tiles_witness :
  cut_at_heads 40 190 100 [90; 150; 200] = Some [mkSpan 100 140; mkSpan 140 150; mkSpan 150 190] ∧
  ∃ spans, cut_at_heads 40 190 100 ([90] ++ [150; 200]) = Some spans ∧ cut_ok 40 100 190 [150; 200] spans.
Proof.
  split; [reflexivity|]. apply cut_at_heads_tiles; [lia|lia|done| |simpl; lia].
  constructor; [lia|constructor].
Defined.

(** ** The L1 head for an L2 block *)

(** What a rollup node answers while its view does not change: the L1 tip, the
    L1 origin of an L2 block, and the safe head at an L1 block. *)
Record NodeView := mkNodeView { nv_tip : Z; nv_origin : Z → Z; nv_safe : Z → Z }.

(** [b] is the first of the L1 blocks from [first] to the tip from which
    [l2End] can be derived. *)
Definition first_reaching (v : NodeView) (l2End first b : Z) : Prop :=
  first <= b <= nv_tip v ∧ l2End <= nv_safe v b ∧ ∀ c, first <= c < b → nv_safe v c < l2End.

Section search.
Context `{SqlLaws, External}.
Implicit Types (w : World).

(** Each call answers from the view or fails. *)
Definition answers (v : NodeView) : Prop := ∀ x,
  (∀ st, (ext_exec _ ESyncStatus x).1 = inr st → HeadL1 st = nv_tip v) ∧
  (∀ n o, (ext_exec _ (EOutputAtBlock n) x).1 = inr o → BlockRef_L1Origin o = nv_origin v n) ∧
  (∀ n h, (ext_exec _ (ESafeHeadAtL1Block n) x).1 = inr h → h = nv_safe v n).

(** No call fails. *)
Definition reliable : Prop := ∀ x e,
  (ext_exec _ ESyncStatus x).1 ≠ inl e ∧ (∀ n, (ext_exec _ (EOutputAtBlock n) x).1 ≠ inl e) ∧
  (∀ n, (ext_exec _ (ESafeHeadAtL1Block n) x).1 ≠ inl e).

(** What the error of the search says when no call failed. *)
Definition none_reaching (v : NodeView) (l2End first : Z) : Prop :=
  reliable → ∀ c, first <= c <= nv_tip v → nv_safe v c < l2End.

Lemma returns_query {A} f (c : ExtCmd (error + A)) w0 w (P : A → Prop) (E : Prop) :
  event_of c = [] → rows w = rows w0 →
  (∀ a, (ext_exec _ c (w_ext w)).1 = inr a → P a) → (∀ e, (ext_exec _ c (w_ext w)).1 = inl e → E) →
  returns (map_err f (call c)) w (λ a w', rows w' = rows w0 ∧ P a) (λ _ w', rows w' = rows w0 ∧ E).
Proof.
  intros Hev Hr HP HE. apply returns_map_err, returns_answer; [done|..].
  - intros a w' [_ Hq] Hx. split; [congruence|]. apply HP. by rewrite Hx.
  - intros e w' [_ Hq] Hx. split; [congruence|]. eapply HE. by rewrite Hx.
Qed.

Lemma search_returns v fuel l2End first cur w0 w :
  answers v → rows w = rows w0 →
  0 <= first <= cur → nv_tip v < two64 - 1 → nv_tip v - cur + 1 <= Z.of_nat fuel →
  (∀ c, first <= c < cur → nv_safe v c < l2End) →
  returns (search_l1_head fuel l2End (nv_tip v) cur) w
    (λ b w', rows w' = rows w0 ∧ first_reaching v l2End first b)
    (λ _ w', rows w' = rows w0 ∧ none_reaching v l2End first).
Proof.
  intros Hv. revert cur w. induction fuel as [|fuel IH]; intros cur w Hr Hc Hl Hf Hb; cbn [search_l1_head];
    destruct (Z.leb_spec cur (nv_tip v)) as [Hle|Hgt]; [lia| | |].
  1, 3: apply returns_raise; split; [done|]; intros _ c Hcc; apply Hb; lia.
  eapply returns_bind.
  { eapply (returns_query _ _ w0 _ (λ h, h = nv_safe v cur) (none_reaching v l2End first)); [done|done|apply Hv|].
    intros e He Hrel. by destruct (proj2 (proj2 (Hrel (w_ext w) e)) cur). }
  2: done.
  intros h w1 [Hr1 ->]. destruct (Z.leb_spec l2End (nv_safe v cur)) as [Hge|Hlt].
  - apply returns_ret. split; [done|]. split; [lia|]. by split.
  - rewrite add64_small by (unfold two64 in *; lia). apply IH; [done|lia|done|lia|].
    intros c Hcc. destruct (decide (c = cur)) as [->|]; [done|]. apply Hb. lia.
Qed.

(** C26: while the view of the rollup node does not change,
    [GetL1HeadForL2Block] ends and returns the first L1 block, from the L1
    origin of the L2 block up to the L1 tip, from which the L2 block can be
    derived; when it reports an error a call failed or there is no such block.
    The table is not touched.  (With an L1 tip of 2^64 - 1 the counter would
    wrap around.) *)
Theorem GetL1HeadForL2Block_first v l2End w :
  answers v → nv_tip v < two64 - 1 → 0 <= nv_origin v l2End →
  returns (GetL1HeadForL2Block l2End) w
    (λ b w', rows w' = rows w ∧ first_reaching v l2End (nv_origin v l2End) b)
    (λ _ w', rows w' = rows w ∧ none_reaching v l2End (nv_origin v l2End)).
Proof.
  intros Hv Hmax Hpos. unfold GetL1HeadForL2Block. eapply returns_bind.
  { eapply (returns_query _ _ w _ (λ st, HeadL1 st = nv_tip v) (none_reaching v l2End (nv_origin v l2End))); [done|done|apply Hv|].
    intros e He Hrel. by destruct (proj1 (Hrel (w_ext w) e)). }
  2: done.
  intros st w1 [Hr1 ->]. eapply returns_bind.
  { eapply (returns_query _ _ w _ (λ o, BlockRef_L1Origin o = nv_origin v l2End) (none_reaching v l2End (nv_origin v l2End)));
      [done|done|apply Hv|].
    intros e He Hrel. by destruct (proj1 (proj2 (Hrel (w_ext w1) e)) l2End). }
  2: done.
  intros o w2 [Hr2 ->]. apply search_returns; [done|done|lia|done|lia|lia].
Qed.

End search.

(** A node with tip 100, where L2 block [n] has L1 origin [n / 10] and at L1
    block [n] the safe head is ten blocks behind. *)
Definition node0 : NodeView := mkNodeView 100 (λ n, n / 10) (λ b, 10 * b - 10).

Definition node_exec {R} (c : ExtCmd R) (s : ScriptState) : R * ScriptState :=
  match c in ExtCmd R return R * ScriptState with
  | ESyncStatus => (inr (mkSyncStatus 100 0 0 0), s)
  | EOutputAtBlock n => (inr (mkOutputResponse 0 0 n (n / 10) quiet_heads), s)
  | ESafeHeadAtL1Block b => (inr (10 * b - 10), s)
  | c => script_exec c s
  end.

Definition NodeExternal : External := {|
  ext := ScriptState;
  ext_exec := @node_exec;
  ext_select := script_select;
  Address_Hex _ := ""%string;
  url_valid _ := true;
  abi_Pack _ _ _ := inr [];
|}.

Definition node_world : @World ListSql NodeExternal :=
  @mkWorld ListSql NodeExternal (mkListStore [] []) true true None script0 NoopMetrics driver0 [] [].

Lemma GetL1HeadForL2Block_first_witness :
  (@run ListSql NodeExternal _ (GetL1HeadForL2Block 905) node_world).1 = Ok 92 ∧ first_reaching node0 905 90 92.
Proof.
  assert ((@run ListSql NodeExternal _ (GetL1HeadForL2Block 905) node_world).1 = Ok 92) as Ho by (vm_compute; reflexivity).
  split; [exact Ho|].
  assert (@answers NodeExternal node0) as Hv.
  { intros x. split; [by intros st [= <-]|]. split; [by intros n o [= <-]|by intros n h [= <-]]. }
  pose proof (@GetL1HeadForL2Block_first ListSql NodeExternal node0 905 node_world Hv eq_refl ltac:(done)) as HT.
  ran HT Ho. destruct Ho as [_ Hf]. exact Hf.
Defined.
