(* ===== verification/Wire.v ===== *)
(** * What the server reads

    The bodies of the proof requests, read back: the JSON that
    [prepareProofRequest] writes is a document with exactly the fields of the
    request, and the numbers, byte strings and text in it decode to the values
    that were written. *)

From Stdlib Require Import ZArith Lia Ascii DecimalString DecimalFacts DecimalN.
From S2P Require Import Prelude Sql ProofRequest Metrics Encoding Prog Types Script Json Spans.
From S2P Require Import Mutation Builders Db Range Partition Steps Evolve Prove Driver Pipeline.
From S2P Require Import Stages Aggregation.

Local Open Scope string_scope.
Local Open Scope Z_scope.

(** ** A reader of the two requests *)

Definition member (name : string) (j : json) : option json :=
  match j with
  | JObj ms => snd <$> (snd <$> list_find (λ m, fst m = name) ms)
  | _ => None
  end.

Definition read_uint (j : json) : option Z := match j with JNum n => ParseDigits n | _ => None end.
Definition read_string (j : json) : option string := match j with JStr s => Some s | _ => None end.
Definition read_bytes (j : json) : option (option bytes) :=
  match j with
  | JStr s => Some <$> b64_decode s
  | JNull => Some None
  | _ => None
  end.
Definition read_list {A} (f : json → option A) (j : json) : option (list A) :=
  match j with
  | JArr l => mapM f l
  | JNull => Some []
  | _ => None
  end.

Definition read_SpanProofRequest (body : string) : option SpanProofRequest :=
  j ← parse body; s ← member "start" j ≫= read_uint; e ← member "end" j ≫= read_uint;
  Some (mkSpanProofRequest s e).

Definition read_AggProofRequest (body : string) : option AggProofRequest :=
  j ← parse body; l ← member "subproofs" j ≫= read_list read_bytes; h ← member "head" j ≫= read_string;
  Some (mkAggProofRequest l h).

(** ** Strings *)

Lemma sapp_cons x (a b : string) : String x a ++ b = String x (a ++ b).
Proof. done. Qed.
Lemma sapp_nil (b : string) : "" ++ b = b.
Proof. done. Qed.

Lemma sapp_assoc (a b c : string) : (a ++ b) ++ c = a ++ (b ++ c).
Proof. induction a as [|x a IH]; [done|]. rewrite !sapp_cons. by f_equal. Qed.

Lemma sapp_length (a b : string) : String.length (a ++ b) = (String.length a + String.length b)%nat.
Proof. induction a as [|x a IH]; [done|]. rewrite sapp_cons. simpl. by f_equal. Qed.

(** A property of every character. *)
Fixpoint every (P : ascii → Prop) (s : string) : Prop :=
  match s with
  | EmptyString => True
  | String c r => P c ∧ every P r
  end.

Lemma every_impl (P Q : ascii → Prop) s : (∀ c, P c → Q c) → every P s → every Q s.
Proof. intros HPQ. induction s as [|c s IH]; [done|]. intros [? ?]. split; auto. Qed.

Global Instance every_dec (P : ascii → Prop) `{∀ c, Decision (P c)} s : Decision (every P s).
Proof. induction s as [|c s IH]; simpl; apply _. Defined.

(** An ASCII character, and one that stands for itself in a literal. *)
Definition is_ascii (c : ascii) : Prop := code c < 128.
Definition is_plain (c : ascii) : Prop := 32 <= code c < 128 ∧ code c ≠ 34 ∧ code c ≠ 92.

Lemma code_range c : 0 <= code c < 256.
Proof. unfold code. pose proof (N_ascii_bounded c). lia. Qed.

Lemma chr_code c : chr (code c) = c.
Proof. unfold chr, code. rewrite N2Z.id. apply ascii_N_embedding. Qed.

Lemma chr_inj c d : code c = code d → c = d.
Proof. intros E. by rewrite <- (chr_code c), E, chr_code. Qed.

(** ** Literals *)

Lemma literal_plain fuel s rest :
  every is_plain s → (String.length s < fuel)%nat →
  literal_body fuel (s ++ String quote rest) = Some (s, rest).
Proof.
  revert fuel. induction s as [|c s IH]; intros fuel Hs Hf; (destruct fuel as [|fuel]; [simpl in Hf; lia|]).
  { done. }
  destruct Hs as [(Hc & Hq & Hb) Hs]. simpl in Hf. rewrite sapp_cons. cbn [literal_body].
  rewrite (proj2 (Z.eqb_neq _ _) Hq), (proj2 (Z.ltb_ge _ _)), (proj2 (Z.eqb_neq _ _) Hb), (proj2 (Z.ltb_lt _ _)) by lia.
  rewrite IH; [done|done|lia].
Qed.

Lemma b64_plain d : 0 <= d < 64 → is_plain (b64_char d).
Proof.
  intros Hd. assert (∃ n : nat, (n < 64)%nat ∧ d = Z.of_nat n) as (n & Hn & ->) by (exists (Z.to_nat d); lia).
  do 64 (destruct n as [|n]; [by vm_compute; repeat split|]). lia.
Qed.

Lemma b64_encode_plain bs : every is_plain (b64_encode bs).
Proof.
  assert (is_plain "="%char) as Hp by by vm_compute.
  induction bs as [|x|x y|x y z bs IH] using list_ind3; [done|..]; cbn [b64_encode every];
    pose proof (byte_Z_range x); try pose proof (byte_Z_range y); try pose proof (byte_Z_range z);
    repeat match goal with |- _ ∧ _ => split end; try done; apply b64_plain;
    Z.to_euclidean_division_equations; lia.
Qed.

(** An escape sequence is read as the character it stands for. *)
Definition put_char (c : ascii) (o : option (string * string)) : option (string * string) :=
  match o with Some (t, r) => Some (String c t, r) | None => None end.

Lemma literal_hex fuel n r :
  0 <= n < 128 → literal_body (S fuel) ("\u00" ++ hex2 n ++ r) = put_char (chr n) (literal_body fuel r).
Proof.
  intros Hn. assert (hex4 ("00" ++ hex2 n ++ r) = Some (n, r)) as Hx.
  { unfold hex2. rewrite !sapp_cons, !sapp_nil. cbn [hex4]. rewrite !hex_value_digit by (Z.to_euclidean_division_equations; lia).
    change (hex_value "0"%char) with (Some 0). cbn [mbind option_bind].
    assert (4096 * 0 + 256 * 0 + 16 * (n / 16) + n mod 16 = n) as -> by (Z.to_euclidean_division_equations; lia). done. }
  assert (utf8 n = String (chr n) "") as Hu.
  { unfold utf8, is_in. rewrite (proj2 (Z.leb_gt 55296 n)), (proj2 (Z.ltb_ge 1114111 n)) by lia. cbn [andb orb].
    by rewrite (proj2 (Z.ltb_lt n 128)) by lia. }
  rewrite !sapp_cons, !sapp_nil in Hx. rewrite !sapp_cons, !sapp_nil. cbn [literal_body].
  rewrite Hx, Hu.
  assert (is_in 55296 n 56319 = false) as Hi by (unfold is_in; rewrite (proj2 (Z.leb_gt 55296 n)) by lia; done).
  destruct r as [|b1 [|b2 r3]]; [done|done|]. cbn -[literal_body String.append is_in utf8 hex4 code].
  rewrite Hi. by destruct (hex4 r3) as [[]|].
Qed.

Lemma literal_step fuel c s r :
  is_ascii c → ∃ e, (∀ f, escape (S f) (String c s) = e ++ escape f s) ∧
    literal_body (S fuel) (e ++ r) = put_char c (literal_body fuel r).
Proof.
  intros Hc. pose proof (code_range c) as Hr. unfold is_ascii in Hc.
  destruct (decide (code c = 34 ∨ code c = 92)) as [Hq|Hq].
  { exists (String (chr 92) (String c "")). assert (c = chr 34 ∨ c = chr 92) as [-> | ->].
    - destruct Hq; [left|right]; by apply chr_inj.
    - done.
    - done. }
  destruct (decide (code c ∈ [8; 12; 10; 13; 9])) as [Hs|Hs].
  { assert (c ∈ [chr 8; chr 12; chr 10; chr 13; chr 9]) as Hin.
    - set_unfold in Hs. set_unfold. destruct_or! Hs; [left|right; left|right; right; left| |]; [by apply chr_inj..| |];
        [do 3 right; left|do 4 right; left]; by apply chr_inj.
    - set_unfold in Hin.
      destruct_or! Hin; subst; [exists "\b"|exists "\f"|exists "\n"|exists "\r"|exists "\t"]; done. }
  set_unfold in Hs. apply Decidable.not_or in Hq as [Hq1 Hq2].
  assert (∀ f, escape (S f) (String c s) =
    if (code c <? 32) || (code c =? 60) || (code c =? 62) || (code c =? 38)
    then "\u00" ++ hex2 (code c) ++ escape f s else String c (escape f s)) as He.
  { intros f. cbn [escape].
    rewrite (proj2 (Z.eqb_neq (code c) 34)), (proj2 (Z.eqb_neq (code c) 92)), (proj2 (Z.eqb_neq (code c) 8)),
      (proj2 (Z.eqb_neq (code c) 12)), (proj2 (Z.eqb_neq (code c) 10)), (proj2 (Z.eqb_neq (code c) 13)),
      (proj2 (Z.eqb_neq (code c) 9)) by tauto.
    cbn [orb]. destruct (_ || _ || _ || _); [done|]. by rewrite (proj2 (Z.ltb_lt (code c) 128)) by lia. }
  destruct ((code c <? 32) || _ || _ || _) eqn:E.
  - exists ("\u00" ++ hex2 (code c)). split; [by intros f; rewrite He, sapp_assoc|].
    rewrite sapp_assoc, literal_hex by lia. by rewrite chr_code.
  - exists (String c ""). split; [intros f; by rewrite He|]. rewrite sapp_cons, sapp_nil. cbn [literal_body].
    apply orb_false_elim in E as [E _]. apply orb_false_elim in E as [E _]. apply orb_false_elim in E as [E _].
    by rewrite E, !(proj2 (Z.eqb_neq _ _)), (proj2 (Z.ltb_lt (code c) 128)) by lia.
Qed.

Lemma literal_escape fuel s rest :
  every is_ascii s → (String.length s < fuel)%nat →
  literal_body fuel (escape (String.length s) s ++ String quote rest) = Some (s, rest).
Proof.
  revert fuel. induction s as [|c s IH]; intros fuel Hs Hf; (destruct fuel as [|fuel]; [simpl in Hf; lia|]).
  { done. }
  destruct Hs as [Hc Hs]. simpl in Hf.
  destruct (literal_step fuel c s (escape (String.length s) s ++ String quote rest) Hc) as (e & He & Hl).
  cbn [String.length]. rewrite He, sapp_assoc, Hl, IH; [done|done|lia].
Qed.

Lemma escape_length s : every is_ascii s → (String.length s <= String.length (escape (String.length s) s))%nat.
Proof.
  induction s as [|c s IH]; intros Hs; [simpl; lia|]. destruct Hs as [Hc Hs].
  destruct (literal_step 1 c s (String quote "") Hc) as (e & He & Hl). cbn [String.length].
  rewrite He, sapp_length. specialize (IH Hs). destruct e as [|x e]; [done|]. simpl. lia.
Qed.

(** ** Numbers *)

Definition digit (c : ascii) : Prop := is_digit c = true.

Lemma uint_digits u : every digit (NilEmpty.string_of_uint u).
Proof. induction u; simpl; [done|..]; by split. Qed.

Lemma to_uint_norm n : N.to_uint n = Decimal.unorm (N.to_uint n).
Proof. by rewrite <- DecimalN.Unsigned.to_of, DecimalN.Unsigned.of_to. Qed.

(** A number is written without leading zeros. *)
Lemma FormatUint_shape z :
  FormatUint z = "0" ∨
  ∃ c s, FormatUint z = String c s ∧ every digit s ∧
    c ∈ ["1"%char; "2"%char; "3"%char; "4"%char; "5"%char; "6"%char; "7"%char; "8"%char; "9"%char].
Proof.
  unfold FormatUint. rewrite to_uint_norm. unfold Decimal.unorm.
  pose proof (λ u, nzhead_nonzero (N.to_uint (Z.to_N z)) u) as Hz.
  destruct (Decimal.nzhead _) as [|u|u|u|u|u|u|u|u|u|u]; [by left|by destruct (Hz u)|..];
    right; eexists _, _; (split; [reflexivity|]); (split; [apply uint_digits|]); set_solver.
Qed.

(** What may follow a value inside an object. *)
Definition closes (rest : string) : Prop := ∃ r, rest = String "," r ∨ rest = String "}" r.

Lemma digits_closed d rest : every digit d → closes rest → digits (d ++ rest) = (d, rest).
Proof.
  intros Hd Hr. induction d as [|c d IH].
  - by destruct Hr as [r [-> | ->]].
  - destruct Hd as [Hc Hd]. rewrite sapp_cons. cbn [digits]. rewrite Hc, IH; done.
Qed.

Lemma number_closed z rest : closes rest → number (FormatUint z ++ rest) = Some (FormatUint z, rest).
Proof.
  intros Hr. assert (∀ i, ('(f, s2) ← number_frac rest; '(e, s3) ← number_exp s2; Some ("" ++ i ++ f ++ e, s3)) = Some (i, rest)) as Hend.
  { intros i. assert (i ++ "" = i) as Hi by (induction i as [|x i IH]; [done|]; rewrite sapp_cons; by f_equal).
    destruct Hr as [r [-> | ->]]; cbn -[String.append]; rewrite !sapp_nil; by rewrite Hi. }
  destruct (FormatUint_shape z) as [->|(c & s & -> & Hs & Hc)].
  - rewrite sapp_cons, sapp_nil. apply (Hend "0").
  - rewrite sapp_cons. pose proof (digits_closed s rest Hs Hr) as Hd. specialize (Hend (String c s)).
    assert (number (String c (s ++ rest)) = '(i, s1) ← Some (String c s, rest); '(f, s2) ← number_frac s1; '(e, s3) ← number_exp s2; Some ("" ++ i ++ f ++ e, s3)) as ->; [|done].
    set_unfold in Hc. destruct_or! Hc; subst c; unfold number, number_int; cbn [digits]; by rewrite Hd.
Qed.

(** ** Values *)

Lemma skip_quote r : skip (String quote r) = String quote r.
Proof. done. Qed.

Lemma value_string fuel depth s rest :
  every is_ascii s → value (S fuel) depth (marshal_string s ++ rest) = Some (JStr s, rest).
Proof.
  intros Hs. unfold marshal_string. rewrite sapp_cons, sapp_assoc, sapp_cons, sapp_nil.
  cbn [value]. rewrite skip_quote, Ascii.eqb_refl, literal_escape; [done|done|].
  simpl. rewrite sapp_length. pose proof (escape_length s Hs). lia.
Qed.

Definition json_bytes (b : option bytes) : json :=
  match b with None => JNull | Some b => JStr (b64_encode b) end.

Lemma value_bytes fuel depth b rest :
  value (S fuel) depth (marshal_bytes b ++ rest) = Some (json_bytes b, rest).
Proof.
  destruct b as [b|]; [|done]. unfold marshal_bytes. rewrite sapp_cons, sapp_assoc, sapp_cons, sapp_nil.
  cbn [value]. rewrite skip_quote, Ascii.eqb_refl, literal_plain; [done|apply b64_encode_plain|].
  simpl. rewrite sapp_length. lia.
Qed.

Lemma value_uint fuel depth z rest :
  closes rest → value (S fuel) depth (FormatUint z ++ rest) = Some (JNum (FormatUint z), rest).
Proof.
  intros Hr. assert (value (S fuel) depth (FormatUint z ++ rest) =
    '(n, r') ← number (FormatUint z ++ rest); Some (JNum n, r')) as ->; [|by rewrite number_closed].
  destruct (FormatUint_shape z) as [->|(c & s & -> & _ & Hc)]; [done|].
  set_unfold in Hc. by destruct_or! Hc; subst c.
Qed.

Lemma skip_string s rest : skip (marshal_string s ++ rest) = marshal_string s ++ rest.
Proof. done. Qed.

Lemma elements_bytes fuel depth b l rest :
  (S (length l) < fuel)%nat →
  elements fuel depth (join "," (marshal_bytes <$> (b :: l)) ++ String "]" rest) = Some (json_bytes <$> (b :: l), rest).
Proof.
  revert fuel b. induction l as [|b' l IH]; intros fuel b Hf; (destruct fuel as [|[|fuel]]; [simpl in Hf; lia..|]).
  - cbn [fmap list_fmap join elements]. by rewrite value_bytes.
  - specialize (IH (S fuel) b' ltac:(simpl in Hf; lia)). rewrite (fmap_cons marshal_bytes b') in IH.
    rewrite (fmap_cons marshal_bytes b), (fmap_cons marshal_bytes b').
    set (x := marshal_bytes b') in *. set (xs := marshal_bytes <$> l) in *.
    change (join "," (marshal_bytes b :: x :: xs)) with (marshal_bytes b ++ String "," (join "," (x :: xs))).
    rewrite sapp_assoc, sapp_cons.
    change (elements (S (S fuel)) depth ?s) with
      ('(v, r1) ← value (S fuel) depth s;
       match skip r1 with
       | String "," r2 => '(es, r3) ← elements (S fuel) depth r2; Some (v :: es, r3)
       | String "]" r2 => Some ([v], r2)
       | _ => None
       end).
    rewrite value_bytes. cbn [mbind option_bind]. cbv beta iota.
    change (skip (String "," ?r)) with (String "," r). cbv beta iota. by rewrite IH.
Qed.

Definition json_subproofs (l : list (option bytes)) : json :=
  match l with [] => JNull | _ => JArr (json_bytes <$> l) end.

Lemma value_subproofs fuel depth l rest :
  (S (length l) < fuel)%nat →
  value (S fuel) (S depth) (marshal_subproofs l ++ rest) = Some (json_subproofs l, rest).
Proof.
  intros Hf. destruct l as [|b l]; [done|]. unfold marshal_subproofs.
  rewrite sapp_assoc, sapp_cons, sapp_nil, sapp_assoc, sapp_cons, sapp_nil.
  pose proof (elements_bytes fuel depth b l rest ltac:(simpl in Hf; lia)) as He.
  set (body := join "," (marshal_bytes <$> (b :: l)) ++ String "]" rest) in *.
  assert (∃ c r, body = String c r ∧ (c = quote ∨ c = "n"%char)) as (c & r & E & Hc).
  { unfold body. rewrite fmap_cons. destruct (marshal_bytes <$> l); destruct b; eexists _, _; (split; [reflexivity|]); auto. }
  assert (value (S fuel) (S depth) (String "[" body) = '(es, r') ← elements fuel depth body; Some (JArr es, r')) as ->.
  - rewrite E. by destruct Hc; subst c.
  - by rewrite He.
Qed.

(** One member of an object, and the last one. *)
Lemma members_cons fuel depth k v j more ms r :
  every is_ascii k →
  value fuel depth (v ++ String "," more) = Some (j, String "," more) →
  members fuel depth more = Some (ms, r) →
  members (S fuel) depth (marshal_string k ++ ":" ++ v ++ "," ++ more) = Some ((k, j) :: ms, r).
Proof.
  intros Hk Hv Hm. unfold marshal_string. rewrite sapp_cons, !sapp_assoc, !sapp_cons, !sapp_nil.
  cbn [members]. rewrite skip_quote, Ascii.eqb_refl.
  rewrite literal_escape; [|done|simpl; rewrite sapp_length; pose proof (escape_length k Hk); lia].
  cbn [mbind option_bind]. cbv beta iota.
  change (skip (String ":" ?r)) with (String ":" r). cbv beta iota. rewrite Hv.
  cbn [mbind option_bind]. cbv beta iota. change (skip (String "," ?r)) with (String "," r). cbv beta iota.
  by rewrite Hm.
Qed.

Lemma members_last fuel depth k v j rest :
  every is_ascii k →
  value fuel depth (v ++ String "}" rest) = Some (j, String "}" rest) →
  members (S fuel) depth (marshal_string k ++ ":" ++ v ++ "}" ++ rest) = Some ([(k, j)], rest).
Proof.
  intros Hk Hv. unfold marshal_string. rewrite sapp_cons, !sapp_assoc, !sapp_cons, !sapp_nil.
  cbn [members]. rewrite skip_quote, Ascii.eqb_refl.
  rewrite literal_escape; [|done|simpl; rewrite sapp_length; pose proof (escape_length k Hk); lia].
  cbn [mbind option_bind]. cbv beta iota.
  change (skip (String ":" ?r)) with (String ":" r). cbv beta iota. by rewrite Hv.
Qed.

(** An object of two members, as a whole document. *)
Lemma parse_pair k1 v1 j1 k2 v2 j2 :
  every is_ascii k1 → every is_ascii k2 →
  (∀ fuel rest, (S (String.length v1) < fuel)%nat → closes rest → value fuel (pred maxNestingDepth) (v1 ++ rest) = Some (j1, rest)) →
  (∀ fuel rest, (S (String.length v2) < fuel)%nat → closes rest → value fuel (pred maxNestingDepth) (v2 ++ rest) = Some (j2, rest)) →
  parse (marshal_object [(k1, v1); (k2, v2)]) = Some (JObj [(k1, j1); (k2, j2)]).
Proof.
  intros Hk1 Hk2 H1 H2. unfold marshal_object. cbn [fmap list_fmap fst snd join].
  rewrite !sapp_assoc, sapp_cons, sapp_nil.
  set (doc := marshal_string k1 ++ ":" ++ v1 ++ "," ++ marshal_string k2 ++ ":" ++ v2 ++ "}").
  assert (String.length doc = (String.length (marshal_string k1) + S (String.length v1) + S (String.length (marshal_string k2)) + S (String.length v2) + 1)%nat) as Hlen.
  { unfold doc. rewrite !sapp_length. simpl. lia. }
  unfold parse. cbn [String.length]. set (fuel := String.length doc) in *.
  assert (value (2 * S fuel + 1) maxNestingDepth (String "{" doc) =
    '(ms, r') ← members (S (S (2 * fuel))) (pred maxNestingDepth) doc; Some (JObj ms, r')) as ->.
  { replace (2 * S fuel + 1)%nat with (S (S (S (2 * fuel)))) by lia. done. }
  assert (members (S (S (2 * fuel))) (pred maxNestingDepth) doc = Some ([(k1, j1); (k2, j2)], "")) as ->; [|done].
  apply members_cons; [done|apply H1; [lia|eexists; by left]|].
  apply (members_last _ _ _ _ _ ""); [done|]. apply H2; [lia|eexists; by right].
Qed.

(** ** The two requests *)

Lemma depth_left : ∃ d, pred maxNestingDepth = S d.
Proof. eexists. reflexivity. Qed.

Lemma member_fst k1 j1 k2 j2 : member k1 (JObj [(k1, j1); (k2, j2)]) = Some j1.
Proof. unfold member. cbn [list_find fst snd]. by rewrite decide_True. Qed.

Lemma member_snd k1 j1 k2 j2 : k1 ≠ k2 → member k2 (JObj [(k1, j1); (k2, j2)]) = Some j2.
Proof. intros Hk. unfold member. cbn [list_find fst snd]. by rewrite decide_False, decide_True. Qed.

Lemma read_span_ok r :
  0 <= spr_Start r → 0 <= spr_End r → read_SpanProofRequest (marshal_SpanProofRequest r) = Some r.
Proof.
  intros Hs He. unfold read_SpanProofRequest, marshal_SpanProofRequest.
  rewrite (parse_pair _ _ (JNum (FormatUint (spr_Start r))) _ _ (JNum (FormatUint (spr_End r)))).
  - cbn [mbind option_bind]. rewrite member_fst, member_snd by done. cbn [mbind option_bind read_uint].
    rewrite !FormatUint_roundtrip by done. by destruct r.
  - done.
  - done.
  - intros [|fuel] rest Hf Hr; [lia|by apply value_uint].
  - intros [|fuel] rest Hf Hr; [lia|by apply value_uint].
Qed.

Lemma marshal_bytes_length b : (2 <= String.length (marshal_bytes b))%nat.
Proof. destruct b; simpl; [rewrite sapp_length; simpl|]; lia. Qed.

Lemma subproofs_length l : (S (length l) < String.length (marshal_subproofs l))%nat.
Proof.
  destruct l as [|b l]; [simpl; lia|]. unfold marshal_subproofs. rewrite !sapp_length.
  assert (length (b :: l) <= String.length (join "," (marshal_bytes <$> (b :: l))))%nat; [|simpl in *; lia].
  revert b. induction l as [|b' l IH]; intros b.
  - simpl. pose proof (marshal_bytes_length b). lia.
  - specialize (IH b'). rewrite (fmap_cons marshal_bytes b') in IH.
    rewrite (fmap_cons marshal_bytes b), (fmap_cons marshal_bytes b').
    set (x := marshal_bytes b') in *. set (xs := marshal_bytes <$> l) in *.
    change (join "," (marshal_bytes b :: x :: xs)) with (marshal_bytes b ++ String "," (join "," (x :: xs))).
    rewrite sapp_length. simpl in *. pose proof (marshal_bytes_length b). lia.
Qed.

Lemma read_subproofs_ok l : read_list read_bytes (json_subproofs l) = Some l.
Proof.
  destruct l as [|b l]; [done|]. unfold json_subproofs, read_list. apply mapM_Some.
  induction (b :: l) as [|x xs IH]; [by constructor|]. constructor; [|done].
  destruct x as [x|]; [|done]. cbn. by rewrite b64_roundtrip.
Qed.

Lemma read_agg_ok r :
  every is_ascii (apr_L1Head r) → read_AggProofRequest (marshal_AggProofRequest r) = Some r.
Proof.
  intros Hh. unfold read_AggProofRequest, marshal_AggProofRequest.
  rewrite (parse_pair _ _ (json_subproofs (apr_Subproofs r)) _ _ (JStr (apr_L1Head r))).
  - cbn [mbind option_bind]. rewrite member_fst, member_snd by done. cbn [mbind option_bind].
    rewrite read_subproofs_ok. by destruct r.
  - done.
  - done.
  - intros [|fuel] rest Hf Hr; [lia|]. destruct depth_left as [d ->].
    apply value_subproofs. pose proof (subproofs_length (apr_Subproofs r)). lia.
  - intros [|fuel] rest Hf Hr; [lia|by apply value_string].
Qed.

Section requests.
Context `{SqlLaws, External}.
Implicit Types (w : World).

(** C27: the body [prepareProofRequest] makes, read back, is the request: for a
    span proof its block range, and for an aggregation proof the proofs of the
    completed span proofs that cover the range, in order and byte for byte,
    with the L1 block hash.  A range that is empty or reversed, and a range
    that the completed proofs do not cover, is refused. *)
Theorem prepareProofRequest_reads p w :
  sane (rows w) → 0 <= pr_StartBlock p → 0 <= pr_EndBlock p → every is_ascii (pr_L1BlockHash p) →
  returns (prepareProofRequest p) w
    (λ body w', rows w' = rows w ∧
       if bool_decide (pr_Type p = TypeSPAN)
       then pr_StartBlock p < pr_EndBlock p ∧
            read_SpanProofRequest body = Some (mkSpanProofRequest (pr_StartBlock p) (pr_EndBlock p))
       else ∃ rs, covered (rows w) (pr_StartBlock p) (pr_EndBlock p) rs ∧
            read_AggProofRequest body = Some (mkAggProofRequest (row_proof <$> rs) (pr_L1BlockHash p)))
    (λ _ w', rows w' = rows w ∧ (pr_Type p = TypeSPAN → pr_EndBlock p <= pr_StartBlock p)).
Proof.
  intros Hs Hs0 He0 Hh. unfold prepareProofRequest. case_bool_decide as Hty.
  - destruct (Z.leb_spec (pr_EndBlock p) (pr_StartBlock p)) as [Hle|Hlt]; [by apply returns_raise|].
    apply returns_ret. split; [done|]. split; [done|]. by apply read_span_ok.
  - eapply (returns_bind _ _ _ (λ l w', rows w' = rows w ∧ ∃ rs,
      covered (rows w) (pr_StartBlock p) (pr_EndBlock p) rs ∧ l = row_proof <$> rs) (λ _ w', rows w' = rows w)).
    + apply returns_map_err. eapply returns_mono; [apply GetConsecutiveSpanProofs_returns, Hs|..].
      * intros l w' ([_ Hr] & rs & Hp & Hl & ->). split; [done|]. exists rs. split; [by apply linked_covered|done].
      * by intros er w' [[_ Hr] _].
    + intros l w' (Hr & rs & Hc & ->). apply returns_ret. split; [done|]. exists rs. split; [done|]. by apply read_agg_ok.
    + intros er w' Hr. by split.
Qed.

End requests.

(** An aggregation request over the two completed proofs of [chain_table]. *)
Definition agg_entity : ProofRequest := entity (with_l1_info 8 "0xaa" t0 agg_row).

Lemma prepareProofRequest_reads_witness :
  ∃ body, (run (prepareProofRequest agg_entity) chain_world).1 = Ok body ∧
    read_AggProofRequest body = Some (mkAggProofRequest [Some [Byte.x0a]; Some [Byte.x0b]] "0xaa") ∧
    ∃ rs, read_AggProofRequest body = Some (mkAggProofRequest (row_proof <$> rs) "0xaa") ∧
      covered chain_table 0 70 rs.
Proof.
  eexists. assert ((run (prepareProofRequest agg_entity) chain_world).1 = Ok _) as Ho by (vm_compute; reflexivity).
  split; [exact Ho|]. split; [vm_compute; reflexivity|].
  pose proof (prepareProofRequest_reads agg_entity chain_world
    ltac:(apply (ti_sane 0 100); by apply table_invb_sound) ltac:(done) ltac:(done)
    ltac:(by apply (bool_decide_unpack (every is_ascii "0xaa")))) as HT.
  ran HT Ho. destruct Ho as [_ (rs & Hc & Hr)]. exists rs. by split.
Defined.
