(* ===== verification/Ent.v ===== *)
(** * What the generated client promises

    The laws of [db/ent] that the queries of [db/db.go] rest on: a mutation
    gives back the values that were set in it, and an entity that was saved is
    read back as it was built. *)

From Stdlib Require Import ZArith Lia.
From S2P Require Import Prelude Sql ProofRequest Metrics Encoding Prog Types Script Mutation Builders.
From S2P Require Import Db.

(** ** Mutations *)

(** What a switch gives on each name. *)
Ltac switch_cases :=
  unfold Field, AddedField; cbn [switch]; repeat (case_decide; [try done|]); try done.

Lemma has_some {A} f (o : option A) l : o ≠ None → f ∈ has f o ++ l.
Proof. intros Ho. apply elem_of_app. left. destruct o; [|done]. by left. Qed.

(** C28: a mutation is a record of optional fields: [SetField] makes [Field]
    return the value, drops a pending increment of the field, lists the field,
    and leaves every other field as it was; it is refused exactly when the
    value is none that the field of that name could have, in any mutation. *)
Theorem SetField_laws name value m :
  match SetField name value m with
  | inr m' =>
      Field m' name = Some value ∧ AddedField m' name = None ∧ name ∈ Fields m' ∧
      ∀ other, other ≠ name → Field m' other = Field m other ∧ AddedField m' other = AddedField m other
  | inl _ => ∀ m', Field m' name ≠ Some value
  end.
Proof.
  unfold SetField. cbn [switch].
  repeat (case_decide; [subst name; destruct value; cbn [as_VType as_VStatus as_VString as_VUint64 as_VBytes]|]).
  all: lazymatch goal with
    | |- ∀ m', Field m' _ ≠ _ => intros m'; switch_cases; match goal with |- _ <$> ?o ≠ _ => by destruct o end
    | _ => destruct m; split; [done|]; split; [done|]; split;
           [unfold Fields; repeat (first [by apply has_some|by left|apply elem_of_app; right])|]
    end.
  all: intros other Ho; split; switch_cases.
Qed.

(** ** Saving and reading back *)

(** The values of a [uint64] field. *)
Definition opt_u64 (o : option Z) : Prop := match o with Some z => is_u64 z | None => True end.

(** The integers of a mutation are [uint64]s. *)
Definition mutation_u64 (m : ProofRequestMutation) : Prop :=
  opt_u64 (m_start_block m) ∧ opt_u64 (m_end_block m) ∧ opt_u64 (m_request_added_time m) ∧
  opt_u64 (m_proof_request_time m) ∧ opt_u64 (m_last_updated_time m) ∧ opt_u64 (m_l1_block_number m).

Lemma first_error_none l : first_error l = None → Forall (λ e, e = None) l.
Proof. induction l as [|[e|] l IH]; intros Hl; [done|done|]. constructor; [done|by apply IH]. Qed.

Lemma require_some {A} f (o : option A) : require f o = None → ∃ v, o = Some v.
Proof. destruct o; [by eexists|done]. Qed.

Lemma check_required m :
  prc_check m = None →
  ∃ ty s e st ra lu, m_type m = Some ty ∧ m_start_block m = Some s ∧ m_end_block m = Some e ∧
    m_status m = Some st ∧ m_request_added_time m = Some ra ∧ m_last_updated_time m = Some lu.
Proof.
  intros Hc%first_error_none. repeat (apply Forall_cons in Hc as [? Hc]).
  repeat match goal with H : require _ _ = None |- _ => apply require_some in H as [? ?] end. by eexists _, _, _, _, _, _.
Qed.

(** The row a create builds is read as the entity the create returns. *)
Lemma create_entity m id r :
  mutation_u64 m → prc_check m = None → build_row id (cs_fields (prc_createSpec m).2) = Some r →
  row_id r = id ∧ entity r = set_ID id (prc_createSpec m).1.
Proof.
  intros Hu (ty & s & e & st & ra & lu & H1 & H2 & H3 & H4 & H5 & H6)%check_required.
  destruct m. simpl in *. subst. destruct Hu as (Hs & He & Hra & Hpt & Hlu & Hln). simpl in *.
  unfold build_row. destruct (forallb _ _); [|done].
  destruct m_prover_request_id, m_proof_request_time, m_l1_block_number, m_l1_block_hash, m_proof as [[?|]|].
  all: intros Hb; vm_compute in Hb; injection Hb as <-; (split; [done|]).
  all: unfold entity; cbn [row_id row_type row_start_block row_end_block row_status row_request_added_time
    row_prover_request_id row_proof_request_time row_last_updated_time row_l1_block_number row_l1_block_hash row_proof
    fmap option_fmap option_map default opt_u64] in *; by rewrite ?u64_small.
Qed.

Section roundtrip.
Context `{SqlLaws, External}.
Implicit Types (w : World).

(** C29: what is saved is read back: when [Create().Set...().Save] returns an
    entity, [Get] on its id, at once, returns the same entity, field by field
    (an absent optional field as its zero value), or fails;
    the new row is the only one added. *)
Theorem Save_then_Get b w :
  prc_driver b = HWrite → w_tx w = None → mutation_u64 (prc_mutation b) → prc_check (prc_mutation b) = None →
  returns (p ← prc_Save b; q ← Client_Get HRead (pr_ID p); Ret (p, q)) w
    (λ '(p, q) w', q = p ∧ ∃ r, p = entity r ∧ rows w' = rows w ++ [r])
    (λ _ w', rows w' = rows w ∨ ∃ r, rows w' = rows w ++ [r]).
Proof.
  intros Hd Ht Hu Hc.
  eapply (returns_bind _ _ _ (λ p w', ∃ r, p = entity r ∧ (∀ r', r' ∈ rows w → row_id r' ≠ row_id r) ∧
    rows w' = rows w ++ [r]) (λ _ w', rows w' = rows w)); [|..|by left].
  - apply returns_create; [done..| |done].
    intros id r w' _ _ Hfresh Hb Hr. destruct (create_entity _ _ _ Hu Hc Hb) as [Hid He].
    exists r. rewrite Hid. by rewrite He.
  - intros p w1 (r & -> & Hfresh & Hr1).
    eapply (returns_bind _ _ _ (λ q w', q = entity r ∧ rows w' = rows w ++ [r]) (λ _ w', rows w' = rows w ++ [r])).
    + unfold Client_Get. apply returns_only; [|by intros e w' _ ->].
      intros r' w' _ Hr' Hm. rewrite Hr1 in *. split; [|done].
      assert (r ∈ matching [ID (pr_ID (entity r))] (rows w ++ [r])) as Hin.
      { apply list_elem_of_filter. split; [|apply elem_of_app; right; by left].
        autorewrite with sat. by rewrite bool_decide_eq_true_2. }
      rewrite Hm in Hin. by apply list_elem_of_singleton in Hin as ->.
    + intros q w' [-> Hr']. apply returns_ret. split; [done|]. by exists r.
    + intros e w' Hr'. right. by exists r.
Qed.

End roundtrip.

(** A row with an absent and a present optional field. *)
Definition create0 : ProofRequestCreate :=
  prc_SetL1BlockHash "0xaa" (prc_SetLastUpdatedTime t0 (prc_SetRequestAddedTime t0
    (prc_SetStatus StatusUNREQ (prc_SetEndBlock 40 (prc_SetStartBlock 0
      (prc_SetType TypeSPAN (Client_Create HWrite))))))).

Lemma Save_then_Get_witness :
  let r := run (p ← prc_Save create0; q ← Client_Get HRead (pr_ID p); Ret (p, q)) (world [] script0) in
  ∃ p, r.1 = Ok (p, p) ∧ pr_L1BlockHash p = "0xaa"%string ∧ pr_Proof p = None ∧ ∃ x, rows r.2 = [] ++ [x].
Proof.
  intros r. eexists. assert (r.1 = Ok (_, _)) as Ho by (vm_compute; reflexivity).
  split; [exact Ho|]. split; [done|]. split; [done|].
  pose proof (Save_then_Get create0 (world [] script0) eq_refl eq_refl ltac:(by vm_compute) eq_refl) as HT.
  ran HT Ho. destruct Ho as (_ & x & _ & Hx). by exists x.
Defined.
