(* ===== verification/Race.v ===== *)
(** * The main loop and the request goroutines

    [RequestQueuedProofs] starts a goroutine per request, which runs beside the
    main loop on the same table.  This file interleaves two programs, one
    command at a time, and shows what the interleaving of the two handlers of a
    witness generation timeout does: the goroutine's HTTP client and
    [ProcessWitnessgenRequests] use the same timeout, and both retry. *)

From Stdlib Require Import ZArith Lia.
From stdpp Require Import relations.
From S2P Require Import Prelude Sql ProofRequest Metrics Encoding Prog Types Script Json Spans.
From S2P Require Import Mutation Builders Db Range Partition Steps Evolve Prove Driver Pipeline.
From S2P Require Import Stages.

Section interleaving.
Context `{SqlGraph, External}.
Implicit Types (w : World).

(** One command of a program; [None] when it has returned or is blocked. *)
Definition step {A} (p : prog A) w : option (prog A * World) :=
  match p with
  | Do c k => (λ r, (k r.1, r.2)) <$> exec c w
  | _ => None
  end.

(** Two goroutines over one process. *)
Inductive par_step {A B} : relation (prog A * prog B * World) :=
| par_left p p' q w w' : step p w = Some (p', w') → par_step (p, q, w) (p', q, w')
| par_right p q q' w w' : step q w = Some (q', w') → par_step (p, q, w) (p, q', w').

(** The execution under a schedule ([true]: the first goroutine moves; a
    goroutine that cannot move passes). *)
Fixpoint interleave {A B} (sched : list bool) (p : prog A) (q : prog B) w : prog A * prog B * World :=
  match sched with
  | [] => (p, q, w)
  | true :: sched' => match step p w with
                      | Some (p', w') => interleave sched' p' q w'
                      | None => interleave sched' p q w
                      end
  | false :: sched' => match step q w with
                       | Some (q', w') => interleave sched' p q' w'
                       | None => interleave sched' p q w
                       end
  end.

(** Every schedule is an execution of the two goroutines. *)
Lemma interleave_reaches {A B} sched (p : prog A) (q : prog B) w :
  rtc par_step (p, q, w) (interleave sched p q w).
Proof.
  revert p q w. induction sched as [|[] sched IH]; intros p q w; cbn [interleave]; [done|..].
  - destruct (step p w) as [[p' w']|] eqn:E; [|done]. eapply rtc_l; [by apply par_left|done].
  - destruct (step q w) as [[q' w']|] eqn:E; [|done]. eapply rtc_l; [by apply par_right|done].
Qed.

Lemma interleave_ends {A B} sched (p : prog A) (q : prog B) w a b :
  (interleave sched p q w).1.1 = Ret a → (interleave sched p q w).1.2 = Ret b →
  rtc par_step (p, q, w) (Ret a, Ret b, (interleave sched p q w).2).
Proof.
  pose proof (interleave_reaches sched p q w) as Hr. destruct (interleave sched p q w) as [[p' q'] w']. simpl in *.
  by intros -> ->.
Qed.

(** A program that is scheduled alone does what [run] says. *)
Lemma run_steps {A} (p : prog A) w a w' :
  run p w = (Ok a, w') → ∃ n, ∀ B (q : prog B), interleave (replicate n true) p q w = (Ret a, q, w').
Proof.
  revert w. induction p as [x|e|m| |R c k IH]; intros w Hr; try done.
  - injection Hr as -> ->. by exists 0%nat.
  - cbn [run] in Hr. destruct (exec c w) as [[r w1]|] eqn:E; [|done].
    destruct (IH r w1 Hr) as [n Hn]. exists (S n). intros B q. cbn [replicate interleave step]. rewrite E. cbn. by apply Hn.
Qed.

End interleaving.

(** ** Two retries of one request *)

(** Two live span proofs over a common block. *)
Definition overlapping (tbl : list Row) : Prop :=
  ∃ a b, a ∈ tbl ∧ b ∈ tbl ∧ row_id a ≠ row_id b ∧ live_span a ∧ live_span b ∧ lo a < hi b ∧ lo b < hi a.

Lemma first_entry s e rgs new :
  s < e → chain s rgs e → Forall2 (entry_of TypeSPAN) rgs new →
  ∃ a, a ∈ new ∧ live_span a ∧ lo a = s ∧ s < hi a.
Proof.
  intros Hlt Hc Hf. pose proof (entries_live _ _ _ eq_refl Hf) as Hl. pose proof (entries_chain _ _ _ _ _ Hf Hc) as Hn.
  destruct new as [|a new]; [simpl in Hn; lia|]. destruct Hn as (Ha & Hb & _). apply Forall_cons in Hl as [Hl _].
  exists a. split; [by left|]. split; [done|]. split; [done|]. lia.
Qed.

Lemma app_ids_distinct (l1 l2 : list Row) a b :
  table_ok (l1 ++ l2) → a ∈ l1 → b ∈ l2 → row_id a ≠ row_id b.
Proof.
  intros [_ Hnd] Ha Hb E. rewrite fmap_app in Hnd. apply NoDup_app in Hnd as (_ & Hd & _).
  apply (Hd (row_id a)); [by apply list_elem_of_fmap_2|]. rewrite E. by apply list_elem_of_fmap_2.
Qed.

Lemma at_id_other f tbl id a : a ∈ tbl → row_id a ≠ id → a ∈ at_id id f tbl.
Proof. intros Ha Hne. apply list_elem_of_fmap. exists a. by rewrite decide_False. Qed.

Section retries.
Context `{SqlLaws, External}.
Implicit Types (w : World).

(** [RetryRequest] does not look at the status of the request it is given:
    when a span proof is retried twice, from two copies of the request, and both
    retries succeed, two live span proofs cover the same block, and the
    partition is lost. *)
Theorem double_retry_overlaps w r st1 st2 :
  w_tx w = None → sane (rows w) → r ∈ rows w → row_type r = TypeSPAN →
  wp (_ ← RetryRequest (entity r) st1; RetryRequest (entity r) st2) w
    (λ o w', match o with Ok _ => overlapping (rows w') | Fail _ => True | _ => False end).
Proof.
  intros Ht [Hok Hsp] Hin Hty. specialize (Hsp r Hin Hty).
  eapply (wp_bind _ _ _ (λ _ w', frame w w' ∧ retried st1 r w w') (λ _ _, True)); [|..|done].
  { eapply returns_mono; [apply RetryRequest_returns; [done..|lia]|done|done]. }
  intros _ w1 (Hf & t1 & new1 & _ & _ & Hr1 & Hn1 & Hok1). set (r1 := mark StatusFAILED t1 r).
  assert (lo r1 = lo r ∧ hi r1 = hi r ∧ row_type r1 = row_type r) as (Hlo & Hhi & Hty1) by by destruct r.
  assert (r1 ∈ failed_at t1 r (rows w)) as Hin1 by by apply at_id_in.
  rewrite <- (RetryRequest_same r r1) by apply same_mark.
  rewrite Hty in Hn1. destruct (first_entry _ _ _ _ Hsp (replacement_chain _ _ _ Hsp) Hn1) as (a & Ha & Hla & Ha1 & Ha2).
  assert (row_id r1 ≠ row_id a) as Hne by (rewrite Hr1 in Hok1; by eapply app_ids_distinct).
  eapply wp_mono.
  { apply RetryRequest_returns; [by rewrite (frame_tx _ _ Hf)|done|rewrite Hr1; apply elem_of_app; by left|].
    intros _. lia. }
  intros [[]| | | |] w2; cbn [okfail]; try done.
  intros (_ & t2 & new2 & _ & _ & Hr2 & Hn2 & Hok2). rewrite Hty1, Hty in Hn2.
  assert (lo r1 < hi r1) as Hsp1 by by rewrite Hlo, Hhi.
  destruct (first_entry _ _ _ _ Hsp1 (replacement_chain _ _ r1 Hsp1) Hn2) as (b & Hb & Hlb & Hb1 & Hb2).
  assert (a ∈ failed_at t2 r1 (rows w1)) as Ha'.
  { apply at_id_other; [rewrite Hr1; apply elem_of_app; by right|done]. }
  exists a, b. rewrite Hr2 in Hok2 |- *. rewrite !elem_of_app. split; [by left|]. split; [by right|].
  split; [by eapply app_ids_distinct|]. do 2 (split; [done|]). lia.
Qed.

End retries.

(** ** The race *)

(** An outside with a clock, and a server that does not answer: a call to it
    ends with a timeout, after the timeout of the client. *)
Definition slow_exec {R} (c : ExtCmd R) (now : Z) : R * Z :=
  match c in ExtCmd R return R * Z with
  | ENow => (now, now)
  | EHttp r => ((inl (ENet true 110), true), now + rq_timeout r / second + 1)
  | c => ((script_exec c script0).1, now)
  end.

Definition SlowExternal : External := {|
  ext := Z;
  ext_exec := @slow_exec;
  ext_select now := (true, now);
  Address_Hex _ := ""%string;
  url_valid _ := true;
  abi_Pack _ _ _ := inr [];
|}.

Definition queue : list Row := [row_at t0 1 TypeSPAN 0 40 StatusUNREQ].
Definition slow_world : @World ListSql SlowExternal :=
  @mkWorld ListSql SlowExternal (mkListStore queue []) true true None t0 NoopMetrics driver0 [] [].

(** The goroutine moves until its call to the server has timed out, the loop
    polls, and the goroutine goes on. *)
Definition race : list bool := replicate 3 true ++ replicate 20 false ++ replicate 20 true.

(** C30: a request that times out at the server can be queued twice: the
    goroutine's HTTP client and the main loop use the same timeout, and in this
    execution of the two, where every database call succeeds and both return
    without an error, the loop retries the request first and the goroutine
    again.  The only request covered [0, 40) before; afterwards two live
    requests do.  (Each of the two alone keeps the partition.) *)
Theorem witnessgen_timeout_race :
  let p := entity (row_at t0 1 TypeSPAN 0 40 StatusUNREQ) in
  table_inv 0 40 (rows slow_world) ∧
  ∃ w', rtc (@par_step ListSql SlowExternal unit unit)
      (request_task cfg0 p p, ProcessWitnessgenRequests cfg0, slow_world) (Ret tt, Ret tt, w') ∧
    overlapping (rows w').
Proof.
  intros p. split; [by apply table_invb_sound|].
  exists (interleave race (request_task cfg0 p p) (ProcessWitnessgenRequests cfg0) slow_world).2. split.
  - apply interleave_ends; vm_compute; reflexivity.
  - assert (rows (interleave race (request_task cfg0 p p) (ProcessWitnessgenRequests cfg0) slow_world).2 =
      [mark StatusFAILED (t0 + 21) (row_at t0 1 TypeSPAN 0 40 StatusUNREQ);
       row_at (t0 + 21) 2 TypeSPAN 0 40 StatusUNREQ; row_at (t0 + 21) 3 TypeSPAN 0 40 StatusUNREQ]) as ->
      by (vm_compute; reflexivity).
    eexists _, _. split; [right; left|]. split; [right; right; left|]. done.
Qed.

(** Both retries of a request in WITNESSGEN. *)
Lemma double_retry_overlaps_witness :
  let r := row_at t0 1 TypeSPAN 0 40 StatusWITNESSGEN in
  let o := run (_ ← RetryRequest (entity r) emptyStatus; RetryRequest (entity r) emptyStatus) (world [r] script0) in
  o.1 = Ok tt ∧ overlapping (rows o.2).
Proof.
  intros r o. assert (o.1 = Ok tt) as Ho by (vm_compute; reflexivity). split; [exact Ho|].
  pose proof (double_retry_overlaps (world [r] script0) r emptyStatus emptyStatus eq_refl
    ltac:(apply (ti_sane 0 40); by apply table_invb_sound) ltac:(by left) eq_refl) as HT.
  by ran HT Ho.
Defined.
