(* ===== verification/Blocks.v ===== *)
(** * The blocks that span proofs cover

    What each command of a goroutine may do to the table, as seen by somebody
    who asks which blocks have a live span proof: a [harmless] command neither
    takes a block away nor adds one, unless it writes the status of a request
    that has failed.  All of the proposer is harmless but the update that marks
    a request as failed and the insertion of a span proof. *)

From Stdlib Require Import ZArith Lia.
From stdpp Require Import relations.
From S2P Require Import Prelude Sql ProofRequest Metrics Encoding Prog Types Script Json Spans.
From S2P Require Import Mutation Builders Db Range Partition Steps Prove Driver Machine Concurrent.

(** ** Covered blocks *)

(** The span proof [r] is to prove block [b], and has not failed. *)
Definition covers (b : Z) (r : Row) : Prop := live_span r ∧ is_i63 (lo r) ∧ is_i63 (hi r) ∧ lo r <= b < hi r.
#[export] Instance covers_dec b r : Decision (covers b r).
Proof. unfold covers. apply _. Defined.

Definition covered (tbl : list Row) (b : Z) : Prop := ∃ r, r ∈ tbl ∧ covers b r.
#[export] Instance covered_dec tbl b : Decision (covered tbl b).
Proof. refine (cast_if (decide (Exists (covers b) tbl))); unfold covered; by rewrite <- Exists_exists. Defined.

Definition no_less (tbl tbl' : list Row) : Prop := ∀ b, covered tbl b → covered tbl' b.

Global Instance no_less_preorder : PreOrder no_less.
Proof. split; [by intros ? ?|]. intros t1 t2 t3 H1 H2 b Hb. by apply H2, H1. Qed.

Lemma no_less_app tbl l : no_less tbl (tbl ++ l).
Proof. intros b (r & Hr & Hc). exists r. split; [apply elem_of_app; by left|done]. Qed.

(** *** Updates *)

(** The assignments that neither move a request nor mark it as failed. *)
Definition mild_set (p : string * GoValue) : bool :=
  bool_decide (fst p ∈ [FieldProverRequestID; FieldProofRequestTime; FieldLastUpdatedTime;
                        FieldL1BlockNumber; FieldL1BlockHash; FieldProof]) ||
  match snd p with
  | VStatus st => bool_decide (fst p = FieldStatus) && negb (bool_decide (st = StatusFAILED))
  | _ => false
  end.

Definition mild (u : UpdateSpec) : bool :=
  forallb mild_set (us_set u) && bool_decide (us_add u = []) && bool_decide (us_clear u = []).

Definition sets_status (u : UpdateSpec) : bool := existsb (λ p, bool_decide (fst p = FieldStatus)) (us_set u).

(** [r] after a mild update; its status may have changed if the update [has] one. *)
Definition mildly (has : bool) (r r' : Row) : Prop :=
  same_request r r' ∧ (row_status r' = row_status r ∨ has = true ∧ row_status r' ≠ StatusFAILED).

Global Instance mildly_preorder has : PreOrder (mildly has).
Proof.
  split; [by intros r; split; [|left]|]. intros r1 r2 r3 [S1 H1] [S2 H2]. split.
  - unfold same_request in *. intuition congruence.
  - destruct H2 as [-> |H2]; [done|by right].
Qed.

Lemma mild_set_mildly p r r' :
  mild_set p → apply_set r p = Some r' → mildly (bool_decide (fst p = FieldStatus)) r r'.
Proof.
  destruct p as [c v]. unfold mild_set, apply_set. cbn [fst snd]. destruct (convertible v); [|done]. intros Hm Hs.
  apply orb_True in Hm as [Hm%bool_decide_unpack|Hm].
  - destruct r. repeat (apply elem_of_cons in Hm as [->|Hm];
      [cbn in Hs; apply fmap_Some in Hs as (x & _ & ->); split; [done|by left]|]).
    by apply not_elem_of_nil in Hm.
  - destruct v; try done. apply andb_True in Hm as [->%bool_decide_unpack Hst].
    case_bool_decide as Hf; [done|]. destruct r. cbn in Hs. injection Hs as <-. split; [done|by right].
Qed.

Lemma mildly_weaken (a b : bool) r r' : (a → b) → mildly a r r' → mildly b r r'.
Proof. intros Hab [Hs [Ht|[Ha Ht]]]; (split; [done|]); [by left|right]. split; [|done]. destruct a, b; naive_solver. Qed.

Lemma foldM_mildly (has : bool) l r r' :
  Forall (λ p, mild_set p ∧ (bool_decide (fst p = FieldStatus) → has)) l →
  foldM apply_set r l = Some r' → mildly has r r'.
Proof.
  intros Hok. unfold foldM. revert r. induction Hok as [|x l [Hx Hh] _ IH]; intros r; simpl; [by intros [= <-]|].
  destruct (apply_set r x) as [r1|] eqn:E.
  - intros Hr. transitivity r1; [|by apply IH]. eapply mildly_weaken; [exact Hh|]. by apply mild_set_mildly.
  - intros Hr. exfalso. clear -Hr. by induction l.
Qed.

Lemma mild_mildly u r r' : mild u → apply_update u r = Some r' → mildly (sets_status u) r r'.
Proof.
  unfold mild. rewrite !andb_True, forallb_True. intros ((Hset & Hadd%bool_decide_unpack) & Hclr%bool_decide_unpack) Hu.
  unfold apply_update in Hu. rewrite Hadd, Hclr in Hu. apply bind_Some in Hu as (r1 & H1 & Hu).
  apply bind_Some in Hu as (r2 & H2 & H3). cbn in H2, H3. injection H2 as ->. injection H3 as ->.
  eapply foldM_mildly; [|exact H1]. apply Forall_forall. intros p Hp.
  split; [by eapply Forall_forall in Hset; [|exact Hp]|]. intros Hf. unfold sets_status.
  apply Is_true_true, existsb_exists. exists p. split; [by apply list_elem_of_In|]. by apply Is_true_true.
Qed.

(** A live request stays live, with its blocks; a failed one may come back only
    if the update writes its status. *)
Lemma mildly_covers has b r r' : mildly has r r' → covers b r → covers b r'.
Proof.
  unfold covers, live_span. intros [(_ & Ht & Hl & Hh) Hs] ((Hty & Hst) & H1 & H2 & H3).
  cbn in *. rewrite Ht, Hl, Hh. split_and!; done || lia || by destruct Hs as [-> |[_ ?]].
Qed.

Lemma mildly_covers_back has b r r' :
  mildly has r r' → (has = true → row_status r ≠ StatusFAILED) → covers b r' → covers b r.
Proof.
  unfold covers, live_span. intros [(_ & Ht & Hl & Hh) Hs] Hf ((Hty & Hst) & H1 & H2 & H3).
  cbn in *. rewrite Ht in Hty. rewrite Hl in H1, H3. rewrite Hh in H2, H3. split_and!; done || lia || idtac.
  destruct Hs as [Hs|[-> _]]; [by rewrite Hs in Hst|by apply Hf].
Qed.

Lemma update_rows_forall2 u tbl tbl' :
  mild u → update_rows u tbl = Some tbl' →
  Forall2 (λ r r', if touched u r then mildly (sets_status u) r r' else r' = r) tbl tbl'.
Proof.
  intros Hm Ht. unfold update_rows in Ht. apply mapM_Some in Ht. eapply Forall2_impl; [exact Ht|].
  intros r r' Hx. unfold update_row in Hx. destruct (touched u r); [by apply mild_mildly|congruence].
Qed.

Lemma mild_no_less u tbl tbl' : mild u → update_rows u tbl = Some tbl' → no_less tbl tbl'.
Proof.
  intros Hm Ht%update_rows_forall2 b (r & [i Hi]%list_elem_of_lookup & Hc); [|done].
  destruct (Forall2_lookup_l _ _ _ _ _ Ht Hi) as (r' & Hr' & Hx). exists r'.
  split; [by eapply list_elem_of_lookup_2|]. destruct (touched u r); [by eapply mildly_covers|by subst].
Qed.

(** *** Insertions *)

(** The row is no span proof, and its end is one of the code's [uint64]s. *)
Definition unspanned (c : CreateSpec) : bool :=
  match assoc FieldType (cs_fields c), assoc FieldEndBlock (cs_fields c) with
  | Some (VType t), Some (VUint64 _) => negb (bool_decide (t = TypeSPAN))
  | _, _ => false
  end.

Lemma assoc_elem {A} c (l : list (string * A)) a : assoc c l = Some a → (c, a) ∈ l.
Proof.
  induction l as [|[c' a'] l IH]; cbn; [done|]. case_decide as Hc.
  - intros [= ->]. subst c'. by left.
  - intros Ha. right. by apply IH.
Qed.

Lemma unspanned_row c id r :
  unspanned c → build_row id (cs_fields c) = Some r → row_type r ≠ TypeSPAN ∧ row_end_block r < two63.
Proof.
  unfold unspanned, build_row. intros Hu Hb. destruct (forallb _ _) eqn:Hf; [|done].
  change "type"%string with FieldType in Hb. change "end_block"%string with FieldEndBlock in Hb.
  destruct (assoc FieldType _) as [[]|] eqn:Ht; try done.
  destruct (assoc FieldEndBlock _) as [[]|] eqn:He; try done.
  cbn in Hb. apply bind_Some in Hb as (? & _ & Hb).
  repeat (apply bind_Some in Hb as (? & _ & Hb)). injection Hb as <-. cbn.
  split; [intros ->; by rewrite bool_decide_eq_true_2 in Hu|].
  apply assoc_elem in He. rewrite forallb_forall in Hf. specialize (Hf _ (proj1 (list_elem_of_In _ _) He)). cbn in Hf. lia.
Qed.

(** ** Commands that neither drop a block nor add one *)

Section commands.
Context `{SqlLaws, External}.
Implicit Types (w : World).

Definition is_read (h : Handle) : bool := match h with HRead => true | _ => false end.

Definition harmless {R} (c : cmd R) : bool :=
  match c with
  | CDb (SqlCreate h c) => negb (is_read h) && unspanned c
  | CDb (SqlUpdateNodes h u) | CDb (SqlUpdateNode h u) => negb (is_read h) && mild u
  | CDb (SqlQuery _ q) => negb (qs_unique q)
  | CDb (SqlSelect _ _) => true
  | CDb (SqlCount _ q) => bool_decide (qs_limit q = 0 ∧ qs_offset q = 0)
  | CDb (TxBegin _) | CDb TxCommit | CDb TxRollback => true
  | CExt _ => true
  | CProc (PSpawn _) => false
  | CProc c => running_cmd c
  | _ => false
  end.

(** The update a command is, and the rows it is applied to. *)
Definition updates (own : bool) {R} (c : cmd R) w : option (UpdateSpec * list Row) :=
  match c with
  | CDb (SqlUpdateNodes h u) | CDb (SqlUpdateNode h u) =>
      match h with
      | HTx => if own then (λ s, (u, sg_rows s)) <$> w_tx w else None
      | _ => Some (u, rows w)
      end
  | _ => None
  end.

(** A change of a table, by an update that satisfies [ok]. *)
Inductive mild_change (ok : UpdateSpec → list Row → Prop) (tbl : list Row) : list Row → Prop :=
| mild_same : mild_change ok tbl tbl
| mild_insert r : row_type r ≠ TypeSPAN → row_end_block r < two63 → mild_change ok tbl (tbl ++ [r])
| mild_update u tbl' : ok u tbl → mild u → update_rows u tbl = Some tbl' → mild_change ok tbl tbl'.

Lemma mild_change_no_less ok tbl tbl' : mild_change ok tbl tbl' → no_less tbl tbl'.
Proof. intros []; [done|apply no_less_app|by eapply mild_no_less]. Qed.

(** And of the table and the open transaction. *)
Inductive world_change (ok : UpdateSpec → list Row → Prop) w w' : Prop :=
| change_none : rows w' = rows w → w_tx w' = w_tx w → world_change ok w w'
| change_table : w_tx w = None → w_tx w' = None → mild_change ok (rows w) (rows w') → world_change ok w w'
| change_begin s : w_tx w = None → w_tx w' = Some s → sg_rows s = rows w → rows w' = rows w → world_change ok w w'
| change_copy s s' : w_tx w = Some s → w_tx w' = Some s' → rows w' = rows w →
    mild_change ok (sg_rows s) (sg_rows s') → world_change ok w w'
| change_end s : w_tx w = Some s → w_tx w' = None → rows w' = rows w ∨ rows w' = sg_rows s → world_change ok w w'.

Lemma world_handle {X} h (f : store → (sqlerr + X) * store) ok w r w' :
  (∀ s r s', f s = (r, s') → mild_change (λ u tbl, match h with HTx => w_tx w = Some s | _ => w_db w = s end → ok u tbl)
     (sg_rows s) (sg_rows s') ∧ (h = HRead → sg_rows s' = sg_rows s)) →
  on_handle h f w = Some (r, w') → world_change ok w w' ∧ w_tasks w' = w_tasks w.
Proof.
  assert (∀ (P : Prop) tbl tbl', P → mild_change (λ u tbl, P → ok u tbl) tbl tbl' → mild_change ok tbl tbl') as Hok.
  { intros P tbl tbl' HP []; [by apply mild_same|by apply mild_insert|]. eapply mild_update; by auto. }
  intros Hf He. destruct h; cbn in He.
  - destruct (w_ropen w); [|injection He as _ <-; by split; [apply change_none|]].
    destruct (f (w_db w)) as [r' s'] eqn:E. injection He as _ <-. apply Hf in E as [_ E].
    split; [apply change_none|]; unfold rows; destruct w; simpl in *; auto.
  - destruct (w_wopen w); [|injection He as _ <-; by split; [apply change_none|]].
    destruct (w_tx w) eqn:Ht; [done|]. destruct (f (w_db w)) as [r' s'] eqn:E. injection He as _ <-.
    apply Hf in E as [E _]. apply Hok in E; [|done].
    split; [|by destruct w]. apply change_table; [done|..]; unfold rows in *; by destruct w; simpl in *.
  - destruct (w_tx w) as [t|] eqn:Ht; [|injection He as _ <-; by split; [apply change_none|]].
    destruct (f t) as [r' s'] eqn:E. injection He as _ <-. apply Hf in E as [E _]. apply Hok in E; [|done].
    split; [|by destruct w]. eapply change_copy; [exact Ht|..]; unfold rows; by destruct w.
Qed.

Lemma world_db {R} (c : DbCmd R) ok w r w' :
  harmless (CDb c) → (∀ u tbl, updates true (CDb c) w = Some (u, tbl) → ok u tbl) →
  exec_db c w = Some (r, w') → world_change ok w w' ∧ w_tasks w' = w_tasks w.
Proof.
  intros Hh Ho He. destruct c as [h c|h u|h u|h q|h q|h q| |o| | | | | | ]; cbn -[on_handle] in Hh, He; try done.
  - apply andb_True in Hh as [Hh Hu]. eapply world_handle; [|exact He]. intros s [e|n] s' E.
    + apply sg_create_err in E as ->. split; [apply mild_same|done].
    + apply sg_create_ok in E as (_ & _ & x & Hb & ->).
      destruct (unspanned_row _ _ _ Hu Hb). split; [by apply mild_insert|]. by intros ->.
  - apply andb_True in Hh as [Hh Hm]. eapply world_handle; [|exact He]. intros s [e|n] s' E.
    + apply sg_update_nodes_err in E as ->. split; [apply mild_same|done].
    + apply sg_update_nodes_ok in E as [Hu _]. split; [|by intros ->]. eapply mild_update; [|done..].
      intros Hs. apply Ho. cbn. destruct h; [done|unfold rows; by rewrite Hs|by rewrite Hs].
  - apply andb_True in Hh as [Hh Hm]. eapply world_handle; [|exact He]. intros s [e|n] s' E.
    + apply sg_update_node_err in E as ->. split; [apply mild_same|done].
    + apply sg_update_node_ok in E as [Hu _]. split; [|by intros ->]. eapply mild_update; [|done..].
      intros Hs. apply Ho. cbn. destruct h; [done|unfold rows; by rewrite Hs|by rewrite Hs].
  - eapply world_handle; [|exact He]. intros s [e|n] s' E.
    + apply sg_query_err in E as ->. split; [apply mild_same|done].
    + apply sg_query_ok in E as [-> _]; [by split; [apply mild_same|]|]. by destruct (qs_unique q).
  - eapply world_handle; [|exact He]. intros s r' s' E%sg_select_keeps. rewrite E. split; [apply mild_same|done].
  - apply bool_decide_unpack in Hh as [Hl Hof]. eapply world_handle; [|exact He]. intros s [e|n] s' E.
    + apply sg_count_err in E as ->. split; [apply mild_same|done].
    + apply sg_count_ok in E as [-> _]; [by split; [apply mild_same|]|done..].
  - destruct (w_wopen w); [|injection He as _ <-; by split; [apply change_none|]].
    destruct (w_tx w) eqn:Ht; [done|]. destruct (sg_begin o (w_db w)) as [[e|t] s] eqn:E; injection He as _ <-.
    + apply sg_begin_err in E. split; [|by destruct w]. apply change_none; unfold rows; by destruct w.
    + apply sg_begin_ok in E as [Et Es]. split; [|by destruct w].
      apply (change_begin _ _ _ t); [done|..]; unfold rows; by destruct w.
  - destruct (w_tx w) as [t|] eqn:Ht; [|injection He as _ <-; by split; [apply change_none|]].
    destruct (sg_commit t (w_db w)) as [r' s'] eqn:E. injection He as _ <-. split; [|by destruct w].
    eapply change_end; [exact Ht|by destruct w|]. unfold rows. destruct w. simpl in *.
    destruct r' as [e|[]]; [left; by eapply sg_commit_err|right; by apply sg_commit_ok in E].
  - destruct (w_tx w) as [t|] eqn:Ht; injection He as _ <-; [|by split; [apply change_none|]].
    split; [|by destruct w]. eapply change_end; [exact Ht|by destruct w|]. left. unfold rows. by destruct w.
Qed.

Lemma with_tx_back w : with_tx (w_tx w) (with_tx None w) = w.
Proof. by destruct w. Qed.

(** A command of a transaction that is over does nothing. *)
Lemma exec_over {R} (c : cmd R) w r w' :
  uses_tx c = true → exec c (with_tx None w) = Some (r, w') → w' = with_tx None w.
Proof.
  destruct c as [R c|R c|R c]; try done. destruct c as [[]| [] | [] | [] | [] | [] | [] | | | | | | | ]; try done; cbn;
    destruct w; cbn; by intros _ [= _ <-].
Qed.

Lemma harmless_change {R} own (c : cmd R) w r w' :
  harmless c → exec_local own c w = Some (r, w') →
  world_change (λ u tbl, updates own c w = Some (u, tbl)) w w' ∧ w_tasks w' = w_tasks w.
Proof.
  intros Hh He. unfold exec_local in He. destruct (uses_tx c && negb own) eqn:Hb.
  - apply andb_true_iff in Hb as [Hu _]. apply fmap_Some in He as ([r1 w1] & He & [= -> ->]). cbn.
    rewrite (exec_over c w r1 w1 Hu He), with_tx_back. by split; [apply change_none|].
  - destruct c as [R c|R c|R c]; cbn in He.
    + eapply world_db; [exact Hh| |exact He]. intros u tbl Hu. rewrite <- Hu.
      destruct c as [h|h|h| | | | | | | | | | | ]; try done; destruct h, own; done.
    + injection He as He. pose proof (exec_ext_same c w) as Hs. rewrite He in Hs. cbn in Hs.
      split; [|unfold same_proc in Hs; tauto]. apply change_none; [by apply same_proc_rows|unfold same_proc in Hs; tauto].
    + destruct c; try done; cbn in He.
      * injection He as _ <-. split; [apply change_none|]; by destruct w.
      * destruct (done_closed (w_driver w)); [destruct (ext_select (w_ext w))|]; injection He as _ <-;
          (split; [apply change_none|]); by destruct w.
Qed.

End commands.

(** A program of harmless commands only. *)
Fixpoint harmless_prog {A} (p : prog A) : Prop :=
  match p with Do c k => harmless c ∧ ∀ r, harmless_prog (k r) | _ => True end.

(** ** Harmless functions *)

Section harmless.
Context `{SqlLaws, External}.
Implicit Types (cfg : ProposerConfig).

Lemma harmless_bind {A B} (p : prog A) (f : A → prog B) :
  harmless_prog p → (∀ a, harmless_prog (f a)) → harmless_prog (p ≫= f).
Proof.
  unfold mbind, prog_mbind. intros Hp Hf. induction p as [a|e|m| |R c k IH]; cbn in *; try done.
  destruct Hp as [Hc Hk]. split; [done|]. intros r. by apply IH.
Qed.
Lemma harmless_attempt {A} (p : prog A) : harmless_prog p → harmless_prog (attempt p).
Proof. induction p as [a|e|m| |R c k IH]; cbn; try done. intros [Hc Hk]. split; [done|]. intros r. by apply IH. Qed.
Lemma harmless_map_err {A} f (p : prog A) : harmless_prog p → harmless_prog (map_err f p).
Proof. induction p as [a|e|m| |R c k IH]; cbn; try done. intros [Hc Hk]. split; [done|]. intros r. by apply IH. Qed.
Lemma harmless_defer {A} d (p : prog A) : harmless_prog d → harmless_prog p → harmless_prog (defer d p).
Proof.
  intros Hd. induction p as [a|e|m| |R c k IH]; cbn; try done; try (intros _; by apply (harmless_bind d)).
  intros [Hc Hk]. split; [done|]. intros r. by apply IH.
Qed.
Lemma harmless_lift {A} (r : error + A) : harmless_prog (lift r).
Proof. by destruct r. Qed.
Lemma harmless_lift_err (r : option error) : harmless_prog (lift_err r).
Proof. by destruct r. Qed.
Lemma harmless_for_each {A} (l : list A) (f : A → prog unit) : (∀ a, harmless_prog (f a)) → harmless_prog (for_each l f).
Proof. intros Hf. induction l as [|a l IH]; [done|]. cbn [for_each]. by apply harmless_bind. Qed.

Lemma harmless_create b :
  is_read (prc_driver b) = false → unspanned (prc_createSpec (prc_mutation b)).2 → harmless_prog (prc_Save b).
Proof.
  intros Hh Hu. apply harmless_bind; [|done]. unfold prc_sqlSave.
  destruct (prc_check _); [done|]. destruct (prc_createSpec _) as [node spec].
  apply harmless_bind; [split; [cbn; by rewrite Hh|done]|]. by intros [].
Qed.

Lemma harmless_update b :
  is_read (pru_driver b) = false → mild (pru_updateSpec (pru_mutation b)) → harmless_prog (pru_Save b).
Proof.
  intros Hh Hm. apply harmless_bind; [|done]. unfold pru_sqlSave.
  destruct (pru_check _); [done|]. apply harmless_bind; [split; [cbn -[pru_updateSpec]; by rewrite Hh|done]|]. by intros [].
Qed.

Lemma harmless_all q : prq_unique q = None → harmless_prog (prq_All q).
Proof.
  intros Hu. unfold prq_All. apply harmless_bind; [apply harmless_lift_err|]. intros _. unfold prq_sqlAll.
  destruct (selector_Err _); [done|]. apply harmless_bind; [split; [cbn; by rewrite Hu|done]|].
  intros [e|cells]; [done|]. apply harmless_lift.
Qed.
Lemma harmless_first q : prq_unique q = None → harmless_prog (prq_First q).
Proof. intros Hu. apply harmless_bind; [|by intros []]. apply harmless_all; by destruct q. Qed.
Lemma harmless_only q : prq_unique q = None → harmless_prog (prq_Only q).
Proof. intros Hu. apply harmless_bind; [|by intros [|? []]]. apply harmless_all; by destruct q. Qed.

Lemma harmless_count q : prq_limit q = None → prq_offset q = None → harmless_prog (prq_Count q).
Proof.
  intros Hl Ho. unfold prq_Count. apply harmless_bind; [apply harmless_lift_err|]. intros _. unfold prq_sqlCount.
  apply harmless_bind; [split; [cbn; by rewrite Hl, Ho|done]|]. by intros [].
Qed.

Lemma harmless_update_one b :
  is_read (pruo_driver b) = false → (∀ id cs, mild (pruo_updateSpec id cs (pruo_mutation b))) →
  harmless_prog (pruo_Save b).
Proof.
  intros Hh Hm. apply harmless_bind; [|done]. unfold pruo_sqlSave. cbv zeta.
  destruct (pruo_check _); [done|]. destruct (Mut_ID _) as [id|]; [|done]. destruct (pruo_columns _) as [e|cs]; [done|].
  apply harmless_bind; [split; [cbn -[pruo_updateSpec]; rewrite Hh; apply Hm|done]|]. intros [e|cells]; [done|].
  apply harmless_bind; [apply harmless_lift|done].
Qed.

Create HintDb harmless.

Ltac harmless_step :=
  lazymatch goal with
  | |- ∀ _, _ => intro
  | |- harmless_prog (_ ≫= _) => apply harmless_bind
  | |- harmless_prog (attempt _) => apply harmless_attempt
  | |- harmless_prog (map_err _ _) => apply harmless_map_err
  | |- harmless_prog (defer _ _) => apply harmless_defer
  | |- harmless_prog (lift _) => apply harmless_lift
  | |- harmless_prog (lift_err _) => apply harmless_lift_err
  | |- harmless_prog (ask _) => by split
  | |- harmless_prog (proc _) => by split
  | |- harmless_prog (metric _) => by split
  | |- harmless_prog (call _) => unfold call
  | |- harmless_prog (for_each _ _) => apply harmless_for_each
  | |- harmless_prog (prc_Save _) => by apply harmless_create
  | |- harmless_prog (pru_Save _) => by apply harmless_update
  | |- harmless_prog (pruo_Save _) => by apply harmless_update_one
  | |- harmless_prog (prq_All _) => by apply harmless_all
  | |- harmless_prog (prq_Count _) => by apply harmless_count
  | |- harmless_prog (prq_First _) => by apply harmless_first
  | |- harmless_prog (prq_Only _) => by apply harmless_only
  | |- harmless_prog (db _) => by split
  | |- harmless_prog (match ?x with _ => _ end) => destruct x
  | |- harmless_prog (Ret _) => exact I
  | |- harmless_prog (Raise _) => exact I
  | |- harmless_prog (Panic _) => exact I
  | |- harmless_prog OutOfFuel => exact I
  | |- harmless_prog (let x := _ in _) => cbv zeta
  end.
Ltac harmless_solve := repeat first [solve [eauto with harmless] | harmless_step].

Lemma harmless_now : harmless_prog now.
Proof. unfold now. harmless_solve. Qed.
#[local] Hint Resolve harmless_now : harmless.

(** *** The proof database *)

Lemma harmless_NewEntry t s e : t ≠ TypeSPAN → harmless_prog (NewEntry t s e).
Proof.
  intros Ht. unfold NewEntry. harmless_solve. apply harmless_create; [done|].
  change (Is_true (negb (bool_decide (t = TypeSPAN)))). by rewrite (bool_decide_eq_false_2 _ Ht).
Qed.

(** Of the statuses, only FAILED takes blocks away. *)
Lemma harmless_status id st : st ≠ StatusFAILED → harmless_prog (UpdateProofStatus id st).
Proof.
  intros Hst. unfold UpdateProofStatus. harmless_solve. apply harmless_update; [done|].
  unfold mild. cbn. unfold mild_set. cbn. by rewrite (bool_decide_eq_false_2 _ Hst).
Qed.
Lemma harmless_SetProverRequestID id pid : harmless_prog (SetProverRequestID_ id pid).
Proof. unfold SetProverRequestID_. harmless_solve. Qed.
Lemma harmless_AddFulfilledProof id pf : harmless_prog (AddFulfilledProof id pf).
Proof. unfold AddFulfilledProof, Client_Tx, Tx_Commit, Tx_Rollback. harmless_solve. Qed.
Lemma harmless_GetAllCompletedAggProofs s : harmless_prog (GetAllCompletedAggProofs s).
Proof. unfold GetAllCompletedAggProofs, all_or_none. harmless_solve. Qed.
Lemma harmless_GetNumberOfRequestsWithStatuses l : harmless_prog (GetNumberOfRequestsWithStatuses l).
Proof. unfold GetNumberOfRequestsWithStatuses. harmless_solve. Qed.
Lemma harmless_GetLatestEndBlock : harmless_prog GetLatestEndBlock.
Proof. unfold GetLatestEndBlock. harmless_solve. Qed.
Lemma harmless_GetMaxContiguous s : harmless_prog (GetMaxContiguousSpanProofRange s).
Proof. unfold GetMaxContiguousSpanProofRange. harmless_solve. Qed.
Lemma harmless_GetConsecutive s e : harmless_prog (GetConsecutiveSpanProofs s e).
Proof. unfold GetConsecutiveSpanProofs. harmless_solve. Qed.
Lemma harmless_GetProofRequests t s e st : harmless_prog (GetProofRequestsWithBlockRangeAndStatus t s e st).
Proof. unfold GetProofRequestsWithBlockRangeAndStatus. harmless_solve. Qed.
#[local] Hint Resolve harmless_SetProverRequestID harmless_AddFulfilledProof
  harmless_GetAllCompletedAggProofs harmless_GetNumberOfRequestsWithStatuses harmless_GetLatestEndBlock
  harmless_GetMaxContiguous harmless_GetConsecutive harmless_GetProofRequests : harmless.
#[local] Hint Extern 0 (harmless_prog (UpdateProofStatus _ _)) => by apply harmless_status : harmless.
#[local] Hint Extern 0 (harmless_prog (NewEntry _ _ _)) => by apply harmless_NewEntry : harmless.

Lemma harmless_TryCreateAgg s e : harmless_prog (TryCreateAggProofFromSpanProofs s e).
Proof. unfold TryCreateAggProofFromSpanProofs. harmless_solve. Qed.
#[local] Hint Resolve harmless_TryCreateAgg : harmless.

(** *** The stages *)

Lemma harmless_latest_l2_end_block : harmless_prog latest_l2_end_block.
Proof. unfold latest_l2_end_block. harmless_solve. Qed.
Lemma harmless_http_do r b : harmless_prog (http_do r b).
Proof. unfold http_do. harmless_solve. Qed.
#[local] Hint Resolve harmless_http_do : harmless.
Lemma harmless_GetProofStatus cfg id : harmless_prog (GetProofStatus cfg id).
Proof. unfold GetProofStatus, check_url. harmless_solve. Qed.
Lemma harmless_DeriveAggProofs : harmless_prog DeriveAggProofs.
Proof. unfold DeriveAggProofs. harmless_solve. Qed.
Lemma harmless_RequestProof cfg p b : harmless_prog (RequestProof cfg p b).
Proof.
  unfold RequestProof, prepareProofRequest, requestRealProof, requestMockProof, makeProofRequest, check_url.
  harmless_solve.
Qed.
Lemma harmless_GetProposerMetrics : harmless_prog GetProposerMetrics.
Proof. unfold GetProposerMetrics, sync_status, rollup_client. harmless_solve. Qed.
Lemma harmless_checkpointBlockHash cfg : harmless_prog (checkpointBlockHash cfg).
Proof. unfold checkpointBlockHash. harmless_solve. Qed.
Lemma harmless_wait_l1_head fuel n h : harmless_prog (wait_l1_head fuel n h).
Proof. revert h. induction fuel as [|fuel IH]; intros h; cbn [wait_l1_head]; harmless_solve. Qed.
#[local] Hint Resolve harmless_wait_l1_head : harmless.
Lemma harmless_SubmitAggProofs fuel cfg : harmless_prog (SubmitAggProofs fuel cfg).
Proof.
  unfold SubmitAggProofs, FetchOutput, proposeOutput, sendTransaction, waitForL1Head, newTicker, GetBondAmount, rollup_client.
  harmless_solve.
Qed.
Lemma harmless_waitNodeSync : harmless_prog waitNodeSync.
Proof. unfold waitNodeSync. harmless_solve. Qed.

End harmless.
