(* ===== verification/Debts.v ===== *)
(** * The blocks a goroutine owes or owns

    A program logic for goroutines that share the table: [careful] follows a
    goroutine command by command, beside others that move in between, with a set
    of blocks that is its own.  What the others leave to it ([rely]) and what it
    leaves to them ([guar]) is a [Ledger]; [Coverage], [Overlap] and [Restored]
    have one each.  The rules, what the functions of the proposer know of the
    requests they read, and the pool of goroutines are common to all. *)

From Stdlib Require Import ZArith Lia.
From stdpp Require Import relations functions.
From S2P Require Import Prelude Sql ProofRequest Metrics Encoding Prog Types Script Json Spans.
From S2P Require Import Mutation Builders Db Range Partition Steps Prove Driver Machine Concurrent Pool Blocks.

(** ** Requests that were read from the table *)

(** [p] was read from a row of the table. *)
Definition known (T : list Row) (p : ProofRequest) : Prop :=
  ∃ r, r ∈ T ∧ row_id r = pr_ID p ∧ row_type r = pr_Type p ∧
       pr_StartBlock p = u64 (lo r) ∧ pr_EndBlock p = u64 (hi r).

Definition asked (T : list Row) (t : task) : Prop := match t with TaskRequest _ next => known T next | _ => True end.

Lemma known_history T T' p : known T p → history T T' → known T' p.
Proof.
  intros (r & Hr & Hi & Ht & Hs & He) [_ Hh]. destruct (Hh r Hr) as (r' & Hr' & Hi' & Ht' & Hl & Hh' & _).
  exists r'. rewrite Hi', Ht', Hl, Hh'. done.
Qed.

Lemma asked_history T T' t : asked T t → history T T' → asked T' t.
Proof. destruct t; [done|]. by apply known_history. Qed.

Lemma known_entity T r : r ∈ T → known T (entity r).
Proof. intros Hr. by exists r. Qed.

Definition nothing : Z → Prop := λ _, False.
Definition blocks (s e : Z) : Z → Prop := λ b, s <= b < e.

(** The blocks of a span proof that has just failed. *)
Definition owed (req : ProofRequest) : Z → Prop :=
  if bool_decide (pr_Type req = TypeSPAN) then blocks (pr_StartBlock req) (pr_EndBlock req) else nothing.

(** ** What goroutines leave to each other

    [rely own c w r D]: of a command [c] of a goroutine that has [D], when it is
    answered [r] in [w]; [guar w D w' D']: of the world and the blocks after it. *)
Class Ledger `{!SqlGraph, !External} := {
  rely : ∀ R, bool → cmd R → World → R → (Z → Prop) → Prop;
  guar : World → (Z → Prop) → World → (Z → Prop) → Prop;
  guar_harmless : ∀ R own (c : cmd R) w r w' D,
    harmless c → rely R own c w r D → exec_local own c w = Some (r, w') → guar w D w' D;
  guar_still : ∀ R own (c : cmd R) w r w' D,
    rely R own c w r D → rows w' = rows w → w_tx w' = w_tx w → guar w D w' D;
}.
Arguments rely {_ _ _ R}.

Section careful.
Context `{SqlLaws, External, !Ledger}.
Implicit Types (w : World) (T : list Row) (D : Z → Prop).

(** [T] is a table of the past, [D] the goroutine's blocks. *)
Fixpoint careful {A} T D (p : prog A) (Q : outcome A → list Row → (Z → Prop) → Prop) : Prop :=
  match p with
  | Ret a => Q (Ok a) T D
  | Raise e => Q (Fail e) T D
  | Panic m => Q (Panicked m) T D
  | OutOfFuel => Q NoFuel T D
  | Do c k => ∀ own w r w',
      history T (rows w) → history (rows w) (rows w') → NoDup (row_id <$> rows w) →
      exec_local own c w = Some (r, w') → rely own c w r D →
      ∃ D', guar w D w' D' ∧ (∀ t, t ∈ w_tasks w' → t ∈ w_tasks w ∨ asked (rows w') t) ∧
            careful (rows w') D' (k r) Q
  end.

(** *** The rules *)

Ltac careful_ind p :=
  match goal with |- context [careful ?T ?D p _] => revert T D end;
  induction p as [a|e|m| |R c k IH]; intros T D; cbn;
  [| | | |
   let Hp := fresh in intros Hp own w r w' HT Hw Hn He Hr;
   destruct (Hp own w r w' HT Hw Hn He Hr) as (D' & HD & Ht & Hk); exists D'; do 2 (split; [done|]); by apply IH].

Lemma careful_mono {A} T D (p : prog A) (Q Q' : outcome A → list Row → (Z → Prop) → Prop) :
  (∀ o T' D', Q o T' D' → Q' o T' D') → careful T D p Q → careful T D p Q'.
Proof. intros HQ. careful_ind p; apply HQ. Qed.

(** The table has moved on. *)
Lemma careful_history {A} T D (p : prog A) Q :
  careful T D p Q → careful T D p (λ o T' D', history T T' ∧ Q o T' D').
Proof.
  revert T D. induction p as [a|e|m| |R c k IH]; intros T D; cbn; try done.
  intros Hp own w r w' HT Hw Hn He Hr.
  destruct (Hp own w r w' HT Hw Hn He Hr) as (D' & HD & Ht & Hk). exists D'. split_and!; [done..|].
  eapply careful_mono; [|by apply IH]. intros o T' D'' [Hh HQ]. split; [by do 2 (etrans; [done|])|done].
Qed.

Definition and_then {A B} (f : A → list Row → (Z → Prop) → Prop) (Q : outcome B → list Row → (Z → Prop) → Prop)
    (o : outcome A) : list Row → (Z → Prop) → Prop :=
  match o with
  | Ok a => f a
  | Fail e => Q (Fail e)
  | Panicked m => Q (Panicked m)
  | NoFuel => Q NoFuel
  | Blocked => λ _ _, True
  end.

Lemma careful_bind {A B} T D (p : prog A) (f : A → prog B) Q :
  careful T D p (and_then (λ a T' D', careful T' D' (f a) Q) Q) → careful T D (p ≫= f) Q.
Proof. unfold mbind, prog_mbind. careful_ind p; done. Qed.

Lemma careful_attempt {A} T D (p : prog A) (Q : outcome (error + A) → list Row → (Z → Prop) → Prop) :
  careful T D p (λ o, Q match o with
                        | Ok a => Ok (inr a) | Fail e => Ok (inl e) | Panicked m => Panicked m
                        | NoFuel => NoFuel | Blocked => Blocked
                        end) → careful T D (attempt p) Q.
Proof. careful_ind p; done. Qed.

Lemma careful_map_err {A} T D f (p : prog A) Q :
  careful T D p (λ o, Q match o with Fail e => Fail (f e) | o => o end) → careful T D (map_err f p) Q.
Proof. careful_ind p; done. Qed.

(** A harmless command changes nothing of the goroutine's blocks. *)
Lemma careful_do {R A} T D (c : cmd R) (k : R → prog A) Q :
  harmless c →
  (∀ own w r w', history T (rows w') → exec_local own c w = Some (r, w') → rely own c w r D → careful (rows w') D (k r) Q) →
  careful T D (Do c k) Q.
Proof.
  intros Hc Hk own w r w' HT Hw Hn He Hr. exists D. split_and!.
  - by eapply guar_harmless.
  - apply harmless_change in He as [_ ->]; [by left|done].
  - eapply Hk; [by etrans|exact He|done].
Qed.

Lemma careful_harmless {A} T D (p : prog A) (Q : outcome A → list Row → (Z → Prop) → Prop) :
  harmless_prog p → (∀ o T', history T T' → Q o T' D) → careful T D p Q.
Proof.
  revert T. induction p as [a|e|m| |R c k IH]; intros T; try by (intros _ HQ; apply HQ).
  intros [Hc Hk] HQ. apply careful_do; [done|]. intros own w r w' HT _ _. apply IH; [done|].
  intros o T' HT'. apply HQ. by etrans.
Qed.

Lemma careful_ask {R} T D (c : ExtCmd R) (Q : outcome R → list Row → (Z → Prop) → Prop) :
  (∀ r T', history T T' → Q (Ok r) T' D) → careful T D (ask c) Q.
Proof. intros HQ. apply careful_do; [done|]. intros own w r w' HT _ _. by apply HQ. Qed.

Lemma careful_now {A} T D (f : Z → prog A) (Q : outcome A → list Row → (Z → Prop) → Prop) :
  (∀ n T', history T T' → 0 <= n → careful T' D (f n) Q) → careful T D (n ← now; f n) Q.
Proof.
  intros Hf. apply careful_bind. unfold now. apply careful_bind, careful_ask. intros t T' HT. apply Hf; [done|].
  apply u64_range.
Qed.

(** *** Reading *)

Lemma query_known q T l : query_rows q T l → Forall (known T) (entity <$> l).
Proof.
  intros (full & Hp & _ & ->). apply Forall_fmap, Forall_forall. intros r Hr. apply known_entity.
  assert (r ∈ full) as Hf.
  { unfold page in Hr. destruct (_ <=? _); [|apply subseteq_take in Hr]; by apply subseteq_drop in Hr. }
  rewrite Hp in Hf. by apply list_elem_of_filter in Hf as [_ Hf].
Qed.

Lemma careful_all q T D (Q : outcome (list ProofRequest) → list Row → (Z → Prop) → Prop) :
  prq_driver q = HRead → prq_unique q = None → prq_fields q = [] →
  selector_Err (omap ot_err (prq_order q)) = None →
  (∀ l T', history T T' → Forall (known T') l → Q (Ok l) T' D) →
  (∀ own w e T', history T T' → rely own (CDb (SqlQuery HRead (prq_querySpec q))) w (inl e) D →
     Q (Fail (ESql e)) T' D) →
  careful T D (prq_All q) Q.
Proof.
  destruct q as [h fs lim off un ord ps]. simpl. intros -> -> -> Ho HQ HE.
  unfold prq_All, prq_prepareQuery, prq_sqlAll. apply careful_bind. cbn -[db prq_querySpec]. rewrite Ho. apply careful_bind.
  apply careful_do; [done|]. intros own w r w' HT He Hr. rewrite exec_local_plain in He by done. cbn -[prq_querySpec] in He.
  destruct r as [e|cells]; [by eapply HE|].
  destruct (w_ropen w); [|done]. destruct (sg_query _ (w_db w)) as [r' s'] eqn:E.
  injection He as -> <-. apply sg_query_ok in E as [Es (l & Hl & ->)]; [|done].
  change (prq_columns _) with Columns. cbn -[Columns select_cols]. rewrite scan_nodes_full. cbn.
  apply HQ; [done|]. rewrite rows_with_db, Es. by eapply query_known.
Qed.

(** *** Writing *)

(** A new span proof: what is to be shown of the row it appends. *)
Lemma careful_insert T D s e (Q : outcome unit → list Row → (Z → Prop) → Prop) :
  (∀ n own spec w id w', history T (rows w) → rely own (CDb (SqlCreate HWrite spec)) w (inr id) D →
     s < two63 → e < two63 → w_tx w = None → w_tx w' = None →
     rows w' = rows w ++ [new_row id TypeSPAN s e n] → ∃ D', guar w D w' D' ∧ Q (Ok tt) (rows w') D') →
  (∀ own spec w e' err T', history T T' → rely own (CDb (SqlCreate HWrite spec)) w (inl e') D → Q (Fail err) T' D) →
  careful T D (NewEntry TypeSPAN s e) Q.
Proof.
  intros HQ HE. unfold NewEntry. apply careful_now. intros n T' HT Hn.
  apply careful_map_err, careful_bind, careful_bind. unfold prc_sqlSave.
  match goal with |- context [prc_check ?m] => change (prc_check m) with (@None error) end.
  apply careful_bind. intros own w r w' HT' Hw _ He Hr. assert (history T (rows w)) as Hh by (by etrans).
  rewrite exec_local_plain in He by done. cbn -[prc_createSpec] in He.
  assert (∀ e' : sqlerr, r = inl e' → rows w' = rows w → w_tx w' = w_tx w → w_tasks w' = w_tasks w →
    ∃ D', guar w D w' D' ∧ (∀ t, t ∈ w_tasks w' → t ∈ w_tasks w ∨ asked (rows w') t) ∧ ∀ err, Q (Fail err) (rows w') D') as Hfail.
  { intros e' -> Hrw Htx Htk. exists D. split; [by eapply guar_still|]. rewrite Htk. split; [by left|].
    intros err. eapply HE; [by etrans|exact Hr]. }
  destruct (w_wopen w).
  2: { injection He as <- <-. destruct (Hfail db_closed eq_refl eq_refl eq_refl eq_refl) as (D' & ? & ? & HF).
       exists D'. split; [done|]. split; [done|]. apply HF. }
  destruct (w_tx w) eqn:Ht; [done|]. destruct (sg_create _ (w_db w)) as [r' s'] eqn:E. injection He as <- <-.
  assert (w_tx (with_db s' w) = None ∧ w_tasks (with_db s' w) = w_tasks w) as [Ht' Htk] by by destruct w.
  destruct r' as [err|id].
  { apply sg_create_err in E. destruct (Hfail err eq_refl) as (D' & ? & ? & HF); [by rewrite rows_with_db|done|done|].
    exists D'. split; [done|]. split; [done|]. apply HF. }
  apply sg_create_ok in E as (_ & _ & x & Hb & E). cbn in Hb. unfold build_row in Hb. cbn in Hb.
  destruct (s <? two63) eqn:Hs, (e <? two63) eqn:He, (n <? two63) eqn:?; cbn in Hb; try done.
  apply Z.ltb_lt in Hs, He. injection Hb as <-. rewrite <- (rows_with_db s' w) in E.
  destruct (HQ n own _ w id (with_db s' w) Hh Hr Hs He Ht Ht' E) as (D' & HG & HD').
  exists D'. split; [done|]. rewrite Htk. split; [by left|done].
Qed.

(** A request marked as failed. *)
Lemma careful_mark T D id (Q : outcome unit → list Row → (Z → Prop) → Prop) :
  (∀ n own u w m w', history T (rows w) → history (rows w) (rows w') → NoDup (row_id <$> rows w) → rely own (CDb (SqlUpdateNodes HWrite u)) w (inr m) D →
     sets_status u = true → (∀ r, row_id r = id → touched u r = true) → w_tx w = None → w_tx w' = None →
     rows w' = at_id id (mark StatusFAILED n) (rows w) → ∃ D', guar w D w' D' ∧ Q (Ok tt) (rows w') D') →
  (∀ err T', history T T' → Q (Fail err) T' D) →
  careful T D (UpdateProofStatus id StatusFAILED) Q.
Proof.
  intros HQ HE. unfold UpdateProofStatus. apply careful_now. intros n T' HT _.
  apply careful_bind, careful_bind. unfold pru_sqlSave.
  match goal with |- context [pru_check ?m] => change (pru_check m) with (@None error) end.
  apply careful_bind. intros own w r w' HT' Hw Hnd He Hr. assert (history T (rows w)) as Hh by (by etrans).
  rewrite exec_local_plain in He by done. cbn -[pru_updateSpec] in He.
  assert (rows w' = rows w → w_tx w' = w_tx w → w_tasks w' = w_tasks w →
    ∃ D', guar w D w' D' ∧ (∀ t, t ∈ w_tasks w' → t ∈ w_tasks w ∨ asked (rows w') t) ∧ ∀ err, Q (Fail err) (rows w') D') as Hfail.
  { intros Hrw Htx Htk. exists D. split; [by eapply guar_still|]. rewrite Htk. split; [by left|].
    intros err. apply HE. by etrans. }
  destruct (w_wopen w).
  2: { injection He as <- <-. destruct (Hfail eq_refl eq_refl eq_refl) as (D' & ? & ? & HF).
       exists D'. split; [done|]. split; [done|]. apply HF. }
  destruct (w_tx w) eqn:Ht; [done|]. destruct (sg_update_nodes _ (w_db w)) as [r' s'] eqn:E. injection He as <- <-.
  assert (w_tx (with_db s' w) = None ∧ w_tasks (with_db s' w) = w_tasks w) as [Ht' Htk] by by destruct w.
  destruct r' as [err|m].
  { apply sg_update_nodes_err in E. destruct Hfail as (D' & ? & ? & HF); [by rewrite rows_with_db|done|done|].
    exists D'. split; [done|]. split; [done|]. apply HF. }
  apply sg_update_nodes_ok in E as [Hu _]. rewrite <- (rows_with_db s' w) in Hu.
  eapply (update_rows_at_id _ id (mark StatusFAILED n)) in Hu; [|done|done|intros x x' Ha; destruct x; eval_update Ha; done].
  edestruct (HQ n own _ w m (with_db s' w) Hh Hw Hnd Hr) as (D' & HG & HD'); [done| |done|done|exact Hu|].
  { intros x Hid. unfold touched. cbn -[sat]. autorewrite with sat. by rewrite bool_decide_eq_true_2. }
  exists D'. split; [done|]. rewrite Htk. split; [by left|done].
Qed.

End careful.

(** ** The functions of the proposer

    [Inv] is what a goroutine keeps of its blocks between its calls. *)

Section prudence.
Context `{SqlLaws, External, !Ledger}.
Context (Inv : list Row → (Z → Prop) → Prop).
Hypothesis Inv_history : ∀ T T' D, Inv T D → history T T' → Inv T' D.
Implicit Types (w : World) (T : list Row) (D : Z → Prop) (cfg : ProposerConfig).

(** [R] of the value when it returns one. *)
Definition prudent {A} T (p : prog A) (R : A → list Row → Prop) : Prop :=
  ∀ D, Inv T D → careful T D p (λ o T' D', Inv T' D' ∧ match o with Ok a => R a T' | _ => True end).

Lemma prudent_harmless {A} T (p : prog A) : harmless_prog p → prudent T p (λ _ _, True).
Proof.
  intros Hp D HD. apply careful_harmless; [done|]. intros o T' HT. split; [by eapply Inv_history|by destruct o].
Qed.

Lemma prudent_bind {A B} T (p : prog A) (f : A → prog B) R R' :
  prudent T p R → (∀ a T', history T T' → R a T' → prudent T' (f a) R') → prudent T (p ≫= f) R'.
Proof.
  intros Hp Hf D HD. apply careful_bind. eapply careful_mono; [|by apply careful_history, Hp].
  intros [a|e|m| |] T' D' (Hh & HD' & HR); cbn; try done. by apply Hf.
Qed.

Lemma prudent_attempt {A} T (p : prog A) (R : error + A → list Row → Prop) :
  (∀ e T', history T T' → R (inl e) T') → prudent T p (λ a, R (inr a)) → prudent T (attempt p) R.
Proof.
  intros He Hp D HD. apply careful_attempt. eapply careful_mono; [|by apply careful_history, Hp].
  intros [a|e|m| |] T' D' (Hh & HD' & Ha); try done. split; [done|]. by apply He.
Qed.

Lemma prudent_map_err {A} T f (p : prog A) R : prudent T p R → prudent T (map_err f p) R.
Proof. intros Hp D HD. apply careful_map_err. eapply careful_mono; [|by apply Hp]. by intros []. Qed.

Lemma prudent_ret {A} T (a : A) (R : A → list Row → Prop) : R a T → prudent T (Ret a) R.
Proof. by intros Ha D HD. Qed.
Lemma prudent_raise {A} T e (R : A → list Row → Prop) : prudent T (Raise e) R.
Proof. by intros D HD. Qed.
Lemma prudent_fuel {A} T (R : A → list Row → Prop) : prudent T OutOfFuel R.
Proof. by intros D HD. Qed.

Ltac prudent_end := first [by apply prudent_ret | by apply prudent_raise | by apply prudent_fuel].

(** Requests known at the start are known at every turn. *)
Lemma prudent_for_each T l (f : ProofRequest → prog unit) :
  Forall (known T) l → (∀ p T', known T' p → prudent T' (f p) (λ _ _, True)) →
  prudent T (for_each l f) (λ _ _, True).
Proof.
  intros Hl Hf. revert T Hl. induction l as [|p l IH]; intros T Hl; [prudent_end|]. cbn [for_each].
  apply Forall_cons in Hl as [Hp Hl]. eapply prudent_bind; [by apply Hf|]. intros _ T' Hh _. apply IH.
  eapply Forall_impl; [exact Hl|]. intros q Hq. by eapply known_history.
Qed.

Lemma prudent_all q T :
  prq_driver q = HRead → prq_unique q = None → prq_fields q = [] →
  selector_Err (omap ot_err (prq_order q)) = None →
  prudent T (prq_All q) (λ l T', Forall (known T') l).
Proof.
  intros ???? D HD. apply careful_all; try done; [intros l T' HT Hl|intros own w e T' HT _];
    (split; [by eapply Inv_history|done]).
Qed.

Lemma prudent_first q T :
  prq_driver q = HRead → prq_unique q = None → prq_fields q = [] →
  selector_Err (omap ot_err (prq_order q)) = None →
  prudent T (prq_First q) (λ p T', known T' p).
Proof.
  intros. eapply prudent_bind; [apply prudent_all; by destruct q|].
  intros [|p l] T' _ Hl; [done|]. by apply Forall_cons in Hl as [Hp _].
Qed.

Lemma prudent_only ps T : prudent T (prq_Only (prq_Where ps (Client_Query HRead))) (λ p T', known T' p).
Proof.
  eapply prudent_bind; [by apply prudent_all|].
  intros [|p [|? l]] T' _ Hl; [done| |done]. by apply Forall_cons in Hl as [Hp _].
Qed.

Lemma prudent_GetAllProofsWithStatus T st : prudent T (GetAllProofsWithStatus st) (λ l T', Forall (known T') l).
Proof.
  unfold GetAllProofsWithStatus, all_or_none.
  eapply (prudent_bind _ _ _ (λ r T', match r with inr l => Forall (known T') l | inl _ => True end)).
  { apply prudent_attempt; [done|]. by apply prudent_all. }
  intros [e|l] T' _ Hl; [|done]. destruct (IsNotFound e); [|done]. apply prudent_ret, Forall_nil_2.
Qed.

Lemma prudent_GetNextUnrequestedProof T :
  prudent T GetNextUnrequestedProof (λ o T', match o with Some p => known T' p | None => True end).
Proof.
  unfold GetNextUnrequestedProof.
  assert (∀ ty T', prudent T' (attempt (prq_First (unrequested ty)))
    (λ r T', match r with inr p => known T' p | inl _ => True end)) as Hu.
  { intros ty T'. apply prudent_attempt; [done|]. by apply prudent_first. }
  eapply prudent_bind; [apply Hu|]. intros [e|p] T' _ Hp; [|done]. destruct (IsNotFound e); cbn [negb]; [|done].
  eapply prudent_bind; [apply Hu|]. intros [e'|p] T'' _ Hp'; [|done]. by destruct (IsNotFound e').
Qed.

Lemma prudent_AddL1BlockInfo T s e n h : prudent T (AddL1BlockInfoToAggRequest s e n h) (λ p T', known T' p).
Proof.
  unfold AddL1BlockInfoToAggRequest. eapply prudent_bind; [apply prudent_harmless, harmless_now|]. intros t T' _ _.
  eapply prudent_bind; [by apply prudent_map_err, prudent_harmless, harmless_update|]. intros k T'' _ _.
  destruct (k =? 0); [done|]. apply prudent_map_err, prudent_only.
Qed.

(** *** The stages and the goroutines

    Given what becomes of the blocks in a retry and in the first stage. *)

Section goroutines.
Hypothesis prudent_RetryRequest : ∀ T req st, known T req → prudent T (RetryRequest req st) (λ _ _, True).

Lemma prudent_swallow T (p : prog unit) : prudent T p (λ _ _, True) → prudent T (_ ← attempt p; Ret tt) (λ _ _, True).
Proof.
  intros Hp. eapply (prudent_bind _ _ _ (λ _ _, True)); [|done]. by apply prudent_attempt.
Qed.

Lemma prudent_process_proving cfg T req : known T req → prudent T (process_proving cfg req) (λ _ _, True).
Proof.
  intros Hk. unfold process_proving.
  eapply prudent_bind; [by apply prudent_harmless, harmless_attempt, harmless_GetProofStatus|].
  intros [e|st] T1 HT1 _; [by apply prudent_harmless|].
  destruct (_ =? _); [by apply prudent_harmless, harmless_AddFulfilledProof|]. destruct (_ =? _); [|done].
  eapply prudent_bind; [by apply prudent_harmless|]. intros _ T2 HT2 _.
  apply prudent_map_err, prudent_RetryRequest. by do 2 (eapply known_history; [|done]).
Qed.

Lemma prudent_ProcessProvingRequests cfg T : prudent T (ProcessProvingRequests cfg) (λ _ _, True).
Proof.
  unfold ProcessProvingRequests. eapply prudent_bind; [apply prudent_GetAllProofsWithStatus|].
  intros l T1 _ Hl. apply prudent_for_each; [done|]. intros p T2. apply prudent_process_proving.
Qed.

Lemma prudent_process_witnessgen cfg T req : known T req → prudent T (process_witnessgen cfg req) (λ _ _, True).
Proof.
  intros Hk. unfold process_witnessgen. eapply prudent_bind; [by apply prudent_harmless, harmless_now|].
  intros t T1 HT1 _. destruct (_ <? _); [|done]. apply prudent_swallow, prudent_RetryRequest. by eapply known_history.
Qed.

Lemma prudent_ProcessWitnessgenRequests cfg T : prudent T (ProcessWitnessgenRequests cfg) (λ _ _, True).
Proof.
  unfold ProcessWitnessgenRequests. eapply prudent_bind; [apply prudent_GetAllProofsWithStatus|].
  intros l T1 _ Hl. apply prudent_for_each; [done|]. intros p T2. apply prudent_process_witnessgen.
Qed.

Lemma prudent_request_task cfg T p next : known T next → prudent T (request_task cfg p next) (λ _ _, True).
Proof.
  intros Hk. unfold request_task.
  eapply prudent_bind; [by apply prudent_harmless, harmless_attempt, harmless_status|]. intros [e|[]] T1 HT1 _; [done|].
  eapply prudent_bind; [apply prudent_harmless, harmless_attempt, harmless_RequestProof|]. intros [e|[]] T2 HT2 _; [|done].
  apply prudent_swallow, prudent_RetryRequest. by do 2 (eapply known_history; [|done]).
Qed.

(** The goroutine gets a request of the table. *)
Lemma prudent_spawn T p next : known T next → prudent T (proc (PSpawn (TaskRequest p next))) (λ _ _, True).
Proof.
  intros Hk D HD own w r w' HT Hw Hn He Hr. rewrite exec_local_plain in He by done. cbn in He. injection He as <- <-.
  exists D. split_and!.
  - eapply guar_still; [exact Hr|..]; by destruct w.
  - intros t. destruct w. cbn. intros [Ht|Ht]%elem_of_app; [by left|right].
    apply list_elem_of_singleton in Ht as ->. by eapply known_history.
  - split; [|done]. eapply Inv_history; [exact HD|]. by etrans.
Qed.

Lemma prudent_add_l1_info cfg T p : known T p → prudent T (add_l1_info cfg p) (λ p T', known T' p).
Proof.
  intros Hk. unfold add_l1_info. eapply prudent_bind; [apply prudent_harmless, harmless_GetProofRequests|].
  intros l T1 HT1 _. eapply (prudent_bind _ _ _ (λ p T', known T' p)).
  { destruct (list_find _ _) as [[i q]|]; [apply prudent_AddL1BlockInfo|]. by eapply prudent_ret, known_history. }
  intros p' T2 HT2 Hp'. case_bool_decide; [|done].
  eapply prudent_bind; [apply prudent_harmless, harmless_checkpointBlockHash|]. intros b T3 HT3 _.
  apply prudent_AddL1BlockInfo.
Qed.

Lemma prudent_RequestQueuedProofs cfg T : prudent T (RequestQueuedProofs cfg) (λ _ _, True).
Proof.
  unfold RequestQueuedProofs. eapply prudent_bind; [apply prudent_map_err, prudent_GetNextUnrequestedProof|].
  intros [p|] T1 _ Hp; [|done]. case_bool_decide.
  - eapply (prudent_bind _ _ _ (λ p T', known T' p)).
    + case_bool_decide; [by apply prudent_add_l1_info|done].
    + intros p' T2 _ Hp'. by apply prudent_spawn.
  - do 2 (eapply prudent_bind; [apply prudent_harmless, harmless_map_err, harmless_GetNumberOfRequestsWithStatuses|];
      intros ? ? ? _).
    repeat (destruct (_ <=? _); [done|]). apply prudent_spawn. by do 2 (eapply known_history; [|done]).
Qed.

Lemma prudent_run_stages T l : (∀ p T', p ∈ l → prudent T' p (λ _ _, True)) → prudent T (run_stages l) (λ _ _, True).
Proof.
  revert T. induction l as [|p l IH]; intros T Hl; [done|]. cbn [run_stages].
  eapply (prudent_bind _ _ _ (λ _ _, True)); [apply prudent_attempt; [done|]; apply Hl; by left|].
  intros [e|[]] T' _ _; [done|]. apply IH. intros q T'' Hq. apply Hl. by right.
Qed.

Lemma prudent_loop n fuel cfg T :
  (∀ T, prudent T (GetRangeProofBoundaries cfg) (λ _ _, True)) → prudent T (loop n fuel cfg) (λ _ _, True).
Proof.
  intros Hstage1.
  assert (∀ T, prudent T (loop_ticks n fuel cfg) (λ _ _, True)) as Hloop.
  { induction n as [|n IH]; intros T'; [done|]. cbn [loop_ticks].
    eapply prudent_bind; [by apply prudent_harmless|]. intros [|] T1 _ _; [|done].
    eapply prudent_bind; [|intros _ T2 _ _; apply IH]. apply prudent_run_stages. intros p T2 Hp. unfold stages in Hp.
    repeat (apply elem_of_cons in Hp as [->|Hp]; [|]); [..|by apply not_elem_of_nil in Hp].
    - apply prudent_harmless, harmless_bind; [apply harmless_GetProposerMetrics|done].
    - apply Hstage1.
    - apply prudent_ProcessProvingRequests.
    - apply prudent_ProcessWitnessgenRequests.
    - apply prudent_harmless, harmless_DeriveAggProofs.
    - apply prudent_RequestQueuedProofs.
    - apply prudent_harmless, harmless_SubmitAggProofs. }
  unfold loop. eapply (prudent_bind _ _ _ (λ _ _, True)).
  - destruct (WaitNodeSync cfg); [|done]. by apply prudent_harmless, harmless_attempt, harmless_waitNodeSync.
  - intros [e|?] T' _ _; [done|]. unfold loopL2OO, newTicker. destruct (_ <=? _); [done|apply Hloop].
Qed.

End goroutines.

End prudence.


(** ** The pool

    Schedules in which every command is [allowed] with its answer. *)

Section pools.
Context `{SqlLaws, External}.
Context (allowed : ∀ R, bool → cmd R → World → R → bool) (cfg : ProposerConfig).
Implicit Types (P : pool).

Definition pool_allowed (i : nat) P : bool :=
  match threads P !! i with
  | Some (Do c k) =>
      let own := bool_decide (owner P = Some i) in
      match exec_local own c (pworld P) with
      | Some (r, _) => allowed _ own c (pworld P) r
      | None => true
      end
  | _ => true
  end.

Inductive guarded_step : relation pool :=
| guarded_moves i P P' : pool_next i P = Some P' → pool_allowed i P = true → guarded_step P P'
| guarded_starts p next P : TaskRequest p next ∈ w_tasks (pworld P) →
    guarded_step P (mkPool (threads P ++ [request_task cfg p next]) (owner P) (pworld P)).

(** A goroutine whose command is not allowed, or that cannot move, passes. *)
Definition guarded_run (sched : list nat) P : pool :=
  foldl (λ P i, if pool_allowed i P then default P (pool_next i P) else P) P sched.

Lemma guarded_run_steps sched P : rtc guarded_step P (guarded_run sched P).
Proof.
  revert P. induction sched as [|i sched IH]; intros P; [done|]. unfold guarded_run. cbn [foldl].
  destruct (pool_allowed i P) eqn:Hs; [|apply IH]. destruct (pool_next i P) as [P'|] eqn:E; cbn [default]; [|apply IH].
  eapply rtc_l; [by eapply guarded_moves|apply IH].
Qed.

(** Loops, and request goroutines over requests of the table. *)
Definition launched P : Prop :=
  owner P = None ∧ w_tx (pworld P) = None ∧ NoDup (row_id <$> rows (pworld P)) ∧
  (∀ t, t ∈ w_tasks (pworld P) → asked (rows (pworld P)) t) ∧
  ∀ p, p ∈ threads P → (∃ n fuel, p = loop n fuel cfg) ∨
    (∃ a b, p = request_task cfg a b ∧ known (rows (pworld P)) b).

Lemma launched_started P : launched P → started cfg P.
Proof.
  intros (Ho & Ht & _ & _ & Hp). split_and!; [done..|]. intros p [Hl|(a & b & -> & _)]%Hp; [by left|right; eauto].
Qed.

End pools.

(** More may be allowed. *)
Lemma guarded_steps_mono `{SqlGraph, External} (f g : ∀ R, bool → cmd R → World → R → bool) cfg P P' :
  (∀ R own (c : cmd R) w r, f R own c w r = true → g R own c w r = true) →
  rtc (guarded_step f cfg) P P' → rtc (guarded_step g cfg) P P'.
Proof.
  intros Hfg. apply rtc_subrel. intros P1 P2 [i P3 P4 Hm Ha|]; [|by apply guarded_starts].
  apply (guarded_moves _ _ i); [done|]. unfold pool_allowed in *. destruct (threads P3 !! i) as [[]|]; try done.
  destruct (exec_local _ _ _) as [[]|]; auto.
Qed.

(** A ledger of all goroutines: [glob w debt] when each has [debt i]. *)
Section tracking.
Context `{SqlLaws, External, !Ledger}.
Context (allowed : ∀ R, bool → cmd R → World → R → bool) (cfg : ProposerConfig).
Context (glob : World → (nat → Z → Prop) → Prop) (last : (Z → Prop) → Prop).
Hypothesis glob_rely : ∀ w debt i R own (c : cmd R) r,
  glob w debt → allowed R own c w r = true → rely own c w r (debt i).
Hypothesis glob_guar : ∀ w debt i w' D,
  glob w debt → guar w (debt i) w' D → glob w' (<[i := D]> debt).
Hypothesis task_careful : ∀ T p next, known T next →
  careful T nothing (request_task cfg p next) (λ _ _ D, last D).
Implicit Types (P : pool).

(** Every goroutine, from the table of its last command and with its blocks. *)
Record tracked (past : nat → list Row) (debt : nat → Z → Prop) P : Prop := mkTracked {
  tr_pool : pool_ok (rows (pworld P)) P;
  tr_ids : NoDup (row_id <$> rows (pworld P));
  tr_tasks : ∀ t, t ∈ w_tasks (pworld P) → asked (rows (pworld P)) t;
  tr_careful : ∀ i p, threads P !! i = Some p →
    history (past i) (rows (pworld P)) ∧ careful (past i) (debt i) p (λ _ _ D, last D);
  tr_none : ∀ i, threads P !! i = None → debt i = nothing;
  tr_glob : glob (pworld P) debt;
}.

Lemma pool_ok_here tbl P : pool_ok tbl P → pool_ok (rows (pworld P)) P.
Proof. intros [n Hok]. exists n. destruct Hok. by split. Qed.

Lemma launched_tracked P debt :
  launched cfg P → (∀ i, threads P !! i = None → debt i = nothing) → glob (pworld P) debt →
  (∀ i p, threads P !! i = Some p → careful (rows (pworld P)) (debt i) p (λ _ _ D, last D)) →
  tracked (λ _, rows (pworld P)) debt P.
Proof.
  intros Hl Hd Hg Hc. pose proof (started_ok _ _ (launched_started _ _ Hl)) as Hok.
  destruct Hl as (Ho & Ht & Hn & Hk & Hp). split; try done. intros i p Hi. split; [done|by apply Hc].
Qed.

Lemma moves_tracked past debt P P' i :
  tracked past debt P → pool_next i P = Some P' → pool_allowed allowed i P = true →
  ∃ past' debt', tracked past' debt' P'.
Proof.
  intros [Hok Hn Hk Hcare Hnone Hg] Hm Hs. pose proof (moves_ok _ _ _ _ Hok Hm) as Hok'.
  pose proof (pool_history _ _ Hok') as Hh. apply pool_next_inv in Hm as (R & c & k & r & w' & Hi & He & ->).
  cbn [pworld] in Hh. unfold pool_allowed in Hs. rewrite Hi, He in Hs.
  destruct (Hcare i _ Hi) as [Hp Hci].
  destruct (Hci _ _ _ _ Hp Hh Hn He (glob_rely _ _ i _ _ _ _ Hg Hs)) as (D' & HD & Ht' & Hci').
  exists (<[i := rows w']> past), (<[i := D']> debt). split; cbn [threads pworld owner].
  - exact (pool_ok_here _ _ Hok').
  - by apply Hh.
  - intros t [Ht|Ht]%Ht'; [|done]. eapply asked_history; [by apply Hk|done].
  - intros j q Hj. destruct (decide (j = i)) as [->|Hne].
    + rewrite list_lookup_insert_eq in Hj by (by eapply lookup_lt_Some). injection Hj as <-.
      by rewrite !fn_lookup_insert.
    + rewrite list_lookup_insert_ne in Hj by done. rewrite !fn_lookup_insert_ne by done.
      destruct (Hcare j q Hj) as [Hpj Hcj]. split; [by etrans|done].
  - intros j Hj. assert (j ≠ i) as Hne.
    { intros ->. by rewrite list_lookup_insert_eq in Hj by (by eapply lookup_lt_Some). }
    rewrite list_lookup_insert_ne in Hj by done. rewrite fn_lookup_insert_ne by done. by apply Hnone.
  - by eapply glob_guar.
Qed.

Lemma starts_tracked past debt P p next :
  tracked past debt P → TaskRequest p next ∈ w_tasks (pworld P) →
  ∃ past' debt', tracked past' debt' (mkPool (threads P ++ [request_task cfg p next]) (owner P) (pworld P)).
Proof.
  intros [Hok Hn Hk Hcare Hnone Hg] Hin. set (n := length (threads P)).
  exists (<[n := rows (pworld P)]> past), debt. split; cbn [threads pworld owner]; try done.
  - by apply starts_ok.
  - intros i q [Hi|[Hlen Hi]]%lookup_app_Some.
    + rewrite !fn_lookup_insert_ne by (apply lookup_lt_Some in Hi; unfold n; lia). by apply Hcare.
    + apply list_lookup_singleton_Some in Hi as [Hi <-]. assert (i = n) as -> by (unfold n; lia).
      rewrite !fn_lookup_insert. split; [done|]. rewrite Hnone by (by apply lookup_ge_None).
      apply task_careful. by apply Hk in Hin.
  - intros i Hi%lookup_ge_None. apply Hnone, lookup_ge_None. rewrite length_app in Hi. lia.
Qed.

Lemma steps_tracked past debt P P' :
  tracked past debt P → rtc (guarded_step allowed cfg) P P' → ∃ past' debt', tracked past' debt' P'.
Proof.
  intros Hp Hr. revert past debt Hp. induction Hr as [P|P P1 P' Hs _ IH]; intros past debt Hp; [by eauto|].
  destruct Hs as [i P P1 Hm Hs|p next P Hin].
  - destruct (moves_tracked _ _ _ _ _ Hp Hm Hs) as (past1 & debt1 & Hp1). by eapply IH.
  - destruct (starts_tracked _ _ _ p next Hp Hin) as (past1 & debt1 & Hp1). by eapply IH.
Qed.

(** The blocks of a goroutine that has ended. *)
Lemma ended_last past debt P i :
  tracked past debt P → (∀ p, p ∈ threads P → ended p = true) → debt i = nothing ∨ last (debt i).
Proof.
  intros Hp Hend. destruct (threads P !! i) as [p|] eqn:Hi; [right|left; by apply (tr_none _ _ _ Hp)].
  destruct (tr_careful _ _ _ Hp i p Hi) as [_ Hcare]. apply list_elem_of_lookup_2, Hend in Hi. by destruct p.
Qed.

End tracking.
