(* ===== verification/Coverage.v ===== *)
(** * No block is dropped

    A retry marks a span proof as failed and then asks for its blocks again, in
    separate commands: in between, other goroutines see blocks that no live span
    proof covers.  Here a goroutine's blocks are the ones it owes; every
    function of the proposer pays what it owes before it returns, whatever the
    other goroutines do meanwhile, as long as the database serves its insertions
    and queries. *)

From Stdlib Require Import ZArith Lia.
From stdpp Require Import relations functions.
From S2P Require Import Prelude Sql ProofRequest Metrics Encoding Prog Types Script Json Spans.
From S2P Require Import Mutation Builders Db Range Partition Prove Driver Machine Stages Race Concurrent Pool.
From S2P Require Import Blocks Debts.

Section debts.
Context `{SqlLaws, External}.
Implicit Types (w : World) (T : list Row) (D : Z → Prop) (cfg : ProposerConfig).

(** The database does what it is asked: an insertion or a query. *)
Definition served {R} (c : cmd R) : R → bool :=
  match c in cmd R return R → bool with
  | CDb c =>
      match c in DbCmd R return R → bool with
      | SqlCreate _ _ => λ r, match r with inr _ => true | inl _ => false end
      | SqlQuery _ _ => λ r, match r with inr _ => true | inl _ => false end
      | _ => λ _, true
      end
  | _ => λ _, true
  end.

(** An open transaction's copy covers what the table does. *)
Definition copied w : Prop := ∀ s, w_tx w = Some s → no_less (rows w) (sg_rows s).

(** What was covered or owed still is. *)
Definition pays w D w' D' : Prop :=
  (∀ b, covered (rows w) b ∨ D b → covered (rows w') b ∨ D' b) ∧ copied w'.

Lemma change_pays ok w w' D : world_change ok w w' → copied w → pays w D w' D.
Proof.
  intros Hch Hc. assert (no_less (rows w) (rows w') ∧ copied w') as [Hl Hc'].
  { unfold copied in *. destruct Hch as [Hr Ht|Ht Ht' Hm|s Ht Ht' Es Hr|s s' Ht Ht' Hr Hm|s Ht Ht' Hr].
    - by rewrite Hr, Ht.
    - rewrite Ht'. split; [by eapply mild_change_no_less|done].
    - rewrite Hr, Ht'. split; [done|]. intros ? [= <-]. by rewrite Es.
    - rewrite Hr, Ht'. split; [done|]. intros ? [= <-]. etrans; [by apply Hc|by eapply mild_change_no_less].
    - rewrite Ht'. split; [|done]. destruct Hr as [-> | ->]; [done|by apply Hc]. }
  split; [|done]. intros b [Hb|Hb]; [left; by apply Hl|by right].
Qed.

#[local] Program Instance paying : Ledger := {|
  rely R own c w r D := copied w ∧ served c r;
  guar := pays;
|}.
Next Obligation. intros R own c w r w' D Hh [Hc _] [Hw _]%harmless_change; [by eapply change_pays|done]. Qed.
Next Obligation. intros R own c w r w' D [Hc _] Hr Ht. eapply (change_pays (λ _ _, True)); [by apply change_none|done]. Qed.

(** A new request for blocks that are owed. *)
Lemma careful_NewEntry T D D' s e :
  (∀ b, D b → (0 <= s ∧ 0 <= e ∧ s <= b < e) ∨ D' b) →
  careful T D (NewEntry TypeSPAN s e) (λ o _ D'', o = Ok tt ∧ D'' = D').
Proof.
  intros HD. apply careful_insert.
  - intros n own spec w id w' _ [Hc _] Hs He Ht Ht' E. exists D'. split; [split|done]; [|intros st; by rewrite Ht'].
    intros b [Hb|[(? & ? & Hb)|Hb]%HD]; rewrite E; [left; by apply no_less_app| |by right]. left.
    eexists. split; [apply elem_of_app; right; by left|]. unfold covers, live_span, is_i63. cbn. split_and!; done || lia.
  - by intros own spec w e' err T' _ [_ Hs].
Qed.

(** The blocks of the request with this id are owed from now on. *)
Lemma covered_failed T req n b :
  NoDup (row_id <$> T) → known T req → covered T b →
  covered (at_id (pr_ID req) (mark StatusFAILED n) T) b ∨ owed req b.
Proof.
  intros Hnd (x & Hx & Hi & Hty & Hs & He) (r & Hr & Hc). destruct (decide (row_id r = pr_ID req)) as [E|E].
  - right. assert (r = x) as -> by (eapply ids_inj; [exact Hnd|done..|congruence]).
    destruct Hc as ([Ht _] & Hlo & Hhi & Hb). unfold owed. rewrite bool_decide_eq_true_2 by congruence.
    unfold blocks. rewrite Hs, He, !u64_i63 by done. done.
  - left. exists r. split; [|done]. apply list_elem_of_fmap. exists r. by rewrite decide_False.
Qed.

Lemma careful_fail T req :
  known T req →
  careful T nothing (UpdateProofStatus (pr_ID req) StatusFAILED)
    (λ o _ D, match o with Ok _ => D = owed req | _ => D = nothing end).
Proof.
  intros Hk. apply careful_mark; [|done]. intros n own u w m w' HT _ Hnd [Hc _] _ _ Ht Ht' E. exists (owed req).
  split; [split|done]; [|intros st; by rewrite Ht']. rewrite E. intros b [Hb|[]]. apply covered_failed; [done| |done].
  by eapply known_history.
Qed.

(** *** Retries *)

Lemma careful_retry_ranges T req st prev :
  0 <= pr_StartBlock req → 0 <= pr_EndBlock req →
  careful T (owed req) (for_each (retry_ranges req st prev) (λ r, NewEntry (pr_Type req) (fst r) (snd r)))
    (λ o _ D, D = nothing).
Proof.
  intros Hs He. unfold owed. case_bool_decide as Hty.
  2: { apply careful_harmless; [|done]. apply harmless_for_each. intros r. by apply harmless_NewEntry. }
  rewrite Hty. assert (∀ T a b D', 0 <= a → 0 <= b → (∀ x, blocks a (pr_EndBlock req) x → blocks a b x ∨ D' x) →
    careful T (blocks a (pr_EndBlock req)) (NewEntry TypeSPAN a b) (λ o _ D, o = Ok tt ∧ D = D')) as Hnew.
  { intros T' a b D' Ha Hb HD. apply careful_NewEntry. intros x [?|?]%HD; [by left|by right]. }
  unfold retry_ranges. destruct (_ && _); cbn [for_each fst snd].
  - assert (0 <= add64 (pr_StartBlock req) (pr_EndBlock req) / 2) as Hmid.
    { apply Z.div_pos; [apply u64_range|done]. }
    apply careful_bind. eapply careful_mono; [|apply (Hnew _ _ _ (blocks (add64 (pr_StartBlock req) (pr_EndBlock req) / 2) (pr_EndBlock req)));
      [done|done|unfold blocks; lia]].
    intros ? T1 ? [-> ->]. cbn [and_then]. apply careful_bind.
    eapply careful_mono; [|apply (Hnew _ _ _ nothing); [done|done|by left]]. by intros ? T2 ? [-> ->].
  - apply careful_bind. eapply careful_mono; [|apply (Hnew _ _ _ nothing); [done|done|by left]]. by intros ? T2 ? [-> ->].
Qed.

(** A goroutine owes nothing between its calls. *)
Definition even : list Row → (Z → Prop) → Prop := λ _ D, D = nothing.

Lemma even_history T T' D : even T D → history T T' → even T' D.
Proof. done. Qed.

Lemma prudent_RetryRequest T req st : known T req → prudent even T (RetryRequest req st) (λ _ _, True).
Proof.
  intros Hk D ->. assert (0 <= pr_StartBlock req ∧ 0 <= pr_EndBlock req) as [Hs He].
  { destruct Hk as (r & _ & _ & _ & -> & ->). split; apply u64_range. }
  unfold RetryRequest. apply careful_bind. eapply careful_mono; [|by apply careful_fail].
  intros [[]|e|m| |] T1 D Hd; cbn [and_then]; try done. subst D. apply careful_bind.
  unfold GetProofRequestsWithBlockRangeAndStatus. apply careful_map_err.
  apply careful_all; [done..| |by intros own w e T' _ []]. intros prev T2 _ _. cbn [and_then].
  eapply careful_mono; [|by apply careful_retry_ranges]. by intros [].
Qed.

Lemma prudent_GetRangeProofBoundaries cfg T : prudent even T (GetRangeProofBoundaries cfg) (λ _ _, True).
Proof.
  unfold GetRangeProofBoundaries.
  eapply prudent_bind; [apply prudent_harmless, harmless_latest_l2_end_block; apply even_history|]. intros n T1 _ _.
  eapply prudent_bind; [by apply prudent_harmless, harmless_bind; [apply even_history| |intros; apply harmless_lift_err]|].
  intros _ T2 _ _.
  eapply prudent_bind; [by apply prudent_harmless, harmless_bind; [apply even_history| |intros; apply harmless_lift]|].
  intros st T3 _ _. destruct (SplitRangeBasic _ _ _) as [spans|]; [|by apply prudent_fuel]. clear.
  revert T3. induction spans as [|sp spans IH]; intros T; [by apply prudent_ret|]. cbn [for_each].
  eapply (prudent_bind _ _ _ _ (λ _ _, True)); [|intros; apply IH]. intros D ->.
  eapply careful_mono; [|by apply (careful_NewEntry T nothing nothing)]. by intros ? T' D' [-> ->].
Qed.

(** *** Goroutines *)

Lemma prudent_done {A} T (p : prog A) R : prudent even T p R → careful T nothing p (λ _ _ D, D = nothing).
Proof. intros Hp. eapply careful_mono; [|by apply Hp]. by intros o T' D [? _]. Qed.

Lemma task_done T cfg p next : known T next → careful T nothing (request_task cfg p next) (λ _ _ D, D = nothing).
Proof.
  intros Hk. eapply prudent_done, prudent_request_task; [apply even_history|apply prudent_RetryRequest|done].
Qed.

Lemma loop_done T n fuel cfg : careful T nothing (loop n fuel cfg) (λ _ _ D, D = nothing).
Proof.
  eapply prudent_done, prudent_loop; [apply even_history|apply prudent_RetryRequest|].
  intros T'. apply prudent_GetRangeProofBoundaries.
Qed.

(** ** Any schedule *)

(** Steps in which the database serves the command. *)
Definition served_step cfg : relation pool := guarded_step (λ _ _ c _ r, served c r) cfg.
Definition served_run : list nat → pool → pool := guarded_run (λ _ _ c _ r, served c r).

(** The blocks [S] are covered, or owed by somebody. *)
Definition accounted (S : Z → Prop) w (debt : nat → Z → Prop) : Prop :=
  copied w ∧ ∀ b, S b → covered (rows w) b ∨ ∃ i, debt i b.

Lemma accounted_guar S w debt i w' D : accounted S w debt → pays w (debt i) w' D → accounted S w' (<[i := D]> debt).
Proof.
  intros [Hc Ha] [Hp Hc']. split; [done|]. intros b Hb.
  assert (covered (rows w) b ∨ debt i b → covered (rows w') b ∨ ∃ j, <[i := D]> debt j b) as Hi.
  { intros [Hx|Hx]%Hp; [by left|right]. exists i. by rewrite fn_lookup_insert. }
  destruct (Ha b Hb) as [Hx|[j Hj]]; [by apply Hi; left|].
  destruct (decide (j = i)) as [->|Hne]; [by apply Hi; right|]. right. exists j. by rewrite fn_lookup_insert_ne.
Qed.

Lemma steps_accounted S cfg past debt P P' :
  tracked (accounted S) (λ D, D = nothing) past debt P → rtc (served_step cfg) P P' →
  ∃ past' debt', tracked (accounted S) (λ D, D = nothing) past' debt' P'.
Proof.
  apply steps_tracked.
  - intros w d i R own c r [Hc _] Hs. split; [done|by apply Is_true_true].
  - intros w d i w' D. apply accounted_guar.
  - intros T p next. apply task_done.
Qed.

(** C9: no block is dropped.  Whatever the schedule of the main loop and the
    request goroutines, as long as the database serves their insertions and
    queries, a block that a live span proof covers at any time is covered by one
    when the goroutines have ended: a retry that another goroutine interrupts,
    or repeats, leaves no gap. *)
Theorem no_block_dropped cfg (P P1 P2 : pool) b :
  launched cfg P → rtc (served_step cfg) P P1 → rtc (served_step cfg) P1 P2 →
  (∀ p, p ∈ threads P2 → ended p = true) →
  covered (rows (pworld P1)) b → covered (rows (pworld P2)) b.
Proof.
  intros Hl H01 H12 Hend Hb.
  assert (tracked (accounted (λ _, False)) (λ D, D = nothing) (λ _, rows (pworld P)) (λ _, nothing) P) as Hp.
  { apply (launched_tracked cfg); [done|done| |].
    - split; [|done]. intros s. destruct Hl as (_ & Ht & _). by rewrite Ht.
    - intros i p Hi%list_elem_of_lookup_2. destruct Hl as (_ & _ & _ & _ & Hp).
      destruct (Hp p Hi) as [(n & fuel & ->)|(x & y & -> & Hy)]; [apply loop_done|by apply task_done]. }
  destruct (steps_accounted _ _ _ _ _ _ Hp H01) as (past1 & debt1 & [Hok Hn Hk Hcare Hnone [Hc _]]).
  assert (tracked (accounted (covered (rows (pworld P1)))) (λ D, D = nothing) past1 debt1 P1) as Hp1.
  { split; try done. split; [done|by left]. }
  destruct (steps_accounted _ _ _ _ _ _ Hp1 H12) as (past2 & debt2 & Hp2).
  destruct (tr_glob _ _ _ _ _ Hp2) as [_ Hacc]. destruct (Hacc b Hb) as [Hx|[i Hd]]; [done|].
  destruct (ended_last _ _ _ _ _ i Hp2 Hend) as [Hx|Hx]; by rewrite Hx in Hd.
Qed.

End debts.

(** ** A schedule *)

(** The race of [Race], with the whole loop: the goroutine's call to the server
    times out, the loop retries the request, and the goroutine again. *)
Definition slow_request : ProofRequest := entity (row_at t0 1 TypeSPAN 0 40 StatusUNREQ).

Definition slow_pool : @pool ListSql SlowExternal :=
  mkPool [loop (H := SlowExternal) 1 1 cfg0; request_task (H := SlowExternal) cfg0 slow_request slow_request]
    None slow_world.

(** The loop has marked the request as failed, and not yet replaced it. *)
Definition interrupted : @pool ListSql SlowExternal :=
  served_run (replicate 3 1%nat ++ replicate 20 0%nat) slow_pool.
Definition raced : @pool ListSql SlowExternal :=
  served_run (replicate 60 0%nat ++ replicate 20 1%nat) interrupted.

Lemma slow_launched : launched cfg0 slow_pool.
Proof.
  split; [done|]. split; [done|]. split; [by apply NoDup_singleton|]. split; [by intros t ?%not_elem_of_nil|].
  intros p Hp. apply elem_of_cons in Hp as [->|Hp]; [left; by eexists _, _|].
  apply elem_of_cons in Hp as [->|Hp]; [|by apply not_elem_of_nil in Hp].
  right. exists slow_request, slow_request. split; [done|]. apply known_entity. by left.
Qed.

Lemma no_block_dropped_witness :
  bool_decide (covered (rows (pworld slow_pool)) 20) = true ∧ bool_decide (covered (rows (pworld interrupted)) 20) = false ∧
  ended <$> threads raced = [true; true] ∧ covered (rows (pworld raced)) 20.
Proof.
  split; [vm_compute; reflexivity|]. split; [vm_compute; reflexivity|]. split; [vm_compute; reflexivity|].
  apply (@no_block_dropped ListSql ListSql_laws SlowExternal cfg0 slow_pool slow_pool raced 20 slow_launched).
  - reflexivity.
  - transitivity interrupted; apply guarded_run_steps.
  - intros p Hp. assert (Forall (λ p, ended p = true) (threads raced)) as Hall by (vm_compute; repeat constructor).
    by apply (proj1 (Forall_forall _ _) Hall).
  - apply (bool_decide_unpack _ (dec := covered_dec _ _)). vm_compute. exact I.
Defined.
