(* ===== verification/Overlap.v ===== *)
(** * Span proofs do not overlap

    Two goroutines that retry the same request leave two live span proofs over
    the same blocks ([Race]).  Here a goroutine's blocks are the ones it owns: a
    retry owns those of the request it has failed, and the loop all that lie
    beyond the table.  Nobody else asks for them, so live span proofs stay
    disjoint in every schedule in which no update writes the status of a request
    that has failed already. *)

From Stdlib Require Import ZArith Lia.
From stdpp Require Import relations functions.
From S2P Require Import Prelude Sql ProofRequest Metrics Encoding Prog Types Script Json Spans.
From S2P Require Import Mutation Builders Db Range Partition Steps Prove Driver Machine Stages Race Concurrent Pool.
From S2P Require Import Blocks Debts Coverage.

(** ** Disjoint span proofs *)

(** No block has two live span proofs. *)
Definition exclusive (tbl : list Row) : Prop :=
  ∀ b r r', r ∈ tbl → r' ∈ tbl → covers b r → covers b r' → row_id r = row_id r'.

(** Rows as the code's [uint64]s make them. *)
Definition ranged (tbl : list Row) : Prop :=
  ∀ r, r ∈ tbl → row_end_block r < two63 ∧ (row_type r = TypeSPAN → is_i63 (lo r) ∧ is_i63 (hi r)).

(** Every row of [tbl'] is one of [tbl], which covers what it does, or an
    aggregation proof. *)
Definition traces (tbl tbl' : list Row) : Prop :=
  ∀ r', r' ∈ tbl' →
    (∃ r, r ∈ tbl ∧ same_request r r' ∧ ∀ b, covers b r' → covers b r) ∨
    (row_type r' ≠ TypeSPAN ∧ row_end_block r' < two63).

Lemma traces_covered tbl tbl' b : traces tbl tbl' → covered tbl' b → covered tbl b.
Proof. intros Ht (r' & Hr' & Hc). destruct (Ht r' Hr') as [(r & ? & _ & ?)|[Hn _]]; [exists r; auto|by destruct Hc as [[? _] _]]. Qed.

Lemma traces_exclusive tbl tbl' : traces tbl tbl' → exclusive tbl → exclusive tbl'.
Proof.
  intros Ht Hx b r1' r2' H1 H2 C1 C2.
  destruct (Ht _ H1) as [(r1 & I1 & (-> & _) & K1)|[N1 _]]; [|by destruct C1 as [[? _] _]].
  destruct (Ht _ H2) as [(r2 & I2 & (-> & _) & K2)|[N2 _]]; [|by destruct C2 as [[? _] _]].
  apply (Hx b); auto.
Qed.

Lemma traces_ranged tbl tbl' : traces tbl tbl' → ranged tbl → ranged tbl'.
Proof.
  intros Ht Hr r' Hr'. destruct (Ht _ Hr') as [(r & Hin & (_ & Hty & Hl & Hh) & _)|[Hn Hlt]]; [|by split].
  cbn. rewrite Hty, Hl, Hh. by apply Hr.
Qed.

Lemma traces_refl tbl : traces tbl tbl.
Proof. intros r Hr. left. by exists r. Qed.

(** An update that does not write the status of a failed request. *)
Definition orderly_update (u : UpdateSpec) (tbl : list Row) : bool :=
  negb (sets_status u) ||
  forallb (λ r, negb (touched u r) || negb (bool_decide (row_status r = StatusFAILED))) tbl.

Lemma orderly_touched u tbl r :
  orderly_update u tbl → sets_status u = true → r ∈ tbl → touched u r = true → row_status r ≠ StatusFAILED.
Proof.
  unfold orderly_update. intros [Hn|Hf]%orb_True Hs Hr Ht; [by rewrite Hs in Hn|].
  apply Is_true_true in Hf. rewrite forallb_forall in Hf. specialize (Hf r (proj1 (list_elem_of_In _ _) Hr)).
  rewrite Ht in Hf. cbn in Hf. by case_bool_decide.
Qed.

Lemma mild_change_traces ok tbl tbl' :
  (∀ u, ok u tbl → orderly_update u tbl) → mild_change ok tbl tbl' → traces tbl tbl'.
Proof.
  intros Hok [|r Hty Hlt|u tbl'' Hu Hm Ht]; [apply traces_refl| |].
  - intros r' [Hr|Hr]%elem_of_app; [by apply traces_refl|]. apply list_elem_of_singleton in Hr as ->. by right.
  - apply update_rows_forall2 in Ht; [|done]. intros r' [i Hi]%list_elem_of_lookup.
    destruct (Forall2_lookup_r _ _ _ _ _ Ht Hi) as (r & Hr & Hx). left. exists r.
    apply list_elem_of_lookup_2 in Hr. split; [done|]. destruct (touched u r) eqn:Htc; [|by subst].
    split; [by destruct Hx|]. intros b. apply (mildly_covers_back _ _ _ _ Hx). intros Hs. by eapply orderly_touched; eauto.
Qed.

(** ** The ledger *)

Section owners.
Context `{SqlLaws, External}.
Implicit Types (w : World) (T : list Row) (D : Z → Prop) (cfg : ProposerConfig).

Definition orderly (own : bool) {R} (c : cmd R) w : bool :=
  match updates own c w with Some (u, tbl) => orderly_update u tbl | None => true end.

(** The table, and the copy of an open transaction. *)
Definition settled w : Prop :=
  exclusive (rows w) ∧ ranged (rows w) ∧ ∀ s, w_tx w = Some s → traces (rows w) (sg_rows s).

(** Nobody takes a block that was covered or another's. *)
Definition takes w D w' D' : Prop :=
  settled w' ∧ (∀ b, covered (rows w') b ∨ D' b → covered (rows w) b ∨ D b) ∧ ∀ b, D' b → ¬ covered (rows w') b.

Definition held w D : Prop := settled w ∧ ∀ b, D b → ¬ covered (rows w) b.

Lemma traces_trans t1 t2 t3 : traces t1 t2 → traces t2 t3 → traces t1 t3.
Proof.
  intros H12 H23 r3 Hr3. destruct (H23 r3 Hr3) as [(r2 & Hr2 & S2 & C2)|Hn]; [|by right].
  destruct S2 as (I2 & T2 & L2 & E2). destruct (H12 r2 Hr2) as [(r1 & Hr1 & (I1 & T1 & L1 & E1) & C1)|[Hn Hlt]].
  - left. exists r1. split; [done|]. split; [unfold same_request; intuition congruence|auto].
  - right. by rewrite T2, E2.
Qed.

(** The table follows the one before, and so does an open copy. *)
Lemma traces_takes w w' D :
  held w D → traces (rows w) (rows w') → (∀ s, w_tx w' = Some s → traces (rows w') (sg_rows s)) → takes w D w' D.
Proof.
  intros [(Hx & Hr & _) Hd] Ht Hs. split_and!.
  - split_and!; [by eapply traces_exclusive|by eapply traces_ranged|done].
  - intros b [Hb|Hb]; [left; by eapply traces_covered|by right].
  - intros b Hb Hc. eapply Hd; [exact Hb|by eapply traces_covered].
Qed.

Lemma change_takes ok w w' D :
  (∀ u tbl, ok u tbl → orderly_update u tbl) → world_change ok w w' → held w D → takes w D w' D.
Proof.
  intros Hok Hch Hh. pose proof Hh as [(_ & _ & Hc) _]. apply traces_takes; [done|..].
  - destruct Hch as [Hr _|_ _ Hm|s _ _ _ Hr|s s' _ _ Hr _|s Ht _ [Hr|Hr]]; rewrite ?Hr; try apply traces_refl.
    + eapply mild_change_traces; [|exact Hm]. auto.
    + by apply Hc.
  - destruct Hch as [Hr Ht|_ Ht _|s _ Ht Es Hr|s s' Ht Ht' Hr Hm|s _ Ht _]; rewrite Ht || rewrite Ht'; try done.
    + rewrite Hr. done.
    + intros ? [= <-]. rewrite Es, Hr. apply traces_refl.
    + intros ? [= <-]. rewrite Hr. eapply traces_trans; [by apply Hc|]. eapply mild_change_traces; [|exact Hm]. auto.
Qed.

#[local] Program Instance owning : Ledger := {|
  rely R own c w r D := held w D ∧ orderly own c w;
  guar := takes;
|}.
Next Obligation.
  intros R own c w r w' D Hh [Hd Ho] [Hw _]%harmless_change; [|done]. eapply change_takes; [|exact Hw|done].
  intros u tbl Hu. unfold orderly in Ho. by rewrite Hu in Ho.
Qed.
Next Obligation.
  intros R own c w r w' D [Hd _] Hr Ht. eapply (change_takes (λ _ _, False)); [done|by apply change_none|done].
Qed.

(** A new span proof over blocks that are the goroutine's own. *)
Lemma owns_NewEntry T D s e :
  0 <= s → 0 <= e → (∀ b, blocks s e b → D b) →
  careful T D (NewEntry TypeSPAN s e) (λ o T' D',
    match o with
    | Ok _ => (∀ b, D b → ¬ blocks s e b → D' b) ∧ s < two63 ∧ e < two63 ∧ ∃ r, r ∈ T' ∧ row_end_block r = e
    | _ => D' = D
    end).
Proof.
  intros H0s H0e HD. apply careful_insert; [|by intros ?].
  intros n own spec w id w' _ [Hd _] Hs He Ht Ht' E. exists (λ b, D b ∧ ¬ blocks s e b).
  set (new := new_row id TypeSPAN s e n) in *.
  assert (∀ b, covers b new → blocks s e b) as Hnew by (by intros b (_ & _ & _ & ?)). split.
  - destruct Hd as [(Hx & Hr & _) Hd]. unfold guar, owning, takes, settled. rewrite E, Ht'. split_and!.
    + intros b r1 r2 [I1|I1]%elem_of_app [I2|I2]%elem_of_app C1 C2; try apply list_elem_of_singleton in I1 as ->;
        try apply list_elem_of_singleton in I2 as ->; [by eapply Hx|..|done]; exfalso;
        [apply (Hd b); [by apply HD, Hnew|by exists r1]|apply (Hd b); [by apply HD, Hnew|by exists r2]].
    + intros r1 [I1|I1]%elem_of_app; [by apply Hr|]. apply list_elem_of_singleton in I1 as ->. done.
    + done.
    + intros b [(r1 & [I1|I1]%elem_of_app & C1)|[Hb _]]; [left; by exists r1| |by right].
      apply list_elem_of_singleton in I1 as ->. right. by apply HD, Hnew.
    + intros b [Hb Hnb] (r1 & [I1|I1]%elem_of_app & C1); [apply (Hd b Hb); by exists r1|].
      apply list_elem_of_singleton in I1 as ->. by apply Hnb, Hnew.
  - rewrite E. split; [by auto|]. split; [done|]. split; [done|]. exists new. split; [|done].
    apply elem_of_app. right. by left.
Qed.

(** *** Retries *)

(** The range of a request that was read, as its row has it. *)
Definition sound_range (req : ProofRequest) : Prop :=
  pr_Type req = TypeSPAN → is_i63 (pr_StartBlock req) ∧ is_i63 (pr_EndBlock req).

Lemma known_range T req : ranged T → known T req → sound_range req.
Proof.
  intros Hr (x & Hx & _ & Hty & Hs & He) Ht. destruct (Hr x Hx) as [_ Hi]. rewrite <- Hty in Ht.
  destruct (Hi Ht) as [Hl Hh]. rewrite Hs, He, !u64_i63 by done. done.
Qed.

(** The blocks of a live request pass to the goroutine that fails it. *)
Lemma failed_takes T req n b :
  NoDup (row_id <$> T) → exclusive T → ranged T → known T req →
  (∀ r, r ∈ T → row_id r = pr_ID req → row_status r ≠ StatusFAILED) → owed req b →
  covered T b ∧ ¬ covered (at_id (pr_ID req) (mark StatusFAILED n) T) b.
Proof.
  intros Hnd Hx Hr (x & Hin & Hi & Hty & Hs & He) Hst Hb. unfold owed in Hb. case_bool_decide as Ht; [|done].
  rewrite <- Hty in Ht. destruct (proj2 (Hr x Hin) Ht) as [Hl Hh]. unfold blocks in Hb.
  rewrite Hs, He, !u64_i63 in Hb by done.
  assert (covers b x) as Hc by (split; [by split; [|apply Hst]|done]). split; [by exists x|].
  intros (r' & (r & -> & Hr')%list_elem_of_fmap & Hc'). case_decide as Hid.
  - destruct Hc' as [[_ Hf] _]. destruct r. by cbn in Hf.
  - apply Hid. rewrite <- Hi. by apply (Hx b).
Qed.

Lemma marked_traces T id n : traces T (at_id id (mark StatusFAILED n) T).
Proof.
  intros r' (r & -> & Hr)%list_elem_of_fmap. left. exists r. split; [done|]. case_decide; [|done].
  split; [apply same_mark|]. intros b ([_ Hf] & _). destruct r. by cbn in Hf.
Qed.

Lemma owns_fail T D req :
  known T req →
  careful T D (UpdateProofStatus (pr_ID req) StatusFAILED) (λ o _ D',
    match o with
    | Ok _ => (∀ b, D b ∨ owed req b → D' b) ∧ (∀ b, D b → ¬ owed req b) ∧ sound_range req
    | _ => D' = D
    end).
Proof.
  intros Hk. apply careful_mark; [|done]. intros n own u w m w' HT _ Hnd [Hd Ho] Hset Htc Ht Ht' E.
  assert (known (rows w) req) as Hkw by (by eapply known_history). destruct Hd as [(Hx & Hr & _) Hd].
  assert (∀ r, r ∈ rows w → row_id r = pr_ID req → row_status r ≠ StatusFAILED) as Hst.
  { intros x Hx' Hid. by eapply orderly_touched; [exact Ho|..|apply Htc]. }
  assert (∀ b, owed req b → covered (rows w) b ∧ ¬ covered (rows w') b) as Hof
    by (intros b Hb; rewrite E; by apply failed_takes).
  exists (λ b, D b ∨ owed req b). split.
  - unfold guar, owning, takes, settled. rewrite Ht'. split_and!; [..|done| |].
    + rewrite E. eapply traces_exclusive; [apply marked_traces|done].
    + rewrite E. eapply traces_ranged; [apply marked_traces|done].
    + intros b [Hb|[Hb|Hb]]; [left|by right|left; by apply Hof].
      rewrite E in Hb. eapply traces_covered; [apply marked_traces|exact Hb].
    + intros b [Hb|Hb]; [|by apply Hof]. intros Hc. apply (Hd b Hb). rewrite E in Hc.
      eapply traces_covered; [apply marked_traces|exact Hc].
  - split_and!; [done| |by eapply known_range]. intros b Hb Hob. by apply (Hd b Hb), Hof.
Qed.

(** The requests that replace it lie in its blocks. *)
Lemma owns_retry_ranges T D req st prev :
  sound_range req → (∀ b, owed req b → D b) →
  careful T D (for_each (retry_ranges req st prev) (λ r, NewEntry (pr_Type req) (fst r) (snd r)))
    (λ _ _ D', ∀ b, D b → ¬ owed req b → D' b).
Proof.
  intros Hr. unfold owed. case_bool_decide as Hty.
  2: { intros _. apply careful_harmless; [|by auto]. apply harmless_for_each. intros r. by apply harmless_NewEntry. }
  destruct (Hr Hty) as [Hs He]. rewrite Hty. clear Hr Hty. intros HD.
  assert (∀ T D a b, is_i63 a → is_i63 b → (∀ x, blocks a b x → D x) →
    careful T D (NewEntry TypeSPAN a b) (λ _ _ D', ∀ x, D x → ¬ blocks a b x → D' x)) as Hnew.
  { intros T' D0 a b Ha Hb Hx. eapply careful_mono; [|apply owns_NewEntry; [apply Ha|apply Hb|done]].
    intros [u|e|m| |] T1 D1; [|by intros -> ..]. intros (Hd & _). exact Hd. }
  assert (∀ T D a b, is_i63 a → is_i63 b → (∀ x, blocks a b x → D x) →
    careful T D (_ ← NewEntry TypeSPAN a b; Ret tt) (λ _ _ D', ∀ x, D x → ¬ blocks a b x → D' x)) as Hlast.
  { intros T' D0 a b Ha Hb Hx. apply careful_bind. eapply careful_mono; [|by apply Hnew]. by intros []. }
  unfold retry_ranges. set (mid := add64 (pr_StartBlock req) (pr_EndBlock req) / 2).
  destruct (_ && _) eqn:Hsplit; cbn [for_each fst snd]; [|by apply Hlast].
  assert (mid = (pr_StartBlock req + pr_EndBlock req) / 2) as Hmid.
  { unfold mid. rewrite add64_small; [done|]. unfold is_i63, two63, two64 in *. lia. }
  pose proof (Z.div_mod (pr_StartBlock req + pr_EndBlock req) 2 ltac:(lia)) as Hdm.
  pose proof (Z.mod_pos_bound (pr_StartBlock req + pr_EndBlock req) 2 ltac:(lia)) as Hmb. rewrite <- Hmid in Hdm.
  assert (is_i63 mid) as Him by (unfold is_i63 in *; lia).
  apply careful_bind. eapply careful_mono; [|apply Hnew; [done|done|]].
  - intros [u|e|m| |] T1 D1 HD1; cbn [and_then]; try (intros b Hb Hnb; apply HD1; [done|];
      unfold blocks in *; unfold is_i63 in *; lia).
    + eapply careful_mono; [|apply Hlast; [done|done|]].
      * intros o T2 D2 HD2 b Hb Hnb. apply HD2; [apply HD1; [done|]|]; unfold blocks in *; unfold is_i63 in *; lia.
      * intros b Hb. apply HD1; [apply HD|]; unfold blocks in *; lia.
    + done.
  - intros b Hb. apply HD. unfold blocks in *. lia.
Qed.

Lemma careful_RetryRequest T D req st :
  known T req → careful T D (RetryRequest req st) (λ _ _ D', ∀ b, D b → D' b).
Proof.
  intros Hk. unfold RetryRequest. apply careful_bind. eapply careful_mono; [|by apply owns_fail].
  intros [[]|e|m| |] T1 D1 HD1; cbn [and_then]; try (by subst D1). destruct HD1 as (H01 & Hno & Hsr).
  apply careful_bind, careful_harmless; [apply harmless_GetProofRequests|].
  intros [prev|e|m| |] T2 _; cbn [and_then]; try (by auto).
  eapply careful_mono; [|apply owns_retry_ranges; [done|by auto]]. intros o T3 D2 H12 b Hb. auto.
Qed.

(** *** The first stage

    The loop owns the blocks from some end of the table on. *)

Definition frontier_owned T D : Prop :=
  (∀ b, D b) ∨ ∃ f, (∀ b, f <= b → D b) ∧ ∃ r, r ∈ T ∧ f <= row_end_block r.

Lemma frontier_history T T' D : frontier_owned T D → history T T' → frontier_owned T' D.
Proof.
  intros [Ha|(f & Hf & r & Hr & Hle)] [_ Hh]; [by left|right]. exists f. split; [done|].
  destruct (Hh r Hr) as (r' & Hr' & _ & _ & _ & He & _). exists r'. cbn in He. rewrite He. done.
Qed.

Lemma frontier_more T D D' : (∀ b, D b → D' b) → frontier_owned T D → frontier_owned T D'.
Proof. intros Hd [Ha|(f & Hf & Hr)]; [left; auto|right]. exists f. auto. Qed.

(** The greatest end of the table is beyond what the others own. *)
Lemma careful_GetLatestEndBlock T D :
  frontier_owned T D →
  careful T D GetLatestEndBlock (λ o T' D', D' = D ∧
    match o with
    | Ok a => 0 <= a ∧ ∀ b, a <= b → D b
    | Fail e => IsNotFound e = true → ∀ b, D b
    | _ => True
    end).
Proof.
  intros Hf. unfold GetLatestEndBlock. apply careful_bind, careful_map_err. unfold prq_First. apply careful_bind.
  unfold prq_All, prq_prepareQuery, prq_sqlAll. apply careful_bind. cbn -[db]. apply careful_bind.
  apply careful_do; [done|]. intros own w r w' HT He [[(_ & Hr & _) _] _].
  rewrite exec_local_plain in He by done. cbn in He.
  destruct r as [e|cells]; [done|]. destruct (w_ropen w); [|done]. destruct (sg_query _ (w_db w)) as [r' s'] eqn:E.
  injection He as -> <-. rewrite rows_with_db in *.
  apply sg_query_ok in E as [Es (l & (full & Hp & Hs & ->) & ->)]; [|done]. rewrite Es in *.
  change (filter _ _) with (matching [] (rows w)) in Hp. rewrite matching_nil in Hp. change (sg_rows (w_db w)) with (rows w) in *.
  apply (sorted_desc _ _ _ int_col_end) in Hs. unfold page. cbn -[select_cols].
  change (prq_columns _) with [FieldID; FieldEndBlock]. change (Pos.to_nat 1) with 1%nat. rewrite drop_0.
  rewrite scan_nodes_end_block. eapply frontier_history in Hf; [|exact HT].
  destruct full as [|x full]; cbn.
  - split; [done|]. intros _. destruct Hf as [Ha|(f & _ & y & Hy & _)]; [done|].
    apply Permutation_nil_l in Hp. rewrite <- Hp in Hy. by apply elem_of_nil in Hy.
  - split; [done|]. split; [apply u64_range|]. intros b Hb.
    change (pr_EndBlock (end_block_entity x)) with (u64 (row_end_block x)) in Hb.
    destruct Hf as [Ha|(f & Hd & y & Hy & Hle)]; [done|]. apply Hd. rewrite <- Hp in Hy.
    apply (sorted_head_min _ _ _ Hs) in Hy. cbv beta in Hy. assert (x ∈ rows w) as Hx by (rewrite <- Hp; by left).
    destruct (Hr x Hx) as [Hlt _]. pose proof (u64_range (u64 (row_end_block x))) as Hu.
    destruct (Z.le_gt_cases 0 (row_end_block x)) as [Hpos|Hneg]; [|unfold is_u64 in Hu; lia].
    rewrite !u64_i63 in Hb; unfold is_i63; rewrite ?u64_i63; unfold is_i63; lia.
Qed.

Lemma careful_latest_l2_end_block T D :
  frontier_owned T D →
  careful T D latest_l2_end_block (λ o T' D', D' = D ∧ match o with Ok a => 0 <= a ∧ ∀ b, a <= b → D b | _ => True end).
Proof.
  intros Hf. unfold latest_l2_end_block. apply careful_bind, careful_attempt.
  eapply careful_mono; [|by apply careful_GetLatestEndBlock]. intros [a|e|m| |] T1 D1 [-> Ho]; cbn [and_then]; try done.
  destruct (IsNotFound e) eqn:He; [|done]. specialize (Ho eq_refl).
  apply careful_bind, careful_harmless; [by apply harmless_map_err, harmless_bind; [|intros; apply harmless_lift]|].
  intros [a|e'|m| |] T2 _; cbn [and_then]; try done. split; [done|]. split; [apply u64_range|]. by intros b _.
Qed.

(** The spans, one after the other, from the frontier on. *)
Lemma careful_spans fuel step end_ i l T D :
  0 <= step < two63 → 0 <= i → split_loop fuel step end_ i = Some l →
  (∀ b, i <= b → D b) → frontier_owned T D →
  careful T D (for_each l (λ span, NewEntry TypeSPAN (Start span) (End span))) (λ _ T' D', frontier_owned T' D').
Proof.
  intros Hst. revert i l T D. induction fuel as [|fuel IH]; intros i l T D Hi Hl HD Hf; cbn [split_loop] in Hl.
  { destruct (_ <=? _); [done|]. by injection Hl as <-. }
  destruct (_ <=? _); [|by injection Hl as <-]. apply fmap_Some in Hl as (l' & Hl & ->). cbn [for_each Start End].
  apply careful_bind. eapply careful_mono; [|apply careful_history, (owns_NewEntry T D i (add64 i step))].
  - intros [u|e|m| |] T1 D1 [HT HD1]; cbn [and_then]; try done; try (by subst D1; eapply frontier_history).
    destruct HD1 as (Hrest & Hi63 & He63 & x & Hx & Hxe).
    assert (add64 i step = i + step) as Ha by (rewrite add64_small; [done|]; unfold two63, two64 in *; lia).
    rewrite Ha in *. assert (∀ b, i + step <= b → D1 b) as HD1.
    { intros b Hb. apply Hrest; [apply HD; lia|unfold blocks; lia]. }
    eapply (IH (i + step)); [lia|exact Hl|done|]. right. exists (i + step). split; [done|]. exists x. split; [done|lia].
  - lia.
  - apply u64_range.
  - intros b Hb. apply HD. unfold blocks in Hb. lia.
Qed.

Lemma owning_GetRangeProofBoundaries cfg T :
  0 <= MaxBlockRangePerSpanProof cfg < two63 →
  prudent frontier_owned T (GetRangeProofBoundaries cfg) (λ _ _, True).
Proof.
  intros Hst D HD. unfold GetRangeProofBoundaries. apply careful_bind.
  eapply careful_mono; [|by apply careful_history, careful_latest_l2_end_block].
  intros [a|e|m| |] T1 D1 (HT & -> & Ho); cbn [and_then]; try done; try (by split; [eapply frontier_history|]).
  destruct Ho as [Ha Hd]. assert (frontier_owned T1 D) as HD1 by by eapply frontier_history.
  apply careful_bind, careful_harmless; [by apply harmless_bind; [|intros; apply harmless_lift_err]|].
  intros [u|e|m| |] T2 HT2; cbn [and_then]; try done; try (by split; [eapply frontier_history|]).
  apply careful_bind, careful_harmless; [by apply harmless_bind; [|intros; apply harmless_lift]|].
  intros [st|e|m| |] T3 HT3; cbn [and_then]; try done;
    try (by split; [do 2 (eapply frontier_history; [|done])|]).
  destruct (SplitRangeBasic _ _ _) as [spans|] eqn:Hs; [|by split; [do 2 (eapply frontier_history; [|done])|]].
  eapply careful_mono; [|eapply careful_spans; [exact Hst|exact Ha|exact Hs|exact Hd|by do 2 (eapply frontier_history; [|done])]].
  intros o T4 D4 H4. split; [done|by destruct o].
Qed.

(** *** Goroutines *)

Lemma task_careful T cfg p next D :
  known T next → careful T D (request_task cfg p next) (λ _ _ _, True).
Proof.
  intros Hk. assert (prudent (λ _ _, True) T (request_task cfg p next) (λ _ _, True)) as Hp.
  { apply prudent_request_task; [done| |done]. intros T' req st Hk' D' _.
    eapply careful_mono; [|by apply careful_RetryRequest]. by intros []. }
  eapply careful_mono; [|by apply Hp]. done.
Qed.

Lemma loop_careful T n fuel cfg D :
  0 <= MaxBlockRangePerSpanProof cfg < two63 → frontier_owned T D → careful T D (loop n fuel cfg) (λ _ _ _, True).
Proof.
  intros Hst HD. assert (prudent frontier_owned T (loop n fuel cfg) (λ _ _, True)) as Hp.
  { apply prudent_loop; [apply frontier_history| |].
    - intros T' req st Hk' D' HD'. eapply careful_mono; [|by apply careful_history, careful_RetryRequest].
      intros o T1 D1 [HT Hm]. split; [|by destruct o]. eapply frontier_more; [exact Hm|by eapply frontier_history].
    - intros T'. by apply owning_GetRangeProofBoundaries. }
  eapply careful_mono; [|by apply Hp]. done.
Qed.

(** ** Any schedule *)

(** Steps in which no update writes the status of a failed request. *)
Definition orderly_step cfg : relation pool := guarded_step (λ _ own c w _, orderly own c w) cfg.
Definition orderly_run : list nat → pool → pool := guarded_run (λ _ own c w _, orderly own c w).

(** The goroutines' blocks are disjoint, none of them is covered, and all of them
    and the covered ones are in [S]. *)
Definition divided (S : Z → Prop) w (debt : nat → Z → Prop) : Prop :=
  settled w ∧ (∀ i b, debt i b → ¬ covered (rows w) b) ∧ (∀ i j b, debt i b → debt j b → i = j) ∧
  (∀ b, covered (rows w) b → S b) ∧ ∀ i b, debt i b → S b.

Lemma divided_guar S w debt i w' D : divided S w debt → takes w (debt i) w' D → divided S w' (<[i := D]> debt).
Proof.
  intros (Hs & Hd & Hu & Hc & Ha) (Hs' & Hfrom & Hd'). split; [done|].
  assert (∀ b, covered (rows w') b ∨ D b → S b) as HS by (by intros b [Hb|Hb]%Hfrom; [apply Hc|eapply Ha]).
  assert (∀ j b, j ≠ i → D b → debt j b → False) as Hnew.
  { intros j b Hne Hb Hj. destruct (Hfrom b (or_intror Hb)) as [Hx|Hi]; [by eapply Hd|]. by apply Hne, (Hu j i b). }
  split_and!.
  - intros j b. destruct (decide (j = i)) as [->|Hne]; [rewrite fn_lookup_insert; apply Hd'|].
    rewrite fn_lookup_insert_ne by done. intros Hj Hx. destruct (Hfrom b (or_introl Hx)) as [Hc'|Hi]; [by eapply Hd|].
    by apply Hne, (Hu j i b).
  - intros j k b. destruct (decide (j = i)) as [->|Hj], (decide (k = i)) as [->|Hk];
      rewrite ?fn_lookup_insert, ?fn_lookup_insert_ne by done; [done|..].
    + intros H1' H2'. by destruct (Hnew k b).
    + intros H1' H2'. by destruct (Hnew j b).
    + apply Hu.
  - intros b Hb. apply HS. by left.
  - intros j b. destruct (decide (j = i)) as [->|Hne]; [rewrite fn_lookup_insert; intros Hb; apply HS; by right|].
    rewrite fn_lookup_insert_ne by done. apply Ha.
Qed.

(** One main loop, and request goroutines. *)
Definition one_loop cfg (P : pool) : Prop :=
  ∃ n fuel ts, threads P = loop n fuel cfg :: ts ∧
    ∀ p, p ∈ ts → ∃ a b, p = request_task cfg a b ∧ known (rows (pworld P)) b.

Lemma latest_row (tbl : list Row) : tbl = [] ∨ ∃ r, r ∈ tbl ∧ ∀ r', r' ∈ tbl → row_end_block r' <= row_end_block r.
Proof.
  induction tbl as [|x tbl IH]; [by left|right]. destruct IH as [->|(r & Hr & Hmax)].
  - exists x. split; [by left|]. intros r' ->%list_elem_of_singleton. lia.
  - destruct (Z.le_gt_cases (row_end_block x) (row_end_block r)) as [Hle|Hgt].
    + exists r. split; [by right|]. intros r' [->|Hr']%elem_of_cons; [done|by apply Hmax].
    + exists x. split; [by left|]. intros r' [->|Hr'%Hmax]%elem_of_cons; lia.
Qed.

(** What the loop owns before it starts. *)
Definition beyond (tbl : list Row) : Z → Prop := λ b, ∀ r, r ∈ tbl → row_end_block r <= b.

Lemma beyond_owned tbl : frontier_owned tbl (beyond tbl).
Proof.
  destruct (latest_row tbl) as [->|(r & Hr & Hmax)]; [left; by intros b r ?%elem_of_nil|right].
  exists (row_end_block r). split; [|by exists r]. intros b Hb r' Hr'%Hmax. lia.
Qed.

Lemma beyond_uncovered tbl b : beyond tbl b → ¬ covered tbl b.
Proof. intros Hb (r & Hr & (_ & _ & _ & _ & Hlt)). apply Hb in Hr. cbn in Hlt. lia. Qed.

(** Nothing is asked for but what was and what lies beyond the table. *)
Lemma orderly_schedules cfg (S : Z → Prop) (P P' : pool) :
  0 <= MaxBlockRangePerSpanProof cfg < two63 → launched cfg P → one_loop cfg P →
  ranged (rows (pworld P)) → exclusive (rows (pworld P)) →
  (∀ b, covered (rows (pworld P)) b ∨ beyond (rows (pworld P)) b → S b) →
  rtc (orderly_step cfg) P P' → exclusive (rows (pworld P')) ∧ ∀ b, covered (rows (pworld P')) b → S b.
Proof.
  intros Hst Hl (n & fuel & ts & Hts & Htasks) Hr Hx HS Hsteps.
  set (debt := <[0%nat := beyond (rows (pworld P))]> (λ _, nothing) : nat → Z → Prop).
  assert (tracked (divided S) (λ _, True) (λ _, rows (pworld P)) debt P) as Hp.
  { apply (launched_tracked cfg); [done|..].
    - intros [|i]; [by rewrite Hts|]. intros _. unfold debt. by rewrite fn_lookup_insert_ne.
    - split; [split_and!; [done..|]; destruct Hl as (_ & Ht & _); by rewrite Ht|]. unfold debt. split_and!.
      + intros [|i] b; [rewrite fn_lookup_insert; apply beyond_uncovered|by rewrite fn_lookup_insert_ne].
      + intros [|i] [|j] b; rewrite ?fn_lookup_insert, ?fn_lookup_insert_ne by done; done.
      + intros b Hb. apply HS. by left.
      + intros [|i] b; [rewrite fn_lookup_insert; intros Hb; apply HS; by right|by rewrite fn_lookup_insert_ne].
    - intros [|i] p; rewrite Hts; cbn [lookup list_lookup].
      + intros [= <-]. unfold debt. rewrite fn_lookup_insert. apply loop_careful; [done|apply beyond_owned].
      + intros Hi%list_elem_of_lookup_2. destruct (Htasks p Hi) as (a & b & -> & Hb). by apply task_careful. }
  assert (∃ past' debt', tracked (divided S) (λ _, True) past' debt' P') as (past' & debt' & Hp').
  { revert Hp Hsteps. apply steps_tracked.
    - intros w d i R own c r (Hs & Hd & _) Ho. split; [split; [done|apply Hd]|by apply Is_true_true].
    - intros w d i w' D. apply divided_guar.
    - intros T p next Hk. by apply task_careful. }
  by destruct (tr_glob _ _ _ _ _ Hp') as ((Hx' & _) & _ & _ & Hc & _).
Qed.

(** C10: span proofs do not overlap.  Whatever the schedule of the main loop and
    the request goroutines, and whatever fails, a block never has two live span
    proofs, as long as no update writes the status of a request that has failed
    already. *)
Theorem orderly_schedules_exclusive cfg (P P' : pool) :
  0 <= MaxBlockRangePerSpanProof cfg < two63 → launched cfg P → one_loop cfg P →
  ranged (rows (pworld P)) → exclusive (rows (pworld P)) →
  rtc (orderly_step cfg) P P' → exclusive (rows (pworld P')).
Proof. intros Hst Hl Hone Hr Hx Hsteps. by apply (orderly_schedules cfg (λ _, True) P P'). Qed.

End owners.

(** ** A schedule *)

(** The pool of [Coverage]: the server does not answer the goroutine, which
    retries its request while the loop appends an aggregation proof. *)
Definition calm : @pool ListSql SlowExternal :=
  orderly_run (replicate 8 1%nat ++ replicate 30 0%nat ++ replicate 20 1%nat ++ replicate 90 0%nat) slow_pool.

(** The schedule of [Race]: the goroutine may not write the status that the loop
    has written. *)
Definition rushed : @pool ListSql SlowExternal :=
  orderly_run (replicate 3 1%nat ++ replicate 80 0%nat ++ replicate 20 1%nat) slow_pool.

Definition span_rows (tbl : list Row) : list (Z * Z * string) :=
  (λ r, (row_start_block r, row_end_block r, row_status r)) <$> filter (λ r, row_type r = TypeSPAN) tbl.

Lemma orderly_schedules_exclusive_witness :
  ended <$> threads calm = [true; true] ∧ span_rows (rows (pworld calm)) = [(0, 40, StatusFAILED); (0, 40, StatusUNREQ)] ∧
  exclusive (rows (pworld calm)) ∧
  ended <$> threads rushed = [true; false] ∧ pool_allowed (λ _ own c w _, orderly own c w) 1 rushed = false.
Proof.
  split; [vm_compute; reflexivity|]. split; [vm_compute; reflexivity|].
  split; [|split; vm_compute; reflexivity].
  apply (@orderly_schedules_exclusive ListSql ListSql_laws SlowExternal cfg0 slow_pool calm).
  - split; [discriminate|reflexivity].
  - exact slow_launched.
  - eexists _, _, _. split; [reflexivity|]. intros p ->%list_elem_of_singleton.
    exists slow_request, slow_request. split; [done|]. apply known_entity. by left.
  - intros r ->%list_elem_of_singleton. done.
  - by intros b r r' ->%list_elem_of_singleton ->%list_elem_of_singleton.
  - apply guarded_run_steps.
Defined.
