(* ===== verification/Restored.v ===== *)
(** * The partition is restored

    [Coverage] says that no block is dropped for good, [Overlap] that none is
    asked for twice.  Together with what is shown here, that the loop leaves no
    gap between the spans it asks for, they give the invariant of [Partition]
    back: however the goroutines interleave, when they have ended the live span
    proofs partition the blocks from the first one on. *)

From Stdlib Require Import ZArith Lia.
From stdpp Require Import relations functions.
From S2P Require Import Prelude Sql ProofRequest Metrics Encoding Prog Types Script Json Spans.
From S2P Require Import Mutation Builders Db Range Partition Steps Prove Driver Machine Stages Race Concurrent Pool.
From S2P Require Import Blocks Debts Coverage Overlap.

(** ** Span proofs, live or not *)

(** A span proof was asked for beyond [b]. *)
Definition below (tbl : list Row) (b : Z) : Prop := ∃ r, r ∈ tbl ∧ row_type r = TypeSPAN ∧ b < hi r.

(** Span proofs are over at least one block, of the database's integers. *)
Definition upright (tbl : list Row) : Prop :=
  ∀ r, r ∈ tbl → row_type r = TypeSPAN → 0 <= lo r < hi r ∧ hi r < two63.

(** The span proofs of [tbl'] are those of [tbl]. *)
Definition spans_from (tbl tbl' : list Row) : Prop :=
  ∀ r', r' ∈ tbl' → row_type r' = TypeSPAN → ∃ r, r ∈ tbl ∧ same_request r r'.

Lemma below_history T T' b : below T b → history T T' → below T' b.
Proof.
  intros (r & Hr & Ht & Hb) [_ Hh]. destruct (Hh r Hr) as (r' & Hr' & _ & Ht' & _ & He & _).
  exists r'. rewrite Ht', He. done.
Qed.

Lemma spans_from_below tbl tbl' b : spans_from tbl tbl' → below tbl' b → below tbl b.
Proof.
  intros Hf (r' & Hr' & Ht & Hb). destruct (Hf r' Hr' Ht) as (r & Hr & _ & Ht' & _ & He).
  exists r. rewrite <- Ht'. split; [done|]. split; [done|]. cbn in *. by rewrite <- He.
Qed.

Lemma spans_from_upright tbl tbl' : spans_from tbl tbl' → upright tbl → upright tbl'.
Proof.
  intros Hf Hu r' Hr' Ht. destruct (Hf r' Hr' Ht) as (r & Hr & _ & Ht' & Hl & He).
  specialize (Hu r Hr). rewrite <- Ht', Ht in Hu. cbn in *. rewrite Hl, He. auto.
Qed.

Lemma spans_from_refl tbl : spans_from tbl tbl.
Proof. intros r Hr _. by exists r. Qed.

Lemma spans_from_trans t1 t2 t3 : spans_from t1 t2 → spans_from t2 t3 → spans_from t1 t3.
Proof.
  intros H12 H23 r3 Hr3 Ht. destruct (H23 r3 Hr3 Ht) as (r2 & Hr2 & S2). pose proof S2 as (_ & Ht2 & _).
  destruct (H12 r2 Hr2 ltac:(congruence)) as (r1 & Hr1 & S1). exists r1. split; [done|].
  unfold same_request in *. intuition congruence.
Qed.

Lemma mild_change_spans ok tbl tbl' : mild_change ok tbl tbl' → spans_from tbl tbl'.
Proof.
  intros [|r Hty _|u tbl'' _ Hm Ht]; [apply spans_from_refl|..].
  - intros r' [Hr|Hr]%elem_of_app; [by apply spans_from_refl|]. by apply list_elem_of_singleton in Hr as ->.
  - apply update_rows_forall2 in Ht; [|done]. intros r' [i Hi]%list_elem_of_lookup _.
    destruct (Forall2_lookup_r _ _ _ _ _ Ht Hi) as (r & Hr & Hx). exists r. split; [by eapply list_elem_of_lookup_2|].
    destruct (touched u r); [by destruct Hx|by subst].
Qed.

Lemma marked_spans T id n : spans_from T (at_id id (mark StatusFAILED n) T).
Proof.
  intros r' (r & -> & Hr)%list_elem_of_fmap _. exists r. split; [done|]. case_decide; [apply same_mark|done].
Qed.

(** No request ends beyond the span proofs. *)
Definition within (tbl : list Row) : bool :=
  forallb (λ r, existsb (λ r', bool_decide (row_type r' = TypeSPAN) && (row_end_block r <=? row_end_block r')) tbl) tbl.

Lemma within_span tbl r :
  within tbl → r ∈ tbl → ∃ r', r' ∈ tbl ∧ row_type r' = TypeSPAN ∧ row_end_block r <= row_end_block r'.
Proof.
  intros Hw%Is_true_true Hr. unfold within in Hw. rewrite forallb_forall in Hw. apply list_elem_of_In, Hw in Hr.
  apply existsb_exists in Hr as (r' & Hr' & [Ht%bool_decide_eq_true Hle]%andb_true_iff). exists r'.
  split; [by apply list_elem_of_In|]. split; [done|lia].
Qed.

(** ** The ledger *)

Section filling.
Context `{SqlLaws, External}.
Implicit Types (w : World) (T : list Row) (D : Z → Prop) (cfg : ProposerConfig).

Definition solid w : Prop :=
  copied w ∧ upright (rows w) ∧ ∀ st, w_tx w = Some st → spans_from (rows w) (sg_rows st).

(** Blocks that were not below the span proofs and now are, are covered or the
    goroutine's own. *)
Definition fills w D w' D' : Prop :=
  pays w D w' D' ∧ solid w' ∧ ∀ b, below (rows w') b → below (rows w) b ∨ covered (rows w') b ∨ D' b.

Lemma change_fills ok w w' D : world_change ok w w' → solid w → fills w D w' D.
Proof.
  intros Hch (Hc & Hu & Hs). pose proof (change_pays _ _ _ D Hch Hc) as Hp. pose proof Hp as [_ Hc'].
  assert (spans_from (rows w) (rows w') ∧ ∀ st, w_tx w' = Some st → spans_from (rows w') (sg_rows st)) as [Hf Hs'].
  { destruct Hch as [Hr Ht|_ Ht Hm|s _ Ht Es Hr|s s' Ht Ht' Hr Hm|s Ht Ht' Hr]; rewrite ?Ht, ?Ht'.
    - rewrite Hr. split; [apply spans_from_refl|done].
    - split; [by eapply mild_change_spans|done].
    - rewrite Hr. split; [apply spans_from_refl|]. intros ? [= <-]. rewrite Es. apply spans_from_refl.
    - rewrite Hr. split; [apply spans_from_refl|]. intros ? [= <-].
      eapply spans_from_trans; [by apply Hs|by eapply mild_change_spans].
    - split; [|done]. destruct Hr as [-> | ->]; [apply spans_from_refl|by apply Hs]. }
  split; [done|]. split; [split_and!; [done|by eapply spans_from_upright|done]|].
  intros b Hb. left. by eapply spans_from_below.
Qed.

#[local] Program Instance filling : Ledger := {|
  rely R own c w r D := solid w ∧ served c r ∧ within (rows w);
  guar := fills;
|}.
Next Obligation. intros R own c w r w' D Hh (Hs & _) [Hw _]%harmless_change; [by eapply change_fills|done]. Qed.
Next Obligation. intros R own c w r w' D (Hs & _) Hr Ht. eapply (change_fills (λ _ _, True)); [by apply change_none|done]. Qed.

(** A span proof over blocks that are owed, from below the end of the others on. *)
Lemma fills_NewEntry T D D' s e :
  0 <= s → 0 <= e → (s < two63 → s < e) → (∀ b, D b → blocks s e b ∨ D' b) → (∀ b, b < s → below T b) →
  careful T D (NewEntry TypeSPAN s e) (λ o T' D'',
    o = Ok tt ∧ D'' = D' ∧ s < two63 ∧ e < two63 ∧ ∀ b, b < e → below T' b).
Proof.
  intros H0s H0e Hse HD Hb. apply careful_insert.
  - intros n own spec w id w' HT [(Hc & Hu & _) _] Hs He Ht Ht' E. set (new := new_row id TypeSPAN s e n) in *.
    assert (∀ b, blocks s e b → covers b new) as Hnew.
    { intros b Hx. unfold covers, live_span, is_i63, blocks in *. cbn. split_and!; done || lia. }
    assert (new ∈ rows w') as Hin by (rewrite E; apply elem_of_app; right; by left).
    exists D'. split; [split_and!|]; [split|split_and!| |]; try (intros st; by rewrite Ht').
    + intros b [Hx|[Hx|Hx]%HD]; [left; rewrite E; by apply no_less_app|left; exists new; auto|by right].
    + rewrite E. intros r [Hr|Hr]%elem_of_app; [by apply Hu|]. apply list_elem_of_singleton in Hr as ->.
      cbn. intros _. specialize (Hse Hs). lia.
    + intros b (r & Hr & Hty & Hx). rewrite E in Hr. apply elem_of_app in Hr as [Hr|Hr]; [left; by exists r|].
      apply list_elem_of_singleton in Hr as ->. cbn in Hx. destruct (Z.lt_ge_cases b s) as [Hlt|Hge].
      * left. by eapply below_history; [apply Hb|].
      * right; left. exists new. split; [done|]. by apply Hnew.
    + split_and!; [done..|]. intros b Hx. by exists new.
  - by intros own spec w e' err T' _ (_ & Hs & _).
Qed.

(** *** Retries *)

(** The range of a request that was read lies below the end of the span proofs. *)
Definition placed (req : ProofRequest) T : Prop :=
  pr_Type req = TypeSPAN →
  0 <= pr_StartBlock req < pr_EndBlock req ∧ pr_EndBlock req < two63 ∧ ∀ b, b < pr_EndBlock req → below T b.

Lemma known_placed T req : upright T → known T req → placed req T.
Proof.
  intros Hu (x & Hx & _ & Hty & Hs & He) Ht. rewrite <- Hty in Ht. destruct (Hu x Hx Ht) as [Hr Hlt].
  rewrite Hs, He, !u64_i63 by (unfold is_i63; lia). split; [done|]. split; [done|]. intros b Hb. by exists x.
Qed.

Lemma placed_history req T T' : placed req T → history T T' → placed req T'.
Proof.
  intros Hp Hh Ht. destruct (Hp Ht) as (? & ? & Hb). split; [done|]. split; [done|].
  intros b Hx. eapply below_history; eauto.
Qed.

Lemma fills_fail T req :
  known T req →
  careful T nothing (UpdateProofStatus (pr_ID req) StatusFAILED)
    (λ o T' D, match o with Ok _ => D = owed req ∧ placed req T' | _ => D = nothing end).
Proof.
  intros Hk. apply careful_mark; [|done]. intros n own u w m w' HT Hh Hnd [(Hc & Hu & _) _] _ _ Ht Ht' E.
  assert (known (rows w) req) as Hkw by (by eapply known_history). exists (owed req).
  assert (spans_from (rows w) (rows w')) as Hf by (rewrite E; apply marked_spans).
  split; [split_and!|]; [split|split_and!| |]; try (intros st; by rewrite Ht').
  - rewrite E. intros b [Hb|[]]. by apply covered_failed.
  - by eapply spans_from_upright.
  - intros b Hb. left. by eapply spans_from_below.
  - split; [done|]. eapply placed_history; [by apply known_placed|done].
Qed.

Lemma fills_retry_ranges T req st prev :
  placed req T →
  careful T (owed req) (for_each (retry_ranges req st prev) (λ r, NewEntry (pr_Type req) (fst r) (snd r)))
    (λ o _ D, D = nothing).
Proof.
  intros Hp. unfold owed. case_bool_decide as Hty.
  2: { apply careful_harmless; [|done]. apply harmless_for_each. intros r. by apply harmless_NewEntry. }
  destruct (Hp Hty) as (Hse & He & Hb). rewrite Hty.
  assert (∀ T D a b, 0 <= a < b → (∀ x, D x → blocks a b x) → (∀ x, x < a → below T x) →
    careful T D (_ ← NewEntry TypeSPAN a b; Ret tt) (λ o _ D', D' = nothing)) as Hlast.
  { intros T' D a b Hab HD Hx. apply careful_bind.
    eapply careful_mono; [|apply (fills_NewEntry _ _ nothing); try lia; [by auto|done]]. by intros ? ? ? (-> & -> & _). }
  unfold retry_ranges. set (mid := add64 (pr_StartBlock req) (pr_EndBlock req) / 2).
  destruct (_ && _) eqn:Hsplit; cbn [for_each fst snd]; [|apply Hlast; [done..|intros; apply Hb; lia]].
  apply andb_true_iff in Hsplit as [_ Hm%Z.ltb_lt].
  rewrite sub64_small in Hm by (unfold two63, two64 in *; lia).
  assert (mid = (pr_StartBlock req + pr_EndBlock req) / 2) as Hmid.
  { unfold mid. rewrite add64_small; [done|]. unfold two63, two64 in *. lia. }
  pose proof (Z.div_mod (pr_StartBlock req + pr_EndBlock req) 2 ltac:(lia)) as Hdm.
  pose proof (Z.mod_pos_bound (pr_StartBlock req + pr_EndBlock req) 2 ltac:(lia)) as Hmb. rewrite <- Hmid in Hdm.
  apply careful_bind. eapply careful_mono; [|apply (fills_NewEntry _ _ (blocks mid (pr_EndBlock req)))].
  - intros ? T1 ? (-> & -> & _ & _ & Hb'). cbn [and_then]. apply Hlast; [lia|done|exact Hb'].
  - lia.
  - lia.
  - lia.
  - unfold blocks. lia.
  - intros b Hx. apply Hb. lia.
Qed.

Lemma fills_RetryRequest T req st : known T req → careful T nothing (RetryRequest req st) (λ _ _ D, D = nothing).
Proof.
  intros Hk. unfold RetryRequest. apply careful_bind. eapply careful_mono; [|by apply fills_fail].
  intros [[]|e|m| |] T1 D; cbn [and_then]; try done. intros [-> Hp]. apply careful_bind.
  unfold GetProofRequestsWithBlockRangeAndStatus. apply careful_map_err.
  apply careful_all; [done..| |by intros own w e T' _ (_ & [] & _)]. intros prev T2 HT _. cbn [and_then].
  by apply fills_retry_ranges; eapply placed_history.
Qed.

(** *** The first stage *)

Definition queued T D : Prop := D = nothing ∧ ∃ r, r ∈ T ∧ row_type r = TypeSPAN.

Lemma queued_history T T' D : queued T D → history T T' → queued T' D.
Proof.
  intros [-> (r & Hr & Ht)] [_ Hh]. split; [done|]. destruct (Hh r Hr) as (r' & Hr' & _ & Ht' & _).
  exists r'. by rewrite Ht'.
Qed.

(** The greatest end of the table is that of a span proof. *)
Lemma fills_GetLatestEndBlock T D :
  queued T D →
  careful T D GetLatestEndBlock (λ o T' D', D' = D ∧
    match o with
    | Ok a => 0 <= a ∧ ∀ b, b < a → below T' b
    | Fail e => IsNotFound e = false
    | _ => True
    end).
Proof.
  intros Hq. unfold GetLatestEndBlock. apply careful_bind, careful_map_err. unfold prq_First. apply careful_bind.
  unfold prq_All, prq_prepareQuery, prq_sqlAll. apply careful_bind. cbn -[db]. apply careful_bind.
  apply careful_do; [done|]. intros own w r w' HT He ((_ & Hu & _) & Hsv & Hw).
  rewrite exec_local_plain in He by done. cbn in He.
  destruct r as [e|cells]; [done|]. destruct (w_ropen w); [|done]. destruct (sg_query _ (w_db w)) as [r' s'] eqn:E.
  injection He as -> <-. rewrite rows_with_db in *.
  apply sg_query_ok in E as [Es (l & (full & Hp & Hs & ->) & ->)]; [|done]. rewrite Es in *.
  change (filter _ _) with (matching [] (rows w)) in Hp. rewrite matching_nil in Hp. change (sg_rows (w_db w)) with (rows w) in *.
  apply (sorted_desc _ _ _ int_col_end) in Hs. unfold page. cbn -[select_cols].
  change (prq_columns _) with [FieldID; FieldEndBlock]. change (Pos.to_nat 1) with 1%nat. rewrite drop_0.
  rewrite scan_nodes_end_block. apply (queued_history _ (rows w)) in Hq as [-> (y & Hy & Hty)]; [|done].
  destruct full as [|x full]; cbn.
  { apply Permutation_nil_l in Hp. rewrite <- Hp in Hy. by apply elem_of_nil in Hy. }
  assert (x ∈ rows w) as Hx by (rewrite <- Hp; by left). destruct (Hu y Hy Hty) as [Hyr _].
  destruct (within_span _ _ Hw Hx) as (z & Hz & Htz & Hle). destruct (Hu z Hz Htz) as [_ Hzl]. cbn in Hyr, Hzl.
  rewrite <- Hp in Hy. apply (sorted_head_min _ _ _ Hs) in Hy. cbv beta in Hy.
  split; [done|]. change (pr_EndBlock (end_block_entity x)) with (u64 (row_end_block x)).
  rewrite (u64_i63 (row_end_block x)), u64_i63 by (unfold is_i63; lia). split; [lia|]. intros b Hb. exists z. cbn.
  split; [done|]. split; [done|lia].
Qed.

Lemma fills_latest_l2_end_block T D :
  queued T D →
  careful T D latest_l2_end_block (λ o T' D', D' = D ∧ match o with Ok a => 0 <= a ∧ ∀ b, b < a → below T' b | _ => True end).
Proof.
  intros Hq. unfold latest_l2_end_block. apply careful_bind, careful_attempt.
  eapply careful_mono; [|by apply fills_GetLatestEndBlock]. intros [a|e|m| |] T1 D1 [-> Ho]; cbn [and_then]; try done.
  by rewrite Ho.
Qed.

(** Each span starts where the last one ended. *)
Lemma fills_spans fuel step end_ i l T D :
  0 < step < two63 → 0 <= i → split_loop fuel step end_ i = Some l →
  (∀ b, b < i → below T b) → D = nothing →
  careful T D (for_each l (λ span, NewEntry TypeSPAN (Start span) (End span))) (λ _ _ D', D' = nothing).
Proof.
  intros Hst. revert i l T D. induction fuel as [|fuel IH]; intros i l T D Hi Hl Hb ->; cbn [split_loop] in Hl.
  { destruct (_ <=? _); [done|]. by injection Hl as <-. }
  destruct (_ <=? _); [|by injection Hl as <-]. apply fmap_Some in Hl as (l' & Hl & ->). cbn [for_each Start End].
  assert (i < two63 → add64 i step = i + step) as Ha.
  { intros Hlt. rewrite add64_small; [done|]. unfold two63, two64 in *. lia. }
  apply careful_bind. eapply careful_mono; [|apply (fills_NewEntry T nothing nothing i (add64 i step))].
  - intros ? T1 ? (-> & -> & _ & _ & Hb'). cbn [and_then]. eapply IH; [|exact Hl|exact Hb'|done]. apply u64_range.
  - done.
  - apply u64_range.
  - intros Hlt. rewrite Ha by done. lia.
  - by left.
  - done.
Qed.

Lemma fills_GetRangeProofBoundaries cfg T :
  0 < MaxBlockRangePerSpanProof cfg < two63 → prudent queued T (GetRangeProofBoundaries cfg) (λ _ _, True).
Proof.
  intros Hst D HD. enough (careful T D (GetRangeProofBoundaries cfg) (λ _ _ D', D' = nothing)) as Hc.
  { eapply careful_mono; [|by apply careful_history, Hc]. intros o T' D' [HT ->]. split; [|by destruct o].
    destruct HD as [_ Hr]. apply (queued_history T); [by split|done]. }
  pose proof HD as [-> _]. unfold GetRangeProofBoundaries. apply careful_bind.
  eapply careful_mono; [|by apply fills_latest_l2_end_block].
  intros [a|e|m| |] T1 D1 (-> & Ho); cbn [and_then]; try done. destruct Ho as [Ha Hb].
  apply careful_bind, careful_harmless; [by apply harmless_bind; [|intros; apply harmless_lift_err]|].
  intros [u|e|m| |] T2 HT2; cbn [and_then]; try done.
  apply careful_bind, careful_harmless; [by apply harmless_bind; [|intros; apply harmless_lift]|].
  intros [st|e|m| |] T3 HT3; cbn [and_then]; try done.
  destruct (SplitRangeBasic _ _ _) as [spans|] eqn:Hs; [|done].
  eapply fills_spans; [exact Hst|exact Ha|exact Hs| |done].
  intros b Hx. do 2 (eapply below_history; [|done]). auto.
Qed.

(** *** Goroutines *)

Lemma task_fills T cfg p next : known T next → careful T nothing (request_task cfg p next) (λ _ _ D, D = nothing).
Proof.
  intros Hk. assert (prudent (λ _ D, D = nothing) T (request_task cfg p next) (λ _ _, True)) as Hp.
  { apply prudent_request_task; [done| |done]. intros T' req st Hk' D' ->.
    eapply careful_mono; [|by apply fills_RetryRequest]. by intros []. }
  eapply careful_mono; [|by apply Hp]. by intros o T' D [? _].
Qed.

Lemma loop_fills T n fuel cfg :
  0 < MaxBlockRangePerSpanProof cfg < two63 → queued T nothing →
  careful T nothing (loop n fuel cfg) (λ _ _ D, D = nothing).
Proof.
  intros Hst Hq. assert (prudent queued T (loop n fuel cfg) (λ _ _, True)) as Hp.
  { apply prudent_loop; [apply queued_history| |].
    - intros T' req st Hk' D' [-> Hr]. eapply careful_mono; [|by apply careful_history, fills_RetryRequest].
      intros o T1 D1 [HT ->]. split; [|by destruct o]. by apply (queued_history T').
    - intros T'. by apply fills_GetRangeProofBoundaries. }
  eapply careful_mono; [|by apply Hp]. by intros o T' D [[? _] _].
Qed.

(** ** Any schedule *)

(** Steps in which no update writes the status of a failed request, the database
    serves the command, and no request ends beyond the span proofs. *)
Definition sound (own : bool) {R} (c : cmd R) w (r : R) : bool := orderly own c w && served c r && within (rows w).
Definition sound_step cfg : relation pool := guarded_step (λ _ own c w r, sound own c w r) cfg.
Definition sound_run : list nat → pool → pool := guarded_run (λ _ own c w r, sound own c w r).

(** From block [s] on, up to [e] and below the span proofs, every block is
    covered, or owed by somebody. *)
Definition filled (s e : Z) w (debt : nat → Z → Prop) : Prop :=
  solid w ∧ ∀ b, s <= b → b < e ∨ below (rows w) b → covered (rows w) b ∨ ∃ i, debt i b.

Lemma filled_guar s e w debt i w' D : filled s e w debt → fills w (debt i) w' D → filled s e w' (<[i := D]> debt).
Proof.
  intros [_ Hf] ([Hp _] & Hs' & Hnew). split; [done|]. intros b Hb Hx.
  assert (∀ x, covered (rows w') x ∨ D x → covered (rows w') x ∨ ∃ j, <[i := D]> debt j x) as Hi.
  { intros x [Hc|Hd]; [by left|right]. exists i. by rewrite fn_lookup_insert. }
  assert (b < e ∨ below (rows w) b → covered (rows w') b ∨ ∃ j, <[i := D]> debt j b) as Hold.
  { intros Hy. destruct (Hf b Hb Hy) as [Hc|[j Hj]]; [by apply Hi, Hp; left|].
    destruct (decide (j = i)) as [->|Hne]; [by apply Hi, Hp; right|]. right. exists j. by rewrite fn_lookup_insert_ne. }
  destruct Hx as [Hx|[Hx|Hx]%Hnew]; [by apply Hold; left|by apply Hold; right|by apply Hi].
Qed.

(** When the goroutines have ended, no block below the span proofs is uncovered. *)
Lemma sound_schedules s e cfg (P P' : pool) :
  0 < MaxBlockRangePerSpanProof cfg < two63 → launched cfg P → queued (rows (pworld P)) nothing →
  filled s e (pworld P) (λ _, nothing) → rtc (sound_step cfg) P P' → (∀ p, p ∈ threads P' → ended p = true) →
  solid (pworld P') ∧ NoDup (row_id <$> rows (pworld P')) ∧
  ∀ b, s <= b → b < e ∨ below (rows (pworld P')) b → covered (rows (pworld P')) b.
Proof.
  intros Hst Hl Hq Hf Hsteps Hend.
  assert (tracked (filled s e) (λ D, D = nothing) (λ _, rows (pworld P)) (λ _, nothing) P) as Hp.
  { apply (launched_tracked cfg); [done..|]. intros i p Hi%list_elem_of_lookup_2. destruct Hl as (_ & _ & _ & _ & Hp).
    destruct (Hp p Hi) as [(n & fuel & ->)|(x & y & -> & Hy)]; [by apply loop_fills|by apply task_fills]. }
  assert (∃ past' debt', tracked (filled s e) (λ D, D = nothing) past' debt' P') as (past' & debt' & Hp').
  { revert Hp Hsteps. apply steps_tracked.
    - intros w d i R own c r [Hs _] [[_ Hsv]%andb_true_iff Hw]%andb_true_iff. split; [done|]. by rewrite Hsv, Hw.
    - intros w d i w' D. apply filled_guar.
    - intros T p next. apply task_fills. }
  destruct (tr_glob _ _ _ _ _ Hp') as [Hs Hall]. split; [done|]. split; [exact (tr_ids _ _ _ _ _ Hp')|]. intros b Hb Hx.
  destruct (Hall b Hb Hx) as [Hc|[i Hd]]; [done|].
  destruct (ended_last _ _ _ _ _ i Hp' Hend) as [Hy|Hy]; by rewrite Hy in Hd.
Qed.

(** *** The partition *)

(** The covered blocks are those of the live span proofs. *)
Lemma covered_live tbl b :
  upright tbl → covered tbl b ↔ ∃ r, r ∈ filter live_span tbl ∧ lo r <= b < hi r.
Proof.
  intros Hu. split.
  - intros (r & Hr & Hl & _ & _ & Hb). exists r. by rewrite list_elem_of_filter.
  - intros (r & [Hl Hr]%list_elem_of_filter & Hb). exists r. split; [done|]. destruct Hl as [Hty Hst].
    destruct (Hu r Hr Hty). unfold covers, live_span, is_i63. split_and!; done || lia.
Qed.

Lemma table_inv_upright s e tbl : table_inv s e tbl → upright tbl.
Proof.
  intros [[[Hok _] Hlt] _] r Hr Hty. specialize (Hlt r Hr Hty).
  pose proof (proj1 (Forall_forall _ _) Hok r Hr) as (_ & Hl & Hh). unfold is_i63 in *. cbn in *. lia.
Qed.

Lemma table_inv_covered s e tbl b : table_inv s e tbl → covered tbl b ↔ s <= b < e.
Proof.
  intros Hinv. rewrite covered_live by by eapply table_inv_upright. destruct Hinv as [_ [Ht _ _]]. split.
  - intros (r & Hr & Hb). pose proof (tiles_bounds _ _ _ _ Ht Hr). lia.
  - destruct Ht as (l & Hp & Hc). intros Hb. destruct (chain_point _ _ _ _ Hc Hb) as (r & Hr & Hx).
    exists r. by rewrite <- Hp.
Qed.

Lemma table_inv_exclusive s e tbl : table_inv s e tbl → exclusive tbl.
Proof.
  intros [_ [(l & Hp & Hc) _ _]] b r r' Hr Hr' (Hl & _ & _ & Hb) (Hl' & _ & _ & Hb').
  assert (r ∈ l ∧ r' ∈ l) as [Hi Hi'] by by rewrite Hp, !list_elem_of_filter.
  destruct (chain_disjoint _ _ _ _ _ Hc Hi Hi') as [->|Hd]; [done|lia].
Qed.

Lemma table_inv_ranged s e tbl : table_inv s e tbl → ranged tbl.
Proof.
  intros [[[Hok _] _] _] r Hr. pose proof (proj1 (Forall_forall _ _) Hok r Hr) as (_ & Hl & Hh).
  split; [apply Hh|by intros _].
Qed.

(** A table in which every block in [s, e) is covered, and covered once. *)
Lemma covered_tiles s e tbl :
  upright tbl → exclusive tbl → NoDup (row_id <$> tbl) → s <= e → (∀ b, covered tbl b ↔ s <= b < e) →
  tiles s e (filter live_span tbl).
Proof.
  intros Hu Hx Hnd Hse Hc.
  assert (∀ r, r ∈ filter live_span tbl → r ∈ tbl ∧ row_type r = TypeSPAN) as Hin
    by (intros r [[? _] ?]%list_elem_of_filter; done).
  apply cover_tiles; [apply NoDup_filter; by eapply NoDup_fmap_1| | |done|].
  - intros r [Hr Hty]%Hin. destruct (Hu r Hr Hty). lia.
  - intros r r' b Hr Hr' Hb Hb'. eapply ids_inj; [exact Hnd|by apply Hin..|].
    assert (∀ x, x ∈ filter live_span tbl → lo x <= b < hi x → covers b x) as Hcov.
    { intros x [Hl Hxt]%list_elem_of_filter Hxb. pose proof Hl as [Hty _]. destruct (Hu x Hxt Hty).
      unfold covers, is_i63. split_and!; done || lia. }
    apply (Hx b); first [by apply Hin|by apply Hcov].
  - intros b. by rewrite <- covered_live.
Qed.

(** C4: the partition is restored.  Whatever the schedule of the main loop and
    the request goroutines, as long as no update writes the status of a request
    that has failed already, the database serves insertions and queries, and no
    aggregation proof ends beyond the span proofs: from a table whose blocks are
    partitioned into live span proofs, when the goroutines have ended they are
    partitioned again, up to the end of the last span proof. *)
Theorem partition_restored cfg (P P' : pool) s e :
  0 < MaxBlockRangePerSpanProof cfg < two63 → launched cfg P → one_loop cfg P →
  table_inv s e (rows (pworld P)) → s < e →
  rtc (sound_step cfg) P P' → (∀ p, p ∈ threads P' → ended p = true) →
  ∃ e', e <= e' ∧ tiles s e' (filter live_span (rows (pworld P'))) ∧
        ∀ r, r ∈ rows (pworld P') → row_type r = TypeSPAN → hi r <= e'.
Proof.
  intros Hst Hl Hone Hinv Hse Hsteps Hend. set (tbl := rows (pworld P)) in *. set (tbl' := rows (pworld P')).
  pose proof (table_inv_upright _ _ _ Hinv) as Hu. pose proof (λ b, table_inv_covered s e tbl b Hinv) as Hcov.
  destruct (proj2 (Hcov s) ltac:(lia)) as (r0 & Hr0 & (Hty0 & _) & _ & _ & Hb0).
  assert (exclusive tbl' ∧ ∀ b, covered tbl' b → s <= b) as [Hx Hs].
  { apply (orderly_schedules cfg (λ b, s <= b) P P'); [lia|done|done|by eapply table_inv_ranged|by eapply table_inv_exclusive| |].
    - intros b [Hb%Hcov|Hb]; [lia|]. pose proof (Hb r0 Hr0) as Hle. cbn in *. lia.
    - revert Hsteps. apply guarded_steps_mono. intros R own c w r [[Ho _]%andb_true_iff _]%andb_true_iff. done. }
  destruct (sound_schedules s e cfg P P') as ((_ & Hu' & _) & Hnd & Hall); [done..| | |done|done|].
  { split; [done|]. by exists r0. }
  { destruct Hl as (_ & Ht & _). split; [split_and!; [|done|]; intros st; by rewrite Ht|].
    intros b Hb Hx'. left. apply Hcov. split; [done|]. destruct Hx' as [|(r & Hr & _ & Hlt)]; [done|].
    destruct Hinv as [_ [_ Hlast _]]. specialize (Hlast r Hr). cbn in Hlt. lia. }
  destruct (latest_row (filter (λ r, row_type r = TypeSPAN) tbl')) as [Hnil|(m & Hm & Hmax)].
  { exfalso. destruct (Hall s ltac:(lia) ltac:(by left)) as (r & Hr & (Hty & _) & _).
    assert (r ∈ filter (λ r, row_type r = TypeSPAN) tbl') as Hf by by rewrite list_elem_of_filter.
    rewrite Hnil in Hf. by apply elem_of_nil in Hf. }
  apply list_elem_of_filter in Hm as [Hmt Hm]. exists (row_end_block m).
  assert (∀ r, r ∈ tbl' → row_type r = TypeSPAN → hi r <= row_end_block m) as Hbound.
  { intros r Hr Hty. apply Hmax. by rewrite list_elem_of_filter. }
  assert (∀ b, covered tbl' b → b < row_end_block m) as Hlt.
  { intros b (r & Hr & (Hty & _) & _ & _ & Hb). specialize (Hbound r Hr Hty). lia. }
  assert (e <= row_end_block m) as Hle.
  { enough (e - 1 < row_end_block m) by lia. apply Hlt, Hall; lia. }
  split; [done|]. split; [|done]. apply covered_tiles; [done..|lia|]. intros b. split.
  - intros Hb. split; [by apply Hs|by apply Hlt].
  - intros [Hb1 Hb2]. apply Hall; [done|]. right. by exists m.
Qed.
End filling.

(** ** A schedule *)

(** The outside of [Race], with blocks to prove: the finalized head is 130. *)
Definition far_exec {R} (c : ExtCmd R) (now : Z) : R * Z :=
  match c in ExtCmd R return R * Z with
  | ESyncStatus => (inr (mkSyncStatus 0 130 130 130), now)
  | ENextBlockNumber => (inr 100, now)
  | c => slow_exec c now
  end.

Definition FarExternal : External := {|
  ext := Z;
  ext_exec := @far_exec;
  ext_select now := (true, now);
  Address_Hex _ := ""%string;
  url_valid _ := true;
  abi_Pack _ _ _ := inr [];
|}.

Definition far_pool : @pool ListSql FarExternal :=
  mkPool [loop (H := FarExternal) 1 1 cfg0; request_task (H := FarExternal) cfg0 slow_request slow_request]
    None (@mkWorld ListSql FarExternal (mkListStore queue []) true true None t0 NoopMetrics driver0 [] []).

(** The goroutine has failed its request when the loop moves: the loop asks for
    the blocks after it, and sees none before them; then the goroutine goes on. *)
Definition torn : @pool ListSql FarExternal := sound_run (replicate 6 1%nat ++ replicate 30 0%nat) far_pool.
Definition mended : @pool ListSql FarExternal := sound_run (replicate 20 1%nat) torn.

Lemma far_launched : launched cfg0 far_pool.
Proof.
  split; [done|]. split; [done|]. split; [by apply NoDup_singleton|]. split; [by intros t ?%not_elem_of_nil|].
  intros p Hp. apply elem_of_cons in Hp as [->|Hp]; [left; by eexists _, _|].
  apply elem_of_cons in Hp as [->|Hp]; [|by apply not_elem_of_nil in Hp].
  right. exists slow_request, slow_request. split; [done|]. apply known_entity. by left.
Qed.

Lemma partition_restored_witness :
  span_rows (rows (pworld torn)) = [(0, 40, StatusFAILED); (40, 80, StatusUNREQ); (80, 120, StatusUNREQ)] ∧
  ended <$> threads mended = [true; true] ∧
  span_rows (rows (pworld mended)) =
    [(0, 40, StatusFAILED); (40, 80, StatusUNREQ); (80, 120, StatusUNREQ); (0, 40, StatusUNREQ)] ∧
  ∃ e, 40 <= e ∧ tiles 0 e (filter live_span (rows (pworld mended))).
Proof.
  split; [vm_compute; reflexivity|]. split; [vm_compute; reflexivity|]. split; [vm_compute; reflexivity|].
  destruct (@partition_restored ListSql ListSql_laws FarExternal cfg0 far_pool mended 0 40) as (e & He & Ht & _).
  - split; [reflexivity|reflexivity].
  - exact far_launched.
  - eexists _, _, _. split; [reflexivity|]. intros p ->%list_elem_of_singleton.
    exists slow_request, slow_request. split; [done|]. apply known_entity. by left.
  - by apply table_invb_sound.
  - reflexivity.
  - transitivity torn; apply guarded_run_steps.
  - intros p Hp. assert (Forall (λ p, ended p = true) (threads mended)) as Hall by (vm_compute; repeat constructor).
    by apply (proj1 (Forall_forall _ _) Hall).
  - by exists e.
Defined.
