(* ===== verification/Flags.v ===== *)
(** * The command line ([flags/flags.go])

    The flags of the proposer with their defaults and environment variables
    (the usage texts are left out), and the check for the required ones.  What
    [urfave/cli] and [op-service] do is the class [CliLib]. *)

From S2P Require Import Prelude.

Local Open Scope string_scope.
Local Open Scope Z_scope.

(** The value of a flag; a duration is in nanoseconds. *)
Inductive FlagValue :=
| FString (s : string)
| FUint64 (z : Z)
| FDuration (z : Z)
| FBool (b : bool).

Record Flag := mkFlag {
  Name : string;
  FlagDefault : FlagValue;
  EnvVars : list string;
}.

(** A parsed command line, and the flags and configurations of [op-service]. *)
Class CliLib := {
  cli_Context : Type;
  IsSet : cli_Context → string → bool;
  ctx_String : cli_Context → string → string;
  ctx_Uint64 : cli_Context → string → Z;
  ctx_Duration : cli_Context → string → Z;
  ctx_Bool : cli_Context → string → bool;
  PrefixEnvVar : string → string → list string;
  L2OutputHDPathFlag : Flag;
  oprpc_CLIFlags : string → list Flag;
  oplog_CLIFlags : string → list Flag;
  opmetrics_CLIFlags : string → list Flag;
  oppprof_CLIFlags : string → list Flag;
  txmgr_CLIFlags : string → list Flag;
}.

Definition EnvVarPrefix : string := "OP_PROPOSER".
Definition secs (n : Z) : Z := n * 1000000000.

Section flags.
Context `{CliLib}.

Definition prefixEnvVars (name : string) : list string := PrefixEnvVar EnvVarPrefix name.

(** The zero value of a string flag is the empty string. *)
Definition L1EthRpcFlag := mkFlag "l1-eth-rpc" (FString "") (prefixEnvVars "L1_RPC").
Definition RollupRpcFlag := mkFlag "rollup-rpc" (FString "") (prefixEnvVars "L2_NODE_RPC").
Definition BeaconRpcFlag := mkFlag "beacon-rpc" (FString "") (prefixEnvVars "L1_BEACON_RPC").

Definition L2OOAddressFlag := mkFlag "l2oo-address" (FString "") (prefixEnvVars "L2OO_ADDRESS").
Definition DGFAddressFlag := mkFlag "dgf-address" (FString "") (prefixEnvVars "DGF_ADDRESS").
Definition PollIntervalFlag := mkFlag "poll-interval" (FDuration (secs 12)) (prefixEnvVars "POLL_INTERVAL").
Definition AllowNonFinalizedFlag :=
  mkFlag "allow-non-finalized" (FBool false) (prefixEnvVars "ALLOW_NON_FINALIZED").
Definition ActiveSequencerCheckDurationFlag :=
  mkFlag "active-sequencer-check-duration" (FDuration (secs 120))
    (prefixEnvVars "ACTIVE_SEQUENCER_CHECK_DURATION").
Definition WaitNodeSyncFlag := mkFlag "wait-node-sync" (FBool false) (prefixEnvVars "WAIT_NODE_SYNC").
Definition DbPathFlag := mkFlag "db-path" (FString "./op-proposer") (prefixEnvVars "DB_PATH").
Definition UseCachedDbFlag := mkFlag "use-cached-db" (FBool false) (prefixEnvVars "USE_CACHED_DB").
Definition MaxBlockRangePerSpanProofFlag :=
  mkFlag "max-block-range-per-span-proof" (FUint64 50) (prefixEnvVars "MAX_BLOCK_RANGE_PER_SPAN_PROOF").
Definition MaxConcurrentWitnessGenFlag :=
  mkFlag "max-concurrent-witness-gen" (FUint64 5) (prefixEnvVars "MAX_CONCURRENT_WITNESS_GEN").
Definition WitnessGenTimeoutFlag :=
  mkFlag "witness-gen-timeout" (FUint64 (20 * 60)) (prefixEnvVars "WITNESS_GEN_TIMEOUT").
Definition ProofTimeoutFlag := mkFlag "proof-timeout" (FUint64 14400) (prefixEnvVars "MAX_PROOF_TIME").
Definition OPSuccinctServerUrlFlag :=
  mkFlag "op-succinct-server-url" (FString "http://127.0.0.1:3000") (prefixEnvVars "OP_SUCCINCT_SERVER_URL").
Definition MaxConcurrentProofRequestsFlag :=
  mkFlag "max-concurrent-proof-requests" (FUint64 20) (prefixEnvVars "MAX_CONCURRENT_PROOF_REQUESTS").
Definition MockFlag := mkFlag "mock" (FBool false) (prefixEnvVars "OP_SUCCINCT_MOCK").

Definition requiredFlags : list Flag := [L1EthRpcFlag; RollupRpcFlag; BeaconRpcFlag].

(** With the flags [init] appends. *)
Definition optionalFlags : list Flag :=
  [L2OOAddressFlag; DGFAddressFlag; PollIntervalFlag; AllowNonFinalizedFlag; L2OutputHDPathFlag;
   ActiveSequencerCheckDurationFlag; WaitNodeSyncFlag; DbPathFlag; UseCachedDbFlag;
   MaxBlockRangePerSpanProofFlag; MaxConcurrentWitnessGenFlag; OPSuccinctServerUrlFlag; ProofTimeoutFlag;
   MaxConcurrentProofRequestsFlag; MockFlag; WitnessGenTimeoutFlag]
  ++ oprpc_CLIFlags EnvVarPrefix ++ oplog_CLIFlags EnvVarPrefix ++ opmetrics_CLIFlags EnvVarPrefix
  ++ oppprof_CLIFlags EnvVarPrefix ++ txmgr_CLIFlags EnvVarPrefix.

Definition AllFlags : list Flag := requiredFlags ++ optionalFlags.

(** The first required flag that is not set. *)
Fixpoint check_set (ctx : cli_Context) (l : list Flag) : option error :=
  match l with
  | [] => None
  | f :: l' => if IsSet ctx (Name f) then check_set ctx l'
               else Some (Errorf "flag %s is required" [AStr (Name f)])
  end.
Definition CheckRequired (ctx : cli_Context) : option error := check_set ctx requiredFlags.

(** What the command line gives for a flag. *)
Definition flag_value (ctx : cli_Context) (f : Flag) : FlagValue :=
  match FlagDefault f with
  | FString _ => FString (ctx_String ctx (Name f))
  | FUint64 _ => FUint64 (ctx_Uint64 ctx (Name f))
  | FDuration _ => FDuration (ctx_Duration ctx (Name f))
  | FBool _ => FBool (ctx_Bool ctx (Name f))
  end.

(** [urfave/cli]: a flag of the application that is not set has its default. *)
Definition defaults_apply (ctx : cli_Context) : Prop :=
  ∀ f, f ∈ AllFlags → IsSet ctx (Name f) = false → flag_value ctx f = FlagDefault f.

End flags.
