(* ===== verification/Service.v ===== *)
(** * The service ([config.go], [service.go], [l2_output_submitter.go])

    From the command line to a running proposer: the configuration and its
    checks, the construction of the service, start and stop.  The state of a
    [ProposerService] is passed along, since a construction that fails is
    stopped as far as it got. *)

From Stdlib Require Import ZArith Ascii.
From S2P Require Import Prelude Sql ProofRequest Metrics Encoding Prog Types Flags Json Paths.
From S2P Require Import Mutation Builders Db Range Prove Driver.

Local Open Scope string_scope.
Local Open Scope Z_scope.

(** ** The libraries of [op-service] *)

Class OpService `{CliLib} := {
  RpcCLI : Type;
  LogCLI : Type;
  MetricsCLI : Type;
  PprofCLI : Type;
  TxMgrCLI : Type;
  oprpc_ReadCLIConfig : cli_Context → RpcCLI;
  oplog_ReadCLIConfig : cli_Context → LogCLI;
  opmetrics_ReadCLIConfig : cli_Context → MetricsCLI;
  oppprof_ReadCLIConfig : cli_Context → PprofCLI;
  txmgr_ReadCLIConfig : cli_Context → TxMgrCLI;
  rpc_Check : RpcCLI → option error;
  metrics_Check : MetricsCLI → option error;
  pprof_Check : PprofCLI → option error;
  txmgr_Check : TxMgrCLI → option error;
  EnableAdmin : RpcCLI → bool;
  MetricsEnabled : MetricsCLI → bool;
  tx_NetworkTimeout : TxMgrCLI → Z;
  ParseAddress : string → error + Address;
}.

(** ** Configuration *)

Record CLIConfig `{OpService} := mkCLIConfig {
  c_L1EthRpc : string;
  c_RollupRpc : string;
  c_L2OOAddress : string;
  c_DGFAddress : string;
  c_PollInterval : Z;
  c_AllowNonFinalized : bool;
  c_TxMgrConfig : TxMgrCLI;
  c_RPCConfig : RpcCLI;
  c_LogConfig : LogCLI;
  c_MetricsConfig : MetricsCLI;
  c_PprofConfig : PprofCLI;
  c_OutputRetryInterval : Z;
  c_DisputeGameType : Z;
  c_ActiveSequencerCheckDuration : Z;
  c_WaitNodeSync : bool;
  c_DbPath : string;
  c_UseCachedDb : bool;
  c_BeaconRpc : string;
  c_MaxBlockRangePerSpanProof : Z;
  c_MaxConcurrentWitnessGen : Z;
  c_WitnessGenTimeout : Z;
  c_L2ChainID : Z;
  c_ProofTimeout : Z;
  c_OPSuccinctServerUrl : string;
  c_MaxConcurrentProofRequests : Z;
  c_Mock : bool;
}.

(** ** The service *)

(** The parts of [ProposerService]; a boolean says that a pointer or interface
    is not nil.  The driver's own state and the metrics are in the world. *)
Record ProposerService := mkService {
  ps_Version : string;
  ps_config : ProposerConfig;
  ps_registry : bool;          (* Metrics is a registry, not NoopMetrics *)
  ps_TxManager : bool;
  ps_L1Client : bool;
  ps_RollupProvider : bool;
  ps_driver : bool;
  ps_pprofService : bool;
  ps_metricsSrv : bool;
  ps_rpcServer : bool;
  ps_balanceMetricer : bool;
  ps_stopped : bool;
}.

Definition zeroConfig : ProposerConfig :=
  mkConfig 0 0 0 0 None None 0 false false "" false "" "" 0 0 0 0 0 "" 0 false.
Definition zeroService : ProposerService :=
  mkService "" zeroConfig false false false false false false false false false false.

Definition put_config c ps := let 'mkService v _ m t l r d p ms rs b s := ps in mkService v c m t l r d p ms rs b s.
Definition put_version v ps := let 'mkService _ c m t l r d p ms rs b s := ps in mkService v c m t l r d p ms rs b s.
Definition put_registry m ps := let 'mkService v c _ t l r d p ms rs b s := ps in mkService v c m t l r d p ms rs b s.
Definition put_TxManager ps := let 'mkService v c m _ l r d p ms rs b s := ps in mkService v c m true l r d p ms rs b s.
Definition put_L1Client ps := let 'mkService v c m t _ r d p ms rs b s := ps in mkService v c m t true r d p ms rs b s.
Definition put_RollupProvider ps := let 'mkService v c m t l _ d p ms rs b s := ps in mkService v c m t l true d p ms rs b s.
Definition put_driver ps := let 'mkService v c m t l r _ p ms rs b s := ps in mkService v c m t l r true p ms rs b s.
Definition put_pprof ps := let 'mkService v c m t l r d _ ms rs b s := ps in mkService v c m t l r d true ms rs b s.
Definition put_metricsSrv ps := let 'mkService v c m t l r d p _ rs b s := ps in mkService v c m t l r d p true rs b s.
Definition put_rpcServer ps := let 'mkService v c m t l r d p ms _ b s := ps in mkService v c m t l r d p ms true b s.
Definition put_balance ps := let 'mkService v c m t l r d p ms rs _ s := ps in mkService v c m t l r d p ms rs true s.
Definition put_stopped ps := let 'mkService v c m t l r d p ms rs b _ := ps in mkService v c m t l r d p ms rs b true.

(** The address fields of the configuration. *)
Definition with_l2oo a (c : ProposerConfig) :=
  let 'mkConfig pi nt ort pri _ dgf dgt anf wns db uc be ro mb mw wt ci pt us mp mo := c in
  mkConfig pi nt ort pri (Some a) dgf dgt anf wns db uc be ro mb mw wt ci pt us mp mo.
Definition with_dgf a t (c : ProposerConfig) :=
  let 'mkConfig pi nt ort pri l2oo _ _ anf wns db uc be ro mb mw wt ci pt us mp mo := c in
  mkConfig pi nt ort pri l2oo (Some a) t anf wns db uc be ro mb mw wt ci pt us mp mo.

Section service.
Context `{OpService, External}.

Definition Check_ (c : CLIConfig) : option error :=
  match rpc_Check (c_RPCConfig c) with
  | Some err => Some err
  | None =>
  match metrics_Check (c_MetricsConfig c) with
  | Some err => Some err
  | None =>
  match pprof_Check (c_PprofConfig c) with
  | Some err => Some err
  | None =>
  match txmgr_Check (c_TxMgrConfig c) with
  | Some err => Some err
  | None =>
      if bool_decide (c_L2OOAddress c = "") && bool_decide (c_DGFAddress c = "") then
        Some (Errorf "one of the `DisputeGameFactory` or `L2OutputOracle` address must be provided" [])
      else None
  end end end end.

(** [log.Fatal]: the process ends. *)
Definition fatal {A} (p : prog A) : prog A :=
  r ← attempt p;
  match r with inl _ => Panic "log.Fatal" | inr a => Ret a end.

(** A field the literal does not name has its zero value. *)
Definition NewConfig (ctx : cli_Context) : prog CLIConfig :=
  _ ← fatal (r ← ask EDialRollup; lift_err r);
  chainID ← fatal (call ERollupConfig);
  let dbPath := ctx_String ctx (Name DbPathFlag) in
  let dbPath := filepath_Join [dbPath; FormatUint chainID; "proofs.db"] in
  Ret {| c_L1EthRpc := ctx_String ctx (Name L1EthRpcFlag);
         c_RollupRpc := ctx_String ctx (Name RollupRpcFlag);
         c_L2OOAddress := ctx_String ctx (Name L2OOAddressFlag);
         c_PollInterval := ctx_Duration ctx (Name PollIntervalFlag);
         c_TxMgrConfig := txmgr_ReadCLIConfig ctx;
         c_BeaconRpc := ctx_String ctx (Name BeaconRpcFlag);
         c_L2ChainID := chainID;
         c_AllowNonFinalized := ctx_Bool ctx (Name AllowNonFinalizedFlag);
         c_RPCConfig := oprpc_ReadCLIConfig ctx;
         c_LogConfig := oplog_ReadCLIConfig ctx;
         c_MetricsConfig := opmetrics_ReadCLIConfig ctx;
         c_PprofConfig := oppprof_ReadCLIConfig ctx;
         c_ActiveSequencerCheckDuration := ctx_Duration ctx (Name ActiveSequencerCheckDurationFlag);
         c_WaitNodeSync := ctx_Bool ctx (Name WaitNodeSyncFlag);
         c_DbPath := dbPath;
         c_UseCachedDb := ctx_Bool ctx (Name UseCachedDbFlag);
         c_MaxBlockRangePerSpanProof := ctx_Uint64 ctx (Name MaxBlockRangePerSpanProofFlag);
         c_MaxConcurrentWitnessGen := ctx_Uint64 ctx (Name MaxConcurrentWitnessGenFlag);
         c_WitnessGenTimeout := ctx_Uint64 ctx (Name WitnessGenTimeoutFlag);
         c_ProofTimeout := ctx_Uint64 ctx (Name ProofTimeoutFlag);
         c_OPSuccinctServerUrl := ctx_String ctx (Name OPSuccinctServerUrlFlag);
         c_MaxConcurrentProofRequests := ctx_Uint64 ctx (Name MaxConcurrentProofRequestsFlag);
         c_Mock := ctx_Bool ctx (Name MockFlag);
         c_DGFAddress := ctx_String ctx (Name DGFAddressFlag);
         c_DisputeGameType := 6;
         c_OutputRetryInterval := 0 |}.

(** *** Construction *)

(** [if err := step(); err != nil { return err }], on the service built so far. *)
Definition step_then (p : prog (ProposerService * option error))
    (k : ProposerService → prog (ProposerService * option error)) : prog (ProposerService * option error) :=
  r ← p;
  match snd r with Some err => Ret (fst r, Some err) | None => k (fst r) end.

(** A call of a library; the service gets a new part when it succeeds. *)
Definition svc_step (c : SvcCall) (msg : error → error) (put : ProposerService → ProposerService)
    (ps : ProposerService) : prog (ProposerService * option error) :=
  r ← ask (ESvc c);
  match r with Some err => Ret (ps, Some (msg err)) | None => Ret (put ps, None) end.

Definition initMetrics (cfg : CLIConfig) (ps : ProposerService) : prog ProposerService :=
  let enabled := MetricsEnabled (c_MetricsConfig cfg) in
  _ ← proc (PSetMetrics enabled);
  Ret (put_registry enabled ps).

(** The fields copied from the command line; [BeaconRpc] and the rest. *)
Definition copy_config (cfg : CLIConfig) (c : ProposerConfig) : ProposerConfig :=
  mkConfig (c_PollInterval cfg) (tx_NetworkTimeout (c_TxMgrConfig cfg)) (c_OutputRetryInterval cfg)
    (ProposalInterval c) (L2OutputOracleAddr c) (DisputeGameFactoryAddr c) (DisputeGameType c)
    (c_AllowNonFinalized cfg) (c_WaitNodeSync cfg) (c_DbPath cfg) (c_UseCachedDb cfg) (c_BeaconRpc cfg)
    (c_RollupRpc cfg) (c_MaxBlockRangePerSpanProof cfg) (c_MaxConcurrentWitnessGen cfg)
    (c_WitnessGenTimeout cfg) (c_L2ChainID cfg) (c_ProofTimeout cfg) (c_OPSuccinctServerUrl cfg)
    (c_MaxConcurrentProofRequests cfg) (c_Mock cfg).

(** A string that is no address leaves the field unset, without an error. *)
Definition initL2ooAddress (cfg : CLIConfig) (c : ProposerConfig) : ProposerConfig :=
  match ParseAddress (c_L2OOAddress cfg) with
  | inl _ => c
  | inr a => with_l2oo a c
  end.

Definition initDGF (cfg : CLIConfig) (c : ProposerConfig) : ProposerConfig :=
  match ParseAddress (c_DGFAddress cfg) with
  | inl _ => c
  | inr a => with_dgf a (c_DisputeGameType cfg) c
  end.

Definition initRPCClients (cfg : CLIConfig) (ps : ProposerService) : prog (ProposerService * option error) :=
  step_then (svc_step (DialL1 (c_L1EthRpc cfg)) (wrap "failed to dial L1 RPC: %w") put_L1Client ps)
    (svc_step (if contains_char "," (c_RollupRpc cfg)
               then DialActiveRollup (split_on "," (c_RollupRpc cfg))
               else DialStaticRollup (c_RollupRpc cfg))
       (wrap "failed to build L2 endpoint provider: %w") put_RollupProvider).

Definition initTxManager (ps : ProposerService) : prog (ProposerService * option error) :=
  svc_step NewTxManager id put_TxManager ps.

Definition initBalanceMonitor (cfg : CLIConfig) (ps : ProposerService) : prog ProposerService :=
  if MetricsEnabled (c_MetricsConfig cfg) then _ ← ask (ESvc StartBalance); Ret (put_balance ps)
  else Ret ps.

Definition initMetricsServer (cfg : CLIConfig) (ps : ProposerService) : prog (ProposerService * option error) :=
  if negb (MetricsEnabled (c_MetricsConfig cfg)) then Ret (ps, None)
  else if negb (ps_registry ps) then
    Ret (ps, Some (Errorf "metrics were enabled, but metricer %T does not expose registry for metrics-server" []))
  else svc_step StartMetricsServer (wrap "failed to start metrics server: %w") put_metricsSrv ps.

(** The service is set before it is started. *)
Definition initPProf (ps : ProposerService) : prog (ProposerService * option error) :=
  svc_step StartPprof (wrap "failed to start pprof service: %w") id (put_pprof ps).

Definition initDriver (ps : ProposerService) : prog (ProposerService * option error) :=
  r ← attempt (NewL2OutputSubmitter (ps_config ps));
  match r with inl err => Ret (ps, Some err) | inr _ => Ret (put_driver ps, None) end.

Definition initRPCServer (cfg : CLIConfig) (ps : ProposerService) : prog (ProposerService * option error) :=
  svc_step (StartRpc (EnableAdmin (c_RPCConfig cfg))) (wrap "unable to start RPC server: %w") put_rpcServer ps.

(** An error of a step, wrapped. *)
Definition wrap_step (msg : string) (p : prog (ProposerService * option error)) :
    prog (ProposerService * option error) :=
  r ← p;
  match r with
  | (ps, Some err) => Ret (ps, Some (wrap msg err))
  | (ps, None) => Ret (ps, None)
  end.

Definition initFromCLIConfig (version : string) (cfg : CLIConfig) (ps : ProposerService)
    : prog (ProposerService * option error) :=
  ps ← initMetrics cfg (put_version version ps);
  let ps := put_config (initDGF cfg (initL2ooAddress cfg (copy_config cfg (ps_config ps)))) ps in
  step_then (initRPCClients cfg ps) (λ ps,
  step_then (wrap_step "failed to init Tx manager: %w" (initTxManager ps)) (λ ps,
  ps ← initBalanceMonitor cfg ps;
  step_then (wrap_step "failed to start metrics server: %w" (initMetricsServer cfg ps)) (λ ps,
  step_then (wrap_step "failed to init profiling: %w" (initPProf ps)) (λ ps,
  step_then (wrap_step "failed to init Driver: %w" (initDriver ps)) (λ ps,
  step_then (wrap_step "failed to start RPC server: %w" (initRPCServer cfg ps)) (λ ps,
  _ ← metric (MRecordInfo (ps_Version ps));
  _ ← metric MRecordUp;
  Ret (ps, None))))))).

(** *** Stopping *)

(** [errors.Join(result, err)] with both possibly nil. *)
Definition errors_Join (a b : option error) : option error :=
  match a, b with
  | None, None => None
  | None, Some e | Some e, None => Some (EJoin e)
  | Some e1, Some e2 => Some (EJoin2 e1 e2)
  end.

(** The next part to stop: its error is joined to the errors so far. *)
Definition stop_part (present : bool) (p : prog (option error)) (msg : string) (result : option error)
    : prog (option error) :=
  if present then
    r ← p;
    Ret (match r with Some err => errors_Join result (Some (wrap msg err)) | None => result end)
  else Ret result.

(** A part that is closed without an error. *)
Definition close_part (present : bool) (c : SvcCall) : prog unit :=
  if present then _ ← ask (ESvc c); Ret tt else Ret tt.

(** A call whose error is a value. *)
Definition error_of (p : prog unit) : prog (option error) :=
  r ← attempt p; Ret (match r with inl err => Some err | inr _ => None end).

Definition service_Stop (ps : ProposerService) : prog (ProposerService * option error) :=
  if ps_stopped ps then Ret (ps, Some ErrAlreadyStopped)
  else
    result ← stop_part (ps_driver ps) (error_of StopL2OutputSubmittingIfRunning)
               "failed to stop L2Output submitting: %w" None;
    result ← stop_part (ps_rpcServer ps) (ask (ESvc StopRpc)) "failed to stop RPC server: %w" result;
    result ← stop_part (ps_pprofService ps) (ask (ESvc StopPprof)) "failed to stop PProf server: %w" result;
    result ← stop_part (ps_balanceMetricer ps) (ask (ESvc CloseBalance))
               "failed to close balance metricer: %w" result;
    _ ← close_part (ps_TxManager ps) CloseTxManager;
    result ← stop_part (ps_metricsSrv ps) (ask (ESvc StopMetricsServer))
               "failed to stop metrics server: %w" result;
    _ ← close_part (ps_L1Client ps) CloseL1;
    _ ← close_part (ps_RollupProvider ps) CloseRollup;
    match result with
    | None => Ret (put_stopped ps, None)
    | Some err => Ret (ps, Some err)
    end.

(** With a context that is cancelled already. *)
Definition service_Kill (ps : ProposerService) : prog (ProposerService * option error) := service_Stop ps.

Definition service_Start (ps : ProposerService) : prog unit :=
  if ps_driver ps then StartL2OutputSubmitting (ps_config ps) else Panic "nil pointer dereference".

Definition service_Stopped (ps : ProposerService) : bool := ps_stopped ps.

Definition ProposerServiceFromCLIConfig (version : string) (cfg : CLIConfig) : prog ProposerService :=
  r ← initFromCLIConfig version cfg zeroService;
  match snd r with
  | None => Ret (fst r)
  | Some err =>
      s ← service_Stop (fst r);
      Raise (default err (errors_Join (Some err) (snd s)))
  end.

(** ** The entry point *)

Definition Main (version : string) (ctx : cli_Context) : prog ProposerService :=
  match CheckRequired ctx with
  | Some err => Raise err
  | None =>
      cfg ← NewConfig ctx;
      match Check_ cfg with
      | Some err => Raise (wrap "invalid CLI flags: %w" err)
      | None => ProposerServiceFromCLIConfig version cfg
      end
  end.

End service.

(** ** The program ([cmd/main.go])

    The application that is handed to the command line library, which parses the
    arguments and runs the life cycle of the service. *)

Section program.
Context `{OpService, External} {Action Command : Type}.
Context (LifecycleCmd : (cli_Context → prog ProposerService) → Action) (NewSubcommands : string → list Command).
Context (FormatVersion : string → string → string → string → string) (ProtectFlags : list Flag → list Flag).

Record App := mkApp {
  app_Flags : list Flag;
  app_Version : string;
  app_Name : string;
  app_Usage : string;
  app_Description : string;
  app_Action : Action;
  app_Commands : list (string * list Command);
}.

Definition Version : string := "v0.10.14".
Definition GitCommit : string := "".
Definition GitDate : string := "".

Definition proposer_app : App :=
  mkApp (ProtectFlags AllFlags) (FormatVersion Version GitCommit GitDate "") "op-proposer" "L2 Output Submitter"
    "Service for generating and proposing L2 Outputs" (LifecycleCmd (Main Version)) [("doc", NewSubcommands "default")].

(** An error of the run is logged and ends the process with a failure. *)
Definition proposer_main (Run : App → list string → option error) (args : list string) : bool :=
  match Run proposer_app args with None => true | Some _ => false end.

End program.
