(* ===== verification/ServiceProofs.v ===== *)
(** * The service: construction and shutdown

    What a [ProposerService] started is what its [Stop] stops, whether the
    construction succeeded or failed half way; and what becomes of the clients of
    the database, which a failed construction does not close. *)

From Stdlib Require Import ZArith Lia Ascii.
From S2P Require Import Prelude Sql ProofRequest Metrics Encoding Prog Types Script Flags Json Spans.
From S2P Require Import Mutation Builders Db Range Partition Steps Evolve Prove Driver Pipeline.
From S2P Require Import Stages Lifecycle Paths Service.

(** ** Programs that send nothing *)

Section eventless.
Context `{SqlGraph, External}.
Implicit Types (w : World).

(** No command of the program leaves an event. *)
Fixpoint eventless {A} (p : prog A) : Prop :=
  match p with
  | Do c k => match c with CExt c => event_of c = [] | _ => True end ∧ ∀ r, eventless (k r)
  | _ => True
  end.

Lemma exec_eventless {R} (c : cmd R) w r w' :
  match c with CExt c => event_of c = [] | _ => True end → exec c w = Some (r, w') → w_trace w' = w_trace w.
Proof.
  destruct c as [R c|R c|R c]; cbn [exec]; intros Hc Hx.
  - assert (∀ A h (f : store → (sqlerr + A) * store) x, on_handle h f w = Some (x, w') → w_trace w' = w_trace w) as Hon.
    { intros A h f x. destruct w, h; simpl; repeat case_match; intros ?; by simplify_eq. }
    destruct c; cbn [exec_db] in Hx; try (by eapply Hon); destruct w; simpl in *; repeat case_match; simplify_eq;
      try done; by destruct h.
  - injection Hx as Hr. pose proof (exec_ext_trace c w) as Ht. rewrite Hr, Hc, app_nil_r in Ht. done.
  - destruct w, c; simpl in *; repeat case_match; simplify_eq; done.
Qed.

Lemma eventless_run {A} (p : prog A) w : eventless p → w_trace (run p w).2 = w_trace w.
Proof.
  revert w. induction p as [| | | |R c k IH]; intros w Hp; try done. destruct Hp as [Hc Hk]. cbn [run].
  destruct (exec c w) as [[r w']|] eqn:E; [|done]. rewrite IH by done. by eapply exec_eventless.
Qed.

End eventless.

Lemma eventless_bind {A B} (f : A → prog B) p : eventless p → (∀ a, eventless (f a)) → eventless (p ≫= f).
Proof.
  intros Hp Hf. unfold mbind, prog_mbind. induction p as [| | | |R c k IH]; simpl; auto. destruct Hp; split; auto.
Qed.
Lemma eventless_attempt {A} (p : prog A) : eventless p → eventless (attempt p).
Proof. induction p as [| | | |R c k IH]; simpl; auto. intros []; split; auto. Qed.
Lemma eventless_map_err {A} f (p : prog A) : eventless p → eventless (map_err f p).
Proof. induction p as [| | | |R c k IH]; simpl; auto. intros []; split; auto. Qed.
Lemma eventless_defer {A} d (p : prog A) : eventless d → eventless p → eventless (defer d p).
Proof.
  intros Hd. induction p as [| | | |R c k IH]; simpl; auto.
  1-3: intros _; apply (eventless_bind _ d); auto; done. intros []; split; auto.
Qed.
Lemma eventless_lift {A} (r : error + A) : eventless (lift r).
Proof. by destruct r. Qed.
Lemma eventless_lift_err r : eventless (lift_err r).
Proof. by destruct r. Qed.
Lemma eventless_ask {R} (c : ExtCmd R) : event_of c = [] → eventless (ask c).
Proof. by split. Qed.


Ltac eventless :=
  intros; repeat first
    [ done
    | apply eventless_bind; [|intros ?]
    | apply eventless_attempt | apply eventless_map_err | apply eventless_defer
    | apply eventless_lift | apply eventless_lift_err | by apply eventless_ask
    | match goal with |- eventless (match ?x with _ => _ end) => destruct x end ].

Section parts.
Context `{SqlLaws, External}.
Implicit Types (w : World) (cfg : ProposerConfig).

Lemma InitDB_eventless p b : eventless (InitDB p b).
Proof. unfold InitDB, open_client, create_schema. eventless. Qed.

Lemma New_eventless cfg : eventless (NewL2OutputSubmitter cfg).
Proof.
  unfold NewL2OutputSubmitter, newL2OOSubmitter, or_cancel, call. eventless; apply InitDB_eventless.
Qed.

Lemma StopIfRunning_eventless : eventless StopL2OutputSubmittingIfRunning.
Proof.
  unfold StopL2OutputSubmittingIfRunning, StopL2OutputSubmitting, with_mutex, CloseDB, close_client. eventless.
Qed.

(** Opening a client, or failing to. *)
Definition open_error : error := Errorf "failed opening connection to sqlite: %v" [].
Definition schema_error : error := Errorf "failed creating schema resources: %v" [].

Lemma open_client_returns h w :
  h ≠ HTx →
  returns (open_client h) w
    (λ _ w', w_driver w' = w_driver w ∧
       match h with
       | HWrite => w_wopen w' = true ∧ w_ropen w' = w_ropen w
       | _ => w_ropen w' = true ∧ w_wopen w' = w_wopen w
       end)
    (λ e w', w_driver w' = w_driver w ∧ e = open_error ∧
       match h with
       | HWrite => w_wopen w' = false ∧ w_ropen w' = w_ropen w
       | _ => w_ropen w' = false ∧ w_wopen w' = w_wopen w
       end).
Proof.
  intros Hh. unfold open_client, returns, wp. rewrite run_bind, run_db. cbn [exec_db].
  destruct (sg_open (w_db w)) as [r s]. destruct r, h, w; simpl; done.
Qed.

Definition both_open w : Prop := w_wopen w = true ∧ w_ropen w = true.

#[global] Instance clients_kept_preorder : PreOrder clients_kept.
Proof. split; [by intros w|]. intros w1 w2 w3 [] []. split; congruence. Qed.

Lemma both_open_kept w w' : both_open w → clients_kept w w' → both_open w'.
Proof. intros [] []. split; congruence. Qed.

Lemma create_schema_returns h w :
  returns (create_schema h) w (λ _ w', w_driver w' = w_driver w ∧ clients_kept w w')
    (λ e w', w_driver w' = w_driver w ∧ e = schema_error ∧ clients_kept w w').
Proof.
  unfold create_schema, returns, wp, clients_kept. rewrite run_bind, run_db. cbn [exec_db].
  destruct (sg_migrate (w_db w)) as [r s]. by destruct r, w.
Qed.

(** What an [InitDB] that failed leaves of the two clients: it closes none of
    those it opened. *)
Definition db_left (e : error) w w' : Prop :=
  if bool_decide (e = schema_error) then both_open w'
  else if bool_decide (e = open_error) then
    w_wopen w' = false ∧ w_ropen w' = w_ropen w ∨ w_wopen w' = true ∧ w_ropen w' = false
  else clients_kept w w'.

(** The driver and the clients of the database are as in [w]. *)
Definition driver_kept w w' : Prop := w_driver w' = w_driver w ∧ clients_kept w w'.
#[global] Instance driver_kept_preorder : PreOrder driver_kept.
Proof. split; [by intros w|]. intros w1 w2 w3 [] []. split; [congruence|by etrans]. Qed.

Lemma same_proc_kept w w' : same_proc w w' → driver_kept w w'.
Proof. by intros (_ & ? & ? & _ & _ & ? & _). Qed.

(** A call of the outside leaves them alone. *)
Lemma ask_driver {R} (c : ExtCmd R) w (P : R → World → Prop) E :
  (∀ r w', driver_kept w w' → (∃ x x', ext_exec _ c x = (r, x')) → P r w') → returns (ask c) w P E.
Proof.
  intros HP. unfold returns, wp. rewrite run_ask. simpl. apply HP; [apply same_proc_kept, exec_ext_same|].
  unfold exec_ext. destruct (ext_exec R c (w_ext w)) as [r x] eqn:E'. by eexists _, _.
Qed.

Lemma InitDB_returns p b w :
  returns (InitDB p b) w (λ _ w', w_driver w' = w_driver w ∧ both_open w')
    (λ e w', w_driver w' = w_driver w ∧ db_left e w w').
Proof.
  unfold InitDB. eapply (returns_bind _ _ _ (λ _, driver_kept w) (λ _ _, False)); [|..|done].
  { destruct b; [by apply returns_ret|]. unfold returns, wp. rewrite run_db. by destruct w. }
  intros _ w1 D1. eapply (returns_bind _ _ _ (λ _, driver_kept w) (λ _ _, False)); [|..|done].
  { apply ask_driver. intros r w' Hk _. by etrans. }
  intros r w2 D2. eapply (returns_bind _ _ _ (λ _, driver_kept w) (λ e w', w_driver w' = w_driver w ∧ db_left e w w')); [|..|done].
  { destruct r; [|by apply returns_ret]. destruct D2. by apply returns_raise. }
  intros _ w3 [D3 [Hw3 Hr3]]. eapply returns_bind; [by apply open_client_returns| |].
  2: { intros e w' (D & -> & Hw & Hr). split; [congruence|]. left. split; congruence. }
  intros _ w4 [D4 [Hw4 _]]. eapply returns_bind; [by apply open_client_returns| |].
  2: { intros e w' (D & -> & Hr & Hw). split; [congruence|]. right. split; congruence. }
  intros _ w5 [D5 [Hr5 Hw5]]. assert (both_open w5) as O5 by (split; congruence).
  eapply returns_bind; [apply create_schema_returns| |].
  2: { intros e w' (D & -> & Hk). split; [congruence|]. by eapply both_open_kept. }
  intros _ w6 [D6 K6]. assert (both_open w6) as O6 by by eapply both_open_kept.
  eapply returns_mono; [apply create_schema_returns|..].
  - intros _ w7 [D7 K7]. split; [congruence|by eapply both_open_kept].
  - intros e w7 (D7 & -> & K7). split; [congruence|by eapply both_open_kept].
Qed.

(** A program that keeps the driver, up to the context it cancels on an error. *)
Lemma or_cancel_returns {A} (p : prog A) w (P : A → World → Prop) (E : error → World → Prop) :
  returns p w P (λ e w', E e (set_driver (set_cancelled true) w')) → returns (or_cancel p) w P E.
Proof.
  intros Hp. unfold or_cancel. eapply (returns_bind _ _ _ _ (λ _ _, False)); [by apply returns_try| |done].
  intros [err|a] w1 Hw1; [|by apply returns_ret]. exact Hw1.
Qed.

(** The driver while it is made, and when it is. *)
Definition blank_driver : DriverState := mkDriverState false false false false false.
Definition fresh_driver : DriverState := mkDriverState false false false false true.

(** What can fail before the database is opened. *)
Definition setup_failed cfg (e : error) : Prop :=
  match L2OutputOracleAddr cfg with
  | None => e = Errorf "the `L2OutputOracle` address was not provided" []
  | Some addr =>
      (∃ x x' err, ext_exec _ EBindings x = (Some err, x') ∧
         (e = err ∨ e = Wrapf "failed to create L2OO at address %s: %w" [AStr (Address_Hex addr)] err)) ∨
      ∃ x x', ext_exec _ EVersion x = (inl e, x')
  end.

(** What a driver that could not be made leaves of the clients. *)
Definition driver_left cfg (e : error) w w' : Prop :=
  (setup_failed cfg e ∧ clients_kept w w') ∨
  ∃ w1 w2, clients_kept w w1 ∧ run (InitDB (DbPath cfg) (UseCachedDb cfg)) w1 = (Fail e, w2) ∧
    db_left e w w2 ∧ clients_kept w2 w'.

Definition not_started (d : DriverState) : Prop := running d = false ∧ locked d = false.

Lemma db_left_kept e w w1 w2 : clients_kept w w1 → db_left e w1 w2 → db_left e w w2.
Proof. intros [Hw Hr]. unfold db_left, clients_kept. by rewrite Hw, Hr. Qed.

Lemma driver_left_kept cfg e w w1 w2 : clients_kept w w1 → driver_left cfg e w1 w2 → driver_left cfg e w w2.
Proof.
  intros K [[HS HK]|(w3 & w4 & K3 & HR & HL & K4)]; [left; split; [done|by etrans]|right].
  exists w3, w4. split; [by etrans|]. split; [done|]. split; [by eapply db_left_kept|done].
Qed.

Lemma driver_left_later cfg e w w1 w2 : driver_left cfg e w w1 → clients_kept w1 w2 → driver_left cfg e w w2.
Proof.
  intros [[HS HK]|(w3 & w4 & K3 & HR & HL & K4)] K; [left; split; [done|by etrans]|right].
  exists w3, w4. do 3 (split; [done|]). by etrans.
Qed.

Lemma newL2OO_returns cfg addr w :
  w_driver w = blank_driver → L2OutputOracleAddr cfg = Some addr →
  returns (newL2OOSubmitter cfg addr) w
    (λ _ w', w_driver w' = fresh_driver ∧ both_open w')
    (λ e w', not_started (w_driver w') ∧ driver_left cfg e w w').
Proof.
  intros Hd Ha. unfold newL2OOSubmitter, call.
  assert (∀ e w', w_driver w' = blank_driver → driver_left cfg e w w' →
    not_started (w_driver (set_driver (set_cancelled true) w')) ∧ driver_left cfg e w (set_driver (set_cancelled true) w')) as Hc.
  { intros e w' D HL. rewrite set_driver_driver, D. split; [done|].
    eapply driver_left_later; [exact HL|by destruct w']. }
  assert (∀ R B (c : ExtCmd R) (g : R → prog B) w1, driver_kept w w1 →
    (∀ r x x', ext_exec _ c x = (r, x') → (∃ b, g r = Ret b) ∨ ∃ e, g r = Raise e ∧ setup_failed cfg e) →
    returns (or_cancel (ask c ≫= g)) w1 (λ _, driver_kept w) (λ e w', not_started (w_driver w') ∧ driver_left cfg e w w')) as Hask.
  { intros R B c g w1 D1 Hg. apply or_cancel_returns.
    eapply (returns_bind _ _ _ _ (λ _ _, False)); [apply ask_driver; intros r w' K Hx; exact (conj (transitivity D1 K) Hx)| |done].
    intros r w2 [[D2 K2] (x & x' & Hx)]. destruct (Hg r x x' Hx) as [[b ->]|(e & -> & Hf)]; [by apply returns_ret|].
    apply returns_raise, Hc; [congruence|by left]. }
  assert (∀ f (g : option error → prog unit) w1, driver_kept w w1 → g None = Ret tt → (∀ err, g (Some err) = Raise (f err)) →
    (f = id ∨ f = Wrapf "failed to create L2OO at address %s: %w" [AStr (Address_Hex addr)]) →
    returns (or_cancel (ask EBindings ≫= g)) w1 (λ _, driver_kept w)
      (λ e w', not_started (w_driver w') ∧ driver_left cfg e w w')) as Hbind.
  { intros f g w1 D1 Hn Hs Hf. apply Hask; [done|]. intros [err|] x x' Hx; [right|left; by eexists]. exists (f err).
    split; [done|]. unfold setup_failed. rewrite Ha. left. exists x, x', err. destruct Hf as [->| ->]; auto. }
  eapply returns_bind; [apply (Hbind (Wrapf "failed to create L2OO at address %s: %w" [AStr (Address_Hex addr)])
    (λ r, map_err (Wrapf "failed to create L2OO at address %s: %w" [AStr (Address_Hex addr)]) (lift_err r)) w);
    [done|done|done|by right]| |done].
  intros ? w1 D1. eapply returns_bind; [apply Hask; [exact D1|]| |done].
  { intros [err|v] x x' Hx; [right|left; by eexists]. exists err. split; [done|]. unfold setup_failed. rewrite Ha.
    right. by exists x, x'. }
  intros ? w2 D2. eapply returns_bind; [apply (Hbind id lift_err w2); [exact D2|done|done|by left]| |done].
  intros ? w3 D3. eapply returns_bind; [apply (Hbind id lift_err w3); [exact D3|done|done|by left]| |done].
  intros ? w4 [D4 K4]. eapply (returns_bind _ _ _ (λ _ w', w_driver w' = blank_driver ∧ both_open w')); [apply or_cancel_returns| |intros e w' Q; exact Q].
  - eapply returns_mono; [apply returns_ran, InitDB_returns|..].
    + intros ? w5 [[D5 O5] _]. split; [congruence|done].
    + intros e w5 [[D5 L5] R5]. apply Hc; [congruence|]. right. exists w4, w5. split; [done|]. split; [done|].
      split; [by eapply db_left_kept|done].
  - intros ? w5 [D5 O5]. unfold returns, wp. rewrite run_proc. cbn [exec_proc].
    change (with_driver _ w5) with (set_driver (set_db_set true) w5). cbn [fst snd okfail].
    rewrite set_driver_driver, D5. split; [done|]. by destruct w5.
Qed.

Lemma New_returns cfg w :
  returns (NewL2OutputSubmitter cfg) w
    (λ _ w', w_driver w' = fresh_driver ∧ both_open w' ∧ ∃ a, L2OutputOracleAddr cfg = Some a)
    (λ e w', not_started (w_driver w') ∧ driver_left cfg e w w').
Proof.
  unfold NewL2OutputSubmitter.
  eapply (returns_bind _ _ _ (λ _ w', w_driver w' = blank_driver ∧ clients_kept w w') (λ _ _, False)); [|..|done].
  { unfold returns, wp. rewrite run_proc. by destruct w. }
  intros ? w1 [D1 K1]. apply or_cancel_returns. destruct (L2OutputOracleAddr cfg) as [addr|] eqn:Ha.
  - eapply returns_mono; [by apply newL2OO_returns|..].
    + intros _ w2 [D2 O2]. eauto.
    + intros e w2 [[Hr Hl] HL]. rewrite set_driver_driver. split; [by destruct (w_driver w2)|].
      eapply driver_left_kept; [exact K1|]. eapply driver_left_later; [exact HL|by destruct w2].
  - apply returns_raise. rewrite set_driver_driver, D1. split; [done|]. left. unfold setup_failed. rewrite Ha.
    split; [done|]. by destruct w1.
Qed.

End parts.

(** ** Stop *)

Definition part (present : bool) (c : SvcCall) : list SvcCall := if present then [c] else [].

(** What [Stop] closes, in its order, apart from the driver. *)
Definition stop_calls (ps : ProposerService) : list SvcCall :=
  part (ps_rpcServer ps) StopRpc ++ part (ps_pprofService ps) StopPprof ++
  part (ps_balanceMetricer ps) CloseBalance ++ part (ps_TxManager ps) CloseTxManager ++
  part (ps_metricsSrv ps) StopMetricsServer ++ part (ps_L1Client ps) CloseL1 ++
  part (ps_RollupProvider ps) CloseRollup.

Section stop.
Context `{SqlLaws, External}.
Implicit Types (w : World) (ps : ProposerService).

(** The service called [calls] and the process stayed as it was. *)
Definition called (calls : list SvcCall) w w' : Prop :=
  same_proc w w' ∧ w_trace w' = w_trace w ++ (EvSvc <$> calls).

Lemma called_nil w : called [] w w.
Proof. split; [done|]. by rewrite app_nil_r. Qed.

Lemma called_app l1 l2 w1 w2 w3 : called l1 w1 w2 → called l2 w2 w3 → called (l1 ++ l2) w1 w3.
Proof. intros [S1 T1] [S2 T2]. split; [by etrans|]. by rewrite T2, T1, fmap_app, app_assoc. Qed.

Lemma ask_called c w (P : option error → World → Prop) E :
  (∀ r w', called [c] w w' → P r w') → returns (ask (ESvc c)) w P E.
Proof. intros HP. apply returns_ask. intros r w' Hs Ht. by apply HP. Qed.

Lemma stop_part_called b c msg result w :
  returns (stop_part b (ask (ESvc c)) msg result) w
    (λ r w', called (part b c) w w' ∧ (r = None → result = None)) (λ _ _, False).
Proof.
  unfold stop_part. destruct b; [|apply returns_ret; split; [apply called_nil|done]].
  eapply (returns_bind _ _ _ _ (λ _ _, False)); [apply ask_called; intros r w' Hc; exact (conj I Hc)| |done].
  intros r w' [_ Hc]. apply returns_ret. split; [done|]. destruct r, result; done.
Qed.

Lemma close_part_called b c w :
  returns (close_part b c) w (λ _ w', called (part b c) w w') (λ _ _, False).
Proof.
  unfold close_part. destruct b; [|apply returns_ret, called_nil].
  eapply (returns_bind _ _ _ _ (λ _ _, False)); [apply ask_called; intros r w' Hc; exact Hc| |done].
  intros r w' Hc. by apply returns_ret.
Qed.

(** The driver can be stopped: a running one was never stopped before. *)
Definition stoppable (d : DriverState) : Prop :=
  locked d = false ∧ (running d = true → done_closed d = false).

(** What the stop of the driver leaves. *)
Definition driver_stopped w w' : Prop :=
  rows w' = rows w ∧ running (w_driver w') = false ∧ w_trace w' = w_trace w ∧
  (running (w_driver w) = false → w' = w).

Lemma StopIfRunning_returns w :
  stoppable (w_driver w) →
  returns StopL2OutputSubmittingIfRunning w
    (λ _ w', driver_stopped w w' ∧ (running (w_driver w) = true → clients_closed w w'))
    (λ _ w', driver_stopped w w').
Proof.
  intros [Hl Hd].
  assert (returns StopL2OutputSubmittingIfRunning w
    (λ _ w', rows w' = rows w ∧ running (w_driver w') = false ∧ (running (w_driver w) = false → w' = w) ∧
       (running (w_driver w) = true → clients_closed w w'))
    (λ _ w', rows w' = rows w ∧ running (w_driver w') = false ∧ (running (w_driver w) = false → w' = w))) as Hs.
  { destruct (running (w_driver w)) eqn:Hr.
    - unfold StopL2OutputSubmittingIfRunning.
      eapply (returns_bind _ _ _ _ (λ _ _, False)); [apply returns_try, Stop_returns; auto| |done].
      intros [e|[]] w'.
      + intros (Hdr & _ & Hrw & -> & _). apply returns_raise. by rewrite Hdr.
      + intros (Hdr & _ & Hrw & Hcl). apply returns_ret. by rewrite Hdr.
    - unfold returns, wp, StopL2OutputSubmittingIfRunning.
      by rewrite run_bind, run_attempt, (Stop_not_running w). }
  pose proof (eventless_run _ w StopIfRunning_eventless) as Ht. unfold returns, wp, driver_stopped in *.
  destruct (run StopL2OutputSubmittingIfRunning w) as [[[]|e| | |] w']; simpl in *; intuition.
Qed.

(** Every part is stopped, in order, whatever the errors of the others. *)
Lemma service_Stop_returns ps w :
  (ps_driver ps = true → stoppable (w_driver w)) → ps_stopped ps = false →
  returns (service_Stop ps) w
    (λ r w', rows w' = rows w ∧ w_trace w' = w_trace w ++ (EvSvc <$> stop_calls ps) ∧
       (if ps_driver ps then running (w_driver w') = false else w_driver w' = w_driver w) ∧
       ((ps_driver ps = true → running (w_driver w) = false) → clients_kept w w') ∧
       match r with
       | (ps', None) => ps' = put_stopped ps ∧
           (ps_driver ps = true → running (w_driver w) = true → clients_closed w w')
       | (ps', Some _) => ps' = ps
       end)
    (λ _ _, False).
Proof.
  intros Hd Hst. unfold service_Stop. rewrite Hst.
  eapply (returns_bind _ _ _ (λ r w', rows w' = rows w ∧ w_trace w' = w_trace w ∧
     (if ps_driver ps then running (w_driver w') = false else w' = w) ∧
     (running (w_driver w) = false → w' = w) ∧
     (r = None → ps_driver ps = true → running (w_driver w) = true → clients_closed w w')) (λ _ _, False)); [|..|done].
  { unfold stop_part. destruct (ps_driver ps); [|by apply returns_ret].
    eapply (returns_bind _ _ _ (λ r w', driver_stopped w w' ∧ (r = None → running (w_driver w) = true → clients_closed w w'))
      (λ _ _, False)); [|..|done].
    - unfold error_of. eapply (returns_bind _ _ _ _ (λ _ _, False)); [by apply returns_try, StopIfRunning_returns, Hd| |done].
      intros [e|[]] w' Ho; apply returns_ret; [by split|]. destruct Ho. by split.
    - intros r w' [(Hr & Hrun & Ht & Hn) Hb]. apply returns_ret. do 4 (split; [done|]). destruct r; [done|auto]. }
  intros r0 w0 (Hr0 & Ht0 & Hd0 & Hn0 & Hb0).
  eapply (returns_bind _ _ _ _ (λ _ _, False)); [apply stop_part_called| |done]. intros r1 w1 [C1 I1].
  eapply (returns_bind _ _ _ _ (λ _ _, False)); [apply stop_part_called| |done]. intros r2 w2 [C2 I2].
  eapply (returns_bind _ _ _ _ (λ _ _, False)); [apply stop_part_called| |done]. intros r3 w3 [C3 I3].
  eapply (returns_bind _ _ _ _ (λ _ _, False)); [apply close_part_called| |done]. intros ? w4 C4.
  eapply (returns_bind _ _ _ _ (λ _ _, False)); [apply stop_part_called| |done]. intros r5 w5 [C5 I5].
  eapply (returns_bind _ _ _ _ (λ _ _, False)); [apply close_part_called| |done]. intros ? w6 C6.
  eapply (returns_bind _ _ _ _ (λ _ _, False)); [apply close_part_called| |done]. intros ? w7 C7.
  assert (called (stop_calls ps) w0 w7) as [Hs Ht].
  { unfold stop_calls. do 3 (eapply called_app; [first [exact C1|exact C2|exact C3]|]).
    do 3 (eapply called_app; [first [exact C4|exact C5|exact C6]|]). exact C7. }
  assert (rows w7 = rows w ∧ w_trace w7 = w_trace w ++ (EvSvc <$> stop_calls ps) ∧
    (if ps_driver ps then running (w_driver w7) = false else w_driver w7 = w_driver w) ∧
    ((ps_driver ps = true → running (w_driver w) = false) → clients_kept w w7)) as Hpost.
  { split; [by rewrite (same_proc_rows _ _ Hs)|]. split; [by rewrite Ht, Ht0|].
    destruct Hs as (_ & Hw & Hro & _ & _ & -> & _). split; [destruct (ps_driver ps); [done|by rewrite Hd0]|].
    intros Hrun. unfold clients_kept. rewrite Hw, Hro. destruct (ps_driver ps); [by rewrite (Hn0 (Hrun eq_refl))|by rewrite Hd0]. }
  destruct r5 as [err|]; apply returns_ret; do 4 (split; [apply Hpost|]); [done|].
  split; [done|]. intros Hdr Hrun. destruct Hs as (_ & Hw & Hro & _).
  unfold clients_closed, both_closed, clients_kept in *. rewrite Hw, Hro. apply Hb0; auto.
Qed.

End stop.

(** ** Construction *)

(** The call that gives back what a call has started. *)
Definition closing (c : SvcCall) : option SvcCall :=
  match c with
  | DialL1 _ => Some CloseL1
  | DialActiveRollup _ | DialStaticRollup _ => Some CloseRollup
  | NewTxManager => Some CloseTxManager
  | StartBalance => Some CloseBalance
  | StartMetricsServer => Some StopMetricsServer
  | StartPprof => Some StopPprof
  | StartRpc _ => Some StopRpc
  | _ => None
  end.

(** [Stop] of the service gives back all of [calls], and only what is in [tried]. *)
Definition releases (stops calls : list SvcCall) : Prop :=
  ∀ c s, c ∈ calls → closing c = Some s → s ∈ stops.
Definition backed (stops tried : list SvcCall) : Prop :=
  ∀ s, s ∈ stops → ∃ c, c ∈ tried ∧ closing c = Some s.
Definition balanced (stops calls tried : list SvcCall) : Prop := releases stops calls ∧ backed stops tried.

Lemma balanced_snoc stops stops' calls c :
  balanced stops calls (calls ++ [c]) → (∀ s, s ∈ stops' ↔ s ∈ stops ∨ closing c = Some s) →
  balanced stops' (calls ++ [c]) (calls ++ [c]).
Proof.
  intros [R B] Hs. split.
  - intros x s [Hx| ->%list_elem_of_singleton]%elem_of_app Hc; apply Hs; eauto.
  - intros s [Hi|Hc]%Hs; [by apply B|]. exists c. split; [|done]. apply elem_of_app. right. by apply list_elem_of_singleton.
Qed.

Lemma backed_app stops l1 l2 : backed stops l1 → backed stops (l1 ++ l2).
Proof. intros B s (c & Hc & Hs)%B. exists c. split; [|done]. apply elem_of_app. by left. Qed.

Lemma balanced_weaken stops calls l : balanced stops calls calls → balanced stops calls (calls ++ l).
Proof. intros [R B]. split; [done|by apply backed_app]. Qed.

Section construction.
Context `{OpService, SqlLaws, External}.
Implicit Types (w : World) (ps : ProposerService) (cfg : CLIConfig).

(** The calls that start everything, in order. *)
Definition rollup_call cfg : SvcCall :=
  if contains_char ","%char (c_RollupRpc cfg) then DialActiveRollup (split_on ","%char (c_RollupRpc cfg))
  else DialStaticRollup (c_RollupRpc cfg).
Definition dial_calls cfg : list SvcCall := [DialL1 (c_L1EthRpc cfg); rollup_call cfg; NewTxManager].
Definition metrics_calls cfg : list SvcCall :=
  if MetricsEnabled (c_MetricsConfig cfg) then [StartBalance; StartMetricsServer] else [].
Definition start_calls cfg : list SvcCall :=
  dial_calls cfg ++ metrics_calls cfg ++ [StartPprof; StartRpc (EnableAdmin (c_RPCConfig cfg))].

(** The configuration of the proposer, from the command line's. *)
Definition service_config cfg : ProposerConfig :=
  initDGF cfg (initL2ooAddress cfg (copy_config cfg zeroConfig)).

(** A service under construction: [calls] were made, all of them with success,
    and the driver is not made yet; [tried] has the call to come, if its part is
    set before the call. *)
Record stage cfg w (calls tried : list SvcCall) ps w' : Prop := mkStage {
  st_trace : w_trace w' = w_trace w ++ (EvSvc <$> calls);
  st_rel : balanced (stop_calls ps) calls tried;
  st_cfg : ps_config ps = service_config cfg;
  st_reg : ps_registry ps = MetricsEnabled (c_MetricsConfig cfg);
  st_driver : ps_driver ps = false;
  st_stopped : ps_stopped ps = false;
  st_clients : clients_kept w w';
}.

(** What a construction that failed in [bad] leaves of the clients of the
    database, which nothing closes again: nothing was opened yet, or the driver
    could not be made, or it is there and the RPC server is what failed. *)
Definition clients_left cfg (bad : list SvcCall) w w' : Prop :=
  match bad with
  | [] => ∃ e, driver_left (service_config cfg) e w w'
  | StartRpc _ :: _ => both_open w'
  | _ => clients_kept w w'
  end.

Lemma clients_left_kept cfg bad w w1 w2 :
  clients_left cfg bad w w1 → clients_kept w1 w2 → clients_left cfg bad w w2.
Proof.
  intros HL HK. destruct bad as [|[] l]; simpl in *; try (by etrans).
  - destruct HL as [e HL]. exists e. by eapply driver_left_later.
  - by eapply both_open_kept.
Qed.

Lemma clients_left_since cfg bad w w1 w2 :
  clients_kept w w1 → clients_left cfg bad w1 w2 → clients_left cfg bad w w2.
Proof.
  intros HK HL. destruct bad as [|[] l]; simpl in *; try done; try (by etrans).
  destruct HL as [e HL]. exists e. by eapply driver_left_kept.
Qed.

(** A construction that failed after [ok], in the call [bad] or, when that is
    empty, in the driver. *)
Definition failed_stage cfg w ps w' : Prop :=
  ∃ ok bad, w_trace w' = w_trace w ++ (EvSvc <$> (ok ++ bad)) ∧ balanced (stop_calls ps) ok (ok ++ bad) ∧
    ok ++ bad `prefix_of` start_calls cfg ∧ (length bad <= 1)%nat ∧ ps_stopped ps = false ∧
    (ps_driver ps = true → not_started (w_driver w')) ∧ clients_left cfg bad w w'.

(** The result of a step: [good] or a failure. *)
Definition result cfg w (good : ProposerService → World → Prop) (r : ProposerService * option error) w' : Prop :=
  match r with (ps, None) => good ps w' | (ps, Some _) => failed_stage cfg w ps w' end.

Lemma step_then_returns cfg w good good' p k w1 :
  returns p w1 (result cfg w good) (λ _ _, False) →
  (∀ ps w2, good ps w2 → returns (k ps) w2 (result cfg w good') (λ _ _, False)) →
  returns (step_then p k) w1 (result cfg w good') (λ _ _, False).
Proof.
  intros Hp Hk. unfold step_then. eapply returns_bind; [exact Hp| |done].
  intros [ps [err|]] w2 Hr; [by apply returns_ret|by apply Hk].
Qed.

Lemma wrap_step_returns cfg w good msg p w1 :
  returns p w1 (result cfg w good) (λ _ _, False) → returns (wrap_step msg p) w1 (result cfg w good) (λ _ _, False).
Proof.
  intros Hp. unfold wrap_step. eapply returns_bind; [exact Hp| |done].
  intros [ps [err|]] w2 Hr; by apply returns_ret.
Qed.

(** [put] adds the part that [c] started. *)
Definition adds (put : ProposerService → ProposerService) (c : SvcCall) : Prop :=
  ∀ ps, ps_config (put ps) = ps_config ps ∧ ps_registry (put ps) = ps_registry ps ∧
    ps_driver (put ps) = ps_driver ps ∧ ps_stopped (put ps) = ps_stopped ps ∧
    (∀ s, s ∈ stop_calls (put ps) ↔ s ∈ stop_calls ps ∨ closing c = Some s).

Lemma trace_snoc t l c (t1 t2 : list Event) :
  t1 = t ++ (EvSvc <$> l) → t2 = t1 ++ [EvSvc c] → t2 = t ++ (EvSvc <$> (l ++ [c])).
Proof. intros -> ->. by rewrite fmap_app, <- app_assoc. Qed.

Lemma stage_add cfg w calls ps w1 w2 put c :
  stage cfg w calls (calls ++ [c]) ps w1 → adds put c → same_proc w1 w2 → w_trace w2 = w_trace w1 ++ [EvSvc c] →
  stage cfg w (calls ++ [c]) (calls ++ [c]) (put ps) w2.
Proof.
  intros [T R C G D S K] Ha Hs2 Ht. destruct (Ha ps) as (E1 & E2 & E3 & E4 & Hs). split; try congruence.
  - by eapply trace_snoc.
  - by eapply balanced_snoc.
  - etrans; [exact K|apply (same_proc_kept _ _ Hs2)].
Qed.

Lemma stage_weaken cfg w calls l ps w1 : stage cfg w calls calls ps w1 → stage cfg w calls (calls ++ l) ps w1.
Proof. intros []. split; auto. by apply balanced_weaken. Qed.

Lemma svc_step_returns cfg w calls rest c msg put ps w1 :
  stage cfg w calls (calls ++ [c]) ps w1 → adds put c → start_calls cfg = calls ++ c :: rest →
  (∀ b, c ≠ StartRpc b) →
  returns (svc_step c msg put ps) w1 (result cfg w (stage cfg w (calls ++ [c]) (calls ++ [c]))) (λ _ _, False).
Proof.
  intros Hs Ha Hc Hne. unfold svc_step.
  eapply (returns_bind _ _ _ _ (λ _ _, False)); [apply ask_called; intros r w2 Hw; exact Hw| |done].
  intros [err|] w2 [Hsame Ht]; apply returns_ret; [|by eapply stage_add].
  destruct Hs as [T R C G D S K]. exists calls, [c]. split; [by eapply trace_snoc|].
  split; [done|]. split; [exists rest; by rewrite Hc, <- app_assoc|].
  split; [simpl; lia|]. split; [done|]. split; [congruence|].
  assert (clients_kept w w2) as K2 by (etrans; [exact K|apply (same_proc_kept _ _ Hsame)]).
  destruct c; try exact K2. by destruct (Hne admin).
Qed.

Lemma elem_of_part s b c : s ∈ part b c ↔ b = true ∧ s = c.
Proof.
  unfold part. destruct b; [rewrite list_elem_of_singleton|rewrite elem_of_nil]; intuition congruence.
Qed.

Ltac adds :=
  intros []; do 4 (split; [reflexivity|]); intros ?; unfold stop_calls;
  rewrite !elem_of_app, !elem_of_part; simpl; split; intuition congruence.

Lemma adds_L1 u : adds put_L1Client (DialL1 u).
Proof. adds. Qed.
Lemma adds_rollup cfg : adds put_RollupProvider (rollup_call cfg).
Proof. unfold rollup_call. destruct (contains_char _ _); adds. Qed.
Lemma adds_tx : adds put_TxManager NewTxManager.
Proof. adds. Qed.
Lemma adds_balance : adds put_balance StartBalance.
Proof. adds. Qed.
Lemma adds_metrics : adds put_metricsSrv StartMetricsServer.
Proof. adds. Qed.
Lemma adds_pprof : adds put_pprof StartPprof.
Proof. adds. Qed.
Lemma adds_rpc b : adds put_rpcServer (StartRpc b).
Proof. adds. Qed.

(** *** The steps *)

(** All of [calls] were made and nothing else. *)
Definition at_calls cfg w calls ps w' : Prop := stage cfg w calls calls ps w'.

Lemma next_call cfg w calls c rest msg put ps w1 :
  at_calls cfg w calls ps w1 → adds put c → start_calls cfg = calls ++ c :: rest →
  (∀ b, c ≠ StartRpc b) →
  returns (svc_step c msg put ps) w1 (result cfg w (at_calls cfg w (calls ++ [c]))) (λ _ _, False).
Proof. intros Hs. eapply svc_step_returns. by apply stage_weaken. Qed.

Lemma step_L1 cfg w ps w1 :
  at_calls cfg w [] ps w1 →
  returns (initRPCClients cfg ps) w1 (result cfg w (at_calls cfg w [DialL1 (c_L1EthRpc cfg); rollup_call cfg])) (λ _ _, False).
Proof.
  intros Hs. unfold initRPCClients. eapply step_then_returns.
  - eapply (next_call _ _ []); [exact Hs|apply adds_L1|reflexivity|done].
  - intros ps2 w2 Hs2. eapply (next_call _ _ [_]); [exact Hs2|apply (adds_rollup cfg)|reflexivity|].
    unfold rollup_call. by destruct (contains_char _ _).
Qed.

Lemma step_tx cfg w ps w1 :
  at_calls cfg w [DialL1 (c_L1EthRpc cfg); rollup_call cfg] ps w1 →
  returns (initTxManager ps) w1 (result cfg w (at_calls cfg w (dial_calls cfg))) (λ _ _, False).
Proof. intros Hs. eapply (next_call _ _ [_; _]); [exact Hs|apply adds_tx|reflexivity|done]. Qed.

(** After the balance monitor, with metrics. *)
Definition balance_calls cfg : list SvcCall :=
  if MetricsEnabled (c_MetricsConfig cfg) then dial_calls cfg ++ [StartBalance] else dial_calls cfg.

Lemma step_balance cfg w ps w1 :
  at_calls cfg w (dial_calls cfg) ps w1 →
  returns (initBalanceMonitor cfg ps) w1 (λ ps' w', at_calls cfg w (balance_calls cfg) ps' w') (λ _ _, False).
Proof.
  intros Hs. unfold initBalanceMonitor, balance_calls. destruct (MetricsEnabled _); [|by apply returns_ret].
  eapply (returns_bind _ _ _ _ (λ _ _, False)); [apply ask_called; intros r w2 Hc; exact (conj I Hc)| |done].
  intros _ w2 [_ [Hsm Ht]]. apply returns_ret. eapply stage_add; [by apply stage_weaken|apply adds_balance|done..].
Qed.

Lemma step_metrics cfg w ps w1 :
  at_calls cfg w (balance_calls cfg) ps w1 →
  returns (initMetricsServer cfg ps) w1 (result cfg w (at_calls cfg w (dial_calls cfg ++ metrics_calls cfg))) (λ _ _, False).
Proof.
  intros Hs. pose proof (st_reg _ _ _ _ _ _ Hs) as Hr.
  unfold initMetricsServer, balance_calls, metrics_calls, start_calls in *. destruct (MetricsEnabled _) eqn:E; simpl negb.
  - rewrite Hr. eapply (next_call _ _ (dial_calls cfg ++ [StartBalance])); [exact Hs|apply adds_metrics| |done].
    unfold start_calls, metrics_calls. by rewrite E.
  - rewrite app_nil_r. by apply returns_ret.
Qed.

Lemma step_pprof cfg w ps w1 :
  at_calls cfg w (dial_calls cfg ++ metrics_calls cfg) ps w1 →
  returns (initPProf ps) w1 (result cfg w (at_calls cfg w (dial_calls cfg ++ metrics_calls cfg ++ [StartPprof]))) (λ _ _, False).
Proof.
  intros Hs. unfold initPProf.
  set (calls := dial_calls cfg ++ metrics_calls cfg) in *.
  assert (stage cfg w calls (calls ++ [StartPprof]) (put_pprof ps) w1) as Hs'.
  { destruct Hs as [T [R B] C G D S K]. destruct (adds_pprof ps) as (E1 & E2 & E3 & E4 & Hi). split; try congruence. split.
    - intros c s Hc Hx. apply Hi. left. by eapply R.
    - intros s [(c & Hc & Hx)%B|Hx]%Hi; [exists c|exists StartPprof]; (split; [|done]); apply elem_of_app; [by left|right].
      by apply list_elem_of_singleton. }
  assert (∀ p, svc_step StartPprof (wrap "failed to start pprof service: %w") id (put_pprof p) =
    svc_step StartPprof (wrap "failed to start pprof service: %w") put_pprof (put_pprof p)) as -> by by intros [].
  rewrite (assoc_L (++)). eapply svc_step_returns; [exact Hs'|apply adds_pprof| |done].
  unfold start_calls, calls. by rewrite <- (assoc_L (++)).
Qed.

(** The service with its driver, and the database open. *)
Record driven cfg w (calls : list SvcCall) ps w' : Prop := mkDriven {
  dr_trace : w_trace w' = w_trace w ++ (EvSvc <$> calls);
  dr_rel : balanced (stop_calls ps) calls calls;
  dr_cfg : ps_config ps = service_config cfg;
  dr_made : ps_driver ps = true;
  dr_stopped : ps_stopped ps = false;
  dr_fresh : w_driver w' = fresh_driver;
  dr_open : both_open w';
  dr_addr : ∃ a, L2OutputOracleAddr (service_config cfg) = Some a;
}.

Lemma step_driver cfg w calls rest ps w1 :
  at_calls cfg w calls ps w1 → start_calls cfg = calls ++ rest →
  returns (initDriver ps) w1 (result cfg w (driven cfg w calls)) (λ _ _, False).
Proof.
  intros [T R C G D S K] Hc. unfold initDriver.
  pose proof (eventless_run _ w1 (eventless_attempt _ (New_eventless (ps_config ps)))) as Ht.
  assert (returns (attempt (NewL2OutputSubmitter (ps_config ps))) w1 (λ r w', w_trace w' = w_trace w1 ∧
    match r with
    | inr _ => w_driver w' = fresh_driver ∧ both_open w' ∧ ∃ a, L2OutputOracleAddr (ps_config ps) = Some a
    | inl e => not_started (w_driver w') ∧ driver_left (ps_config ps) e w1 w'
    end) (λ _ _, False)) as Hn.
  { pose proof (returns_try _ _ _ _ (New_returns (ps_config ps) w1)) as Hn. unfold returns, wp in *.
    destruct (run (attempt _) w1) as [[[]|e| | |] w2]; simpl in *; intuition. }
  eapply (returns_bind _ _ _ _ (λ _ _, False)); [exact Hn| |done].
  intros [err|[]] w2 [Ht2 Hp]; apply returns_ret; simpl.
  - exists calls, []. rewrite app_nil_r. split; [by rewrite Ht2, T|]. split; [done|]. split; [by exists rest|].
    split; [simpl; lia|]. split; [done|]. split; [congruence|]. destruct Hp as [_ HL]. exists err.
    rewrite <- C. by eapply driver_left_kept.
  - destruct Hp as (Hf & Ho & Ha). rewrite C in Ha. destruct ps.
    split; [by rewrite Ht2, T|exact R|exact C|done|exact S|done..].
Qed.

Lemma step_rpc cfg w ps w1 :
  driven cfg w (dial_calls cfg ++ metrics_calls cfg ++ [StartPprof]) ps w1 →
  returns (initRPCServer cfg ps) w1 (result cfg w (driven cfg w (start_calls cfg))) (λ _ _, False).
Proof.
  intros [T R C D S F O A]. unfold initRPCServer, svc_step.
  eapply (returns_bind _ _ _ _ (λ _ _, False)); [apply ask_called; intros r w2 Hw; exact Hw| |done].
  assert (start_calls cfg =
    (dial_calls cfg ++ metrics_calls cfg ++ [StartPprof]) ++ [StartRpc (EnableAdmin (c_RPCConfig cfg))]) as Hc
    by by unfold start_calls; rewrite <- !app_assoc.
  intros r w2 [(_ & Hw & Hr & _ & _ & Hdr & _) Ht].
  assert (both_open w2) as O2 by (unfold both_open in *; by rewrite Hw, Hr).
  destruct r as [err|]; apply returns_ret.
  - eexists _, [_]. split; [eapply trace_snoc; [exact T|exact Ht]|].
    split; [by apply balanced_weaken|].
    split; [by rewrite Hc|]. split; [simpl; lia|]. split; [done|]. rewrite Hdr, F. by split.
  - destruct (adds_rpc (EnableAdmin (c_RPCConfig cfg)) ps) as (E1 & E2 & E3 & E4 & Hi). split; try congruence.
    + rewrite Hc. eapply trace_snoc; [exact T|exact Ht].
    + rewrite Hc. eapply balanced_snoc; [by apply balanced_weaken|done].
Qed.

(** *** The whole construction *)

Definition started cfg w (ps : ProposerService) w' : Prop := driven cfg w (start_calls cfg) ps w'.

Lemma metric_keeps {A} m (k : prog A) w P E :
  (∀ w', w_trace w' = w_trace w → w_driver w' = w_driver w → (both_open w → both_open w') → returns k w' P E) →
  returns (_ ← metric m; k) w P E.
Proof. intros Hk. unfold metric, returns, wp. rewrite run_bind, run_proc. destruct w. apply Hk; done. Qed.

Lemma driven_keeps cfg w calls ps w1 w2 :
  driven cfg w calls ps w1 → w_trace w2 = w_trace w1 → w_driver w2 = w_driver w1 → (both_open w1 → both_open w2) →
  driven cfg w calls ps w2.
Proof. intros [T R C D S F O A] Ht Hd Ho. split; try congruence; auto. Qed.

Lemma initFromCLIConfig_returns version cfg w :
  returns (initFromCLIConfig version cfg zeroService) w (result cfg w (started cfg w)) (λ _ _, False).
Proof.
  unfold initFromCLIConfig.
  eapply (returns_bind _ _ _ (λ ps w', w_trace w' = w_trace w ∧
    clients_kept w w' ∧
    ps = put_registry (MetricsEnabled (c_MetricsConfig cfg)) (put_version version zeroService)) (λ _ _, False)); [|..|done].
  { unfold initMetrics, returns, wp. rewrite run_bind, run_proc. by destruct w. }
  intros ps0 w0 (T0 & K0 & ->).
  eapply step_then_returns; [apply step_L1|].
  { split; simpl; try done; [by rewrite app_nil_r|]. split; [by intros c s ?%elem_of_nil|by intros s ?%elem_of_nil]. }
  intros ps1 w1 S1. eapply step_then_returns; [by apply wrap_step_returns, step_tx|].
  intros ps2 w2 S2. eapply returns_bind; [by apply step_balance| |done].
  intros ps3 w3 S3. eapply step_then_returns; [by apply wrap_step_returns, step_metrics|].
  intros ps4 w4 S4. eapply step_then_returns; [by apply wrap_step_returns, step_pprof|].
  intros ps5 w5 S5. eapply step_then_returns; [eapply wrap_step_returns, step_driver; [exact S5|]|].
  { unfold start_calls. by rewrite <- !app_assoc. }
  intros ps6 w6 S6. eapply step_then_returns; [by apply wrap_step_returns, step_rpc|].
  intros ps7 w7 S7. apply metric_keeps. intros w8 T8 D8 O8. apply metric_keeps. intros w9 T9 D9 O9.
  apply returns_ret. eapply driven_keeps; [eapply driven_keeps; [exact S7|..]|..]; done.
Qed.

(** What is left of a construction that failed: every part that was started
    by a call is stopped, and nothing else is; but not the database. *)
Definition undone cfg w w' : Prop :=
  ∃ ok bad stops, w_trace w' = w_trace w ++ (EvSvc <$> (ok ++ bad ++ stops)) ∧
    ok ++ bad `prefix_of` start_calls cfg ∧ (length bad <= 1)%nat ∧ balanced stops ok (ok ++ bad) ∧
    clients_left cfg bad w w'.

Lemma failed_stage_Stop cfg w ps w1 :
  failed_stage cfg w ps w1 → returns (service_Stop ps) w1 (λ _ w', undone cfg w w') (λ _ _, False).
Proof.
  intros (ok & bad & Ht & Hb & Hp & Hl & Hs & Hd & Ho).
  eapply returns_mono; [apply service_Stop_returns; [|done]|..|done].
  - intros Hdr. destruct (Hd Hdr) as [Hr Hk]. split; [done|]. by rewrite Hr.
  - intros r w' (_ & Ht' & Hdr & Hop & _). exists ok, bad, (stop_calls ps).
    split; [by rewrite Ht', Ht, !fmap_app, <- !app_assoc|]. do 3 (split; [done|]).
    eapply clients_left_kept; [exact Ho|]. apply Hop. intros Hdr'. apply (Hd Hdr').
Qed.

(** [initDGF] sets no address of the output oracle. *)
Lemma service_config_l2oo cfg a :
  L2OutputOracleAddr (service_config cfg) = Some a ↔ ParseAddress (c_L2OOAddress cfg) = inr a.
Proof.
  unfold service_config, initDGF, initL2ooAddress, copy_config.
  destruct (ParseAddress (c_L2OOAddress cfg)), (ParseAddress (c_DGFAddress cfg)); simpl; naive_solver.
Qed.

Lemma ProposerServiceFromCLIConfig_shape version cfg w :
  match run (ProposerServiceFromCLIConfig version cfg) w with
  | (Ok ps, w') => started cfg w ps w'
  | (Fail _, w') => undone cfg w w'
  | _ => False
  end.
Proof.
  assert (returns (ProposerServiceFromCLIConfig version cfg) w (started cfg w) (λ _ w', undone cfg w w')) as Hret.
  { unfold ProposerServiceFromCLIConfig.
    eapply (returns_bind _ _ _ _ (λ _ _, False)); [apply initFromCLIConfig_returns| |done].
    intros [ps [err|]] w1 Hr; simpl in *; [|by apply returns_ret].
    eapply (returns_bind _ _ _ _ (λ _ _, False)); [by apply failed_stage_Stop| |done].
    intros r w2 Hu. by apply returns_raise. }
  unfold returns, wp in Hret. by destruct (run _ w) as [[ps|e| | |] w'].
Qed.

(** C31: the construction of the service from the command line's
    configuration always returns.  When it succeeds, every part was started,
    once and in order, the service holds exactly those parts, the database is
    open, the driver does not run yet, and the address of the output oracle was
    one.  When it fails, the calls made are a prefix of that order, every part
    that a call started before the failing one is stopped again, and no part is
    stopped that was not asked for.  The database is not such a part, and
    nothing closes it.  Its clients are as they were when the failure came before
    the driver, or in the driver before [InitDB]; when [InitDB] could not make
    its directory they are as they were, when it could not open a client the
    clients before that one stay open, and when it could not create the schema
    both stay open; and both stay open when the RPC server is what failed. *)
Theorem ProposerServiceFromCLIConfig_all_or_nothing version cfg w :
  match run (ProposerServiceFromCLIConfig version cfg) w with
  | (Ok ps, w') =>
      w_trace w' = w_trace w ++ (EvSvc <$> start_calls cfg) ∧
      balanced (stop_calls ps) (start_calls cfg) (start_calls cfg) ∧
      ps_config ps = service_config cfg ∧ ps_driver ps = true ∧ service_Stopped ps = false ∧
      w_driver w' = fresh_driver ∧ both_open w' ∧ ∃ a, ParseAddress (c_L2OOAddress cfg) = inr a
  | (Fail _, w') => undone cfg w w'
  | _ => False
  end.
Proof.
  pose proof (ProposerServiceFromCLIConfig_shape version cfg w) as Hs.
  destruct (run _ w) as [[ps|e| | |] w']; try done.
  destruct Hs as [T R C D S F O (a & Ha)]. rewrite service_config_l2oo in Ha. eauto 10.
Qed.

End construction.

(** ** Shutdown *)

Section shutdown.
Context `{SqlLaws, External}.
Implicit Types (w : World) (ps : ProposerService).

(** C32: [Stop] stops every part of the service once, in order, whatever the
    errors of the others; the driver no longer runs and the table stays as it
    is.  The service counts as stopped exactly when no part had an error, and
    then a second [Stop] does nothing and says so; otherwise a second [Stop]
    starts over with all parts. *)
Theorem service_Stop_stops_everything ps w :
  (ps_driver ps = true → stoppable (w_driver w)) →
  match run (service_Stop ps) w with
  | (Ok (ps', res), w') =>
      if ps_stopped ps then ps' = ps ∧ res = Some ErrAlreadyStopped ∧ w' = w
      else
        w_trace w' = w_trace w ++ (EvSvc <$> stop_calls ps) ∧ rows w' = rows w ∧
        (ps_driver ps = true → running (w_driver w') = false ∧
           (res = None → running (w_driver w) = true →
            if db_set (w_driver w) then both_closed w' else clients_kept w w')) ∧
        service_Stopped ps' = bool_decide (res = None) ∧ stop_calls ps' = stop_calls ps ∧
        (res = None → ∀ w2, run (service_Stop ps') w2 = (Ok (ps', Some ErrAlreadyStopped), w2))
  | _ => False
  end.
Proof.
  intros Hd. destruct (ps_stopped ps) eqn:Hs; [unfold service_Stop; by rewrite Hs|].
  pose proof (service_Stop_returns ps w Hd Hs) as Hr. unfold returns, wp in Hr.
  destruct (run (service_Stop ps) w) as [[[ps' res]|e| | |] w']; simpl in Hr; try done.
  destruct Hr as (Hrow & Ht & Hdr & _ & Hres). split; [done|]. split; [done|].
  split; [intros Hp; rewrite Hp in Hdr; split; [done|intros ->; by apply Hres]|].
  destruct res as [err|]; [subst ps'; by rewrite bool_decide_false|]. destruct Hres as [-> _].
  rewrite bool_decide_true by done. by destruct ps.
Qed.

End shutdown.

(** ** The command line *)

(** The flags that [Main] reads into the proposer's configuration, with their
    values there. *)
Definition config_flags `{CliLib} (c : ProposerConfig) : list (Flag * FlagValue) :=
  [(PollIntervalFlag, FDuration (PollInterval c));
   (AllowNonFinalizedFlag, FBool (AllowNonFinalized c));
   (WaitNodeSyncFlag, FBool (WaitNodeSync c));
   (UseCachedDbFlag, FBool (UseCachedDb c));
   (BeaconRpcFlag, FString (BeaconRpc c));
   (RollupRpcFlag, FString (RollupRpc c));
   (MaxBlockRangePerSpanProofFlag, FUint64 (MaxBlockRangePerSpanProof c));
   (MaxConcurrentWitnessGenFlag, FUint64 (MaxConcurrentWitnessGen c));
   (WitnessGenTimeoutFlag, FUint64 (WitnessGenTimeout c));
   (ProofTimeoutFlag, FUint64 (ProofTimeout c));
   (OPSuccinctServerUrlFlag, FString (OPSuccinctServerUrl c));
   (MaxConcurrentProofRequestsFlag, FUint64 (MaxConcurrentProofRequests c));
   (MockFlag, FBool (Mock c))].

Section command_line.
Context `{OpService, SqlLaws, External}.
Implicit Types (w : World) (cfg : CLIConfig) (ctx : cli_Context).

Lemma check_set_None ctx l : check_set ctx l = None ↔ ∀ f, f ∈ l → IsSet ctx (Name f) = true.
Proof.
  induction l as [|f l IH]; simpl; [split; [by intros _ f ?%elem_of_nil|done]|].
  destruct (IsSet ctx (Name f)) eqn:E.
  - rewrite IH. split; [intros Hl g [->|Hg]%elem_of_cons; auto|intros Hl g Hg; apply Hl, elem_of_cons; by right].
  - split; [done|]. intros Hl. rewrite Hl in E; [done|]. apply elem_of_cons. by left.
Qed.

Lemma check_set_Some ctx l err : check_set ctx l = Some err → ∃ f, f ∈ l ∧ IsSet ctx (Name f) = false.
Proof.
  induction l as [|f l IH]; simpl; [done|]. destruct (IsSet ctx (Name f)) eqn:E.
  - intros (g & Hg & Hf)%IH. exists g. split; [apply elem_of_cons; by right|done].
  - intros _. exists f. split; [apply elem_of_cons; by left|done].
Qed.

Lemma config_flags_copied cfg : config_flags (service_config cfg) = config_flags (copy_config cfg zeroConfig).
Proof.
  unfold service_config, initDGF, initL2ooAddress. by destruct (ParseAddress (c_L2OOAddress cfg)), (ParseAddress _).
Qed.

Lemma config_flags_known c f v : (f, v) ∈ config_flags c → f ∈ AllFlags.
Proof.
  intros Hi. unfold AllFlags. apply elem_of_app. unfold config_flags, requiredFlags, optionalFlags in *.
  rewrite elem_of_app, !elem_of_cons.
  repeat (apply elem_of_cons in Hi as [Hi|Hi]; [injection Hi as -> _; tauto|]). by apply elem_of_nil in Hi.
Qed.

(** The configuration read from the command line. *)
Record read_from ctx cfg : Prop := mkReadFrom {
  rf_flags : ∀ f v, (f, v) ∈ config_flags (service_config cfg) → v = flag_value ctx f;
  rf_l2oo : c_L2OOAddress cfg = ctx_String ctx "l2oo-address";
  rf_dgf : c_DGFAddress cfg = ctx_String ctx "dgf-address";
  rf_path : DbPath (service_config cfg) =
    filepath_Join [ctx_String ctx "db-path"; FormatUint (L2ChainID (service_config cfg)); "proofs.db"%string];
  rf_retry : OutputRetryInterval (service_config cfg) = 0;
}.

Lemma run_fatal {A} (p : prog A) w :
  run (fatal p) w =
  match run p w with (Fail _, w') => (Panicked "log.Fatal", w') | r => r end.
Proof. unfold fatal. rewrite run_bind, run_attempt. by destruct (run p w) as [[] ?]. Qed.

Lemma NewConfig_outcome ctx w :
  match run (NewConfig ctx) w with
  | (Ok cfg, w') => read_from ctx cfg ∧ w_trace w' = w_trace w ∧ clients_kept w w'
  | (Panicked _, w') => w_trace w' = w_trace w
  | _ => False
  end.
Proof.
  assert (eventless (NewConfig ctx)) as He by (unfold NewConfig, fatal, call; eventless).
  pose proof (eventless_run _ w He) as Ht. revert Ht. clear He. unfold NewConfig, call.
  rewrite run_bind, run_fatal, run_bind, run_ask.
  pose proof (same_proc_kept _ _ (exec_ext_same EDialRollup w)) as [_ K1].
  destruct (exec_ext EDialRollup w) as [[err|] w1]; cbn [run_then fst snd lift_err run]; [done|].
  rewrite run_bind, run_fatal, run_bind, run_ask.
  pose proof (same_proc_kept _ _ (exec_ext_same ERollupConfig w1)) as [_ K2].
  destruct (exec_ext ERollupConfig w1) as [[err|id] w2]; cbn [run_then fst snd lift run]; [done|]. intros Ht.
  split; [|split; [done|exact (transitivity K1 K2)]]. split.
  - intros f v. rewrite config_flags_copied. intros Hi. unfold config_flags in Hi.
    repeat (apply elem_of_cons in Hi as [Hi|Hi]; [by simplify_eq|]). by apply elem_of_nil in Hi.
  - done.
  - done.
  - unfold service_config, initDGF, initL2ooAddress. by destruct (ParseAddress _), (ParseAddress _).
  - unfold service_config, initDGF, initL2ooAddress. by destruct (ParseAddress _), (ParseAddress _).
Qed.

(** C33: the process that [Main] starts has the values of the command line
    in its configuration, the default of a flag that is not set included; the
    required flags are set, the address of the output oracle is an address,
    the database lies in a directory named by the chain, and the service was
    built from that configuration.  Without a required flag nothing is done;
    a configuration that fails its check leaves no event, and a construction
    that fails leaves what the theorem on the construction says.  The fields for the
    retry interval have no flag and are zero. *)
Theorem Main_wires_flags version ctx w :
  defaults_apply ctx →
  match run (Main version ctx) w with
  | (Ok ps, w') =>
      let c := ps_config ps in
      (∀ f, f ∈ requiredFlags → IsSet ctx (Name f) = true) ∧
      (∀ f v, (f, v) ∈ config_flags c → v = if IsSet ctx (Name f) then flag_value ctx f else FlagDefault f) ∧
      (∃ a, ParseAddress (ctx_String ctx "l2oo-address") = inr a ∧ L2OutputOracleAddr c = Some a) ∧
      DbPath c = filepath_Join [ctx_String ctx "db-path"; FormatUint (L2ChainID c); "proofs.db"%string] ∧
      OutputRetryInterval c = 0 ∧ w_driver w' = fresh_driver ∧ both_open w'
  | (Fail _, w') =>
      (w' = w ∧ ∃ f, f ∈ requiredFlags ∧ IsSet ctx (Name f) = false) ∨
      ∃ cfg, read_from ctx cfg ∧ ((Check_ cfg ≠ None ∧ w_trace w' = w_trace w) ∨ (Check_ cfg = None ∧ undone cfg w w'))
  | (Panicked _, w') => w_trace w' = w_trace w
  | _ => False
  end.
Proof.
  intros Hdef. unfold Main. destruct (CheckRequired ctx) as [err|] eqn:Hreq.
  { simpl. left. split; [done|]. by eapply check_set_Some. }
  pose proof (proj1 (check_set_None ctx requiredFlags) Hreq) as Hset.
  rewrite run_bind. pose proof (NewConfig_outcome ctx w) as Hn.
  destruct (run (NewConfig ctx) w) as [[cfg|e| | |] w1]; try done. destruct Hn as (Hrf & Ht & HK). cbn [run_then].
  destruct (Check_ cfg) as [err|] eqn:Hc; [cbn [run]; right; exists cfg; split; [done|left; by rewrite Hc]|].
  pose proof (ProposerServiceFromCLIConfig_shape version cfg w1) as Hp.
  destruct (run _ w1) as [[ps|e| | |] w']; try done.
  - destruct Hp as [_ _ C _ _ F O (a & Ha)]. destruct Hrf as [Hfl Hl2 _ Hpath Hre]. rewrite C.
    split; [done|]. split; [|repeat split; try done].
    + intros f v Hi. rewrite (Hfl f v Hi). destruct (IsSet ctx (Name f)) eqn:E; [done|]. apply Hdef; [|done].
      by apply (config_flags_known (service_config cfg) f v).
    + exists a. split; [|done]. rewrite <- Hl2. by apply service_config_l2oo.
    + by apply O.
    + by apply O.
  - right. exists cfg. split; [done|]. right. split; [done|].
    destruct Hp as (ok & bad & stops & Htr & Hpre & Hlen & Hbal & HL). exists ok, bad, stops.
    rewrite <- Ht. do 4 (split; [done|]). by eapply clients_left_since.
Qed.

End command_line.

(** ** A command line *)

(** Flags by name, and no flags of [op-service]. *)
Definition flag_table : list (string * FlagValue) :=
  [("poll-interval", FDuration (secs 12)); ("active-sequencer-check-duration", FDuration (secs 120));
   ("db-path", FString "./op-proposer"); ("max-block-range-per-span-proof", FUint64 50);
   ("max-concurrent-witness-gen", FUint64 5); ("witness-gen-timeout", FUint64 1200);
   ("proof-timeout", FUint64 14400); ("op-succinct-server-url", FString "http://127.0.0.1:3000");
   ("max-concurrent-proof-requests", FUint64 20)]%string.

Definition lookup_flag (l : list (string * FlagValue)) (n : string) : option FlagValue :=
  snd <$> find (λ p, bool_decide (fst p = n)) l.
Definition parsed (set : list (string * FlagValue)) (n : string) : option FlagValue :=
  match lookup_flag set n with Some v => Some v | None => lookup_flag flag_table n end.

#[export] Instance TableCli : CliLib := {|
  cli_Context := list (string * FlagValue);
  IsSet l n := bool_decide (is_Some (lookup_flag l n));
  ctx_String l n := match parsed l n with Some (FString s) => s | _ => ""%string end;
  ctx_Uint64 l n := match parsed l n with Some (FUint64 z) => z | _ => 0 end;
  ctx_Duration l n := match parsed l n with Some (FDuration z) => z | _ => 0 end;
  ctx_Bool l n := match parsed l n with Some (FBool b) => b | _ => false end;
  PrefixEnvVar p n := [(p ++ "_" ++ n)%string];
  L2OutputHDPathFlag := mkFlag "l2-output-hd-path" (FString "") [];
  oprpc_CLIFlags _ := [];
  oplog_CLIFlags _ := [];
  opmetrics_CLIFlags _ := [];
  oppprof_CLIFlags _ := [];
  txmgr_CLIFlags _ := [];
|}.

#[export] Instance TableService : OpService := {|
  RpcCLI := bool; LogCLI := unit; MetricsCLI := bool; PprofCLI := unit; TxMgrCLI := Z;
  oprpc_ReadCLIConfig _ := false;
  oplog_ReadCLIConfig _ := tt;
  opmetrics_ReadCLIConfig l := ctx_Bool l "metrics.enabled";
  oppprof_ReadCLIConfig _ := tt;
  txmgr_ReadCLIConfig _ := secs 10;
  rpc_Check _ := None; metrics_Check _ := None; pprof_Check _ := None; txmgr_Check _ := None;
  EnableAdmin b := b;
  MetricsEnabled b := b;
  tx_NetworkTimeout z := z;
  ParseAddress s := if bool_decide (s = ""%string) then inl (Errorf "invalid address: %v" [AStr s]) else inr [Byte.x01];
|}.

(** A command line with the required flags, the output oracle and metrics. *)
Definition argv : list (string * FlagValue) :=
  [("l1-eth-rpc", FString "http://l1"); ("rollup-rpc", FString "http://a");
   ("beacon-rpc", FString "http://beacon"); ("l2oo-address", FString "0x01"); ("metrics.enabled", FBool true)]%string.

Lemma argv_defaults : defaults_apply argv.
Proof.
  assert (Forall (λ f, IsSet argv (Name f) = false → flag_value argv f = FlagDefault f) AllFlags) as Hall
    by (repeat constructor; intros; reflexivity || done).
  intros f Hf. by apply (proj1 (Forall_forall _ _) Hall).
Qed.

(** The same outside, with the port of the RPC server taken. *)
Definition port_taken {R} (c : ExtCmd R) (s : ScriptState) : R * ScriptState :=
  match c in ExtCmd R return R * ScriptState with
  | ESvc (StartRpc _) => (Some (Errorf "listen tcp: bind: address already in use" []), s)
  | c => script_exec c s
  end.
Definition TakenExternal : External := {|
  ext := ScriptState;
  ext_exec := @port_taken;
  ext_select := script_select;
  Address_Hex a := ("0x" ++ EncodeToString a)%string;
  url_valid _ := true;
  abi_Pack _ _ _ := inr [];
|}.
Definition taken_world : @World ListSql TakenExternal :=
  @mkWorld ListSql TakenExternal (mkListStore [] []) false false None script0 NoopMetrics driver0 [] [].

Definition argv_config : CLIConfig :=
  mkCLIConfig _ _ "http://l1" "http://a,http://b" "0x01" "" (secs 12) false (secs 10) false tt true tt 0 6 (secs 120) false
    "op-proposer/10/proofs.db" false "http://beacon" 50 5 1200 10 14400 "http://127.0.0.1:3000" 20 false.

Definition is_ok {A} (o : outcome A) : bool := match o with Ok _ => true | _ => false end.

(** The script's world with a database that opens, and then cannot be given its
    schema. *)
Definition no_schema_world : World :=
  @mkWorld ListSql ScriptExternal (mkListStore [] [false; false; true]) false false None script0 NoopMetrics driver0 [] [].

Lemma ProposerServiceFromCLIConfig_all_or_nothing_witness :
  let r := run (ProposerServiceFromCLIConfig "v1" argv_config) (world [] script0) in
  let bad := run (ProposerServiceFromCLIConfig (H1 := TakenExternal) "v1" argv_config) taken_world in
  let leak := run (ProposerServiceFromCLIConfig "v1" argv_config) no_schema_world in
  (is_ok r.1 = true ∧ w_trace r.2 = EvSvc <$> start_calls argv_config ∧ w_driver r.2 = fresh_driver) ∧
  (is_ok bad.1 = false ∧ undone argv_config taken_world bad.2) ∧
  (is_ok leak.1 = false ∧ undone argv_config no_schema_world leak.2 ∧ both_open leak.2).
Proof.
  intros r bad leak.
  pose proof (ProposerServiceFromCLIConfig_all_or_nothing "v1" argv_config no_schema_world) as HL. fold leak in HL.
  assert (is_ok leak.1 = false ∧ both_open leak.2) as [Hl Hlo] by (split; [|split]; vm_compute; reflexivity).
  pose proof (ProposerServiceFromCLIConfig_all_or_nothing "v1" argv_config (world [] script0)) as HT. fold r in HT.
  pose proof (ProposerServiceFromCLIConfig_all_or_nothing "v1" argv_config taken_world) as HF. fold bad in HF.
  assert (is_ok r.1 = true) as Ho by (vm_compute; reflexivity).
  assert (is_ok bad.1 = false) as Hb by (vm_compute; reflexivity).
  clearbody r bad leak. destruct r as [[ps|e| | |] w']; [|discriminate Ho|destruct HT..].
  destruct leak as [[ps3|e3| | |] w3]; [discriminate Hl| |destruct HL..].
  destruct bad as [[ps2|e| | |] w2]; [discriminate Hb| |destruct HF..].
  destruct HT as (Ht & _ & _ & _ & _ & Hd & _). split; [exact (conj Ho (conj Ht Hd))|].
  exact (conj (conj Hb HF) (conj Hl (conj HL Hlo))).
Defined.

Lemma service_Stop_stops_everything_witness :
  let ps := put_rpcServer (put_driver (put_L1Client zeroService)) in
  let r := run (service_Stop ps) (world [] script0) in
  w_trace r.2 = [EvSvc StopRpc; EvSvc CloseL1] ∧ running (w_driver r.2) = false.
Proof.
  intros ps r.
  pose proof (service_Stop_stops_everything ps (world [] script0)) as HT.
  assert (ps_driver ps = true → stoppable (w_driver (world [] script0))) as Hd by (intros _; by split).
  specialize (HT Hd). fold r in HT.
  clearbody r. destruct r as [[[ps' res]|e| | |] w']; [|destruct HT..]. destruct HT as (Ht & _ & Hrun & _).
  split; [exact Ht|by apply Hrun].
Defined.

Lemma Main_wires_flags_witness :
  let r := run (Main "v1" argv) (world [] script0) in
  is_ok r.1 = true ∧ ∃ ps, r.1 = Ok ps ∧ MaxBlockRangePerSpanProof (ps_config ps) = 50 ∧
    RollupRpc (ps_config ps) = "http://a"%string.
Proof.
  intros r. pose proof (Main_wires_flags "v1" argv (world [] script0) argv_defaults) as HT. fold r in HT.
  assert (is_ok r.1 = true) as Ho by (vm_compute; reflexivity). split; [done|].
  clearbody r. destruct r as [[ps|e| | |] w']; [|discriminate Ho..]. destruct HT as (_ & Hf & _). exists ps. split; [done|].
  assert (∀ v, v ∈ config_flags (ps_config ps) →
    v.2 = if IsSet argv (Name v.1) then flag_value argv v.1 else FlagDefault v.1) as Hv by (intros [f v]; apply Hf).
  split.
  - assert (FUint64 (MaxBlockRangePerSpanProof (ps_config ps)) = FUint64 50) as E; [|by injection E].
    apply (Hv (MaxBlockRangePerSpanProofFlag, _)). unfold config_flags. rewrite !elem_of_cons. tauto.
  - assert (FString (RollupRpc (ps_config ps)) = FString "http://a") as E; [|by injection E].
    apply (Hv (RollupRpcFlag, _)). unfold config_flags. rewrite !elem_of_cons. tauto.
Defined.
