(* ===== verification/Utils.v ===== *)
(** * The batch tool ([utils/utils.go], [cmd/main.go])

    The ranges of L2 blocks that the span batches on L1 cover: the rollup
    configuration is read and converted, the batches of an L1 window are
    fetched into a directory, loaded, put together per channel and clipped to
    the blocks asked for.  The tool is a process of its own, so its calls are
    not those of [Prog.v]: what op-node and go-ethereum do is the class
    [BatchLib], and the files are a state that is passed along. *)

From Stdlib Require Import ZArith Ascii.
From S2P Require Import Prelude Sql ProofRequest Metrics Encoding Prog Types Json Paths Db.

Set Warnings "-register-all".

Local Open Scope string_scope.
Local Open Scope Z_scope.

(** The outcomes of [Prog.v], without a world. *)
Global Instance outcome_ret : MRet outcome := λ A a, Ok a.
Global Instance outcome_bind : MBind outcome := λ A B f o,
  match o with
  | Ok a => f a
  | Fail e => Fail e
  | Panicked m => Panicked m
  | NoFuel => NoFuel
  | Blocked => Blocked
  end.
Definition of_sum {A} (r : error + A) : outcome A := match r with inl e => Fail e | inr a => Ok a end.
Definition wrapped {A} (msg : string) (r : outcome A) : outcome A :=
  match r with Fail e => Fail (wrap msg e) | r => r end.
(** [log.Fatal] *)
Definition fatal_of {A} (r : outcome A) : outcome A := match r with Fail e => Panicked "log.Fatal" | r => r end.

(** ** The configuration file *)

(** An [interface{}] that [json.Unmarshal] made, and what the conversion
    stores in its place. *)
Inductive goval :=
| GNil
| GBool (b : bool)
| GNumber (literal : string)
| GString (s : string)
| GSlice (l : list goval)
| GMap (m : list (string * goval))
| GInt64 (n : Z)
| GBytes32 (b : bytes).

(** A map by key; a later member of the document replaces an earlier one. *)
Fixpoint mget (m : list (string * goval)) (key : string) : option goval :=
  match m with
  | [] => None
  | (k, v) :: m' => if bool_decide (k = key) then Some v else mget m' key
  end.
Fixpoint mset (m : list (string * goval)) (key : string) (v : goval) : list (string * goval) :=
  match m with
  | [] => [(key, v)]
  | (k, v') :: m' => if bool_decide (k = key) then (key, v) :: m' else (k, v') :: mset m' key v
  end.

Fixpoint of_json (j : json) : goval :=
  match j with
  | JNull => GNil
  | JBool b => GBool b
  | JNum l => GNumber l
  | JStr s => GString s
  | JArr l => GSlice (map of_json l)
  | JObj l =>
      GMap ((fix go (m : list (string * goval)) (l : list (string * json)) :=
               match l with
               | [] => m
               | (k, j) :: l' => go (mset m k (of_json j)) l'
               end) [] l)
  end.

(** The configuration as far as the tool reads it. *)
Record RollupConfig := mkRollupConfig {
  Genesis_L2Time : Z;
  Genesis_L2_Number : Z;
  BatcherAddr : Address;       (* Genesis.SystemConfig.BatcherAddr *)
  BlockTime : Z;
  L1ChainID : Z;
  rc_L2ChainID : Z;
  rc_BatchInboxAddress : Address;
}.

(** ** The libraries *)

Record FetchConfig := mkFetchConfig {
  f_Start : Z;
  f_End : Z;
  f_ChainID : Z;
  f_BatchSenders : list Address;
  f_BatchInbox : Address;
  f_OutDirectory : string;
  f_ConcurrentRequests : Z;
}.

(** What a read of a batch gives. *)
Inductive batch_read (D : Type) :=
| REOF
| RErr (e : error)
| RData (d : D).
#[global] Arguments REOF {D}.
#[global] Arguments RErr {D} e.
#[global] Arguments RData {D} d.

(** A transaction frame with the L1 block that includes it. *)
Record FrameWithMetadata (F : Type) := mkFrameWithMetadata {
  Frame : F;
  InclusionBlock : Z;
  Timestamp : Z;
}.
#[global] Arguments mkFrameWithMetadata {F} _ _ _.
#[global] Arguments Frame {F} _.
#[global] Arguments InclusionBlock {F} _.
#[global] Arguments Timestamp {F} _.

Class BatchLib := {
  (* go-ethereum and op-service *)
  ParseHexOrString : string → error + bytes;
  rollup_Config_of : list (string * goval) → error + RollupConfig;  (* json.Marshal, json.Unmarshal into rollup.Config *)
  ReadFile : string → error + string;
  currentDir : string;                                 (* filepath.Dir of the source file *)
  L1OriginAtBlock : Z → error + Z;                     (* OutputAtBlock: BlockRef.L1Origin.Number *)
  BlockTimeByNumber : Z → error + Z;                   (* l1Client.BlockByNumber: Time() *)
  (* derive *)
  ChannelID : Type;
  ChannelID_eq_dec : EqDecision ChannelID;
  DFrame : Type;
  Frame_ID : DFrame → ChannelID;
  Channel : Type;
  NewChannel : ChannelID → Z → Channel;
  IsReady : Channel → bool;
  AddFrame : Channel → DFrame → Z → Z → option error * Channel;
  HighestBlock_Time : Channel → Z;
  MaxRLPBytesPerChannel : RollupConfig → Z → Z;
  IsFjord : RollupConfig → Z → bool;
  Reader : Type;
  BatchData : Type;
  CompressionAlgo : Type;
  BatchReader : Channel → Z → bool → error + Reader;
  read_batch : Reader → batch_read BatchData * Reader;
  ComprAlgo : BatchData → CompressionAlgo;
  GetBatchType : BatchData → Z;
  SingularBatchType : Z;
  SpanBatchType : Z;
  SingularBatch : Type;
  SpanBatch : Type;
  GetSingularBatch : BatchData → error + SingularBatch;
  DeriveSpanBatch : BatchData → Z → Z → Z → error + SpanBatch;
  Singular_GetTimestamp : SingularBatch → Z;
  Span_GetTimestamp : SpanBatch → Z;
  GetBlockCount : SpanBatch → Z;
  (* the files of the batch decoder *)
  files : Type;
  RemoveAll : string → files → option error * files;
  fetch_Batches : FetchConfig → files → (Z * Z) * files;
  LoadFrames : string → Address → files → list (FrameWithMetadata DFrame);
  GetVersion : string → option error;                  (* the beacon client's check *)
}.
#[global] Existing Instance ChannelID_eq_dec.

Section config.
Context `{BatchLib}.

(** [json.Unmarshal] into a string. *)
Definition unmarshal_string (data : string) : error + string :=
  match parse data with
  | Some (JStr s) => inr s
  | Some JNull => inr ""
  | Some _ => inl (type_error "string")
  | None => inl syntax_error
  end.

(** [CustomBytes32.UnmarshalJSON]; an error leaves the value as it is, and
    every caller drops it. *)
Definition CustomBytes32_UnmarshalJSON (data : string) : error + bytes :=
  match unmarshal_string data with
  | inl err => inl err
  | inr s =>
      let s := TrimPrefix s "0x" in
      let s := pad_zeros 64 s in
      let s := "0x" ++ s in
      match ParseHexOrString s with
      | inl err => inl err
      | inr bs =>
          if bool_decide (length bs = 32%nat) then inr bs
          else inl (Errorf "invalid length for Bytes32: got %d, want 32" [AInt (Z.of_nat (length bs))])
      end
  end.

(** The map under [key], if there is one, after [f]. *)
Definition in_map (data : list (string * goval)) (key : string)
    (f : list (string * goval) → list (string * goval)) : list (string * goval) :=
  match mget data key with
  | Some (GMap m) => mset data key (GMap (f m))
  | _ => data
  end.

Definition hex_field (m : list (string * goval)) (key : string) : list (string * goval) :=
  match mget m key with
  | Some (GString s) =>
      match ParseInt16 (TrimPrefix s "0x") with
      | Some n => mset m key (GInt64 n)
      | None => m
      end
  | _ => m
  end.

Definition convertBlockNumber (data : list (string * goval)) (key : string) : list (string * goval) :=
  in_map data key (λ block, hex_field block "number").

Definition convertBytes32Field (data : list (string * goval)) (key : string) : list (string * goval) :=
  match mget data key with
  | Some (GString v) =>
      match CustomBytes32_UnmarshalJSON (String quote (v ++ String quote "")) with
      | inr b => mset data key (GBytes32 b)
      | inl _ => data
      end
  | _ => data
  end.

Definition convertSystemConfig (genesis : list (string * goval)) : list (string * goval) :=
  in_map genesis "system_config" (λ c, convertBytes32Field (convertBytes32Field c "overhead") "scalar").

Definition convertBaseFeeParams (rawConfig : list (string * goval)) (key : string) : list (string * goval) :=
  in_map rawConfig key (λ params, hex_field params "max_change_denominator").

Definition convertConfigTypes (rawConfig : list (string * goval)) : list (string * goval) :=
  let rawConfig := in_map rawConfig "genesis" (λ genesis,
    convertSystemConfig (convertBlockNumber (convertBlockNumber genesis "l1") "l2")) in
  convertBaseFeeParams (convertBaseFeeParams rawConfig "base_fee_params") "canyon_base_fee_params".

Definition LoadOPStackRollupConfigFromChainID (l2ChainId : Z) : outcome RollupConfig :=
  let path := filepath_Join
    [currentDir; ".."; ".."; ".."; ".."; "configs"; FormatUint l2ChainId; "rollup.json"] in
  rollupCfg ← wrapped "failed to read rollup config: %w" (of_sum (ReadFile path));
  rawConfig ← wrapped "failed to unmarshal rollup config: %w"
    (match parse rollupCfg with
     | None => Fail syntax_error
     | Some j => match of_json j with
                 | GMap m => Ok m
                 | GNil => Ok []
                 | _ => Fail (type_error "map[string]interface {}")
                 end
     end);
  wrapped "failed to unmarshal modified rollup config: %w" (of_sum (rollup_Config_of (convertConfigTypes rawConfig))).

End config.

(** ** Batches *)

(** An interface that holds a pointer, which may be nil. *)
Inductive Batch `{BatchLib} :=
| ASingular (b : option SingularBatch)
| ASpan (b : option SpanBatch).

Record ChannelWithMetadata `{BatchLib} := mkChannelWithMetadata {
  ch_ID : ChannelID;
  ch_Frames : list (FrameWithMetadata DFrame);
  ch_IsReady : bool;
  InvalidFrames : bool;
  InvalidBatches : bool;
  Batches : list Batch;
  BatchTypes : list Z;
  ComprAlgos : list CompressionAlgo;
}.

Record ReassembleConfig := mkReassembleConfig {
  BatchInbox : Address;
  InDirectory : string;
  OutDirectory : string;
  r_L2ChainID : Z;
  r_L2GenesisTime : Z;
  r_L2BlockTime : Z;
}.

Record SpanBatchRange := mkSpanBatchRange { sb_Start : Z; sb_End : Z }.

Record BatchDecoderConfig := mkBatchDecoderConfig {
  L2GenesisTime : Z;
  L2GenesisBlock : Z;
  L2BlockTime : Z;
  BatchInboxAddress : Address;
  L2StartBlock : Z;
  L2EndBlock : Z;
  b_L2ChainID : Z;
  BatchSender : Address;
  DataDir : string;
}.

Local Open Scope list_scope.

Section batches.
Context `{BatchLib}.

(** The frames until the channel is ready. *)
Fixpoint add_frames (ch : Channel) (invalid : bool) (frames : list (FrameWithMetadata DFrame)) : Channel * bool :=
  match frames with
  | [] => (ch, invalid)
  | f :: frames' =>
      if IsReady ch then (ch, true)
      else
        let '(err, ch') := AddFrame ch (Frame f) (InclusionBlock f) (Timestamp f) in
        add_frames ch' (match err with Some _ => true | None => invalid end) frames'
  end.

(** What the reading loop has collected. *)
Record collected := mkCollected {
  co_batches : list Batch;
  co_types : list Z;
  co_algos : list CompressionAlgo;
  co_invalid : bool;
}.

(** One batch that was read; a batch that cannot be converted is appended as a
    nil pointer. *)
Definition collect (cfg : ReassembleConfig) (c : collected) (d : BatchData) : collected :=
  let algos := co_algos c ++ [ComprAlgo d] in
  let types := co_types c ++ [GetBatchType d] in
  if GetBatchType d =? SingularBatchType then
    match GetSingularBatch d with
    | inl _ => mkCollected (co_batches c ++ [ASingular None]) types algos true
    | inr b => mkCollected (co_batches c ++ [ASingular (Some b)]) types algos (co_invalid c)
    end
  else if GetBatchType d =? SpanBatchType then
    match DeriveSpanBatch d (r_L2BlockTime cfg) (r_L2GenesisTime cfg) (r_L2ChainID cfg) with
    | inl _ => mkCollected (co_batches c ++ [ASpan None]) types algos true
    | inr b => mkCollected (co_batches c ++ [ASpan (Some b)]) types algos (co_invalid c)
    end
  else mkCollected (co_batches c) types algos (co_invalid c).

(** The loop reads until the end of the file; an error does not end it. *)
Fixpoint read_batches (fuel : nat) (cfg : ReassembleConfig) (r : Reader) (c : collected) : outcome collected :=
  match fuel with
  | O => NoFuel
  | S fuel' =>
      match read_batch r with
      | (REOF, _) => Ok c
      | (RErr _, r') => read_batches fuel' cfg r' (mkCollected (co_batches c) (co_types c) (co_algos c) true)
      | (RData d, r') => read_batches fuel' cfg r' (collect cfg c d)
      end
  end.

Definition processFrames (fuel : nat) (cfg : ReassembleConfig) (rollupCfg : RollupConfig) (id : ChannelID)
    (frames : list (FrameWithMetadata DFrame)) : outcome ChannelWithMetadata :=
  match frames with
  | [] => Panicked "index out of range"
  | f0 :: _ =>
      let '(ch, invalidFrame) := add_frames (NewChannel id (InclusionBlock f0)) false frames in
      c ← (if IsReady ch then
             match BatchReader ch (MaxRLPBytesPerChannel rollupCfg (HighestBlock_Time ch))
                     (IsFjord rollupCfg (HighestBlock_Time ch)) with
             | inl _ => Ok (mkCollected [] [] [] false)
             | inr br => read_batches fuel cfg br (mkCollected [] [] [] false)
             end
           else Ok (mkCollected [] [] [] false));
      Ok (mkChannelWithMetadata _ id frames (IsReady ch) invalidFrame (co_invalid c) (co_batches c) (co_types c) (co_algos c))
  end.

(** ** Ranges *)

(** uint64 arithmetic; a block time of zero is a division by zero. *)
Definition TimestampToBlock (rollupCfg : RollupConfig) (l2Timestamp : Z) : outcome Z :=
  if BlockTime rollupCfg =? 0 then Panicked "integer divide by zero"
  else Ok (add64 (sub64 l2Timestamp (Genesis_L2Time rollupCfg) / BlockTime rollupCfg) (Genesis_L2_Number rollupCfg)).

(** The interface methods; a nil pointer has no timestamp. *)
Definition GetTimestamp (b : Batch) : outcome Z :=
  match b with
  | ASingular (Some b) => Ok (Singular_GetTimestamp b)
  | ASpan (Some b) => Ok (Span_GetTimestamp b)
  | _ => Panicked "nil pointer dereference"
  end.
Definition AsSpanBatch (b : Batch) : option SpanBatch :=
  match b with ASpan b => b | ASingular _ => None end.

(** [framesByChannel[id] = append(framesByChannel[id], frame)] *)
Fixpoint add_to_channel (frame : FrameWithMetadata DFrame) (m : list (ChannelID * list (FrameWithMetadata DFrame)))
    : list (ChannelID * list (FrameWithMetadata DFrame)) :=
  match m with
  | [] => [(Frame_ID (Frame frame), [frame])]
  | (id, fs) :: m' =>
      if bool_decide (id = Frame_ID (Frame frame)) then (id, fs ++ [frame]) :: m'
      else (id, fs) :: add_to_channel frame m'
  end.
Definition framesByChannel (frames : list (FrameWithMetadata DFrame))
    : list (ChannelID * list (FrameWithMetadata DFrame)) :=
  fold_left (λ m f, add_to_channel f m) frames [].

(** The loop over the batches of a channel: the ranges, and whether the
    function returns them at once. *)
Fixpoint batch_ranges (rollupCfg : RollupConfig) (startBlock endBlock : Z) (bs : list Batch)
    (ranges : list SpanBatchRange) : outcome (list SpanBatchRange * bool) :=
  match bs with
  | [] => Ok (ranges, false)
  | b :: bs' =>
      ts ← GetTimestamp b;
      batchStartBlock ← TimestampToBlock rollupCfg ts;
      match AsSpanBatch b with
      | None => Ok (ranges ++ [mkSpanBatchRange startBlock endBlock], true)
      | Some spanBatch =>
          let batchEndBlock := sub64 (add64 batchStartBlock (u64 (GetBlockCount spanBatch))) 1 in
          if (endBlock <? batchStartBlock) || (batchEndBlock <? startBlock) then
            batch_ranges rollupCfg startBlock endBlock bs' ranges
          else
            batch_ranges rollupCfg startBlock endBlock bs'
              (ranges ++ [mkSpanBatchRange (Z.max startBlock batchStartBlock) (Z.min endBlock batchEndBlock)])
      end
  end.

Fixpoint channel_ranges (fuel : nat) (cfg : ReassembleConfig) (rollupCfg : RollupConfig) (startBlock endBlock : Z)
    (chs : list (ChannelID * list (FrameWithMetadata DFrame))) (ranges : list SpanBatchRange)
    : outcome (list SpanBatchRange) :=
  match chs with
  | [] => Ok ranges
  | (id, frames) :: chs' =>
      ch ← processFrames fuel cfg rollupCfg id frames;
      match Batches ch with
      | [] => Panicked "log.Fatal"
      | bs =>
          batch_ranges rollupCfg startBlock endBlock bs ranges ≫= λ r : list SpanBatchRange * bool,
          if r.2 then Ok r.1 else channel_ranges fuel cfg rollupCfg startBlock endBlock chs' r.1
      end
  end.

(** [order] is the order in which Go ranges over the map of channels; the last
    parameter of the code is not used. *)
Definition GetSpanBatchRanges (fuel : nat) (order : list nat) (cfg : ReassembleConfig) (rollupCfg : RollupConfig)
    (startBlock endBlock maxSpanBatchDeviation : Z) (fs : files) : outcome (list SpanBatchRange) :=
  let frames := LoadFrames (InDirectory cfg) (BatchInbox cfg) fs in
  channel_ranges fuel cfg rollupCfg startBlock endBlock (shuffle order (framesByChannel frames)) [].

(** ** The tool *)

(** The fields the configuration file gives override the caller's. *)
Definition setupBatchDecoderConfig (config : BatchDecoderConfig) : outcome (RollupConfig * BatchDecoderConfig) :=
  rollupCfg ← LoadOPStackRollupConfigFromChainID (u64 (b_L2ChainID config));
  Ok (rollupCfg,
      mkBatchDecoderConfig
        (if bool_decide (L2GenesisTime config ≠ Genesis_L2Time rollupCfg) then Genesis_L2Time rollupCfg else L2GenesisTime config)
        (if bool_decide (L2GenesisBlock config ≠ Genesis_L2_Number rollupCfg) then Genesis_L2_Number rollupCfg else L2GenesisBlock config)
        (if bool_decide (L2BlockTime config ≠ BlockTime rollupCfg) then BlockTime rollupCfg else L2BlockTime config)
        (if bool_decide (BatchInboxAddress config ≠ rc_BatchInboxAddress rollupCfg) then rc_BatchInboxAddress rollupCfg else BatchInboxAddress config)
        (L2StartBlock config) (L2EndBlock config) (b_L2ChainID config) (BatchSender config) (DataDir config)).

(** The L1 origin of the first block, and [60/l1BlockTime * 10] blocks after the
    origin of the last one. *)
Definition GetL1SearchBoundaries (startBlock endBlock : Z) : outcome (Z * Z) :=
  startL1Origin ← wrapped "failed to get output at start block: %w" (of_sum (L1OriginAtBlock startBlock));
  startBlockTime ← wrapped "failed to get block at start L1 origin: %w"
    (of_sum (BlockTimeByNumber (i64 startL1Origin)));
  prevTime ← wrapped "failed to get block at start L1 origin - 1: %w"
    (of_sum (BlockTimeByNumber (i64 (sub64 startL1Origin 1))));
  let l1BlockTime := sub64 startBlockTime prevTime in
  endOrigin ← wrapped "failed to get output at end block: %w" (of_sum (L1OriginAtBlock endBlock));
  if l1BlockTime =? 0 then Panicked "integer divide by zero"
  else Ok (startL1Origin, add64 endOrigin (mul64 (60 / l1BlockTime) 10)).

Definition fetchBatchesBetweenL1Blocks (config : BatchDecoderConfig) (rollupCfg : RollupConfig) (l1Start l1End : Z)
    (fs : files) : outcome unit * files :=
  match RemoveAll (DataDir config) fs with
  | (Some err, fs') => (Fail (wrap "failed to clear out directory: %w" err), fs')
  | (None, fs') =>
      let '(_, fs'') := fetch_Batches
        (mkFetchConfig l1Start l1End (L1ChainID rollupCfg) [BatchSender config] (BatchInboxAddress config) (DataDir config) 10) fs' in
      (Ok tt, fs'')
  end.

Definition GetAllSpanBatchesInL2BlockRange (fuel : nat) (order : list nat) (config : BatchDecoderConfig) (fs : files)
    : outcome (list SpanBatchRange) * files :=
  match wrapped "failed to setup config: %w" (setupBatchDecoderConfig config) with
  | Ok (rollupCfg, config) =>
      match wrapped "failed to get L1 origin and finalized: %w"
              (GetL1SearchBoundaries (L2StartBlock config) (L2EndBlock config)) with
      | Ok (l1Start, l1End) =>
          match fetchBatchesBetweenL1Blocks config rollupCfg l1Start l1End fs with
          | (Ok _, fs') =>
              let reassembleConfig := mkReassembleConfig (BatchInboxAddress config) (DataDir config) ""
                (b_L2ChainID config) (L2GenesisTime config) (L2BlockTime config) in
              (wrapped "failed to get span batch ranges: %w"
                 (GetSpanBatchRanges fuel order reassembleConfig rollupCfg (L2StartBlock config) (L2EndBlock config) 1000000 fs'),
               fs')
          | (o, fs') => (wrapped "failed to fetch batches: %w" (o ≫= λ _, Ok []), fs')
          end
      | o => (o ≫= λ _, Ok [], fs)
      end
  | o => (o ≫= λ _, Ok [], fs)
  end.

(** No endpoint, no client. *)
Definition SetupBeacon (l1BeaconUrl : string) : outcome bool :=
  if bool_decide (l1BeaconUrl = "") then Ok false
  else match GetVersion l1BeaconUrl with
       | Some err => Fail (wrap "failed to check L1 Beacon API version: %w" err)
       | None => Ok true
       end.

(** The action of the tool; every error ends the process.  [dial] is the
    outcome of a connection, [chainID] the answer of the L2 node. *)
Definition Action (fuel : nat) (order : list nat) (dial : string → option error) (chainID : error + Z)
    (l2 l2_node l1 l1_beacon : string) (start end_ : Z) (fs : files) : outcome (list SpanBatchRange) * files :=
  let dialed url : outcome unit := match dial url with Some err => Fail err | None => Ok tt end in
  let setup : outcome BatchDecoderConfig :=
    _ ← fatal_of (dialed l2);
    chainID ← fatal_of (of_sum chainID);
    rollupCfg ← fatal_of (LoadOPStackRollupConfigFromChainID (u64 chainID));
    _ ← fatal_of (SetupBeacon l1_beacon);
    _ ← fatal_of (dialed l1);
    _ ← fatal_of (dialed l2_node);
    Ok (mkBatchDecoderConfig (Genesis_L2Time rollupCfg) (Genesis_L2_Number rollupCfg) (BlockTime rollupCfg)
          (rc_BatchInboxAddress rollupCfg) start end_ (rc_L2ChainID rollupCfg) (BatcherAddr rollupCfg)
          ("/tmp/batch_decoder/" ++ FormatUint (rc_L2ChainID rollupCfg) ++ "/transactions_cache")%string) in
  match setup with
  | Ok config =>
      let '(r, fs') := GetAllSpanBatchesInL2BlockRange fuel order config fs in
      (fatal_of r, fs')
  | o => (o ≫= λ _, Ok [], fs)
  end.

End batches.
