(* ===== verification/UtilsProofs.v ===== *)
(** * The batch tool: ranges, boundaries, encodings

    What the ranges of [GetSpanBatchRanges] say, in whatever order Go ranges
    over the channels; the L1 window that is searched; and the round trips of
    block numbers and of 32-byte values. *)

From Stdlib Require Import ZArith Lia Ascii.
From S2P Require Import Prelude Sql ProofRequest Metrics Encoding Prog Types Json Paths Wire Db Utils.

Local Open Scope Z_scope.

Section ranges.
Context `{BatchLib}.
Implicit Types (b : Batch) (frames : list (FrameWithMetadata DFrame)).

(** ** Frames by channel *)

(** The frames of a channel, in the order they were loaded. *)
Definition frames_of (id : ChannelID) frames : list (FrameWithMetadata DFrame) :=
  filter (λ f, Frame_ID (Frame f) = id) frames.

(** Every channel of [frames] once, with its frames. *)
Definition grouped (m : list (ChannelID * list (FrameWithMetadata DFrame))) frames : Prop :=
  NoDup m.*1 ∧ (∀ id fs, (id, fs) ∈ m ↔ fs = frames_of id frames ∧ fs ≠ []).

Lemma frames_of_snoc id frames f :
  frames_of id (frames ++ [f]) = frames_of id frames ++ (if bool_decide (Frame_ID (Frame f) = id) then [f] else []).
Proof. unfold frames_of. rewrite filter_app, filter_cons, filter_nil. case_decide; by case_bool_decide. Qed.

Lemma add_to_channel_keys f m id :
  id ∈ (add_to_channel f m).*1 ↔ id ∈ m.*1 ∨ id = Frame_ID (Frame f).
Proof.
  induction m as [|[id0 fs0] m IH]; simpl; [rewrite elem_of_cons, elem_of_nil; tauto|].
  case_bool_decide as Hid; simpl; rewrite !elem_of_cons; [intuition congruence|rewrite IH; tauto].
Qed.

Lemma add_to_channel_nodup f m : NoDup m.*1 → NoDup (add_to_channel f m).*1.
Proof.
  induction m as [|[id0 fs0] m IH]; simpl; [intros _; apply NoDup_singleton|].
  intros [Hni Hnd]%NoDup_cons. case_bool_decide as Hid; simpl; apply NoDup_cons; [done|].
  split; [|by apply IH]. rewrite add_to_channel_keys. by intros [?|?].
Qed.

Lemma add_to_channel_other f m id fs :
  id ≠ Frame_ID (Frame f) → (id, fs) ∈ add_to_channel f m ↔ (id, fs) ∈ m.
Proof.
  intros Hne. induction m as [|[id0 fs0] m IH]; simpl; [rewrite elem_of_cons, elem_of_nil; intuition congruence|].
  case_bool_decide as Hid; rewrite !elem_of_cons; [|by rewrite IH].
  split; (intros [E|?]; [|by right]); by injection E as -> _.
Qed.

Lemma add_to_channel_same f m fs :
  NoDup m.*1 →
  (Frame_ID (Frame f), fs) ∈ add_to_channel f m ↔
  (fs = [f] ∧ Frame_ID (Frame f) ∉ m.*1) ∨ ∃ fs0, (Frame_ID (Frame f), fs0) ∈ m ∧ fs = fs0 ++ [f].
Proof.
  assert (∀ l (fs' : list (FrameWithMetadata DFrame)), (Frame_ID (Frame f), fs') ∈ l → Frame_ID (Frame f) ∈ l.*1) as Hkey
    by (intros l fs' Hl; apply list_elem_of_fmap; by exists (Frame_ID (Frame f), fs')).
  induction m as [|[id0 fs0] m IH]; simpl; intros Hnd.
  { rewrite elem_of_cons, elem_of_nil. split; [intros [[= ->]|[]]; left; split; [done|apply not_elem_of_nil]|].
    intros [[-> _]|(? & []%elem_of_nil & _)]. by left. }
  apply NoDup_cons in Hnd as [Hni Hnd]. case_bool_decide as Hid.
  - subst id0. rewrite !elem_of_cons. split.
    + intros [[= ->]|Hin%Hkey]; [|done]. right. exists fs0. split; [by apply elem_of_cons; left|done].
    + intros [[_ Hn]|(fs1 & [[= ->]|Hin%Hkey]%elem_of_cons & ->)]; [|by left|done]. destruct Hn. apply elem_of_cons. by left.
  - rewrite elem_of_cons, (IH Hnd), elem_of_cons. setoid_rewrite elem_of_cons.
    split; [intros [[= ? _]|[[-> ?]|(fs1 & ? & ->)]]; [done|left; split; [done|by intros [?|?]]|right; eauto]|].
    intros [[-> Hn]|(fs1 & [[= ? _]|Hin] & ->)]; [right; left; auto|done|right; right; eauto].
Qed.

Lemma framesByChannel_grouped frames : grouped (framesByChannel frames) frames.
Proof.
  induction frames as [|f frames IH] using rev_ind.
  - split; [apply NoDup_nil_2|]. intros id fs. unfold frames_of. rewrite filter_nil, elem_of_nil. by split; [|intros []].
  - unfold framesByChannel. rewrite fold_left_app. simpl. destruct IH as [Hnd He].
    split; [by apply add_to_channel_nodup|]. intros id fs. rewrite frames_of_snoc. case_bool_decide as Hid.
    + subst id. rewrite (add_to_channel_same _ _ _ Hnd). set (id := Frame_ID (Frame f)). split.
      * intros [[-> Hni]|(fs0 & [-> Hne]%He & ->)]; [|split; [done|]; by intros [_ ?]%app_eq_nil].
        split; [|done]. destruct (decide (frames_of id frames = [])) as [->|Hne]; [done|].
        destruct Hni. apply list_elem_of_fmap. exists (id, frames_of id frames). split; [done|]. by apply He.
      * intros [-> _]. destruct (decide (frames_of id frames = [])) as [Hn|Hne].
        -- left. rewrite Hn. split; [done|]. intros ([id' fs'] & Hi & [-> Hne]%He)%list_elem_of_fmap. simpl in Hi. by subst id'.
        -- right. exists (frames_of id frames). split; [by apply He|done].
    + rewrite add_to_channel_other, app_nil_r by done. apply He.
Qed.

(** ** Block numbers *)

(** The block at a timestamp, without bounds. *)
Definition block_of (rollupCfg : RollupConfig) (ts : Z) : Z :=
  (ts - Genesis_L2Time rollupCfg) / BlockTime rollupCfg + Genesis_L2_Number rollupCfg.

Definition config_ok (rollupCfg : RollupConfig) : Prop :=
  0 < BlockTime rollupCfg ∧ 0 <= Genesis_L2Time rollupCfg ∧ 0 <= Genesis_L2_Number rollupCfg.

Lemma TimestampToBlock_exact rollupCfg ts :
  config_ok rollupCfg → Genesis_L2Time rollupCfg <= ts < two64 → block_of rollupCfg ts < two64 →
  TimestampToBlock rollupCfg ts = Ok (block_of rollupCfg ts) ∧ Genesis_L2_Number rollupCfg <= block_of rollupCfg ts.
Proof.
  intros (Hb & Hg & Hn) Hts Hlt. unfold TimestampToBlock, block_of in *.
  assert (0 <= (ts - Genesis_L2Time rollupCfg) / BlockTime rollupCfg) as Hq by (apply Z.div_pos; lia).
  destruct (BlockTime rollupCfg =? 0) eqn:E; [lia|]. split; [|lia].
  unfold add64, sub64, u64. by rewrite (Z.mod_small (ts - _)), Z.mod_small by lia.
Qed.

(** Block [n] has the timestamp [Genesis.L2Time + (n - Genesis.L2.Number) * BlockTime],
    and all of the time until the next block counts as its own. *)
Lemma TimestampToBlock_inverse rollupCfg n d :
  config_ok rollupCfg → Genesis_L2_Number rollupCfg <= n < two64 → 0 <= d < BlockTime rollupCfg →
  let ts := Genesis_L2Time rollupCfg + (n - Genesis_L2_Number rollupCfg) * BlockTime rollupCfg + d in
  ts < two64 → TimestampToBlock rollupCfg ts = Ok n.
Proof.
  intros Hc Hn Hd ts Hts. pose proof Hc as (Hb & Hg & Hg2).
  assert (block_of rollupCfg ts = n) as Hbl.
  { unfold block_of, ts. replace (_ + _ * _ + d - _) with (d + (n - Genesis_L2_Number rollupCfg) * BlockTime rollupCfg) by lia.
    rewrite Z.div_add, Z.div_small by lia. lia. }
  destruct (TimestampToBlock_exact rollupCfg ts Hc) as [E _]; [unfold ts; nia|lia|]. by rewrite E, Hbl.
Qed.

(** ** Clipping *)

(** A span batch whose blocks are block numbers. *)
Definition good_batch (rollupCfg : RollupConfig) b : Prop :=
  ∃ sb, b = ASpan (Some sb) ∧ Genesis_L2Time rollupCfg <= Span_GetTimestamp sb < two64 ∧
    1 <= GetBlockCount sb < two63 ∧ block_of rollupCfg (Span_GetTimestamp sb) + GetBlockCount sb <= two64.

(** The blocks of a batch. *)
Definition covers (rollupCfg : RollupConfig) b (n : Z) : Prop :=
  match b with
  | ASpan (Some sb) =>
      let s := block_of rollupCfg (Span_GetTimestamp sb) in s <= n < s + GetBlockCount sb
  | _ => False
  end.

Definition clip (rollupCfg : RollupConfig) (startBlock endBlock : Z) b : option SpanBatchRange :=
  match b with
  | ASpan (Some sb) =>
      let s := block_of rollupCfg (Span_GetTimestamp sb) in
      let r := mkSpanBatchRange (Z.max startBlock s) (Z.min endBlock (s + GetBlockCount sb - 1)) in
      if sb_Start r <=? sb_End r then Some r else None
  | _ => None
  end.

Definition in_range (r : SpanBatchRange) (n : Z) : Prop := sb_Start r <= n <= sb_End r.

Lemma clip_blocks rollupCfg startBlock endBlock b n :
  (∃ r, clip rollupCfg startBlock endBlock b = Some r ∧ in_range r n) ↔
  startBlock <= n <= endBlock ∧ covers rollupCfg b n.
Proof.
  unfold clip, covers, in_range. destruct b as [b|[sb|]]; [split; [by intros (? & ? & _)|tauto]| |split; [by intros (? & ? & _)|tauto]].
  cbv zeta. simpl. split.
  - intros (r & Hr & Hn). case_match; simplify_eq; simpl in *. lia.
  - intros Hn. eexists. rewrite (proj2 (Z.leb_le _ _)) by lia. split; [done|]. simpl. lia.
Qed.

Lemma clip_bounds rollupCfg startBlock endBlock b r :
  clip rollupCfg startBlock endBlock b = Some r → startBlock <= sb_Start r <= sb_End r ∧ sb_End r <= endBlock.
Proof. unfold clip. intros Hr. repeat case_match; simplify_eq; simpl in *. lia. Qed.

Lemma batch_ranges_app rollupCfg startBlock endBlock bs bs' ranges :
  config_ok rollupCfg → startBlock <= endBlock → Forall (good_batch rollupCfg) bs →
  batch_ranges rollupCfg startBlock endBlock (bs ++ bs') ranges =
    batch_ranges rollupCfg startBlock endBlock bs' (ranges ++ omap (clip rollupCfg startBlock endBlock) bs).
Proof.
  intros Hc Hse. revert ranges. induction bs as [|b bs IH]; intros ranges Hall; [by rewrite app_nil_r|].
  apply Forall_cons in Hall as [(sb & -> & Hts & Hcnt & Hend) Hall].
  destruct (TimestampToBlock_exact rollupCfg (Span_GetTimestamp sb) Hc Hts) as [E Hge]; [lia|].
  pose proof Hc as (_ & _ & Hg). cbn [app batch_ranges GetTimestamp AsSpanBatch mbind outcome_bind]. rewrite E.
  cbn [mbind outcome_bind]. cbv zeta. set (s := block_of rollupCfg (Span_GetTimestamp sb)) in *.
  assert (u64 (GetBlockCount sb) = GetBlockCount sb) as -> by (apply Z.mod_small; unfold two63, two64 in *; lia).
  assert (sub64 (add64 s (GetBlockCount sb)) 1 = s + GetBlockCount sb - 1) as ->.
  { unfold sub64, add64, u64. rewrite Zminus_mod_idemp_l, Z.mod_small; lia. }
  cbn [omap list_omap]. unfold clip at 1. cbv zeta. fold s. cbn [sb_Start sb_End].
  destruct ((endBlock <? s) || (s + GetBlockCount sb - 1 <? startBlock)) eqn:Eo.
  - rewrite (proj2 (Z.leb_gt _ _)) by lia. by apply IH.
  - rewrite (proj2 (Z.leb_le _ _)) by lia. rewrite IH by done. by rewrite <- app_assoc.
Qed.

Lemma batch_ranges_clip rollupCfg startBlock endBlock bs ranges :
  config_ok rollupCfg → startBlock <= endBlock → Forall (good_batch rollupCfg) bs →
  batch_ranges rollupCfg startBlock endBlock bs ranges =
    Ok (ranges ++ omap (clip rollupCfg startBlock endBlock) bs, false).
Proof. intros Hc Hse Hall. rewrite <- (app_nil_r bs) at 1. by rewrite batch_ranges_app. Qed.

(** ** Channels *)

Section channels.
Context (fuel : nat) (cfg : ReassembleConfig) (rollupCfg : RollupConfig) (startBlock endBlock : Z).

(** The batches read from a channel's frames. *)
Definition batches_of (c : ChannelID * list (FrameWithMetadata DFrame)) : list Batch :=
  match processFrames fuel cfg rollupCfg c.1 c.2 with Ok ch => Batches ch | _ => [] end.

(** A channel that was read and has span batches only. *)
Definition good_channel (c : ChannelID * list (FrameWithMetadata DFrame)) : Prop :=
  batches_of c ≠ [] ∧ Forall (good_batch rollupCfg) (batches_of c).

Definition clip_channel (c : ChannelID * list (FrameWithMetadata DFrame)) : list SpanBatchRange :=
  omap (clip rollupCfg startBlock endBlock) (batches_of c).

Lemma channel_ranges_app chs chs' ranges :
  config_ok rollupCfg → startBlock <= endBlock → Forall good_channel chs →
  channel_ranges fuel cfg rollupCfg startBlock endBlock (chs ++ chs') ranges =
    channel_ranges fuel cfg rollupCfg startBlock endBlock chs' (ranges ++ (chs ≫= clip_channel)).
Proof.
  intros Hc Hse. revert ranges. induction chs as [|[id fs] chs IH]; intros ranges Hall; [by rewrite app_nil_r|].
  apply Forall_cons in Hall as [[Hne Hg] Hall]. cbn [channel_ranges app].
  rewrite bind_cons. unfold clip_channel at 1. set (rest := chs ≫= clip_channel) in *.
  assert (batches_of (id, fs) = match processFrames fuel cfg rollupCfg id fs with Ok ch => Batches ch | _ => [] end)
    as Hb by done.
  destruct (processFrames fuel cfg rollupCfg id fs) as [ch|e|m| |]; [|done..]. rewrite Hb in *. cbn [mbind outcome_bind].
  rewrite app_assoc, <- IH by done. destruct (Batches ch) as [|b bs] eqn:Eb; [done|]. rewrite <- Eb in *.
  by rewrite batch_ranges_clip.
Qed.

Lemma channel_ranges_clip chs ranges :
  config_ok rollupCfg → startBlock <= endBlock → Forall good_channel chs →
  channel_ranges fuel cfg rollupCfg startBlock endBlock chs ranges = Ok (ranges ++ (chs ≫= clip_channel)).
Proof. intros Hc Hse Hall. rewrite <- (app_nil_r chs) at 1. by rewrite channel_ranges_app. Qed.

(** The channels of [frames], in any order. *)
Lemma good_channels frames order :
  (∀ id, frames_of id frames ≠ [] → good_channel (id, frames_of id frames)) →
  Forall good_channel (shuffle order (framesByChannel frames)).
Proof.
  intros Hg. apply Forall_forall. intros [id fs] Hin.
  rewrite shuffle_Permutation in Hin. apply framesByChannel_grouped in Hin as [-> Hne]. by apply Hg.
Qed.

End channels.

(** C34: when every channel of the loaded frames gives span batches, whose
    block numbers fit a uint64, the ranges are exact and do not depend on the
    order in which Go ranges over the map of channels: every range lies within
    the blocks asked for, a block asked for is in some range exactly when a
    batch of some channel covers it, and another order gives the same ranges
    up to their order.  A channel's frames are those with its id, in the order
    they were loaded. *)
Theorem GetSpanBatchRanges_exact fuel order order' cfg rollupCfg startBlock endBlock dev fs :
  let frames := LoadFrames (InDirectory cfg) (BatchInbox cfg) fs in
  config_ok rollupCfg → startBlock <= endBlock →
  (∀ id, frames_of id frames ≠ [] → good_channel fuel cfg rollupCfg (id, frames_of id frames)) →
  ∃ ranges ranges',
    GetSpanBatchRanges fuel order cfg rollupCfg startBlock endBlock dev fs = Ok ranges ∧
    GetSpanBatchRanges fuel order' cfg rollupCfg startBlock endBlock dev fs = Ok ranges' ∧ ranges ≡ₚ ranges' ∧
    (∀ r, r ∈ ranges → startBlock <= sb_Start r <= sb_End r ∧ sb_End r <= endBlock) ∧
    (∀ n, (∃ r, r ∈ ranges ∧ in_range r n) ↔
      startBlock <= n <= endBlock ∧ ∃ id b, frames_of id frames ≠ [] ∧
        b ∈ batches_of fuel cfg rollupCfg (id, frames_of id frames) ∧ covers rollupCfg b n).
Proof.
  intros frames Hc Hse Hg.
  set (out o := shuffle o (framesByChannel frames) ≫= clip_channel fuel cfg rollupCfg startBlock endBlock).
  assert (∀ o, GetSpanBatchRanges fuel o cfg rollupCfg startBlock endBlock dev fs = Ok (out o)) as Hrun
    by (intros o; apply channel_ranges_clip; [done..|by apply good_channels]).
  exists (out order), (out order'). rewrite !Hrun. split; [done|]. split; [done|].
  split; [unfold out; by rewrite !shuffle_Permutation|].
  assert (∀ r, r ∈ out order ↔ ∃ id b, frames_of id frames ≠ [] ∧
    b ∈ batches_of fuel cfg rollupCfg (id, frames_of id frames) ∧ clip rollupCfg startBlock endBlock b = Some r) as Hin.
  { intros r. unfold out. rewrite shuffle_Permutation, list_elem_of_bind. unfold clip_channel.
    setoid_rewrite list_elem_of_omap. split.
    - intros ([id fs'] & (b & Hb & Hcl) & [-> Hne]%framesByChannel_grouped). eauto.
    - intros (id & b & Hne & Hb & Hcl). exists (id, frames_of id frames). split; [eauto|].
      by apply framesByChannel_grouped. }
  split; [intros r (id & b & _ & _ & Hcl)%Hin; by eapply clip_bounds|].
  intros n. split.
  - intros (r & (id & b & Hne & Hb & Hcl)%Hin & Hn).
    destruct (proj1 (clip_blocks rollupCfg startBlock endBlock b n)) as [Hb1 Hb2]; [by exists r|]. eauto 6.
  - intros (Hn & id & b & Hne & Hb & Hcov).
    destruct (proj2 (clip_blocks rollupCfg startBlock endBlock b n)) as (r & Hcl & Hr); [done|].
    exists r. split; [apply Hin; eauto|done].
Qed.

(** The channels before the one at hand in Go's order being good, a
    channel without a batch ends the process, a batch that could not be
    converted is a nil pointer and its timestamp a panic, and a singular batch
    makes the function return at once: the ranges so far and the whole range
    asked for, without the batches and the channels that follow. *)
Theorem GetSpanBatchRanges_other_channels fuel order cfg rollupCfg startBlock endBlock dev fs before id frames after ch :
  let run := GetSpanBatchRanges fuel order cfg rollupCfg startBlock endBlock dev fs in
  config_ok rollupCfg → startBlock <= endBlock →
  shuffle order (framesByChannel (LoadFrames (InDirectory cfg) (BatchInbox cfg) fs)) = before ++ (id, frames) :: after →
  Forall (good_channel fuel cfg rollupCfg) before →
  processFrames fuel cfg rollupCfg id frames = Ok ch →
  (Batches ch = [] → run = Panicked "log.Fatal") ∧
  (∀ bs b bs', Batches ch = bs ++ b :: bs' → Forall (good_batch rollupCfg) bs →
     match b with
     | ASpan None | ASingular None => run = Panicked "nil pointer dereference"
     | ASingular (Some _) =>
         run = Ok ((before ≫= clip_channel fuel cfg rollupCfg startBlock endBlock) ++
                   omap (clip rollupCfg startBlock endBlock) bs ++ [mkSpanBatchRange startBlock endBlock])
     | ASpan (Some _) => True
     end).
Proof.
  intros run Hc Hse Hch Hb Hp.
  assert (run = channel_ranges fuel cfg rollupCfg startBlock endBlock ((id, frames) :: after)
    (before ≫= clip_channel fuel cfg rollupCfg startBlock endBlock)) as ->.
  { unfold run, GetSpanBatchRanges. rewrite Hch. by apply (channel_ranges_app _ _ _ _ _ _ _ []). }
  cbn [channel_ranges]. rewrite Hp. cbn [mbind outcome_bind].
  split; [by intros ->|]. intros bs b bs' Hbs Hg. set (acc := before ≫= _).
  pose proof (batch_ranges_app rollupCfg startBlock endBlock bs (b :: bs') acc Hc Hse Hg) as Hr.
  rewrite Hbs. assert (∃ x l, bs ++ b :: bs' = x :: l) as (x & l & E) by (destruct bs; simpl; eauto).
  rewrite E. rewrite E in Hr. rewrite Hr. destruct b as [[b|]|[b|]]; [|done..].
  cbn [batch_ranges GetTimestamp AsSpanBatch mbind outcome_bind].
  unfold TimestampToBlock. pose proof Hc as (Hbt & _). rewrite (proj2 (Z.eqb_neq _ _)) by lia.
  cbn [mbind outcome_bind]. by rewrite <- app_assoc.
Qed.

(** ** Reading *)

(** The reader comes to the end of the file within [n] reads. *)
Fixpoint ends_within (n : nat) (r : Reader) : Prop :=
  match n with
  | O => False
  | S n' => match read_batch r with (REOF, _) => True | (_, r') => ends_within n' r' end
  end.

Lemma read_batches_ends n cfg r c : ends_within n r → ∃ c', ∀ fuel, (n <= fuel)%nat → read_batches fuel cfg r c = Ok c'.
Proof.
  revert r c. induction n as [|n IH]; intros r c; [done|]. simpl. destruct (read_batch r) as [[|e|d] r'] eqn:E; intros Hr.
  - exists c. intros [|fuel] Hf; [lia|]. simpl. by rewrite E.
  - destruct (IH r' (mkCollected (co_batches c) (co_types c) (co_algos c) true) Hr) as [c' Hc']. exists c'.
    intros [|fuel] Hf; [lia|]. simpl. rewrite E. apply Hc'. lia.
  - destruct (IH r' (collect cfg c d) Hr) as [c' Hc']. exists c'.
    intros [|fuel] Hf; [lia|]. simpl. rewrite E. apply Hc'. lia.
Qed.

(** A reader that stays at an error keeps the loop going for ever. *)
Lemma read_batches_stuck cfg r e fuel c : read_batch r = (RErr e, r) → read_batches fuel cfg r c = NoFuel.
Proof. intros E. revert c. induction fuel as [|fuel IH]; intros c; [done|]. simpl. by rewrite E. Qed.

(** ** The L1 window *)

(** With a block time of [d] seconds between the first L1 origin and the block
    before it, the window ends [10 * (60 / d)] blocks after the last origin:
    ten minutes when [d] divides a minute, less otherwise, nothing at all when
    blocks are more than a minute apart; and blocks with equal times are a
    division by zero. *)
Theorem GetL1SearchBoundaries_window startBlock endBlock o1 o2 t t0 :
  L1OriginAtBlock startBlock = inr o1 → L1OriginAtBlock endBlock = inr o2 →
  BlockTimeByNumber (i64 o1) = inr t → BlockTimeByNumber (i64 (sub64 o1 1)) = inr t0 →
  0 <= o2 → o2 + 600 < two64 → 0 <= t0 <= t → t < two64 →
  let d := t - t0 in
  if decide (d = 0) then GetL1SearchBoundaries startBlock endBlock = Panicked "integer divide by zero"
  else ∃ l1End, GetL1SearchBoundaries startBlock endBlock = Ok (o1, l1End) ∧
    l1End = o2 + 10 * (60 / d) ∧ (l1End - o2) * d <= 600 ∧
    ((l1End - o2) * d = 600 ↔ (d | 60)) ∧ (l1End = o2 ↔ 60 < d).
Proof.
  intros H1 H2 H3 H4 Ho Hw Ht Htt d. unfold GetL1SearchBoundaries. rewrite H1. cbn [of_sum wrapped mbind outcome_bind].
  rewrite H3. cbn [of_sum wrapped mbind outcome_bind]. rewrite H4. cbn [of_sum wrapped mbind outcome_bind]. rewrite H2.
  cbn [of_sum wrapped mbind outcome_bind]. rewrite (sub64_small t t0) by lia. fold d.
  case_decide as Hd; [by rewrite Hd|]. rewrite (proj2 (Z.eqb_neq _ _) Hd).
  assert (0 <= 60 / d <= 60) as Hq.
  { split; [apply Z.div_pos; lia|]. apply Z.div_le_upper_bound; nia. }
  exists (o2 + 10 * (60 / d)). unfold mul64. rewrite (u64_small (60 / d * 10)) by (unfold is_u64, two64 in *; lia).
  rewrite add64_small by lia. split; [f_equal; f_equal; lia|]. split; [done|].
  pose proof (Z.div_mod 60 d Hd) as Hm. pose proof (Z.mod_pos_bound 60 d) as Hb.
  split; [nia|]. split.
  - rewrite <- Z.mod_divide by done. split; nia.
  - split; [|intros Hg; rewrite (Z.div_small 60 d) by lia; lia].
    intros E. apply Z.lt_nge. intros Hle. assert (1 <= 60 / d) by (apply Z.div_le_lower_bound; lia). lia.
Qed.

End ranges.

(** ** 32-byte values *)

Local Open Scope string_scope.

Definition is_hex (c : ascii) : Prop := is_plain c ∧ code c ≠ 120.

Lemma hex_digit_hex d : 0 <= d < 16 → is_hex (hex_digit d).
Proof.
  intros Hd. assert (∃ n : nat, (n < 16)%nat ∧ d = Z.of_nat n) as (n & Hn & ->) by (exists (Z.to_nat d); lia).
  do 16 (destruct n as [|n]; [by vm_compute; repeat split|]). lia.
Qed.

Lemma EncodeToString_hex bs : every is_hex (EncodeToString bs).
Proof.
  induction bs as [|b bs IH]; [done|]. cbn [EncodeToString every]. pose proof (byte_Z_range b).
  split; [|split; [|done]]; apply hex_digit_hex; Z.to_euclidean_division_equations; lia.
Qed.

Lemma EncodeToString_length bs : String.length (EncodeToString bs) = (2 * length bs)%nat.
Proof. induction bs as [|b bs IH]; [done|]. simpl. rewrite IH. lia. Qed.

Lemma zeros_length k m : String.length (zeros k m) = (k + String.length m)%nat.
Proof. induction k as [|k IH]; [done|]. simpl. by rewrite IH. Qed.

Lemma zeros_every P k m : every P (zeros k m) → every P m.
Proof. induction k as [|k IH]; [done|]. intros [_ ?]. auto. Qed.

Lemma rune_count_ascii fuel s : every is_ascii s → (String.length s <= fuel)%nat → rune_count fuel s = String.length s.
Proof.
  revert s. induction fuel as [|fuel IH]; intros [|c s] Hs Hf; simpl in *; try lia. destruct Hs as [Hc Hs].
  rewrite (proj2 (Z.ltb_lt _ _)) by done. f_equal. apply IH; [done|lia].
Qed.

Lemma parse_plain s : every is_plain s → parse (String quote (s ++ String quote "")) = Some (JStr s).
Proof.
  intros Hs. unfold parse.
  assert (∀ fuel depth, value (S fuel) depth (String quote (s ++ String quote "")) = Some (JStr s, "")) as Hv.
  { intros fuel depth. cbn [value]. rewrite skip_quote, Ascii.eqb_refl, literal_plain; [done|done|].
    simpl. rewrite sapp_length. lia. }
  rewrite Nat.add_1_r, Hv. done.
Qed.

Section bytes32.
Context `{BatchLib}.

(** What go-ethereum documents: hexadecimal digits after the prefix. *)
Definition decodes_hex : Prop := ∀ bs, bs ≠ [] → ParseHexOrString ("0x" ++ EncodeToString bs) = inr bs.

(** A value of 32 bytes is read back from its hexadecimal digits with any
    number of the leading zeros left out, all of them included, with and
    without the prefix. *)
Theorem CustomBytes32_minimal_hex v k m p :
  decodes_hex → length v = 32%nat → EncodeToString v = zeros k m → p = "" ∨ p = "0x" →
  CustomBytes32_UnmarshalJSON (String quote ((p ++ m) ++ String quote "")) = inr v.
Proof.
  intros Hlaw Hv Hm Hp. pose proof (EncodeToString_hex v) as Hh. rewrite Hm in Hh.
  pose proof (zeros_every _ _ _ Hh) as Hhm.
  assert (every is_plain m) as Hpl by (by eapply every_impl; [|exact Hhm]; intros c []).
  assert (every is_ascii m) as Has by (eapply every_impl; [|exact Hpl]; intros c [? _]; unfold is_ascii; lia).
  assert (TrimPrefix (p ++ m) "0x" = m) as Htrim.
  { unfold TrimPrefix. destruct Hp as [->| ->]; [|done]. rewrite sapp_nil.
    destruct m as [|c [|d m]]; [done| |]; cbn [strip_prefix]; destruct (Ascii.eqb _ c); try done.
    destruct (Ascii.eqb _ d) eqn:Ed; [|done]. apply Ascii.eqb_eq in Ed. subst d. by destruct Hhm as (_ & [_ []] & _). }
  assert (pad_zeros 64 m = EncodeToString v) as Hpad.
  { unfold pad_zeros, RuneCountInString. rewrite rune_count_ascii by done. rewrite Hm. f_equal.
    pose proof (EncodeToString_length v) as Hl. rewrite Hm, zeros_length, Hv in Hl. lia. }
  unfold CustomBytes32_UnmarshalJSON, unmarshal_string. rewrite parse_plain.
  - rewrite Htrim, Hpad, Hlaw by (by intros ->). by rewrite Hv.
  - destruct Hp as [->| ->]; [done|]. by repeat split.
Qed.

End bytes32.

(** ** A library of batches *)

(** Frames that carry their channel's id and some span batches, as pairs of a
    timestamp and a number of blocks. *)
#[export] Instance DemoBatches : BatchLib := {|
  ParseHexOrString s :=
    match strip_prefix "0x" s with
    | Some r => match DecodeString r with Some bs => inr bs | None => inl (Errorf "invalid hex string" []) end
    | None => inl (Errorf "hex string without 0x prefix" [])
    end;
  rollup_Config_of _ := inr (mkRollupConfig 1000 0 [] 2 1 10 []);
  ReadFile _ := inr "{}"%string;
  currentDir := "/src/utils"%string;
  L1OriginAtBlock n := inr (500 + n);
  BlockTimeByNumber n := inr (12 * n);
  ChannelID := Z;
  ChannelID_eq_dec := _;
  DFrame := Z * list (Z * Z);
  Frame_ID := fst;
  Channel := list (Z * Z);
  NewChannel _ _ := [];
  IsReady ch := negb (bool_decide (ch = []));
  AddFrame ch f _ _ := (None, (ch ++ snd f)%list);
  HighestBlock_Time _ := 0;
  MaxRLPBytesPerChannel _ _ := 10000000;
  IsFjord _ _ := true;
  Reader := list (Z * Z);
  BatchData := Z * Z;
  CompressionAlgo := unit;
  BatchReader ch _ _ := inr ch;
  read_batch l := match l with [] => (REOF, []) | d :: l' => (RData d, l') end;
  ComprAlgo _ := tt;
  GetBatchType _ := 1;
  SingularBatchType := 0;
  SpanBatchType := 1;
  SingularBatch := unit;
  SpanBatch := Z * Z;
  GetSingularBatch _ := inr tt;
  DeriveSpanBatch d _ _ _ := inr d;
  Singular_GetTimestamp _ := 0;
  Span_GetTimestamp := fst;
  GetBlockCount := snd;
  files := list (FrameWithMetadata (Z * list (Z * Z)));
  RemoveAll _ _ := (None, []);
  fetch_Batches _ fs := ((2, 0), fs);
  LoadFrames _ _ fs := fs;
  GetVersion _ := None;
|}.

Definition demo_config : RollupConfig := mkRollupConfig 1000 0 [] 2 1 10 [].
Definition demo_frames : files :=
  [mkFrameWithMetadata (7, [(1000, 10); (1020, 5)]) 1 0; mkFrameWithMetadata (8, [(1030, 20)]) 2 0].
Definition demo_cfg : ReassembleConfig := mkReassembleConfig [] "/tmp" "" 10 1000 2.

Lemma demo_good ts n : 1000 <= ts < 2000 ∧ 1 <= n < 1000 → good_batch demo_config (ASpan (Some (ts, n))).
Proof.
  intros [Hts Hn]. exists (ts, n). unfold block_of, two63, two64. simpl. split; [done|]. split; [lia|]. split; [lia|].
  Z.to_euclidean_division_equations. lia.
Qed.

Lemma GetSpanBatchRanges_exact_witness :
  let ranges o := GetSpanBatchRanges 9 o demo_cfg demo_config 5 25 1000000 demo_frames in
  ranges [0; 1]%nat = Ok [mkSpanBatchRange 5 9; mkSpanBatchRange 10 14; mkSpanBatchRange 15 25] ∧
  ranges [1; 0]%nat = Ok [mkSpanBatchRange 15 25; mkSpanBatchRange 5 9; mkSpanBatchRange 10 14] ∧
  ∃ r r', ranges [0; 1]%nat = Ok r ∧ ranges [1; 0]%nat = Ok r' ∧ r ≡ₚ r'.
Proof.
  intros ranges. split; [vm_compute; reflexivity|]. split; [vm_compute; reflexivity|].
  destruct (GetSpanBatchRanges_exact 9 [0; 1]%nat [1; 0]%nat demo_cfg demo_config 5 25 1000000 demo_frames) as
    (r & r' & Hr & Hr' & Hp & _); [by repeat split|done| |by exists r, r'].
  intros id Hne. assert (id = 7 ∨ id = 8) as [-> | ->].
  { destruct (decide (id = 7)) as [|H7]; [by left|]. destruct (decide (id = 8)) as [|H8]; [by right|].
    destruct Hne. unfold frames_of. simpl. unfold demo_frames. rewrite !filter_cons, filter_nil. simpl.
    by rewrite !decide_False. }
  - change (good_channel 9 demo_cfg demo_config (7, frames_of 7 demo_frames)).
    assert (batches_of 9 demo_cfg demo_config (7, frames_of 7 demo_frames) =
      [ASpan (Some (1000, 10)); ASpan (Some (1020, 5))]) as E by reflexivity.
    unfold good_channel. rewrite E. split; [discriminate|].
    repeat (apply Forall_cons; split); [by apply demo_good..|by apply Forall_nil].
  - change (good_channel 9 demo_cfg demo_config (8, frames_of 8 demo_frames)).
    assert (batches_of 9 demo_cfg demo_config (8, frames_of 8 demo_frames) = [ASpan (Some (1030, 20))]) as E by reflexivity.
    unfold good_channel. rewrite E. split; [discriminate|].
    repeat (apply Forall_cons; split); [by apply demo_good|by apply Forall_nil].
Defined.
