(* ===== verification/Bindings.v ===== *)
(** * What the contract bindings are written in ([op/bindings])

    The generated bindings hand a method's name and its arguments to
    [bind.BoundContract] and convert what comes back.  Here are the Go values
    that cross that interface, the types an ABI gives them, the calls of a
    [BoundContract] as commands, and the code every generated method, event
    iterator and subscription is an instance of.  What the contract and the node
    answer, and [UnpackLog], belong to go-ethereum and are parameters. *)

From Stdlib Require Import ZArith Lia.
From S2P Require Import Prelude Sql ProofRequest Prog.

Local Open Scope string_scope.
Local Open Scope Z_scope.

(** ** Values and types *)

(** A Go value in an [interface{}]: [uint8] to [uint64] have a width, a
    [[32]byte] is a number. *)
Inductive GoVal :=
| GAddress (a : Address)
| GBool (b : bool)
| GString (s : string)
| GBytes (b : bytes)
| GBytes32 (n : Z)
| GUint (bits : Z) (n : Z)
| GBig (n : Z)
| GStruct (fields : list GoVal)
| GSlice (elems : list GoVal).

Inductive AbiType :=
| TAddress
| TBool
| TString
| TBytes
| TBytes32
| TUint (bits : Z)
| TTuple (components : list AbiType)
| TSlice (elem : AbiType).

(** Integers of other widths are [*big.Int]. *)
Definition native (bits : Z) : bool := bool_decide (bits ∈ [8; 16; 32; 64]).

Section forallb2.
Context {A B} (f : A → B → bool).

Fixpoint forallb2 (l : list A) (k : list B) : bool :=
  match l, k with
  | [], [] => true
  | a :: l', b :: k' => f a b && forallb2 l' k'
  | _, _ => false
  end.

End forallb2.

(** The Go values that [abi] packs as, and unpacks to, a type. *)
Fixpoint typed (t : AbiType) (v : GoVal) : bool :=
  match t, v with
  | TAddress, GAddress _ | TBool, GBool _ | TString, GString _ | TBytes, GBytes _ | TBytes32, GBytes32 _ => true
  | TUint bits, GUint w _ => native bits && (w =? bits)
  | TUint bits, GBig _ => negb (native bits)
  | TTuple ts, GStruct vs => forallb2 typed ts vs
  | TSlice t, GSlice vs => forallb (typed t) vs
  | _, _ => false
  end.

(** The same type. *)
Fixpoint ty_eqb (t u : AbiType) : bool :=
  match t, u with
  | TAddress, TAddress | TBool, TBool | TString, TString | TBytes, TBytes | TBytes32, TBytes32 => true
  | TUint a, TUint b => a =? b
  | TTuple ts, TTuple us => forallb2 ty_eqb ts us
  | TSlice t, TSlice u => ty_eqb t u
  | _, _ => false
  end.

(** A Go type: its values as [interface{}], the conversion
    [*abi.ConvertType(v, new(T)).( *T)], which panics on other values, and the
    ABI types it is for. *)
Record gotype (T : Type) := mkGoType {
  to_go : T → GoVal;
  of_go : GoVal → option T;
  fits : AbiType → bool;
}.
Arguments mkGoType {T}.
Arguments to_go {T}.
Arguments of_go {T}.
Arguments fits {T}.

Definition tAddress : gotype Address :=
  mkGoType GAddress (λ v, match v with GAddress a => Some a | _ => None end) (λ t, match t with TAddress => true | _ => false end).
Definition tBool : gotype bool :=
  mkGoType GBool (λ v, match v with GBool b => Some b | _ => None end) (λ t, match t with TBool => true | _ => false end).
Definition tString : gotype string :=
  mkGoType GString (λ v, match v with GString s => Some s | _ => None end) (λ t, match t with TString => true | _ => false end).
Definition tBytes : gotype bytes :=
  mkGoType GBytes (λ v, match v with GBytes b => Some b | _ => None end) (λ t, match t with TBytes => true | _ => false end).
Definition tBytes32 : gotype Z :=
  mkGoType GBytes32 (λ v, match v with GBytes32 n => Some n | _ => None end) (λ t, match t with TBytes32 => true | _ => false end).
Definition tUint (bits : Z) : gotype Z :=
  mkGoType (GUint bits) (λ v, match v with GUint w n => if w =? bits then Some n else None | _ => None end)
    (λ t, match t with TUint w => native w && (w =? bits) | _ => false end).
Definition tBig : gotype Z :=
  mkGoType GBig (λ v, match v with GBig n => Some n | _ => None end)
    (λ t, match t with TUint w => negb (native w) | _ => false end).
Definition tSlice {T} (g : gotype T) : gotype (list T) :=
  mkGoType (λ l, GSlice (to_go g <$> l)) (λ v, match v with GSlice l => mapM (of_go g) l | _ => None end)
    (λ t, match t with TSlice t => fits g t | _ => false end).

(** What the conversions promise. *)
Class Good {T} (g : gotype T) : Prop := {
  good_to x t : fits g t → typed t (to_go g x);
  good_of v t : fits g t → typed t v → is_Some (of_go g v);
  good_roundtrip x : of_go g (to_go g x) = Some x;
  good_inverse v x : of_go g v = Some x → to_go g x = v;
}.

(** ** ABIs *)

Inductive Mutability := Pure | View | Nonpayable | Payable.

Record AbiMethod := mkMethod {
  am_name : string;
  am_inputs : list AbiType;
  am_outputs : list AbiType;
  am_mutability : Mutability;
}.

(** The type of a parameter, and whether it is indexed. *)
Record AbiEvent := mkEvent {
  ae_name : string;
  ae_inputs : list (AbiType * bool);
}.

Record ABI := mkABI { abi_methods : list AbiMethod; abi_events : list AbiEvent }.

Definition find_method (abi : ABI) (name : string) : option AbiMethod :=
  snd <$> list_find (λ m, am_name m = name) (abi_methods abi).
Definition find_event (abi : ABI) (name : string) : option AbiEvent :=
  snd <$> list_find (λ e, ae_name e = name) (abi_events abi).

Definition constant (m : Mutability) : bool := match m with Pure | View => true | _ => false end.

(** ** Calls *)

Class BindLib := {
  Backend : Type;
  CallOpts : Type;
  TransactOpts : Type;
  FilterOpts : Type;
  WatchOpts : Type;
  Transaction : Type;
  Log : Type;
  (* bind.MetaData.GetAbi on the JSON of an ABI: a pointer *)
  GetAbi : ABI → error + option ABI;
  (* common.FromHex *)
  FromHex : string → bytes;
  (* the fields of an event in a log *)
  UnpackLog : ABI → string → Log → error + list GoVal;
}.

Section bindings.
Context `{BindLib}.

(** [bind.BoundContract]; a binding for reading has no transactor. *)
Record BoundContract := mkBoundContract {
  bc_address : Address;
  bc_abi : ABI;
  bc_caller : option Backend;
  bc_transactor : option Backend;
  bc_filterer : option Backend;
}.

(** A subscription with a channel of logs: those it delivers, in order, and how
    it ends ([None]: its error channel is closed). *)
Record LogStream := mkLogStream { ls_logs : list Log; ls_end : option error }.

Inductive bcmd : Type → Type :=
| BCall (c : BoundContract) (opts : CallOpts) (method : string) (args : list GoVal) : bcmd (error + list GoVal)
| BTransact (c : BoundContract) (opts : TransactOpts) (method : string) (args : list GoVal) : bcmd (error + Transaction)
| BTransfer (c : BoundContract) (opts : TransactOpts) : bcmd (error + Transaction)
| BDeploy (opts : TransactOpts) (abi : ABI) (bytecode : bytes) (backend : Backend) : bcmd (error + (Address * Transaction * BoundContract))
| BFilterLogs (c : BoundContract) (opts : FilterOpts) (event : string) (query : list (list GoVal)) : bcmd (error + LogStream)
| BWatchLogs (c : BoundContract) (opts : WatchOpts) (event : string) (query : list (list GoVal)) : bcmd (error + unit).

Inductive bprog (A : Type) : Type :=
| BRet (a : A)
| BErr (e : error)
| BPanic (msg : string)
| BDo {R : Type} (c : bcmd R) (k : R → bprog A).

Fixpoint bprog_bind {A B} (f : A → bprog B) (p : bprog A) : bprog B :=
  match p with
  | BRet _ a => f a
  | BErr _ e => BErr _ e
  | BPanic _ m => BPanic _ m
  | BDo _ c k => BDo _ c (λ r, bprog_bind f (k r))
  end.

End bindings.

Arguments BRet {_ A} a.
Arguments BErr {_ A} e.
Arguments BPanic {_ A} msg.
Arguments BDo {_ A R} c k.

#[export] Instance bprog_mbind `{BindLib} : MBind bprog := λ A B f p, bprog_bind f p.

Section generated.
Context `{BindLib}.

Definition bcall {X} (c : bcmd (error + X)) : bprog X :=
  BDo c (λ r, match r with inl err => BErr err | inr x => BRet x end).

(** [*abi.ConvertType(out[i], new(T)).( *T)] *)
Definition out_at {T} (g : gotype T) (out : list GoVal) (i : nat) : bprog T :=
  match out !! i with
  | None => BPanic "index out of range"
  | Some v => match of_go g v with Some x => BRet x | None => BPanic "interface conversion" end
  end.

(** The body of a method that reads one value. *)
Definition call1 {T} (g : gotype T) (c : BoundContract) (opts : CallOpts) (method : string) (args : list GoVal) : bprog T :=
  out ← bcall (BCall c opts method args);
  out_at g out 0.

(** [bindX]: the contract bound to its parsed ABI, [*parsed]. *)
Definition bind_contract (metadata : ABI) (address : Address) (caller transactor filterer : option Backend)
    : bprog BoundContract :=
  match GetAbi metadata with
  | inl err => BErr err
  | inr None => BPanic "invalid memory address or nil pointer dereference"
  | inr (Some parsed) => BRet (mkBoundContract address parsed caller transactor filterer)
  end.

(** [DeployX], up to the struct it returns. *)
Definition deploy_contract (metadata : ABI) (bin : string) (auth : TransactOpts) (backend : Backend)
    : bprog (Address * Transaction * BoundContract) :=
  match GetAbi metadata with
  | inl err => BErr err
  | inr None => BErr (Errorf "GetABI returned nil" [])
  | inr (Some parsed) => bcall (BDeploy auth parsed (FromHex bin) backend)
  end.

(** A rule of a filter: the values an indexed parameter may have. *)
Definition rule {T} (g : gotype T) (items : list T) : list GoVal := to_go g <$> items.

(** ** Iterators *)

(** The iterator [FilterX] returns.  [it_logs] are the logs that are still to be
    received, [it_sub] the end of the subscription, once it is closed nothing. *)
Record Iterator E := mkIterator {
  it_Event : option E;
  it_contract : BoundContract;
  it_event : string;
  it_logs : list Log;
  it_sub : option error;
  it_done : bool;
  it_fail : option error;
}.

Definition new_iterator {E} (c : BoundContract) (event : string) (s : LogStream) : Iterator E :=
  mkIterator E None c event (ls_logs s) (ls_end s) false None.

(** The struct of an event from its fields and the raw log. *)
Definition Builder E := list GoVal → Log → option E.

(** [UnpackLog] into a new event, and the raw log with it; fields that do not
    fit the struct are an error of [UnpackLog]. *)
Definition unpack {E} (build : Builder E) (c : BoundContract) (event : string) (log : Log) : error + E :=
  match UnpackLog (bc_abi c) event log with
  | inl err => inl err
  | inr fields =>
      match build fields log with
      | Some e => inr e
      | None => inl (Errorf "abi: cannot unmarshal event" [AStr event])
      end
  end.

(** A log was received.  After a failure [Event] is a struct that is not filled:
    no event. *)
Definition receive {E} (build : Builder E) (log : Log) (rest : list Log) (it : Iterator E) : bool * Iterator E :=
  let 'mkIterator _ _ c event _ sub done _ := it in
  match unpack build c event log with
  | inl err => (false, mkIterator E None c event rest sub done (Some err))
  | inr e => (true, mkIterator E (Some e) c event rest sub done None)
  end.

(** [Next].  [early]: both cases of the [select] are ready, logs and the end of
    the subscription, and the end is chosen. *)
Definition iter_Next {E} (build : Builder E) (early : bool) (it : Iterator E) : bool * Iterator E :=
  let deliver it :=
    match it_logs E it with
    | log :: rest => receive build log rest it
    | [] => (false, it)
    end in
  match it_fail E it with
  | Some _ => (false, it)
  | None =>
      if it_done E it then deliver it
      else
        match it_logs E it with
        | log :: rest =>
            if early then
              let 'mkIterator _ ev c event logs sub _ _ := it in
              let it' := mkIterator E ev c event logs sub true sub in
              match sub with Some _ => (false, it') | None => deliver it' end
            else receive build log rest it
        | [] =>
            let 'mkIterator _ ev c event logs sub _ _ := it in
            (false, mkIterator E ev c event logs sub true sub)
        end
  end.

Definition iter_Error {E} (it : Iterator E) : option error := it_fail E it.

(** [Close] unsubscribes: its error channel is closed, and of the logs only
    those already [buffered] in the channel can still be received. *)
Definition iter_Close {E} (buffered : nat) (it : Iterator E) : option error * Iterator E :=
  let 'mkIterator _ ev c event logs _ done fail := it in
  (None, mkIterator E ev c event (take buffered logs) None done fail).

Definition filter_logs {E} (c : BoundContract) (opts : FilterOpts) (event : string) (query : list (list GoVal))
    : bprog (Iterator E) :=
  s ← bcall (BFilterLogs c opts event query);
  BRet (new_iterator c event s).

(** ** Subscriptions *)

(** What the goroutine of [WatchX] sees: a log, the end of the subscription to
    the node, the reader's [quit], or that the reader has taken the event. *)
Inductive watch_input := WLog (log : Log) | WErr (err : option error) | WQuit | WTaken.

(** Between two events, with one to hand over, or returned. *)
Inductive watch_state E := WIdle | WSending (e : E) | WReturned (err : option error).

Definition watch_step {E} (build : Builder E) (c : BoundContract) (event : string)
    (s : watch_state E) (i : watch_input) : option (watch_state E) :=
  match s, i with
  | WIdle _, WLog log =>
      Some (match unpack build c event log with inl err => WReturned E (Some err) | inr e => WSending E e end)
  | WIdle _, WErr err => Some (WReturned E err)
  | WIdle _, WQuit => Some (WReturned E None)
  | WSending _ _, WTaken => Some (WIdle E)
  | WSending _ _, WErr err => Some (WReturned E err)
  | WSending _ _, WQuit => Some (WReturned E None)
  | _, _ => None
  end.

(** The events the reader has taken, and the state, after inputs that the
    goroutine can see in this order. *)
Fixpoint watch_run {E} (build : Builder E) (c : BoundContract) (event : string) (s : watch_state E)
    (inputs : list watch_input) : option (list E * watch_state E) :=
  match inputs with
  | [] => Some ([], s)
  | i :: inputs' =>
      s' ← watch_step build c event s i;
      '(taken, last) ← watch_run build c event s' inputs';
      Some (match s, i with WSending _ e, WTaken => e :: taken | _, _ => taken end, last)
  end.

(** [WatchX]: the subscription, as what its goroutine does with its inputs. *)
Definition watch_logs {E} (build : Builder E) (c : BoundContract) (opts : WatchOpts) (event : string) (query : list (list GoVal))
    : bprog (list watch_input → option (list E * watch_state E)) :=
  _ ← bcall (BWatchLogs c opts event query);
  BRet (watch_run build c event (WIdle E)).

End generated.

Arguments it_Event {_ E}.
Arguments it_logs {_ E}.
Arguments it_sub {_ E}.
Arguments it_done {_ E}.
Arguments it_fail {_ E}.
