(* ===== verification/Oracle.v ===== *)
(** * The bindings of the output oracle ([op/bindings/opsuccinctl2outputoracle.go])

    [L2OO] stands for [OPSuccinctL2OutputOracle] in the names.  Each generated
    method is an instance of the code in [Bindings]; the bytecode is an argument
    of the deployment. *)

From Stdlib Require Import ZArith Lia.
From S2P Require Import Prelude Sql ProofRequest Prog Bindings.

Local Open Scope string_scope.
Local Open Scope Z_scope.

(** ** The structs of the contract *)

Record InitParams := mkInitParams {
  ip_Challenger : Address;
  ip_Proposer : Address;
  ip_Owner : Address;
  ip_FinalizationPeriodSeconds : Z;
  ip_L2BlockTime : Z;
  ip_AggregationVkey : Z;
  ip_RangeVkeyCommitment : Z;
  ip_RollupConfigHash : Z;
  ip_StartingOutputRoot : Z;
  ip_StartingBlockNumber : Z;
  ip_StartingTimestamp : Z;
  ip_SubmissionInterval : Z;
  ip_Verifier : Address;
}.

Record TypesOutputProposal := mkTypesOutputProposal {
  top_OutputRoot : Z;
  top_Timestamp : Z;
  top_L2BlockNumber : Z;
}.

Definition tInitParams : gotype InitParams :=
  mkGoType
    (λ x, let 'mkInitParams a b c d e f g h i j k l m := x in
       GStruct [GAddress a; GAddress b; GAddress c; GBig d; GBig e; GBytes32 f; GBytes32 g; GBytes32 h;
                GBytes32 i; GBig j; GBig k; GBig l; GAddress m])
    (λ v, match v with
       | GStruct [GAddress a; GAddress b; GAddress c; GBig d; GBig e; GBytes32 f; GBytes32 g; GBytes32 h;
                  GBytes32 i; GBig j; GBig k; GBig l; GAddress m] => Some (mkInitParams a b c d e f g h i j k l m)
       | _ => None
       end)
    (ty_eqb (TTuple [TAddress; TAddress; TAddress; TUint 256; TUint 256; TBytes32; TBytes32; TBytes32; TBytes32;
                 TUint 256; TUint 256; TUint 256; TAddress])).

Definition tOutputProposal : gotype TypesOutputProposal :=
  mkGoType (λ x, let 'mkTypesOutputProposal a b c := x in GStruct [GBytes32 a; GBig b; GBig c])
    (λ v, match v with GStruct [GBytes32 a; GBig b; GBig c] => Some (mkTypesOutputProposal a b c) | _ => None end)
    (ty_eqb (TTuple [TBytes32; TUint 128; TUint 128])).

(** ** The ABI *)

(** The functions and events of the ABI in the metadata, in order. *)
Definition L2OOABI : ABI := mkABI
  [mkMethod "CHALLENGER" [] [TAddress] View;
   mkMethod "FINALIZATION_PERIOD_SECONDS" [] [TUint 256] View;
   mkMethod "L2_BLOCK_TIME" [] [TUint 256] View;
   mkMethod "PROPOSER" [] [TAddress] View;
   mkMethod "SUBMISSION_INTERVAL" [] [TUint 256] View;
   mkMethod "addProposer" [TAddress] [] Nonpayable;
   mkMethod "aggregationVkey" [] [TBytes32] View;
   mkMethod "approvedProposers" [TAddress] [TBool] View;
   mkMethod "challenger" [] [TAddress] View;
   mkMethod "checkpointBlockHash" [TUint 256] [] Nonpayable;
   mkMethod "computeL2Timestamp" [TUint 256] [TUint 256] View;
   mkMethod "deleteL2Outputs" [TUint 256] [] Nonpayable;
   mkMethod "finalizationPeriodSeconds" [] [TUint 256] View;
   mkMethod "getL2Output" [TUint 256] [TTuple [TBytes32; TUint 128; TUint 128]] View;
   mkMethod "getL2OutputAfter" [TUint 256] [TTuple [TBytes32; TUint 128; TUint 128]] View;
   mkMethod "getL2OutputIndexAfter" [TUint 256] [TUint 256] View;
   mkMethod "historicBlockHashes" [TUint 256] [TBytes32] View;
   mkMethod "initialize" [TTuple [TAddress; TAddress; TAddress; TUint 256; TUint 256; TBytes32; TBytes32; TBytes32; TBytes32; TUint 256; TUint 256; TUint 256; TAddress]] [] Nonpayable;
   mkMethod "initializerVersion" [] [TUint 8] View;
   mkMethod "l2BlockTime" [] [TUint 256] View;
   mkMethod "latestBlockNumber" [] [TUint 256] View;
   mkMethod "latestOutputIndex" [] [TUint 256] View;
   mkMethod "nextBlockNumber" [] [TUint 256] View;
   mkMethod "nextOutputIndex" [] [TUint 256] View;
   mkMethod "owner" [] [TAddress] View;
   mkMethod "proposeL2Output" [TBytes32; TUint 256; TUint 256; TBytes] [] Payable;
   mkMethod "proposer" [] [TAddress] View;
   mkMethod "rangeVkeyCommitment" [] [TBytes32] View;
   mkMethod "removeProposer" [TAddress] [] Nonpayable;
   mkMethod "rollupConfigHash" [] [TBytes32] View;
   mkMethod "startingBlockNumber" [] [TUint 256] View;
   mkMethod "startingTimestamp" [] [TUint 256] View;
   mkMethod "submissionInterval" [] [TUint 256] View;
   mkMethod "transferOwnership" [TAddress] [] Nonpayable;
   mkMethod "updateAggregationVkey" [TBytes32] [] Nonpayable;
   mkMethod "updateRangeVkeyCommitment" [TBytes32] [] Nonpayable;
   mkMethod "updateRollupConfigHash" [TBytes32] [] Nonpayable;
   mkMethod "updateSubmissionInterval" [TUint 256] [] Nonpayable;
   mkMethod "updateVerifier" [TAddress] [] Nonpayable;
   mkMethod "verifier" [] [TAddress] View;
   mkMethod "version" [] [TString] View]
  [mkEvent "AggregationVkeyUpdated" [(TBytes32, true); (TBytes32, true)];
   mkEvent "Initialized" [(TUint 8, false)];
   mkEvent "OutputProposed" [(TBytes32, true); (TUint 256, true); (TUint 256, true); (TUint 256, false)];
   mkEvent "OutputsDeleted" [(TUint 256, true); (TUint 256, true)];
   mkEvent "OwnershipTransferred" [(TAddress, true); (TAddress, true)];
   mkEvent "ProposerUpdated" [(TAddress, true); (TBool, false)];
   mkEvent "RangeVkeyCommitmentUpdated" [(TBytes32, true); (TBytes32, true)];
   mkEvent "RollupConfigHashUpdated" [(TBytes32, true); (TBytes32, true)];
   mkEvent "SubmissionIntervalUpdated" [(TUint 256, false); (TUint 256, false)];
   mkEvent "VerifierUpdated" [(TAddress, true); (TAddress, true)]].

Section bindings.
Context `{BindLib}.

(** ** The structs *)

Record L2OOCaller := mkL2OOCaller { l2ooc_contract : BoundContract }.
Record L2OOTransactor := mkL2OOTransactor { l2oot_contract : BoundContract }.
Record L2OOFilterer := mkL2OOFilterer { l2oof_contract : BoundContract }.
Record L2OO := mkL2OO { l2oo_Caller : L2OOCaller; l2oo_Transactor : L2OOTransactor; l2oo_Filterer : L2OOFilterer }.
Record L2OOSession := mkL2OOSession { l2oos_Contract : L2OO; l2oos_CallOpts : CallOpts; l2oos_TransactOpts : TransactOpts }.
Record L2OOCallerSession := mkL2OOCallerSession { l2oocs_Contract : L2OOCaller; l2oocs_CallOpts : CallOpts }.
Record L2OOTransactorSession := mkL2OOTransactorSession { l2oots_Contract : L2OOTransactor; l2oots_TransactOpts : TransactOpts }.
Record L2OORaw := mkL2OORaw { l2oor_Contract : L2OO }.
Record L2OOCallerRaw := mkL2OOCallerRaw { l2oocr_Contract : L2OOCaller }.
Record L2OOTransactorRaw := mkL2OOTransactorRaw { l2ootr_Contract : L2OOTransactor }.

(** ** Constructors *)

Definition bindL2OO (address : Address) (caller transactor filterer : option Backend) : bprog BoundContract :=
  bind_contract L2OOABI address caller transactor filterer.
(** The bytecode is OPSuccinctL2OutputOracleMetaData.Bin. *)
Definition DeployL2OO (bin : string) (auth : TransactOpts) (backend : Backend) : bprog (Address * Transaction * L2OO) :=
  r ← deploy_contract L2OOABI bin auth backend;
  let '(address, tx, contract) := r in
  BRet (address, tx, mkL2OO (mkL2OOCaller contract) (mkL2OOTransactor contract) (mkL2OOFilterer contract)).
Definition NewL2OO (address : Address) (backend : Backend) : bprog L2OO :=
  contract ← bindL2OO address (Some backend) (Some backend) (Some backend);
  BRet (mkL2OO (mkL2OOCaller contract) (mkL2OOTransactor contract) (mkL2OOFilterer contract)).
Definition NewL2OOCaller (address : Address) (caller : Backend) : bprog L2OOCaller :=
  contract ← bindL2OO address (Some caller) None None; BRet (mkL2OOCaller contract).
Definition NewL2OOTransactor (address : Address) (transactor : Backend) : bprog L2OOTransactor :=
  contract ← bindL2OO address None (Some transactor) None; BRet (mkL2OOTransactor contract).
Definition NewL2OOFilterer (address : Address) (filterer : Backend) : bprog L2OOFilterer :=
  contract ← bindL2OO address None None (Some filterer); BRet (mkL2OOFilterer contract).

(** ** Raw access *)

Definition L2OORaw_Call (b : L2OORaw) (opts : CallOpts) (method : string) (params : list GoVal) : bprog (list GoVal) :=
  bcall (BCall (l2ooc_contract (l2oo_Caller (l2oor_Contract b))) opts method params).
Definition L2OORaw_Transfer (b : L2OORaw) (opts : TransactOpts) : bprog Transaction := bcall (BTransfer (l2oot_contract (l2oo_Transactor (l2oor_Contract b))) opts).
Definition L2OORaw_Transact (b : L2OORaw) (opts : TransactOpts) (method : string) (params : list GoVal) : bprog Transaction :=
  bcall (BTransact (l2oot_contract (l2oo_Transactor (l2oor_Contract b))) opts method params).
Definition L2OOCallerRaw_Call (b : L2OOCallerRaw) (opts : CallOpts) (method : string) (params : list GoVal) : bprog (list GoVal) :=
  bcall (BCall (l2ooc_contract (l2oocr_Contract b)) opts method params).
Definition L2OOTransactorRaw_Transfer (b : L2OOTransactorRaw) (opts : TransactOpts) : bprog Transaction := bcall (BTransfer (l2oot_contract (l2ootr_Contract b)) opts).
Definition L2OOTransactorRaw_Transact (b : L2OOTransactorRaw) (opts : TransactOpts) (method : string) (params : list GoVal) : bprog Transaction :=
  bcall (BTransact (l2oot_contract (l2ootr_Contract b)) opts method params).

(** ** Calls *)

Definition L2OOCaller_CHALLENGER (c : L2OOCaller) (opts : CallOpts) : bprog Address :=
  call1 tAddress (l2ooc_contract c) opts "CHALLENGER" [].
Definition L2OOSession_CHALLENGER (s : L2OOSession) : bprog Address := L2OOCaller_CHALLENGER (l2oo_Caller (l2oos_Contract s)) (l2oos_CallOpts s).
Definition L2OOCallerSession_CHALLENGER (s : L2OOCallerSession) : bprog Address := L2OOCaller_CHALLENGER (l2oocs_Contract s) (l2oocs_CallOpts s).
Definition L2OOCaller_FINALIZATIONPERIODSECONDS (c : L2OOCaller) (opts : CallOpts) : bprog Z :=
  call1 tBig (l2ooc_contract c) opts "FINALIZATION_PERIOD_SECONDS" [].
Definition L2OOSession_FINALIZATIONPERIODSECONDS (s : L2OOSession) : bprog Z := L2OOCaller_FINALIZATIONPERIODSECONDS (l2oo_Caller (l2oos_Contract s)) (l2oos_CallOpts s).
Definition L2OOCallerSession_FINALIZATIONPERIODSECONDS (s : L2OOCallerSession) : bprog Z := L2OOCaller_FINALIZATIONPERIODSECONDS (l2oocs_Contract s) (l2oocs_CallOpts s).
Definition L2OOCaller_L2BLOCKTIME (c : L2OOCaller) (opts : CallOpts) : bprog Z :=
  call1 tBig (l2ooc_contract c) opts "L2_BLOCK_TIME" [].
Definition L2OOSession_L2BLOCKTIME (s : L2OOSession) : bprog Z := L2OOCaller_L2BLOCKTIME (l2oo_Caller (l2oos_Contract s)) (l2oos_CallOpts s).
Definition L2OOCallerSession_L2BLOCKTIME (s : L2OOCallerSession) : bprog Z := L2OOCaller_L2BLOCKTIME (l2oocs_Contract s) (l2oocs_CallOpts s).
Definition L2OOCaller_PROPOSER (c : L2OOCaller) (opts : CallOpts) : bprog Address :=
  call1 tAddress (l2ooc_contract c) opts "PROPOSER" [].
Definition L2OOSession_PROPOSER (s : L2OOSession) : bprog Address := L2OOCaller_PROPOSER (l2oo_Caller (l2oos_Contract s)) (l2oos_CallOpts s).
Definition L2OOCallerSession_PROPOSER (s : L2OOCallerSession) : bprog Address := L2OOCaller_PROPOSER (l2oocs_Contract s) (l2oocs_CallOpts s).
Definition L2OOCaller_SUBMISSIONINTERVAL (c : L2OOCaller) (opts : CallOpts) : bprog Z :=
  call1 tBig (l2ooc_contract c) opts "SUBMISSION_INTERVAL" [].
Definition L2OOSession_SUBMISSIONINTERVAL (s : L2OOSession) : bprog Z := L2OOCaller_SUBMISSIONINTERVAL (l2oo_Caller (l2oos_Contract s)) (l2oos_CallOpts s).
Definition L2OOCallerSession_SUBMISSIONINTERVAL (s : L2OOCallerSession) : bprog Z := L2OOCaller_SUBMISSIONINTERVAL (l2oocs_Contract s) (l2oocs_CallOpts s).
Definition L2OOCaller_AggregationVkey (c : L2OOCaller) (opts : CallOpts) : bprog Z :=
  call1 tBytes32 (l2ooc_contract c) opts "aggregationVkey" [].
Definition L2OOSession_AggregationVkey (s : L2OOSession) : bprog Z := L2OOCaller_AggregationVkey (l2oo_Caller (l2oos_Contract s)) (l2oos_CallOpts s).
Definition L2OOCallerSession_AggregationVkey (s : L2OOCallerSession) : bprog Z := L2OOCaller_AggregationVkey (l2oocs_Contract s) (l2oocs_CallOpts s).
Definition L2OOCaller_ApprovedProposers (c : L2OOCaller) (opts : CallOpts) (arg0 : Address) : bprog bool :=
  call1 tBool (l2ooc_contract c) opts "approvedProposers" [to_go tAddress arg0].
Definition L2OOSession_ApprovedProposers (s : L2OOSession) (arg0 : Address) : bprog bool := L2OOCaller_ApprovedProposers (l2oo_Caller (l2oos_Contract s)) (l2oos_CallOpts s) arg0.
Definition L2OOCallerSession_ApprovedProposers (s : L2OOCallerSession) (arg0 : Address) : bprog bool := L2OOCaller_ApprovedProposers (l2oocs_Contract s) (l2oocs_CallOpts s) arg0.
Definition L2OOCaller_Challenger (c : L2OOCaller) (opts : CallOpts) : bprog Address :=
  call1 tAddress (l2ooc_contract c) opts "challenger" [].
Definition L2OOSession_Challenger (s : L2OOSession) : bprog Address := L2OOCaller_Challenger (l2oo_Caller (l2oos_Contract s)) (l2oos_CallOpts s).
Definition L2OOCallerSession_Challenger (s : L2OOCallerSession) : bprog Address := L2OOCaller_Challenger (l2oocs_Contract s) (l2oocs_CallOpts s).
Definition L2OOCaller_ComputeL2Timestamp (c : L2OOCaller) (opts : CallOpts) (_l2BlockNumber : Z) : bprog Z :=
  call1 tBig (l2ooc_contract c) opts "computeL2Timestamp" [to_go tBig _l2BlockNumber].
Definition L2OOSession_ComputeL2Timestamp (s : L2OOSession) (_l2BlockNumber : Z) : bprog Z := L2OOCaller_ComputeL2Timestamp (l2oo_Caller (l2oos_Contract s)) (l2oos_CallOpts s) _l2BlockNumber.
Definition L2OOCallerSession_ComputeL2Timestamp (s : L2OOCallerSession) (_l2BlockNumber : Z) : bprog Z := L2OOCaller_ComputeL2Timestamp (l2oocs_Contract s) (l2oocs_CallOpts s) _l2BlockNumber.
Definition L2OOCaller_FinalizationPeriodSeconds (c : L2OOCaller) (opts : CallOpts) : bprog Z :=
  call1 tBig (l2ooc_contract c) opts "finalizationPeriodSeconds" [].
Definition L2OOSession_FinalizationPeriodSeconds (s : L2OOSession) : bprog Z := L2OOCaller_FinalizationPeriodSeconds (l2oo_Caller (l2oos_Contract s)) (l2oos_CallOpts s).
Definition L2OOCallerSession_FinalizationPeriodSeconds (s : L2OOCallerSession) : bprog Z := L2OOCaller_FinalizationPeriodSeconds (l2oocs_Contract s) (l2oocs_CallOpts s).
Definition L2OOCaller_GetL2Output (c : L2OOCaller) (opts : CallOpts) (_l2OutputIndex : Z) : bprog TypesOutputProposal :=
  call1 tOutputProposal (l2ooc_contract c) opts "getL2Output" [to_go tBig _l2OutputIndex].
Definition L2OOSession_GetL2Output (s : L2OOSession) (_l2OutputIndex : Z) : bprog TypesOutputProposal := L2OOCaller_GetL2Output (l2oo_Caller (l2oos_Contract s)) (l2oos_CallOpts s) _l2OutputIndex.
Definition L2OOCallerSession_GetL2Output (s : L2OOCallerSession) (_l2OutputIndex : Z) : bprog TypesOutputProposal := L2OOCaller_GetL2Output (l2oocs_Contract s) (l2oocs_CallOpts s) _l2OutputIndex.
Definition L2OOCaller_GetL2OutputAfter (c : L2OOCaller) (opts : CallOpts) (_l2BlockNumber : Z) : bprog TypesOutputProposal :=
  call1 tOutputProposal (l2ooc_contract c) opts "getL2OutputAfter" [to_go tBig _l2BlockNumber].
Definition L2OOSession_GetL2OutputAfter (s : L2OOSession) (_l2BlockNumber : Z) : bprog TypesOutputProposal := L2OOCaller_GetL2OutputAfter (l2oo_Caller (l2oos_Contract s)) (l2oos_CallOpts s) _l2BlockNumber.
Definition L2OOCallerSession_GetL2OutputAfter (s : L2OOCallerSession) (_l2BlockNumber : Z) : bprog TypesOutputProposal := L2OOCaller_GetL2OutputAfter (l2oocs_Contract s) (l2oocs_CallOpts s) _l2BlockNumber.
Definition L2OOCaller_GetL2OutputIndexAfter (c : L2OOCaller) (opts : CallOpts) (_l2BlockNumber : Z) : bprog Z :=
  call1 tBig (l2ooc_contract c) opts "getL2OutputIndexAfter" [to_go tBig _l2BlockNumber].
Definition L2OOSession_GetL2OutputIndexAfter (s : L2OOSession) (_l2BlockNumber : Z) : bprog Z := L2OOCaller_GetL2OutputIndexAfter (l2oo_Caller (l2oos_Contract s)) (l2oos_CallOpts s) _l2BlockNumber.
Definition L2OOCallerSession_GetL2OutputIndexAfter (s : L2OOCallerSession) (_l2BlockNumber : Z) : bprog Z := L2OOCaller_GetL2OutputIndexAfter (l2oocs_Contract s) (l2oocs_CallOpts s) _l2BlockNumber.
Definition L2OOCaller_HistoricBlockHashes (c : L2OOCaller) (opts : CallOpts) (arg0 : Z) : bprog Z :=
  call1 tBytes32 (l2ooc_contract c) opts "historicBlockHashes" [to_go tBig arg0].
Definition L2OOSession_HistoricBlockHashes (s : L2OOSession) (arg0 : Z) : bprog Z := L2OOCaller_HistoricBlockHashes (l2oo_Caller (l2oos_Contract s)) (l2oos_CallOpts s) arg0.
Definition L2OOCallerSession_HistoricBlockHashes (s : L2OOCallerSession) (arg0 : Z) : bprog Z := L2OOCaller_HistoricBlockHashes (l2oocs_Contract s) (l2oocs_CallOpts s) arg0.
Definition L2OOCaller_InitializerVersion (c : L2OOCaller) (opts : CallOpts) : bprog Z :=
  call1 (tUint 8) (l2ooc_contract c) opts "initializerVersion" [].
Definition L2OOSession_InitializerVersion (s : L2OOSession) : bprog Z := L2OOCaller_InitializerVersion (l2oo_Caller (l2oos_Contract s)) (l2oos_CallOpts s).
Definition L2OOCallerSession_InitializerVersion (s : L2OOCallerSession) : bprog Z := L2OOCaller_InitializerVersion (l2oocs_Contract s) (l2oocs_CallOpts s).
Definition L2OOCaller_L2BlockTime (c : L2OOCaller) (opts : CallOpts) : bprog Z :=
  call1 tBig (l2ooc_contract c) opts "l2BlockTime" [].
Definition L2OOSession_L2BlockTime (s : L2OOSession) : bprog Z := L2OOCaller_L2BlockTime (l2oo_Caller (l2oos_Contract s)) (l2oos_CallOpts s).
Definition L2OOCallerSession_L2BlockTime (s : L2OOCallerSession) : bprog Z := L2OOCaller_L2BlockTime (l2oocs_Contract s) (l2oocs_CallOpts s).
Definition L2OOCaller_LatestBlockNumber (c : L2OOCaller) (opts : CallOpts) : bprog Z :=
  call1 tBig (l2ooc_contract c) opts "latestBlockNumber" [].
Definition L2OOSession_LatestBlockNumber (s : L2OOSession) : bprog Z := L2OOCaller_LatestBlockNumber (l2oo_Caller (l2oos_Contract s)) (l2oos_CallOpts s).
Definition L2OOCallerSession_LatestBlockNumber (s : L2OOCallerSession) : bprog Z := L2OOCaller_LatestBlockNumber (l2oocs_Contract s) (l2oocs_CallOpts s).
Definition L2OOCaller_LatestOutputIndex (c : L2OOCaller) (opts : CallOpts) : bprog Z :=
  call1 tBig (l2ooc_contract c) opts "latestOutputIndex" [].
Definition L2OOSession_LatestOutputIndex (s : L2OOSession) : bprog Z := L2OOCaller_LatestOutputIndex (l2oo_Caller (l2oos_Contract s)) (l2oos_CallOpts s).
Definition L2OOCallerSession_LatestOutputIndex (s : L2OOCallerSession) : bprog Z := L2OOCaller_LatestOutputIndex (l2oocs_Contract s) (l2oocs_CallOpts s).
Definition L2OOCaller_NextBlockNumber (c : L2OOCaller) (opts : CallOpts) : bprog Z :=
  call1 tBig (l2ooc_contract c) opts "nextBlockNumber" [].
Definition L2OOSession_NextBlockNumber (s : L2OOSession) : bprog Z := L2OOCaller_NextBlockNumber (l2oo_Caller (l2oos_Contract s)) (l2oos_CallOpts s).
Definition L2OOCallerSession_NextBlockNumber (s : L2OOCallerSession) : bprog Z := L2OOCaller_NextBlockNumber (l2oocs_Contract s) (l2oocs_CallOpts s).
Definition L2OOCaller_NextOutputIndex (c : L2OOCaller) (opts : CallOpts) : bprog Z :=
  call1 tBig (l2ooc_contract c) opts "nextOutputIndex" [].
Definition L2OOSession_NextOutputIndex (s : L2OOSession) : bprog Z := L2OOCaller_NextOutputIndex (l2oo_Caller (l2oos_Contract s)) (l2oos_CallOpts s).
Definition L2OOCallerSession_NextOutputIndex (s : L2OOCallerSession) : bprog Z := L2OOCaller_NextOutputIndex (l2oocs_Contract s) (l2oocs_CallOpts s).
Definition L2OOCaller_Owner (c : L2OOCaller) (opts : CallOpts) : bprog Address :=
  call1 tAddress (l2ooc_contract c) opts "owner" [].
Definition L2OOSession_Owner (s : L2OOSession) : bprog Address := L2OOCaller_Owner (l2oo_Caller (l2oos_Contract s)) (l2oos_CallOpts s).
Definition L2OOCallerSession_Owner (s : L2OOCallerSession) : bprog Address := L2OOCaller_Owner (l2oocs_Contract s) (l2oocs_CallOpts s).
Definition L2OOCaller_Proposer (c : L2OOCaller) (opts : CallOpts) : bprog Address :=
  call1 tAddress (l2ooc_contract c) opts "proposer" [].
Definition L2OOSession_Proposer (s : L2OOSession) : bprog Address := L2OOCaller_Proposer (l2oo_Caller (l2oos_Contract s)) (l2oos_CallOpts s).
Definition L2OOCallerSession_Proposer (s : L2OOCallerSession) : bprog Address := L2OOCaller_Proposer (l2oocs_Contract s) (l2oocs_CallOpts s).
Definition L2OOCaller_RangeVkeyCommitment (c : L2OOCaller) (opts : CallOpts) : bprog Z :=
  call1 tBytes32 (l2ooc_contract c) opts "rangeVkeyCommitment" [].
Definition L2OOSession_RangeVkeyCommitment (s : L2OOSession) : bprog Z := L2OOCaller_RangeVkeyCommitment (l2oo_Caller (l2oos_Contract s)) (l2oos_CallOpts s).
Definition L2OOCallerSession_RangeVkeyCommitment (s : L2OOCallerSession) : bprog Z := L2OOCaller_RangeVkeyCommitment (l2oocs_Contract s) (l2oocs_CallOpts s).
Definition L2OOCaller_RollupConfigHash (c : L2OOCaller) (opts : CallOpts) : bprog Z :=
  call1 tBytes32 (l2ooc_contract c) opts "rollupConfigHash" [].
Definition L2OOSession_RollupConfigHash (s : L2OOSession) : bprog Z := L2OOCaller_RollupConfigHash (l2oo_Caller (l2oos_Contract s)) (l2oos_CallOpts s).
Definition L2OOCallerSession_RollupConfigHash (s : L2OOCallerSession) : bprog Z := L2OOCaller_RollupConfigHash (l2oocs_Contract s) (l2oocs_CallOpts s).
Definition L2OOCaller_StartingBlockNumber (c : L2OOCaller) (opts : CallOpts) : bprog Z :=
  call1 tBig (l2ooc_contract c) opts "startingBlockNumber" [].
Definition L2OOSession_StartingBlockNumber (s : L2OOSession) : bprog Z := L2OOCaller_StartingBlockNumber (l2oo_Caller (l2oos_Contract s)) (l2oos_CallOpts s).
Definition L2OOCallerSession_StartingBlockNumber (s : L2OOCallerSession) : bprog Z := L2OOCaller_StartingBlockNumber (l2oocs_Contract s) (l2oocs_CallOpts s).
Definition L2OOCaller_StartingTimestamp (c : L2OOCaller) (opts : CallOpts) : bprog Z :=
  call1 tBig (l2ooc_contract c) opts "startingTimestamp" [].
Definition L2OOSession_StartingTimestamp (s : L2OOSession) : bprog Z := L2OOCaller_StartingTimestamp (l2oo_Caller (l2oos_Contract s)) (l2oos_CallOpts s).
Definition L2OOCallerSession_StartingTimestamp (s : L2OOCallerSession) : bprog Z := L2OOCaller_StartingTimestamp (l2oocs_Contract s) (l2oocs_CallOpts s).
Definition L2OOCaller_SubmissionInterval (c : L2OOCaller) (opts : CallOpts) : bprog Z :=
  call1 tBig (l2ooc_contract c) opts "submissionInterval" [].
Definition L2OOSession_SubmissionInterval (s : L2OOSession) : bprog Z := L2OOCaller_SubmissionInterval (l2oo_Caller (l2oos_Contract s)) (l2oos_CallOpts s).
Definition L2OOCallerSession_SubmissionInterval (s : L2OOCallerSession) : bprog Z := L2OOCaller_SubmissionInterval (l2oocs_Contract s) (l2oocs_CallOpts s).
Definition L2OOCaller_Verifier (c : L2OOCaller) (opts : CallOpts) : bprog Address :=
  call1 tAddress (l2ooc_contract c) opts "verifier" [].
Definition L2OOSession_Verifier (s : L2OOSession) : bprog Address := L2OOCaller_Verifier (l2oo_Caller (l2oos_Contract s)) (l2oos_CallOpts s).
Definition L2OOCallerSession_Verifier (s : L2OOCallerSession) : bprog Address := L2OOCaller_Verifier (l2oocs_Contract s) (l2oocs_CallOpts s).
Definition L2OOCaller_Version (c : L2OOCaller) (opts : CallOpts) : bprog string :=
  call1 tString (l2ooc_contract c) opts "version" [].
Definition L2OOSession_Version (s : L2OOSession) : bprog string := L2OOCaller_Version (l2oo_Caller (l2oos_Contract s)) (l2oos_CallOpts s).
Definition L2OOCallerSession_Version (s : L2OOCallerSession) : bprog string := L2OOCaller_Version (l2oocs_Contract s) (l2oocs_CallOpts s).

(** ** Transactions *)

Definition L2OOTransactor_AddProposer (c : L2OOTransactor) (opts : TransactOpts) (_proposer : Address) : bprog Transaction :=
  bcall (BTransact (l2oot_contract c) opts "addProposer" [to_go tAddress _proposer]).
Definition L2OOSession_AddProposer (s : L2OOSession) (_proposer : Address) : bprog Transaction := L2OOTransactor_AddProposer (l2oo_Transactor (l2oos_Contract s)) (l2oos_TransactOpts s) _proposer.
Definition L2OOTransactorSession_AddProposer (s : L2OOTransactorSession) (_proposer : Address) : bprog Transaction := L2OOTransactor_AddProposer (l2oots_Contract s) (l2oots_TransactOpts s) _proposer.
Definition L2OOTransactor_CheckpointBlockHash (c : L2OOTransactor) (opts : TransactOpts) (_blockNumber : Z) : bprog Transaction :=
  bcall (BTransact (l2oot_contract c) opts "checkpointBlockHash" [to_go tBig _blockNumber]).
Definition L2OOSession_CheckpointBlockHash (s : L2OOSession) (_blockNumber : Z) : bprog Transaction := L2OOTransactor_CheckpointBlockHash (l2oo_Transactor (l2oos_Contract s)) (l2oos_TransactOpts s) _blockNumber.
Definition L2OOTransactorSession_CheckpointBlockHash (s : L2OOTransactorSession) (_blockNumber : Z) : bprog Transaction := L2OOTransactor_CheckpointBlockHash (l2oots_Contract s) (l2oots_TransactOpts s) _blockNumber.
Definition L2OOTransactor_DeleteL2Outputs (c : L2OOTransactor) (opts : TransactOpts) (_l2OutputIndex : Z) : bprog Transaction :=
  bcall (BTransact (l2oot_contract c) opts "deleteL2Outputs" [to_go tBig _l2OutputIndex]).
Definition L2OOSession_DeleteL2Outputs (s : L2OOSession) (_l2OutputIndex : Z) : bprog Transaction := L2OOTransactor_DeleteL2Outputs (l2oo_Transactor (l2oos_Contract s)) (l2oos_TransactOpts s) _l2OutputIndex.
Definition L2OOTransactorSession_DeleteL2Outputs (s : L2OOTransactorSession) (_l2OutputIndex : Z) : bprog Transaction := L2OOTransactor_DeleteL2Outputs (l2oots_Contract s) (l2oots_TransactOpts s) _l2OutputIndex.
Definition L2OOTransactor_Initialize (c : L2OOTransactor) (opts : TransactOpts) (_initParams : InitParams) : bprog Transaction :=
  bcall (BTransact (l2oot_contract c) opts "initialize" [to_go tInitParams _initParams]).
Definition L2OOSession_Initialize (s : L2OOSession) (_initParams : InitParams) : bprog Transaction := L2OOTransactor_Initialize (l2oo_Transactor (l2oos_Contract s)) (l2oos_TransactOpts s) _initParams.
Definition L2OOTransactorSession_Initialize (s : L2OOTransactorSession) (_initParams : InitParams) : bprog Transaction := L2OOTransactor_Initialize (l2oots_Contract s) (l2oots_TransactOpts s) _initParams.
Definition L2OOTransactor_ProposeL2Output (c : L2OOTransactor) (opts : TransactOpts) (_outputRoot : Z) (_l2BlockNumber : Z) (_l1BlockNumber : Z) (_proof : bytes) : bprog Transaction :=
  bcall (BTransact (l2oot_contract c) opts "proposeL2Output" [to_go tBytes32 _outputRoot; to_go tBig _l2BlockNumber; to_go tBig _l1BlockNumber; to_go tBytes _proof]).
Definition L2OOSession_ProposeL2Output (s : L2OOSession) (_outputRoot : Z) (_l2BlockNumber : Z) (_l1BlockNumber : Z) (_proof : bytes) : bprog Transaction := L2OOTransactor_ProposeL2Output (l2oo_Transactor (l2oos_Contract s)) (l2oos_TransactOpts s) _outputRoot _l2BlockNumber _l1BlockNumber _proof.
Definition L2OOTransactorSession_ProposeL2Output (s : L2OOTransactorSession) (_outputRoot : Z) (_l2BlockNumber : Z) (_l1BlockNumber : Z) (_proof : bytes) : bprog Transaction := L2OOTransactor_ProposeL2Output (l2oots_Contract s) (l2oots_TransactOpts s) _outputRoot _l2BlockNumber _l1BlockNumber _proof.
Definition L2OOTransactor_RemoveProposer (c : L2OOTransactor) (opts : TransactOpts) (_proposer : Address) : bprog Transaction :=
  bcall (BTransact (l2oot_contract c) opts "removeProposer" [to_go tAddress _proposer]).
Definition L2OOSession_RemoveProposer (s : L2OOSession) (_proposer : Address) : bprog Transaction := L2OOTransactor_RemoveProposer (l2oo_Transactor (l2oos_Contract s)) (l2oos_TransactOpts s) _proposer.
Definition L2OOTransactorSession_RemoveProposer (s : L2OOTransactorSession) (_proposer : Address) : bprog Transaction := L2OOTransactor_RemoveProposer (l2oots_Contract s) (l2oots_TransactOpts s) _proposer.
Definition L2OOTransactor_TransferOwnership (c : L2OOTransactor) (opts : TransactOpts) (_owner : Address) : bprog Transaction :=
  bcall (BTransact (l2oot_contract c) opts "transferOwnership" [to_go tAddress _owner]).
Definition L2OOSession_TransferOwnership (s : L2OOSession) (_owner : Address) : bprog Transaction := L2OOTransactor_TransferOwnership (l2oo_Transactor (l2oos_Contract s)) (l2oos_TransactOpts s) _owner.
Definition L2OOTransactorSession_TransferOwnership (s : L2OOTransactorSession) (_owner : Address) : bprog Transaction := L2OOTransactor_TransferOwnership (l2oots_Contract s) (l2oots_TransactOpts s) _owner.
Definition L2OOTransactor_UpdateAggregationVkey (c : L2OOTransactor) (opts : TransactOpts) (_aggregationVkey : Z) : bprog Transaction :=
  bcall (BTransact (l2oot_contract c) opts "updateAggregationVkey" [to_go tBytes32 _aggregationVkey]).
Definition L2OOSession_UpdateAggregationVkey (s : L2OOSession) (_aggregationVkey : Z) : bprog Transaction := L2OOTransactor_UpdateAggregationVkey (l2oo_Transactor (l2oos_Contract s)) (l2oos_TransactOpts s) _aggregationVkey.
Definition L2OOTransactorSession_UpdateAggregationVkey (s : L2OOTransactorSession) (_aggregationVkey : Z) : bprog Transaction := L2OOTransactor_UpdateAggregationVkey (l2oots_Contract s) (l2oots_TransactOpts s) _aggregationVkey.
Definition L2OOTransactor_UpdateRangeVkeyCommitment (c : L2OOTransactor) (opts : TransactOpts) (_rangeVkeyCommitment : Z) : bprog Transaction :=
  bcall (BTransact (l2oot_contract c) opts "updateRangeVkeyCommitment" [to_go tBytes32 _rangeVkeyCommitment]).
Definition L2OOSession_UpdateRangeVkeyCommitment (s : L2OOSession) (_rangeVkeyCommitment : Z) : bprog Transaction := L2OOTransactor_UpdateRangeVkeyCommitment (l2oo_Transactor (l2oos_Contract s)) (l2oos_TransactOpts s) _rangeVkeyCommitment.
Definition L2OOTransactorSession_UpdateRangeVkeyCommitment (s : L2OOTransactorSession) (_rangeVkeyCommitment : Z) : bprog Transaction := L2OOTransactor_UpdateRangeVkeyCommitment (l2oots_Contract s) (l2oots_TransactOpts s) _rangeVkeyCommitment.
Definition L2OOTransactor_UpdateRollupConfigHash (c : L2OOTransactor) (opts : TransactOpts) (_rollupConfigHash : Z) : bprog Transaction :=
  bcall (BTransact (l2oot_contract c) opts "updateRollupConfigHash" [to_go tBytes32 _rollupConfigHash]).
Definition L2OOSession_UpdateRollupConfigHash (s : L2OOSession) (_rollupConfigHash : Z) : bprog Transaction := L2OOTransactor_UpdateRollupConfigHash (l2oo_Transactor (l2oos_Contract s)) (l2oos_TransactOpts s) _rollupConfigHash.
Definition L2OOTransactorSession_UpdateRollupConfigHash (s : L2OOTransactorSession) (_rollupConfigHash : Z) : bprog Transaction := L2OOTransactor_UpdateRollupConfigHash (l2oots_Contract s) (l2oots_TransactOpts s) _rollupConfigHash.
Definition L2OOTransactor_UpdateSubmissionInterval (c : L2OOTransactor) (opts : TransactOpts) (_submissionInterval : Z) : bprog Transaction :=
  bcall (BTransact (l2oot_contract c) opts "updateSubmissionInterval" [to_go tBig _submissionInterval]).
Definition L2OOSession_UpdateSubmissionInterval (s : L2OOSession) (_submissionInterval : Z) : bprog Transaction := L2OOTransactor_UpdateSubmissionInterval (l2oo_Transactor (l2oos_Contract s)) (l2oos_TransactOpts s) _submissionInterval.
Definition L2OOTransactorSession_UpdateSubmissionInterval (s : L2OOTransactorSession) (_submissionInterval : Z) : bprog Transaction := L2OOTransactor_UpdateSubmissionInterval (l2oots_Contract s) (l2oots_TransactOpts s) _submissionInterval.
Definition L2OOTransactor_UpdateVerifier (c : L2OOTransactor) (opts : TransactOpts) (_verifier : Address) : bprog Transaction :=
  bcall (BTransact (l2oot_contract c) opts "updateVerifier" [to_go tAddress _verifier]).
Definition L2OOSession_UpdateVerifier (s : L2OOSession) (_verifier : Address) : bprog Transaction := L2OOTransactor_UpdateVerifier (l2oo_Transactor (l2oos_Contract s)) (l2oos_TransactOpts s) _verifier.
Definition L2OOTransactorSession_UpdateVerifier (s : L2OOTransactorSession) (_verifier : Address) : bprog Transaction := L2OOTransactor_UpdateVerifier (l2oots_Contract s) (l2oots_TransactOpts s) _verifier.

(** ** Events *)

Record L2OOAggregationVkeyUpdated := mkL2OOAggregationVkeyUpdated { L2OOAggregationVkeyUpdated_OldAggregationVkey : Z; L2OOAggregationVkeyUpdated_NewAggregationVkey : Z; L2OOAggregationVkeyUpdated_Raw : Log }.
Definition build_L2OOAggregationVkeyUpdated : Builder L2OOAggregationVkeyUpdated := λ fields raw,
  match fields with
  | [v1; v2] => x1 ← of_go tBytes32 v1; x2 ← of_go tBytes32 v2; Some (mkL2OOAggregationVkeyUpdated x1 x2 raw)
  | _ => None
  end.
Definition L2OOAggregationVkeyUpdatedIterator_Next : bool → Iterator L2OOAggregationVkeyUpdated → bool * Iterator L2OOAggregationVkeyUpdated := iter_Next build_L2OOAggregationVkeyUpdated.
Definition L2OOAggregationVkeyUpdatedIterator_Error : Iterator L2OOAggregationVkeyUpdated → option error := iter_Error.
Definition L2OOAggregationVkeyUpdatedIterator_Close : nat → Iterator L2OOAggregationVkeyUpdated → option error * Iterator L2OOAggregationVkeyUpdated := iter_Close.
Definition L2OOFilterer_FilterAggregationVkeyUpdated (c : L2OOFilterer) (opts : FilterOpts) (oldAggregationVkey : list Z) (newAggregationVkey : list Z) : bprog (Iterator L2OOAggregationVkeyUpdated) :=
  filter_logs (l2oof_contract c) opts "AggregationVkeyUpdated" [rule tBytes32 oldAggregationVkey; rule tBytes32 newAggregationVkey].
Definition L2OOFilterer_WatchAggregationVkeyUpdated (c : L2OOFilterer) (opts : WatchOpts) (oldAggregationVkey : list Z) (newAggregationVkey : list Z) :=
  watch_logs build_L2OOAggregationVkeyUpdated (l2oof_contract c) opts "AggregationVkeyUpdated" [rule tBytes32 oldAggregationVkey; rule tBytes32 newAggregationVkey].
Definition L2OOFilterer_ParseAggregationVkeyUpdated (c : L2OOFilterer) (log : Log) : error + L2OOAggregationVkeyUpdated :=
  unpack build_L2OOAggregationVkeyUpdated (l2oof_contract c) "AggregationVkeyUpdated" log.

Record L2OOInitialized := mkL2OOInitialized { L2OOInitialized_Version : Z; L2OOInitialized_Raw : Log }.
Definition build_L2OOInitialized : Builder L2OOInitialized := λ fields raw,
  match fields with
  | [v1] => x1 ← of_go (tUint 8) v1; Some (mkL2OOInitialized x1 raw)
  | _ => None
  end.
Definition L2OOInitializedIterator_Next : bool → Iterator L2OOInitialized → bool * Iterator L2OOInitialized := iter_Next build_L2OOInitialized.
Definition L2OOInitializedIterator_Error : Iterator L2OOInitialized → option error := iter_Error.
Definition L2OOInitializedIterator_Close : nat → Iterator L2OOInitialized → option error * Iterator L2OOInitialized := iter_Close.
Definition L2OOFilterer_FilterInitialized (c : L2OOFilterer) (opts : FilterOpts) : bprog (Iterator L2OOInitialized) :=
  filter_logs (l2oof_contract c) opts "Initialized" [].
Definition L2OOFilterer_WatchInitialized (c : L2OOFilterer) (opts : WatchOpts) :=
  watch_logs build_L2OOInitialized (l2oof_contract c) opts "Initialized" [].
Definition L2OOFilterer_ParseInitialized (c : L2OOFilterer) (log : Log) : error + L2OOInitialized :=
  unpack build_L2OOInitialized (l2oof_contract c) "Initialized" log.

Record L2OOOutputProposed := mkL2OOOutputProposed { L2OOOutputProposed_OutputRoot : Z; L2OOOutputProposed_L2OutputIndex : Z; L2OOOutputProposed_L2BlockNumber : Z; L2OOOutputProposed_L1Timestamp : Z; L2OOOutputProposed_Raw : Log }.
Definition build_L2OOOutputProposed : Builder L2OOOutputProposed := λ fields raw,
  match fields with
  | [v1; v2; v3; v4] => x1 ← of_go tBytes32 v1; x2 ← of_go tBig v2; x3 ← of_go tBig v3; x4 ← of_go tBig v4; Some (mkL2OOOutputProposed x1 x2 x3 x4 raw)
  | _ => None
  end.
Definition L2OOOutputProposedIterator_Next : bool → Iterator L2OOOutputProposed → bool * Iterator L2OOOutputProposed := iter_Next build_L2OOOutputProposed.
Definition L2OOOutputProposedIterator_Error : Iterator L2OOOutputProposed → option error := iter_Error.
Definition L2OOOutputProposedIterator_Close : nat → Iterator L2OOOutputProposed → option error * Iterator L2OOOutputProposed := iter_Close.
Definition L2OOFilterer_FilterOutputProposed (c : L2OOFilterer) (opts : FilterOpts) (outputRoot : list Z) (l2OutputIndex : list Z) (l2BlockNumber : list Z) : bprog (Iterator L2OOOutputProposed) :=
  filter_logs (l2oof_contract c) opts "OutputProposed" [rule tBytes32 outputRoot; rule tBig l2OutputIndex; rule tBig l2BlockNumber].
Definition L2OOFilterer_WatchOutputProposed (c : L2OOFilterer) (opts : WatchOpts) (outputRoot : list Z) (l2OutputIndex : list Z) (l2BlockNumber : list Z) :=
  watch_logs build_L2OOOutputProposed (l2oof_contract c) opts "OutputProposed" [rule tBytes32 outputRoot; rule tBig l2OutputIndex; rule tBig l2BlockNumber].
Definition L2OOFilterer_ParseOutputProposed (c : L2OOFilterer) (log : Log) : error + L2OOOutputProposed :=
  unpack build_L2OOOutputProposed (l2oof_contract c) "OutputProposed" log.

Record L2OOOutputsDeleted := mkL2OOOutputsDeleted { L2OOOutputsDeleted_PrevNextOutputIndex : Z; L2OOOutputsDeleted_NewNextOutputIndex : Z; L2OOOutputsDeleted_Raw : Log }.
Definition build_L2OOOutputsDeleted : Builder L2OOOutputsDeleted := λ fields raw,
  match fields with
  | [v1; v2] => x1 ← of_go tBig v1; x2 ← of_go tBig v2; Some (mkL2OOOutputsDeleted x1 x2 raw)
  | _ => None
  end.
Definition L2OOOutputsDeletedIterator_Next : bool → Iterator L2OOOutputsDeleted → bool * Iterator L2OOOutputsDeleted := iter_Next build_L2OOOutputsDeleted.
Definition L2OOOutputsDeletedIterator_Error : Iterator L2OOOutputsDeleted → option error := iter_Error.
Definition L2OOOutputsDeletedIterator_Close : nat → Iterator L2OOOutputsDeleted → option error * Iterator L2OOOutputsDeleted := iter_Close.
Definition L2OOFilterer_FilterOutputsDeleted (c : L2OOFilterer) (opts : FilterOpts) (prevNextOutputIndex : list Z) (newNextOutputIndex : list Z) : bprog (Iterator L2OOOutputsDeleted) :=
  filter_logs (l2oof_contract c) opts "OutputsDeleted" [rule tBig prevNextOutputIndex; rule tBig newNextOutputIndex].
Definition L2OOFilterer_WatchOutputsDeleted (c : L2OOFilterer) (opts : WatchOpts) (prevNextOutputIndex : list Z) (newNextOutputIndex : list Z) :=
  watch_logs build_L2OOOutputsDeleted (l2oof_contract c) opts "OutputsDeleted" [rule tBig prevNextOutputIndex; rule tBig newNextOutputIndex].
Definition L2OOFilterer_ParseOutputsDeleted (c : L2OOFilterer) (log : Log) : error + L2OOOutputsDeleted :=
  unpack build_L2OOOutputsDeleted (l2oof_contract c) "OutputsDeleted" log.

Record L2OOOwnershipTransferred := mkL2OOOwnershipTransferred { L2OOOwnershipTransferred_PreviousOwner : Address; L2OOOwnershipTransferred_NewOwner : Address; L2OOOwnershipTransferred_Raw : Log }.
Definition build_L2OOOwnershipTransferred : Builder L2OOOwnershipTransferred := λ fields raw,
  match fields with
  | [v1; v2] => x1 ← of_go tAddress v1; x2 ← of_go tAddress v2; Some (mkL2OOOwnershipTransferred x1 x2 raw)
  | _ => None
  end.
Definition L2OOOwnershipTransferredIterator_Next : bool → Iterator L2OOOwnershipTransferred → bool * Iterator L2OOOwnershipTransferred := iter_Next build_L2OOOwnershipTransferred.
Definition L2OOOwnershipTransferredIterator_Error : Iterator L2OOOwnershipTransferred → option error := iter_Error.
Definition L2OOOwnershipTransferredIterator_Close : nat → Iterator L2OOOwnershipTransferred → option error * Iterator L2OOOwnershipTransferred := iter_Close.
Definition L2OOFilterer_FilterOwnershipTransferred (c : L2OOFilterer) (opts : FilterOpts) (previousOwner : list Address) (newOwner : list Address) : bprog (Iterator L2OOOwnershipTransferred) :=
  filter_logs (l2oof_contract c) opts "OwnershipTransferred" [rule tAddress previousOwner; rule tAddress newOwner].
Definition L2OOFilterer_WatchOwnershipTransferred (c : L2OOFilterer) (opts : WatchOpts) (previousOwner : list Address) (newOwner : list Address) :=
  watch_logs build_L2OOOwnershipTransferred (l2oof_contract c) opts "OwnershipTransferred" [rule tAddress previousOwner; rule tAddress newOwner].
Definition L2OOFilterer_ParseOwnershipTransferred (c : L2OOFilterer) (log : Log) : error + L2OOOwnershipTransferred :=
  unpack build_L2OOOwnershipTransferred (l2oof_contract c) "OwnershipTransferred" log.

Record L2OOProposerUpdated := mkL2OOProposerUpdated { L2OOProposerUpdated_Proposer : Address; L2OOProposerUpdated_Added : bool; L2OOProposerUpdated_Raw : Log }.
Definition build_L2OOProposerUpdated : Builder L2OOProposerUpdated := λ fields raw,
  match fields with
  | [v1; v2] => x1 ← of_go tAddress v1; x2 ← of_go tBool v2; Some (mkL2OOProposerUpdated x1 x2 raw)
  | _ => None
  end.
Definition L2OOProposerUpdatedIterator_Next : bool → Iterator L2OOProposerUpdated → bool * Iterator L2OOProposerUpdated := iter_Next build_L2OOProposerUpdated.
Definition L2OOProposerUpdatedIterator_Error : Iterator L2OOProposerUpdated → option error := iter_Error.
Definition L2OOProposerUpdatedIterator_Close : nat → Iterator L2OOProposerUpdated → option error * Iterator L2OOProposerUpdated := iter_Close.
Definition L2OOFilterer_FilterProposerUpdated (c : L2OOFilterer) (opts : FilterOpts) (proposer : list Address) : bprog (Iterator L2OOProposerUpdated) :=
  filter_logs (l2oof_contract c) opts "ProposerUpdated" [rule tAddress proposer].
Definition L2OOFilterer_WatchProposerUpdated (c : L2OOFilterer) (opts : WatchOpts) (proposer : list Address) :=
  watch_logs build_L2OOProposerUpdated (l2oof_contract c) opts "ProposerUpdated" [rule tAddress proposer].
Definition L2OOFilterer_ParseProposerUpdated (c : L2OOFilterer) (log : Log) : error + L2OOProposerUpdated :=
  unpack build_L2OOProposerUpdated (l2oof_contract c) "ProposerUpdated" log.

Record L2OORangeVkeyCommitmentUpdated := mkL2OORangeVkeyCommitmentUpdated { L2OORangeVkeyCommitmentUpdated_OldRangeVkeyCommitment : Z; L2OORangeVkeyCommitmentUpdated_NewRangeVkeyCommitment : Z; L2OORangeVkeyCommitmentUpdated_Raw : Log }.
Definition build_L2OORangeVkeyCommitmentUpdated : Builder L2OORangeVkeyCommitmentUpdated := λ fields raw,
  match fields with
  | [v1; v2] => x1 ← of_go tBytes32 v1; x2 ← of_go tBytes32 v2; Some (mkL2OORangeVkeyCommitmentUpdated x1 x2 raw)
  | _ => None
  end.
Definition L2OORangeVkeyCommitmentUpdatedIterator_Next : bool → Iterator L2OORangeVkeyCommitmentUpdated → bool * Iterator L2OORangeVkeyCommitmentUpdated := iter_Next build_L2OORangeVkeyCommitmentUpdated.
Definition L2OORangeVkeyCommitmentUpdatedIterator_Error : Iterator L2OORangeVkeyCommitmentUpdated → option error := iter_Error.
Definition L2OORangeVkeyCommitmentUpdatedIterator_Close : nat → Iterator L2OORangeVkeyCommitmentUpdated → option error * Iterator L2OORangeVkeyCommitmentUpdated := iter_Close.
Definition L2OOFilterer_FilterRangeVkeyCommitmentUpdated (c : L2OOFilterer) (opts : FilterOpts) (oldRangeVkeyCommitment : list Z) (newRangeVkeyCommitment : list Z) : bprog (Iterator L2OORangeVkeyCommitmentUpdated) :=
  filter_logs (l2oof_contract c) opts "RangeVkeyCommitmentUpdated" [rule tBytes32 oldRangeVkeyCommitment; rule tBytes32 newRangeVkeyCommitment].
Definition L2OOFilterer_WatchRangeVkeyCommitmentUpdated (c : L2OOFilterer) (opts : WatchOpts) (oldRangeVkeyCommitment : list Z) (newRangeVkeyCommitment : list Z) :=
  watch_logs build_L2OORangeVkeyCommitmentUpdated (l2oof_contract c) opts "RangeVkeyCommitmentUpdated" [rule tBytes32 oldRangeVkeyCommitment; rule tBytes32 newRangeVkeyCommitment].
Definition L2OOFilterer_ParseRangeVkeyCommitmentUpdated (c : L2OOFilterer) (log : Log) : error + L2OORangeVkeyCommitmentUpdated :=
  unpack build_L2OORangeVkeyCommitmentUpdated (l2oof_contract c) "RangeVkeyCommitmentUpdated" log.

Record L2OORollupConfigHashUpdated := mkL2OORollupConfigHashUpdated { L2OORollupConfigHashUpdated_OldRollupConfigHash : Z; L2OORollupConfigHashUpdated_NewRollupConfigHash : Z; L2OORollupConfigHashUpdated_Raw : Log }.
Definition build_L2OORollupConfigHashUpdated : Builder L2OORollupConfigHashUpdated := λ fields raw,
  match fields with
  | [v1; v2] => x1 ← of_go tBytes32 v1; x2 ← of_go tBytes32 v2; Some (mkL2OORollupConfigHashUpdated x1 x2 raw)
  | _ => None
  end.
Definition L2OORollupConfigHashUpdatedIterator_Next : bool → Iterator L2OORollupConfigHashUpdated → bool * Iterator L2OORollupConfigHashUpdated := iter_Next build_L2OORollupConfigHashUpdated.
Definition L2OORollupConfigHashUpdatedIterator_Error : Iterator L2OORollupConfigHashUpdated → option error := iter_Error.
Definition L2OORollupConfigHashUpdatedIterator_Close : nat → Iterator L2OORollupConfigHashUpdated → option error * Iterator L2OORollupConfigHashUpdated := iter_Close.
Definition L2OOFilterer_FilterRollupConfigHashUpdated (c : L2OOFilterer) (opts : FilterOpts) (oldRollupConfigHash : list Z) (newRollupConfigHash : list Z) : bprog (Iterator L2OORollupConfigHashUpdated) :=
  filter_logs (l2oof_contract c) opts "RollupConfigHashUpdated" [rule tBytes32 oldRollupConfigHash; rule tBytes32 newRollupConfigHash].
Definition L2OOFilterer_WatchRollupConfigHashUpdated (c : L2OOFilterer) (opts : WatchOpts) (oldRollupConfigHash : list Z) (newRollupConfigHash : list Z) :=
  watch_logs build_L2OORollupConfigHashUpdated (l2oof_contract c) opts "RollupConfigHashUpdated" [rule tBytes32 oldRollupConfigHash; rule tBytes32 newRollupConfigHash].
Definition L2OOFilterer_ParseRollupConfigHashUpdated (c : L2OOFilterer) (log : Log) : error + L2OORollupConfigHashUpdated :=
  unpack build_L2OORollupConfigHashUpdated (l2oof_contract c) "RollupConfigHashUpdated" log.

Record L2OOSubmissionIntervalUpdated := mkL2OOSubmissionIntervalUpdated { L2OOSubmissionIntervalUpdated_OldSubmissionInterval : Z; L2OOSubmissionIntervalUpdated_NewSubmissionInterval : Z; L2OOSubmissionIntervalUpdated_Raw : Log }.
Definition build_L2OOSubmissionIntervalUpdated : Builder L2OOSubmissionIntervalUpdated := λ fields raw,
  match fields with
  | [v1; v2] => x1 ← of_go tBig v1; x2 ← of_go tBig v2; Some (mkL2OOSubmissionIntervalUpdated x1 x2 raw)
  | _ => None
  end.
Definition L2OOSubmissionIntervalUpdatedIterator_Next : bool → Iterator L2OOSubmissionIntervalUpdated → bool * Iterator L2OOSubmissionIntervalUpdated := iter_Next build_L2OOSubmissionIntervalUpdated.
Definition L2OOSubmissionIntervalUpdatedIterator_Error : Iterator L2OOSubmissionIntervalUpdated → option error := iter_Error.
Definition L2OOSubmissionIntervalUpdatedIterator_Close : nat → Iterator L2OOSubmissionIntervalUpdated → option error * Iterator L2OOSubmissionIntervalUpdated := iter_Close.
Definition L2OOFilterer_FilterSubmissionIntervalUpdated (c : L2OOFilterer) (opts : FilterOpts) : bprog (Iterator L2OOSubmissionIntervalUpdated) :=
  filter_logs (l2oof_contract c) opts "SubmissionIntervalUpdated" [].
Definition L2OOFilterer_WatchSubmissionIntervalUpdated (c : L2OOFilterer) (opts : WatchOpts) :=
  watch_logs build_L2OOSubmissionIntervalUpdated (l2oof_contract c) opts "SubmissionIntervalUpdated" [].
Definition L2OOFilterer_ParseSubmissionIntervalUpdated (c : L2OOFilterer) (log : Log) : error + L2OOSubmissionIntervalUpdated :=
  unpack build_L2OOSubmissionIntervalUpdated (l2oof_contract c) "SubmissionIntervalUpdated" log.

Record L2OOVerifierUpdated := mkL2OOVerifierUpdated { L2OOVerifierUpdated_OldVerifier : Address; L2OOVerifierUpdated_NewVerifier : Address; L2OOVerifierUpdated_Raw : Log }.
Definition build_L2OOVerifierUpdated : Builder L2OOVerifierUpdated := λ fields raw,
  match fields with
  | [v1; v2] => x1 ← of_go tAddress v1; x2 ← of_go tAddress v2; Some (mkL2OOVerifierUpdated x1 x2 raw)
  | _ => None
  end.
Definition L2OOVerifierUpdatedIterator_Next : bool → Iterator L2OOVerifierUpdated → bool * Iterator L2OOVerifierUpdated := iter_Next build_L2OOVerifierUpdated.
Definition L2OOVerifierUpdatedIterator_Error : Iterator L2OOVerifierUpdated → option error := iter_Error.
Definition L2OOVerifierUpdatedIterator_Close : nat → Iterator L2OOVerifierUpdated → option error * Iterator L2OOVerifierUpdated := iter_Close.
Definition L2OOFilterer_FilterVerifierUpdated (c : L2OOFilterer) (opts : FilterOpts) (oldVerifier : list Address) (newVerifier : list Address) : bprog (Iterator L2OOVerifierUpdated) :=
  filter_logs (l2oof_contract c) opts "VerifierUpdated" [rule tAddress oldVerifier; rule tAddress newVerifier].
Definition L2OOFilterer_WatchVerifierUpdated (c : L2OOFilterer) (opts : WatchOpts) (oldVerifier : list Address) (newVerifier : list Address) :=
  watch_logs build_L2OOVerifierUpdated (l2oof_contract c) opts "VerifierUpdated" [rule tAddress oldVerifier; rule tAddress newVerifier].
Definition L2OOFilterer_ParseVerifierUpdated (c : L2OOFilterer) (log : Log) : error + L2OOVerifierUpdated :=
  unpack build_L2OOVerifierUpdated (l2oof_contract c) "VerifierUpdated" log.

End bindings.
