(* ===== verification/Factory.v ===== *)
(** * The bindings of the dispute game factory ([op/bindings/disputegamefactory.go])

    [DGF] stands for [DisputeGameFactory] in the names; as in [Oracle]. *)

From Stdlib Require Import ZArith Lia.
From S2P Require Import Prelude Sql ProofRequest Prog Bindings.

Local Open Scope string_scope.
Local Open Scope Z_scope.

(** ** The struct of the contract *)

Record GameSearchResult := mkGameSearchResult {
  gsr_Index : Z;
  gsr_Metadata : Z;
  gsr_Timestamp : Z;
  gsr_RootClaim : Z;
  gsr_ExtraData : bytes;
}.

Definition tGameSearchResult : gotype GameSearchResult :=
  mkGoType
    (λ x, let 'mkGameSearchResult a b c d e := x in
       GStruct [GBig a; GBytes32 b; GUint 64 c; GBytes32 d; GBytes e])
    (λ v, match v with
       | GStruct [GBig a; GBytes32 b; GUint 64 c; GBytes32 d; GBytes e] => Some (mkGameSearchResult a b c d e)
       | _ => None
       end)
    (ty_eqb (TTuple [TUint 256; TBytes32; TUint 64; TBytes32; TBytes])).

(** ** The ABI *)

(** The functions and events of the ABI in the metadata, in order. *)
Definition DGFABI : ABI := mkABI
  [mkMethod "create" [TUint 32; TBytes32; TBytes] [TAddress] Payable;
   mkMethod "findLatestGames" [TUint 32; TUint 256; TUint 256] [TSlice (TTuple [TUint 256; TBytes32; TUint 64; TBytes32; TBytes])] View;
   mkMethod "gameAtIndex" [TUint 256] [TUint 32; TUint 64; TAddress] View;
   mkMethod "gameCount" [] [TUint 256] View;
   mkMethod "gameImpls" [TUint 32] [TAddress] View;
   mkMethod "games" [TUint 32; TBytes32; TBytes] [TAddress; TUint 64] View;
   mkMethod "getGameUUID" [TUint 32; TBytes32; TBytes] [TBytes32] Pure;
   mkMethod "initBonds" [TUint 32] [TUint 256] View;
   mkMethod "initialize" [TAddress] [] Nonpayable;
   mkMethod "owner" [] [TAddress] View;
   mkMethod "renounceOwnership" [] [] Nonpayable;
   mkMethod "setImplementation" [TUint 32; TAddress] [] Nonpayable;
   mkMethod "setInitBond" [TUint 32; TUint 256] [] Nonpayable;
   mkMethod "transferOwnership" [TAddress] [] Nonpayable;
   mkMethod "version" [] [TString] View]
  [mkEvent "DisputeGameCreated" [(TAddress, true); (TUint 32, true); (TBytes32, true)];
   mkEvent "ImplementationSet" [(TAddress, true); (TUint 32, true)];
   mkEvent "InitBondUpdated" [(TUint 32, true); (TUint 256, true)];
   mkEvent "Initialized" [(TUint 8, false)];
   mkEvent "OwnershipTransferred" [(TAddress, true); (TAddress, true)]].

Section bindings.
Context `{BindLib}.

(** ** The structs *)

Record DGFCaller := mkDGFCaller { dgfc_contract : BoundContract }.
Record DGFTransactor := mkDGFTransactor { dgft_contract : BoundContract }.
Record DGFFilterer := mkDGFFilterer { dgff_contract : BoundContract }.
Record DGF := mkDGF { dgf_Caller : DGFCaller; dgf_Transactor : DGFTransactor; dgf_Filterer : DGFFilterer }.
Record DGFSession := mkDGFSession { dgfs_Contract : DGF; dgfs_CallOpts : CallOpts; dgfs_TransactOpts : TransactOpts }.
Record DGFCallerSession := mkDGFCallerSession { dgfcs_Contract : DGFCaller; dgfcs_CallOpts : CallOpts }.
Record DGFTransactorSession := mkDGFTransactorSession { dgfts_Contract : DGFTransactor; dgfts_TransactOpts : TransactOpts }.
Record DGFRaw := mkDGFRaw { dgfr_Contract : DGF }.
Record DGFCallerRaw := mkDGFCallerRaw { dgfcr_Contract : DGFCaller }.
Record DGFTransactorRaw := mkDGFTransactorRaw { dgftr_Contract : DGFTransactor }.

(** ** Constructors *)

Definition bindDGF (address : Address) (caller transactor filterer : option Backend) : bprog BoundContract :=
  bind_contract DGFABI address caller transactor filterer.
(** The bytecode is DisputeGameFactoryMetaData.Bin. *)
Definition DeployDGF (bin : string) (auth : TransactOpts) (backend : Backend) : bprog (Address * Transaction * DGF) :=
  r ← deploy_contract DGFABI bin auth backend;
  let '(address, tx, contract) := r in
  BRet (address, tx, mkDGF (mkDGFCaller contract) (mkDGFTransactor contract) (mkDGFFilterer contract)).
Definition NewDGF (address : Address) (backend : Backend) : bprog DGF :=
  contract ← bindDGF address (Some backend) (Some backend) (Some backend);
  BRet (mkDGF (mkDGFCaller contract) (mkDGFTransactor contract) (mkDGFFilterer contract)).
Definition NewDGFCaller (address : Address) (caller : Backend) : bprog DGFCaller :=
  contract ← bindDGF address (Some caller) None None; BRet (mkDGFCaller contract).
Definition NewDGFTransactor (address : Address) (transactor : Backend) : bprog DGFTransactor :=
  contract ← bindDGF address None (Some transactor) None; BRet (mkDGFTransactor contract).
Definition NewDGFFilterer (address : Address) (filterer : Backend) : bprog DGFFilterer :=
  contract ← bindDGF address None None (Some filterer); BRet (mkDGFFilterer contract).

(** ** Raw access *)

Definition DGFRaw_Call (b : DGFRaw) (opts : CallOpts) (method : string) (params : list GoVal) : bprog (list GoVal) :=
  bcall (BCall (dgfc_contract (dgf_Caller (dgfr_Contract b))) opts method params).
Definition DGFRaw_Transfer (b : DGFRaw) (opts : TransactOpts) : bprog Transaction := bcall (BTransfer (dgft_contract (dgf_Transactor (dgfr_Contract b))) opts).
Definition DGFRaw_Transact (b : DGFRaw) (opts : TransactOpts) (method : string) (params : list GoVal) : bprog Transaction :=
  bcall (BTransact (dgft_contract (dgf_Transactor (dgfr_Contract b))) opts method params).
Definition DGFCallerRaw_Call (b : DGFCallerRaw) (opts : CallOpts) (method : string) (params : list GoVal) : bprog (list GoVal) :=
  bcall (BCall (dgfc_contract (dgfcr_Contract b)) opts method params).
Definition DGFTransactorRaw_Transfer (b : DGFTransactorRaw) (opts : TransactOpts) : bprog Transaction := bcall (BTransfer (dgft_contract (dgftr_Contract b)) opts).
Definition DGFTransactorRaw_Transact (b : DGFTransactorRaw) (opts : TransactOpts) (method : string) (params : list GoVal) : bprog Transaction :=
  bcall (BTransact (dgft_contract (dgftr_Contract b)) opts method params).

(** ** Calls *)

Definition DGFCaller_FindLatestGames (c : DGFCaller) (opts : CallOpts) (_gameType : Z) (_start : Z) (_n : Z) : bprog (list GameSearchResult) :=
  call1 (tSlice tGameSearchResult) (dgfc_contract c) opts "findLatestGames" [to_go (tUint 32) _gameType; to_go tBig _start; to_go tBig _n].
Definition DGFSession_FindLatestGames (s : DGFSession) (_gameType : Z) (_start : Z) (_n : Z) : bprog (list GameSearchResult) := DGFCaller_FindLatestGames (dgf_Caller (dgfs_Contract s)) (dgfs_CallOpts s) _gameType _start _n.
Definition DGFCallerSession_FindLatestGames (s : DGFCallerSession) (_gameType : Z) (_start : Z) (_n : Z) : bprog (list GameSearchResult) := DGFCaller_FindLatestGames (dgfcs_Contract s) (dgfcs_CallOpts s) _gameType _start _n.
Record DGFGameAtIndexResult := mkDGFGameAtIndexResult { DGFGameAtIndex_GameType : Z; DGFGameAtIndex_Timestamp : Z; DGFGameAtIndex_Proxy : Address }.
Definition DGFCaller_GameAtIndex (c : DGFCaller) (opts : CallOpts) (_index : Z) : bprog DGFGameAtIndexResult :=
  out ← bcall (BCall (dgfc_contract c) opts "gameAtIndex" [to_go tBig _index]);
  x0 ← out_at (tUint 32) out 0; x1 ← out_at (tUint 64) out 1; x2 ← out_at tAddress out 2;
  BRet (mkDGFGameAtIndexResult x0 x1 x2).
Definition DGFSession_GameAtIndex (s : DGFSession) (_index : Z) : bprog DGFGameAtIndexResult := DGFCaller_GameAtIndex (dgf_Caller (dgfs_Contract s)) (dgfs_CallOpts s) _index.
Definition DGFCallerSession_GameAtIndex (s : DGFCallerSession) (_index : Z) : bprog DGFGameAtIndexResult := DGFCaller_GameAtIndex (dgfcs_Contract s) (dgfcs_CallOpts s) _index.
Definition DGFCaller_GameCount (c : DGFCaller) (opts : CallOpts) : bprog Z :=
  call1 tBig (dgfc_contract c) opts "gameCount" [].
Definition DGFSession_GameCount (s : DGFSession) : bprog Z := DGFCaller_GameCount (dgf_Caller (dgfs_Contract s)) (dgfs_CallOpts s).
Definition DGFCallerSession_GameCount (s : DGFCallerSession) : bprog Z := DGFCaller_GameCount (dgfcs_Contract s) (dgfcs_CallOpts s).
Definition DGFCaller_GameImpls (c : DGFCaller) (opts : CallOpts) (arg0 : Z) : bprog Address :=
  call1 tAddress (dgfc_contract c) opts "gameImpls" [to_go (tUint 32) arg0].
Definition DGFSession_GameImpls (s : DGFSession) (arg0 : Z) : bprog Address := DGFCaller_GameImpls (dgf_Caller (dgfs_Contract s)) (dgfs_CallOpts s) arg0.
Definition DGFCallerSession_GameImpls (s : DGFCallerSession) (arg0 : Z) : bprog Address := DGFCaller_GameImpls (dgfcs_Contract s) (dgfcs_CallOpts s) arg0.
Record DGFGamesResult := mkDGFGamesResult { DGFGames_Proxy : Address; DGFGames_Timestamp : Z }.
Definition DGFCaller_Games (c : DGFCaller) (opts : CallOpts) (_gameType : Z) (_rootClaim : Z) (_extraData : bytes) : bprog DGFGamesResult :=
  out ← bcall (BCall (dgfc_contract c) opts "games" [to_go (tUint 32) _gameType; to_go tBytes32 _rootClaim; to_go tBytes _extraData]);
  x0 ← out_at tAddress out 0; x1 ← out_at (tUint 64) out 1;
  BRet (mkDGFGamesResult x0 x1).
Definition DGFSession_Games (s : DGFSession) (_gameType : Z) (_rootClaim : Z) (_extraData : bytes) : bprog DGFGamesResult := DGFCaller_Games (dgf_Caller (dgfs_Contract s)) (dgfs_CallOpts s) _gameType _rootClaim _extraData.
Definition DGFCallerSession_Games (s : DGFCallerSession) (_gameType : Z) (_rootClaim : Z) (_extraData : bytes) : bprog DGFGamesResult := DGFCaller_Games (dgfcs_Contract s) (dgfcs_CallOpts s) _gameType _rootClaim _extraData.
Definition DGFCaller_GetGameUUID (c : DGFCaller) (opts : CallOpts) (_gameType : Z) (_rootClaim : Z) (_extraData : bytes) : bprog Z :=
  call1 tBytes32 (dgfc_contract c) opts "getGameUUID" [to_go (tUint 32) _gameType; to_go tBytes32 _rootClaim; to_go tBytes _extraData].
Definition DGFSession_GetGameUUID (s : DGFSession) (_gameType : Z) (_rootClaim : Z) (_extraData : bytes) : bprog Z := DGFCaller_GetGameUUID (dgf_Caller (dgfs_Contract s)) (dgfs_CallOpts s) _gameType _rootClaim _extraData.
Definition DGFCallerSession_GetGameUUID (s : DGFCallerSession) (_gameType : Z) (_rootClaim : Z) (_extraData : bytes) : bprog Z := DGFCaller_GetGameUUID (dgfcs_Contract s) (dgfcs_CallOpts s) _gameType _rootClaim _extraData.
Definition DGFCaller_InitBonds (c : DGFCaller) (opts : CallOpts) (arg0 : Z) : bprog Z :=
  call1 tBig (dgfc_contract c) opts "initBonds" [to_go (tUint 32) arg0].
Definition DGFSession_InitBonds (s : DGFSession) (arg0 : Z) : bprog Z := DGFCaller_InitBonds (dgf_Caller (dgfs_Contract s)) (dgfs_CallOpts s) arg0.
Definition DGFCallerSession_InitBonds (s : DGFCallerSession) (arg0 : Z) : bprog Z := DGFCaller_InitBonds (dgfcs_Contract s) (dgfcs_CallOpts s) arg0.
Definition DGFCaller_Owner (c : DGFCaller) (opts : CallOpts) : bprog Address :=
  call1 tAddress (dgfc_contract c) opts "owner" [].
Definition DGFSession_Owner (s : DGFSession) : bprog Address := DGFCaller_Owner (dgf_Caller (dgfs_Contract s)) (dgfs_CallOpts s).
Definition DGFCallerSession_Owner (s : DGFCallerSession) : bprog Address := DGFCaller_Owner (dgfcs_Contract s) (dgfcs_CallOpts s).
Definition DGFCaller_Version (c : DGFCaller) (opts : CallOpts) : bprog string :=
  call1 tString (dgfc_contract c) opts "version" [].
Definition DGFSession_Version (s : DGFSession) : bprog string := DGFCaller_Version (dgf_Caller (dgfs_Contract s)) (dgfs_CallOpts s).
Definition DGFCallerSession_Version (s : DGFCallerSession) : bprog string := DGFCaller_Version (dgfcs_Contract s) (dgfcs_CallOpts s).

(** ** Transactions *)

Definition DGFTransactor_Create (c : DGFTransactor) (opts : TransactOpts) (_gameType : Z) (_rootClaim : Z) (_extraData : bytes) : bprog Transaction :=
  bcall (BTransact (dgft_contract c) opts "create" [to_go (tUint 32) _gameType; to_go tBytes32 _rootClaim; to_go tBytes _extraData]).
Definition DGFSession_Create (s : DGFSession) (_gameType : Z) (_rootClaim : Z) (_extraData : bytes) : bprog Transaction := DGFTransactor_Create (dgf_Transactor (dgfs_Contract s)) (dgfs_TransactOpts s) _gameType _rootClaim _extraData.
Definition DGFTransactorSession_Create (s : DGFTransactorSession) (_gameType : Z) (_rootClaim : Z) (_extraData : bytes) : bprog Transaction := DGFTransactor_Create (dgfts_Contract s) (dgfts_TransactOpts s) _gameType _rootClaim _extraData.
Definition DGFTransactor_Initialize (c : DGFTransactor) (opts : TransactOpts) (_owner : Address) : bprog Transaction :=
  bcall (BTransact (dgft_contract c) opts "initialize" [to_go tAddress _owner]).
Definition DGFSession_Initialize (s : DGFSession) (_owner : Address) : bprog Transaction := DGFTransactor_Initialize (dgf_Transactor (dgfs_Contract s)) (dgfs_TransactOpts s) _owner.
Definition DGFTransactorSession_Initialize (s : DGFTransactorSession) (_owner : Address) : bprog Transaction := DGFTransactor_Initialize (dgfts_Contract s) (dgfts_TransactOpts s) _owner.
Definition DGFTransactor_RenounceOwnership (c : DGFTransactor) (opts : TransactOpts) : bprog Transaction :=
  bcall (BTransact (dgft_contract c) opts "renounceOwnership" []).
Definition DGFSession_RenounceOwnership (s : DGFSession) : bprog Transaction := DGFTransactor_RenounceOwnership (dgf_Transactor (dgfs_Contract s)) (dgfs_TransactOpts s).
Definition DGFTransactorSession_RenounceOwnership (s : DGFTransactorSession) : bprog Transaction := DGFTransactor_RenounceOwnership (dgfts_Contract s) (dgfts_TransactOpts s).
Definition DGFTransactor_SetImplementation (c : DGFTransactor) (opts : TransactOpts) (_gameType : Z) (_impl : Address) : bprog Transaction :=
  bcall (BTransact (dgft_contract c) opts "setImplementation" [to_go (tUint 32) _gameType; to_go tAddress _impl]).
Definition DGFSession_SetImplementation (s : DGFSession) (_gameType : Z) (_impl : Address) : bprog Transaction := DGFTransactor_SetImplementation (dgf_Transactor (dgfs_Contract s)) (dgfs_TransactOpts s) _gameType _impl.
Definition DGFTransactorSession_SetImplementation (s : DGFTransactorSession) (_gameType : Z) (_impl : Address) : bprog Transaction := DGFTransactor_SetImplementation (dgfts_Contract s) (dgfts_TransactOpts s) _gameType _impl.
Definition DGFTransactor_SetInitBond (c : DGFTransactor) (opts : TransactOpts) (_gameType : Z) (_initBond : Z) : bprog Transaction :=
  bcall (BTransact (dgft_contract c) opts "setInitBond" [to_go (tUint 32) _gameType; to_go tBig _initBond]).
Definition DGFSession_SetInitBond (s : DGFSession) (_gameType : Z) (_initBond : Z) : bprog Transaction := DGFTransactor_SetInitBond (dgf_Transactor (dgfs_Contract s)) (dgfs_TransactOpts s) _gameType _initBond.
Definition DGFTransactorSession_SetInitBond (s : DGFTransactorSession) (_gameType : Z) (_initBond : Z) : bprog Transaction := DGFTransactor_SetInitBond (dgfts_Contract s) (dgfts_TransactOpts s) _gameType _initBond.
Definition DGFTransactor_TransferOwnership (c : DGFTransactor) (opts : TransactOpts) (newOwner : Address) : bprog Transaction :=
  bcall (BTransact (dgft_contract c) opts "transferOwnership" [to_go tAddress newOwner]).
Definition DGFSession_TransferOwnership (s : DGFSession) (newOwner : Address) : bprog Transaction := DGFTransactor_TransferOwnership (dgf_Transactor (dgfs_Contract s)) (dgfs_TransactOpts s) newOwner.
Definition DGFTransactorSession_TransferOwnership (s : DGFTransactorSession) (newOwner : Address) : bprog Transaction := DGFTransactor_TransferOwnership (dgfts_Contract s) (dgfts_TransactOpts s) newOwner.

(** ** Events *)

Record DGFDisputeGameCreated := mkDGFDisputeGameCreated { DGFDisputeGameCreated_DisputeProxy : Address; DGFDisputeGameCreated_GameType : Z; DGFDisputeGameCreated_RootClaim : Z; DGFDisputeGameCreated_Raw : Log }.
Definition build_DGFDisputeGameCreated : Builder DGFDisputeGameCreated := λ fields raw,
  match fields with
  | [v1; v2; v3] => x1 ← of_go tAddress v1; x2 ← of_go (tUint 32) v2; x3 ← of_go tBytes32 v3; Some (mkDGFDisputeGameCreated x1 x2 x3 raw)
  | _ => None
  end.
Definition DGFDisputeGameCreatedIterator_Next : bool → Iterator DGFDisputeGameCreated → bool * Iterator DGFDisputeGameCreated := iter_Next build_DGFDisputeGameCreated.
Definition DGFDisputeGameCreatedIterator_Error : Iterator DGFDisputeGameCreated → option error := iter_Error.
Definition DGFDisputeGameCreatedIterator_Close : nat → Iterator DGFDisputeGameCreated → option error * Iterator DGFDisputeGameCreated := iter_Close.
Definition DGFFilterer_FilterDisputeGameCreated (c : DGFFilterer) (opts : FilterOpts) (disputeProxy : list Address) (gameType : list Z) (rootClaim : list Z) : bprog (Iterator DGFDisputeGameCreated) :=
  filter_logs (dgff_contract c) opts "DisputeGameCreated" [rule tAddress disputeProxy; rule (tUint 32) gameType; rule tBytes32 rootClaim].
Definition DGFFilterer_WatchDisputeGameCreated (c : DGFFilterer) (opts : WatchOpts) (disputeProxy : list Address) (gameType : list Z) (rootClaim : list Z) :=
  watch_logs build_DGFDisputeGameCreated (dgff_contract c) opts "DisputeGameCreated" [rule tAddress disputeProxy; rule (tUint 32) gameType; rule tBytes32 rootClaim].
Definition DGFFilterer_ParseDisputeGameCreated (c : DGFFilterer) (log : Log) : error + DGFDisputeGameCreated :=
  unpack build_DGFDisputeGameCreated (dgff_contract c) "DisputeGameCreated" log.

Record DGFImplementationSet := mkDGFImplementationSet { DGFImplementationSet_Impl : Address; DGFImplementationSet_GameType : Z; DGFImplementationSet_Raw : Log }.
Definition build_DGFImplementationSet : Builder DGFImplementationSet := λ fields raw,
  match fields with
  | [v1; v2] => x1 ← of_go tAddress v1; x2 ← of_go (tUint 32) v2; Some (mkDGFImplementationSet x1 x2 raw)
  | _ => None
  end.
Definition DGFImplementationSetIterator_Next : bool → Iterator DGFImplementationSet → bool * Iterator DGFImplementationSet := iter_Next build_DGFImplementationSet.
Definition DGFImplementationSetIterator_Error : Iterator DGFImplementationSet → option error := iter_Error.
Definition DGFImplementationSetIterator_Close : nat → Iterator DGFImplementationSet → option error * Iterator DGFImplementationSet := iter_Close.
Definition DGFFilterer_FilterImplementationSet (c : DGFFilterer) (opts : FilterOpts) (impl : list Address) (gameType : list Z) : bprog (Iterator DGFImplementationSet) :=
  filter_logs (dgff_contract c) opts "ImplementationSet" [rule tAddress impl; rule (tUint 32) gameType].
Definition DGFFilterer_WatchImplementationSet (c : DGFFilterer) (opts : WatchOpts) (impl : list Address) (gameType : list Z) :=
  watch_logs build_DGFImplementationSet (dgff_contract c) opts "ImplementationSet" [rule tAddress impl; rule (tUint 32) gameType].
Definition DGFFilterer_ParseImplementationSet (c : DGFFilterer) (log : Log) : error + DGFImplementationSet :=
  unpack build_DGFImplementationSet (dgff_contract c) "ImplementationSet" log.

Record DGFInitBondUpdated := mkDGFInitBondUpdated { DGFInitBondUpdated_GameType : Z; DGFInitBondUpdated_NewBond : Z; DGFInitBondUpdated_Raw : Log }.
Definition build_DGFInitBondUpdated : Builder DGFInitBondUpdated := λ fields raw,
  match fields with
  | [v1; v2] => x1 ← of_go (tUint 32) v1; x2 ← of_go tBig v2; Some (mkDGFInitBondUpdated x1 x2 raw)
  | _ => None
  end.
Definition DGFInitBondUpdatedIterator_Next : bool → Iterator DGFInitBondUpdated → bool * Iterator DGFInitBondUpdated := iter_Next build_DGFInitBondUpdated.
Definition DGFInitBondUpdatedIterator_Error : Iterator DGFInitBondUpdated → option error := iter_Error.
Definition DGFInitBondUpdatedIterator_Close : nat → Iterator DGFInitBondUpdated → option error * Iterator DGFInitBondUpdated := iter_Close.
Definition DGFFilterer_FilterInitBondUpdated (c : DGFFilterer) (opts : FilterOpts) (gameType : list Z) (newBond : list Z) : bprog (Iterator DGFInitBondUpdated) :=
  filter_logs (dgff_contract c) opts "InitBondUpdated" [rule (tUint 32) gameType; rule tBig newBond].
Definition DGFFilterer_WatchInitBondUpdated (c : DGFFilterer) (opts : WatchOpts) (gameType : list Z) (newBond : list Z) :=
  watch_logs build_DGFInitBondUpdated (dgff_contract c) opts "InitBondUpdated" [rule (tUint 32) gameType; rule tBig newBond].
Definition DGFFilterer_ParseInitBondUpdated (c : DGFFilterer) (log : Log) : error + DGFInitBondUpdated :=
  unpack build_DGFInitBondUpdated (dgff_contract c) "InitBondUpdated" log.

Record DGFInitialized := mkDGFInitialized { DGFInitialized_Version : Z; DGFInitialized_Raw : Log }.
Definition build_DGFInitialized : Builder DGFInitialized := λ fields raw,
  match fields with
  | [v1] => x1 ← of_go (tUint 8) v1; Some (mkDGFInitialized x1 raw)
  | _ => None
  end.
Definition DGFInitializedIterator_Next : bool → Iterator DGFInitialized → bool * Iterator DGFInitialized := iter_Next build_DGFInitialized.
Definition DGFInitializedIterator_Error : Iterator DGFInitialized → option error := iter_Error.
Definition DGFInitializedIterator_Close : nat → Iterator DGFInitialized → option error * Iterator DGFInitialized := iter_Close.
Definition DGFFilterer_FilterInitialized (c : DGFFilterer) (opts : FilterOpts) : bprog (Iterator DGFInitialized) :=
  filter_logs (dgff_contract c) opts "Initialized" [].
Definition DGFFilterer_WatchInitialized (c : DGFFilterer) (opts : WatchOpts) :=
  watch_logs build_DGFInitialized (dgff_contract c) opts "Initialized" [].
Definition DGFFilterer_ParseInitialized (c : DGFFilterer) (log : Log) : error + DGFInitialized :=
  unpack build_DGFInitialized (dgff_contract c) "Initialized" log.

Record DGFOwnershipTransferred := mkDGFOwnershipTransferred { DGFOwnershipTransferred_PreviousOwner : Address; DGFOwnershipTransferred_NewOwner : Address; DGFOwnershipTransferred_Raw : Log }.
Definition build_DGFOwnershipTransferred : Builder DGFOwnershipTransferred := λ fields raw,
  match fields with
  | [v1; v2] => x1 ← of_go tAddress v1; x2 ← of_go tAddress v2; Some (mkDGFOwnershipTransferred x1 x2 raw)
  | _ => None
  end.
Definition DGFOwnershipTransferredIterator_Next : bool → Iterator DGFOwnershipTransferred → bool * Iterator DGFOwnershipTransferred := iter_Next build_DGFOwnershipTransferred.
Definition DGFOwnershipTransferredIterator_Error : Iterator DGFOwnershipTransferred → option error := iter_Error.
Definition DGFOwnershipTransferredIterator_Close : nat → Iterator DGFOwnershipTransferred → option error * Iterator DGFOwnershipTransferred := iter_Close.
Definition DGFFilterer_FilterOwnershipTransferred (c : DGFFilterer) (opts : FilterOpts) (previousOwner : list Address) (newOwner : list Address) : bprog (Iterator DGFOwnershipTransferred) :=
  filter_logs (dgff_contract c) opts "OwnershipTransferred" [rule tAddress previousOwner; rule tAddress newOwner].
Definition DGFFilterer_WatchOwnershipTransferred (c : DGFFilterer) (opts : WatchOpts) (previousOwner : list Address) (newOwner : list Address) :=
  watch_logs build_DGFOwnershipTransferred (dgff_contract c) opts "OwnershipTransferred" [rule tAddress previousOwner; rule tAddress newOwner].
Definition DGFFilterer_ParseOwnershipTransferred (c : DGFFilterer) (log : Log) : error + DGFOwnershipTransferred :=
  unpack build_DGFOwnershipTransferred (dgff_contract c) "OwnershipTransferred" log.

End bindings.
