(* ===== verification/BindingsProofs.v ===== *)
(** * What the bindings promise

    The conversions between Go values and ABI values, when a use of a binding
    follows an ABI, and what an iterator and a subscription deliver. *)

From Stdlib Require Import ZArith Lia.
From S2P Require Import Prelude Sql ProofRequest Prog Bindings.

Local Open Scope string_scope.
Local Open Scope Z_scope.

(** ** Conversions *)

(** The value of a type that fits has one shape. *)
Ltac conversion :=
  split;
  [ intros x []; simpl; try done
  | intros v []; simpl; try done; destruct v; simpl; try done; eauto
  | done
  | intros [] x; simpl; naive_solver ].

#[export] Instance tAddress_good : Good tAddress.
Proof. conversion. Qed.
#[export] Instance tBool_good : Good tBool.
Proof. conversion. Qed.
#[export] Instance tString_good : Good tString.
Proof. conversion. Qed.
#[export] Instance tBytes_good : Good tBytes.
Proof. conversion. Qed.
#[export] Instance tBytes32_good : Good tBytes32.
Proof. conversion. Qed.

#[export] Instance tUint_good bits : Good (tUint bits).
Proof.
  split.
  - intros x [ | | | | | w | | ]; simpl; try done.
    intros [Hn He%Is_true_true%Z.eqb_eq]%andb_True. subst. by rewrite Z.eqb_refl, andb_true_r.
  - intros v [ | | | | | w | | ]; simpl; try done.
    intros [Hn He%Is_true_true%Z.eqb_eq]%andb_True. subst. destruct v; simpl; try done.
    + intros [_ ->%Is_true_true]%andb_True. eauto.
    + by destruct (native bits).
  - intros x. simpl. by rewrite Z.eqb_refl.
  - intros [] x; simpl; try done. destruct (Z.eqb_spec bits0 bits); naive_solver.
Qed.

#[export] Instance tBig_good : Good tBig.
Proof.
  split.
  - intros x []; simpl; try done.
  - intros v [ | | | | | w | | ]; simpl; try done. intros Hn. destruct v; simpl; try done; eauto.
    by destruct (native w).
  - done.
  - intros [] x; simpl; naive_solver.
Qed.

#[export] Instance tSlice_good `{Good T g} : Good (tSlice g).
Proof.
  split.
  - intros x [ | | | | | | | t]; simpl; try done. intros Hf. apply Is_true_true, forallb_forall.
    intros v Hv. apply list_elem_of_In, list_elem_of_fmap in Hv as (y & -> & _).
    by apply Is_true_true, good_to.
  - intros v [ | | | | | | | t]; simpl; try done. intros Hf. destruct v; simpl; try done.
    intros Hall%Is_true_true. rewrite forallb_forall in Hall. apply mapM_is_Some_2, Forall_forall.
    intros v Hv%list_elem_of_In. apply (good_of _ t); [done|]. by apply Is_true_true, Hall.
  - intros x. simpl. apply mapM_Some. induction x as [|y x IH]; constructor; [apply good_roundtrip|done].
  - intros [] xs; simpl; try done. intros Hxs%mapM_Some. f_equal.
    induction Hxs as [|v x l xs Hv _ IH]; [done|]. rewrite fmap_cons, IH. f_equal. by apply good_inverse.
Qed.

(** Equal types have the same values. *)
Fixpoint ty_eqb_typed (t u : AbiType) (v : GoVal) {struct t} : ty_eqb t u → typed t v = typed u v.
Proof.
  destruct t as [ | | | | |a|ts|t], u as [ | | | | |b|us|u]; simpl; try done.
  - by intros ->%Is_true_true%Z.eqb_eq.
  - intros Hts. destruct v as [ | | | | | | |vs| ]; [done..| |done].
    revert us vs Hts. induction ts as [|t ts IH]; intros [|u us] [|v vs]; simpl; try done.
    intros [Ht Hts]%andb_True. by rewrite (ty_eqb_typed t u v Ht), (IH us vs Hts).
  - intros Ht. destruct v as [ | | | | | | | |vs]; [done..|].
    induction vs as [|v vs IH]; simpl; [done|]. by rewrite (ty_eqb_typed t u v Ht), IH.
Qed.

(** ** Following an ABI *)

Section follows.
Context `{BindLib}.

(** A method of the ABI that reads: the node is asked for it with these
    arguments, which have its types; an error is returned, and an answer, which
    has the types of its outputs, is returned as a Go value that encodes to it. *)
Definition reads_method {A} (abi : ABI) (name : string) (args : list GoVal) (enc : A → list GoVal) (p : bprog A) : Prop :=
  ∃ c opts m k, p = BDo (BCall c opts name args) k ∧ bc_abi c = abi ∧ find_method abi name = Some m ∧
    constant (am_mutability m) ∧ forallb2 typed (am_inputs m) args ∧
    (∀ err, k (inl err) = BErr err) ∧
    (∀ out, forallb2 typed (am_outputs m) out → ∃ a, k (inr out) = BRet a ∧ enc a = out).

(** A method that is sent in a transaction. *)
Definition sends_method (abi : ABI) (name : string) (args : list GoVal) (p : bprog Transaction) : Prop :=
  ∃ c opts m k, p = BDo (BTransact c opts name args) k ∧ bc_abi c = abi ∧ find_method abi name = Some m ∧
    constant (am_mutability m) = false ∧ forallb2 typed (am_inputs m) args ∧
    (∀ err, k (inl err) = BErr err) ∧ (∀ tx, k (inr tx) = BRet tx).

(** The types of the indexed parameters of an event. *)
Definition indexed (e : AbiEvent) : list AbiType := (filter (λ p, p.2 = true) (ae_inputs e)).*1.

(** An event: its logs are asked for with a rule for each indexed parameter, of
    its type; the iterator starts before the first log and the subscription
    before the first input; the struct of the event has its fields. *)
Definition reads_event {E} (abi : ABI) (name : string) (query : list (list GoVal)) (enc : E → list GoVal)
    (build : Builder E) (f : bprog (Iterator E)) (w : bprog (list watch_input → option (list E * watch_state E))) : Prop :=
  ∃ e, find_event abi name = Some e ∧ forallb2 (λ t, forallb (typed t)) (indexed e) query ∧
    (∀ fields log, forallb2 typed (fst <$> ae_inputs e) fields → ∃ ev, build fields log = Some ev ∧ enc ev = fields) ∧
    (∃ c opts k, f = BDo (BFilterLogs c opts name query) k ∧ bc_abi c = abi ∧
       (∀ err, k (inl err) = BErr err) ∧ (∀ s, k (inr s) = BRet (new_iterator c name s))) ∧
    (∃ c opts k, w = BDo (BWatchLogs c opts name query) k ∧ bc_abi c = abi ∧
       (∀ err, k (inl err) = BErr err) ∧ (∀ u, k (inr u) = BRet (watch_run build c name (WIdle E)))).

(** A binding implements an ABI: its methods and events do, and there is one
    for each of the ABI. *)
Record implements (abi : ABI)
    (reads : string → list GoVal → ∀ A, (A → list GoVal) → bprog A → Prop)
    (sends : string → list GoVal → bprog Transaction → Prop)
    (events : string → list (list GoVal) → ∀ E, (E → list GoVal) → Builder E → bprog (Iterator E) →
       bprog (list watch_input → option (list E * watch_state E)) → Prop) : Prop := {
  impl_reads name args A enc p : reads name args A enc p → reads_method abi name args enc p;
  impl_sends name args p : sends name args p → sends_method abi name args p;
  impl_events name query E enc build f w :
    events name query E enc build f w → reads_event abi name query enc build f w;
  impl_methods : Forall (λ m, if constant (am_mutability m) then ∃ args A enc p, reads (am_name m) args A enc p
                              else ∃ args p, sends (am_name m) args p) (abi_methods abi);
  impl_all_events : Forall (λ e, ∃ query E enc build f w, events (ae_name e) query E enc build f w) (abi_events abi);
}.

Lemma out_at_typed {T} (g : gotype T) `{!Good g} (ts : list AbiType) (out : list GoVal) (i : nat) (t : AbiType) :
  forallb2 typed ts out → ts !! i = Some t → fits g t → ∃ x, out_at g out i = BRet x ∧ out !! i = Some (to_go g x).
Proof.
  unfold out_at. revert out i. induction ts as [|t' ts IH]; intros [|v out] [|i]; simpl; try done.
  - intros [Hv _]%andb_True [= ->] Hf. destruct (good_of (g:=g) v t) as [x Hx]; [done..|]. rewrite Hx.
    exists x. by rewrite (good_inverse v x).
  - intros [_ Hout]%andb_True. by apply IH.
Qed.

(** What the check of a method with one output comes to. *)
Definition one_output {T} (abi : ABI) (name : string) (args : list GoVal) (g : gotype T) : bool :=
  match find_method abi name with
  | Some m => constant (am_mutability m) && forallb2 typed (am_inputs m) args &&
              match am_outputs m with [t] => fits g t | _ => false end
  | None => false
  end.

Lemma call1_reads {T} (g : gotype T) `{!Good g} c opts name args :
  one_output (bc_abi c) name args g → reads_method (bc_abi c) name args (λ x, [to_go g x]) (call1 g c opts name args).
Proof.
  unfold one_output. destruct (find_method (bc_abi c) name) as [m|] eqn:Hm; [|done].
  intros [[Hc Ha]%andb_True Ho]%andb_True. destruct (am_outputs m) as [|t [|]] eqn:Hout; try done.
  exists c, opts, m. eexists. split_and!; try done. rewrite Hout. intros out Ht.
  destruct (out_at_typed g [t] out 0 t Ht eq_refl Ho) as (x & Hx & Hl).
  exists x. split; [exact Hx|]. destruct out as [|v [|]]; simplify_eq/=; try done. by apply andb_True in Ht as [_ ?].
Qed.

Definition sendable (abi : ABI) (name : string) (args : list GoVal) : bool :=
  match find_method abi name with
  | Some m => negb (constant (am_mutability m)) && forallb2 typed (am_inputs m) args
  | None => false
  end.

Lemma transact_sends c opts name args :
  sendable (bc_abi c) name args → sends_method (bc_abi c) name args (bcall (BTransact c opts name args)).
Proof.
  unfold sendable. destruct (find_method (bc_abi c) name) as [m|] eqn:Hm; [|done].
  intros [Hc%negb_True Ha]%andb_True. exists c, opts, m. eexists. split_and!; try done.
  by apply not_true_is_false; intros ?; apply Hc, Is_true_true.
Qed.

Lemma filter_reads {E} (enc : E → list GoVal) (build : Builder E) c fopts wopts name query e :
  find_event (bc_abi c) name = Some e → Forall2 (λ t, Forall (typed t)) (indexed e) query →
  (∀ fields log, forallb2 typed (fst <$> ae_inputs e) fields → ∃ ev, build fields log = Some ev ∧ enc ev = fields) →
  reads_event (bc_abi c) name query enc build (filter_logs c fopts name query) (watch_logs build c wopts name query).
Proof.
  intros He Hq Hb. exists e. split_and!; [done| |done| |].
  - clear -Hq. induction Hq as [|t vs ts q Hvs _ IH]; simpl; [done|]. apply andb_True. split; [|done].
    clear -Hvs. induction Hvs; simpl; [done|]. by apply andb_True.
  - exists c, fopts. eexists. by split_and!.
  - exists c, wopts. eexists. by split_and!.
Qed.

Lemma rule_typed {T} (g : gotype T) `{!Good g} t items : fits g t → Forall (typed t) (rule g items).
Proof. intros Hf. apply Forall_fmap, Forall_true. intros x. by apply good_to. Qed.

End follows.

(** ** Iterators *)

Section streams.
Context `{BindLib} {E : Type} (build : Builder E) (c : BoundContract) (event : string).

(** The events of logs up to the first that cannot be unpacked, and its error. *)
Fixpoint decode (logs : list Log) : list E * option error :=
  match logs with
  | [] => ([], None)
  | log :: rest =>
      match unpack build c event log with
      | inl err => ([], Some err)
      | inr e => let '(es, bad) := decode rest in (e :: es, bad)
      end
  end.

(** A reader's loop [for it.Next() { use(it.Event) }], with the choices of its
    [select]s. *)
Fixpoint drain (choices : list bool) (it : Iterator E) : option (list E * Iterator E) :=
  match choices with
  | [] => None
  | early :: choices' =>
      match iter_Next build early it with
      | (true, it') =>
          e ← it_Event it';
          '(es, last) ← drain choices' it';
          Some (e :: es, last)
      | (false, it') => Some ([], it')
      end
  end.

(** Read to its end. *)
Definition exhausted (it : Iterator E) : Prop := ∀ early, (iter_Next build early it).1 = false.

(** What a reader got of logs: all events, or those before the end of the
    subscription with its error. *)
Definition delivered (logs : list Log) (sub : option error) (es : list E) (err : option error) : Prop :=
  (es = (decode logs).1 ∧ err = match (decode logs).2 with Some bad => Some bad | None => sub end) ∨
  (∃ e, sub = Some e ∧ err = Some e ∧ es `prefix_of` (decode logs).1).

Lemma delivered_cons log logs sub e es err :
  unpack build c event log = inr e → delivered logs sub es err → delivered (log :: logs) sub (e :: es) err.
Proof.
  intros Hu. unfold delivered. simpl. rewrite Hu. destruct (decode logs) as [all bad]. simpl.
  intros [[-> ->]|(x & -> & -> & Hp)]; [by left|]. right. exists x. split_and!; [done..|]. by apply prefix_cons.
Qed.

(** The end of a read of [logs]. *)
Lemma drain_delivers logs sub done ev choices :
  (done = true → sub = None) → (length logs < length choices)%nat →
  ∃ es last, drain choices (mkIterator E ev c event logs sub done None) = Some (es, last) ∧
    delivered logs sub es (iter_Error last) ∧ exhausted last.
Proof.
  revert done ev choices. induction logs as [|log logs IH]; intros isdone ev [|early choices] Hd Hl; simpl in *;
    try lia.
  - destruct isdone.
    + rewrite Hd by done. do 2 eexists. split_and!; [done|by left|by intros []].
    + do 2 eexists. split_and!; [done|by left|]. intros []; by destruct sub.
  - assert (∀ isdone', (isdone' = true → sub = None) →
      ∃ es last, match receive build log logs (mkIterator E ev c event (log :: logs) sub isdone' None) with
        | (true, it') => e ← it_Event it'; '(es, last) ← drain choices it'; Some (e :: es, last)
        | (false, it') => Some ([], it')
        end = Some (es, last) ∧ delivered (log :: logs) sub es (iter_Error last) ∧ exhausted last) as Hgo.
    { intros isdone' Hd'. simpl. destruct (unpack build c event log) as [bad|e] eqn:Hu; simpl.
      - do 2 eexists. split_and!; [done| |by intros []]. left. simpl. by rewrite Hu.
      - destruct (IH isdone' (Some e) choices Hd' ltac:(lia)) as (es & last & -> & Hdel & Hex). simpl.
        do 2 eexists. split_and!; [done| |done]. by apply delivered_cons. }
    destruct isdone; [by apply Hgo|]. destruct early; [|by apply Hgo].
    destruct sub as [err|]; [|by apply Hgo].
    do 2 eexists. split_and!; [done| |by intros []]. right. exists err. split_and!; [done..|apply prefix_nil].
Qed.

(** ** Subscriptions *)

Definition log_of (i : watch_input) : option Log := match i with WLog log => Some log | _ => None end.

(** The event in the goroutine's hand. *)
Definition hand (s : watch_state E) : list E := match s with WSending _ e => [e] | _ => [] end.

(** The events of the logs seen are those taken, in order, with the one in the
    hand or lost at the return, and the log that cannot be unpacked is the error
    of the return. *)
Definition watched (before : list E) (logs : list Log) (taken : list E) (last : watch_state E) : Prop :=
  ∃ rest, (before ++ (decode logs).1 = taken ++ rest)%list ∧
    match last with
    | WIdle _ | WSending _ _ => rest = hand last ∧ (decode logs).2 = None
    | WReturned _ err => (length rest <= 1)%nat ∧ ((decode logs).2 = None ∨ (rest = [] ∧ (decode logs).2 = err))
    end.

Lemma watch_run_returned inputs err taken last :
  watch_run build c event (WReturned E err) inputs = Some (taken, last) →
  inputs = [] ∧ taken = [] ∧ last = WReturned E err.
Proof. destruct inputs as [|[] inputs]; simpl; naive_solver. Qed.

Lemma watch_run_delivers inputs s taken last :
  watch_run build c event s inputs = Some (taken, last) → watched (hand s) (omap log_of inputs) taken last.
Proof.
  revert s taken. induction inputs as [|i inputs IH]; intros s taken; simpl.
  - intros [= <- <-]. exists (hand s). rewrite app_nil_r. split; [done|]. destruct s; simpl; auto with lia.
  - destruct (watch_step build c event s i) as [s'|] eqn:Hs; [|done]. simpl.
    destruct (watch_run build c event s' inputs) as [[taken0 last0]|] eqn:Hr; [|done]. simpl.
    intros [= <- <-]. destruct (IH _ _ Hr) as (rest & He & Hl).
    destruct s as [|e|], i as [log|suberr| |]; simplify_eq/=.
    + exists rest. simpl. destruct (unpack build c event log) as [bad|e]; simpl.
      * apply watch_run_returned in Hr as (-> & -> & ->). simpl in *. destruct rest; [|done]. auto with lia.
      * by destruct (decode _).
    + by exists rest.
    + by exists rest.
    + apply watch_run_returned in Hr as (-> & -> & ->). exists [e]. simpl. auto with lia.
    + apply watch_run_returned in Hr as (-> & -> & ->). exists [e]. simpl. auto with lia.
    + exists rest. simpl. by rewrite He.
Qed.

(** C40: a reader of events misses none and repeats none.  Whatever is ready
    first in each [Next], a loop over an iterator ends after at most one [Next]
    more than there are logs, and a [Next] after it is false as well; it got the
    events of all logs, in order, up to the first that cannot be unpacked, whose
    error [Error] returns, or [Error] returns the error the subscription ended
    with: without an error there was nothing more to read.  The events the
    reader of a subscription took are, in order, those of the logs its goroutine
    received, but for the one in its hand, or at most one dropped at its
    return. *)
Theorem events_delivered :
  (∀ s choices, (length (ls_logs s) < length choices)%nat →
     ∃ es last, drain choices (new_iterator c event s) = Some (es, last) ∧
       delivered (ls_logs s) (ls_end s) es (iter_Error last) ∧ exhausted last) ∧
  (∀ inputs taken last, watch_run build c event (WIdle E) inputs = Some (taken, last) →
     watched [] (omap log_of inputs) taken last).
Proof.
  split.
  - intros s choices Hl. by apply drain_delivers.
  - intros inputs taken last. apply (watch_run_delivers inputs (WIdle E)).
Qed.

End streams.

(** ** A concrete node *)

(** Logs that are their fields; a log without a field cannot be unpacked. *)
Definition PlainBind : BindLib := {|
  Backend := unit; CallOpts := unit; TransactOpts := unit; FilterOpts := unit; WatchOpts := unit;
  Transaction := unit; Log := list GoVal;
  GetAbi abi := inr (Some abi);
  FromHex s := [];
  UnpackLog _ _ log := match log with [] => inl (Errorf "abi: attempting to unmarshal an empty string" []) | _ => inr log end;
|}.

Definition number (fields : list GoVal) (log : @Log PlainBind) : option Z :=
  match fields with [GBig n] => Some n | _ => None end.

(** Three numbers and a log that cannot be unpacked, of a subscription that ends
    with an error, and the subscription of a reader that quits. *)
Lemma events_delivered_witness :
  let c := @mkBoundContract PlainBind [] (mkABI [] []) None None (Some tt) in
  let s := @mkLogStream PlainBind [[GBig 1]; [GBig 2]; []; [GBig 3]] (Some (Errorf "closed" [])) in
  (∃ es last, @drain PlainBind Z number [false; false; false; true; true] (@new_iterator PlainBind Z c "Numbered" s) = Some (es, last) ∧
    @delivered PlainBind Z number c "Numbered" (ls_logs s) (ls_end s) es (iter_Error last) ∧ @exhausted PlainBind Z number last) ∧
  @watched PlainBind Z number c "Numbered" [] [[GBig 1]; [GBig 2]] [1] (WReturned Z None).
Proof.
  intros c s. destruct (@events_delivered PlainBind Z number c "Numbered") as [Hi Hw]. split.
  - apply Hi. simpl. lia.
  - by apply (Hw [@WLog PlainBind [GBig 1]; WTaken; @WLog PlainBind [GBig 2]; WQuit]).
Defined.
