(* ===== verification/Contracts.v ===== *)
(** * The bindings against the ABIs of the contracts

    Every method and event of the generated bindings is one of the ABI of its
    contract, with its types; each method and event of the ABI has its binding;
    and so have the transactions the driver packs itself. *)

From Stdlib Require Import ZArith Lia.
From S2P Require Import Prelude Sql ProofRequest Prog Types Script Range Driver Bindings Oracle Factory BindingsProofs.

Local Open Scope string_scope.
Local Open Scope Z_scope.

(** ** The structs of the contracts *)

(** The fields of a [GStruct] by their types. *)
Ltac fields :=
  repeat match goal with
  | H : Is_true (_ && _) |- _ => apply andb_True in H as [? H]
  end;
  repeat match goal with
  | H : Is_true (match ?v with _ => _ end) |- _ =>
      destruct v; simpl in H; try done; first [apply Is_true_true, Z.eqb_eq in H; subst | clear H]
  end.

Tactic Notation "struct" integer(n) :=
  split;
  [ intros [] t Hf; rewrite <- (ty_eqb_typed _ _ _ Hf); exact I
  | intros v t Hf; rewrite <- (ty_eqb_typed _ _ _ Hf); clear Hf; destruct v as [ | | | | | | |vs| ]; try done;
    intros Hv; simpl in Hv;
    do n (destruct vs as [|? vs]; [by fields|]); destruct vs; [|by fields]; fields; simpl; eauto
  | by intros []
  | intros v x Hx; simpl in Hx;
    repeat match type of Hx with context [match ?v with _ => _ end] => destruct v; try done end; by simplify_eq ].

#[export] Instance tOutputProposal_good : Good tOutputProposal.
Proof. struct 3. Qed.
#[export] Instance tGameSearchResult_good : Good tGameSearchResult.
Proof. struct 5. Qed.
#[export] Instance tInitParams_good : Good tInitParams.
Proof. struct 13. Qed.

Section contracts.
Context `{BindLib}.

(** ** The output oracle *)

(** The methods of a session: what each asks for, and the values of its result. *)
Inductive L2OO_reads (s : L2OOSession) : string → list GoVal → ∀ A, (A → list GoVal) → bprog A → Prop :=
| l2oo_CHALLENGER : L2OO_reads s "CHALLENGER" [] _ (λ x, [to_go tAddress x]) (L2OOSession_CHALLENGER s)
| l2oo_FINALIZATIONPERIODSECONDS : L2OO_reads s "FINALIZATION_PERIOD_SECONDS" [] _ (λ x, [to_go tBig x]) (L2OOSession_FINALIZATIONPERIODSECONDS s)
| l2oo_L2BLOCKTIME : L2OO_reads s "L2_BLOCK_TIME" [] _ (λ x, [to_go tBig x]) (L2OOSession_L2BLOCKTIME s)
| l2oo_PROPOSER : L2OO_reads s "PROPOSER" [] _ (λ x, [to_go tAddress x]) (L2OOSession_PROPOSER s)
| l2oo_SUBMISSIONINTERVAL : L2OO_reads s "SUBMISSION_INTERVAL" [] _ (λ x, [to_go tBig x]) (L2OOSession_SUBMISSIONINTERVAL s)
| l2oo_AggregationVkey : L2OO_reads s "aggregationVkey" [] _ (λ x, [to_go tBytes32 x]) (L2OOSession_AggregationVkey s)
| l2oo_ApprovedProposers (arg0 : Address) : L2OO_reads s "approvedProposers" [GAddress arg0] _ (λ x, [to_go tBool x]) (L2OOSession_ApprovedProposers s arg0)
| l2oo_Challenger : L2OO_reads s "challenger" [] _ (λ x, [to_go tAddress x]) (L2OOSession_Challenger s)
| l2oo_ComputeL2Timestamp (_l2BlockNumber : Z) : L2OO_reads s "computeL2Timestamp" [GBig _l2BlockNumber] _ (λ x, [to_go tBig x]) (L2OOSession_ComputeL2Timestamp s _l2BlockNumber)
| l2oo_FinalizationPeriodSeconds : L2OO_reads s "finalizationPeriodSeconds" [] _ (λ x, [to_go tBig x]) (L2OOSession_FinalizationPeriodSeconds s)
| l2oo_GetL2Output (_l2OutputIndex : Z) : L2OO_reads s "getL2Output" [GBig _l2OutputIndex] _ (λ x, [to_go tOutputProposal x]) (L2OOSession_GetL2Output s _l2OutputIndex)
| l2oo_GetL2OutputAfter (_l2BlockNumber : Z) : L2OO_reads s "getL2OutputAfter" [GBig _l2BlockNumber] _ (λ x, [to_go tOutputProposal x]) (L2OOSession_GetL2OutputAfter s _l2BlockNumber)
| l2oo_GetL2OutputIndexAfter (_l2BlockNumber : Z) : L2OO_reads s "getL2OutputIndexAfter" [GBig _l2BlockNumber] _ (λ x, [to_go tBig x]) (L2OOSession_GetL2OutputIndexAfter s _l2BlockNumber)
| l2oo_HistoricBlockHashes (arg0 : Z) : L2OO_reads s "historicBlockHashes" [GBig arg0] _ (λ x, [to_go tBytes32 x]) (L2OOSession_HistoricBlockHashes s arg0)
| l2oo_InitializerVersion : L2OO_reads s "initializerVersion" [] _ (λ x, [to_go (tUint 8) x]) (L2OOSession_InitializerVersion s)
| l2oo_L2BlockTime : L2OO_reads s "l2BlockTime" [] _ (λ x, [to_go tBig x]) (L2OOSession_L2BlockTime s)
| l2oo_LatestBlockNumber : L2OO_reads s "latestBlockNumber" [] _ (λ x, [to_go tBig x]) (L2OOSession_LatestBlockNumber s)
| l2oo_LatestOutputIndex : L2OO_reads s "latestOutputIndex" [] _ (λ x, [to_go tBig x]) (L2OOSession_LatestOutputIndex s)
| l2oo_NextBlockNumber : L2OO_reads s "nextBlockNumber" [] _ (λ x, [to_go tBig x]) (L2OOSession_NextBlockNumber s)
| l2oo_NextOutputIndex : L2OO_reads s "nextOutputIndex" [] _ (λ x, [to_go tBig x]) (L2OOSession_NextOutputIndex s)
| l2oo_Owner : L2OO_reads s "owner" [] _ (λ x, [to_go tAddress x]) (L2OOSession_Owner s)
| l2oo_Proposer : L2OO_reads s "proposer" [] _ (λ x, [to_go tAddress x]) (L2OOSession_Proposer s)
| l2oo_RangeVkeyCommitment : L2OO_reads s "rangeVkeyCommitment" [] _ (λ x, [to_go tBytes32 x]) (L2OOSession_RangeVkeyCommitment s)
| l2oo_RollupConfigHash : L2OO_reads s "rollupConfigHash" [] _ (λ x, [to_go tBytes32 x]) (L2OOSession_RollupConfigHash s)
| l2oo_StartingBlockNumber : L2OO_reads s "startingBlockNumber" [] _ (λ x, [to_go tBig x]) (L2OOSession_StartingBlockNumber s)
| l2oo_StartingTimestamp : L2OO_reads s "startingTimestamp" [] _ (λ x, [to_go tBig x]) (L2OOSession_StartingTimestamp s)
| l2oo_SubmissionInterval : L2OO_reads s "submissionInterval" [] _ (λ x, [to_go tBig x]) (L2OOSession_SubmissionInterval s)
| l2oo_Verifier : L2OO_reads s "verifier" [] _ (λ x, [to_go tAddress x]) (L2OOSession_Verifier s)
| l2oo_Version : L2OO_reads s "version" [] _ (λ x, [to_go tString x]) (L2OOSession_Version s).

Inductive L2OO_sends (s : L2OOSession) : string → list GoVal → bprog Transaction → Prop :=
| l2oo_AddProposer (_proposer : Address) : L2OO_sends s "addProposer" [GAddress _proposer] (L2OOSession_AddProposer s _proposer)
| l2oo_CheckpointBlockHash (_blockNumber : Z) : L2OO_sends s "checkpointBlockHash" [GBig _blockNumber] (L2OOSession_CheckpointBlockHash s _blockNumber)
| l2oo_DeleteL2Outputs (_l2OutputIndex : Z) : L2OO_sends s "deleteL2Outputs" [GBig _l2OutputIndex] (L2OOSession_DeleteL2Outputs s _l2OutputIndex)
| l2oo_Initialize (_initParams : InitParams) : L2OO_sends s "initialize" [to_go tInitParams _initParams] (L2OOSession_Initialize s _initParams)
| l2oo_ProposeL2Output (_outputRoot : Z) (_l2BlockNumber : Z) (_l1BlockNumber : Z) (_proof : bytes) : L2OO_sends s "proposeL2Output" [GBytes32 _outputRoot; GBig _l2BlockNumber; GBig _l1BlockNumber; GBytes _proof] (L2OOSession_ProposeL2Output s _outputRoot _l2BlockNumber _l1BlockNumber _proof)
| l2oo_RemoveProposer (_proposer : Address) : L2OO_sends s "removeProposer" [GAddress _proposer] (L2OOSession_RemoveProposer s _proposer)
| l2oo_TransferOwnership (_owner : Address) : L2OO_sends s "transferOwnership" [GAddress _owner] (L2OOSession_TransferOwnership s _owner)
| l2oo_UpdateAggregationVkey (_aggregationVkey : Z) : L2OO_sends s "updateAggregationVkey" [GBytes32 _aggregationVkey] (L2OOSession_UpdateAggregationVkey s _aggregationVkey)
| l2oo_UpdateRangeVkeyCommitment (_rangeVkeyCommitment : Z) : L2OO_sends s "updateRangeVkeyCommitment" [GBytes32 _rangeVkeyCommitment] (L2OOSession_UpdateRangeVkeyCommitment s _rangeVkeyCommitment)
| l2oo_UpdateRollupConfigHash (_rollupConfigHash : Z) : L2OO_sends s "updateRollupConfigHash" [GBytes32 _rollupConfigHash] (L2OOSession_UpdateRollupConfigHash s _rollupConfigHash)
| l2oo_UpdateSubmissionInterval (_submissionInterval : Z) : L2OO_sends s "updateSubmissionInterval" [GBig _submissionInterval] (L2OOSession_UpdateSubmissionInterval s _submissionInterval)
| l2oo_UpdateVerifier (_verifier : Address) : L2OO_sends s "updateVerifier" [GAddress _verifier] (L2OOSession_UpdateVerifier s _verifier).

(** Its events: the rules, the fields, the struct, the iterator and the subscription. *)
Inductive L2OO_events (f : L2OOFilterer) : string → list (list GoVal) → ∀ E, (E → list GoVal) → Builder E → bprog (Iterator E) →
    bprog (list watch_input → option (list E * watch_state E)) → Prop :=
| l2oo_AggregationVkeyUpdated fopts wopts (oldAggregationVkey : list Z) (newAggregationVkey : list Z) : L2OO_events f "AggregationVkeyUpdated" [(λ x, GBytes32 x) <$> oldAggregationVkey; (λ x, GBytes32 x) <$> newAggregationVkey] _ (λ x, [GBytes32 (L2OOAggregationVkeyUpdated_OldAggregationVkey x); GBytes32 (L2OOAggregationVkeyUpdated_NewAggregationVkey x)]) build_L2OOAggregationVkeyUpdated
    (L2OOFilterer_FilterAggregationVkeyUpdated f fopts oldAggregationVkey newAggregationVkey) (L2OOFilterer_WatchAggregationVkeyUpdated f wopts oldAggregationVkey newAggregationVkey)
| l2oo_Initialized fopts wopts : L2OO_events f "Initialized" [] _ (λ x, [GUint 8 (L2OOInitialized_Version x)]) build_L2OOInitialized
    (L2OOFilterer_FilterInitialized f fopts) (L2OOFilterer_WatchInitialized f wopts)
| l2oo_OutputProposed fopts wopts (outputRoot : list Z) (l2OutputIndex : list Z) (l2BlockNumber : list Z) : L2OO_events f "OutputProposed" [(λ x, GBytes32 x) <$> outputRoot; (λ x, GBig x) <$> l2OutputIndex; (λ x, GBig x) <$> l2BlockNumber] _ (λ x, [GBytes32 (L2OOOutputProposed_OutputRoot x); GBig (L2OOOutputProposed_L2OutputIndex x); GBig (L2OOOutputProposed_L2BlockNumber x); GBig (L2OOOutputProposed_L1Timestamp x)]) build_L2OOOutputProposed
    (L2OOFilterer_FilterOutputProposed f fopts outputRoot l2OutputIndex l2BlockNumber) (L2OOFilterer_WatchOutputProposed f wopts outputRoot l2OutputIndex l2BlockNumber)
| l2oo_OutputsDeleted fopts wopts (prevNextOutputIndex : list Z) (newNextOutputIndex : list Z) : L2OO_events f "OutputsDeleted" [(λ x, GBig x) <$> prevNextOutputIndex; (λ x, GBig x) <$> newNextOutputIndex] _ (λ x, [GBig (L2OOOutputsDeleted_PrevNextOutputIndex x); GBig (L2OOOutputsDeleted_NewNextOutputIndex x)]) build_L2OOOutputsDeleted
    (L2OOFilterer_FilterOutputsDeleted f fopts prevNextOutputIndex newNextOutputIndex) (L2OOFilterer_WatchOutputsDeleted f wopts prevNextOutputIndex newNextOutputIndex)
| l2oo_OwnershipTransferred fopts wopts (previousOwner : list Address) (newOwner : list Address) : L2OO_events f "OwnershipTransferred" [(λ x, GAddress x) <$> previousOwner; (λ x, GAddress x) <$> newOwner] _ (λ x, [GAddress (L2OOOwnershipTransferred_PreviousOwner x); GAddress (L2OOOwnershipTransferred_NewOwner x)]) build_L2OOOwnershipTransferred
    (L2OOFilterer_FilterOwnershipTransferred f fopts previousOwner newOwner) (L2OOFilterer_WatchOwnershipTransferred f wopts previousOwner newOwner)
| l2oo_ProposerUpdated fopts wopts (proposer : list Address) : L2OO_events f "ProposerUpdated" [(λ x, GAddress x) <$> proposer] _ (λ x, [GAddress (L2OOProposerUpdated_Proposer x); GBool (L2OOProposerUpdated_Added x)]) build_L2OOProposerUpdated
    (L2OOFilterer_FilterProposerUpdated f fopts proposer) (L2OOFilterer_WatchProposerUpdated f wopts proposer)
| l2oo_RangeVkeyCommitmentUpdated fopts wopts (oldRangeVkeyCommitment : list Z) (newRangeVkeyCommitment : list Z) : L2OO_events f "RangeVkeyCommitmentUpdated" [(λ x, GBytes32 x) <$> oldRangeVkeyCommitment; (λ x, GBytes32 x) <$> newRangeVkeyCommitment] _ (λ x, [GBytes32 (L2OORangeVkeyCommitmentUpdated_OldRangeVkeyCommitment x); GBytes32 (L2OORangeVkeyCommitmentUpdated_NewRangeVkeyCommitment x)]) build_L2OORangeVkeyCommitmentUpdated
    (L2OOFilterer_FilterRangeVkeyCommitmentUpdated f fopts oldRangeVkeyCommitment newRangeVkeyCommitment) (L2OOFilterer_WatchRangeVkeyCommitmentUpdated f wopts oldRangeVkeyCommitment newRangeVkeyCommitment)
| l2oo_RollupConfigHashUpdated fopts wopts (oldRollupConfigHash : list Z) (newRollupConfigHash : list Z) : L2OO_events f "RollupConfigHashUpdated" [(λ x, GBytes32 x) <$> oldRollupConfigHash; (λ x, GBytes32 x) <$> newRollupConfigHash] _ (λ x, [GBytes32 (L2OORollupConfigHashUpdated_OldRollupConfigHash x); GBytes32 (L2OORollupConfigHashUpdated_NewRollupConfigHash x)]) build_L2OORollupConfigHashUpdated
    (L2OOFilterer_FilterRollupConfigHashUpdated f fopts oldRollupConfigHash newRollupConfigHash) (L2OOFilterer_WatchRollupConfigHashUpdated f wopts oldRollupConfigHash newRollupConfigHash)
| l2oo_SubmissionIntervalUpdated fopts wopts : L2OO_events f "SubmissionIntervalUpdated" [] _ (λ x, [GBig (L2OOSubmissionIntervalUpdated_OldSubmissionInterval x); GBig (L2OOSubmissionIntervalUpdated_NewSubmissionInterval x)]) build_L2OOSubmissionIntervalUpdated
    (L2OOFilterer_FilterSubmissionIntervalUpdated f fopts) (L2OOFilterer_WatchSubmissionIntervalUpdated f wopts)
| l2oo_VerifierUpdated fopts wopts (oldVerifier : list Address) (newVerifier : list Address) : L2OO_events f "VerifierUpdated" [(λ x, GAddress x) <$> oldVerifier; (λ x, GAddress x) <$> newVerifier] _ (λ x, [GAddress (L2OOVerifierUpdated_OldVerifier x); GAddress (L2OOVerifierUpdated_NewVerifier x)]) build_L2OOVerifierUpdated
    (L2OOFilterer_FilterVerifierUpdated f fopts oldVerifier newVerifier) (L2OOFilterer_WatchVerifierUpdated f wopts oldVerifier newVerifier).

(** ** The dispute game factory *)

(** The methods of a session: what each asks for, and the values of its result. *)
Inductive DGF_reads (s : DGFSession) : string → list GoVal → ∀ A, (A → list GoVal) → bprog A → Prop :=
| dgf_FindLatestGames (_gameType : Z) (_start : Z) (_n : Z) : DGF_reads s "findLatestGames" [GUint 32 _gameType; GBig _start; GBig _n] _ (λ x, [to_go (tSlice tGameSearchResult) x]) (DGFSession_FindLatestGames s _gameType _start _n)
| dgf_GameAtIndex (_index : Z) : DGF_reads s "gameAtIndex" [GBig _index] _ (λ x, [GUint 32 (DGFGameAtIndex_GameType x); GUint 64 (DGFGameAtIndex_Timestamp x); GAddress (DGFGameAtIndex_Proxy x)]) (DGFSession_GameAtIndex s _index)
| dgf_GameCount : DGF_reads s "gameCount" [] _ (λ x, [to_go tBig x]) (DGFSession_GameCount s)
| dgf_GameImpls (arg0 : Z) : DGF_reads s "gameImpls" [GUint 32 arg0] _ (λ x, [to_go tAddress x]) (DGFSession_GameImpls s arg0)
| dgf_Games (_gameType : Z) (_rootClaim : Z) (_extraData : bytes) : DGF_reads s "games" [GUint 32 _gameType; GBytes32 _rootClaim; GBytes _extraData] _ (λ x, [GAddress (DGFGames_Proxy x); GUint 64 (DGFGames_Timestamp x)]) (DGFSession_Games s _gameType _rootClaim _extraData)
| dgf_GetGameUUID (_gameType : Z) (_rootClaim : Z) (_extraData : bytes) : DGF_reads s "getGameUUID" [GUint 32 _gameType; GBytes32 _rootClaim; GBytes _extraData] _ (λ x, [to_go tBytes32 x]) (DGFSession_GetGameUUID s _gameType _rootClaim _extraData)
| dgf_InitBonds (arg0 : Z) : DGF_reads s "initBonds" [GUint 32 arg0] _ (λ x, [to_go tBig x]) (DGFSession_InitBonds s arg0)
| dgf_Owner : DGF_reads s "owner" [] _ (λ x, [to_go tAddress x]) (DGFSession_Owner s)
| dgf_Version : DGF_reads s "version" [] _ (λ x, [to_go tString x]) (DGFSession_Version s).

Inductive DGF_sends (s : DGFSession) : string → list GoVal → bprog Transaction → Prop :=
| dgf_Create (_gameType : Z) (_rootClaim : Z) (_extraData : bytes) : DGF_sends s "create" [GUint 32 _gameType; GBytes32 _rootClaim; GBytes _extraData] (DGFSession_Create s _gameType _rootClaim _extraData)
| dgf_Initialize (_owner : Address) : DGF_sends s "initialize" [GAddress _owner] (DGFSession_Initialize s _owner)
| dgf_RenounceOwnership : DGF_sends s "renounceOwnership" [] (DGFSession_RenounceOwnership s)
| dgf_SetImplementation (_gameType : Z) (_impl : Address) : DGF_sends s "setImplementation" [GUint 32 _gameType; GAddress _impl] (DGFSession_SetImplementation s _gameType _impl)
| dgf_SetInitBond (_gameType : Z) (_initBond : Z) : DGF_sends s "setInitBond" [GUint 32 _gameType; GBig _initBond] (DGFSession_SetInitBond s _gameType _initBond)
| dgf_TransferOwnership (newOwner : Address) : DGF_sends s "transferOwnership" [GAddress newOwner] (DGFSession_TransferOwnership s newOwner).

(** Its events: the rules, the fields, the struct, the iterator and the subscription. *)
Inductive DGF_events (f : DGFFilterer) : string → list (list GoVal) → ∀ E, (E → list GoVal) → Builder E → bprog (Iterator E) →
    bprog (list watch_input → option (list E * watch_state E)) → Prop :=
| dgf_DisputeGameCreated fopts wopts (disputeProxy : list Address) (gameType : list Z) (rootClaim : list Z) : DGF_events f "DisputeGameCreated" [(λ x, GAddress x) <$> disputeProxy; (λ x, GUint 32 x) <$> gameType; (λ x, GBytes32 x) <$> rootClaim] _ (λ x, [GAddress (DGFDisputeGameCreated_DisputeProxy x); GUint 32 (DGFDisputeGameCreated_GameType x); GBytes32 (DGFDisputeGameCreated_RootClaim x)]) build_DGFDisputeGameCreated
    (DGFFilterer_FilterDisputeGameCreated f fopts disputeProxy gameType rootClaim) (DGFFilterer_WatchDisputeGameCreated f wopts disputeProxy gameType rootClaim)
| dgf_ImplementationSet fopts wopts (impl : list Address) (gameType : list Z) : DGF_events f "ImplementationSet" [(λ x, GAddress x) <$> impl; (λ x, GUint 32 x) <$> gameType] _ (λ x, [GAddress (DGFImplementationSet_Impl x); GUint 32 (DGFImplementationSet_GameType x)]) build_DGFImplementationSet
    (DGFFilterer_FilterImplementationSet f fopts impl gameType) (DGFFilterer_WatchImplementationSet f wopts impl gameType)
| dgf_InitBondUpdated fopts wopts (gameType : list Z) (newBond : list Z) : DGF_events f "InitBondUpdated" [(λ x, GUint 32 x) <$> gameType; (λ x, GBig x) <$> newBond] _ (λ x, [GUint 32 (DGFInitBondUpdated_GameType x); GBig (DGFInitBondUpdated_NewBond x)]) build_DGFInitBondUpdated
    (DGFFilterer_FilterInitBondUpdated f fopts gameType newBond) (DGFFilterer_WatchInitBondUpdated f wopts gameType newBond)
| dgf_Initialized fopts wopts : DGF_events f "Initialized" [] _ (λ x, [GUint 8 (DGFInitialized_Version x)]) build_DGFInitialized
    (DGFFilterer_FilterInitialized f fopts) (DGFFilterer_WatchInitialized f wopts)
| dgf_OwnershipTransferred fopts wopts (previousOwner : list Address) (newOwner : list Address) : DGF_events f "OwnershipTransferred" [(λ x, GAddress x) <$> previousOwner; (λ x, GAddress x) <$> newOwner] _ (λ x, [GAddress (DGFOwnershipTransferred_PreviousOwner x); GAddress (DGFOwnershipTransferred_NewOwner x)]) build_DGFOwnershipTransferred
    (DGFFilterer_FilterOwnershipTransferred f fopts previousOwner newOwner) (DGFFilterer_WatchOwnershipTransferred f wopts previousOwner newOwner).

(** ** Each binding implements its ABI *)

(** The rules of the indexed parameters. *)
Ltac rules :=
  match goal with
  | |- Forall2 _ ?l _ => let l' := eval vm_compute in l in change l with l'
  end;
  repeat (constructor; [by apply (rule_typed _)|]); constructor.

(** The list of values of given types, value by value. *)
Ltac values Hvs :=
  simpl in Hvs;
  repeat match type of Hvs with context [match ?v with _ => _ end] => destruct v as [|? vs]; simpl in Hvs; try done end;
  fields; simpl; eauto.

(** The struct of an event, field by field. *)
Ltac event_struct :=
  match goal with
  | |- ∀ vs log, _ → ∃ ev, ?build vs log = Some ev ∧ _ =>
      let b := eval red in build in change build with b; intros vs log Hvs; values Hvs
  end.

(** A method whose outputs are the fields of a struct. *)
Ltac several_outputs c :=
  exists c; do 3 eexists; split_and!;
  [reflexivity | reflexivity | vm_compute; reflexivity | exact I | vm_compute; exact I | done | intros vs Hvs; values Hvs].

Section implement.
Context (address : Address) (backend : Backend) (co : CallOpts) (to : TransactOpts) (fo : FilterOpts) (wo : WatchOpts).

Lemma L2OO_implements :
  let c := mkBoundContract address L2OOABI (Some backend) (Some backend) (Some backend) in
  let b := mkL2OO (mkL2OOCaller c) (mkL2OOTransactor c) (mkL2OOFilterer c) in
  implements L2OOABI (L2OO_reads (mkL2OOSession b co to)) (L2OO_sends (mkL2OOSession b co to))
    (L2OO_events (l2oo_Filterer b)).
Proof.
  intros c b. split.
  - intros name args A enc p []; (apply (call1_reads _ c); vm_compute; exact I).
  - intros name args p []; (apply (transact_sends c); try destruct _initParams; vm_compute; exact I).
  - intros name query E enc build f w [];
      (eapply (filter_reads _ _ c); [vm_compute; reflexivity | rules | ]).
    all: event_struct.
  - repeat constructor; repeat eexists; constructor.
  - repeat constructor; repeat eexists; constructor.
    Unshelve. all: first [exact 0 | exact [] | exact fo | exact wo | exact (mkInitParams [] [] [] 0 0 0 0 0 0 0 0 0 [])].
Qed.

Lemma DGF_implements :
  let c := mkBoundContract address DGFABI (Some backend) (Some backend) (Some backend) in
  let b := mkDGF (mkDGFCaller c) (mkDGFTransactor c) (mkDGFFilterer c) in
  implements DGFABI (DGF_reads (mkDGFSession b co to)) (DGF_sends (mkDGFSession b co to))
    (DGF_events (dgf_Filterer b)).
Proof.
  intros c b. split.
  - intros name args A enc p []; first [apply (call1_reads _ c); vm_compute; exact I | several_outputs c].
  - intros name args p []; (apply (transact_sends c); vm_compute; exact I).
  - intros name query E enc build f w [];
      (eapply (filter_reads _ _ c); [vm_compute; reflexivity | rules | ]).
    all: event_struct.
  - repeat constructor; repeat eexists; constructor.
  - repeat constructor; repeat eexists; constructor.
    Unshelve. all: first [exact 0 | exact [] | exact fo | exact wo | exact (mkInitParams [] [] [] 0 0 0 0 0 0 0 0 0 [])].
Qed.

End implement.
End contracts.

(** ** What [NewL2OO] and [NewDGF] return *)

Section theorems.
Context `{BindLib}.

(** C38: the bindings implement the ABIs of their contracts.  [NewL2OO] and
    [NewDGF] return bindings with which each method asks for the method of the
    ABI it is named for, as a call or a transaction as its mutability says,
    with its arguments in order and of its types; a call hands back an error,
    and any answer with the types of the ABI as the value that encodes to it,
    without a panic; each event is read by a rule for each indexed parameter
    into a struct of its fields; and no method or event of the ABI is left
    out. *)
Theorem bindings_implement_abis (address : Address) (backend : Backend) :
  GetAbi L2OOABI = inr (Some L2OOABI) → GetAbi DGFABI = inr (Some DGFABI) →
  (∃ b, NewL2OO address backend = BRet b ∧ ∀ co to (fo : FilterOpts) (wo : WatchOpts),
     implements L2OOABI (L2OO_reads (mkL2OOSession b co to)) (L2OO_sends (mkL2OOSession b co to))
       (L2OO_events (l2oo_Filterer b))) ∧
  (∃ b, NewDGF address backend = BRet b ∧ ∀ co to (fo : FilterOpts) (wo : WatchOpts),
     implements DGFABI (DGF_reads (mkDGFSession b co to)) (DGF_sends (mkDGFSession b co to))
       (DGF_events (dgf_Filterer b))).
Proof.
  intros Hl Hd. unfold NewL2OO, bindL2OO, NewDGF, bindDGF, bind_contract. rewrite Hl, Hd.
  split; (eexists; split; [done|]); intros; [by apply L2OO_implements|by apply DGF_implements].
Qed.

(** A deployment asks for one creation, of the ABI and the bytecode, and binds
    the contract that was created. *)
Theorem deployments bin auth backend :
  GetAbi L2OOABI = inr (Some L2OOABI) → GetAbi DGFABI = inr (Some DGFABI) →
  (∃ k, DeployL2OO bin auth backend = BDo (BDeploy auth L2OOABI (FromHex bin) backend) k ∧
     (∀ err, k (inl err) = BErr err) ∧
     ∀ address tx c, k (inr (address, tx, c)) =
       BRet (address, tx, mkL2OO (mkL2OOCaller c) (mkL2OOTransactor c) (mkL2OOFilterer c))) ∧
  (∃ k, DeployDGF bin auth backend = BDo (BDeploy auth DGFABI (FromHex bin) backend) k ∧
     (∀ err, k (inl err) = BErr err) ∧
     ∀ address tx c, k (inr (address, tx, c)) =
       BRet (address, tx, mkDGF (mkDGFCaller c) (mkDGFTransactor c) (mkDGFFilterer c))).
Proof.
  intros Hl Hd. unfold DeployL2OO, DeployDGF, deploy_contract. rewrite Hl, Hd.
  split; eexists; by split_and!.
Qed.

(** The arguments of [Pack] as values of an ABI; a nil slice is packed as the
    empty one. *)
Definition go_val (a : abival) : GoVal :=
  match a with
  | ABytes32 z => GBytes32 z
  | AUint z => GBig z
  | AUint32 z => GUint 32 z
  | ABytes b => GBytes (default [] b)
  end.

(** [Pack] is given a method of the ABI and arguments of its types. *)
Definition packable (n : AbiName) (name : string) (args : list abival) : bool :=
  let with_inputs abi :=
    match find_method abi name with Some m => forallb2 typed (am_inputs m) (go_val <$> args) | None => false end in
  match n with
  | L2OOAbi => with_inputs L2OOABI
  | DgfAbi => with_inputs DGFABI
  | RawArguments => forallb2 typed [TUint 256; TUint 256; TBytes] (go_val <$> args)
  end.

Context `{External}.

(** C39: the calldata the driver packs by hand is that of the bindings.  If
    [Pack] packs the arguments that have the types of the method, the calldata
    of an output proposal, of a dispute game and of a checkpoint is always
    there, and is that of the method and the arguments that
    [ProposeL2Output], [Create] and [CheckpointBlockHash] of the bindings send;
    the bond is asked for as [InitBonds] does. *)
Theorem driver_packs_bindings (s : L2OOSession) (d : DGFSession) cfg output proof l1 blockNumber :
  (∀ n name args, packable n name args → ∃ data, abi_Pack n name args = inr data) →
  (∃ name args data, ProposeL2OutputTxData output proof l1 = inr data ∧ abi_Pack L2OOAbi name args = inr data ∧
     L2OO_sends s name (go_val <$> args)
       (L2OOSession_ProposeL2Output s (OutputRoot output) (BlockRef_Number output) l1 (default [] proof))) ∧
  (∃ extra name args data, abi_Pack RawArguments "" [AUint (BlockRef_Number output); AUint l1; ABytes proof] = inr extra ∧
     ProposeL2OutputDGFTxData cfg output proof l1 = inr data ∧ abi_Pack DgfAbi name args = inr data ∧
     DGF_sends d name (go_val <$> args) (DGFSession_Create d (DisputeGameType cfg) (OutputRoot output) extra)) ∧
  (∃ name args data, CheckpointBlockHashTxData blockNumber = inr data ∧ abi_Pack L2OOAbi name args = inr data ∧
     L2OO_sends s name (go_val <$> args) (L2OOSession_CheckpointBlockHash s blockNumber)) ∧
  (∃ name args data enc, abi_Pack DgfAbi name args = inr data ∧
     (GetBondAmount cfg = (bond ← call (EL1CallContract (DisputeGameFactoryAddr cfg) data); Ret (SetBytes bond))) ∧
     DGF_reads d name (go_val <$> args) Z enc (DGFSession_InitBonds d (DisputeGameType cfg))).
Proof.
  intros Hpack. unfold ProposeL2OutputTxData, ProposeL2OutputDGFTxData, CheckpointBlockHashTxData, GetBondAmount.
  destruct (Hpack L2OOAbi "proposeL2Output"
    [ABytes32 (OutputRoot output); AUint (BlockRef_Number output); AUint l1; ABytes proof] I) as [d1 H1].
  destruct (Hpack RawArguments "" [AUint (BlockRef_Number output); AUint l1; ABytes proof] I) as [extra H2].
  destruct (Hpack DgfAbi "create"
    [AUint32 (DisputeGameType cfg); ABytes32 (OutputRoot output); ABytes (Some extra)] I) as [d3 H3].
  destruct (Hpack L2OOAbi "checkpointBlockHash" [AUint blockNumber] I) as [d4 H4].
  destruct (Hpack DgfAbi "initBonds" [AUint32 (DisputeGameType cfg)] I) as [d5 H5].
  rewrite H1, H2, H3, H4, H5. split_and!.
  - do 3 eexists. split_and!; [done|exact H1|apply l2oo_ProposeL2Output].
  - do 4 eexists. split_and!; [done|done|exact H3|apply dgf_Create].
  - do 3 eexists. split_and!; [done|exact H4|apply l2oo_CheckpointBlockHash].
  - do 4 eexists. split_and!; [exact H5|done|apply dgf_InitBonds].
Qed.

End theorems.

(** ** At a concrete input *)

Lemma bindings_implement_abis_witness :
  GetAbi (BindLib:=PlainBind) DGFABI = inr (Some DGFABI) ∧
  (∃ b, @NewL2OO PlainBind [] tt = BRet b ∧ ∀ co to (fo : @FilterOpts PlainBind) (wo : @WatchOpts PlainBind),
     implements L2OOABI (L2OO_reads (mkL2OOSession b co to)) (L2OO_sends (mkL2OOSession b co to))
       (L2OO_events (l2oo_Filterer b))).
Proof. split; [reflexivity|]. apply (@bindings_implement_abis PlainBind [] tt); reflexivity. Defined.

(** A [Pack] that refuses what does not type-check. *)
Definition PackExternal : External := {|
  ext := ScriptState;
  ext_exec := @script_exec;
  ext_select := script_select;
  Address_Hex a := "0x";
  url_valid _ := true;
  abi_Pack n name args := if packable n name args then inr [] else inl (Errorf "abi: cannot use arguments" []);
|}.

Definition dispute_cfg : ProposerConfig :=
  mkConfig 12 10 1 100 None (Some [Byte.x02]) 6 true false "./op-proposer.db" true "http://beacon"
    "http://node" 40 2 20 10 3600 "http://server" 4 true.

Definition plain_contract (abi : ABI) : @BoundContract PlainBind := @mkBoundContract PlainBind [] abi (Some tt) (Some tt) (Some tt).
Definition plain_oracle : @L2OOSession PlainBind :=
  let c := plain_contract L2OOABI in
  @mkL2OOSession PlainBind (mkL2OO (mkL2OOCaller c) (mkL2OOTransactor c) (mkL2OOFilterer c)) tt tt.
Definition plain_factory : @DGFSession PlainBind :=
  let c := plain_contract DGFABI in
  @mkDGFSession PlainBind (mkDGF (mkDGFCaller c) (mkDGFTransactor c) (mkDGFFilterer c)) tt tt.

Lemma driver_packs_bindings_witness :
  let output := mkOutputResponse 0 7 100 0 quiet_heads in
  @abi_Pack PackExternal L2OOAbi "proposeL2Output" [AUint 7] = inl (Errorf "abi: cannot use arguments" []) ∧
  ∃ extra name args data,
    @abi_Pack PackExternal RawArguments "" [AUint 100; AUint 5; ABytes None] = inr extra ∧
    @ProposeL2OutputDGFTxData PackExternal dispute_cfg output None 5 = inr data ∧ @abi_Pack PackExternal DgfAbi name args = inr data ∧
    DGF_sends plain_factory name (go_val <$> args) (DGFSession_Create plain_factory 6 (OutputRoot output) extra).
Proof.
  intros output. split; [reflexivity|].
  apply (@driver_packs_bindings PlainBind PackExternal plain_oracle plain_factory dispute_cfg output None 5 0).
  intros n name args Hp. simpl. destruct (packable n name args); [eauto|done].
Defined.
